(* ===== verification/_CoqProject ===== *)
-Q . S2P
Prelude.v
Quorum.v
Aggregator.v
PartialQuorum.v
Attestation.v
StakeLedger.v
Status.v
Capabilities.v
MerkleLog.v
Retrieval.v
Lease.v
Cluster.v
Replay.v
RateLimit.v
Text.v
Tenant.v
SubmissionAuth.v
AdminAuth.v
Enrollment.v
Float32.v
Sharding.v
Gossip.v
Bloom.v
Verifier.v
Registry.v
Confidentiality.v
Scores.v
Journal.v
Network.v
SourceFetch.v
Wasm.v
Pipeline.v
Wire.v
WireAsync.v
Vrf.v
Coordinator.v
Agent.v
Service.v
AdminSession.v
AtomicFile.v
Webhook.v
Listener.v
AdminCli.v
Auditor.v
Tls.v
Process.v
AuditMain.v
Demos.v
Admission.v
Launcher.v
