(* ===== verification/Prelude.v ===== *)
(** * A verification library for CosaCI

    CosaCI is a distributed, attested continuous-integration mesh. A tenant
    submits a job; a coordinator draws a committee of runners by VRF among those
    whose capabilities match; the members run the job's pipeline and sign
    attestations of its artifact hash; the coordinator aggregates the votes by
    stake, slashes the runners that diverge, anchors the agreed artifact in an
    append-only Merkle log and serves inclusion proofs to readers.

    ** How the parts interact

    [Process] is the top: the coordinator from its command line on, with its
    files, its mutual-TLS listeners ([Tls]) and SIGHUP, around [Service]: the main
    loop, the submission reader and queue, reloads and signals, as interleaved
    events over the world of [Coordinator]. That one registers agents ([Wire] envelopes, [Vrf] and
    [Enrollment] checks) and, per job, drives [Vrf] claims, [Capabilities]
    selection, [Attestation] collection, [Quorum] aggregation, [StakeLedger]
    slashing, [MerkleLog] anchoring, [Journal] records and [Retrieval] bundles.
    [Agent] is the other end of its connections, and [AdminSession] the admin
    listener, which edits the enrollment and tenant files and the live registry.
    [Pipeline] is what a runner executes ([SourceFetch], [Wasm], native
    processes); its artifact hash is what an attestation carries. In front of
    the queue stands [SubmissionAuth] over [Tenant], [Replay] and [RateLimit];
    administrators come in through [AdminAuth]. [Listener] turns forge deliveries
    into signed submission lines for that queue, with [Webhook] checking the
    delivery and translating the manifest; [AdminCli] is the administrator's
    command, over the socket or on the files themselves, and [AtomicFile] how
    both replace those files; [Auditor] is the stand-alone verifier that queries
    the read API, and [AuditMain] its process. [Demos] walks one job through the
    libraries in a single process; [Launcher] prepares certificates, files and
    command lines for a coordinator and five agents. The remaining components are
    libraries of the state and core crates with their own contracts: the
    [Aggregator] life cycle, [PartialQuorum], [Lease] and its [Cluster]
    wrappers, [Sharding], [Gossip], [Bloom], [Verifier], [Status], [Network],
    [Registry], [Confidentiality], [Scores].

    ** Files and sources

    core = src/crates/cosaci-core/src, state = src/crates/cosaci-state/src,
    jobs = src/crates/cosaci-jobs/src; a Rocq definition has the name of the
    function, type or constant it translates, enum constructors are
    [Type_Variant] and record fields carry a prefix of their type.

    - [Prelude]: machine integers with the operations the sources use
      (saturating, wrapping, checked or wrapping by build profile), [result],
      byte orders, sums over finite maps, a stable insertion sort standing for
      [slice::sort_by] (stable, result determined by the comparison), tactics
      and the shared hint database.
    - [Text]: the string functions of the Rust standard library in use.
    - [Quorum]: core/quorum.rs. [Aggregator]: state/aggregator.rs.
      [PartialQuorum]: state/partial_quorum.rs. [StakeLedger]:
      state/stake_ledger.rs.
    - [Attestation]: core/attestation.rs, core/signing.rs. [Capabilities]:
      core/capabilities.rs. [Status]: core/status.rs, state/github_checks.rs.
    - [MerkleLog]: core/merkle_log.rs. [Retrieval]: core/retrieval.rs.
      [Verifier]: core/verifier.rs.
    - [Lease]: state/lease.rs. [Cluster]: state/partition.rs (Module [Gate]) and
      state/replicated_cluster.rs (Module [Replicated]).
    - [Replay], [RateLimit], [Tenant], [SubmissionAuth], [AdminAuth],
      [Enrollment], [Journal], [Registry]: the files of that name in state;
      [Tenant] also has the file edits of src/bins/cosaci-admin/src/main.rs.
    - [Sharding]: state/sharding.rs, state/sharding_handoff.rs. [Gossip],
      [Bloom], [Confidentiality]: core. [Scores]: core/reputation.rs,
      core/flake.rs.
    - [Network], [SourceFetch], [Pipeline]: jobs/network.rs,
      jobs/source_fetch.rs, jobs/lib.rs. [Wasm]:
      src/crates/cosaci-wasm/src/wasm_runtime.rs.
    - In src/crates/cosaci-protocol/src: [Wire] is proto.rs, [WireAsync]
      proto_async.rs, [Tls] tls.rs and tls_async.rs.
      [Vrf]: src/crates/cosaci-vrf/src/vrf.rs.
    - [Coordinator]: src/bins/cosaci-coordinator/src/main.rs, the functions
      [accept_fleet], [run_one_job], [LogBackend], [journal_append],
      [persist_captures], [load_captures], [handle_read_client] and the helpers
      they call. [Service]: [main] from the assembled fleet on,
      [spawn_stdin_reader], [check_submission] with its helpers, and the tenant
      part of [install_sighup_reloader]. [AdminSession]: [handle_admin_client]
      and the [admin_*] functions. [Process]: [main] up to its loop,
      [build_server_config], [install_sighup_reloader], [spawn_read_server],
      [spawn_admin_server]. [AtomicFile]: [append_atomic] and [write_atomic], of
      the coordinator and of the admin command.
    - [Agent]: src/bins/cosaci-agent/src/main.rs.
    - [Webhook]: src/crates/cosaci-webhook/src, the files signature.rs,
      manifest.rs and translate.rs. [Listener]:
      src/bins/cosaci-webhook-listener/src/main.rs.
    - [AdminCli]: src/bins/cosaci-admin/src/main.rs. In
      src/bins/cosaci-demo/src/bin: [Auditor] and [AuditMain] are verify.rs,
      [Demos] (Module [Single]) demo.rs, [Launcher] demo_networked.rs with the
      start of the agent's [main].
    - [Admission] and [Float32] have no file of their own: lemmas on what the gate
      in front of the queue admits, for [Launcher], and on the rounding of
      reputations, for [AdminCli].

    ** Conventions

    - A stateful operation is a function from the state to its result and the
      new state; runs are [foldl]s over requests or an [Inductive] step relation
      with [rtc].
    - Integers are [Z] with their width in the operation. Plain [+] and [*] take
      an [overflow_mode]: [Checked] for builds with overflow checks, [Wrapping]
      for release builds. A panic is [None].
    - Clock readings are arguments, one per read, so a theorem says what it
      assumes of the clock.
    - Floats are the standard library's [spec_float] with Rust's conversions
      written out; nothing is computed in exact reals.
    - Hash maps are [gmap]s. Where the source iterates one and the order shows,
      the order is a parameter of the model.
    - I/O is the outcome of each call: a write that failed left some prefix, a
      read gave some bytes or an error, a process exited in some way. Theorems
      quantify over all outcomes.
    - Crates outside the repository are operations of type classes ([Cbor],
      [Sha256], [Ed25519], [RsMerkle], [JournalJson], [CborBytes],
      [EnvelopeCbor], [CapturesCbor], [SubmissionCbor], [SubmissionWire],
      [Schnorrkel], [Aead], [HmacSha256], [Toml], [ListenerCodec], [PemFile],
      [Rcgen], [Rustls], [X509], [TlsMachines], [TlsPeers], [AsyncIo], [Wat],
      [F64Math]); what the sources rely on is in the classes ending in [Laws] and
      in [LaunchTls] (what rcgen writes, PEM and rustls read back). SHA-256 has no
      law but that a digest is 32 bytes: results about hashes are stated up to an
      explicit collision. The [Toy] modules are executable instances that
      satisfy the laws, and the witnesses evaluate on them.
    - Interfaces of the program itself are classes too: [Store] and [StoreLaws]
      (what a log backend promises, discharged for both backends), [Kv] and
      [KvLaws] (what both sharded stores promise).

    ** What the theorems show

    - End to end ([Process], over [Service], [Coordinator] and [Agent]): from the
      command line on, for every order of events, every behaviour of agents,
      administrators and readers, every I/O failure and every hash-map order, a
      recorded job ran a pipeline that an admitted, signed line asked for; the
      iteration that recorded it had signed attestations of different members of
      the committee that the VRF claims select ([drawn_committee]), and surviving
      passing votes that name runners with, in the ledger of that moment, two
      thirds of the stake of that committee ([backed]); the code does not compare
      the runner a vote names with the member that signed it
      ([vote_weighs_claimed_runner]), so neither does [backed]. The members were
      admitted by certificate, VRF proof and enrollment, and the bundle of the
      record verifies and never changes. Jobs run in queue order under
      consecutive ids; the service does not panic; a certificate that the first
      revocation list of its authority names is of no use from the next reload
      on. And with agents that run the agent code and agree, every waiting job is
      anchored and nobody is slashed.
    - Auditing ([AuditMain]): the verifier, from its own command line and over
      mutual TLS, ends with exit code 0 on a recorded job while the coordinator
      goes on, and in an error when it is not let in.
    - Administering ([AdminSession], [AtomicFile]): strangers change nothing; an
      acknowledged request has changed the file, as it loads, by exactly what was
      asked, and any other answer means no change. The files are complete
      versions at every moment, whatever interleaves, fails, is killed or loses
      power, as long as editors have temporary names of their own
      ([exclusive_step]); two sessions of one coordinator have not, and
      [coordinator_sessions_race] is an execution in which they tear the file. The
      edits the sessions reason with are what the calls do.
    - Deciding ([Quorum], [Aggregator], [PartialQuorum], [StakeLedger],
      [Capabilities]): outcomes in terms of exact stake sums, finality and
      honesty of the non-terminal outcomes, quorum intersection, terminal states
      that absorb, termination under a retry budget, conservation of stake,
      optimality of the committee.
    - Recording ([MerkleLog], [Retrieval], [Journal], [Verifier]): append-only
      prefixes, roots and proofs, what is reopened after any appends and after a
      failed write or sync,
      replay after a crash, exact recovery lists.
    - Executing ([Pipeline], [SourceFetch], [Network], [Wasm]): the artifact hash
      binds statuses, step hashes and captured logs; the tree hash is canonical
      and identifies the tree; the egress decision in terms of address blocks.
    - Admitting ([SubmissionAuth], [Replay], [RateLimit], [Tenant], [AdminAuth],
      [Enrollment], [Attestation]): what each verdict means, no double admission
      within the window, spending bounds, file edits against the loaded
      registry.
    - Coordinating ([Lease], [Cluster], [Sharding], [Gossip], [Bloom], [Status]):
      exclusive leases, refinement of gated and sharded stores to plain ones,
      convergence of gossip, no false negatives, published status sequences.
    - Talking ([Wire], [WireAsync]): envelopes written are read back; oversized
      and cut frames are errors; the asynchronous functions agree with the
      synchronous ones on every transport that keeps tokio's promises.
    - Around the coordinator ([Webhook], [Listener], [AdminCli], [Demos],
      [Launcher]): a
      delivery is translated exactly as a declarative reading of the manifest's
      triggers and templates prescribes; every line the listener emits comes from
      a verified delivery and carries the tenant's signature, and every request
      is answered; the admin command has the same effect and output over the
      socket as on the files, but for empty listings and a missing enrollment
      file; the single-process demonstration ends without a
      panic and with a verifying proof; what the launcher generates starts a
      coordinator with its five agents, and its submissions are queued.

    ** Bounds and fuel

    Functions recurse on the data they consume. The loops that take fuel are of
    the Rust standard library but for one: splitting bytes in records
    ([chunks_exact]) and decoding UTF-8, strictly or lossily, have the input
    length, and each round consumes at least one byte; printing a [u64] has 20
    digits and a [u128] 39, the widths of their maxima; printing an [f32] in
    [0, 1] takes the fewest decimals that read back, of at most 149, which is
    proved to be enough ([show_unit_f32_total]); [resolve_template] has the length of the template,
    and a turn consumes the four braces of a placeholder at least.
    The 50 rounds of [try_handshake] in [Tls] are
    the code's own budget. An edit of [AtomicFile] makes at most one call per
    byte and five more, which is part of its theorem.
    The polling loop of [Pipeline] consumes the answers of the system: a list of
    polls that ends before anything has ended the child is a child that is still
    running, and the result is [None]; a walltime limit rules that out.

    ** Not modelled

    The clock trait (readings are arguments), log messages and usage texts,
    sockets and thread creation, benchmarks, and the texts of standard-library
    error messages. The numerical accuracy of the false-positive estimate of
    bloom.rs depends on the platform's [exp] and [powi], which are parameters.

    Next: the durability of journal and log on the disk of [AtomicFile]. *)

From stdpp Require Export prelude gmap list strings.
From Stdlib Require Export ZArith Lia Sorted.

#[global] Open Scope Z_scope.

(** * Machine integers

    Every Rust integer is a [Z] together with the operation of the standard
    library that the source calls; the width is written out. *)

Declare Scope cosaci_scope.
Delimit Scope cosaci_scope with cosaci.
#[global] Open Scope cosaci_scope.

(** [uint w x]: [x] is a value of the [w]-bit unsigned type. *)
Definition uint (w x : Z) : Prop := 0 <= x < 2 ^ w.

#[export] Instance uint_dec w x : Decision (uint w x).
Proof. unfold uint. apply _. Defined.

(** [u64::MAX] and [u32::MAX]. *)
Definition u64_max : Z := 2 ^ 64 - 1.
Definition u32_max : Z := 2 ^ 32 - 1.

(** [wrapping_*]: reduction to the low [w] bits. *)
Definition wrap (w x : Z) : Z := x mod 2 ^ w.

(** [u64::saturating_add], [u64::saturating_sub] and [u64::saturating_mul]. *)
Definition sat_add (a b : Z) : Z := Z.min (a + b) u64_max.
Definition sat_sub (a b : Z) : Z := Z.max (a - b) 0.
Definition sat_mul (a b : Z) : Z := Z.min (a * b) u64_max.

(** [u32::saturating_add]. *)
Definition sat_add32 (a b : Z) : Z := Z.min (a + b) u32_max.

(** [u64::abs_diff]. *)
Definition abs_diff (a b : Z) : Z := Z.abs (a - b).

(** [u64::div_ceil], for a positive divisor. *)
Definition div_ceil (a b : Z) : Z :=
  if a mod b =? 0 then a / b else a / b + 1.

(** The plain operators [+] and [*] on [u64] panic on overflow in a build with
    overflow checks (the [dev] profile) and wrap in a build without them (the
    [release] profile). A panic is [None]. *)
Inductive overflow_mode := Checked | Wrapping.

Definition fit64 (md : overflow_mode) (x : Z) : option Z :=
  if decide (uint 64 x) then Some x
  else match md with Checked => None | Wrapping => Some (wrap 64 x) end.

Definition add64 (md : overflow_mode) (a b : Z) : option Z := fit64 md (a + b).
Definition mul64 (md : overflow_mode) (a b : Z) : option Z := fit64 md (a * b).

(** The plain [+] on [i64]. *)
Definition add_i64 (md : overflow_mode) (a b : Z) : option Z :=
  let x := a + b in
  if decide (- 2 ^ 63 <= x < 2 ^ 63) then Some x
  else match md with Checked => None | Wrapping => Some (wrap 64 (x + 2 ^ 63) - 2 ^ 63) end.

(** [Iterator::sum] over [u64]: a left fold of [+] from zero. *)
Fixpoint sum64_from (md : overflow_mode) (acc : Z) (l : list Z) : option Z :=
  match l with
  | [] => Some acc
  | x :: l => acc' ← add64 md acc x; sum64_from md acc' l
  end.

Definition sum64 (md : overflow_mode) (l : list Z) : option Z := sum64_from md 0 l.

(** * Results *)

(** Rust's [Result<T, E>]. *)
Inductive result (A E : Type) :=
| Ok (a : A)
| Err (e : E).
Arguments Ok {A E} a.
Arguments Err {A E} e.

#[export] Instance result_eq_dec `{EqDecision A, EqDecision E} :
  EqDecision (result A E).
Proof. solve_decision. Defined.

Definition is_ok {A E} (r : result A E) : bool :=
  match r with Ok _ => true | Err _ => false end.

Definition map_err {A E F} (f : E → F) (r : result A E) : result A F :=
  match r with Ok a => Ok a | Err e => Err (f e) end.

(** The [?] operator. *)
Notation "x ←? c ; k" :=
  (match c with Ok x => k | Err e => Err e end)
  (at level 20, c at level 100, k at level 200, only parsing) : cosaci_scope.

(** * Automation

    [cosaci] collects the arithmetic facts on machine integers; [u64_lia]
    unfolds the width-specific operations and calls [lia]. *)

Create HintDb cosaci.

Ltac unfold_uint :=
  unfold uint, sat_add, sat_sub, sat_mul, sat_add32, abs_diff, wrap, u64_max, u32_max in *.

Ltac u64_lia := unfold_uint; lia.

(** Split a conjunction of hypotheses and finish the leaves. *)
Ltac split_all := repeat (match goal with |- _ ∧ _ => split end).

(** Case analysis on every [if decide], [if _ =? _] or [match] in the goal,
    with the equations kept. *)
Ltac break_match :=
  repeat (case_match; simplify_eq/=; try done).

(** Close a decidable goal on concrete data by evaluating it. *)
Ltac by_decide := apply (bool_decide_unpack _); vm_compute; exact I.

(** Turn boolean comparisons on [Z] into propositions. *)
Ltac zbool :=
  repeat match goal with
  | H : (_ <? _) = true |- _ => apply Z.ltb_lt in H
  | H : (_ <? _) = false |- _ => apply Z.ltb_ge in H
  | H : (_ <=? _) = true |- _ => apply Z.leb_le in H
  | H : (_ <=? _) = false |- _ => apply Z.leb_gt in H
  | H : (_ =? _) = true |- _ => apply Z.eqb_eq in H
  | H : (_ =? _) = false |- _ => apply Z.eqb_neq in H
  | H : (_ >=? _) = _ |- _ => rewrite Z.geb_leb in H
  | H : (_ >? _) = _ |- _ => rewrite Z.gtb_ltb in H
  end.

(** * Facts on machine integers *)

Lemma sat_add_bounds a b : 0 <= a → 0 <= b → uint 64 (sat_add a b).
Proof. u64_lia. Qed.

Lemma sat_sub_bounds a b : uint 64 a → 0 <= b → uint 64 (sat_sub a b).
Proof. u64_lia. Qed.

Lemma sat_sub_le a b : 0 <= a → 0 <= b → sat_sub a b <= a.
Proof. u64_lia. Qed.

Lemma wrap_bounds w x : 0 <= w → uint w (wrap w x).
Proof. intros. unfold uint, wrap. apply Z.mod_pos_bound. lia. Qed.

Lemma wrap_small w x : uint w x → wrap w x = x.
Proof. intros. apply Z.mod_small, H. Qed.

#[export] Hint Resolve sat_add_bounds sat_sub_bounds sat_sub_le wrap_bounds : cosaci.

Lemma fit64_small md x : uint 64 x → fit64 md x = Some x.
Proof. intros. unfold fit64. by rewrite decide_True. Qed.

Lemma fit64_bounds md x y : fit64 md x = Some y → uint 64 y.
Proof.
  unfold fit64. case_decide; [by intros [= ->]|].
  destruct md; [done|]. intros [= <-]. by apply wrap_bounds.
Qed.

Lemma div_ceil_spec a b : 0 < b → 0 <= a → div_ceil a b = (a + b - 1) / b.
Proof.
  intros Hb Ha. unfold div_ceil.
  pose proof (Z.div_mod a b ltac:(lia)) as E.
  pose proof (Z.mod_pos_bound a b Hb).
  case_match; zbool.
  - apply Z.div_unique with (b - 1); lia.
  - apply Z.div_unique with (a mod b - 1); lia.
Qed.

(** [div_ceil a b] is the least [q] with [a <= q * b]. *)
Lemma div_ceil_least a b q : 0 < b → 0 <= a → div_ceil a b <= q ↔ a <= q * b.
Proof.
  intros Hb Ha. rewrite div_ceil_spec by done. split; intros.
  - pose proof (Z.mul_succ_div_gt (a + b - 1) b Hb). nia.
  - apply Z.lt_succ_r, Z.div_lt_upper_bound; lia.
Qed.

(** * Sums *)

Definition sumz (l : list Z) : Z := foldr Z.add 0 l.

#[global] Arguments sumz : simpl never.

Lemma sumz_cons x l : sumz (x :: l) = x + sumz l.
Proof. done. Qed.

Lemma sumz_app l k : sumz (l ++ k) = sumz l + sumz k.
Proof. induction l; simpl; rewrite ?sumz_cons; unfold sumz in *; simpl; lia. Qed.

#[export] Instance sumz_perm : Proper ((≡ₚ) ==> (=)) sumz.
Proof. intros l k. induction 1; unfold sumz in *; simpl; lia. Qed.

Lemma sumz_nonneg l : Forall (λ x, 0 <= x) l → 0 <= sumz l.
Proof. induction 1; unfold sumz in *; simpl; lia. Qed.

Lemma sumz_elem_le l x : Forall (λ y, 0 <= y) l → x ∈ l → x <= sumz l.
Proof.
  intros Hl Hx. apply elem_of_Permutation in Hx as [k Hk].
  rewrite Hk in Hl |- *. apply Forall_cons in Hl as [? Hl].
  apply sumz_nonneg in Hl. unfold sumz in *. simpl. lia.
Qed.

(** The checked fold agrees with the mathematical sum as long as that fits. *)
Lemma sum64_from_small md acc l :
  0 <= acc → Forall (λ x, 0 <= x) l → acc + sumz l <= u64_max →
  sum64_from md acc l = Some (acc + sumz l).
Proof.
  revert acc. induction l as [|x l IH]; intros acc Hacc Hl Hsum; simpl; rewrite ?sumz_cons in *.
  - f_equal. unfold sumz; simpl. lia.
  - apply Forall_cons in Hl as [Hx Hl]. pose proof (sumz_nonneg l Hl) as Hs.
    unfold add64. rewrite fit64_small by u64_lia. simpl.
    rewrite IH; [f_equal; lia|lia|done|lia].
Qed.

Lemma sum64_small md l :
  Forall (λ x, 0 <= x) l → sumz l <= u64_max → sum64 md l = Some (sumz l).
Proof. intros. unfold sum64. by rewrite sum64_from_small. Qed.

(** With overflow checks on, a sum that does not fit panics. *)
Lemma sum64_from_overflow acc l :
  0 <= acc <= u64_max → Forall (λ x, 0 <= x) l → u64_max < acc + sumz l →
  sum64_from Checked acc l = None.
Proof.
  revert acc. induction l as [|x l IH]; intros acc Hacc Hl Hs; simpl; rewrite ?sumz_cons in *.
  - unfold sumz in *; simpl in *. u64_lia.
  - apply Forall_cons in Hl as [Hx Hl]. unfold add64, fit64.
    case_decide; simpl; [|done]. apply IH; [u64_lia|done|lia].
Qed.

Lemma sum64_overflow_checked l :
  Forall (λ x, 0 <= x) l → u64_max < sumz l → sum64 Checked l = None.
Proof. intros. apply sum64_from_overflow; [u64_lia|done|lia]. Qed.

(** * Sums over finite maps

    [msum f m] adds [f k v] over the entries of [m]; it is the value every
    iteration order of the [HashMap] gives. *)

Section msum.
Context {K A : Type} `{Countable K}.
Implicit Types (f : K → A → Z) (m : gmap K A).

Definition msum (f : K → A → Z) (m : gmap K A) : Z :=
  sumz (uncurry f <$> map_to_list m).

Lemma msum_empty f : msum f ∅ = 0.
Proof. unfold msum. by rewrite map_to_list_empty. Qed.

Lemma msum_insert f m i x :
  m !! i = None → msum f (<[i:=x]> m) = f i x + msum f m.
Proof. intros. unfold msum. by rewrite map_to_list_insert. Qed.

Lemma msum_delete f m i x :
  m !! i = Some x → msum f m = f i x + msum f (delete i m).
Proof.
  intros Hi. rewrite <-(insert_delete_id m i x) at 1 by done.
  apply msum_insert, lookup_delete_eq.
Qed.

Lemma msum_insert_any f m i x :
  msum f (<[i:=x]> m) = f i x + msum f m - from_option (f i) 0 (m !! i).
Proof.
  destruct (m !! i) as [y|] eqn:Hi; simpl.
  - rewrite <-insert_delete_eq, msum_insert by apply lookup_delete_eq.
    rewrite (msum_delete f m i y) by done. lia.
  - rewrite msum_insert by done. lia.
Qed.

Lemma msum_ext f g m :
  (∀ i x, m !! i = Some x → f i x = g i x) → msum f m = msum g m.
Proof.
  induction m as [|i x m Hi IH] using map_ind; intros Hfg.
  - by rewrite !msum_empty.
  - rewrite !msum_insert by done. rewrite IH.
    + rewrite (Hfg i x); [done|]. apply lookup_insert_eq.
    + intros j y Hj. apply Hfg. rewrite lookup_insert_ne; congruence.
Qed.

Lemma msum_le f g m :
  (∀ i x, m !! i = Some x → f i x <= g i x) → msum f m <= msum g m.
Proof.
  induction m as [|i x m Hi IH] using map_ind; intros Hfg.
  - by rewrite !msum_empty.
  - rewrite !msum_insert by done.
    assert (f i x <= g i x) by apply Hfg, lookup_insert_eq.
    assert (msum f m <= msum g m); [|lia].
    apply IH. intros j y Hj. apply Hfg. rewrite lookup_insert_ne; congruence.
Qed.

Lemma msum_add f g m : msum (λ i x, f i x + g i x) m = msum f m + msum g m.
Proof.
  induction m as [|i x m Hi IH] using map_ind.
  - by rewrite !msum_empty.
  - rewrite !msum_insert by done. lia.
Qed.

Lemma msum_zero m : msum (λ _ _, 0) m = 0.
Proof.
  induction m as [|i x m Hi IH] using map_ind; [apply msum_empty|].
  rewrite msum_insert by done. lia.
Qed.

Lemma msum_nonneg f m : (∀ i x, m !! i = Some x → 0 <= f i x) → 0 <= msum f m.
Proof. intros Hf. rewrite <-(msum_zero m). by apply msum_le. Qed.

Lemma msum_elem f m i x :
  (∀ i x, m !! i = Some x → 0 <= f i x) → m !! i = Some x → f i x <= msum f m.
Proof.
  intros Hf Hi. rewrite (msum_delete f m i x) by done.
  assert (0 <= msum f (delete i m)); [|lia].
  apply msum_nonneg. intros j y [_ Hj]%lookup_delete_Some. eauto.
Qed.

(** Every enumeration of the entries gives the same sum. *)
Lemma msum_order f m l : l ≡ₚ map_to_list m → sumz (uncurry f <$> l) = msum f m.
Proof. intros Hl. unfold msum. by rewrite Hl. Qed.

End msum.

(** * Little-endian bytes *)

(** [to_le_bytes] of an [n]-byte integer, and [from_le_bytes]. *)
Fixpoint le_bytes (n : nat) (x : Z) : list Z :=
  match n with O => [] | S n => x mod 256 :: le_bytes n (x / 256) end.

Fixpoint of_le_bytes (bs : list Z) : Z :=
  match bs with [] => 0 | b :: bs => b + 256 * of_le_bytes bs end.

Lemma le_bytes_length n x : length (le_bytes n x) = n.
Proof. revert x. induction n; intros x; simpl; [done|]. by f_equal. Qed.

Lemma of_le_le n x : 0 <= x < 256 ^ Z.of_nat n → of_le_bytes (le_bytes n x) = x.
Proof.
  revert x. induction n as [|n IH]; intros x Hx; simpl.
  - simpl in Hx. lia.
  - pose proof (Z.div_mod x 256). rewrite IH; [lia|].
    rewrite Nat2Z.inj_succ, Z.pow_succ_r in Hx by lia.
    split; [apply Z.div_pos; lia|apply Z.div_lt_upper_bound; lia].
Qed.

Lemma le_bytes_inj n x y :
  0 <= x < 256 ^ Z.of_nat n → 0 <= y < 256 ^ Z.of_nat n → le_bytes n x = le_bytes n y → x = y.
Proof. intros Hx Hy Heq. by rewrite <-(of_le_le n x), <-(of_le_le n y), Heq. Qed.

Lemma of_le_bounds bs :
  Forall (uint 8) bs → 0 <= of_le_bytes bs < 256 ^ Z.of_nat (length bs).
Proof.
  induction 1 as [|b bs Hb Hbs IH]; simpl length; [simpl; lia|].
  rewrite Nat2Z.inj_succ, Z.pow_succ_r by lia. unfold uint in Hb. simpl. lia.
Qed.

Lemma le_bytes_uint8 n x : Forall (uint 8) (le_bytes n x).
Proof.
  revert x. induction n; intros x; simpl; constructor; [|done].
  unfold uint. apply Z.mod_pos_bound. lia.
Qed.

Lemma le_of_le bs : Forall (uint 8) bs → le_bytes (length bs) (of_le_bytes bs) = bs.
Proof.
  induction 1 as [|b bs Hb Hbs IH]; simpl; [done|]. unfold uint in Hb.
  rewrite <-(Z.div_unique (b + 256 * of_le_bytes bs) 256 (of_le_bytes bs) b) by lia.
  rewrite IH. f_equal. symmetry. apply (Z.mod_unique _ _ (of_le_bytes bs)); lia.
Qed.

(** * Filters *)

Lemma filter_none {A} (P : A → Prop) `{!∀ x, Decision (P x)} (l : list A) :
  (∀ x, x ∈ l → ¬ P x) → filter P l = [].
Proof.
  intros Hl. destruct (filter P l) as [|x k] eqn:E; [done|].
  assert (x ∈ filter P l) as [HP Hx]%list_elem_of_filter by (rewrite E; left).
  by destruct (Hl x).
Qed.

Lemma filter_all {A} (P : A → Prop) `{!∀ x, Decision (P x)} (l : list A) :
  (∀ x, x ∈ l → P x) → filter P l = l.
Proof.
  induction l as [|x l IH]; intros Hl; [done|].
  rewrite filter_cons_True by (apply Hl; left). f_equal. apply IH.
  intros y Hy. apply Hl. by right.
Qed.

Lemma NoDup_fmap_filter {A B} (f : A → B) (P : A → Prop) `{!∀ x, Decision (P x)} (l : list A) :
  NoDup (f <$> l) → NoDup (f <$> filter P l).
Proof.
  induction l as [|x l IH]; [done|]. rewrite fmap_cons, NoDup_cons. intros [Hx Hl].
  rewrite filter_cons. case_decide; [|by apply IH].
  rewrite fmap_cons, NoDup_cons. split; [|by apply IH].
  contradict Hx. apply list_elem_of_fmap in Hx as (y & -> & Hy).
  apply list_elem_of_fmap_2. by apply list_elem_of_filter in Hy as [_ ?].
Qed.

(** * Stable sorting

    [slice::sort_by] is stable, so its result is determined by the key; the
    executable model is insertion sort on a decidable total preorder. *)

Section stable_sort.
Context {A : Type} (leb : A → A → bool).

Fixpoint insert_sorted (x : A) (l : list A) : list A :=
  match l with
  | [] => [x]
  | y :: l' => if leb x y then x :: l else y :: insert_sorted x l'
  end.

Definition stable_sort (l : list A) : list A := foldr insert_sorted [] l.

Lemma insert_sorted_perm x l : insert_sorted x l ≡ₚ x :: l.
Proof.
  induction l as [|y l IH]; simpl; [done|].
  case_match; [done|]. rewrite IH. constructor.
Qed.

Lemma stable_sort_perm l : stable_sort l ≡ₚ l.
Proof. induction l; simpl; [done|]. by rewrite insert_sorted_perm, IHl. Qed.

Lemma stable_sort_length l : length (stable_sort l) = length l.
Proof. by rewrite stable_sort_perm. Qed.

Hypothesis leb_total : ∀ x y, leb x y = true ∨ leb y x = true.
Hypothesis leb_trans : ∀ x y z, leb x y = true → leb y z = true → leb x z = true.

Lemma insert_sorted_sorted x l :
  StronglySorted leb l → StronglySorted leb (insert_sorted x l).
Proof.
  induction 1 as [|y l Hl IH Hy]; simpl; [repeat constructor|].
  destruct (leb x y) eqn:E.
  - constructor; [by constructor|]. constructor; [by rewrite E|].
    eapply Forall_impl; [apply Hy|]. intros z Hz. apply Is_true_true.
    apply Is_true_true in Hz. by apply leb_trans with y.
  - constructor; [done|]. rewrite insert_sorted_perm. constructor; [|done].
    apply Is_true_true. destruct (leb_total x y); congruence.
Qed.

Lemma stable_sort_sorted l : StronglySorted leb (stable_sort l).
Proof. induction l; simpl; [constructor|]. by apply insert_sorted_sorted. Qed.

(** Stability: among the elements equivalent to [k], the order is kept. *)
Lemma insert_sorted_filter k x l :
  filter (λ y, leb k y = true ∧ leb y k = true) (insert_sorted x l) =
  filter (λ y, leb k y = true ∧ leb y k = true) (x :: l).
Proof.
  induction l as [|y l IH]; simpl; [done|].
  destruct (leb x y) eqn:E; [done|].
  rewrite filter_cons, IH, !filter_cons.
  repeat case_decide; try done.
  destruct (leb_total x y) as [?|?]; [congruence|].
  destruct H, H0. assert (leb x y = true); [|congruence].
  by apply leb_trans with k.
Qed.

Lemma stable_sort_stable k l :
  filter (λ y, leb k y = true ∧ leb y k = true) (stable_sort l) =
  filter (λ y, leb k y = true ∧ leb y k = true) l.
Proof.
  induction l as [|x l IH]; simpl; [done|].
  by rewrite insert_sorted_filter, !filter_cons, IH.
Qed.

(** On an antisymmetric key the sorted order does not depend on the input
    order at all. *)
Lemma StronglySorted_unique_perm l k :
  (∀ x y, x ∈ l → y ∈ l → leb x y = true → leb y x = true → x = y) →
  StronglySorted leb l → StronglySorted leb k → l ≡ₚ k → l = k.
Proof.
  revert k. induction l as [|x l IH]; intros k Hanti Hl Hk Hp.
  - by apply Permutation_nil in Hp as ->.
  - destruct k as [|y k]; [by apply Permutation_nil_r in Hp|].
    apply StronglySorted_inv in Hl as [Hl Hx], Hk as [Hk Hy].
    assert (x = y) as ->.
    { assert (x ∈ y :: k) as Hin by (rewrite <-Hp; left).
      assert (y ∈ x :: l) as Hin' by (rewrite Hp; left).
      apply elem_of_cons in Hin as [->|Hin]; [done|].
      apply elem_of_cons in Hin' as [->|Hin']; [done|].
      rewrite Forall_forall in Hx, Hy.
      apply Hanti; [left|by right| |]; apply Is_true_true; auto. }
    f_equal. apply Permutation_cons_inv in Hp.
    apply IH; [|done..]. intros u v Hu Hv. apply Hanti; by right.
Qed.

(** Sorting what is sorted changes nothing. *)
Lemma stable_sort_id l : StronglySorted leb l → stable_sort l = l.
Proof.
  induction 1 as [|x l Hl IH Hx]; simpl; [done|]. rewrite IH. destruct Hx as [|y l Hxy]; simpl; [done|].
  by rewrite (Is_true_true_1 _ Hxy).
Qed.

End stable_sort.

(** Sorting commutes with a map that keeps the keys. *)
Lemma stable_sort_fmap {A B} (leb : A → A → bool) (leb' : B → B → bool) (f : A → B) l :
  (∀ x y, leb' (f x) (f y) = leb x y) → stable_sort leb' (f <$> l) = f <$> stable_sort leb l.
Proof.
  intros Hf. induction l as [|x l IH]; [done|].
  change (insert_sorted leb' (f x) (stable_sort leb' (f <$> l)) = f <$> insert_sorted leb x (stable_sort leb l)).
  rewrite IH. clear IH. induction (stable_sort leb l) as [|y k IH]; simpl; [done|]. rewrite Hf. destruct (leb x y); simpl; [done|].
  f_equal. apply IH.
Qed.
