(* ===== verification/Quorum.v ===== *)
(** Stake-weighted quorum aggregation
    (src/crates/cosaci-core/src/quorum.rs).

    [aggregate] is the pure function that collapses a slice of votes into an
    [Outcome]. The theorems relate its saturating, iteration-ordered
    arithmetic to exact sums over the stake map ([support]), characterise the
    two non-terminal outcomes by what later votes can still achieve, and show
    that two quorums over a majority threshold intersect. *)

From S2P Require Import Prelude.

(** [StakeMap] is a [HashMap] from runner ids to weights. *)
Abbreviation StakeMap := (gmap Z Z) (only parsing).

Inductive VoteResult := VoteResult_Pass | VoteResult_Fail.

#[export] Instance VoteResult_eq_dec : EqDecision VoteResult.
Proof. solve_decision. Defined.

Record Vote := mkVote {
  vote_runner_id : Z;
  vote_result : VoteResult;
}.

Inductive Outcome :=
| Outcome_Pass
| Outcome_Fail
| Outcome_Retry
| Outcome_Escalate.

#[export] Instance Outcome_eq_dec : EqDecision Outcome.
Proof. solve_decision. Defined.

(** Last-write-wins dedup by runner id: the loop that fills [latest]. *)
Definition latest (votes : list Vote) : gmap Z VoteResult :=
  foldl (λ m v, <[vote_runner_id v := vote_result v]> m) ∅ votes.

(** [stake.get(rid).copied().unwrap_or(0)]. *)
Definition weight_of (stake : StakeMap) (rid : Z) : Z := default 0 (stake !! rid).

(** The loop over [&latest] that accumulates [(pass_weight, fail_weight)] with
    saturating additions, in the order the entries come. *)
Fixpoint tally (stake : StakeMap) (acc : Z * Z) (entries : list (Z * VoteResult)) : Z * Z :=
  match entries with
  | [] => acc
  | (rid, VoteResult_Pass) :: l =>
      tally stake (sat_add acc.1 (weight_of stake rid), acc.2) l
  | (rid, VoteResult_Fail) :: l =>
      tally stake (acc.1, sat_add acc.2 (weight_of stake rid)) l
  end.

(** [quorum::aggregate]. [None] is the overflow panic of the plain [sum] over
    the stake values, which only the non-terminal branches reach. *)
Definition aggregate (md : overflow_mode) (votes : list Vote) (threshold : Z)
    (stake : StakeMap) : option Outcome :=
  let '(pass_weight, fail_weight) := tally stake (0, 0) (map_to_list (latest votes)) in
  if threshold <=? fail_weight then Some Outcome_Fail
  else if threshold <=? pass_weight then Some Outcome_Pass
  else
    total_stake ← sum64 md ((map_to_list stake).*2);
    let voted_stake := sat_add pass_weight fail_weight in
    let remaining := sat_sub total_stake voted_stake in
    let pass_reachable := threshold <=? sat_add pass_weight remaining in
    let fail_reachable := threshold <=? sat_add fail_weight remaining in
    if negb pass_reachable && negb fail_reachable then Some Outcome_Escalate
    else Some Outcome_Retry.

(** * Exact sums *)

(** Total stake in the map. *)
Definition total (stake : StakeMap) : Z := msum (λ _ w, w) stake.

(** Stake of the runners whose surviving vote is [r]. *)
Definition support (stake : StakeMap) (r : VoteResult) (m : gmap Z VoteResult) : Z :=
  msum (λ rid w, if decide (m !! rid = Some r) then w else 0) stake.

(** The stake map holds [u64] weights whose total fits a [u64]. *)
Definition stake_ok (stake : StakeMap) : Prop :=
  (∀ rid w, stake !! rid = Some w → 0 <= w) ∧ total stake <= u64_max.

#[export] Instance stake_ok_dec stake : Decision (stake_ok stake).
Proof. unfold stake_ok. change (Decision (map_Forall (λ _ w, 0 <= w) stake ∧ total stake <= u64_max)). apply _. Defined.

Lemma stake_ok_lookup stake rid w :
  stake_ok stake → stake !! rid = Some w → 0 <= w <= u64_max.
Proof.
  intros [Hs Ht] Hw. split; [eauto|].
  pose proof (msum_elem (λ _ w, w) stake rid w Hs Hw). unfold total in Ht. simpl in *. lia.
Qed.

Lemma weight_of_nonneg stake rid : stake_ok stake → 0 <= weight_of stake rid.
Proof.
  intros Hs. unfold weight_of. destruct (stake !! rid) eqn:E; simpl; [|lia].
  by apply (stake_ok_lookup stake rid).
Qed.

Lemma total_nonneg stake : stake_ok stake → 0 <= total stake.
Proof. intros [Hs _]. by apply msum_nonneg. Qed.

Lemma support_nonneg stake r m : stake_ok stake → 0 <= support stake r m.
Proof. intros [Hs _]. apply msum_nonneg. intros. case_decide; eauto with lia. Qed.

(** No runner is counted on both sides. *)
Lemma support_split stake m :
  stake_ok stake →
  support stake VoteResult_Pass m + support stake VoteResult_Fail m <= total stake.
Proof.
  intros [Hs _]. unfold support, total. rewrite <-msum_add. apply msum_le.
  intros rid w Hw. specialize (Hs rid w Hw). repeat case_decide; congruence || lia.
Qed.

Lemma support_le_total stake r m : stake_ok stake → support stake r m <= total stake.
Proof.
  intros Hs. pose proof (support_split stake m Hs).
  pose proof (support_nonneg stake VoteResult_Pass m Hs).
  pose proof (support_nonneg stake VoteResult_Fail m Hs).
  destruct r; lia.
Qed.

(** Recording one more vote moves exactly that runner's stake. *)
Lemma support_insert stake r m i x :
  m !! i = None →
  support stake r (<[i:=x]> m) =
  support stake r m + (if decide (x = r) then weight_of stake i else 0).
Proof.
  intros Hi. unfold support, weight_of.
  assert (Hrest : ∀ s : StakeMap, s !! i = None →
    msum (λ rid w, if decide (<[i:=x]> m !! rid = Some r) then w else 0) s =
    msum (λ rid w, if decide (m !! rid = Some r) then w else 0) s).
  { intros s Hs. apply msum_ext. intros j w Hj.
    rewrite lookup_insert_ne by congruence. done. }
  destruct (stake !! i) as [w|] eqn:Hw; simpl.
  - rewrite !(msum_delete _ stake i w) by done.
    rewrite Hrest by apply lookup_delete_eq.
    rewrite lookup_insert_eq, Hi. repeat case_decide; simplify_eq; lia.
  - rewrite Hrest by done. case_decide; lia.
Qed.

Lemma support_empty stake r : support stake r ∅ = 0.
Proof.
  unfold support. etrans; [|apply (msum_zero stake)]. apply msum_ext.
  intros i w _. rewrite lookup_empty. by case_decide.
Qed.

(** [support] as a sum over the votes instead of over the stake. *)
Lemma support_votes stake r m :
  support stake r m =
  msum (λ rid x, if decide (x = r) then weight_of stake rid else 0) m.
Proof.
  induction m as [|i x m Hi IH] using map_ind.
  - by rewrite support_empty, msum_empty.
  - rewrite support_insert, msum_insert by done. lia.
Qed.

(** * The tally is the exact support, saturated

    For any order in which the entries of [latest] are visited. *)

Definition entry_weight (stake : StakeMap) (r : VoteResult) (e : Z * VoteResult) : Z :=
  if decide (e.2 = r) then weight_of stake e.1 else 0.

Lemma entry_weight_nonneg stake r e : stake_ok stake → 0 <= entry_weight stake r e.
Proof.
  intros Hs. pose proof (weight_of_nonneg stake e.1 Hs). unfold entry_weight.
  case_decide; lia.
Qed.

Lemma entry_weights_nonneg stake r l :
  stake_ok stake → 0 <= sumz (entry_weight stake r <$> l).
Proof.
  intros Hs. apply sumz_nonneg, Forall_fmap, Forall_true.
  intros e. by apply entry_weight_nonneg.
Qed.

Lemma tally_saturates stake a b l :
  stake_ok stake → 0 <= a <= u64_max → 0 <= b <= u64_max →
  tally stake (a, b) l =
  (Z.min (a + sumz (entry_weight stake VoteResult_Pass <$> l)) u64_max,
   Z.min (b + sumz (entry_weight stake VoteResult_Fail <$> l)) u64_max).
Proof.
  intros Hs. revert a b. induction l as [|[rid r] l IH]; intros a b Ha Hb.
  - unfold sumz; simpl. f_equal; lia.
  - pose proof (weight_of_nonneg stake rid Hs) as Hw.
    pose proof (entry_weights_nonneg stake VoteResult_Pass l Hs).
    pose proof (entry_weights_nonneg stake VoteResult_Fail l Hs).
    rewrite !fmap_cons, !sumz_cons. unfold entry_weight at 1 3. simpl.
    destruct r; simpl; rewrite IH by u64_lia; unfold sat_add;
      repeat case_decide; try done; f_equal; lia.
Qed.

Lemma tally_order_irrelevant stake m l :
  stake_ok stake → l ≡ₚ map_to_list m →
  tally stake (0, 0) l =
  (support stake VoteResult_Pass m, support stake VoteResult_Fail m).
Proof.
  intros Hs Hl. rewrite tally_saturates by (done || u64_lia).
  assert (∀ r, sumz (entry_weight stake r <$> l) = support stake r m) as Hw.
  { intros r. rewrite support_votes, <-(msum_order _ m l) by done.
    f_equal. apply list_fmap_ext. by intros i [] _. }
  rewrite !Hw, !Z.add_0_l. destruct (Hs) as [_ Ht].
  f_equal; apply Z.min_l; (etrans; [by apply support_le_total|done]).
Qed.

(** The decision on exact sums: [P], [F] and the unvoted remainder. *)
Definition decide_outcome (threshold P F T : Z) : Outcome :=
  if threshold <=? F then Outcome_Fail
  else if threshold <=? P then Outcome_Pass
  else if (P + (T - P - F) <? threshold) && (F + (T - P - F) <? threshold)
       then Outcome_Escalate else Outcome_Retry.

Lemma aggregate_decides md votes threshold stake :
  stake_ok stake →
  aggregate md votes threshold stake =
  Some (decide_outcome threshold (support stake VoteResult_Pass (latest votes))
          (support stake VoteResult_Fail (latest votes)) (total stake)).
Proof.
  intros Hs. unfold aggregate, decide_outcome.
  rewrite (tally_order_irrelevant stake (latest votes)) by done.
  set (P := support stake VoteResult_Pass (latest votes)).
  set (F := support stake VoteResult_Fail (latest votes)).
  assert (0 <= P) by by apply support_nonneg.
  assert (0 <= F) by by apply support_nonneg.
  assert (P + F <= total stake) by by apply support_split.
  case_match; [done|]. case_match; [done|].
  assert (sum64 md ((map_to_list stake).*2) = Some (total stake)) as ->.
  { assert ((map_to_list stake).*2 = uncurry (λ _ w, w) <$> map_to_list stake) as Hl.
    { apply list_fmap_ext. by intros i [] _. }
    unfold total, msum. rewrite <-Hl. apply sum64_small.
    - apply Forall_fmap, Forall_forall. intros [rid w] Hin%elem_of_map_to_list. simpl.
      by apply (stake_ok_lookup stake rid).
    - rewrite Hl. apply Hs. }
  simpl. destruct Hs as [_ Ht]. zbool.
  rewrite !Z.leb_antisym, !negb_involutive.
  unfold sat_add, sat_sub.
  rewrite (Z.min_l (P + F)), (Z.max_l (total stake - _)) by lia.
  rewrite !Z.min_l by lia.
  replace (total stake - (P + F)) with (total stake - P - F) by lia.
  by destruct (_ && _).
Qed.

(** * Which votes survive *)

Lemma latest_app votes extra : latest (votes ++ extra) = latest extra ∪ latest votes.
Proof.
  unfold latest. rewrite foldl_app.
  generalize (foldl (λ (m : gmap Z VoteResult) v, <[vote_runner_id v:=vote_result v]> m) ∅ votes).
  intros m. induction extra as [|v extra IH] using rev_ind; simpl.
  - by rewrite (left_id_L ∅ (∪)).
  - rewrite !foldl_app. simpl. by rewrite IH, insert_union_l.
Qed.

Lemma latest_snoc votes v :
  latest (votes ++ [v]) = <[vote_runner_id v := vote_result v]> (latest votes).
Proof. unfold latest. by rewrite foldl_app. Qed.

(** A runner counts with the last vote it cast, and with nothing if it cast none. *)
Lemma latest_lookup votes rid :
  latest votes !! rid = vote_result <$> last (filter (λ v, vote_runner_id v = rid) votes).
Proof.
  induction votes as [|v votes IH] using rev_ind; [done|].
  rewrite latest_snoc, filter_app, filter_cons, filter_nil.
  destruct (decide (vote_runner_id v = rid)) as [<-|Hne].
  - by rewrite lookup_insert_eq, last_snoc.
  - by rewrite lookup_insert_ne, (right_id_L [] (++)).
Qed.

Lemma latest_elem votes rid :
  is_Some (latest votes !! rid) ↔ rid ∈ vote_runner_id <$> votes.
Proof.
  induction votes as [|v votes IH] using rev_ind.
  - split; [by intros [? ?]|]. by intros ?%elem_of_nil.
  - rewrite latest_snoc, fmap_app, elem_of_app, <-IH. simpl.
    rewrite list_elem_of_singleton, lookup_insert.
    case_decide; subst; split; intros; [by right|by eexists|by left|].
    destruct_or!; [done|congruence].
Qed.

(** [extra] only holds votes of runners that have not voted in [votes]. *)
Definition fresh_votes (votes extra : list Vote) : Prop :=
  ∀ rid, rid ∈ vote_runner_id <$> extra → latest votes !! rid = None.

(** Votes of new runners never lower either side. *)
Lemma support_fresh stake r votes extra :
  stake_ok stake → fresh_votes votes extra →
  support stake r (latest votes) <= support stake r (latest (votes ++ extra)).
Proof.
  intros [Hs _] Hf. apply msum_le. intros rid w Hw. specialize (Hs rid w Hw).
  rewrite latest_app, lookup_union.
  destruct (latest extra !! rid) as [x|] eqn:E.
  - rewrite (Hf rid) by (apply latest_elem; eauto). repeat case_decide; naive_solver lia.
  - rewrite (left_id_L None (∪)). done.
Qed.

(** * Correctness of [aggregate] *)

(** C5: for every stake map whose total fits a [u64], [aggregate] returns (it
    does not panic, whatever the overflow mode) exactly the outcome the exact
    stake sums call for, fail-fast first; in particular the saturating
    arithmetic and the iteration order of the hash maps do not show. *)
Theorem aggregate_correct md votes threshold stake o :
  stake_ok stake →
  aggregate md votes threshold stake = Some o ↔
  let P := support stake VoteResult_Pass (latest votes) in
  let F := support stake VoteResult_Fail (latest votes) in
  match o with
  | Outcome_Fail => threshold <= F
  | Outcome_Pass => F < threshold <= P
  | Outcome_Escalate =>
      P < threshold ∧ F < threshold ∧ total stake - F < threshold ∧ total stake - P < threshold
  | Outcome_Retry =>
      P < threshold ∧ F < threshold ∧ (threshold <= total stake - F ∨ threshold <= total stake - P)
  end.
Proof.
  intros Hs. rewrite aggregate_decides by done. unfold decide_outcome. cbv zeta.
  generalize (support stake VoteResult_Pass (latest votes)).
  generalize (support stake VoteResult_Fail (latest votes)).
  intros F P. split.
  - intros [= <-]. repeat case_match; rewrite ?andb_true_iff, ?andb_false_iff in *;
      zbool; try lia; try discriminate; naive_solver (zbool; lia).
  - intros Ho. f_equal. destruct o; repeat case_match;
      rewrite ?andb_true_iff, ?andb_false_iff in *; zbool; try done; try lia;
      naive_solver (zbool; lia).
Qed.

(** * What later votes can still change *)

(** Every staked runner that has not voted votes [r]. *)
Definition completion (stake : StakeMap) (votes : list Vote) (r : VoteResult) : list Vote :=
  (λ e, mkVote e.1 r) <$> filter (λ e, latest votes !! e.1 = None) (map_to_list stake).

Lemma completion_fresh stake votes r : fresh_votes votes (completion stake votes r).
Proof.
  intros rid. unfold completion. rewrite <-list_fmap_compose.
  intros (e & -> & [He _]%list_elem_of_filter)%list_elem_of_fmap. done.
Qed.

Lemma completion_latest stake votes r rid w :
  stake !! rid = Some w → latest votes !! rid = None →
  latest (completion stake votes r) !! rid = Some r.
Proof.
  intros Hw Hn. rewrite latest_lookup.
  set (l := filter _ (completion stake votes r)).
  assert (mkVote rid r ∈ l) as Hin.
  { apply list_elem_of_filter. split; [done|]. apply list_elem_of_fmap.
    exists (rid, w). split; [done|]. apply list_elem_of_filter.
    split; [done|]. by apply elem_of_map_to_list. }
  destruct (last l) as [v|] eqn:E.
  - apply last_Some_elem_of, list_elem_of_filter in E as [_ E].
    apply list_elem_of_fmap in E as (e & -> & _). done.
  - apply last_None in E. rewrite E in Hin. by apply elem_of_nil in Hin.
Qed.

(** The unvoted remainder all goes to side [r]. *)
Lemma support_completion stake votes r r' :
  stake_ok stake → r ≠ r' →
  total stake - support stake r' (latest votes) <=
  support stake r (latest (votes ++ completion stake votes r)).
Proof.
  intros Hs Hr. apply Z.le_sub_le_add_r. unfold support, total. rewrite <-msum_add.
  apply msum_le. intros rid w Hw. pose proof (stake_ok_lookup stake rid w Hs Hw).
  rewrite latest_app, lookup_union.
  destruct (latest votes !! rid) as [x|] eqn:Hl.
  - assert (latest (completion stake votes r) !! rid = None) as ->.
    { apply eq_None_not_Some. intros ?%latest_elem%completion_fresh. congruence. }
    destruct x, r, r'; simpl; repeat case_decide; try congruence; lia.
  - rewrite (completion_latest stake votes r rid w) by done.
    simpl. repeat case_decide; try done; lia.
Qed.

(** C29: [Escalate] is final and [Retry] is honest. After [Escalate] no votes of
    runners that have not voted yet change the outcome; after [Retry] there
    are such votes that decide it. *)
Theorem aggregate_reachability md votes threshold stake :
  stake_ok stake →
  (aggregate md votes threshold stake = Some Outcome_Escalate →
   ∀ extra, fresh_votes votes extra →
     aggregate md (votes ++ extra) threshold stake = Some Outcome_Escalate) ∧
  (aggregate md votes threshold stake = Some Outcome_Retry →
   ∃ extra, fresh_votes votes extra ∧
     (aggregate md (votes ++ extra) threshold stake = Some Outcome_Pass ∨
      aggregate md (votes ++ extra) threshold stake = Some Outcome_Fail)).
Proof.
  intros Hs. split.
  - intros He extra Hf. apply aggregate_correct in He; [|done]. simpl in He.
    apply aggregate_correct; [done|]. simpl.
    pose proof (support_fresh stake VoteResult_Pass votes extra Hs Hf).
    pose proof (support_fresh stake VoteResult_Fail votes extra Hs Hf).
    pose proof (support_split stake (latest (votes ++ extra)) Hs). lia.
  - intros Hr. apply aggregate_correct in Hr; [|done]. simpl in Hr.
    destruct Hr as (HP & HF & [Hc|Hc]).
    + exists (completion stake votes VoteResult_Pass).
      split; [apply completion_fresh|].
      pose proof (support_completion stake votes VoteResult_Pass VoteResult_Fail Hs ltac:(done)).
      destruct (decide (threshold <= support stake VoteResult_Fail
        (latest (votes ++ completion stake votes VoteResult_Pass)))).
      * right. by apply aggregate_correct.
      * left. apply aggregate_correct; [done|]. simpl. lia.
    + exists (completion stake votes VoteResult_Fail).
      split; [apply completion_fresh|]. right. apply aggregate_correct; [done|]. simpl.
      pose proof (support_completion stake votes VoteResult_Fail VoteResult_Pass Hs ltac:(done)).
      lia.
Qed.

(** Quorum intersection. If the threshold is more than half of the total
    stake, a [Pass] and a [Fail] over the same stake need a runner with
    positive stake that voted [Pass] in one and [Fail] in the other. *)
Theorem quorum_intersection md votes1 votes2 threshold stake :
  stake_ok stake → total stake < 2 * threshold →
  aggregate md votes1 threshold stake = Some Outcome_Pass →
  aggregate md votes2 threshold stake = Some Outcome_Fail →
  ∃ rid w, stake !! rid = Some w ∧ 0 < w ∧
    latest votes1 !! rid = Some VoteResult_Pass ∧
    latest votes2 !! rid = Some VoteResult_Fail.
Proof.
  intros Hs Ht H1 H2. apply aggregate_correct in H1, H2; [|done..]. simpl in *.
  destruct (decide (map_Exists (λ rid w, 0 < w ∧
    latest votes1 !! rid = Some VoteResult_Pass ∧
    latest votes2 !! rid = Some VoteResult_Fail) stake)) as [(rid & w & ? & ?)|Hn];
    [by exists rid, w|]. exfalso.
  enough (support stake VoteResult_Pass (latest votes1) +
    support stake VoteResult_Fail (latest votes2) <= total stake) by lia.
  unfold support, total. rewrite <-msum_add. apply msum_le. intros rid w Hw.
  pose proof (stake_ok_lookup stake rid w Hs Hw).
  destruct (decide (0 < w)); [|repeat case_decide; lia].
  repeat case_decide; try lia. destruct Hn. by exists rid, w.
Qed.

(** * Witnesses *)

Definition demo_stake : StakeMap := {[ 1 := 40; 2 := 30; 3 := 30 ]}.
Definition demo_votes : list Vote :=
  [mkVote 1 VoteResult_Fail; mkVote 1 VoteResult_Pass; mkVote 2 VoteResult_Pass].

Lemma aggregate_correct_witness :
  aggregate Checked demo_votes 67 demo_stake = Some Outcome_Pass ∧
  support demo_stake VoteResult_Fail (latest demo_votes) < 67
    <= support demo_stake VoteResult_Pass (latest demo_votes).
Proof.
  split; [vm_compute; reflexivity|].
  refine (proj1 (aggregate_correct Checked demo_votes 67 demo_stake Outcome_Pass _) _).
  - by_decide.
  - vm_compute; reflexivity.
Defined.

(** With the threshold above the total, nothing can decide the vote. *)
Lemma aggregate_reachability_witness :
  aggregate Checked (demo_votes ++ [mkVote 3 VoteResult_Pass]) 101 demo_stake =
    Some Outcome_Escalate ∧
  ∃ extra, fresh_votes [mkVote 1 VoteResult_Pass] extra ∧
     (aggregate Checked ([mkVote 1 VoteResult_Pass] ++ extra) 67 demo_stake = Some Outcome_Pass ∨
      aggregate Checked ([mkVote 1 VoteResult_Pass] ++ extra) 67 demo_stake = Some Outcome_Fail).
Proof.
  split.
  - refine (proj1 (aggregate_reachability Checked demo_votes 101 demo_stake _) _ _ _);
      [by_decide|vm_compute; reflexivity|].
    intros rid. simpl. intros ->%list_elem_of_singleton. vm_compute. reflexivity.
  - refine (proj2 (aggregate_reachability Checked [mkVote 1 VoteResult_Pass] 67 demo_stake _) _);
      [by_decide|vm_compute; reflexivity].
Defined.

Lemma quorum_intersection_witness :
  ∃ rid w, demo_stake !! rid = Some w ∧ 0 < w ∧
    latest [mkVote 1 VoteResult_Pass; mkVote 2 VoteResult_Pass] !! rid = Some VoteResult_Pass ∧
    latest [mkVote 1 VoteResult_Fail; mkVote 3 VoteResult_Fail] !! rid = Some VoteResult_Fail.
Proof.
  refine (quorum_intersection Checked
    [mkVote 1 VoteResult_Pass; mkVote 2 VoteResult_Pass]
    [mkVote 1 VoteResult_Fail; mkVote 3 VoteResult_Fail] 67 demo_stake _ _ _ _).
  - by_decide.
  - vm_compute; reflexivity.
  - vm_compute; reflexivity.
  - vm_compute; reflexivity.
Defined.
