(* ===== verification/Aggregator.v ===== *)
(** Vote-collection lifecycle
    (src/crates/cosaci-state/src/aggregator.rs).

    The stateful wrapper around [Quorum.aggregate]: votes, timer ticks and the
    timeout drive it to a terminal state. Every operation is a function on the
    [Aggregator] record returning the new state it reports and the updated
    record; [None] is a panic inside [aggregate]. The operations are collected
    in a step relation, and over any sequence of events a terminal state is the
    verdict on the votes received before it. *)

From S2P Require Import Prelude Quorum.

Inductive AggregationState :=
| AggregationState_Pending
| AggregationState_Pass
| AggregationState_Fail
| AggregationState_Escalate.

#[export] Instance AggregationState_eq_dec : EqDecision AggregationState.
Proof. solve_decision. Defined.

Record Aggregator := mkAggregator {
  agg_state : AggregationState;
  agg_votes : list Vote;
  agg_threshold : Z;
  agg_stake : StakeMap;
  agg_retries : Z;
  agg_max_retries : Z;
}.

Definition with_max_retries (threshold : Z) (stake : StakeMap) (max_retries : Z) : Aggregator :=
  mkAggregator AggregationState_Pending [] threshold stake 0 max_retries.

Definition new (threshold : Z) (stake : StakeMap) : Aggregator :=
  with_max_retries threshold stake u32_max.

Definition is_terminal (a : Aggregator) : bool :=
  match agg_state a with
  | AggregationState_Pass | AggregationState_Fail | AggregationState_Escalate => true
  | AggregationState_Pending => false
  end.

(** Assignments to [self.state], [self.votes] and [self.retries]. *)
Definition set_state (s : AggregationState) (a : Aggregator) : Aggregator :=
  mkAggregator s (agg_votes a) (agg_threshold a) (agg_stake a) (agg_retries a) (agg_max_retries a).

Definition push_vote (v : Vote) (a : Aggregator) : Aggregator :=
  mkAggregator (agg_state a) (agg_votes a ++ [v]) (agg_threshold a) (agg_stake a)
    (agg_retries a) (agg_max_retries a).

Definition set_retries (n : Z) (a : Aggregator) : Aggregator :=
  mkAggregator (agg_state a) (agg_votes a) (agg_threshold a) (agg_stake a) n (agg_max_retries a).

(** The three arms shared by every operation. *)
Definition agg_outcome (md : overflow_mode) (a : Aggregator) : option Outcome :=
  aggregate md (agg_votes a) (agg_threshold a) (agg_stake a).

Definition receive_vote (md : overflow_mode) (vote : Vote) (a : Aggregator) :
    option (AggregationState * Aggregator) :=
  if is_terminal a then Some (agg_state a, a)
  else
    let a := push_vote vote a in
    o ← agg_outcome md a;
    let s := match o with
             | Outcome_Pass => AggregationState_Pass
             | Outcome_Fail => AggregationState_Fail
             | Outcome_Escalate => AggregationState_Escalate
             | Outcome_Retry => AggregationState_Pending
             end in
    Some (s, set_state s a).

Definition trigger_aggregation (md : overflow_mode) (a : Aggregator) :
    option (AggregationState * Aggregator) :=
  if is_terminal a then Some (agg_state a, a)
  else
    o ← agg_outcome md a;
    match o with
    | Outcome_Pass => Some (AggregationState_Pass, set_state AggregationState_Pass a)
    | Outcome_Fail => Some (AggregationState_Fail, set_state AggregationState_Fail a)
    | Outcome_Escalate => Some (AggregationState_Escalate, set_state AggregationState_Escalate a)
    | Outcome_Retry =>
        let a := set_retries (sat_add32 (agg_retries a) 1) a in
        let s := if agg_max_retries a <? agg_retries a
                 then AggregationState_Escalate else AggregationState_Pending in
        Some (s, set_state s a)
    end.

Definition timeout (md : overflow_mode) (a : Aggregator) :
    option (AggregationState * Aggregator) :=
  if is_terminal a then Some (agg_state a, a)
  else
    o ← agg_outcome md a;
    let s := match o with
             | Outcome_Pass => AggregationState_Pass
             | Outcome_Fail => AggregationState_Fail
             | _ => AggregationState_Escalate
             end in
    Some (s, set_state s a).

Definition vote_count (a : Aggregator) : nat := length (agg_votes a).

(** * The lifecycle as a transition system *)

Inductive event := Ev_vote (v : Vote) | Ev_tick | Ev_timeout.

Definition apply_event (md : overflow_mode) (e : event) (a : Aggregator) :
    option (AggregationState * Aggregator) :=
  match e with
  | Ev_vote v => receive_vote md v a
  | Ev_tick => trigger_aggregation md a
  | Ev_timeout => timeout md a
  end.

(** One event; the state the call returns is the state it stores. *)
Inductive agg_step (md : overflow_mode) : Aggregator → Aggregator → Prop :=
| agg_step_event e a s a' : apply_event md e a = Some (s, a') → agg_step md a a'.

(** A sequence of events, and the votes among them. *)
Fixpoint run_events (md : overflow_mode) (evs : list event) (a : Aggregator) : option Aggregator :=
  match evs with
  | [] => Some a
  | e :: evs => p ← apply_event md e a; run_events md evs p.2
  end.

Definition votes_of (evs : list event) : list Vote :=
  omap (λ e, match e with Ev_vote v => Some v | _ => None end) evs.

(** * Invariant *)

(** A terminal [Pass]/[Fail] is the verdict on the votes received; a forced
    [Escalate] never overrides one; a pending aggregator with votes is one
    whose votes still say [Retry], and its budget is not used up. *)
Definition agg_inv (md : overflow_mode) (a : Aggregator) : Prop :=
  stake_ok (agg_stake a) ∧ 0 <= agg_retries a <= u32_max ∧ 0 <= agg_max_retries a <= u32_max ∧
  match agg_state a with
  | AggregationState_Pending =>
      (agg_votes a = [] ∨ agg_outcome md a = Some Outcome_Retry) ∧
      agg_retries a <= agg_max_retries a
  | AggregationState_Pass => agg_outcome md a = Some Outcome_Pass
  | AggregationState_Fail => agg_outcome md a = Some Outcome_Fail
  | AggregationState_Escalate =>
      agg_outcome md a = Some Outcome_Escalate ∨ agg_outcome md a = Some Outcome_Retry
  end.

Lemma agg_outcome_total md a : stake_ok (agg_stake a) → ∃ o, agg_outcome md a = Some o.
Proof. intros Hs. unfold agg_outcome. rewrite aggregate_decides by done. eauto. Qed.

Lemma agg_inv_init md threshold stake max_retries :
  stake_ok stake → uint 32 max_retries →
  agg_inv md (with_max_retries threshold stake max_retries).
Proof.
  intros Hs Hm. unfold agg_inv. simpl. split_all; try done; try u64_lia. by left.
Qed.

(** Assignments do not change the verdict on the votes. *)
Lemma agg_outcome_set_state md s a : agg_outcome md (set_state s a) = agg_outcome md a.
Proof. done. Qed.

Lemma agg_outcome_set_retries md n a : agg_outcome md (set_retries n a) = agg_outcome md a.
Proof. done. Qed.

(** Every event is accepted, keeps the invariant, and leaves a terminal
    aggregator untouched. *)
Lemma apply_event_inv md e a :
  agg_inv md a → ∃ s a', apply_event md e a = Some (s, a') ∧ s = agg_state a' ∧ agg_inv md a'.
Proof.
  intros Hinv. destruct (is_terminal a) eqn:Ht.
  { exists (agg_state a), a. split; [|done].
    destruct e; simpl; unfold receive_vote, trigger_aggregation, timeout; by rewrite Ht. }
  destruct Hinv as (Hs & Hr & Hm & Hst).
  unfold is_terminal in Ht. destruct (agg_state a) eqn:Est; try done.
  destruct Hst as [_ Hle].
  destruct e as [v| |]; simpl; unfold receive_vote, trigger_aggregation, timeout, is_terminal;
    rewrite Est.
  - destruct (agg_outcome_total md (push_vote v a) Hs) as [o Ho]. rewrite Ho. simpl.
    eexists _, _. split; [done|]. split; [done|].
    unfold agg_inv. simpl. rewrite agg_outcome_set_state, Ho. destruct o; split_all; eauto; lia.
  - destruct (agg_outcome_total md a Hs) as [o Ho]. rewrite Ho. simpl.
    destruct o; (eexists _, _; split; [done|]; split; [done|]); unfold agg_inv; simpl;
      rewrite ?agg_outcome_set_state, ?agg_outcome_set_retries, ?Ho; split_all; eauto; try lia.
    1-2: unfold sat_add32; lia.
    destruct (_ <? _) eqn:E; zbool; [by right|split; [by right|lia]].
  - destruct (agg_outcome_total md a Hs) as [o Ho]. rewrite Ho. simpl.
    eexists _, _. split; [done|]. split; [done|].
    unfold agg_inv. simpl. rewrite agg_outcome_set_state, Ho. destruct o; split_all; eauto; lia.
Qed.

Lemma agg_step_inv md a a' : agg_inv md a → agg_step md a a' → agg_inv md a'.
Proof.
  intros Hinv Hst. destruct Hst as [e a s a' He].
  destruct (apply_event_inv md e a Hinv) as (s' & b & He' & _ & Hb).
  rewrite He in He'. by simplify_eq.
Qed.

Lemma terminal_absorbs md e a :
  is_terminal a = true → apply_event md e a = Some (agg_state a, a).
Proof.
  intros Ht. destruct e; simpl; unfold receive_vote, trigger_aggregation, timeout; by rewrite Ht.
Qed.

(** * Theorems *)

Lemma run_events_snoc md evs e a :
  run_events md (evs ++ [e]) a = (b ← run_events md evs a; p ← apply_event md e b; Some p.2).
Proof.
  revert a. induction evs as [|x evs IH]; intros a; cbn [run_events app]; [done|].
  destruct (apply_event md x a) as [p|]; [|done]. cbn. apply IH.
Qed.

(** An event that finds the aggregator pending: a vote is kept, and the
    configuration stays. *)
Lemma apply_event_votes md e a s a' :
  is_terminal a = false → apply_event md e a = Some (s, a') →
  agg_votes a' = agg_votes a ++ votes_of [e] ∧ agg_threshold a' = agg_threshold a ∧ agg_stake a' = agg_stake a.
Proof.
  intros Ht. destruct e as [v| |]; cbn [apply_event votes_of omap list_omap]; unfold receive_vote, trigger_aggregation, timeout;
    rewrite Ht; intros He; apply bind_Some in He as (o & _ & He); rewrite ?app_nil_r; destruct o; by simplify_eq/=.
Qed.

(** What a history of events has come to: the events up to [pre] counted, and
    the aggregator was pending until the last of them. *)
Definition settled_by (md : overflow_mode) (a0 a : Aggregator) (pre : list event) : Prop :=
  run_events md pre a0 = Some a ∧
  ∀ pre' e post', pre = pre' ++ e :: post' → ∃ b, run_events md pre' a0 = Some b ∧ agg_state b = AggregationState_Pending.

Lemma run_events_settled md evs a0 :
  agg_inv md a0 → agg_votes a0 = [] →
  ∃ a pre post, run_events md evs a0 = Some a ∧ evs = pre ++ post ∧ (is_terminal a = false → post = []) ∧
    settled_by md a0 a pre ∧ agg_inv md a ∧ agg_votes a = votes_of pre ∧ agg_threshold a = agg_threshold a0 ∧
    agg_stake a = agg_stake a0.
Proof.
  intros Hinv0 Hv0. induction evs as [|e evs (a & pre & post & Hrun & Hevs & Hpost & (Hpre & Hpend) & Hinv & Hv & Ht & Hs)] using rev_ind.
  { exists a0, [], []. split_and!; try done. split; [done|]. intros [|? ?] ? ?; done. }
  rewrite run_events_snoc, Hrun. cbn [mbind option_bind]. destruct (is_terminal a) eqn:Hterm.
  - rewrite terminal_absorbs by done. cbn. exists a, pre, (post ++ [e]). rewrite Hevs, app_assoc.
    split_and!; try done. rewrite Hterm. done.
  - rewrite Hpost, app_nil_r in Hevs by done. subst pre.
    destruct (apply_event_inv md e a Hinv) as (s & a' & He & -> & Hinv').
    destruct (apply_event_votes _ _ _ _ _ Hterm He) as (Hv' & Ht' & Hs').
    rewrite He. cbn. exists a', (evs ++ [e]), []. rewrite app_nil_r. split_and!; try done; try congruence.
    + split; [by rewrite run_events_snoc, Hpre; cbn; rewrite He|].
      intros pre' x post' Heq. destruct post' as [|y post' _] using rev_ind.
      * apply app_inj_tail in Heq as [<- <-]. exists a. split; [done|]. unfold is_terminal in Hterm. by destruct (agg_state a).
      * rewrite app_comm_cons, app_assoc in Heq. apply app_inj_tail in Heq as [-> _]. by eapply Hpend.
    + unfold votes_of in *. by rewrite omap_app, <-Hv.
Qed.

(** C14: the aggregator never fails, and whatever votes, ticks and timeouts it is
    given: the events up to the one that makes it terminal count, and those after
    it change nothing. A terminal [Pass] or [Fail] is the quorum verdict on
    exactly the votes among the events that count, [Escalate] is never reported
    when those votes resolve, and while it is pending every vote given so far is
    counted and they do not resolve. *)
Theorem aggregator_sound md threshold stake max_retries evs :
  stake_ok stake → uint 32 max_retries →
  ∃ a pre post, run_events md evs (with_max_retries threshold stake max_retries) = Some a ∧
    evs = pre ++ post ∧ (is_terminal a = false → post = []) ∧
    settled_by md (with_max_retries threshold stake max_retries) a pre ∧
    vote_count a = length (votes_of pre) ∧
    let verdict := aggregate md (votes_of pre) threshold stake in
    match agg_state a with
    | AggregationState_Pending => votes_of pre = [] ∨ verdict = Some Outcome_Retry
    | AggregationState_Pass => verdict = Some Outcome_Pass
    | AggregationState_Fail => verdict = Some Outcome_Fail
    | AggregationState_Escalate => verdict = Some Outcome_Escalate ∨ verdict = Some Outcome_Retry
    end.
Proof.
  intros Hs Hm. pose proof (agg_inv_init md threshold stake max_retries Hs Hm) as Hinv0.
  destruct (run_events_settled md evs _ Hinv0 eq_refl) as (a & pre & post & Hrun & Hevs & Hpost & Hset & Hinv & Hv & Ht & Hst).
  exists a, pre, post. split_and!; try done; [unfold vote_count; by rewrite Hv|].
  destruct Hinv as (_ & _ & _ & Hstate). unfold agg_outcome in Hstate. cbn in Ht, Hst. rewrite Hv, Ht, Hst in Hstate.
  cbv zeta. destruct (agg_state a); [by destruct Hstate|done..].
Qed.

(** Consecutive timer ticks. *)
Fixpoint ticks (md : overflow_mode) (n : nat) (a : Aggregator) : option Aggregator :=
  match n with
  | O => Some a
  | S n => p ← trigger_aggregation md a; ticks md n p.2
  end.

Lemma ticks_terminal md n a : is_terminal a = true → ticks md n a = Some a.
Proof.
  intros Ht. induction n; simpl; [done|].
  unfold trigger_aggregation. rewrite Ht. done.
Qed.

(** While the votes say [Retry], each tick either escalates or uses one unit of
    the retry budget. *)
Lemma ticks_budget md n a :
  agg_inv md a → agg_max_retries a < u32_max →
  agg_max_retries a - agg_retries a < Z.of_nat n →
  ∃ a', ticks md n a = Some a' ∧ is_terminal a' = true.
Proof.
  revert a. induction n as [|n IH]; intros a Hinv Hmax Hn.
  - destruct (is_terminal a) eqn:Ht; [by exists a|].
    destruct Hinv as (_ & _ & _ & Hst). unfold is_terminal in Ht.
    destruct (agg_state a); try done. destruct Hst. lia.
  - destruct (is_terminal a) eqn:Ht; [exists a; by rewrite ticks_terminal|].
    destruct (apply_event_inv md Ev_tick a Hinv) as (s & a' & He & -> & Hinv').
    simpl in *. rewrite He. simpl.
    destruct (is_terminal a') eqn:Ht'; [exists a'; by rewrite ticks_terminal|].
    apply IH; [done|..]; unfold trigger_aggregation in He; rewrite Ht in He;
      destruct (agg_outcome md a) as [[]|]; simplify_eq/=; try done.
    destruct Hinv as (_ & Hr & _). unfold sat_add32. lia.
Qed.

(** No event changes the configured budget. *)
Lemma apply_event_budget md e a s a' :
  apply_event md e a = Some (s, a') → agg_max_retries a' = agg_max_retries a.
Proof.
  destruct e; simpl; unfold receive_vote, trigger_aggregation, timeout;
    (destruct (is_terminal a); [by intros; simplify_eq|]);
    intros He; apply bind_Some in He as (o & _ & He);
    destruct o; by simplify_eq/=.
Qed.

(** C30: with a finite retry budget, ticks alone bring the aggregator to a
    terminal state after at most [max_retries + 1] of them, whatever votes came
    before; a timeout does so at once. *)
Theorem aggregator_terminates md threshold stake max_retries a :
  stake_ok stake → 0 <= max_retries < u32_max →
  rtc (agg_step md) (with_max_retries threshold stake max_retries) a →
  (∃ a', ticks md (Z.to_nat (max_retries + 1)) a = Some a' ∧ is_terminal a' = true) ∧
  (∃ a', timeout md a = Some (agg_state a', a') ∧ is_terminal a' = true).
Proof.
  intros Hs Hm Hreach.
  assert (Hinv : agg_inv md a ∧ agg_max_retries a = max_retries).
  { assert (Hi : agg_inv md (with_max_retries threshold stake max_retries) ∧
      agg_max_retries (with_max_retries threshold stake max_retries) = max_retries).
    { split; [apply agg_inv_init; [done|u64_lia]|done]. }
    clear Hs. induction Hreach as [|x y z Hst Hr IH]; [done|].
    apply IH. destruct Hi as [Hi Hmx]. split; [by eauto using agg_step_inv|].
    destruct Hst as [e a s a' He].
    by rewrite <-Hmx, (apply_event_budget md e a s a'). }
  destruct Hinv as [Hinv Hmx]. split.
  - apply ticks_budget; [done|lia|]. destruct Hinv as (_ & Hr & _). lia.
  - destruct (apply_event_inv md Ev_timeout a Hinv) as (s & a' & He & -> & _).
    exists a'. split; [done|]. simpl in He. unfold timeout in He.
    destruct (is_terminal a) eqn:Ht; [by simplify_eq|].
    destruct (agg_outcome md a) as [[]|]; by simplify_eq/=.
Qed.

(** * Witnesses *)

Definition demo_run : option Aggregator :=
  p ← receive_vote Checked (mkVote 1 VoteResult_Pass) (with_max_retries 67 demo_stake 2);
  Some p.2.

Lemma demo_run_reaches :
  rtc (agg_step Checked) (with_max_retries 67 demo_stake 2)
    (mkAggregator AggregationState_Pending [mkVote 1 VoteResult_Pass] 67 demo_stake 0 2).
Proof.
  apply rtc_once. apply (agg_step_event Checked (Ev_vote (mkVote 1 VoteResult_Pass)) _
    AggregationState_Pending). vm_compute. reflexivity.
Qed.

(** The first two votes resolve; the tick and the vote after them are too
    late. *)
Definition demo_history : list event :=
  [Ev_vote (mkVote 1 VoteResult_Pass); Ev_tick; Ev_vote (mkVote 2 VoteResult_Pass); Ev_tick; Ev_vote (mkVote 3 VoteResult_Fail)].

Lemma aggregator_sound_witness :
  ∃ a pre post, run_events Checked demo_history (with_max_retries 67 demo_stake 2) = Some a ∧ demo_history = pre ++ post ∧
    agg_state a = AggregationState_Pass ∧ aggregate Checked (votes_of pre) 67 demo_stake = Some Outcome_Pass.
Proof.
  destruct (aggregator_sound Checked 67 demo_stake 2 demo_history ltac:(by_decide) ltac:(by_decide))
    as (a & pre & post & Hrun & Hevs & _ & _ & _ & Hst).
  exists a, pre, post. split; [exact Hrun|]. split; [exact Hevs|].
  assert (Hp : agg_state <$> run_events Checked demo_history (with_max_retries 67 demo_stake 2) = Some AggregationState_Pass)
    by (vm_compute; reflexivity).
  rewrite Hrun in Hp. injection Hp as Hp. split; [exact Hp|]. rewrite Hp in Hst. exact Hst.
Defined.

Lemma aggregator_terminates_witness :
  ∃ a', ticks Checked 3
    (mkAggregator AggregationState_Pending [mkVote 1 VoteResult_Pass] 67 demo_stake 0 2)
    = Some a' ∧ is_terminal a' = true.
Proof.
  refine (proj1 (aggregator_terminates Checked 67 demo_stake 2 _ _ _ demo_run_reaches)).
  - by_decide.
  - by_decide.
Defined.
