(* ===== verification/PartialQuorum.v ===== *)
(** Partial-committee quorum resolution
    (src/crates/cosaci-state/src/partial_quorum.rs).

    When committee members drop out, the job is resolved against the stake of
    those who answered. The theorems show that the responding and missing lists
    partition the committee in its order, and that with the two-thirds rule the
    verdict depends on the responders alone. *)

From S2P Require Import Prelude Quorum.

Record PartialOutcome := mkPartialOutcome {
  po_outcome : Outcome;
  po_responding : list Z;
  po_missing : list Z;
  po_responding_stake : Z;
  po_threshold : Z;
}.

(** The loop over [committee] that fills [(responding, missing)]. *)
Definition split_committee (responded : gset Z) (committee : list Z) : list Z * list Z :=
  foldl (λ '(responding, missing) id,
    if decide (id ∈ responded) then (responding ++ [id], missing)
    else (responding, missing ++ [id])) ([], []) committee.

(** [threshold_fn] may itself panic, so its result is an option. *)
Definition resolve_with_dropouts (md : overflow_mode) (committee : list Z)
    (votes : list Vote) (stake_map : StakeMap) (threshold_fn : Z → option Z) :
    option PartialOutcome :=
  let responded : gset Z := list_to_set (vote_runner_id <$> votes) in
  let '(responding, missing) := split_committee responded committee in
  responding_stake ← sum64 md (weight_of stake_map <$> responding);
  threshold ← threshold_fn responding_stake;
  outcome ← aggregate md votes threshold stake_map;
  Some (mkPartialOutcome outcome responding missing responding_stake threshold).

Definition two_thirds_threshold (md : overflow_mode) (responding_stake : Z) : option Z :=
  s ← mul64 md responding_stake 2; Some (div_ceil s 3).

Definition stake_map_from_pairs (pairs : list (Z * Z)) : StakeMap :=
  foldl (λ m '(id, w), <[id := w]> m) ∅ pairs.

(** * Lemmas *)

Lemma split_committee_filter responded committee :
  split_committee responded committee =
  (filter (λ id, id ∈ responded) committee, filter (λ id, id ∉ responded) committee).
Proof.
  unfold split_committee. induction committee as [|id l IH] using rev_ind; [done|].
  rewrite foldl_app, IH. simpl. rewrite !filter_app, !filter_cons, !filter_nil.
  repeat case_decide; try done; by rewrite ?(right_id_L [] (++)).
Qed.

Lemma latest_dom votes : dom (latest votes) = list_to_set (vote_runner_id <$> votes).
Proof.
  apply set_eq. intros rid. by rewrite elem_of_dom, latest_elem, elem_of_list_to_set.
Qed.

(** The responders' stake is the stake of the surviving votes on both sides. *)
Lemma responding_support committee votes stake :
  NoDup committee → (∀ v, v ∈ votes → vote_runner_id v ∈ committee) →
  sumz (weight_of stake <$>
    filter (λ id, id ∈ (list_to_set (vote_runner_id <$> votes) : gset Z)) committee) =
  support stake VoteResult_Pass (latest votes) + support stake VoteResult_Fail (latest votes).
Proof.
  intros Hnd Hin. rewrite !support_votes, <-msum_add.
  transitivity (msum (λ rid (_ : VoteResult), weight_of stake rid) (latest votes)).
  - rewrite <-latest_dom. unfold msum.
    transitivity (sumz (weight_of stake <$> (map_to_list (latest votes)).*1)).
    + apply sumz_perm, fmap_Permutation, NoDup_Permutation;
        [by apply NoDup_filter|apply NoDup_fst_map_to_list|].
      intros rid. rewrite list_elem_of_filter, elem_of_dom. split.
      * intros [[r Hr] _]. apply list_elem_of_fmap. exists (rid, r).
        split; [done|]. by apply elem_of_map_to_list.
      * intros ([rid' r] & -> & Hr%elem_of_map_to_list)%list_elem_of_fmap. simpl. split; [by eexists|].
        assert (Hv : is_Some (latest votes !! rid')) by by eexists.
        apply latest_elem, list_elem_of_fmap in Hv as (v & -> & Hv). by apply Hin.
    + rewrite <-list_fmap_compose. f_equal. apply list_fmap_ext. by intros ? [] _.
  - apply msum_ext. intros rid [] _; repeat case_decide; try done; lia.
Qed.

(** The responders hold no more than the whole stake. *)
Lemma responding_le_total committee votes stake :
  stake_ok stake → NoDup committee → (∀ v, v ∈ votes → vote_runner_id v ∈ committee) →
  0 <= sumz (weight_of stake <$>
    filter (λ id, id ∈ (list_to_set (vote_runner_id <$> votes) : gset Z)) committee) <= total stake.
Proof.
  intros. rewrite responding_support by done.
  pose proof (support_nonneg stake VoteResult_Pass (latest votes) ltac:(done)).
  pose proof (support_nonneg stake VoteResult_Fail (latest votes) ltac:(done)).
  pose proof (support_split stake (latest votes) ltac:(done)). lia.
Qed.

Lemma stake_map_from_pairs_snoc pairs id w :
  stake_map_from_pairs (pairs ++ [(id, w)]) = <[id := w]> (stake_map_from_pairs pairs).
Proof. unfold stake_map_from_pairs. by rewrite foldl_app. Qed.

(** * Theorems *)

(** C31: for a duplicate-free committee, votes of its members only, and twice
    the total stake within [u64], the two-thirds resolution returns; its
    responding and missing lists are the committee members that did and did not
    vote, in committee order; the recorded stake is exactly the stake behind
    the surviving votes; and the verdict is [Fail] exactly when the failing
    stake is at least twice the passing one, [Pass] exactly when the passing
    stake is at least twice the failing one and some stake answered. The stake
    of the runners that dropped out plays no part in either. *)
Theorem resolve_with_dropouts_correct md committee votes stake :
  stake_ok stake → 2 * total stake <= u64_max → NoDup committee →
  (∀ v, v ∈ votes → vote_runner_id v ∈ committee) →
  ∃ po, resolve_with_dropouts md committee votes stake (two_thirds_threshold md) = Some po ∧
    let P := support stake VoteResult_Pass (latest votes) in
    let F := support stake VoteResult_Fail (latest votes) in
    po_responding po = filter (λ id, id ∈ vote_runner_id <$> votes) committee ∧
    po_missing po = filter (λ id, id ∉ vote_runner_id <$> votes) committee ∧
    po_responding_stake po = P + F ∧
    (po_outcome po = Outcome_Fail ↔ 2 * P <= F) ∧
    (po_outcome po = Outcome_Pass ↔ 2 * F <= P ∧ 0 < P + F).
Proof.
  intros Hs H2 Hnd Hin. unfold resolve_with_dropouts.
  rewrite split_committee_filter.
  pose proof (responding_le_total committee votes stake Hs Hnd Hin) as Hle.
  rewrite sum64_small; [|apply Forall_fmap, Forall_true; intros; by apply weight_of_nonneg|lia].
  rewrite responding_support in Hle |- * by done. simpl.
  unfold two_thirds_threshold, mul64. rewrite fit64_small by u64_lia. simpl.
  rewrite aggregate_decides by done. simpl.
  eexists. split; [done|]. cbv zeta. simpl.
  pose proof (support_nonneg stake VoteResult_Pass (latest votes) ltac:(done)) as HP.
  pose proof (support_nonneg stake VoteResult_Fail (latest votes) ltac:(done)) as HF.
  revert Hle HP HF. generalize (support stake VoteResult_Pass (latest votes)).
  generalize (support stake VoteResult_Fail (latest votes)). intros F P Hle HP HF.
  split; [|split; [|split; [done|]]].
  - apply list_filter_iff. intros id. by rewrite elem_of_list_to_set.
  - apply list_filter_iff. intros id. by rewrite elem_of_list_to_set.
  - pose proof (div_ceil_least ((P + F) * 2) 3 F ltac:(lia) ltac:(lia)) as HcF.
    pose proof (div_ceil_least ((P + F) * 2) 3 P ltac:(lia) ltac:(lia)) as HcP.
    unfold decide_outcome.
    destruct (_ <=? F) eqn:E1; zbool; [split; split; try done; lia|].
    destruct (_ <=? P) eqn:E2; zbool; [split; split; try done; lia|].
    split; (split; [destruct (_ && _); done|lia]).
Qed.

(** The convenience constructor keeps the last weight given for a runner,
    and holds no other runner. *)
Lemma stake_map_from_pairs_lookup pairs id :
  stake_map_from_pairs pairs !! id = snd <$> last (filter (λ p, p.1 = id) pairs).
Proof.
  induction pairs as [|[i w] pairs IH] using rev_ind; [done|].
  rewrite stake_map_from_pairs_snoc, filter_app, filter_cons, filter_nil. simpl.
  destruct (decide (i = id)) as [<-|Hne].
  - by rewrite lookup_insert_eq, last_snoc.
  - by rewrite lookup_insert_ne, (right_id_L [] (++)).
Qed.

(** * Witnesses *)

Lemma resolve_with_dropouts_witness :
  ∃ po, resolve_with_dropouts Checked [3; 1; 2; 9]
      [mkVote 1 VoteResult_Pass; mkVote 3 VoteResult_Pass] demo_stake
      (two_thirds_threshold Checked) = Some po ∧
    po_responding po = [3; 1] ∧ po_missing po = [2; 9] ∧ po_outcome po = Outcome_Pass.
Proof.
  destruct (resolve_with_dropouts_correct Checked [3; 1; 2; 9]
    [mkVote 1 VoteResult_Pass; mkVote 3 VoteResult_Pass] demo_stake)
    as (po & Hr & Hresp & Hmiss & _ & _ & Hpass).
  - by_decide.
  - by_decide.
  - by_decide.
  - apply Forall_forall. by_decide.
  - exists po. split; [done|]. split; [rewrite Hresp; vm_compute; reflexivity|].
    split; [rewrite Hmiss; vm_compute; reflexivity|]. apply Hpass. by_decide.
Defined.
