(* ===== verification/Attestation.v ===== *)
(** Attestations and their signatures
    (src/crates/cosaci-core/src/attestation.rs and
    src/crates/cosaci-core/src/signing.rs).

    Byte strings are lists of [Z]; [attestation_wf] records the widths of the
    Rust field types. The CBOR codec (ciborium), SHA-256 (sha2) and Ed25519
    (ed25519-dalek) are third-party crates: they are the operations of the
    classes [Cbor], [Sha256] and [Ed25519], with their documented behaviour in
    [CborLaws] and [Ed25519Laws]. *)

From S2P Require Import Prelude.

Abbreviation bytes := (list Z) (only parsing).

(** A [[u8; n]]. *)
Definition byte_array (n : nat) (b : bytes) : Prop := length b = n ∧ Forall (uint 8) b.

#[export] Instance byte_array_dec n b : Decision (byte_array n b).
Proof. unfold byte_array. apply _. Defined.

Inductive AttestationResult := AttestationResult_Pass | AttestationResult_Fail.

#[export] Instance AttestationResult_eq_dec : EqDecision AttestationResult.
Proof. solve_decision. Defined.

Record Attestation := mkAttestation {
  att_version : Z;
  att_job_id : bytes;
  att_commit : bytes;
  att_runner_id : Z;
  att_result : AttestationResult;
  att_environment_hash : bytes;
  att_artifact_hash : bytes;
  att_timestamp_unix_ns : Z;
  att_signature : bytes;
}.

#[export] Instance Attestation_eq_dec : EqDecision Attestation.
Proof. solve_decision. Defined.

(** [Attestation::VERSION]. *)
Definition VERSION : Z := 1.

(** The widths the Rust types impose. *)
Definition attestation_wf (a : Attestation) : Prop :=
  uint 8 (att_version a) ∧ byte_array 16 (att_job_id a) ∧ byte_array 32 (att_commit a) ∧
  uint 64 (att_runner_id a) ∧ byte_array 32 (att_environment_hash a) ∧
  byte_array 32 (att_artifact_hash a) ∧
  - 2 ^ 63 <= att_timestamp_unix_ns a < 2 ^ 63 ∧ byte_array 64 (att_signature a).

#[export] Instance attestation_wf_dec a : Decision (attestation_wf a).
Proof. unfold attestation_wf. apply _. Defined.

(** [tmp.signature = sig]. *)
Definition set_signature (sig : bytes) (a : Attestation) : Attestation :=
  mkAttestation (att_version a) (att_job_id a) (att_commit a) (att_runner_id a) (att_result a)
    (att_environment_hash a) (att_artifact_hash a) (att_timestamp_unix_ns a) sig.

(** * Third-party interfaces *)

(** ciborium's serde codec for [Attestation]. *)
Class Cbor := {
  into_writer : Attestation → bytes;
  from_reader : bytes → option Attestation;
}.

(** Deserializing what was serialized gives the value back. *)
Class CborLaws `{Cbor} := {
  from_into a : attestation_wf a → from_reader (into_writer a) = Some a;
}.

(** sha2's digest. *)
Class Sha256 := sha256 : bytes → bytes.

(** A digest is 32 bytes. *)
Class Sha256Bytes `{Sha256} := sha256_bytes b : byte_array 32 (sha256 b).

(** ed25519-dalek's keys and signatures. *)
Class Ed25519 := {
  SigningKey : Type;
  VerifyingKey : Type;
  Signature : Type;
  key_from_bytes : bytes → SigningKey;
  key_verifying : SigningKey → VerifyingKey;
  key_sign : SigningKey → bytes → Signature;
  verify_strict : VerifyingKey → bytes → Signature → bool;
  sig_to_bytes : Signature → bytes;
  sig_from_bytes : bytes → Signature;
  vk_from_bytes : bytes → option VerifyingKey;
  vk_to_bytes : VerifyingKey → bytes;
}.

(** A signature is 64 bytes and survives its byte form, as does a verifying key,
    which is 32; a signature made with a key verifies under it. *)
Class Ed25519Laws `{Ed25519} := {
  sig_to_bytes_wf k m : byte_array 64 (sig_to_bytes (key_sign k m));
  sig_from_to k m : sig_from_bytes (sig_to_bytes (key_sign k m)) = key_sign k m;
  verify_sign k m : verify_strict (key_verifying k) m (key_sign k m) = true;
  vk_from_to k : vk_from_bytes (vk_to_bytes (key_verifying k)) = Some (key_verifying k);
  vk_to_bytes_wf k : byte_array 32 (vk_to_bytes (key_verifying k));
}.

(** * signing.rs *)

Section signing.
Context `{Ed25519}.

(** [signing::Keypair]. *)
Record Keypair := mkKeypair { kp_signing : SigningKey }.

Definition from_seed (seed : bytes) : Keypair := mkKeypair (key_from_bytes seed).

Definition verifying_key (kp : Keypair) : VerifyingKey := key_verifying (kp_signing kp).

Definition sign (kp : Keypair) (msg : bytes) : Signature := key_sign (kp_signing kp) msg.

Definition verify (pk : VerifyingKey) (msg : bytes) (sig : Signature) : result unit unit :=
  if verify_strict pk msg sig then Ok () else Err ().

End signing.

(** * attestation.rs *)

Section attestation.
Context `{Cbor} `{Sha256} `{Ed25519}.

Definition canonicalize (a : Attestation) : bytes := into_writer a.

Definition hash (a : Attestation) : bytes := sha256 (canonicalize a).

Definition decanonicalize (b : bytes) : option Attestation := from_reader b.

Definition canonical_signing_input (a : Attestation) : bytes :=
  canonicalize (set_signature (replicate 64 0) a).

Definition sign_with (kp : Keypair) (a : Attestation) : Attestation :=
  set_signature (sig_to_bytes (sign kp (canonical_signing_input a))) a.

Definition verify_signature (a : Attestation) (pk : VerifyingKey) : bool :=
  is_ok (verify pk (canonical_signing_input a) (sig_from_bytes (att_signature a))).

(** ** Lemmas *)

Lemma set_signature_wf sig a :
  byte_array 64 sig → attestation_wf a → attestation_wf (set_signature sig a).
Proof. intros Hs Ha. unfold attestation_wf in *. simpl.
  destruct Ha as (?&?&?&?&?&?&?&?). repeat (split; [done|]). done. Qed.

Lemma zero_signature_wf : byte_array 64 (replicate 64 0).
Proof. by_decide. Qed.

Lemma set_signature_twice s s' a : set_signature s (set_signature s' a) = set_signature s a.
Proof. done. Qed.

Lemma set_signature_same a : set_signature (att_signature a) a = a.
Proof. by destruct a. Qed.

Lemma canonicalize_inj `{!CborLaws} a b :
  attestation_wf a → attestation_wf b → canonicalize a = canonicalize b → a = b.
Proof.
  intros Ha Hb Heq. apply (inj Some). rewrite <-!from_into by done. by f_equal.
Qed.

Lemma canonical_signing_input_signature sig a :
  canonical_signing_input (set_signature sig a) = canonical_signing_input a.
Proof. done. Qed.

(** The signed bytes determine every field but the signature. *)
Lemma canonical_signing_input_binds `{!CborLaws} a b :
  attestation_wf a → attestation_wf b →
  canonical_signing_input a = canonical_signing_input b →
  b = set_signature (att_signature b) a.
Proof.
  intros Ha Hb Heq. apply canonicalize_inj in Heq;
    [|apply set_signature_wf; [apply zero_signature_wf|done]..].
  destruct a, b. unfold set_signature in *. simpl in *. congruence.
Qed.

Lemma sign_with_wf `{!Ed25519Laws} kp a :
  attestation_wf a → attestation_wf (sign_with kp a).
Proof. intros. apply set_signature_wf; [apply sig_to_bytes_wf|done]. Qed.

Lemma verify_sign_with `{!Ed25519Laws} kp a :
  verify_signature (sign_with kp a) (verifying_key kp) = true.
Proof.
  unfold verify_signature, sign_with, verify, verifying_key, sign.
  rewrite canonical_signing_input_signature. simpl.
  by rewrite sig_from_to, verify_sign.
Qed.

(** ** Theorems *)

(** A signed attestation keeps its widths and survives the canonical
    encoding, and what comes back still verifies under the signer's key;
    signing again changes nothing. *)
Theorem attestation_roundtrip `{!CborLaws} `{!Ed25519Laws} kp a :
  attestation_wf a →
  attestation_wf (sign_with kp a) ∧
  decanonicalize (canonicalize (sign_with kp a)) = Some (sign_with kp a) ∧
  verify_signature (sign_with kp a) (verifying_key kp) = true ∧
  sign_with kp (sign_with kp a) = sign_with kp a.
Proof.
  intros Ha. pose proof (sign_with_wf kp a Ha) as Hs.
  split; [done|]. split; [by apply from_into|]. split; [apply verify_sign_with|].
  unfold sign_with. by rewrite canonical_signing_input_signature.
Qed.

(** C26: a signature taken from one attestation vouches for another one exactly
    when it verifies for that one's own signing bytes, and these bytes differ
    as soon as any field other than the signature differs: moving a signature
    to a changed attestation asks the signature scheme to verify a message that
    was not signed. *)
Theorem attestation_tamper_evident `{!CborLaws} a b pk :
  attestation_wf a → attestation_wf b → att_signature b = att_signature a →
  (verify_signature b pk = verify_strict pk (canonical_signing_input b)
     (sig_from_bytes (att_signature a))) ∧
  (canonical_signing_input b = canonical_signing_input a ↔ b = a) ∧
  (canonicalize b = canonicalize a ↔ b = a).
Proof.
  intros Ha Hb Hsig. split; [|split].
  - unfold verify_signature, verify. rewrite Hsig. by destruct (verify_strict _ _ _).
  - split; [|by intros ->]. intros Heq.
    apply canonical_signing_input_binds in Heq; [|done..].
    rewrite Heq, <-Hsig. by rewrite set_signature_same.
  - split; [|by intros ->]. by apply canonicalize_inj.
Qed.

End attestation.

(** * A concrete instance

    A toy codec and signature scheme that satisfy the laws; every witness of
    the development that needs these interfaces runs on them. *)

Module Toy.

(** Fixed-width fields one after the other. *)
Definition toy_encode (a : Attestation) : bytes :=
  [att_version a; att_runner_id a; att_timestamp_unix_ns a;
   match att_result a with AttestationResult_Pass => 0 | AttestationResult_Fail => 1 end] ++
  att_job_id a ++ att_commit a ++ att_environment_hash a ++ att_artifact_hash a ++ att_signature a.

Definition toy_decode (b : bytes) : option Attestation :=
  match b with
  | v :: r :: t :: x :: b =>
      Some (mkAttestation v (take 16 b) (take 32 (drop 16 b)) r
        (if x =? 0 then AttestationResult_Pass else AttestationResult_Fail)
        (take 32 (drop 48 b)) (take 32 (drop 80 b)) t (drop 112 b))
  | _ => None
  end.

#[export] Instance toy_cbor : Cbor := {| into_writer := toy_encode; from_reader := toy_decode |}.

Lemma toy_roundtrip a : attestation_wf a → toy_decode (toy_encode a) = Some a.
Proof.
  destruct a as [v j c r x e h t s]. intros (_ & [Hj _] & [Hc _] & _ & [He _] & [Hh _] & _).
  simpl in *. f_equal. f_equal.
  - by rewrite take_app_length' by done.
  - rewrite drop_app_length', take_app_length' by done. done.
  - by destruct x.
  - rewrite (app_assoc j), drop_app_length', take_app_length'; [done|done|].
    rewrite length_app. lia.
  - rewrite (app_assoc j), (app_assoc (j ++ c)), drop_app_length', take_app_length'; [done|done|].
    rewrite !length_app. lia.
  - rewrite (app_assoc j), (app_assoc (j ++ c)), (app_assoc ((j ++ c) ++ e)), drop_app_length';
      [done|]. rewrite !length_app. lia.
Qed.

#[export] Instance toy_cbor_laws : CborLaws.
Proof. constructor. apply toy_roundtrip. Qed.

#[export] Instance toy_sha256 : Sha256 := λ b, replicate 31 0 ++ [wrap 8 (sumz b)].

(** A key is a number, and a signature repeats the key and a checksum. *)
Definition toy_sig (k : Z) (m : bytes) : bytes := replicate 32 (wrap 8 k) ++ replicate 32 (wrap 8 (k + sumz m)).

#[export] Instance toy_ed25519 : Ed25519 := {|
  SigningKey := Z;
  VerifyingKey := Z;
  Signature := bytes;
  key_from_bytes b := sumz b;
  key_verifying k := wrap 8 k;
  key_sign := toy_sig;
  verify_strict k m s := bool_decide (s = toy_sig k m);
  sig_to_bytes s := s;
  sig_from_bytes b := b;
  vk_from_bytes b := head b;
  vk_to_bytes k := k :: replicate 31 0;
|}.

#[export] Instance toy_ed25519_laws : Ed25519Laws.
Proof.
  constructor; simpl.
  - intros k m. split; [done|]. unfold toy_sig. apply Forall_app. split; apply Forall_replicate, wrap_bounds; lia.
  - done.
  - intros k m. apply bool_decide_eq_true_2. unfold toy_sig, wrap. by rewrite Zmod_mod, Zplus_mod_idemp_l.
  - done.
  - intros k. split; [done|]. constructor; [apply wrap_bounds; lia|]. by apply (Forall_replicate (uint 8) 31 0).
Qed.

End Toy.

Import (hints) Toy.

Definition demo_attestation : Attestation :=
  mkAttestation VERSION (replicate 16 7) (replicate 32 1) 42 AttestationResult_Pass
    (replicate 32 2) (replicate 32 3) 1000 (replicate 64 0).

(** The same claim with the other result. *)
Definition forged_attestation : Attestation :=
  mkAttestation VERSION (replicate 16 7) (replicate 32 1) 42 AttestationResult_Fail
    (replicate 32 2) (replicate 32 3) 1000 (replicate 64 0).

(** * Witnesses *)

Lemma attestation_roundtrip_witness :
  verify_signature (sign_with (from_seed [5]) demo_attestation)
    (verifying_key (from_seed [5])) = true ∧
  decanonicalize (canonicalize (sign_with (from_seed [5]) demo_attestation)) =
    Some (sign_with (from_seed [5]) demo_attestation).
Proof.
  destruct (attestation_roundtrip (from_seed [5]) demo_attestation) as (_ & Hd & Hv & _);
    [by_decide|]. by split.
Defined.

Lemma attestation_tamper_evident_witness :
  canonical_signing_input (set_signature (att_signature (sign_with (from_seed [5]) demo_attestation))
      forged_attestation) ≠
  canonical_signing_input (sign_with (from_seed [5]) demo_attestation).
Proof.
  intros Heq. revert Heq.
  refine (λ Heq, _ (proj1 (proj1 (proj2 (attestation_tamper_evident
    (sign_with (from_seed [5]) demo_attestation)
    (set_signature (att_signature (sign_with (from_seed [5]) demo_attestation)) forged_attestation)
    5 _ _ _))) Heq)).
  - discriminate.
  - by_decide.
  - by_decide.
  - reflexivity.
Defined.
