(* ===== verification/StakeLedger.v ===== *)
(** Stake ledger with minority slashing
    (src/crates/cosaci-state/src/stake_ledger.rs).

    The ledger is a finite map from runner ids to weights. The slashed amount
    goes through [f64] in the source, and does so here too: floats are
    [spec_float] values, with Rust's conversions written out. The theorems give
    the exact stake of every runner after a slashing round, and show that the
    events account for every unit of stake that left the ledger. *)

From Stdlib Require Import Floats.SpecFloat.
From S2P Require Import Prelude Quorum Attestation.

(** * Floating point *)

(** [u64 as f64]: round to nearest, ties to even. *)
Definition f64_of_u64 (n : Z) : spec_float := binary_normalize 53 1024 n 0 false.

(** [f64::from(f32)], which is exact. *)
Definition f64_of_f32 (x : spec_float) : spec_float :=
  match x with
  | S754_finite s m e => binary_normalize 53 1024 (if s then Z.neg m else Z.pos m) e s
  | _ => x
  end.

(** [f32::clamp(0.0, 1.0)]: two comparisons, both false on a NaN. *)
Definition f32_zero : spec_float := S754_zero false.
Definition f32_one : spec_float := S754_finite false 8388608 (-23).

Definition clamp01 (x : spec_float) : spec_float :=
  let x := if SFltb x f32_zero then f32_zero else x in
  if SFltb f32_one x then f32_one else x.

(** [x.floor() as u64]: the floor of a finite float is a float, and the cast
    saturates and sends a NaN to zero. *)
Definition floor_as_u64 (x : spec_float) : Z :=
  match x with
  | S754_finite false m e => Z.min (Z.shiftl (Z.pos m) e) u64_max
  | S754_infinity false => u64_max
  | _ => 0
  end.

(** * The ledger *)

Record StakeLedger := mkStakeLedger { stakes : StakeMap }.

Record SlashEvent := mkSlashEvent {
  se_runner_id : Z;
  se_stake_before : Z;
  se_stake_after : Z;
  se_slashed : Z;
}.

#[export] Instance SlashEvent_eq_dec : EqDecision SlashEvent.
Proof. solve_decision. Defined.

Definition new : StakeLedger := mkStakeLedger ∅.

Definition from_stake_map (m : StakeMap) : StakeLedger := mkStakeLedger m.

Definition register (runner_id stake : Z) (l : StakeLedger) : StakeLedger :=
  mkStakeLedger (<[runner_id := stake]> (stakes l)).

Definition stake_of (l : StakeLedger) (runner_id : Z) : Z := default 0 (stakes l !! runner_id).

Definition len (l : StakeLedger) : nat := size (stakes l).

Definition is_empty (l : StakeLedger) : bool := bool_decide (stakes l = ∅).

Definition as_stake_map (l : StakeLedger) : StakeMap := stakes l.

Definition slash (runner_id amount : Z) (l : StakeLedger) : SlashEvent * StakeLedger :=
  let before := stake_of l runner_id in
  let after := sat_sub before amount in
  (mkSlashEvent runner_id before after (before - after),
   mkStakeLedger (<[runner_id := after]> (stakes l))).

(** [((current as f64) * f64::from(f)).floor() as Weight]. *)
Definition slash_amount (f : spec_float) (current : Z) : Z :=
  floor_as_u64 (SFmul 53 1024 (f64_of_u64 current) (f64_of_f32 f)).

(** One iteration of the loop over the attestations. *)
Definition slash_one (consensus_artifact : bytes) (f : spec_float)
    (acc : list SlashEvent * StakeLedger) (att : Attestation) : list SlashEvent * StakeLedger :=
  let '(events, l) := acc in
  if decide (att_artifact_hash att = consensus_artifact) then acc
  else if negb (bool_decide (is_Some (stakes l !! att_runner_id att))) then acc
  else
    let current := stake_of l (att_runner_id att) in
    let amount := slash_amount f current in
    if amount =? 0 then acc
    else let '(ev, l) := slash (att_runner_id att) amount l in (events ++ [ev], l).

#[local] Arguments slash_one : simpl never.

Definition slash_minority (consensus_artifact : bytes) (attestations : list Attestation)
    (fraction : spec_float) (l : StakeLedger) : list SlashEvent * StakeLedger :=
  let f := clamp01 fraction in
  foldl (slash_one consensus_artifact f) ([], l) attestations.

(** * Lemmas *)

Lemma floor_as_u64_bounds x : uint 64 (floor_as_u64 x).
Proof.
  destruct x as [|[]| |[] m e]; simpl; try u64_lia.
  assert (0 <= Z.shiftl (Z.pos m) e) by (apply Z.shiftl_nonneg; lia). u64_lia.
Qed.

Lemma slash_amount_bounds f s : uint 64 (slash_amount f s).
Proof. apply floor_as_u64_bounds. Qed.

(** What one divergent attestation does to the stake of its runner. *)
Definition after_slash (f : spec_float) (s : Z) : Z := sat_sub s (slash_amount f s).

Lemma after_slash_bounds f s : 0 <= s → 0 <= after_slash f s <= s.
Proof. intros. pose proof (slash_amount_bounds f s). unfold after_slash. u64_lia. Qed.

(** The attestations of a runner that diverge from the consensus. *)
Definition divergent (consensus : bytes) (rid : Z) (atts : list Attestation) : list Attestation :=
  filter (λ a, att_artifact_hash a ≠ consensus ∧ att_runner_id a = rid) atts.

Lemma slash_one_stakes c f evs l att :
  (∀ rid s, stakes l !! rid = Some s → 0 <= s) →
  stakes (slash_one c f (evs, l) att).2 =
  if decide (att_artifact_hash att = c) then stakes l
  else alter (after_slash f) (att_runner_id att) (stakes l).
Proof.
  intros Hs. unfold slash_one. case_decide; [done|].
  case_bool_decide as Hin; simpl.
  - destruct Hin as [s Hin]. unfold stake_of, slash. rewrite Hin. simpl.
    destruct (_ =? 0) eqn:E; zbool; simpl; apply map_eq; intros i; unfold after_slash.
    + destruct (decide (i = att_runner_id att)) as [->|Hne].
      * rewrite lookup_alter_eq, Hin. simpl. rewrite E. f_equal.
        specialize (Hs _ _ Hin). u64_lia.
      * by rewrite lookup_alter_ne.
    + destruct (decide (i = att_runner_id att)) as [->|Hne].
      * unfold stake_of. by rewrite lookup_insert_eq, lookup_alter_eq, Hin.
      * by rewrite lookup_insert_ne, lookup_alter_ne.
  - symmetry. apply map_eq. intros i.
    destruct (decide (i = att_runner_id att)) as [->|Hne].
    + rewrite lookup_alter_eq. apply eq_None_not_Some in Hin. by rewrite Hin.
    + by rewrite lookup_alter_ne.
Qed.

Lemma slash_one_nonneg c f evs l att :
  (∀ rid s, stakes l !! rid = Some s → 0 <= s) →
  ∀ rid s, stakes (slash_one c f (evs, l) att).2 !! rid = Some s → 0 <= s.
Proof.
  intros Hs rid s. rewrite slash_one_stakes by done. case_decide; [by apply Hs|].
  rewrite lookup_alter. case_decide; [|by apply Hs].
  subst. destruct (stakes l !! _) as [s'|] eqn:E; simpl; [|done].
  intros [= <-]. apply after_slash_bounds. eauto.
Qed.

(** Each iteration keeps the books: what leaves the ledger is in the events. *)
Lemma slash_one_conserves c f evs l att :
  (∀ rid s, stakes l !! rid = Some s → 0 <= s) →
  total (stakes (slash_one c f (evs, l) att).2) +
    sumz (se_slashed <$> (slash_one c f (evs, l) att).1) =
  total (stakes l) + sumz (se_slashed <$> evs).
Proof.
  intros Hs. unfold slash_one. case_decide; [done|].
  case_bool_decide as Hin; simpl; [|done]. destruct Hin as [s Hin].
  case_match; [done|]. unfold slash, total. simpl.
  rewrite msum_insert_any, fmap_app, sumz_app. simpl. rewrite sumz_cons.
  unfold stake_of. rewrite Hin. simpl. unfold sumz at 2. simpl. lia.
Qed.

Lemma foldl_slash_nonneg c f atts evs l :
  (∀ rid s, stakes l !! rid = Some s → 0 <= s) →
  ∀ rid s, stakes (foldl (slash_one c f) (evs, l) atts).2 !! rid = Some s → 0 <= s.
Proof.
  induction atts as [|att atts IH] using rev_ind; intros Hs; [done|].
  rewrite foldl_app. simpl. destruct (foldl _ _ _) as [evs' l'] eqn:E.
  apply slash_one_nonneg. specialize (IH Hs). rewrite ?E in IH. done.
Qed.

(** The stake of a runner after the loop: one [after_slash] per divergent
    attestation naming it. *)
Lemma foldl_slash_lookup c f atts evs l rid :
  (∀ rid s, stakes l !! rid = Some s → 0 <= s) →
  stakes (foldl (slash_one c f) (evs, l) atts).2 !! rid =
  Nat.iter (length (divergent c rid atts)) (after_slash f) <$> stakes l !! rid.
Proof.
  intros Hs. induction atts as [|att atts IH] using rev_ind.
  { simpl. by destruct (stakes l !! rid). }
  rewrite foldl_app. simpl. pose proof (foldl_slash_nonneg c f atts evs l Hs) as Hs'.
  destruct (foldl _ _ _) as [evs' l'] eqn:E. simpl in *.
  rewrite slash_one_stakes by done.
  unfold divergent in *. rewrite filter_app, length_app, filter_cons, filter_nil.
  destruct (decide (att_artifact_hash att = c)) as [Hc|Hc].
  - rewrite IH, decide_False by tauto. simpl. by rewrite Nat.add_0_r.
  - rewrite lookup_alter. case_decide as Hr.
    + subst. rewrite IH, decide_True by done. simpl. rewrite Nat.add_1_r.
      by destruct (stakes l !! _).
    + rewrite IH, decide_False by tauto. simpl. by rewrite Nat.add_0_r.
Qed.

Lemma iter_after_slash_bounds f n s : 0 <= s → 0 <= Nat.iter n (after_slash f) s <= s.
Proof.
  intros Hs. induction n as [|n IH]; simpl; [lia|].
  pose proof (after_slash_bounds f (Nat.iter n (after_slash f) s)). lia.
Qed.

Lemma foldl_slash_conserves c f atts evs l :
  (∀ rid s, stakes l !! rid = Some s → 0 <= s) →
  total (stakes (foldl (slash_one c f) (evs, l) atts).2) +
    sumz (se_slashed <$> (foldl (slash_one c f) (evs, l) atts).1) =
  total (stakes l) + sumz (se_slashed <$> evs).
Proof.
  intros Hs. induction atts as [|att atts IH] using rev_ind; [done|].
  rewrite !foldl_app. simpl. pose proof (foldl_slash_nonneg c f atts evs l Hs) as Hs'.
  destruct (foldl _ _ _) as [evs' l'] eqn:E. rewrite <-IH. by apply slash_one_conserves.
Qed.

(** The events are about divergent attestations, and are internally consistent. *)
Definition event_ok (c : bytes) (atts : list Attestation) (ev : SlashEvent) : Prop :=
  (∃ att, att ∈ atts ∧ att_artifact_hash att ≠ c ∧ att_runner_id att = se_runner_id ev) ∧
  se_slashed ev = se_stake_before ev - se_stake_after ev ∧
  0 <= se_stake_after ev <= se_stake_before ev.

Lemma foldl_slash_events c f atts evs l :
  (∀ rid s, stakes l !! rid = Some s → 0 <= s) →
  ∃ new, (foldl (slash_one c f) (evs, l) atts).1 = evs ++ new ∧ Forall (event_ok c atts) new.
Proof.
  intros Hs. induction atts as [|att atts IH] using rev_ind.
  { exists []. split; [by rewrite (right_id_L [] (++))|done]. }
  rewrite foldl_app. simpl. pose proof (foldl_slash_nonneg c f atts evs l Hs) as Hs'.
  destruct (foldl _ _ _) as [evs' l'] eqn:E. simpl in *. destruct IH as (new & -> & Hnew).
  assert (Hmono : Forall (event_ok c (atts ++ [att])) new).
  { eapply Forall_impl; [exact Hnew|]. intros ev ((a & Ha & ?) & ?). split; [|done].
    exists a. split; [apply elem_of_app; by left|done]. }
  unfold slash_one. case_decide; [by exists new|].
  case_bool_decide as Hin; simpl; [|by exists new].
  case_match; [by exists new|]. destruct Hin as [s Hin].
  eexists (new ++ [_]). rewrite app_assoc. split; [done|].
  apply Forall_app. split; [done|]. constructor; [|done]. split; simpl.
  - exists att. split; [apply elem_of_app; right; apply list_elem_of_singleton; done|done].
  - unfold stake_of. rewrite Hin. simpl. specialize (Hs' _ _ Hin).
    pose proof (slash_amount_bounds f s). u64_lia.
Qed.

(** * Theorems *)

(** C15: after a slashing round every runner's stake is its old stake put
    through one [after_slash] step for each attestation naming it whose
    artifact differs from the consensus; so no stake grows, a runner named by
    no divergent attestation keeps its stake, no runner enters or leaves the
    ledger, and what the events report as slashed is exactly what the ledger
    lost. *)
Theorem slash_minority_correct c atts fraction l evs l' :
  (∀ rid s, stakes l !! rid = Some s → 0 <= s) →
  slash_minority c atts fraction l = (evs, l') →
  (∀ rid, stakes l' !! rid =
     Nat.iter (length (divergent c rid atts)) (after_slash (clamp01 fraction)) <$> stakes l !! rid) ∧
  (∀ rid, 0 <= stake_of l' rid <= stake_of l rid) ∧
  (∀ rid, (∀ a, a ∈ atts → att_runner_id a = rid → att_artifact_hash a = c) →
     stake_of l' rid = stake_of l rid) ∧
  total (stakes l) = total (stakes l') + sumz (se_slashed <$> evs) ∧
  Forall (event_ok c atts) evs.
Proof.
  intros Hs Hr. unfold slash_minority in Hr.
  pose proof (foldl_slash_lookup c (clamp01 fraction) atts [] l) as Hl.
  pose proof (foldl_slash_conserves c (clamp01 fraction) atts [] l Hs) as Hc.
  destruct (foldl_slash_events c (clamp01 fraction) atts [] l Hs) as (new & Hnew & Hok).
  rewrite Hr in Hl, Hc, Hnew. simpl in *. subst new.
  split; [by eauto|]. split; [|split].
  - intros rid. unfold stake_of. rewrite Hl by done.
    destruct (stakes l !! rid) as [s|] eqn:E; simpl; [|lia].
    apply iter_after_slash_bounds. eauto.
  - intros rid Hrid. unfold stake_of. rewrite Hl by done.
    assert (divergent c rid atts = []) as ->.
    { unfold divergent. apply filter_none. intros a Ha [Hne Hid]. by apply Hne, Hrid. }
    by destruct (stakes l !! rid).
  - unfold sumz in Hc at 2. simpl in Hc. split; [lia|done].
Qed.

(** A zero fraction, or one that is not a number, slashes nobody. *)
Lemma slash_minority_noop c atts fraction l :
  clamp01 fraction = f32_zero ∨ fraction = S754_nan →
  slash_minority c atts fraction l = ([], l).
Proof.
  intros Hf. unfold slash_minority. generalize (@nil SlashEvent).
  assert (Hz : ∀ s, slash_amount (clamp01 fraction) s = 0).
  { intros s. unfold slash_amount.
    destruct Hf as [-> | ->]; simpl; unfold SFmul; by destruct (f64_of_u64 s) as [| | |[]]. }
  induction atts as [|att atts IH]; intros evs; simpl; [done|].
  rewrite <-IH at 2. f_equal. unfold slash_one. rewrite Hz. simpl.
  case_decide; [done|]. by destruct (negb _).
Qed.

(** * Witnesses *)

(** The fractions 0.25 and 1.0 as [f32]. *)
Definition f32_quarter : spec_float := S754_finite false 8388608 (-25).

Definition demo_ledger : StakeLedger :=
  register 42 100 (register 7 300 (register 8 (2 ^ 53 + 1) new)).

Definition demo_atts : list Attestation :=
  [demo_attestation;
   mkAttestation VERSION (replicate 16 7) (replicate 32 1) 7 AttestationResult_Pass
    (replicate 32 2) (replicate 32 9) 1000 (replicate 64 0)].

Lemma slash_minority_correct_witness :
  total (stakes demo_ledger) =
    total (stakes (slash_minority (replicate 32 9) demo_atts f32_quarter demo_ledger).2) +
    sumz (se_slashed <$> (slash_minority (replicate 32 9) demo_atts f32_quarter demo_ledger).1) ∧
  (slash_minority (replicate 32 9) demo_atts f32_quarter demo_ledger).1 =
    [mkSlashEvent 42 100 75 25].
Proof.
  split; [|vm_compute; reflexivity].
  refine (proj1 (proj2 (proj2 (proj2 (slash_minority_correct (replicate 32 9) demo_atts f32_quarter
    demo_ledger _ _ _ _))))); [|vm_compute; reflexivity].
  change (map_Forall (λ _ s, 0 <= s) (stakes demo_ledger)). by_decide.
Defined.

(** Slashing by the whole stake leaves one unit of a stake that [f64] rounds
    down: the documented "[1.0] zeros out the disagreer's stake" holds only for
    stakes [f64] represents. *)
Theorem full_slash_leaves_stake :
  after_slash (clamp01 f32_one) (2 ^ 53 + 1) = 1 ∧ after_slash (clamp01 f32_one) (2 ^ 53) = 0.
Proof. vm_compute. done. Qed.
