(* ===== verification/Status.v ===== *)
(** SCM-visible status lifecycle and the check-run payloads built from it
    (src/crates/cosaci-core/src/status.rs and
    src/crates/cosaci-state/src/github_checks.rs).

    The machine is explicit state passing; [attempts] runs any sequence of
    transition requests and records what each accepted one published. *)

From S2P Require Import Prelude.

Inductive Status :=
| Status_Pending
| Status_Running
| Status_QuorumVerifying
| Status_Success
| Status_Failure.

#[export] Instance Status_eq_dec : EqDecision Status.
Proof. solve_decision. Defined.

Inductive TransitionError :=
| TransitionError_IllegalTransition (from to : Status)
| TransitionError_AlreadyTerminal (current : Status).

Definition is_allowed (from to : Status) : bool :=
  match from, to with
  | Status_Pending, Status_Running
  | Status_Running, Status_QuorumVerifying
  | Status_QuorumVerifying, (Status_Success | Status_Failure) => true
  | _, _ => false
  end.

Definition is_terminal (s : Status) : bool :=
  match s with Status_Success | Status_Failure => true | _ => false end.

Record StatusMachine := mkStatusMachine { current : Status }.

Definition new : StatusMachine := mkStatusMachine Status_Pending.

Definition transition (to : Status) (m : StatusMachine) :
    result Status TransitionError * StatusMachine :=
  if is_terminal (current m) then (Err (TransitionError_AlreadyTerminal (current m)), m)
  else if negb (is_allowed (current m) to)
  then (Err (TransitionError_IllegalTransition (current m) to), m)
  else (Ok to, mkStatusMachine to).

(** * github_checks.rs *)

Inductive CheckStatus := CheckStatus_Queued | CheckStatus_InProgress | CheckStatus_Completed.

Inductive CheckConclusion :=
| CheckConclusion_Success
| CheckConclusion_Failure
| CheckConclusion_Neutral
| CheckConclusion_Cancelled
| CheckConclusion_Skipped.

Record CheckOutput := mkCheckOutput { co_title : string; co_summary : string }.

Record CheckRunPayload := mkCheckRunPayload {
  crp_name : string;
  crp_head_sha : string;
  crp_status : CheckStatus;
  crp_conclusion : option CheckConclusion;
  crp_details_url : option string;
  crp_output : CheckOutput;
}.

Record JobContext := mkJobContext {
  jc_name : string;
  jc_commit_sha : string;
  jc_details_url : option string;
  jc_summary : string;
  jc_title : string;
}.

Definition status_to_check_status (s : Status) : CheckStatus * option CheckConclusion :=
  match s with
  | Status_Pending => (CheckStatus_Queued, None)
  | Status_Running | Status_QuorumVerifying => (CheckStatus_InProgress, None)
  | Status_Success => (CheckStatus_Completed, Some CheckConclusion_Success)
  | Status_Failure => (CheckStatus_Completed, Some CheckConclusion_Failure)
  end.

Definition build_payload (status : Status) (ctx : JobContext) : CheckRunPayload :=
  let '(check_status, conclusion) := status_to_check_status status in
  mkCheckRunPayload (jc_name ctx) (jc_commit_sha ctx) check_status conclusion
    (jc_details_url ctx) (mkCheckOutput (jc_title ctx) (jc_summary ctx)).

(** * Sequences of requests *)

(** The states published by a sequence of requests, and the final machine. *)
Fixpoint attempts (reqs : list Status) (m : StatusMachine) : list Status * StatusMachine :=
  match reqs with
  | [] => ([], m)
  | to :: reqs =>
      let '(r, m) := transition to m in
      let '(pub, m) := attempts reqs m in
      (match r with Ok s => s :: pub | Err _ => pub end, m)
  end.

(** What may follow a state. *)
Definition lifecycles (s : Status) : list (list Status) :=
  match s with
  | Status_Pending => [[]; [Status_Running]; [Status_Running; Status_QuorumVerifying];
      [Status_Running; Status_QuorumVerifying; Status_Success];
      [Status_Running; Status_QuorumVerifying; Status_Failure]]
  | Status_Running => [[]; [Status_QuorumVerifying]; [Status_QuorumVerifying; Status_Success];
      [Status_QuorumVerifying; Status_Failure]]
  | Status_QuorumVerifying => [[]; [Status_Success]; [Status_Failure]]
  | Status_Success | Status_Failure => [[]]
  end.

(** A request either takes an allowed edge or changes nothing. *)
Lemma transition_cases to s :
  (transition to (mkStatusMachine s) = (Ok to, mkStatusMachine to) ∧ is_allowed s to = true) ∨
  ∃ e, transition to (mkStatusMachine s) = (Err e, mkStatusMachine s).
Proof. destruct s, to; unfold transition; simpl; eauto. Qed.

Lemma lifecycles_step s to pub :
  is_allowed s to = true → pub ∈ lifecycles to → to :: pub ∈ lifecycles s.
Proof.
  intros Ha Hp. destruct s, to; try discriminate; simpl in *;
    repeat setoid_rewrite elem_of_cons in Hp; destruct_or! Hp; subst;
    try (by apply elem_of_nil in Hp); by_decide.
Qed.

Lemma attempts_lifecycle reqs s :
  (attempts reqs (mkStatusMachine s)).1 ∈ lifecycles s ∧
  current (attempts reqs (mkStatusMachine s)).2 =
    List.last (attempts reqs (mkStatusMachine s)).1 s.
Proof.
  revert s. induction reqs as [|to reqs IH]; intros s; simpl.
  { destruct s; split; try done; left. }
  destruct (transition_cases to s) as [[-> Ha]|[e ->]].
  - destruct (IH to) as [Hp Hc]. destruct (attempts reqs _) as [pub m]. simpl in *.
    split; [by apply lifecycles_step|]. rewrite Hc. destruct pub as [|x pub]; [done|].
    clear. revert x. induction pub as [|y pub IH]; intros x; [done|]. apply (IH y).
  - specialize (IH s). by destruct (attempts reqs _).
Qed.

(** C33: whatever transitions are requested, the sequence of states published
    is a prefix of Running, QuorumVerifying, then one of Success or Failure;
    the machine ends in the last state published; and the check run is reported
    completed, with the matching conclusion, exactly in the two terminal
    states. *)
Theorem status_lifecycle reqs ctx :
  let '(pub, m) := attempts reqs new in
  (∃ rest, pub ++ rest = [Status_Running; Status_QuorumVerifying; Status_Success] ∨
           pub ++ rest = [Status_Running; Status_QuorumVerifying; Status_Failure]) ∧
  current m = List.last pub Status_Pending ∧
  (crp_status (build_payload (current m) ctx) = CheckStatus_Completed ↔
     is_terminal (current m) = true) ∧
  (crp_conclusion (build_payload (current m) ctx) =
     match current m with
     | Status_Success => Some CheckConclusion_Success
     | Status_Failure => Some CheckConclusion_Failure
     | _ => None
     end).
Proof.
  destruct (attempts_lifecycle reqs Status_Pending) as [Hp Hc]. fold new in *.
  destruct (attempts reqs new) as [pub m]. simpl in *. split; [|split; [done|]].
  - repeat setoid_rewrite elem_of_cons in Hp. destruct_or! Hp; subst;
      try (by apply elem_of_nil in Hp); eexists; (left; reflexivity) || (right; reflexivity).
  - destruct m as [[]]; done.
Qed.

(** A request is refused without any change of state, and the refusal says
    why: out of a terminal state always [AlreadyTerminal], otherwise
    [IllegalTransition] naming the edge, which is not one of the four allowed. *)
Theorem transition_errors to m e m' :
  transition to m = (Err e, m') →
  m' = m ∧
  match e with
  | TransitionError_AlreadyTerminal s => s = current m ∧ (s = Status_Success ∨ s = Status_Failure)
  | TransitionError_IllegalTransition s t =>
      s = current m ∧ t = to ∧
      (s, t) ∉ [(Status_Pending, Status_Running); (Status_Running, Status_QuorumVerifying);
                (Status_QuorumVerifying, Status_Success); (Status_QuorumVerifying, Status_Failure)]
  end.
Proof.
  destruct m as [[]], to; unfold transition; simpl; intros; simplify_eq;
    (split; [done|]); simpl; split_all; auto; apply (bool_decide_unpack _); vm_compute; exact I.
Qed.

Lemma transition_errors_witness :
  (transition Status_Success new).2 = new.
Proof.
  exact (proj1 (transition_errors Status_Success new
    (TransitionError_IllegalTransition Status_Pending Status_Success) new eq_refl)).
Defined.
