(* ===== verification/Capabilities.v ===== *)
(** Capability matching and committee selection
    (src/crates/cosaci-core/src/capabilities.rs).

    A committee is formed by keeping the candidates that satisfy the job's
    requirements and ranking them by VRF output. The theorems characterise the
    committee completely: who is in it, in which order, when there is none, and
    that the order in which candidates were collected does not matter. *)

From stdpp Require Import sorting.
From S2P Require Import Prelude.

Inductive Platform :=
| Platform_LinuxX86_64
| Platform_LinuxAarch64
| Platform_DarwinX86_64
| Platform_DarwinAarch64.

#[export] Instance Platform_eq_dec : EqDecision Platform.
Proof. solve_decision. Defined.

Inductive Runtime := Runtime_Wasm | Runtime_Firecracker | Runtime_Docker.

#[export] Instance Runtime_eq_dec : EqDecision Runtime.
Proof. solve_decision. Defined.

Definition runtime_code (r : Runtime) : option bool :=
  match r with
  | Runtime_Wasm => None
  | Runtime_Firecracker => Some false
  | Runtime_Docker => Some true
  end.

#[export] Instance Runtime_countable : Countable Runtime.
Proof.
  refine (inj_countable runtime_code (λ o, Some match o with
    | None => Runtime_Wasm
    | Some false => Runtime_Firecracker
    | Some true => Runtime_Docker
    end) _). by intros [].
Defined.

Record Capabilities := mkCapabilities {
  cap_cpu : Z;
  cap_memory_mb : Z;
  cap_platform : Platform;
  cap_runtimes : gset Runtime;
}.

Record JobRequirements := mkJobRequirements {
  req_cpu : Z;
  req_memory_mb : Z;
  req_platform : Platform;
  req_runtimes : gset Runtime;
}.

Definition matches (runner : Capabilities) (job : JobRequirements) : bool :=
  (req_cpu job <=? cap_cpu runner) &&
  (req_memory_mb job <=? cap_memory_mb runner) &&
  bool_decide (cap_platform runner = req_platform job) &&
  bool_decide (req_runtimes job ⊆ cap_runtimes runner).

(** [Ord] on byte arrays: lexicographic. *)
Fixpoint lex_leb (a b : list Z) : bool :=
  match a, b with
  | [], _ => true
  | _ :: _, [] => false
  | x :: a, y :: b => (x <? y) || ((x =? y) && lex_leb a b)
  end.

Lemma lex_leb_refl a : lex_leb a a = true.
Proof. induction a; simpl; [done|]. by rewrite Z.eqb_refl, Z.ltb_irrefl, IHa. Qed.

Lemma lex_leb_total a b : lex_leb a b = true ∨ lex_leb b a = true.
Proof.
  revert b. induction a as [|x a IH]; intros [|y b]; simpl; auto.
  destruct (Z.lt_trichotomy x y) as [Hxy|[->|Hxy]].
  - left. by rewrite (proj2 (Z.ltb_lt x y) Hxy).
  - rewrite Z.eqb_refl, Z.ltb_irrefl. simpl. apply IH.
  - right. by rewrite (proj2 (Z.ltb_lt y x) Hxy).
Qed.

Lemma lex_leb_cons x y a b :
  lex_leb (x :: a) (y :: b) = true ↔ x < y ∨ (x = y ∧ lex_leb a b = true).
Proof. simpl. by rewrite orb_true_iff, andb_true_iff, Z.ltb_lt, Z.eqb_eq. Qed.

Lemma lex_leb_trans a b c : lex_leb a b = true → lex_leb b c = true → lex_leb a c = true.
Proof.
  revert b c. induction a as [|x a IH]; intros [|y b] [|z c]; try done.
  rewrite !lex_leb_cons. intros [?|[-> ?]] [?|[-> ?]]; [lia..|].
  right. split; [done|]. by apply IH with b.
Qed.

Lemma lex_leb_antisym a b : lex_leb a b = true → lex_leb b a = true → a = b.
Proof.
  revert b. induction a as [|x a IH]; intros [|y b]; try done.
  rewrite !lex_leb_cons. intros [?|[-> ?]] [?|[? ?]]; try lia. f_equal. auto.
Qed.

#[export] Hint Resolve lex_leb_refl lex_leb_total lex_leb_trans lex_leb_antisym : cosaci.

Section committee.
Context {Id : Type}.

Record Candidate := mkCandidate {
  cand_id : Id;
  cand_capabilities : Capabilities;
  cand_vrf_output : list Z;
}.

Definition vrf_leb (a b : Candidate) : bool := lex_leb (cand_vrf_output a) (cand_vrf_output b).

Definition eligible (candidates : list Candidate) (requirements : JobRequirements) :=
  filter (λ c, matches (cand_capabilities c) requirements = true) candidates.

Definition select_capability_aware_committee (candidates : list Candidate)
    (requirements : JobRequirements) (committee_size : nat) : option (list Id) :=
  let el := eligible candidates requirements in
  if decide (length el < committee_size)%nat then None
  else Some (cand_id <$> take committee_size (stable_sort vrf_leb el)).

(** ** Lemmas *)

Lemma vrf_leb_total x y : vrf_leb x y = true ∨ vrf_leb y x = true.
Proof. apply lex_leb_total. Qed.

Lemma vrf_leb_trans x y z : vrf_leb x y = true → vrf_leb y z = true → vrf_leb x z = true.
Proof. apply lex_leb_trans. Qed.

Lemma ranked_sorted l : StronglySorted vrf_leb (stable_sort vrf_leb l).
Proof. apply stable_sort_sorted; [apply vrf_leb_total|apply vrf_leb_trans]. Qed.

(** In a sorted list nothing in a suffix ranks before anything in the prefix. *)
Lemma sorted_take_drop n l x y :
  StronglySorted vrf_leb l → x ∈ take n l → y ∈ drop n l → vrf_leb x y = true.
Proof.
  intros Hl Hx Hy. rewrite <-(take_drop n l) in Hl.
  apply Is_true_true. eapply (StronglySorted_app_1_elem_of vrf_leb); eauto.
Qed.

Lemma eligible_elem c cs req :
  c ∈ eligible cs req ↔ c ∈ cs ∧ matches (cand_capabilities c) req = true.
Proof. unfold eligible. rewrite list_elem_of_filter. tauto. Qed.

(** The ranking of distinct outputs does not depend on the collection order. *)
Lemma ranked_unique l k :
  NoDup (cand_vrf_output <$> l) → l ≡ₚ k → stable_sort vrf_leb l = stable_sort vrf_leb k.
Proof.
  intros Hnd Hp. apply (StronglySorted_unique_perm vrf_leb); [|apply ranked_sorted..|].
  - intros x y. rewrite !stable_sort_perm. intros Hx Hy Hxy Hyx.
    assert (cand_vrf_output x = cand_vrf_output y) as Heq by by apply lex_leb_antisym.
    apply list_elem_of_lookup in Hx as [i Hi], Hy as [j Hj].
    assert (i = j) as ->; [|congruence].
    eapply (NoDup_lookup (cand_vrf_output <$> l)); [done|..].
    + by rewrite list_lookup_fmap, Hi.
    + by rewrite list_lookup_fmap, Hj, Heq.
  - by rewrite !stable_sort_perm.
Qed.

(** ** Theorems *)

(** C32: committee selection returns a committee exactly when enough candidates
    match; the committee then has exactly the requested size, its members are
    matching candidates in VRF order, and every matching candidate left out
    ranks no better than every member. *)
Theorem select_committee_correct cs req k :
  match select_capability_aware_committee cs req k with
  | None => (length (filter (λ c, matches (cand_capabilities c) req = true) cs) < k)%nat
  | Some ids =>
      length ids = k ∧
      ∃ members rest,
        members ++ rest ≡ₚ filter (λ c, matches (cand_capabilities c) req = true) cs ∧
        ids = cand_id <$> members ∧
        StronglySorted vrf_leb members ∧
        (∀ m r, m ∈ members → r ∈ rest →
           lex_leb (cand_vrf_output m) (cand_vrf_output r) = true)
  end.
Proof.
  unfold select_capability_aware_committee. fold (eligible cs req).
  case_decide as Hk; [done|]. pose proof (ranked_sorted (eligible cs req)) as Hs.
  split.
  - rewrite length_fmap, length_take, stable_sort_length. lia.
  - eexists (take k (stable_sort vrf_leb (eligible cs req))), (drop k _). split; [|split; [done|]].
    + by rewrite take_drop, stable_sort_perm.
    + split; [|intros m r; by apply sorted_take_drop].
      rewrite <-(take_drop k (stable_sort _ _)) in Hs.
      by apply StronglySorted_app_1_l in Hs.
Qed.

(** With distinct VRF outputs the committee is a function of the set of
    candidates: neither the order in which they were collected nor the presence
    of candidates that do not match changes it. *)
Theorem select_committee_order_independent cs cs' req k :
  NoDup (cand_vrf_output <$> cs) →
  filter (λ c, matches (cand_capabilities c) req = true) cs ≡ₚ
  filter (λ c, matches (cand_capabilities c) req = true) cs' →
  select_capability_aware_committee cs req k = select_capability_aware_committee cs' req k.
Proof.
  intros Hnd Hp. unfold select_capability_aware_committee. fold (eligible cs req) (eligible cs' req) in *.
  rewrite (ranked_unique (eligible cs req) (eligible cs' req)) by
    (done || by apply NoDup_fmap_filter).
  by rewrite (Permutation_length Hp).
Qed.

End committee.
Arguments Candidate : clear implicits.

(** More resources never disqualify a runner, and a lighter job never excludes
    one that ran the heavier. *)
Lemma matches_monotone runner runner' job job' :
  cap_cpu runner <= cap_cpu runner' → cap_memory_mb runner <= cap_memory_mb runner' →
  cap_platform runner = cap_platform runner' → cap_runtimes runner ⊆ cap_runtimes runner' →
  req_cpu job' <= req_cpu job → req_memory_mb job' <= req_memory_mb job →
  req_platform job = req_platform job' → req_runtimes job' ⊆ req_runtimes job →
  matches runner job = true → matches runner' job' = true.
Proof.
  intros ? ? Hp ? ? ? Hq ?. unfold matches. rewrite !andb_true_iff, !bool_decide_eq_true.
  intros [[[? ?] ?] ?]. zbool. rewrite !Z.leb_le. split_all; [lia|lia|congruence|].
  etrans; [done|]. by etrans.
Qed.

(** * Witnesses *)

Definition demo_caps : Capabilities :=
  mkCapabilities 8 4096 Platform_LinuxX86_64 {[Runtime_Wasm; Runtime_Docker]}.

Definition demo_weak_caps : Capabilities :=
  mkCapabilities 1 512 Platform_LinuxX86_64 {[Runtime_Wasm]}.

Definition demo_req : JobRequirements :=
  mkJobRequirements 2 1024 Platform_LinuxX86_64 {[Runtime_Wasm]}.

Definition demo_candidates : list (Candidate Z) :=
  [mkCandidate 1 demo_caps [9; 9]; mkCandidate 2 demo_weak_caps [0; 0];
   mkCandidate 3 demo_caps [1; 2]; mkCandidate 4 demo_caps [1; 1]].

Lemma select_committee_order_independent_witness :
  select_capability_aware_committee demo_candidates demo_req 2 = Some [4; 3] ∧
  select_capability_aware_committee demo_candidates demo_req 2 =
  select_capability_aware_committee (reverse demo_candidates) demo_req 2.
Proof.
  split; [vm_compute; reflexivity|].
  refine (select_committee_order_independent demo_candidates (reverse demo_candidates) demo_req 2 _ _).
  - by_decide.
  - by rewrite reverse_Permutation.
Defined.
