(* ===== verification/MerkleLog.v ===== *)
(** Append-only Merkle log
    (src/crates/cosaci-core/src/merkle_log.rs).

    The log is generic over a [Store]; the class [StoreLaws] states what a
    backend promises to the log, both shipped backends discharge it, and the
    log's theorems are proved once against it. The Merkle tree itself is the
    rs_merkle crate, the class [RsMerkle], whose laws say that a non-empty tree
    has a root and that the proof it gives for a leaf verifies against it.

    File I/O: a [FileStore] holds the content of its file; each call of
    [append] takes the outcome of its [write_all] and [sync_data] as an
    argument, a failed write having put some prefix of the record on disk. *)

From S2P Require Import Prelude Attestation.

(** * rs_merkle *)

Class RsMerkle := {
  (** [Sha256::hash] *)
  mt_hash : bytes → bytes;
  (** [MerkleTree::from_leaves(leaves).root()] *)
  mt_root : list bytes → option bytes;
  (** [MerkleTree::from_leaves(leaves).proof(&[i]).proof_hashes()] *)
  mt_proof : list bytes → nat → list bytes;
  (** [MerkleProof::new(hashes).verify(root, &[i], &[leaf], total)] *)
  mt_verify : list bytes → bytes → nat → bytes → nat → bool;
}.

Class RsMerkleLaws `{RsMerkle} := {
  mt_root_some ls : ls ≠ [] → is_Some (mt_root ls);
  mt_proof_verifies ls i leaf root :
    ls !! i = Some leaf → mt_root ls = Some root →
    mt_verify (mt_proof ls i) root i leaf (length ls) = true;
}.

Record InclusionProof := mkInclusionProof {
  ip_position : Z;
  ip_entry : bytes;
  ip_proof_hashes : list bytes;
  ip_length_at_proof : Z;
}.

#[export] Instance InclusionProof_eq_dec : EqDecision InclusionProof.
Proof. solve_decision. Defined.

(** * Stores *)

(** The two outcomes an append depends on: [write_all], failing after some
    bytes reached the file, and [sync_data]. *)
Record io_outcome := mkIo { io_write_err : option nat; io_sync_ok : bool }.

Definition io_fine : io_outcome := mkIo None true.

Inductive io_error := IoError_Write | IoError_Sync | IoError_InvalidData.

#[export] Instance io_error_eq_dec : EqDecision io_error.
Proof. solve_decision. Defined.

(** The [Store] trait. *)
Class Store (S E : Type) := {
  store_append : io_outcome → bytes → S → result Z E * S;
  store_read_all : S → result (list bytes) E;
}.

(** What a store promises: it represents the sequence of entries appended
    successfully, positions count from zero, and [read_all] returns them. *)
Class StoreLaws (S E : Type) `{Store S E} := {
  store_rep : S → list bytes → Prop;
  store_append_rep io e s es p s' :
    store_rep s es → byte_array 32 e → store_append io e s = (Ok p, s') →
    p = Z.of_nat (length es) ∧ store_rep s' (es ++ [e]);
  store_read_rep s es : store_rep s es → store_read_all s = Ok es;
}.

(** ** MemStore *)

Record MemStore := mkMemStore { ms_entries : list bytes }.

Definition mem_append (entry : bytes) (s : MemStore) : result Z Empty_set * MemStore :=
  (Ok (Z.of_nat (length (ms_entries s))), mkMemStore (ms_entries s ++ [entry])).

Definition mem_read_all (s : MemStore) : result (list bytes) Empty_set := Ok (ms_entries s).

#[export] Instance mem_store : Store MemStore Empty_set := {|
  store_append _ := mem_append;
  store_read_all := mem_read_all;
|}.

#[export] Instance mem_store_laws : StoreLaws MemStore Empty_set.
Proof.
  refine {| store_rep s es := ms_entries s = es |}.
  - intros io e s es p s' Hes _ Happ. simpl in Happ. unfold mem_append in Happ.
    rewrite Hes in Happ. by simplify_eq.
  - intros s es <-. done.
Defined.

(** ** FileStore *)

(** [fs_disk] is the content of the file behind both the path and the handle. *)
Record FileStore := mkFileStore { fs_disk : bytes; fs_len : Z }.

Definition file_open (disk : bytes) : result FileStore io_error :=
  let bytes := Z.of_nat (length disk) in
  if negb (bytes mod 32 =? 0) then Err IoError_InvalidData
  else Ok (mkFileStore disk (bytes / 32)).

Definition file_append (io : io_outcome) (entry : bytes) (s : FileStore) :
    result Z io_error * FileStore :=
  match io_write_err io with
  | Some k => (Err IoError_Write, mkFileStore (fs_disk s ++ take k entry) (fs_len s))
  | None =>
      let s := mkFileStore (fs_disk s ++ entry) (fs_len s) in
      if negb (io_sync_ok io) then (Err IoError_Sync, s)
      else (Ok (fs_len s), mkFileStore (fs_disk s) (fs_len s + 1))
  end.

(** [chunks_exact(n)] for a positive [n]: the full chunks, a shorter rest
    dropped. The fuel is the input length. *)
Fixpoint chunks_exact_fuel (fuel n : nat) (b : bytes) : list bytes :=
  match fuel with
  | O => []
  | S fuel => if decide (length b < n)%nat then []
              else take n b :: chunks_exact_fuel fuel n (drop n b)
  end.

Definition chunks_exact (n : nat) (b : bytes) : list bytes := chunks_exact_fuel (length b) n b.

Definition file_read_all (s : FileStore) : result (list bytes) io_error :=
  let buf := fs_disk s in
  if negb (Z.of_nat (length buf) mod 32 =? 0) then Err IoError_InvalidData
  else Ok (chunks_exact 32 buf).

#[export] Instance file_store : Store FileStore io_error := {|
  store_append := file_append;
  store_read_all := file_read_all;
|}.

Lemma chunks_exact_concat n es :
  (0 < n)%nat → Forall (λ e : bytes, length e = n) es → chunks_exact n (concat es) = es.
Proof.
  intros Hn Hes. unfold chunks_exact.
  assert (Hf : (length es <= length (concat es))%nat).
  { induction Hes; simpl; [lia|]. rewrite length_app. lia. }
  revert Hf. generalize (length (concat es)). induction Hes as [|e es He Hes IH]; intros f Hf.
  - destruct f; simpl; [done|]. by rewrite decide_True.
  - destruct f as [|f]; simpl in *; [lia|].
    rewrite decide_False by (rewrite length_app; lia).
    rewrite take_app_length', drop_app_length' by done. f_equal. apply IH. lia.
Qed.

Lemma concat_length32 es :
  Forall (byte_array 32) es → length (concat es) = (32 * length es)%nat.
Proof. induction 1 as [|e es [He _] _ IH]; simpl; [done|]. rewrite length_app. lia. Qed.

#[export] Instance file_store_laws : StoreLaws FileStore io_error.
Proof.
  refine {| store_rep s es := fs_disk s = concat es ∧ Forall (byte_array 32) es ∧
              fs_len s = Z.of_nat (length es) |}.
  - intros [[k|] sy] e s es p s' (Hd & Hes & Hl) He Happ; simpl in Happ; unfold file_append in Happ;
      simpl in Happ; [done|].
    destruct sy; simpl in Happ; simplify_eq. split; [done|]. simpl.
    rewrite Hd, concat_app, length_app. simpl. rewrite app_nil_r.
    split; [done|]. split; [|lia]. apply Forall_app. split; [done|]. by constructor.
  - intros s es (Hd & Hes & Hl). simpl. unfold file_read_all.
    rewrite Hd, concat_length32 by done.
    replace (Z.of_nat _ mod 32) with 0.
    2:{ symmetry. apply Z.mod_divide; [lia|]. exists (Z.of_nat (length es)). lia. }
    simpl. f_equal. apply chunks_exact_concat; [lia|].
    eapply Forall_impl; [exact Hes|]. by intros ? [].
Defined.

(** * The log *)

Record MerkleLog (S : Type) := mkMerkleLog { log_entries : list bytes; log_store : S }.
Arguments mkMerkleLog {S} _ _.
Arguments log_entries {S} _.
Arguments log_store {S} _.

(** [MerkleLog::<MemStore>::new]. *)
Definition new : MerkleLog MemStore := mkMerkleLog [] (mkMemStore []).

(** [MerkleLog::<FileStore>::open] on a file with the given content. *)
Definition open (disk : bytes) : result (MerkleLog FileStore) io_error :=
  store ←? file_open disk;
  entries ←? file_read_all store;
  Ok (mkMerkleLog entries store).

(** [append] of either instance: the store first, then the mirror. *)
Definition append {S E : Type} `{Store S E} (io : io_outcome) (entry : bytes) (l : MerkleLog S) :
    result Z E * MerkleLog S :=
  match store_append io entry (log_store l) with
  | (Ok pos, s) => (Ok pos, mkMerkleLog (log_entries l ++ [entry]) s)
  | (Err e, s) => (Err e, mkMerkleLog (log_entries l) s)
  end.

#[global] Arguments append : simpl never.

(** [peak_heights]: the one-bits of [length], most significant first. *)
Definition peak_heights (length : Z) : list Z :=
  filter (λ h, Z.land (Z.shiftr length h) 1 = 1) (reverse (seqZ 0 64)).

#[global] Arguments peak_heights : simpl never.

(** [&v[a..b]], which panics out of range. *)
Definition slice {A} (v : list A) (a b : nat) : option (list A) :=
  if decide (a <= b ∧ b <= length v)%nat then Some (take (b - a) (drop a v)) else None.

Section read_side.
Context `{RsMerkle} {S : Type}.
Implicit Types (l : MerkleLog S).

Definition hash_bytes (data : bytes) : bytes := mt_hash data.

Definition len l : Z := Z.of_nat (length (log_entries l)).

Definition is_empty l : bool := bool_decide (log_entries l = []).

Definition entry_at l (position : Z) : option bytes := log_entries l !! Z.to_nat position.

Definition root l : option bytes :=
  if is_empty l then None else mt_root (log_entries l).

Definition root_at l (n : Z) : option bytes :=
  if (n =? 0) || (len l <? n) then None else mt_root (take (Z.to_nat n) (log_entries l)).

Definition inclusion_proof_at l (position length : Z) : option InclusionProof :=
  if (length =? 0) || (len l <? length) || (length <=? position) then None
  else
    let slice := take (Z.to_nat length) (log_entries l) in
    entry ← slice !! Z.to_nat position;
    Some (mkInclusionProof position entry (mt_proof slice (Z.to_nat position)) length).

Definition inclusion_proof l (position : Z) : option InclusionProof :=
  inclusion_proof_at l position (len l).

(** The loop of [peak_hashes]; [None] is a panic in the slicing or the
    [expect]. *)
Fixpoint peaks_from (entries : list bytes) (start : nat) (heights : list Z) :
    option (list bytes) :=
  match heights with
  | [] => Some []
  | h :: hs =>
      let count := Z.to_nat (2 ^ h) in
      sl ← slice entries start (start + count);
      root ← mt_root sl;
      peaks ← peaks_from entries (start + count) hs;
      Some (root :: peaks)
  end.

Definition peak_hashes l (length : Z) : option (list bytes) :=
  if (length =? 0) || (len l <? length) then Some []
  else peaks_from (log_entries l) 0 (peak_heights length).

Definition verify_inclusion (proof : InclusionProof) (root : bytes) : bool :=
  mt_verify (ip_proof_hashes proof) root (Z.to_nat (ip_position proof)) (ip_entry proof)
    (Z.to_nat (ip_length_at_proof proof)).

End read_side.

(** * Peak decomposition *)

Lemma low_bit n h : 0 <= h → Z.land (Z.shiftr n h) 1 = Z.b2z (Z.testbit n h).
Proof.
  intros Hh. change 1 with (Z.ones 1) at 1. rewrite Z.land_ones by lia.
  by rewrite Z.shiftr_div_pow2, <-Z.testbit_spec' by lia.
Qed.

Lemma mod_pow2_succ n k :
  0 <= k → n mod 2 ^ (k + 1) = n mod 2 ^ k + 2 ^ k * Z.b2z (Z.testbit n k).
Proof.
  intros Hk. rewrite Z.testbit_spec' by done.
  replace (2 ^ (k + 1)) with (2 ^ k * 2) by (rewrite Z.pow_add_r; lia).
  rewrite Z.rem_mul_r; [lia|lia|lia].
Qed.

Definition bits_below (n : Z) (k : nat) : list Z :=
  filter (λ h, Z.land (Z.shiftr n h) 1 = 1) (reverse (seqZ 0 (Z.of_nat k))).

Lemma bits_below_S n k :
  bits_below n (S k) =
  (if Z.testbit n (Z.of_nat k) then [Z.of_nat k] else []) ++ bits_below n k.
Proof.
  unfold bits_below. rewrite seqZ_S, reverse_snoc.
  rewrite filter_cons, Z.add_0_l, low_bit by lia.
  by destruct (Z.testbit n (Z.of_nat k)).
Qed.

Lemma bits_below_sum n k : sumz ((λ h, 2 ^ h) <$> bits_below n k) = n mod 2 ^ Z.of_nat k.
Proof.
  induction k as [|k IH].
  - simpl. by rewrite Z.mod_1_r.
  - rewrite bits_below_S, fmap_app, sumz_app, IH, Nat2Z.inj_succ.
    unfold Z.succ. rewrite mod_pow2_succ by lia.
    destruct (Z.testbit n (Z.of_nat k)); unfold sumz; simpl; lia.
Qed.

Lemma bits_below_range n k : Forall (λ h, 0 <= h < Z.of_nat k) (bits_below n k).
Proof.
  apply Forall_forall. intros h. unfold bits_below.
  rewrite list_elem_of_filter, elem_of_reverse, elem_of_seqZ. lia.
Qed.

Lemma bits_below_sorted n k : StronglySorted (λ a b, b < a) (bits_below n k).
Proof.
  induction k as [|k IH]; [constructor|]. rewrite bits_below_S.
  destruct (Z.testbit _ _); [|done]. simpl. constructor; [done|].
  eapply Forall_impl; [apply bits_below_range|]. simpl. lia.
Qed.

Lemma peak_heights_bits n : peak_heights n = bits_below n 64.
Proof. done. Qed.

Lemma peak_heights_sum n : uint 64 n → sumz ((λ h, 2 ^ h) <$> peak_heights n) = n.
Proof.
  intros Hn. rewrite peak_heights_bits, bits_below_sum. apply Z.mod_small, Hn.
Qed.

(** The consecutive slices the peaks are computed over. *)
Fixpoint peak_slices (entries : list bytes) (heights : list Z) : list (list bytes) :=
  match heights with
  | [] => []
  | h :: hs => take (Z.to_nat (2 ^ h)) entries :: peak_slices (drop (Z.to_nat (2 ^ h)) entries) hs
  end.

Lemma pow2_sum_nonneg hs : 0 <= sumz ((λ h, 2 ^ h) <$> hs).
Proof.
  apply sumz_nonneg, Forall_fmap, Forall_true. intros h. simpl. apply Z.pow_nonneg. lia.
Qed.

Lemma peak_slices_concat entries hs :
  Forall (λ h, 0 <= h) hs →
  concat (peak_slices entries hs) = take (Z.to_nat (sumz ((λ h, 2 ^ h) <$> hs))) entries.
Proof.
  intros Hh. revert entries. induction Hh as [|h hs H0 Hh IH]; intros entries; simpl; [done|].
  rewrite IH, sumz_cons, Z2Nat.inj_add by (apply pow2_sum_nonneg || (apply Z.pow_nonneg; lia)).
  by rewrite <-take_take_drop.
Qed.

Lemma peak_slices_lengths entries hs :
  Forall (λ h, 0 <= h) hs →
  sumz ((λ h, 2 ^ h) <$> hs) <= Z.of_nat (length entries) →
  (λ s, Z.of_nat (length s)) <$> peak_slices entries hs = (λ h, 2 ^ h) <$> hs.
Proof.
  intros Hh. revert entries. induction Hh as [|h hs Hh0 Hh IH]; intros entries Hs; [done|].
  rewrite fmap_cons, sumz_cons in Hs. pose proof (pow2_sum_nonneg hs).
  assert (0 < 2 ^ h) by (apply Z.pow_pos_nonneg; lia). simpl.
  rewrite IH by (rewrite length_drop; lia). f_equal. rewrite length_take. lia.
Qed.

Section peaks.
Context `{RsMerkleLaws}.

Lemma peaks_from_slices entries start hs :
  Forall (λ h, 0 <= h) hs →
  Z.of_nat start + sumz ((λ h, 2 ^ h) <$> hs) <= Z.of_nat (length entries) →
  peaks_from entries start hs = mapM mt_root (peak_slices (drop start entries) hs) ∧
  is_Some (peaks_from entries start hs).
Proof.
  intros Hh. revert start. induction Hh as [|h hs Hh0 Hh IH]; intros start Hlen; simpl; [done|].
  rewrite fmap_cons, sumz_cons in Hlen.
  pose proof (pow2_sum_nonneg hs). assert (0 < 2 ^ h) by (apply Z.pow_pos_nonneg; lia).
  unfold slice. rewrite decide_True by lia. simpl.
  replace (start + Z.to_nat (2 ^ h) - start)%nat with (Z.to_nat (2 ^ h)) by lia.
  destruct (IH (start + Z.to_nat (2 ^ h))%nat) as [IHe [ps IHs]]; [lia|].
  rewrite drop_drop. rewrite <-IHe, IHs.
  destruct (mt_root_some (take (Z.to_nat (2 ^ h)) (drop start entries))) as [r Hr].
  { intros Hnil%(f_equal length). rewrite length_take, length_drop in Hnil. simpl in Hnil. lia. }
  rewrite Hr. simpl. eauto.
Qed.

End peaks.

(** * Histories *)

(** One call of [append], whatever its outcome. *)
Inductive log_step {S E : Type} `{Store S E} : MerkleLog S → MerkleLog S → Prop :=
| log_step_append io e l r l' : append io e l = (r, l') → log_step l l'.

(** The mirror only ever grows at its end. *)
Lemma append_entries {S E : Type} `{Store S E} io e (l : MerkleLog S) r l' :
  append io e l = (r, l') →
  log_entries l' = log_entries l ++ (if is_ok r then [e] else []).
Proof.
  unfold append. destruct (store_append _ _ _) as [[p|err] s]; intros; simplify_eq/=; [done|].
  by rewrite app_nil_r.
Qed.

Lemma log_steps_extend {S E : Type} `{Store S E} (l l' : MerkleLog S) :
  rtc log_step l l' → ∃ k, log_entries l' = log_entries l ++ k.
Proof.
  induction 1 as [l|l l1 l2 Hst _ [k IH]]; [exists []; by rewrite app_nil_r|].
  destruct Hst as [io e l r l' Ha]. apply append_entries in Ha.
  rewrite IH, Ha. eexists. by rewrite <-app_assoc.
Qed.

Lemma take_extend {A} (n : nat) (l k : list A) :
  (n <= length l)%nat → take n (l ++ k) = take n l.
Proof. intros. by rewrite take_app_le. Qed.

Section extension.
Context `{RsMerkle} {S : Type}.
Implicit Types (l : MerkleLog S).

Lemma root_at_extend l l' k n :
  log_entries l' = log_entries l ++ k → 0 <= n <= len l → root_at l' n = root_at l n.
Proof.
  unfold root_at, len. intros He Hn. rewrite He, length_app, take_extend by lia.
  destruct (n =? 0); simpl; [done|].
  by rewrite !(proj2 (Z.ltb_ge _ _)) by lia.
Qed.

Lemma inclusion_proof_at_extend l l' k p n :
  log_entries l' = log_entries l ++ k → 0 <= n <= len l →
  inclusion_proof_at l' p n = inclusion_proof_at l p n.
Proof.
  unfold inclusion_proof_at, len. intros He Hn. rewrite He, length_app, take_extend by lia.
  destruct (n =? 0); simpl; [done|].
  by rewrite !(proj2 (Z.ltb_ge _ _)) by lia.
Qed.

Lemma entry_at_extend l l' k p :
  log_entries l' = log_entries l ++ k → 0 <= p < len l → entry_at l' p = entry_at l p.
Proof. unfold entry_at, len. intros -> Hp. apply lookup_app_l. lia. Qed.

End extension.

(** Every frozen prefix has a root, and a proof for each of its positions that
    verifies against it. *)
Lemma inclusion_proof_at_verifies `{RsMerkleLaws} {S : Type} (l : MerkleLog S) p n :
  0 <= p < n → n <= len l →
  ∃ ip r e, inclusion_proof_at l p n = Some ip ∧ root_at l n = Some r ∧
    verify_inclusion ip r = true ∧ entry_at l p = Some e ∧ ip_entry ip = e ∧
    ip_position ip = p ∧ ip_length_at_proof ip = n.
Proof.
  unfold len. intros Hp Hn. unfold inclusion_proof_at, root_at, len, entry_at.
  rewrite (proj2 (Z.eqb_neq n 0)), (proj2 (Z.ltb_ge _ n)), (proj2 (Z.leb_gt n p)) by lia. simpl.
  destruct (lookup_lt_is_Some_2 (log_entries l) (Z.to_nat p)) as [e He]; [lia|].
  rewrite lookup_take, decide_True by lia. rewrite He. simpl.
  destruct (mt_root_some (take (Z.to_nat n) (log_entries l))) as [r Hr].
  { intros Hnil%(f_equal length). rewrite length_take in Hnil. simpl in Hnil. lia. }
  eexists _, r, e. split; [done|]. split; [done|]. split; [|done].
  unfold verify_inclusion. simpl.
  rewrite <-(mt_proof_verifies (take (Z.to_nat n) (log_entries l)) (Z.to_nat p) e r) at 1.
  - f_equal. rewrite length_take. lia.
  - rewrite lookup_take, decide_True by lia. done.
  - done.
Qed.

(** * Theorems *)

(** C7: whatever is appended later, and whether or not those appends succeed,
    the entry at every position, the root of every prefix and the inclusion
    proof of every position against it stay what they were. *)
Theorem merkle_log_append_only `{RsMerkle} {S E : Type} `{Store S E} (l l' : MerkleLog S) :
  rtc log_step l l' →
  len l <= len l' ∧
  (∀ p, 0 <= p < len l → entry_at l' p = entry_at l p) ∧
  (∀ n, 0 <= n <= len l → root_at l' n = root_at l n) ∧
  (∀ p n, 0 <= n <= len l → inclusion_proof_at l' p n = inclusion_proof_at l p n).
Proof.
  intros [k Hk]%log_steps_extend. split; [|split; [|split]]; intros.
  - unfold len. rewrite Hk, length_app. lia.
  - by apply (entry_at_extend l l' k).
  - by apply (root_at_extend l l' k).
  - by apply (inclusion_proof_at_extend l l' k).
Qed.

(** A proof exists for exactly the positions of an existing non-empty
    prefix; it carries the entry at that position, and it verifies against the
    root of that prefix. *)
Theorem inclusion_proof_sound `{RsMerkleLaws} {S : Type} (l : MerkleLog S) p n :
  0 <= p → 0 <= n →
  (inclusion_proof_at l p n = None ↔ ¬ (p < n <= len l)) ∧
  (∀ ip, inclusion_proof_at l p n = Some ip →
     ∃ r, root_at l n = Some r ∧ verify_inclusion ip r = true ∧
          entry_at l p = Some (ip_entry ip) ∧ ip_position ip = p ∧ ip_length_at_proof ip = n).
Proof.
  intros Hp Hn. destruct (decide (p < n <= len l)) as [Hin|Hout].
  - destruct (inclusion_proof_at_verifies l p n) as (ip & r & e & Hi & Hr & Hv & He & Hip & ? & ?);
      [lia|lia|].
    rewrite Hi. split; [split; [done|tauto]|]. intros ip' [= <-]. exists r.
    rewrite Hip. done.
  - assert (inclusion_proof_at l p n = None) as ->; [|split; [tauto|done]].
    unfold inclusion_proof_at. destruct (n =? 0) eqn:E1, (len l <? n) eqn:E2, (n <=? p) eqn:E3;
      simpl; try done; zbool. lia.
Qed.

(** The peak heights of a length are its binary digits, highest first, and
    the peak hashes (whose computation never panics) are the roots of
    consecutive slices of those sizes that cover exactly the first [n] leaves;
    so they never change as the log grows. *)
Theorem peak_hashes_cover `{RsMerkleLaws} {S : Type} (l : MerkleLog S) n :
  0 < n <= len l → len l <= u64_max →
  StronglySorted (λ a b, b < a) (peak_heights n) ∧
  Forall (λ h, 0 <= h < 64) (peak_heights n) ∧
  sumz ((λ h, 2 ^ h) <$> peak_heights n) = n ∧
  ∃ peaks slices, peak_hashes l n = Some peaks ∧
    mapM mt_root slices = Some peaks ∧
    concat slices = take (Z.to_nat n) (log_entries l) ∧
    (λ s, Z.of_nat (length s)) <$> slices = (λ h, 2 ^ h) <$> peak_heights n.
Proof.
  intros Hn Hl. assert (Hs := peak_heights_sum n ltac:(u64_lia)).
  split; [apply (bits_below_sorted n 64)|]. split; [apply (bits_below_range n 64)|]. split; [done|].
  assert (Hge : Forall (λ h, 0 <= h) (peak_heights n)).
  { eapply Forall_impl; [apply (bits_below_range n 64)|]. simpl. lia. }
  unfold peak_hashes. rewrite (proj2 (Z.eqb_neq n 0)), (proj2 (Z.ltb_ge _ n)) by lia.
  rewrite orb_false_l.
  destruct (peaks_from_slices (log_entries l) 0 (peak_heights n)) as [He [ps Hps]];
    [done|unfold len in *; lia|].
  exists ps, (peak_slices (log_entries l) (peak_heights n)).
  rewrite drop_0 in He. split; [done|]. split; [by rewrite <-He|].
  split; [by rewrite peak_slices_concat, Hs|].
  apply peak_slices_lengths; [done|]. rewrite Hs. unfold len in *. lia.
Qed.

(** * Persistence *)

(** A sequence of appends that all succeed. *)
Fixpoint append_all (es : list bytes) (l : MerkleLog FileStore) : option (MerkleLog FileStore) :=
  match es with
  | [] => Some l
  | e :: es => match append io_fine e l with (Ok _, l) => append_all es l | _ => None end
  end.

(** A log whose mirror and file agree. *)
Definition log_rep {S E : Type} `{StoreLaws S E} (l : MerkleLog S) : Prop :=
  store_rep (log_store l) (log_entries l).

#[global] Arguments log_rep : simpl never.

Lemma append_rep {S E : Type} `{StoreLaws S E} io e (l : MerkleLog S) p l' :
  log_rep l → byte_array 32 e → append io e l = (Ok p, l') →
  p = len l ∧ log_entries l' = log_entries l ++ [e] ∧ log_rep l'.
Proof.
  unfold append, log_rep, len. intros Hl He.
  destruct (store_append _ _ _) as [[q|err] s] eqn:Hs; intros; simplify_eq/=.
  destruct (store_append_rep io e _ _ p s Hl He Hs) as [-> Hrep]. done.
Qed.

Lemma append_all_rep es l :
  log_rep l → Forall (byte_array 32) es →
  ∃ l', append_all es l = Some l' ∧ log_rep l' ∧ log_entries l' = log_entries l ++ es.
Proof.
  intros Hl Hes. revert l Hl. induction Hes as [|e es He Hes IH]; intros l Hl; cbn [append_all].
  { exists l. by rewrite app_nil_r. }
  destruct (append io_fine e l) as [[p|err] l1] eqn:Ha; [|by unfold append in Ha].
  destruct (append_rep io_fine e l p l1 Hl He Ha) as (_ & Hent & Hrep).
  destruct (IH l1 Hrep) as (l' & Hl1 & Hl' & He'). exists l'. split; [done|]. split; [done|].
  by rewrite He', Hent, <-app_assoc.
Qed.

(** A file of whole records is the concatenation of its chunks. *)
Lemma records_of_disk (disk : bytes) n :
  Forall (uint 8) disk → length disk = (32 * n)%nat →
  ∃ es, disk = concat es ∧ Forall (byte_array 32) es ∧ length es = n.
Proof.
  revert disk. induction n as [|n IH]; intros disk Hb Hl.
  - exists []. by destruct disk.
  - destruct (IH (drop 32 disk)) as (es & Hes & Hall & Hn).
    { by apply Forall_drop. } { rewrite length_drop. lia. }
    exists (take 32 disk :: es). simpl. rewrite <-Hes, take_drop. split; [done|]. split; [|by f_equal].
    constructor; [|done]. split; [rewrite length_take; lia|by apply Forall_take].
Qed.

(** [open] succeeds exactly on files of whole records, and then mirrors them. *)
Lemma open_records es :
  Forall (byte_array 32) es →
  ∃ l, open (concat es) = Ok l ∧ log_entries l = es ∧ log_rep l ∧
       log_store l = mkFileStore (concat es) (Z.of_nat (length es)).
Proof.
  intros Hes. set (s := mkFileStore (concat es) (Z.of_nat (length es))).
  exists (mkMerkleLog es s).
  assert (Hrep : store_rep s es) by (split; [done|split; done]).
  split; [|done]. unfold open, file_open. rewrite concat_length32 by done.
  replace (Z.of_nat (32 * length es)) with (Z.of_nat (length es) * 32) by lia.
  rewrite Z.mod_mul, Z.div_mul by lia. simpl. fold s.
  pose proof (store_read_rep s es Hrep) as Hr. simpl in Hr. by rewrite Hr.
Qed.

Lemma open_ok_records disk l :
  Forall (uint 8) disk → open disk = Ok l →
  disk = concat (log_entries l) ∧ Forall (byte_array 32) (log_entries l) ∧ log_rep l.
Proof.
  intros Hb Ho. assert (Hm : Z.of_nat (length disk) mod 32 = 0).
  { unfold open, file_open in Ho. destruct (_ =? 0) eqn:E; [by zbool|done]. }
  destruct (records_of_disk disk (Z.to_nat (Z.of_nat (length disk) / 32))) as (es & -> & Hes & Hn).
  { done. } { pose proof (Z.div_mod (Z.of_nat (length disk)) 32). lia. }
  destruct (open_records es Hes) as (l' & Hl' & He & Hr & _).
  rewrite Hl' in Ho. simplify_eq. done.
Qed.

(** A log that agrees with its file is what the file opens to. *)
Lemma open_rep l : log_rep l → open (fs_disk (log_store l)) = Ok l.
Proof.
  intros (Hd & Hall & Hlen). destruct (open_records _ Hall) as (l' & Ho & He & _ & Hs). rewrite Hd, Ho. f_equal.
  destruct l as [es [d n]], l' as [es' s']. cbn in *. by subst.
Qed.

(** Successful appends write what they are given, wherever the file stands. *)
Lemma append_all_disk es l :
  ∃ l', append_all es l = Some l' ∧ log_entries l' = log_entries l ++ es ∧
    fs_disk (log_store l') = fs_disk (log_store l) ++ concat es.
Proof.
  revert l. induction es as [|e es IH]; intros l; cbn [append_all concat].
  { exists l. by rewrite !app_nil_r. }
  unfold append at 1. cbn. destruct (IH (mkMerkleLog (log_entries l ++ [e])
    (mkFileStore (fs_disk (log_store l) ++ e) (fs_len (log_store l) + 1)))) as (l' & Hl' & He & Hd).
  exists l'. split; [exact Hl'|]. by rewrite He, Hd; cbn; rewrite <-!app_assoc.
Qed.

(** A file with a torn record in it stays refused, whatever whole records follow. *)
Lemma open_torn_after es e k later :
  Forall (byte_array 32) es → byte_array 32 e → (0 < k < 32)%nat → Forall (byte_array 32) later →
  open ((concat es ++ take k e) ++ concat later) = Err IoError_InvalidData.
Proof.
  intros Hes [He _] Hk Hlater. unfold open, file_open.
  rewrite !length_app, !concat_length32, length_take, He by done.
  replace (Z.of_nat (32 * length es + k `min` 32 + 32 * length later))
    with (Z.of_nat k + Z.of_nat (length es + length later) * 32) by lia.
  rewrite Z.mod_add, Z.mod_small by lia. by rewrite (proj2 (Z.eqb_neq _ _)) by lia.
Qed.

(** What a file of records says when it is opened again. *)
Definition reopens (disk : bytes) (es : list bytes) : Prop :=
  ∃ l, open disk = Ok l ∧ log_entries l = es ∧ log_rep l.

Lemma concat_reopens es : Forall (byte_array 32) es → reopens (concat es) es.
Proof. intros (l & Ho & He & Hr & _)%open_records. by exists l. Qed.

(** The file after a failed append and the successful ones that follow it. *)
Lemma reopens_after es e later :
  Forall (byte_array 32) es → byte_array 32 e → Forall (byte_array 32) later →
  reopens ((concat es ++ e) ++ concat later) (es ++ e :: later).
Proof.
  intros Hes He Hlater. replace ((concat es ++ e) ++ concat later) with (concat (es ++ e :: later)).
  - apply concat_reopens, Forall_app. split; [done|]. by constructor.
  - by rewrite concat_app, <-app_assoc.
Qed.

(** C34: as long as every append succeeds, reopening a file-backed log gives
    exactly the log that was closed, with the positions it handed out. After an
    append that failed, and any successful ones after it, the bytes of the
    failed record that reached the file decide: if none did, reopening gives the
    entries of the running log; if some but not all did, the file is refused as
    corrupt, then and for good; and if all of them did (the write succeeded and
    the sync failed), reopening gives the failed entry as well, which the
    running log does not have. *)
Theorem file_log_persistence disk l es e io r l1 l2 later l3 :
  Forall (uint 8) disk → open disk = Ok l →
  Forall (byte_array 32) es → byte_array 32 e → Forall (byte_array 32) later →
  append_all es l = Some l1 → append io e l1 = (r, l2) → append_all later l2 = Some l3 →
  log_entries l1 = log_entries l ++ es ∧ open (fs_disk (log_store l1)) = Ok l1 ∧
  match r with
  | Ok p => p = len l1 ∧ log_entries l3 = log_entries l1 ++ e :: later ∧
            open (fs_disk (log_store l3)) = Ok l3
  | Err _ => log_entries l3 = log_entries l1 ++ later ∧
      match io_write_err io with
      | Some O => reopens (fs_disk (log_store l3)) (log_entries l3)
      | Some k => if bool_decide (k < 32)%nat then open (fs_disk (log_store l3)) = Err IoError_InvalidData
                  else reopens (fs_disk (log_store l3)) (log_entries l1 ++ e :: later)
      | None => reopens (fs_disk (log_store l3)) (log_entries l1 ++ e :: later)
      end
  end.
Proof.
  intros Hb Ho Hes He Hlater Hall Happ Hall3.
  destruct (open_ok_records disk l Hb Ho) as (_ & Hle & Hrep).
  destruct (append_all_rep es l Hrep Hes) as (l1' & Hall' & Hrep1 & He1).
  rewrite Hall in Hall'. injection Hall' as <-. split; [done|]. split; [by apply open_rep|].
  destruct r as [p|err].
  - destruct (append_rep io e l1 p l2 Hrep1 He Happ) as (-> & He2 & Hrep2).
    destruct (append_all_rep later l2 Hrep2 Hlater) as (l3' & Hall' & Hrep3 & He3).
    rewrite Hall3 in Hall'. injection Hall' as <-. split; [done|]. split; [|by apply open_rep].
    by rewrite He3, He2, <-app_assoc.
  - destruct Hrep1 as (Hd1 & Hall1 & _).
    destruct (append_all_disk later l2) as (l3' & Hall' & He3 & Hd3). rewrite Hall3 in Hall'. injection Hall' as <-.
    rewrite He3, Hd3. destruct io as [[k|] sy]; unfold append in Happ; cbn in Happ; unfold file_append in Happ; cbn in Happ;
      [|destruct sy; [done|]]; injection Happ as <- <-; cbn; rewrite Hd1; (split; [done|]).
    + destruct k as [|k]; [|case_bool_decide as Hk].
      * rewrite take_0, app_nil_r, <-concat_app. apply concat_reopens. by apply Forall_app.
      * apply open_torn_after; by try lia.
      * rewrite take_ge by (destruct He as [-> _]; lia). by apply reopens_after.
    + by apply reopens_after.
Qed.

(** * A concrete tree

    A tree whose root is the concatenation of its leaves and whose proofs are
    the leaves: enough to satisfy the laws on concrete logs. *)

Module ToyTree.

#[export] Instance toy_tree : RsMerkle := {|
  mt_hash b := b;
  mt_root ls := if decide (ls = []) then None else Some (concat ls);
  mt_proof ls _ := ls;
  mt_verify hs root i leaf total :=
    bool_decide (concat hs = root ∧ hs !! i = Some leaf ∧ length hs = total);
|}.

#[export] Instance toy_tree_laws : RsMerkleLaws.
Proof.
  constructor.
  - intros ls Hls. simpl. by rewrite decide_False.
  - intros ls i leaf root Hi Hr. simpl in *. apply bool_decide_eq_true.
    case_decide; by simplify_eq.
Qed.

End ToyTree.
Import (hints) ToyTree.

Definition demo_hash (x : Z) : bytes := replicate 32 x.

Definition demo_log : MerkleLog MemStore :=
  (append io_fine (demo_hash 3) (append io_fine (demo_hash 2) (append io_fine (demo_hash 1) new).2).2).2.

(** * Witnesses *)

Lemma merkle_log_append_only_witness :
  root_at (append io_fine (demo_hash 4) demo_log).2 2 = root_at demo_log 2.
Proof.
  refine (proj1 (proj2 (proj2 (merkle_log_append_only demo_log _ _))) 2 _).
  - apply rtc_once. apply (log_step_append io_fine (demo_hash 4) demo_log (Ok 3)). vm_compute. reflexivity.
  - vm_compute. split; discriminate.
Defined.

Lemma inclusion_proof_sound_witness :
  ∃ r, root_at demo_log 3 = Some r ∧
    verify_inclusion (mkInclusionProof 1 (demo_hash 2) (demo_hash <$> [1; 2; 3]) 3) r = true.
Proof.
  destruct (proj2 (inclusion_proof_sound demo_log 1 3 ltac:(lia) ltac:(lia))
    (mkInclusionProof 1 (demo_hash 2) (demo_hash <$> [1; 2; 3]) 3)) as (r & Hr & Hv & _);
    [vm_compute; reflexivity|]. by exists r.
Defined.

Lemma peak_hashes_cover_witness :
  sumz ((λ h, 2 ^ h) <$> peak_heights 3) = 3 ∧
  peak_hashes demo_log 3 = Some [demo_hash 1 ++ demo_hash 2; demo_hash 3].
Proof.
  split; [|vm_compute; reflexivity].
  refine (proj1 (proj2 (proj2 (peak_hashes_cover demo_log 3 _ _)))); vm_compute; try split; done.
Defined.

(** The last of three records torn, and the first of two appended after a failed sync. *)
Lemma file_log_persistence_witness :
  let l1 := mkMerkleLog (demo_hash <$> [1; 2]) (mkFileStore (concat (demo_hash <$> [1; 2])) 2) in
  open (concat (demo_hash <$> [1; 2])) = Ok l1 ∧
  open (concat (demo_hash <$> [1; 2]) ++ take 7 (demo_hash 3)) = Err IoError_InvalidData ∧
  reopens (concat (demo_hash <$> [1; 2; 3; 4])) (demo_hash <$> [1; 2; 3; 4]).
Proof.
  set (l1 := mkMerkleLog (demo_hash <$> [1; 2]) (mkFileStore (concat (demo_hash <$> [1; 2])) 2)). cbv zeta.
  pose proof (λ io r l2 later l3, file_log_persistence (demo_hash 1) (mkMerkleLog [demo_hash 1] (mkFileStore (demo_hash 1) 1))
    [demo_hash 2] (demo_hash 3) io r l1 l2 later l3 ltac:(by_decide) ltac:(vm_compute; reflexivity)
    ltac:(by_decide) ltac:(by_decide)) as Hlog.
  destruct (Hlog (mkIo (Some 7%nat) true) (Err IoError_Write)
    (mkMerkleLog (demo_hash <$> [1; 2]) (mkFileStore (concat (demo_hash <$> [1; 2]) ++ take 7 (demo_hash 3)) 2)) []
    (mkMerkleLog (demo_hash <$> [1; 2]) (mkFileStore (concat (demo_hash <$> [1; 2]) ++ take 7 (demo_hash 3)) 2)))
    as (_ & Ho & _ & Htorn); [by_decide|vm_compute; reflexivity..|].
  destruct (Hlog (mkIo None false) (Err IoError_Sync)
    (mkMerkleLog (demo_hash <$> [1; 2]) (mkFileStore (concat (demo_hash <$> [1; 2; 3])) 2)) [demo_hash 4]
    (mkMerkleLog (demo_hash <$> [1; 2; 4]) (mkFileStore (concat (demo_hash <$> [1; 2; 3; 4])) 3)))
    as (_ & _ & _ & Hsync); [by_decide|vm_compute; reflexivity..|].
  split; [exact Ho|]. split; [exact Htorn|exact Hsync].
Defined.

(** An append whose record reached the file but whose [sync_data] failed is not
    counted: the next append reports the failed one's position, and the log
    reopened from the file has an entry the running log never had. *)
Theorem failed_sync_diverges :
  let l0 := mkMerkleLog [demo_hash 1] (mkFileStore (demo_hash 1) 1) in
  let '(r1, l1) := append (mkIo None false) (demo_hash 2) l0 in
  let '(r2, l2) := append io_fine (demo_hash 3) l1 in
  r1 = Err IoError_Sync ∧ r2 = Ok 1 ∧ log_entries l2 = demo_hash <$> [1; 3] ∧
  (l ←? open (fs_disk (log_store l2)); Ok (log_entries l)) = Ok (demo_hash <$> [1; 2; 3]).
Proof. vm_compute. done. Qed.
