(* ===== verification/Retrieval.v ===== *)
(** Read-side retrieval bundles
    (src/crates/cosaci-core/src/retrieval.rs).

    A job record freezes the log position and length at which its artifact was
    anchored; a bundle is rebuilt from the record and the live log. The theorem
    shows that every bundle of a faithfully recorded job verifies, and stays
    the same whatever the log does later. *)

From S2P Require Import Prelude Attestation MerkleLog.

Record JobRecord := mkJobRecord {
  jr_job_id : Z;
  jr_pipeline_hash : bytes;
  jr_committee_attestations : list Attestation;
  jr_consensus_artifact : bytes;
  jr_log_position : Z;
  jr_log_length_at_anchor : Z;
}.

Record JobBundle := mkJobBundle {
  jb_job_id : Z;
  jb_pipeline_hash : bytes;
  jb_committee_attestations : list Attestation;
  jb_consensus_artifact : bytes;
  jb_merkle_proof : InclusionProof;
  jb_log_root : bytes;
  jb_log_position : Z;
  jb_log_length_at_anchor : Z;
}.

Definition build_bundle `{RsMerkle} {S : Type} (records : gmap Z JobRecord) (log : MerkleLog S)
    (job_id : Z) : option JobBundle :=
  r ← records !! job_id;
  proof ← inclusion_proof_at log (jr_log_position r) (jr_log_length_at_anchor r);
  root ← root_at log (jr_log_length_at_anchor r);
  Some (mkJobBundle (jr_job_id r) (jr_pipeline_hash r) (jr_committee_attestations r)
    (jr_consensus_artifact r) proof root (jr_log_position r) (jr_log_length_at_anchor r)).

(** A record is anchored in a log when the entry at its position is its
    consensus artifact and its frozen length covers that position. *)
Definition anchored {S : Type} (log : MerkleLog S) (r : JobRecord) : Prop :=
  0 <= jr_log_position r < jr_log_length_at_anchor r ∧
  jr_log_length_at_anchor r <= len log ∧
  entry_at log (jr_log_position r) = Some (jr_consensus_artifact r).

(** Appending an artifact and recording the position returned with the length
    reached anchors the record. *)
Lemma append_anchors {S E : Type} `{StoreLaws S E} io artifact (log log' : MerkleLog S) p r :
  log_rep log → byte_array 32 artifact → append io artifact log = (Ok p, log') →
  jr_consensus_artifact r = artifact → jr_log_position r = p →
  jr_log_length_at_anchor r = len log' → anchored log' r.
Proof.
  intros Hrep Ha Happ Hart Hp Hl.
  destruct (append_rep io artifact log p log' Hrep Ha Happ) as (Hpos & He & _).
  unfold anchored, entry_at, len in *. rewrite Hp, Hl, Hpos, He, Hart, length_app. simpl.
  split; [lia|]. split; [lia|]. rewrite Nat2Z.id. by apply list_lookup_middle.
Qed.

(** Anchoring survives later appends. *)
Lemma anchored_steps {S E : Type} `{Store S E} (log log' : MerkleLog S) r :
  rtc log_step log log' → anchored log r → anchored log' r.
Proof.
  intros [k Hk]%log_steps_extend (Hp & Hl & He).
  split; [done|]. split.
  - unfold len in *. rewrite Hk, length_app. lia.
  - rewrite <-He. apply (entry_at_extend log log' k); [done|lia].
Qed.

(** The bundle of an anchored record. *)
Lemma anchored_bundle `{RsMerkleLaws} {S : Type} records (log : MerkleLog S) job_id r :
  records !! job_id = Some r → anchored log r →
  ∃ b, build_bundle records log job_id = Some b ∧
    verify_inclusion (jb_merkle_proof b) (jb_log_root b) = true ∧
    ip_entry (jb_merkle_proof b) = jb_consensus_artifact b ∧
    ip_position (jb_merkle_proof b) = jb_log_position b ∧
    ip_length_at_proof (jb_merkle_proof b) = jb_log_length_at_anchor b ∧
    jb_consensus_artifact b = jr_consensus_artifact r ∧
    jb_committee_attestations b = jr_committee_attestations r ∧
    jb_job_id b = jr_job_id r ∧ jb_log_length_at_anchor b = jr_log_length_at_anchor r.
Proof.
  intros Hr (Hp & Hl & He).
  destruct (inclusion_proof_at_verifies log (jr_log_position r) (jr_log_length_at_anchor r))
    as (ip & rt & e & Hip & Hrt & Hv & He' & Hie & Hpos & Hlen); [done|done|].
  eexists. split.
  - unfold build_bundle. rewrite Hr. simpl. rewrite Hip. simpl. by rewrite Hrt.
  - simpl. rewrite Hie. split_all; try done. congruence.
Qed.

(** A bundle does not change when the log grows. *)
Lemma build_bundle_extend `{RsMerkle} {S : Type} records (log log' : MerkleLog S) k job_id r :
  log_entries log' = log_entries log ++ k → records !! job_id = Some r → anchored log r →
  build_bundle records log' job_id = build_bundle records log job_id.
Proof.
  intros Hk Hr (Hp & Hl & _). unfold build_bundle. rewrite Hr. simpl.
  rewrite (inclusion_proof_at_extend log log' k), (root_at_extend log log' k) by (done || lia). done.
Qed.

(** For a job whose record is anchored in the log, the bundle exists, its
    proof verifies against its own root and proves exactly the consensus
    artifact at the recorded position, and the same bundle is returned after
    any later appends. A job without a record has no bundle. *)
Theorem build_bundle_sound `{RsMerkleLaws} {S E : Type} `{Store S E} records (log log' : MerkleLog S)
    job_id r :
  records !! job_id = Some r → anchored log r → rtc log_step log log' →
  ∃ b, build_bundle records log job_id = Some b ∧
    build_bundle records log' job_id = Some b ∧
    verify_inclusion (jb_merkle_proof b) (jb_log_root b) = true ∧
    ip_entry (jb_merkle_proof b) = jb_consensus_artifact b ∧
    ip_position (jb_merkle_proof b) = jb_log_position b ∧
    ip_length_at_proof (jb_merkle_proof b) = jb_log_length_at_anchor b ∧
    jb_consensus_artifact b = jr_consensus_artifact r ∧
    jb_committee_attestations b = jr_committee_attestations r.
Proof.
  intros Hr Hanch Hsteps. apply log_steps_extend in Hsteps as [k Hk].
  destruct (anchored_bundle records log job_id r Hr Hanch) as (b & Hb & Hv & He & Hp & Hl & Ha & Hc & _).
  exists b. split; [done|]. split; [|done]. by rewrite (build_bundle_extend records log log' k job_id r).
Qed.

(** * Witness *)

Import (hints) ToyTree.

Definition demo_record : JobRecord := mkJobRecord 5 (demo_hash 8) [] (demo_hash 2) 1 2.

Lemma build_bundle_sound_witness :
  ∃ b, build_bundle {[5 := demo_record]} demo_log 5 = Some b ∧
    verify_inclusion (jb_merkle_proof b) (jb_log_root b) = true.
Proof.
  destruct (build_bundle_sound {[5 := demo_record]} demo_log demo_log 5 demo_record)
    as (b & Hb & _ & Hv & _).
  - reflexivity.
  - vm_compute. split; [split; done|split; done].
  - apply rtc_refl.
  - by exists b.
Defined.
