(* ===== verification/Lease.v ===== *)
(** Lease lifecycle
    (src/crates/cosaci-state/src/lease.rs).

    A manager holds the leases it ever granted and an index from active
    (job, runner) pairs to lease ids, kept in step by hand in the source. Each
    read of the injected clock is an argument of the operation that reads it.
    The theorems are proved for every sequence of operations: the index and
    the lease table always agree, so a pair has at most one active lease;
    acquisition succeeds exactly when the pair has no unexpired lease; closed
    leases stay closed. *)

From S2P Require Import Prelude.

Inductive LeaseState := LeaseState_Active | LeaseState_Completed | LeaseState_Expired.

#[export] Instance LeaseState_eq_dec : EqDecision LeaseState.
Proof. solve_decision. Defined.

Record Lease := mkLease {
  lease_id : Z;
  lease_job_id : Z;
  lease_runner_id : Z;
  lease_acquired_at_ns : Z;
  lease_ttl_ns : Z;
  lease_state : LeaseState;
}.

Definition expires_at_ns (l : Lease) : Z := sat_add (lease_acquired_at_ns l) (lease_ttl_ns l).

Inductive LeaseError := LeaseError_AlreadyLeased.

Record LeaseManager := mkLeaseManager {
  lm_default_ttl_ns : Z;
  lm_leases : gmap Z Lease;
  lm_active_by_pair : gmap (Z * Z) Z;
  lm_next_id : Z;
}.

Definition new (default_ttl_ns : Z) : LeaseManager := mkLeaseManager default_ttl_ns ∅ ∅ 1.

(** [lease.state = s]. *)
Definition set_lease_state (s : LeaseState) (l : Lease) : Lease :=
  mkLease (lease_id l) (lease_job_id l) (lease_runner_id l) (lease_acquired_at_ns l)
    (lease_ttl_ns l) s.

Definition lease_pair (l : Lease) : Z * Z := (lease_job_id l, lease_runner_id l).

(** Closing a lease: the new state, and the pair dropped from the index. *)
Definition close_lease (s : LeaseState) (id : Z) (l : Lease) (m : LeaseManager) : LeaseManager :=
  mkLeaseManager (lm_default_ttl_ns m) (<[id := set_lease_state s l]> (lm_leases m))
    (delete (lease_pair l) (lm_active_by_pair m)) (lm_next_id m).

(** The filter of [tick]. *)
Definition due (now : Z) (l : Lease) : Prop :=
  lease_state l = LeaseState_Active ∧ expires_at_ns l <= now.

#[export] Instance due_dec now l : Decision (due now l).
Proof. unfold due. apply _. Defined.

Definition to_expire (now : Z) (m : LeaseManager) : list Z :=
  (filter (λ p : Z * Lease, due now p.2) (map_to_list (lm_leases m))).*1.

Definition expire_one (m : LeaseManager) (id : Z) : LeaseManager :=
  match lm_leases m !! id with
  | Some l => close_lease LeaseState_Expired id l m
  | None => m
  end.

Definition tick (now : Z) (m : LeaseManager) : LeaseManager :=
  foldl expire_one m (to_expire now m).

(** [now] is the reading in [tick], [now'] the one stored in the lease. *)
Definition acquire (now now' job_id runner_id : Z) (m : LeaseManager) :
    result Z LeaseError * LeaseManager :=
  let m := tick now m in
  let key := (job_id, runner_id) in
  match lm_active_by_pair m !! key with
  | Some _ => (Err LeaseError_AlreadyLeased, m)
  | None =>
      let id := lm_next_id m in
      let lease := mkLease id job_id runner_id now' (lm_default_ttl_ns m) LeaseState_Active in
      (Ok id, mkLeaseManager (lm_default_ttl_ns m) (<[id := lease]> (lm_leases m))
                (<[key := id]> (lm_active_by_pair m)) (wrap 64 (lm_next_id m + 1)))
  end.

Definition complete (now id : Z) (m : LeaseManager) : LeaseManager :=
  let m := tick now m in
  match lm_leases m !! id with
  | Some l => if decide (lease_state l = LeaseState_Active)
              then close_lease LeaseState_Completed id l m else m
  | None => m
  end.

Definition is_active (now id : Z) (m : LeaseManager) : bool * LeaseManager :=
  let m := tick now m in
  (match lm_leases m !! id with
   | Some l => bool_decide (lease_state l = LeaseState_Active)
   | None => false
   end, m).

Definition active_lease_for (now job_id runner_id : Z) (m : LeaseManager) :
    option Z * LeaseManager :=
  let m := tick now m in (lm_active_by_pair m !! (job_id, runner_id), m).

Definition count_active_for_job (now job_id : Z) (m : LeaseManager) : nat * LeaseManager :=
  let m := tick now m in
  (length (filter (λ k : Z * Z, k.1 = job_id) ((map_to_list (lm_active_by_pair m)).*1)), m).

Definition count_active (now : Z) (m : LeaseManager) : nat * LeaseManager :=
  let m := tick now m in (size (lm_active_by_pair m), m).

Definition active_pairs (now : Z) (m : LeaseManager) : list (Z * Z) * LeaseManager :=
  let m := tick now m in ((map_to_list (lm_active_by_pair m)).*1, m).

Definition state_of (now id : Z) (m : LeaseManager) : option LeaseState * LeaseManager :=
  let m := tick now m in (lease_state <$> lm_leases m !! id, m).

(** * Invariant *)

(** Ids are keys below the counter, and the index is exactly the set of active
    leases. *)
Definition lm_inv (m : LeaseManager) : Prop :=
  1 <= lm_next_id m ∧
  (∀ id l, lm_leases m !! id = Some l → lease_id l = id ∧ 1 <= id < lm_next_id m) ∧
  (∀ k id, lm_active_by_pair m !! k = Some id ↔
     ∃ l, lm_leases m !! id = Some l ∧ lease_state l = LeaseState_Active ∧ lease_pair l = k).

Lemma new_inv ttl : lm_inv (new ttl).
Proof.
  split; [done|]. split; [done|]. intros k id. simpl. rewrite !lookup_empty.
  split; [done|]. by intros (l & Hl & _).
Qed.

Lemma close_lease_inv s id l m :
  s ≠ LeaseState_Active → lm_leases m !! id = Some l → lease_state l = LeaseState_Active →
  lm_inv m → lm_inv (close_lease s id l m).
Proof.
  intros Hs Hl Ha (Hn & Hid & Hidx). split; [done|]. split; simpl.
  - intros i l'. rewrite lookup_insert. case_decide; [|apply Hid].
    subst. intros [= <-]. simpl. by apply Hid.
  - intros k i. rewrite lookup_delete_Some, Hidx. split.
    + intros (Hk & l' & Hl' & Ha' & Hp). exists l'. split; [|done].
      rewrite lookup_insert_ne; [done|]. intros ->. simplify_eq.
    + intros (l' & Hl' & Ha' & Hp). rewrite lookup_insert in Hl'.
      case_decide as Hi; [simplify_eq/=; done|]. split; [|by exists l'].
      intros Heq. apply Hi. rewrite <-Hp in Heq.
      assert (H1 : lm_active_by_pair m !! lease_pair l = Some id) by (apply Hidx; by exists l).
      assert (H2 : lm_active_by_pair m !! lease_pair l = Some i).
      { apply Hidx. exists l'. done. }
      congruence.
Qed.

(** ** What [tick] does *)

Definition expire (now : Z) (l : Lease) : Lease :=
  if decide (due now l) then set_lease_state LeaseState_Expired l else l.

Lemma to_expire_elem now m id :
  id ∈ to_expire now m ↔ ∃ l, lm_leases m !! id = Some l ∧ due now l.
Proof.
  unfold to_expire. rewrite list_elem_of_fmap. split.
  - intros ([i l] & -> & Hin). apply list_elem_of_filter in Hin as [Hd Hin].
    apply elem_of_map_to_list in Hin. by exists l.
  - intros (l & Hl & Hd). exists (id, l). split; [done|].
    apply list_elem_of_filter. split; [done|]. by apply elem_of_map_to_list.
Qed.

Lemma to_expire_NoDup now m : NoDup (to_expire now m).
Proof. apply NoDup_fmap_filter, NoDup_fst_map_to_list. Qed.

(** Expiring a duplicate-free list of active leases keeps the invariant and
    touches only their states. *)
Lemma expire_list_inv ids m :
  lm_inv m → NoDup ids →
  (∀ id, id ∈ ids → ∃ l, lm_leases m !! id = Some l ∧ lease_state l = LeaseState_Active) →
  lm_inv (foldl expire_one m ids) ∧
  lm_next_id (foldl expire_one m ids) = lm_next_id m ∧
  lm_default_ttl_ns (foldl expire_one m ids) = lm_default_ttl_ns m ∧
  (∀ id, lm_leases (foldl expire_one m ids) !! id =
     (if decide (id ∈ ids) then set_lease_state LeaseState_Expired else λ l, l) <$> lm_leases m !! id).
Proof.
  intros Hinv Hnd. revert m Hinv. induction Hnd as [|i ids Hi Hnd IH]; intros m Hinv Hact; cbn [foldl].
  { split; [done|]. split; [done|]. split; [done|]. intros id.
    rewrite decide_False by apply not_elem_of_nil. by destruct (lm_leases m !! id). }
  destruct (Hact i) as (l & Hl & Ha); [left|].
  assert (expire_one m i = close_lease LeaseState_Expired i l m) as ->
    by (unfold expire_one; by rewrite Hl).
  destruct (IH (close_lease LeaseState_Expired i l m)) as (H1 & H2 & H3 & H4).
  - by apply close_lease_inv.
  - intros id Hid. destruct (Hact id) as (l' & Hl' & Ha'); [by right|].
    exists l'. simpl. rewrite lookup_insert_ne; [done|]. by intros ->.
  - split; [done|]. split; [done|]. split; [done|]. intros id. rewrite H4.
    unfold close_lease. cbn [lm_leases].
    destruct (decide (id = i)) as [->|Hne].
    + rewrite (decide_False (P:=i ∈ ids)), (decide_True (P:=i ∈ i :: ids)), lookup_insert_eq, Hl
        by (done || left). done.
    + rewrite lookup_insert_ne by done.
      assert (Hiff : id ∈ i :: ids ↔ id ∈ ids) by (rewrite elem_of_cons; tauto).
      by rewrite (decide_ext _ _ _ _ Hiff).
Qed.

Lemma tick_spec now m :
  lm_inv m →
  lm_inv (tick now m) ∧ lm_next_id (tick now m) = lm_next_id m ∧
  lm_default_ttl_ns (tick now m) = lm_default_ttl_ns m ∧
  (∀ id, lm_leases (tick now m) !! id = expire now <$> lm_leases m !! id).
Proof.
  intros Hinv. unfold tick.
  destruct (expire_list_inv (to_expire now m) m) as (H1 & H2 & H3 & H4).
  - done.
  - apply to_expire_NoDup.
  - intros id (l & Hl & Ha & _)%to_expire_elem. by exists l.
  - split; [done|]. split; [done|]. split; [done|]. intros id. rewrite H4.
    destruct (lm_leases m !! id) as [l|] eqn:Hl; simpl; [|done]. f_equal.
    unfold expire. destruct (decide (due now l)) as [Hd|Hd].
    + rewrite decide_True by (apply to_expire_elem; by exists l). done.
    + rewrite decide_False; [done|]. intros (l' & Hl' & Hd')%to_expire_elem. by simplify_eq.
Qed.

Lemma tick_inv now m : lm_inv m → lm_inv (tick now m).
Proof. intros Hm. by apply tick_spec. Qed.

(** After a tick a lease is active exactly when it was and has not expired. *)
Lemma tick_active now m id l :
  lm_inv m →
  (lm_leases (tick now m) !! id = Some l ∧ lease_state l = LeaseState_Active) ↔
  (lm_leases m !! id = Some l ∧ lease_state l = LeaseState_Active ∧ now < expires_at_ns l).
Proof.
  intros Hinv. destruct (tick_spec now m Hinv) as (_ & _ & _ & Hl). rewrite Hl.
  destruct (lm_leases m !! id) as [l'|]; simpl; [|split; intros [? ?]; done].
  unfold expire, due. case_decide as Hd; split.
  - intros [[= <-] Ha]. done.
  - intros ([= <-] & Ha & Hlt). lia.
  - intros [[= <-] Ha]. split; [done|]. split; [done|].
    destruct (Z.lt_ge_cases now (expires_at_ns l')); [done|]. tauto.
  - intros ([= <-] & Ha & _). done.
Qed.

Lemma tick_index now m k id :
  lm_inv m →
  lm_active_by_pair (tick now m) !! k = Some id ↔
  ∃ l, lm_leases m !! id = Some l ∧ lease_state l = LeaseState_Active ∧ lease_pair l = k ∧
       now < expires_at_ns l.
Proof.
  intros Hinv. destruct (tick_inv now m Hinv) as (_ & _ & Hidx). rewrite Hidx.
  pose proof (tick_active now m id) as Ht.
  split; intros (l & H1 & H2 & H3); exists l; specialize (Ht l Hinv); tauto.
Qed.

(** ** Operations *)

(** An active lease of the pair that has not expired at [now]. *)
Definition holds_lease (now : Z) (m : LeaseManager) (k : Z * Z) : Prop :=
  ∃ id l, lm_leases m !! id = Some l ∧ lease_state l = LeaseState_Active ∧ lease_pair l = k ∧
    now < expires_at_ns l.

Lemma tick_index_holds now m k :
  lm_inv m → is_Some (lm_active_by_pair (tick now m) !! k) ↔ holds_lease now m k.
Proof.
  intros Hinv. unfold holds_lease. split.
  - intros [id Hid]. apply tick_index in Hid; [|done]. by exists id.
  - intros (id & Hid). exists id. by apply tick_index.
Qed.

Lemma acquire_spec now now' j r m res m' :
  lm_inv m → lm_next_id m < u64_max → acquire now now' j r m = (res, m') →
  lm_inv m' ∧ lm_next_id m <= lm_next_id m' <= lm_next_id m + 1 ∧
  match res with
  | Err _ => holds_lease now m (j, r) ∧ m' = tick now m
  | Ok id => ¬ holds_lease now m (j, r) ∧ id = lm_next_id m ∧
      lm_leases m' = <[id := mkLease id j r now' (lm_default_ttl_ns m) LeaseState_Active]>
                       (lm_leases (tick now m))
  end.
Proof.
  intros Hinv Hn Ha. destruct (tick_spec now m Hinv) as (Ht & Hnx & Httl & _).
  pose proof (tick_index_holds now m (j, r) Hinv) as Hh. unfold acquire in Ha.
  destruct (lm_active_by_pair (tick now m) !! (j, r)) as [id|] eqn:Hk; simplify_eq/=.
  - split; [done|]. split; [lia|]. split; [|done]. apply Hh. eauto.
  - rewrite Hnx, Httl. destruct Ht as (H1 & Hid & Hidx).
    rewrite wrap_small by u64_lia.
    split; [|split; [simpl; lia|split; [rewrite <-Hh; by intros []|done]]].
    split; [simpl; lia|]. simpl. split.
    + intros id l. rewrite lookup_insert. case_decide; [intros [= <-]; simpl; lia|].
      intros Hl%Hid. lia.
    + intros k id. rewrite lookup_insert. case_decide as Hkk.
      * subst k. split.
        -- intros [= <-]. rewrite lookup_insert_eq. eauto.
        -- intros (l & Hl & Hst & Hp). rewrite lookup_insert in Hl. case_decide; [congruence|].
           assert (lm_active_by_pair (tick now m) !! (j, r) = Some id); [|congruence].
           apply Hidx. eauto.
      * rewrite Hidx. split; intros (l & Hl & Hst & Hp).
        -- exists l. rewrite lookup_insert_ne; [done|]. apply Hid in Hl. lia.
        -- rewrite lookup_insert in Hl. case_decide; [by simplify_eq/=|by exists l].
Qed.

Lemma complete_spec now id m :
  lm_inv m →
  lm_inv (complete now id m) ∧ lm_next_id (complete now id m) = lm_next_id m ∧
  (∀ i, lm_leases (complete now id m) !! i =
     (λ l, if decide (i = id ∧ lease_state (expire now l) = LeaseState_Active)
           then set_lease_state LeaseState_Completed l else expire now l) <$> lm_leases m !! i).
Proof.
  intros Hinv. destruct (tick_spec now m Hinv) as (Ht & Hnx & _ & Hl). unfold complete.
  rewrite Hl. destruct (lm_leases m !! id) as [l|] eqn:Hid; simpl.
  - assert (Hst : lease_state (expire now l) = LeaseState_Active → expire now l = l).
    { unfold expire. by case_decide. }
    case_decide as Ha.
    + split; [apply close_lease_inv; [done| |done|done]; by rewrite Hl, Hid|].
      split; [done|]. intros i. simpl. rewrite lookup_insert.
      destruct (decide (id = i)) as [<-|Hne].
      * rewrite Hid. simpl. rewrite decide_True by done. by rewrite Hst.
      * rewrite Hl. destruct (lm_leases m !! i); simpl; [|done]. by rewrite decide_False by (by intros [? _]).
    + split; [done|]. split; [done|]. intros i. rewrite Hl.
      destruct (decide (i = id)) as [->|Hne].
      * rewrite Hid. simpl. by rewrite decide_False by tauto.
      * destruct (lm_leases m !! i); simpl; [|done]. by rewrite decide_False by (by intros [? _]).
  - split; [done|]. split; [done|]. intros i. rewrite Hl.
    destruct (decide (i = id)) as [->|Hne]; [by rewrite Hid|].
    destruct (lm_leases m !! i); simpl; [|done]. by rewrite decide_False by (by intros [? _]).
Qed.

(** * Sequences of operations *)

(** Every operation that changes the manager; the accessors all do what
    [LOp_tick] does. *)
Inductive lease_op :=
| LOp_acquire (now now' job runner : Z)
| LOp_complete (now id : Z)
| LOp_tick (now : Z).

Definition apply_op (m : LeaseManager) (o : lease_op) : LeaseManager :=
  match o with
  | LOp_acquire now now' j r => (acquire now now' j r m).2
  | LOp_complete now id => complete now id m
  | LOp_tick now => tick now m
  end.

Definition run (ops : list lease_op) (m : LeaseManager) : LeaseManager := foldl apply_op m ops.

Lemma apply_op_inv o m :
  lm_inv m → lm_next_id m < u64_max →
  lm_inv (apply_op m o) ∧ lm_next_id m <= lm_next_id (apply_op m o) <= lm_next_id m + 1.
Proof.
  intros Hinv Hn. destruct o as [now now' j r|now id|now]; simpl.
  - destruct (acquire now now' j r m) as [res m'] eqn:E. simpl.
    destruct (acquire_spec now now' j r m res m' Hinv Hn E) as (? & ? & _). done.
  - destruct (complete_spec now id m Hinv) as (? & -> & _). split; [done|lia].
  - destruct (tick_spec now m Hinv) as (? & -> & _). split; [done|lia].
Qed.

Lemma run_inv ops m :
  lm_inv m → lm_next_id m + Z.of_nat (length ops) <= u64_max →
  lm_inv (run ops m) ∧ lm_next_id (run ops m) <= lm_next_id m + Z.of_nat (length ops).
Proof.
  revert m. induction ops as [|o ops IH]; intros m Hinv Hn; simpl in *; [split; [done|lia]|].
  destruct (apply_op_inv o m Hinv) as [Hi Hb]; [lia|].
  destruct (IH (apply_op m o) Hi) as [? ?]; [lia|]. split; [done|]. unfold run in *. lia.
Qed.

(** A closed lease is never touched again. *)
Lemma apply_op_closed o m id l :
  lm_inv m → lm_next_id m < u64_max →
  lm_leases m !! id = Some l → lease_state l ≠ LeaseState_Active →
  lm_leases (apply_op m o) !! id = Some l.
Proof.
  intros Hinv Hn Hl Hst.
  assert (Hexp : ∀ now, expire now l = l).
  { intros now. unfold expire, due. by rewrite decide_False by tauto. }
  destruct o as [now now' j r|now i|now]; simpl.
  - destruct (acquire now now' j r m) as [res m'] eqn:E. simpl.
    destruct (acquire_spec now now' j r m res m' Hinv Hn E) as (_ & _ & Hres).
    destruct (tick_spec now m Hinv) as (_ & _ & _ & Ht). destruct res as [i|e].
    + destruct Hres as (_ & -> & ->). destruct Hinv as (_ & Hid & _).
      rewrite lookup_insert_ne by (apply Hid in Hl; lia). rewrite Ht, Hl. simpl. by rewrite Hexp.
    + destruct Hres as (_ & ->). rewrite Ht, Hl. simpl. by rewrite Hexp.
  - destruct (complete_spec now i m Hinv) as (_ & _ & Hc). rewrite Hc, Hl. simpl.
    rewrite Hexp. by rewrite decide_False by tauto.
  - destruct (tick_spec now m Hinv) as (_ & _ & _ & Ht). rewrite Ht, Hl. simpl. by rewrite Hexp.
Qed.

(** No operation changes anything of a lease but its state. *)
Lemma apply_op_fields o m id l :
  lm_inv m → lm_next_id m < u64_max → lm_leases m !! id = Some l →
  ∃ s, lm_leases (apply_op m o) !! id = Some (set_lease_state s l).
Proof.
  intros Hinv Hn Hl.
  assert (Hexp : ∀ now, ∃ s, expire now l = set_lease_state s l).
  { intros now. unfold expire. case_decide; [eauto|]. exists (lease_state l). by destruct l. }
  destruct o as [now now' j r|now i|now]; simpl; destruct (Hexp now) as [s Hs];
    destruct (tick_spec now m Hinv) as (_ & _ & _ & Ht).
  - destruct (acquire now now' j r m) as [res m'] eqn:E. simpl.
    destruct (acquire_spec now now' j r m res m' Hinv Hn E) as (_ & _ & Hres).
    exists s. destruct res as [i|e].
    + destruct Hres as (_ & -> & ->). destruct Hinv as (_ & Hid & _).
      rewrite lookup_insert_ne by (apply Hid in Hl; lia). rewrite Ht, Hl. simpl. by rewrite Hs.
    + destruct Hres as (_ & ->). rewrite Ht, Hl. simpl. by rewrite Hs.
  - destruct (complete_spec now i m Hinv) as (_ & _ & Hc). rewrite Hc, Hl. simpl.
    case_decide; [eauto|]. exists s. by rewrite Hs.
  - exists s. rewrite Ht, Hl. simpl. by rewrite Hs.
Qed.

(** The clock reading an operation sweeps with. *)
Definition op_now (o : lease_op) : Z :=
  match o with LOp_acquire now _ _ _ | LOp_complete now _ | LOp_tick now => now end.

(** Before its deadline, a lease nobody completes is left alone. *)
Lemma apply_op_active o m id l :
  lm_inv m → lm_next_id m < u64_max → lm_leases m !! id = Some l →
  op_now o < expires_at_ns l → (∀ now, o ≠ LOp_complete now id) →
  lm_leases (apply_op m o) !! id = Some l.
Proof.
  intros Hinv Hn Hl Hnow Hno.
  assert (Hexp : expire (op_now o) l = l).
  { unfold expire, due. by rewrite decide_False by lia. }
  destruct o as [now now' j r|now i|now]; simpl in *;
    destruct (tick_spec now m Hinv) as (_ & _ & _ & Ht).
  - destruct (acquire now now' j r m) as [res m'] eqn:E. simpl.
    destruct (acquire_spec now now' j r m res m' Hinv Hn E) as (_ & _ & Hres). destruct res as [i|e].
    + destruct Hres as (_ & -> & ->). destruct Hinv as (_ & Hid & _).
      rewrite lookup_insert_ne by (apply Hid in Hl; lia). rewrite Ht, Hl. simpl. by rewrite Hexp.
    + destruct Hres as (_ & ->). rewrite Ht, Hl. simpl. by rewrite Hexp.
  - destruct (complete_spec now i m Hinv) as (_ & _ & Hc). rewrite Hc, Hl. simpl.
    rewrite decide_False; [by rewrite Hexp|]. intros [-> _]. by apply (Hno now).
  - rewrite Ht, Hl. simpl. by rewrite Hexp.
Qed.

(** Lifting a one-step fact along a run. *)
Lemma run_lift (P : LeaseManager → Prop) ops m :
  (∀ o m, o ∈ ops → lm_inv m → lm_next_id m < u64_max → P m → P (apply_op m o)) →
  lm_inv m → lm_next_id m + Z.of_nat (length ops) <= u64_max → P m → P (run ops m).
Proof.
  revert m. induction ops as [|o ops IH]; intros m Hstep Hinv Hn HP; simpl in *; [done|].
  destruct (apply_op_inv o m Hinv) as [Hi Hb]; [lia|].
  apply IH; [|done|lia|].
  - intros o' m' Ho'. apply Hstep. by right.
  - apply Hstep; [left|done|lia|done].
Qed.

Lemma run_new_inv ops ttl :
  Z.of_nat (length ops) < u64_max → lm_inv (run ops (new ttl)) ∧
  lm_next_id (run ops (new ttl)) <= 1 + Z.of_nat (length ops).
Proof. intros Hn. apply run_inv; [apply new_inv|simpl; lia]. Qed.

(** * Theorems *)

(** C8: after any sequence of fewer than [2^64 - 1] operations, the pair index
    is exactly the set of active leases, so a (job, runner) pair has at most
    one; a further [acquire] is refused precisely when the pair holds an active
    lease that has not expired, and otherwise grants a fresh id. *)
Theorem lease_exclusive ttl ops :
  Z.of_nat (length ops) < u64_max - 1 →
  let m := run ops (new ttl) in
  (∀ k id, lm_active_by_pair m !! k = Some id ↔
     ∃ l, lm_leases m !! id = Some l ∧ lease_state l = LeaseState_Active ∧ lease_pair l = k) ∧
  (∀ id id' l l', lm_leases m !! id = Some l → lm_leases m !! id' = Some l' →
     lease_state l = LeaseState_Active → lease_state l' = LeaseState_Active →
     lease_pair l = lease_pair l' → id = id') ∧
  (∀ now now' j r,
     match (acquire now now' j r m).1 with
     | Err _ => holds_lease now m (j, r)
     | Ok id => ¬ holds_lease now m (j, r) ∧ lm_leases m !! id = None
     end).
Proof.
  intros Hn. destruct (run_new_inv ops ttl) as [Hinv Hb]; [lia|]. simpl.
  destruct (Hinv) as (_ & Hid & Hidx). split; [done|]. split.
  - intros id id' l l' Hl Hl' Ha Ha' Hp.
    assert (Hk : lm_active_by_pair (run ops (new ttl)) !! lease_pair l = Some id)
      by (apply Hidx; eauto).
    assert (Hk' : lm_active_by_pair (run ops (new ttl)) !! lease_pair l = Some id')
      by (apply Hidx; eauto).
    congruence.
  - intros now now' j r. destruct (acquire _ _ _ _ _) as [res m'] eqn:E. simpl.
    destruct (acquire_spec now now' j r _ res m' Hinv ltac:(lia) E) as (_ & _ & Hres).
    destruct res as [id|]; [|by destruct Hres]. destruct Hres as (Hno & -> & _).
    split; [done|]. apply eq_None_not_Some. intros [l Hl]. apply Hid in Hl. lia.
Qed.

(** A granted lease lasts exactly until its deadline unless completed:
    through any later operations whose clock readings precede the deadline and
    that do not complete it, it is active; at or past the deadline it is never
    active; and once closed, by completion or expiry, no later operation
    changes it. *)
Theorem lease_lifetime ttl pre now now' j r id m1 ops :
  Z.of_nat (length pre + length ops) < u64_max - 3 →
  acquire now now' j r (run pre (new ttl)) = (Ok id, m1) →
  let m2 := run ops m1 in
  let deadline := sat_add now' (lm_default_ttl_ns (run pre (new ttl))) in
  ((∀ o, o ∈ ops → op_now o < deadline ∧ ∀ t, o ≠ LOp_complete t id) →
     ∀ t, t < deadline → (is_active t id m2).1 = true) ∧
  (∀ t, deadline <= t → (is_active t id m2).1 = false) ∧
  (∀ l o, lm_leases m2 !! id = Some l → lease_state l ≠ LeaseState_Active →
     lm_leases (apply_op m2 o) !! id = Some l).
Proof.
  intros Hlen Hacq. destruct (run_new_inv pre ttl) as [Hinv Hb]; [lia|].
  destruct (acquire_spec _ _ _ _ _ _ _ Hinv ltac:(lia) Hacq) as (Hinv1 & Hb1 & _ & _ & Hl1).
  set (l := mkLease id j r now' (lm_default_ttl_ns (run pre (new ttl))) LeaseState_Active) in *.
  assert (Hid : lm_leases m1 !! id = Some l) by (rewrite Hl1; apply lookup_insert_eq).
  destruct (run_inv ops m1 Hinv1) as [Hinv2 Hb2]; [lia|]. simpl.
  split; [|split].
  - intros Hops t Ht.
    assert (Hrun : lm_leases (run ops m1) !! id = Some l).
    { apply (run_lift (λ m, lm_leases m !! id = Some l)); [|done|lia|done].
      intros o m Ho Hm Hnx Hlm. destruct (Hops o Ho). by apply apply_op_active. }
    unfold is_active. simpl.
    destruct (tick_spec t _ Hinv2) as (_ & _ & _ & Htk). rewrite Htk, Hrun. simpl.
    unfold expire, due. rewrite decide_False; [done|].
    assert (t < expires_at_ns l) by done. lia.
  - intros t Ht.
    assert (Hrun : ∃ s, lm_leases (run ops m1) !! id = Some (set_lease_state s l)).
    { apply (run_lift (λ m, ∃ s, lm_leases m !! id = Some (set_lease_state s l))); [|done|lia|].
      - intros o m Ho Hm Hnx [s Hlm]. by apply (apply_op_fields o m id (set_lease_state s l)).
      - by exists LeaseState_Active. }
    destruct Hrun as [s Hrun]. unfold is_active. simpl.
    destruct (tick_spec t _ Hinv2) as (_ & _ & _ & Htk). rewrite Htk, Hrun. simpl.
    unfold expire, due. case_decide as Hd; [done|]. apply bool_decide_eq_false. intros Ha.
    apply Hd. split; [done|]. exact Ht.
  - intros l' o Hl' Hst. apply apply_op_closed; [done|lia|done|done].
Qed.

(** * Witnesses *)

Definition demo_ops : list lease_op :=
  [LOp_acquire 0 0 1 7; LOp_acquire 5 5 1 8; LOp_complete 6 1; LOp_tick 7].

Lemma lease_exclusive_witness :
  holds_lease 9 (run demo_ops (new 100)) (1, 8) ∧
  (acquire 9 9 1 8 (run demo_ops (new 100))).1 = Err LeaseError_AlreadyLeased.
Proof.
  split; [|vm_compute; reflexivity].
  refine (proj2 (proj2 (lease_exclusive 100 demo_ops _)) 9 9 1 8). vm_compute. reflexivity.
Defined.

Lemma lease_lifetime_witness :
  (is_active 109 3 (run [LOp_tick 50] (acquire 10 10 1 7 (run demo_ops (new 100))).2)).1 = true ∧
  (is_active 110 3 (run [LOp_tick 50] (acquire 10 10 1 7 (run demo_ops (new 100))).2)).1 = false.
Proof.
  destruct (lease_lifetime 100 demo_ops 10 10 1 7 3 _ [LOp_tick 50] ltac:(vm_compute; reflexivity)
    eq_refl) as (Ha & He & _).
  split; [apply Ha; [|vm_compute; reflexivity]|apply He; vm_compute; discriminate].
  intros o ->%list_elem_of_singleton. split; [vm_compute; reflexivity|discriminate].
Defined.
