(* ===== verification/Cluster.v ===== *)
(** Partition-gated and replicated lease clusters
    (src/crates/cosaci-state/src/partition.rs and
    src/crates/cosaci-state/src/replicated_cluster.rs).

    [Gate] wraps one lease manager behind a majority check; its refinement
    theorem says that a run of the cluster is the run of the manager on the
    authorised requests only. [Replicated] keeps two managers and propagates
    acquisitions while connected. *)

From S2P Require Import Prelude Lease.

(** [Side] is declared alike in both source files. *)
Inductive Side := Side_A | Side_B.

#[export] Instance Side_eq_dec : EqDecision Side.
Proof. solve_decision. Defined.

Module Gate.

Inductive ClusterError := ClusterError_AlreadyLeased | ClusterError_NotAuthoritative.

Definition from_lease_error (e : LeaseError) : ClusterError :=
  match e with LeaseError_AlreadyLeased => ClusterError_AlreadyLeased end.

Record Cluster := mkCluster { cl_manager : LeaseManager; cl_partition : option Side }.

Definition cluster_new (ttl_ns : Z) : Cluster := mkCluster (Lease.new ttl_ns) None.

Definition authorize (side : Side) (c : Cluster) : result unit ClusterError :=
  match cl_partition c with
  | Some majority => if decide (side = majority) then Ok () else Err ClusterError_NotAuthoritative
  | None => Ok ()
  end.

Definition cluster_acquire (now now' : Z) (side : Side) (job runner : Z) (c : Cluster) :
    result Z ClusterError * Cluster :=
  match authorize side c with
  | Err e => (Err e, c)
  | Ok _ =>
      let '(r, m) := acquire now now' job runner (cl_manager c) in
      (map_err from_lease_error r, mkCluster m (cl_partition c))
  end.

Definition cluster_complete (now : Z) (side : Side) (lease : Z) (c : Cluster) :
    result unit ClusterError * Cluster :=
  match authorize side c with
  | Err e => (Err e, c)
  | Ok _ => (Ok (), mkCluster (complete now lease (cl_manager c)) (cl_partition c))
  end.

Definition gate_partition (majority : Side) (c : Cluster) : Cluster :=
  mkCluster (cl_manager c) (Some majority).

Definition gate_heal (c : Cluster) : Cluster := mkCluster (cl_manager c) None.

Definition cluster_majority (c : Cluster) : option Side := cl_partition c.

Definition is_partitioned (c : Cluster) : bool := bool_decide (is_Some (cl_partition c)).

(** The three accessors pass through to the manager, which sweeps. *)
Definition cluster_active_lease_for (now job runner : Z) (c : Cluster) : option Z * Cluster :=
  let '(r, m) := active_lease_for now job runner (cl_manager c) in (r, mkCluster m (cl_partition c)).

Definition cluster_count_active (now : Z) (c : Cluster) : nat * Cluster :=
  let '(r, m) := count_active now (cl_manager c) in (r, mkCluster m (cl_partition c)).

Definition cluster_active_pairs (now : Z) (c : Cluster) : list (Z * Z) * Cluster :=
  let '(r, m) := active_pairs now (cl_manager c) in (r, mkCluster m (cl_partition c)).

(** ** Runs *)

Inductive cluster_op :=
| COp_acquire (now now' : Z) (side : Side) (job runner : Z)
| COp_complete (now : Z) (side : Side) (lease : Z)
| COp_partition (majority : Side)
| COp_heal
| COp_read (now : Z).

Definition cluster_step (c : Cluster) (o : cluster_op) : Cluster :=
  match o with
  | COp_acquire now now' side j r => (cluster_acquire now now' side j r c).2
  | COp_complete now side l => (cluster_complete now side l c).2
  | COp_partition s => gate_partition s c
  | COp_heal => gate_heal c
  | COp_read now => (cluster_count_active now c).2
  end.

(** Whether a side may write while the partition is [p]. *)
Definition may_write (p : option Side) (s : Side) : bool :=
  match p with None => true | Some m => bool_decide (s = m) end.

(** The manager requests that a run of the cluster lets through. *)
Fixpoint admitted_ops (p : option Side) (ops : list cluster_op) : list lease_op :=
  match ops with
  | [] => []
  | COp_acquire now now' s j r :: ops =>
      (if may_write p s then [LOp_acquire now now' j r] else []) ++ admitted_ops p ops
  | COp_complete now s l :: ops =>
      (if may_write p s then [LOp_complete now l] else []) ++ admitted_ops p ops
  | COp_partition m :: ops => admitted_ops (Some m) ops
  | COp_heal :: ops => admitted_ops None ops
  | COp_read now :: ops => LOp_tick now :: admitted_ops p ops
  end.

Lemma authorize_may_write s c :
  authorize s c = if may_write (cl_partition c) s then Ok () else Err ClusterError_NotAuthoritative.
Proof.
  unfold authorize, may_write. destruct (cl_partition c); [|done].
  case_decide; [by rewrite bool_decide_eq_true_2|by rewrite bool_decide_eq_false_2].
Qed.

Lemma cluster_refines_from ops c :
  cl_manager (foldl cluster_step c ops) = run (admitted_ops (cl_partition c) ops) (cl_manager c).
Proof.
  revert c. induction ops as [|o ops IH]; intros c; simpl; [done|].
  rewrite IH. destruct o as [now now' s j r|now s l|m| |now]; simpl.
  - unfold cluster_acquire. rewrite authorize_may_write.
    destruct (may_write (cl_partition c) s); simpl; [|done].
    unfold run. by destruct (acquire now now' j r (cl_manager c)) as [res m] eqn:E.
  - unfold cluster_complete. rewrite authorize_may_write.
    by destruct (may_write (cl_partition c) s).
  - done.
  - done.
  - done.
Qed.

(** C35: a run of the gated cluster is, for the lease table, exactly the run of
    a bare manager on the requests of sides that were authoritative when they
    asked (plus the sweeps of reads); a request from the minority is answered
    [NotAuthoritative] and changes nothing. *)
Theorem cluster_refines_manager ttl ops :
  cl_manager (foldl cluster_step (cluster_new ttl) ops) =
    run (admitted_ops None ops) (Lease.new ttl) ∧
  (∀ c m s now now' j r l, cl_partition c = Some m → s ≠ m →
     cluster_acquire now now' s j r c = (Err ClusterError_NotAuthoritative, c) ∧
     cluster_complete now s l c = (Err ClusterError_NotAuthoritative, c)).
Proof.
  split; [apply cluster_refines_from|]. intros c m s now now' j r l Hp Hne.
  unfold cluster_acquire, cluster_complete, authorize. rewrite Hp.
  by rewrite decide_False by done.
Qed.

End Gate.

Module Replicated.

Record TwoReplicaCluster := mkTwoReplicaCluster {
  replica_a : LeaseManager;
  replica_b : LeaseManager;
  partitioned : bool;
  majority : Side;
  ttl_ns : Z;
}.

Definition replicated_new (ttl : Z) : TwoReplicaCluster :=
  mkTwoReplicaCluster (Lease.new ttl) (Lease.new ttl) false Side_A ttl.

Definition other_side (s : Side) : Side := match s with Side_A => Side_B | Side_B => Side_A end.

(** [replica_mut], read and write. *)
Definition replica (s : Side) (c : TwoReplicaCluster) : LeaseManager :=
  match s with Side_A => replica_a c | Side_B => replica_b c end.

Definition set_replica (s : Side) (m : LeaseManager) (c : TwoReplicaCluster) : TwoReplicaCluster :=
  match s with
  | Side_A => mkTwoReplicaCluster m (replica_b c) (partitioned c) (majority c) (ttl_ns c)
  | Side_B => mkTwoReplicaCluster (replica_a c) m (partitioned c) (majority c) (ttl_ns c)
  end.

(** The four clock readings: two in the target's [acquire], two in the
    propagated one. *)
Definition acquire (t1 t2 t3 t4 : Z) (side : Side) (job runner : Z) (c : TwoReplicaCluster) :
    result unit LeaseError * TwoReplicaCluster :=
  let '(r, m) := Lease.acquire t1 t2 job runner (replica side c) in
  let c := set_replica side m c in
  let c := if negb (partitioned c) && is_ok r
           then set_replica (other_side side)
                  (Lease.acquire t3 t4 job runner (replica (other_side side) c)).2 c
           else c in
  (match r with Ok _ => Ok () | Err e => Err e end, c).

Definition partition (m : Side) (c : TwoReplicaCluster) : TwoReplicaCluster :=
  mkTwoReplicaCluster (replica_a c) (replica_b c) true m (ttl_ns c).

Definition heal (c : TwoReplicaCluster) : TwoReplicaCluster :=
  let c := if partitioned c
           then set_replica (other_side (majority c)) (Lease.new (ttl_ns c)) c else c in
  mkTwoReplicaCluster (replica_a c) (replica_b c) false (majority c) (ttl_ns c).

Definition side_has_active (now : Z) (side : Side) (job runner : Z) (c : TwoReplicaCluster) :
    bool * TwoReplicaCluster :=
  let '(o, m) := active_lease_for now job runner (replica side c) in
  (bool_decide (is_Some o), set_replica side m c).

Definition global_active_count (ta tb job runner : Z) (c : TwoReplicaCluster) :
    nat * TwoReplicaCluster :=
  let '(a, c) := side_has_active ta Side_A job runner c in
  let '(b, c) := side_has_active tb Side_B job runner c in
  ((if a then 1 else 0) + (if b then 1 else 0), c)%nat.

Definition global_active_count_for_job (ta tb job : Z) (c : TwoReplicaCluster) :
    nat * TwoReplicaCluster :=
  let '(na, a) := count_active_for_job ta job (replica_a c) in
  let '(nb, b) := count_active_for_job tb job (replica_b c) in
  (na + nb, mkTwoReplicaCluster a b (partitioned c) (majority c) (ttl_ns c))%nat.

(** ** Connected runs *)

(** A later sweep makes an earlier one unobservable. *)
Lemma tick_tick t now m : lm_inv m → t <= now → tick now (tick t m) = tick now m.
Proof.
  intros Hinv Ht.
  destruct (tick_spec t m Hinv) as (Hit & Hn1 & Hd1 & Hl1).
  destruct (tick_spec now m Hinv) as (_ & Hn2 & Hd2 & Hl2).
  destruct (tick_spec now (tick t m) Hit) as (_ & Hn3 & Hd3 & Hl3).
  assert (Hl : lm_leases (tick now (tick t m)) = lm_leases (tick now m)).
  { apply map_eq. intros id. rewrite Hl3, Hl1, Hl2.
    destruct (lm_leases m !! id) as [l|]; simpl; [|done]. f_equal.
    unfold expire, due. repeat case_decide; simpl in *; try done; intuition (congruence || lia). }
  assert (Ha : lm_active_by_pair (tick now (tick t m)) = lm_active_by_pair (tick now m)).
  { apply map_eq. intros k. apply option_eq. intros id. rewrite !tick_index by done.
    pose proof (tick_active t m id) as Hta.
    split; intros (l & H1 & H2 & H3 & H4); exists l; specialize (Hta l Hinv).
    - tauto.
    - assert (t < expires_at_ns l) by lia. tauto. }
  destruct (tick now (tick t m)), (tick now m). simpl in *. congruence.
Qed.

(** An acquisition only looks at the swept manager. *)
Lemma acquire_tick_eq now now' j r m m' :
  tick now m = tick now m' → Lease.acquire now now' j r m = Lease.acquire now now' j r m'.
Proof. intros Heq. unfold Lease.acquire. by rewrite Heq. Qed.

(** From time [T] on no read can tell the replicas apart. *)
Definition in_sync (T : Z) (c : TwoReplicaCluster) : Prop :=
  partitioned c = false ∧ lm_inv (replica_a c) ∧ lm_inv (replica_b c) ∧
  ∀ now, T <= now → tick now (replica_a c) = tick now (replica_b c).

(** A connected acquisition at a clock that does not move during the call. *)
Definition sync_acquire (c : TwoReplicaCluster) (q : Z * Side * (Z * Z)) : TwoReplicaCluster :=
  let '(now, side, (j, r)) := q in (acquire now now now now side j r c).2.

Lemma acquire_pair_sync T now j r a b res a' b' :
  lm_inv a → lm_inv b → lm_next_id a < u64_max → lm_next_id b < u64_max → T <= now →
  (∀ u, T <= u → tick u a = tick u b) →
  Lease.acquire now now j r a = (res, a') →
  b' = (if is_ok res then (Lease.acquire now now j r b).2 else b) →
  lm_inv a' ∧ lm_inv b' ∧ (∀ u, now <= u → tick u a' = tick u b').
Proof.
  intros Ha Hb Hna Hnb HT Hsync Hacq ->.
  destruct (acquire_spec now now j r a res a' Ha Hna Hacq) as (Ha' & _ & Hres).
  destruct res as [id|e]; simpl.
  - rewrite <-(acquire_tick_eq now now j r a b), Hacq by by apply Hsync. done.
  - destruct Hres as [_ ->]. split; [done|]. split; [done|]. intros u Hu.
    rewrite tick_tick by done. apply Hsync. lia.
Qed.

Lemma sync_next T c : in_sync T c → lm_next_id (replica_a c) = lm_next_id (replica_b c).
Proof.
  intros (_ & Ha & Hb & Hs). destruct (tick_spec T _ Ha) as (_ & <- & _).
  destruct (tick_spec T _ Hb) as (_ & <- & _). by rewrite Hs by lia.
Qed.

Lemma sync_acquire_step T now side j r c :
  in_sync T c → T <= now → lm_next_id (replica_a c) < u64_max →
  in_sync now (sync_acquire c (now, side, (j, r))) ∧
  lm_next_id (replica_a (sync_acquire c (now, side, (j, r)))) <= lm_next_id (replica_a c) + 1.
Proof.
  intros Hc HT Hn. pose proof (sync_next T c Hc) as Hnx. destruct Hc as (Hp & Ha & Hb & Hs).
  unfold sync_acquire, acquire.
  destruct side; simpl.
  - destruct (Lease.acquire now now j r (replica_a c)) as [res a'] eqn:E. simpl. rewrite Hp. simpl.
    destruct (acquire_spec now now j r _ res a' Ha Hn E) as (_ & Hbd & _).
    destruct (acquire_pair_sync T now j r _ (replica_b c) res a' _ Ha Hb Hn ltac:(lia) HT Hs E eq_refl)
      as (Ha' & Hb' & Hs'). destruct res; simpl in *; (split; [done|lia]).
  - destruct (Lease.acquire now now j r (replica_b c)) as [res b'] eqn:E. simpl. rewrite Hp. simpl.
    assert (Hs2 : ∀ u, T <= u → tick u (replica_b c) = tick u (replica_a c)) by (symmetry; auto).
    destruct (acquire_pair_sync T now j r _ (replica_a c) res b' _ Hb Ha ltac:(lia) Hn HT Hs2 E eq_refl)
      as (Hb' & Ha' & Hs').
    assert (Hsym : ∀ u, now <= u → tick u (if is_ok res then (Lease.acquire now now j r (replica_a c)).2
        else replica_a c) = tick u b') by (intros; symmetry; auto).
    destruct res as [id|e]; simpl in *; (split; [done|]); [|lia].
    destruct (Lease.acquire now now j r (replica_a c)) as [res2 a2] eqn:E2.
    destruct (acquire_spec now now j r _ res2 a2 Ha Hn E2) as (_ & Hbd & _). simpl. lia.
Qed.

(** Clock readings never go back. *)
Fixpoint monotone_from (T : Z) (qs : list (Z * Side * (Z * Z))) : Prop :=
  match qs with
  | [] => True
  | (now, _, _) :: qs => T <= now ∧ monotone_from now qs
  end.

Definition last_time (T : Z) (qs : list (Z * Side * (Z * Z))) : Z :=
  foldl (λ _ q, q.1.1) T qs.

Lemma sync_run T qs c :
  in_sync T c → monotone_from T qs →
  lm_next_id (replica_a c) + Z.of_nat (length qs) <= u64_max →
  in_sync (last_time T qs) (foldl sync_acquire c qs).
Proof.
  revert T c. induction qs as [|[[now s] [j r]] qs IH]; intros T c Hc Hm Hn; [done|].
  destruct Hm as [HT Hm]. simpl length in Hn.
  destruct (sync_acquire_step T now s j r c Hc HT) as [Hc' Hn']; [lia|].
  cbn [foldl last_time]. apply IH; [done|done|lia].
Qed.

(** As long as no partition was ever declared and the clock does not move
    within a call, the replicas stay indistinguishable: at any time after the
    last acquisition every (job, runner) pair is active on both or on neither. *)
Theorem replicas_in_sync ttl qs T :
  monotone_from T qs → Z.of_nat (length qs) < u64_max →
  ∀ now j r, last_time T qs <= now →
    let n := (global_active_count now now j r (foldl sync_acquire (replicated_new ttl) qs)).1 in
    n = 0%nat ∨ n = 2%nat.
Proof.
  intros Hm Hn now j r Hnow.
  assert (Hs : in_sync (last_time T qs) (foldl sync_acquire (replicated_new ttl) qs)).
  { apply sync_run; [|done|simpl; lia]. split; [done|]. simpl. split; [apply new_inv|].
    split; [apply new_inv|done]. }
  destruct Hs as (_ & _ & _ & Hs). specialize (Hs now Hnow).
  unfold global_active_count, side_has_active, active_lease_for. simpl. rewrite Hs.
  case_bool_decide; simpl; auto.
Qed.

(** Healing settles every conflict for the majority: its replica is
    untouched, the other is empty, and afterwards a pair is active exactly once
    if the majority holds an unexpired lease for it and not at all otherwise. *)
Theorem heal_majority_wins c ta tb j r :
  partitioned c = true → lm_inv (replica_a c) → lm_inv (replica_b c) →
  let c' := heal c in
  partitioned c' = false ∧
  replica (majority c) c' = replica (majority c) c ∧
  replica (other_side (majority c)) c' = Lease.new (ttl_ns c) ∧
  ((global_active_count ta tb j r c').1 <= 1)%nat ∧
  ((global_active_count ta tb j r c').1 = 1%nat ↔
     holds_lease (match majority c with Side_A => ta | Side_B => tb end)
       (replica (majority c) c) (j, r)).
Proof.
  intros Hp Ha Hb. unfold heal. rewrite Hp.
  assert (Hempty : ∀ t, tick t (Lease.new (ttl_ns c)) = Lease.new (ttl_ns c)) by done.
  split; [done|]. split; [by destruct (majority c)|]. split; [by destruct (majority c)|].
  unfold global_active_count, side_has_active, active_lease_for.
  destruct (majority c); simpl; rewrite Hempty; simpl; rewrite lookup_empty;
    rewrite (bool_decide_eq_false_2 (is_Some None)) by (by intros []);
    case_bool_decide as Hin; rewrite <-tick_index_holds by done; simpl; split; try lia;
    split; intros; try done; try lia.
Qed.

(** ** Witnesses *)

Definition demo_qs : list (Z * Side * (Z * Z)) :=
  [(0, Side_A, (1, 7)); (5, Side_B, (1, 7)); (6, Side_B, (2, 7))].

Lemma replicas_in_sync_witness :
  let n := (global_active_count 10 10 1 7 (foldl sync_acquire (replicated_new 100) demo_qs)).1 in
  n = 0%nat ∨ n = 2%nat.
Proof.
  apply (replicas_in_sync 100 demo_qs 0).
  - simpl. lia.
  - vm_compute. reflexivity.
  - vm_compute. discriminate.
Defined.

Definition demo_split : TwoReplicaCluster :=
  (acquire 1 1 1 1 Side_B 9 9 (partition Side_A (foldl sync_acquire (replicated_new 100) demo_qs))).2.

Lemma demo_split_inv : lm_inv (replica_a demo_split) ∧ lm_inv (replica_b demo_split).
Proof.
  split.
  - apply (run_new_inv [LOp_acquire 0 0 1 7; LOp_acquire 6 6 2 7] 100). done.
  - apply (run_new_inv [LOp_acquire 0 0 1 7; LOp_acquire 5 5 1 7; LOp_acquire 6 6 2 7;
      LOp_acquire 1 1 9 9] 100). done.
Qed.

Lemma heal_majority_wins_witness :
  partitioned (heal demo_split) = false ∧
  ((global_active_count 10 10 9 9 (heal demo_split)).1 <= 1)%nat.
Proof.
  destruct (heal_majority_wins demo_split 10 10 9 9) as (Hp & _ & _ & Hle & _).
  - reflexivity.
  - apply demo_split_inv.
  - apply demo_split_inv.
  - split; [exact Hp|exact Hle].
Defined.

(** After a heal the cluster is connected but a lease taken before the
    partition is active on one replica only: connected mode does not imply that
    a pair counts zero or two. *)
Theorem heal_leaves_replicas_apart :
  let c := heal (partition Side_A (foldl sync_acquire (replicated_new 100) demo_qs)) in
  partitioned c = false ∧ (global_active_count 10 10 1 7 c).1 = 1%nat.
Proof. vm_compute. done. Qed.

End Replicated.
