(* ===== verification/Replay.v ===== *)
(** Replay protection
    (src/crates/cosaci-state/src/replay.rs).

    The guard keeps one acceptance time per nonce and forgets it when it leaves
    the window. The specification keeps every acceptance for ever; the theorem
    shows that, under a clock that does not run backwards, no sequence of
    submissions can tell the two apart. *)

From S2P Require Import Prelude.

Inductive AcceptError := AcceptError_StaleTimestamp | AcceptError_Replay.

#[export] Instance AcceptError_eq_dec : EqDecision AcceptError.
Proof. solve_decision. Defined.

Record ReplayGuard := mkReplayGuard { rg_ttl_ns : Z; rg_accepted : gmap Z Z }.

Definition new (ttl_ns : Z) : ReplayGuard := mkReplayGuard ttl_ns ∅.

(** [HashMap::retain] with the window test. *)
Definition sweep (now : Z) (g : ReplayGuard) : ReplayGuard :=
  mkReplayGuard (rg_ttl_ns g)
    (filter (λ p : Z * Z, sat_sub now p.2 < rg_ttl_ns g) (rg_accepted g)).

(** [t] is the clock reading of the sweep, [now] the one of [accept] itself. *)
Definition accept (t now nonce timestamp_ns : Z) (g : ReplayGuard) :
    result unit AcceptError * ReplayGuard :=
  let g := sweep t g in
  let age := abs_diff now timestamp_ns in
  if rg_ttl_ns g <? age then (Err AcceptError_StaleTimestamp, g)
  else match rg_accepted g !! nonce with
       | Some _ => (Err AcceptError_Replay, g)
       | None => (Ok (), mkReplayGuard (rg_ttl_ns g) (<[nonce := now]> (rg_accepted g)))
       end.

Definition is_known (now nonce : Z) (g : ReplayGuard) : bool * ReplayGuard :=
  let g := sweep now g in (bool_decide (is_Some (rg_accepted g !! nonce)), g).

Definition count (now : Z) (g : ReplayGuard) : nat * ReplayGuard :=
  let g := sweep now g in (size (rg_accepted g), g).

(** * Specification *)

(** All acceptances so far, as (nonce, time). *)
Definition history := list (Z * Z).

(** The nonce was accepted less than [ttl] before [now]. *)
Definition in_window (ttl now nonce : Z) (h : history) : Prop :=
  Exists (λ p : Z * Z, p.1 = nonce ∧ now - p.2 < ttl) h.

#[export] Instance in_window_dec ttl now nonce h : Decision (in_window ttl now nonce h).
Proof. unfold in_window. apply _. Defined.

Definition spec_accept (ttl t now nonce timestamp_ns : Z) (h : history) :
    result unit AcceptError * history :=
  if decide (ttl < Z.abs (now - timestamp_ns)) then (Err AcceptError_StaleTimestamp, h)
  else if decide (in_window ttl t nonce h) then (Err AcceptError_Replay, h)
  else (Ok (), (nonce, now) :: h).

(** * Refinement *)

(** The guard remembers, of the history up to [T], at least what is still in
    the window, and nothing else. *)
Definition remembers (ttl T : Z) (g : ReplayGuard) (h : history) : Prop :=
  rg_ttl_ns g = ttl ∧ 0 <= ttl ∧
  (∀ n a, (n, a) ∈ h → a <= T) ∧
  (∀ n a, rg_accepted g !! n = Some a → (n, a) ∈ h) ∧
  (∀ n a, (n, a) ∈ h → T - a < ttl → ∃ a', rg_accepted g !! n = Some a' ∧ a <= a').

Lemma remembers_new ttl T : 0 <= ttl → remembers ttl T (new ttl) [].
Proof.
  intros Ht. split; [done|]. split; [done|]. split; [by intros ? ? ?%elem_of_nil|].
  split; [done|]. by intros ? ? ?%elem_of_nil.
Qed.

Lemma sweep_lookup now g n a :
  rg_accepted (sweep now g) !! n = Some a ↔
  rg_accepted g !! n = Some a ∧ sat_sub now a < rg_ttl_ns g.
Proof. simpl. by rewrite map_lookup_filter_Some. Qed.

Lemma sweep_remembers ttl T t g h :
  T <= t → remembers ttl T g h → remembers ttl t (sweep t g) h.
Proof.
  intros HT (Httl & H0 & Hle & Hin & Hkeep). split; [done|]. split; [done|]. split; [|split].
  - intros n a Ha%Hle. lia.
  - intros n a [Ha _]%sweep_lookup. by apply Hin.
  - intros n a Ha Hw. destruct (Hkeep n a Ha) as (a' & Ha' & Hge); [lia|].
    exists a'. split; [|done]. apply sweep_lookup. split; [done|].
    pose proof (Hle _ _ Ha). u64_lia.
Qed.

Lemma sweep_in_window ttl T t g h n :
  T <= t → remembers ttl T g h →
  is_Some (rg_accepted (sweep t g) !! n) ↔ in_window ttl t n h.
Proof.
  intros HT Hr. destruct (sweep_remembers ttl T t g h HT Hr) as (_ & _ & _ & _ & Hkeep).
  destruct Hr as (Httl & H0 & Hle & Hin & _). unfold in_window. rewrite Exists_exists. split.
  - intros [a [Ha Hw]%sweep_lookup]. exists (n, a). split; [by apply Hin|]. split; [done|].
    simpl. u64_lia.
  - intros ([n' a] & Ha & Hn & Hw). simpl in *. subst n'.
    destruct (Hkeep n a Ha Hw) as (a' & Ha' & _). eauto.
Qed.

Lemma accept_refines ttl T t now n ts g h :
  T <= t → t <= now → remembers ttl T g h →
  (accept t now n ts g).1 = (spec_accept ttl t now n ts h).1 ∧
  remembers ttl now (accept t now n ts g).2 (spec_accept ttl t now n ts h).2.
Proof.
  intros HT Hn Hr. pose proof (sweep_in_window ttl T t g h n HT Hr) as Hw.
  pose proof (sweep_remembers ttl T t g h HT Hr) as Hs.
  assert (Hlater : remembers ttl now (sweep t g) h).
  { destruct Hs as (? & ? & Hle & Hin & Hkeep). split; [done|]. split; [done|]. split; [|split].
    - intros n' a Ha%Hle. lia.
    - done.
    - intros n' a Ha Hlt. apply Hkeep; [done|lia]. }
  unfold accept, spec_accept, abs_diff.
  assert (rg_ttl_ns (sweep t g) = ttl) as -> by apply Hs.
  destruct (Z.ltb_spec ttl (Z.abs (now - ts))) as [Hst|Hst].
  { rewrite decide_True by done. done. }
  rewrite decide_False by lia.
  destruct (rg_accepted (sweep t g) !! n) as [a|] eqn:E.
  { rewrite decide_True by (apply Hw; eauto). done. }
  rewrite decide_False by (rewrite <-Hw; by intros []).
  split; [done|]. destruct Hlater as (Httl & H0 & Hle & Hin & Hkeep).
  split; [done|]. split; [done|]. split; [|split].
  - intros n' a [[= -> ->]|Ha]%elem_of_cons; [lia|]. by apply (Hle n').
  - intros n' a. simpl. rewrite lookup_insert. case_decide.
    + subst. intros [= <-]. left.
    + intros Ha. right. by apply Hin.
  - intros n' a Ha Hlt. simpl. rewrite lookup_insert.
    apply elem_of_cons in Ha as [[= -> ->]|Ha]; [rewrite decide_True by done; eauto with lia|].
    case_decide; [|by apply Hkeep]. subst n'. exists now. split; [done|]. by apply (Hle n).
Qed.

(** One submission with its two clock readings. *)
Record submission := mkSubmission { sub_sweep : Z; sub_now : Z; sub_nonce : Z; sub_ts : Z }.

(** Verdicts of a sequence of submissions, by the guard and by the
    specification. *)
Fixpoint verdicts (subs : list submission) (g : ReplayGuard) : list (result unit AcceptError) :=
  match subs with
  | [] => []
  | s :: subs =>
      let '(r, g) := accept (sub_sweep s) (sub_now s) (sub_nonce s) (sub_ts s) g in
      r :: verdicts subs g
  end.

Fixpoint spec_verdicts (ttl : Z) (subs : list submission) (h : history) :
    list (result unit AcceptError) :=
  match subs with
  | [] => []
  | s :: subs =>
      let '(r, h) := spec_accept ttl (sub_sweep s) (sub_now s) (sub_nonce s) (sub_ts s) h in
      r :: spec_verdicts ttl subs h
  end.

(** The clock readings never go back. *)
Fixpoint clock_monotone (T : Z) (subs : list submission) : Prop :=
  match subs with
  | [] => True
  | s :: subs => T <= sub_sweep s ∧ sub_sweep s <= sub_now s ∧ clock_monotone (sub_now s) subs
  end.

Lemma verdicts_refine ttl T subs g h :
  clock_monotone T subs → remembers ttl T g h → verdicts subs g = spec_verdicts ttl subs h.
Proof.
  revert T g h. induction subs as [|s subs IH]; intros T g h Hm Hr; [done|].
  destruct Hm as (H1 & H2 & Hm). simpl.
  destruct (accept_refines ttl T _ _ (sub_nonce s) (sub_ts s) g h H1 H2 Hr) as [Hv Hr'].
  destruct (accept _ _ _ _ g) as [r g'], (spec_accept _ _ _ _ _ h) as [r' h']. simpl in *. subst r'.
  f_equal. by apply (IH (sub_now s)).
Qed.

(** * Theorems *)

(** C36: under a clock that does not run backwards, the verdicts of the guard,
    which forgets, are those of the specification, which remembers every
    acceptance: stale when the timestamp is more than the window away, a replay
    exactly when the nonce was accepted less than a window ago, accepted
    otherwise. *)
Theorem replay_guard_refines ttl T subs :
  0 <= ttl → clock_monotone T subs → verdicts subs (new ttl) = spec_verdicts ttl subs [].
Proof. intros Ht Hm. by apply (verdicts_refine ttl T), remembers_new. Qed.

Lemma replay_guard_refines_witness :
  verdicts [mkSubmission 0 0 9 0; mkSubmission 5 5 9 5; mkSubmission 10 10 9 10] (new 10) =
  spec_verdicts 10 [mkSubmission 0 0 9 0; mkSubmission 5 5 9 5; mkSubmission 10 10 9 10] [].
Proof.
  apply (replay_guard_refines 10 0); [lia|]. simpl. lia.
Defined.

(** The freshness test allows an age of exactly [ttl], and timestamps in the
    future, while the nonce is forgotten after [ttl]: the very same message,
    nonce and timestamp, is accepted twice, [ttl] apart, and a future-dated one
    a third time. *)
Theorem same_message_accepted_again :
  verdicts [mkSubmission 0 0 9 0; mkSubmission 10 10 9 0] (new 10) = [Ok (); Ok ()] ∧
  verdicts [mkSubmission 0 0 9 10; mkSubmission 10 10 9 10; mkSubmission 20 20 9 10] (new 10) =
    [Ok (); Ok (); Ok ()].
Proof. vm_compute. done. Qed.
