(* ===== verification/RateLimit.v ===== *)
(** Per-tenant token buckets
    (src/crates/cosaci-state/src/rate_limit.rs).

    Each clock reading is an argument. The theorems bound what a tenant can
    spend over any sequence of requests by its burst capacity plus the refill
    of the elapsed time, and show that tenants do not affect each other. *)

From S2P Require Import Prelude.

Record TokenBucket := mkTokenBucket {
  tb_capacity : Z;
  tb_refill_per_sec : Z;
  tb_tokens : Z;
  tb_last_refill_ns : Z;
}.

Definition bucket_new (capacity refill_per_sec now_ns : Z) : TokenBucket :=
  mkTokenBucket capacity refill_per_sec capacity now_ns.

(** The product is a [u128] and cannot overflow; the quotient is cut to [u64]. *)
Definition refill (now_ns : Z) (b : TokenBucket) : TokenBucket :=
  let elapsed_ns := sat_sub now_ns (tb_last_refill_ns b) in
  let new_tokens := wrap 64 (elapsed_ns * tb_refill_per_sec b / 1000000000) in
  mkTokenBucket (tb_capacity b) (tb_refill_per_sec b)
    (Z.min (sat_add (tb_tokens b) new_tokens) (tb_capacity b)) now_ns.

Definition set_tokens (n : Z) (b : TokenBucket) : TokenBucket :=
  mkTokenBucket (tb_capacity b) (tb_refill_per_sec b) n (tb_last_refill_ns b).

Definition try_consume (cost now_ns : Z) (b : TokenBucket) : bool * TokenBucket :=
  let b := refill now_ns b in
  if cost <=? tb_tokens b then (true, set_tokens (tb_tokens b - cost) b) else (false, b).

Record RateLimiter := mkRateLimiter {
  rl_buckets : gmap Z TokenBucket;
  rl_default_capacity : Z;
  rl_default_refill_per_sec : Z;
}.

Definition new (capacity refill_per_sec : Z) : RateLimiter :=
  mkRateLimiter ∅ capacity refill_per_sec.

Definition set_bucket (tenant : Z) (b : TokenBucket) (l : RateLimiter) : RateLimiter :=
  mkRateLimiter (<[tenant := b]> (rl_buckets l)) (rl_default_capacity l)
    (rl_default_refill_per_sec l).

Definition accept_with_config (now tenant cost capacity refill_per_sec : Z) (l : RateLimiter) :
    bool * RateLimiter :=
  let bucket := default (bucket_new capacity refill_per_sec now) (rl_buckets l !! tenant) in
  let '(ok, b) := try_consume cost now bucket in (ok, set_bucket tenant b l).

Definition accept (now tenant cost : Z) (l : RateLimiter) : bool * RateLimiter :=
  let cap := rl_default_capacity l in
  let rf := rl_default_refill_per_sec l in
  let bucket := default (bucket_new cap rf now) (rl_buckets l !! tenant) in
  let '(ok, b) := try_consume cost now bucket in (ok, set_bucket tenant b l).

Definition tokens_of (now tenant : Z) (l : RateLimiter) : Z * RateLimiter :=
  match rl_buckets l !! tenant with
  | Some b => let b := refill now b in (tb_tokens b, set_bucket tenant b l)
  | None => (rl_default_capacity l, l)
  end.

Definition capacity (l : RateLimiter) : Z := rl_default_capacity l.

(** * Invariant *)

Definition bucket_ok (b : TokenBucket) : Prop :=
  uint 64 (tb_capacity b) ∧ uint 64 (tb_refill_per_sec b) ∧ 0 <= tb_tokens b <= tb_capacity b.

Lemma bucket_new_ok c r now : uint 64 c → uint 64 r → bucket_ok (bucket_new c r now).
Proof. unfold bucket_ok. simpl. u64_lia. Qed.

(** What the refill of an interval may add. *)
Definition earned (rate dt : Z) : Z := dt * rate / 1000000000.

Lemma earned_nonneg rate dt : 0 <= rate → 0 <= dt → 0 <= earned rate dt.
Proof. intros. apply Z.div_pos; nia. Qed.

Lemma earned_add rate d1 d2 :
  earned rate d1 + earned rate d2 <= earned rate (d1 + d2).
Proof. unfold earned. apply Z.div_le_lower_bound; [lia|].
  pose proof (Z.mul_div_le (d1 * rate) 1000000000). pose proof (Z.mul_div_le (d2 * rate) 1000000000).
  lia.
Qed.

Lemma refill_ok now b :
  bucket_ok b → tb_last_refill_ns b <= now →
  bucket_ok (refill now b) ∧ tb_tokens b <= tb_tokens (refill now b) ∧
  tb_tokens (refill now b) <=
    tb_tokens b + earned (tb_refill_per_sec b) (now - tb_last_refill_ns b).
Proof.
  intros (Hc & Hr & Ht) Hnow. unfold bucket_ok, refill, earned. simpl.
  unfold sat_sub. rewrite Z.max_l by lia.
  set (q := (now - tb_last_refill_ns b) * tb_refill_per_sec b / 1000000000).
  assert (0 <= q) by (apply earned_nonneg; u64_lia).
  assert (0 <= wrap 64 q <= q).
  { unfold wrap. split; [apply Z.mod_pos_bound; lia|]. apply Z.mod_le; lia. }
  u64_lia.
Qed.

(** The refill never credits more than the interval earned, even when the clock
    does not advance or the quotient is cut. *)
Lemma try_consume_ok cost now b ok b' :
  0 <= cost → bucket_ok b → tb_last_refill_ns b <= now → try_consume cost now b = (ok, b') →
  bucket_ok b' ∧ tb_last_refill_ns b' = now ∧ tb_refill_per_sec b' = tb_refill_per_sec b ∧
  tb_capacity b' = tb_capacity b ∧
  (if ok then cost else 0) + tb_tokens b' <=
    tb_tokens b + earned (tb_refill_per_sec b) (now - tb_last_refill_ns b).
Proof.
  intros Hcost Hb Hnow. destruct (refill_ok now b Hb Hnow) as ((Hc & Hr & Ht) & _ & Hle).
  unfold try_consume. destruct (_ <=? _) eqn:E; zbool; intros; simplify_eq/=.
  - unfold bucket_ok. simpl in *. repeat split; try (u64_lia || done).
  - split; [done|]. repeat split; try done.
Qed.

(** * One tenant's requests *)

(** Requests (clock reading, tenant, cost, capacity, rate) in order, with the
    verdict of each. *)
Record request := mkRequest {
  rq_now : Z; rq_tenant : Z; rq_cost : Z; rq_capacity : Z; rq_rate : Z }.

Fixpoint serve (rs : list request) (l : RateLimiter) : list (request * bool) * RateLimiter :=
  match rs with
  | [] => ([], l)
  | r :: rs =>
      let '(ok, l) :=
        accept_with_config (rq_now r) (rq_tenant r) (rq_cost r) (rq_capacity r) (rq_rate r) l in
      let '(out, l) := serve rs l in ((r, ok) :: out, l)
  end.

(** What the admitted requests of a tenant cost. *)
Definition spent (tenant : Z) (out : list (request * bool)) : Z :=
  sumz ((λ p : request * bool, if decide (rq_tenant p.1 = tenant ∧ p.2 = true)
                               then rq_cost p.1 else 0) <$> out).

(** The clock does not run backwards, and every number fits its type. *)
Fixpoint requests_ok (T : Z) (rs : list request) : Prop :=
  match rs with
  | [] => True
  | r :: rs => T <= rq_now r ∧ 0 <= rq_cost r ∧ uint 64 (rq_capacity r) ∧ uint 64 (rq_rate r) ∧
               requests_ok (rq_now r) rs
  end.

Definition end_time (T : Z) (rs : list request) : Z := foldl (λ _ r, rq_now r) T rs.

Lemma end_time_ge T rs : requests_ok T rs → T <= end_time T rs.
Proof.
  revert T. induction rs as [|r rs IH]; intros T Hr; simpl in *; [lia|].
  destruct Hr as (HT & _ & _ & _ & Hr). specialize (IH _ Hr). unfold end_time in *. simpl. lia.
Qed.

(** A bucket is fully described by its tenant's own requests. *)
Lemma accept_with_config_frame now tenant cost c rf l t' :
  t' ≠ tenant → rl_buckets (accept_with_config now tenant cost c rf l).2 !! t' = rl_buckets l !! t'.
Proof.
  intros Hne. unfold accept_with_config. destruct (try_consume _ _ _) as [ok b]. simpl.
  by rewrite lookup_insert_ne.
Qed.

(** The admission in closed form. *)
Lemma accept_with_config_eq now tenant cost cap rate l :
  let b := default (bucket_new cap rate now) (rl_buckets l !! tenant) in
  let tokens := tb_tokens (refill now b) in
  accept_with_config now tenant cost cap rate l =
  (cost <=? tokens,
   set_bucket tenant
     (set_tokens (tokens - (if cost <=? tokens then cost else 0)) (refill now b)) l).
Proof.
  cbv zeta. unfold accept_with_config, try_consume. destruct (_ <=? _); [done|].
  unfold set_tokens, refill. simpl. by rewrite Z.sub_0_r.
Qed.

Lemma serve_bound rs l tenant b T :
  requests_ok T rs → rl_buckets l !! tenant = Some b → bucket_ok b → tb_last_refill_ns b <= T →
  spent tenant (serve rs l).1 <=
    tb_tokens b + earned (tb_refill_per_sec b) (end_time T rs - tb_last_refill_ns b).
Proof.
  revert l b T. induction rs as [|r rs IH]; intros l b T Hrs Hl Hb HT.
  - simpl. unfold spent, sumz. simpl.
    pose proof (earned_nonneg (tb_refill_per_sec b) (T - tb_last_refill_ns b)).
    destruct Hb as (_ & Hr & Ht). u64_lia.
  - destruct Hrs as (HTr & Hcost & Hcap & Hrate & Hrs). cbn [serve].
    pose proof (end_time_ge _ _ Hrs) as Hend.
    assert (Hend' : end_time T (r :: rs) = end_time (rq_now r) rs) by done. rewrite Hend'.
    destruct (decide (rq_tenant r = tenant)) as [Ht|Ht].
    + unfold accept_with_config. rewrite Ht, Hl. simpl.
      destruct (try_consume (rq_cost r) (rq_now r) b) as [ok b'] eqn:E.
      destruct (try_consume_ok (rq_cost r) (rq_now r) b ok b' Hcost Hb ltac:(lia) E) as (Hb' & Hlast & Hrf & _ & Hle).
      specialize (IH (set_bucket tenant b' l) b' (rq_now r) Hrs).
      destruct (serve rs _) as [out l'] eqn:Es. simpl in *. unfold spent in *.
      rewrite fmap_cons, sumz_cons. simpl.
      assert (Hs := IH (lookup_insert_eq _ _ _) Hb' ltac:(lia)).
      pose proof (earned_add (tb_refill_per_sec b) (rq_now r - tb_last_refill_ns b)
        (end_time (rq_now r) rs - rq_now r)) as Hadd.
      replace (rq_now r - tb_last_refill_ns b + (end_time (rq_now r) rs - rq_now r))
        with (end_time (rq_now r) rs - tb_last_refill_ns b) in Hadd by lia.
      rewrite Hrf, Hlast in Hs.
      destruct ok; [rewrite decide_True by done|rewrite decide_False by (by intros [])]; lia.
    + destruct (accept_with_config _ _ _ _ _ l) as [ok l1] eqn:E.
      assert (Hl1 : rl_buckets l1 !! tenant = Some b).
      { rewrite <-Hl. change l1 with (ok, l1).2. rewrite <-E. by apply accept_with_config_frame. }
      specialize (IH l1 b (rq_now r) Hrs Hl1 Hb ltac:(lia)).
      destruct (serve rs l1) as [out l'] eqn:Es. simpl in *. unfold spent in *.
      rewrite fmap_cons, sumz_cons. simpl. rewrite decide_False by tauto. lia.
Qed.

(** * A tenant's own requests *)

Definition own (tenant : Z) (rs : list request) : list request := filter (λ r, rq_tenant r = tenant) rs.

(** From the first request of a list to its last. *)
Definition duration (rs : list request) : Z :=
  match rs with [] => 0 | r :: rs => end_time (rq_now r) rs - rq_now r end.

Lemma own_own tenant rs : Forall (λ r, rq_tenant r = tenant) (own tenant rs).
Proof. apply Forall_forall. intros r Hr. by apply list_elem_of_filter in Hr as [? _]. Qed.

Lemma requests_ok_app T rs1 rs2 :
  requests_ok T (rs1 ++ rs2) ↔ requests_ok T rs1 ∧ requests_ok (end_time T rs1) rs2.
Proof.
  revert T. induction rs1 as [|r rs1 IH]; intros T; cbn [app requests_ok]; [tauto|].
  rewrite IH. unfold end_time. cbn [foldl]. tauto.
Qed.

(** The verdict and the bucket after a request depend on the tenant's bucket alone. *)
Lemma accept_with_config_local now tenant cost c rf l l' :
  rl_buckets l !! tenant = rl_buckets l' !! tenant →
  (accept_with_config now tenant cost c rf l).1 = (accept_with_config now tenant cost c rf l').1 ∧
  rl_buckets (accept_with_config now tenant cost c rf l).2 !! tenant =
  rl_buckets (accept_with_config now tenant cost c rf l').2 !! tenant.
Proof.
  intros Hl. unfold accept_with_config. rewrite Hl. destruct (try_consume _ _ _) as [ok b]. cbn.
  by rewrite !lookup_insert_eq.
Qed.

(** What a tenant gets is decided by its own requests. *)
Lemma serve_own tenant rs l l' :
  rl_buckets l !! tenant = rl_buckets l' !! tenant →
  spent tenant (serve rs l).1 = spent tenant (serve (own tenant rs) l').1 ∧
  rl_buckets (serve rs l).2 !! tenant = rl_buckets (serve (own tenant rs) l').2 !! tenant.
Proof.
  revert l l'. induction rs as [|r rs IH]; intros l l' Hl; [done|]. cbn [serve]. unfold own.
  destruct (decide (rq_tenant r = tenant)) as [Ht|Ht].
  - rewrite filter_cons_True by done. fold (own tenant rs). cbn [serve]. rewrite Ht.
    destruct (accept_with_config_local (rq_now r) tenant (rq_cost r) (rq_capacity r) (rq_rate r) l l' Hl) as [Hv Hb].
    destruct (accept_with_config _ _ _ _ _ l) as [ok l1], (accept_with_config _ _ _ _ _ l') as [ok' l1']. cbn in Hv, Hb.
    subst ok'. specialize (IH l1 l1' Hb). destruct (serve rs l1), (serve (own tenant rs) l1'). cbn in *.
    destruct IH as [Hs Hr]. split; [|done]. unfold spent in *. by rewrite !fmap_cons, !sumz_cons, Hs.
  - rewrite filter_cons_False by done. fold (own tenant rs).
    pose proof (accept_with_config_frame (rq_now r) (rq_tenant r) (rq_cost r) (rq_capacity r) (rq_rate r) l tenant
      ltac:(done)) as Hf.
    destruct (accept_with_config _ _ _ _ _ l) as [ok l1]. cbn in Hf. rewrite Hl in Hf.
    specialize (IH l1 l' Hf). destruct (serve rs l1). cbn in *. destruct IH as [Hs Hr]. split; [|done].
    rewrite <-Hs. unfold spent. rewrite fmap_cons, sumz_cons. cbn. by rewrite decide_False by tauto.
Qed.

(** The bucket of a tenant keeps its capacity and rate, and follows the clock. *)
Lemma serve_bucket tenant rs l b T :
  Forall (λ r, rq_tenant r = tenant) rs → requests_ok T rs → rl_buckets l !! tenant = Some b → bucket_ok b →
  tb_last_refill_ns b <= T →
  ∃ b', rl_buckets (serve rs l).2 !! tenant = Some b' ∧ bucket_ok b' ∧ tb_capacity b' = tb_capacity b ∧
    tb_refill_per_sec b' = tb_refill_per_sec b ∧ tb_last_refill_ns b' <= end_time T rs.
Proof.
  intros Hall. revert l b T. induction Hall as [|r rs Ht Hall IH]; intros l b T Hok Hl Hb HT; [by exists b|].
  destruct Hok as (HTr & Hcost & _ & _ & Hok). cbn [serve]. unfold accept_with_config. rewrite Ht, Hl. cbn [default].
  unfold id. destruct (try_consume (rq_cost r) (rq_now r) b) as [ok b1] eqn:E.
  destruct (try_consume_ok (rq_cost r) (rq_now r) b ok b1 Hcost Hb ltac:(lia) E) as (Hb1 & Hlast & Hrf & Hc & _).
  destruct (IH (set_bucket tenant b1 l) b1 (rq_now r) Hok (lookup_insert_eq _ _ _) Hb1 ltac:(lia))
    as (b' & Hb' & ? & ? & ? & ?). destruct (serve rs _). exists b'. cbn in *. split_and!; try done; congruence.
Qed.

(** A first request makes the bucket it finds. *)
Lemma serve_first tenant r rs l :
  rq_tenant r = tenant → rl_buckets l !! tenant = None →
  serve (r :: rs) (set_bucket tenant (bucket_new (rq_capacity r) (rq_rate r) (rq_now r)) l) = serve (r :: rs) l.
Proof.
  intros Ht Hl. cbn [serve]. unfold accept_with_config. rewrite Ht, Hl. cbn [set_bucket rl_buckets].
  rewrite lookup_insert_eq. cbn. unfold id. destruct (try_consume _ _ _) as [ok b].
  unfold set_bucket. cbn. by rewrite insert_insert_eq.
Qed.

(** What a bucket can give over a stretch that starts with a request of its
    tenant: what it can hold, and what is earned from there on. *)
Lemma stretch_bound_bucket tenant r rs l b :
  rq_tenant r = tenant → requests_ok (rq_now r) (r :: rs) → rl_buckets l !! tenant = Some b → bucket_ok b →
  tb_last_refill_ns b <= rq_now r →
  spent tenant (serve (r :: rs) l).1 <=
    tb_capacity b + earned (tb_refill_per_sec b) (duration (r :: rs)).
Proof.
  intros Ht (_ & Hcost & _ & _ & Hok) Hl Hb Hlast. cbn [serve]. unfold accept_with_config. rewrite Ht, Hl.
  cbn [default]. unfold id. destruct (try_consume (rq_cost r) (rq_now r) b) as [ok b1] eqn:E.
  destruct (try_consume_ok _ _ b ok b1 Hcost Hb Hlast E) as (Hb1 & Hlast1 & Hrf & _ & _).
  assert (Hfull : (if ok then rq_cost r else 0) + tb_tokens b1 <= tb_capacity b).
  { destruct (refill_ok (rq_now r) b Hb Hlast) as ((_ & _ & Htok) & _). revert E. unfold try_consume.
    destruct (_ <=? _) eqn:El; zbool; intros [= <- <-]; cbn in *; lia. }
  pose proof (serve_bound rs (set_bucket tenant b1 l) tenant b1 (rq_now r) Hok (lookup_insert_eq _ _ _) Hb1 ltac:(lia)) as Hs.
  rewrite Hrf, Hlast1 in Hs. destruct (serve rs _) as [out l']. cbn in *. unfold spent in *.
  rewrite fmap_cons, sumz_cons. cbn.
  destruct ok; [rewrite decide_True by done|rewrite decide_False by (by intros [])]; lia.
Qed.

(** * Theorems *)

(** C37: in any traffic, whatever other tenants send and however their clock
    readings are ordered, and over any stretch of it: what a tenant is admitted
    to spend never exceeds the capacity its first request ever configured plus
    the tokens the rate of that request earns between the tenant's first and last
    request of the stretch, provided the clock does not run backwards between
    the tenant's own requests. *)
Theorem rate_limit_bound tenant before stretch cap0 rate0 first rest :
  own tenant (before ++ stretch) = first :: rest → requests_ok (rq_now first) (first :: rest) →
  spent tenant (serve stretch (serve before (new cap0 rate0)).2).1 <=
    rq_capacity first + earned (rq_rate first) (duration (own tenant stretch)).
Proof.
  intros Hown Hok. set (l := (serve before (new cap0 rate0)).2).
  destruct (serve_own tenant before (new cap0 rate0) (new cap0 rate0) eq_refl) as [_ Hl]. fold l in Hl.
  rewrite (proj1 (serve_own tenant stretch l (serve (own tenant before) (new cap0 rate0)).2 Hl)).
  pose proof (own_own tenant stretch) as Hall. unfold own in Hown. rewrite filter_app in Hown. fold (own tenant before) in Hown.
  fold (own tenant stretch) in Hown. pose proof (own_own tenant before) as Hallb.
  destruct (own tenant before) as [|r0 bs]; cbn [app] in Hown.
  - rewrite Hown in *. apply Forall_cons in Hall as [Ht _]. cbn [snd]. change (serve [] (new cap0 rate0)).2 with (new cap0 rate0).
    pose proof Hok as (_ & _ & Hcap & Hrate & _). rewrite <-(serve_first tenant) by done.
    apply (stretch_bound_bucket tenant first rest _ (bucket_new (rq_capacity first) (rq_rate first) (rq_now first)));
      [done|done|apply lookup_insert_eq|by apply bucket_new_ok|done].
  - injection Hown as -> <-. destruct Hok as (_ & Hcost & Hcap & Hrate & Hok).
    apply requests_ok_app in Hok as [Hbs Hst]. apply Forall_cons in Hallb as [Ht Hallb].
    set (b0 := bucket_new (rq_capacity first) (rq_rate first) (rq_now first)).
    destruct (serve_bucket tenant (first :: bs) (set_bucket tenant b0 (new cap0 rate0)) b0 (rq_now first))
      as (b & Hb & Hbok & Hbc & Hbr & Hbl).
    { by constructor. } { cbn. split_and!; try done; lia. } { apply lookup_insert_eq. } { by apply bucket_new_ok. } { cbn. lia. }
    rewrite serve_first in Hb by done.
    destruct (own tenant stretch) as [|r st].
    { unfold spent, sumz, duration, earned. cbn. unfold uint in Hcap. rewrite Z.div_0_l by lia. lia. }
    apply Forall_cons in Hall as [Htr Hall]. destruct Hst as (HT & Hrest).
    change (end_time (rq_now first) (first :: bs)) with (end_time (rq_now first) bs) in Hbl.
    cbn in Hbc, Hbr. rewrite <-Hbc, <-Hbr. apply (stretch_bound_bucket tenant r st _ b).
    + done.
    + split; [lia|exact Hrest].
    + exact Hb.
    + done.
    + lia.
Qed.

(** Buckets are isolated: a request changes no bucket but its tenant's; it
    is admitted exactly when the refilled balance covers its cost, in which
    case exactly the cost is deducted, and a refused request deducts nothing. *)
Theorem accept_with_config_exact now tenant cost cap rate l :
  let b := default (bucket_new cap rate now) (rl_buckets l !! tenant) in
  let '(ok, l') := accept_with_config now tenant cost cap rate l in
  (∀ t', t' ≠ tenant → rl_buckets l' !! t' = rl_buckets l !! t') ∧
  (ok = true ↔ cost <= tb_tokens (refill now b)) ∧
  rl_buckets l' !! tenant =
    Some (set_tokens (tb_tokens (refill now b) - (if ok then cost else 0)) (refill now b)).
Proof.
  rewrite accept_with_config_eq. cbv zeta. set (b := default _ _).
  generalize (refill now b). intros b'. simpl. split; [|split].
  - intros t' Hne. by rewrite lookup_insert_ne.
  - apply Z.leb_le.
  - apply lookup_insert_eq.
Qed.

(** * A starving bucket *)

(** Polls of one tenant at the given times. *)
Fixpoint polls (times : list Z) (b : TokenBucket) : TokenBucket :=
  match times with [] => b | t :: ts => polls ts (refill t b) end.

Fixpoint close_together (rate T : Z) (times : list Z) : Prop :=
  match times with
  | [] => True
  | t :: ts => T <= t ∧ (t - T) * rate < 1000000000 ∧ close_together rate t ts
  end.

(** Each refill restarts the interval even when it was too short to earn a whole
    token: a bucket polled often enough never refills, however long it waits. *)
Theorem frequent_polls_starve times b :
  bucket_ok b → close_together (tb_refill_per_sec b) (tb_last_refill_ns b) times →
  tb_tokens (polls times b) = tb_tokens b.
Proof.
  revert b. induction times as [|t ts IH]; intros b Hb Hc; [done|].
  destruct Hc as (Hle & Hlt & Hc). simpl.
  assert (Hr : tb_tokens (refill t b) = tb_tokens b).
  { destruct Hb as (Hcap & Hrt & Ht). unfold refill. simpl.
    unfold sat_sub. rewrite Z.max_l by lia.
    rewrite Z.div_small by (split; [apply Z.mul_nonneg_nonneg; u64_lia|lia]).
    rewrite wrap_small by u64_lia. u64_lia. }
  rewrite IH; [done|by apply refill_ok|]. done.
Qed.

(** * Witnesses *)

(** Tenant 2 is first on the limiter and its clock reading is the latest; the
    bound of tenant 1 over its last two requests. *)
Definition demo_before : list request := [mkRequest 9000000000 2 9 9 9; mkRequest 0 1 3 5 1].

Definition demo_stretch : list request :=
  [mkRequest 9000000000 2 1 9 9; mkRequest 5000000000 1 4 7 7; mkRequest 7000000000 1 3 5 1].

Lemma rate_limit_bound_witness :
  spent 1 (serve demo_stretch (serve demo_before (new 10 10)).2).1 <= 7 ∧
  spent 1 (serve demo_stretch (serve demo_before (new 10 10)).2).1 = 7.
Proof.
  split; [|vm_compute; reflexivity].
  refine (rate_limit_bound 1 demo_before demo_stretch 10 10 (mkRequest 0 1 3 5 1)
    [mkRequest 5000000000 1 4 7 7; mkRequest 7000000000 1 3 5 1] _ _).
  - reflexivity.
  - cbn. unfold uint. lia.
Defined.

Lemma frequent_polls_starve_witness :
  tb_tokens (polls [500000000; 1000000000; 1500000000; 2000000000]
    (set_tokens 0 (bucket_new 5 1 0))) = 0.
Proof.
  apply (frequent_polls_starve [500000000; 1000000000; 1500000000; 2000000000]
    (set_tokens 0 (bucket_new 5 1 0))).
  - unfold bucket_ok. simpl. u64_lia.
  - simpl. lia.
Defined.
