(* ===== verification/Text.v ===== *)
(** Text: the string functions of the Rust standard library that the sources
    use.

    A string is the list of its Unicode scalar values; bytes are its UTF-8
    encoding. Only what the parsers of the program call is here: lines,
    trimming, whitespace splitting, integer parsing and printing, hexadecimal. *)

From S2P Require Import Prelude.

(** * Characters *)

(** The [White_Space] property. *)
Definition is_whitespace (c : Z) : bool :=
  ((9 <=? c) && (c <=? 13)) || (c =? 32) || (c =? 133) || (c =? 160) || (c =? 5760) ||
  ((8192 <=? c) && (c <=? 8202)) || (c =? 8232) || (c =? 8233) || (c =? 8239) || (c =? 8287) ||
  (c =? 12288).

(** [u8::is_ascii_whitespace]: no vertical tab. *)
Definition is_ascii_whitespace (c : Z) : bool :=
  (c =? 9) || (c =? 10) || (c =? 12) || (c =? 13) || (c =? 32).

Definition is_digit (c : Z) : bool := (48 <=? c) && (c <=? 57).

(** An ASCII literal of the source. *)
Fixpoint chars (s : string) : list Z :=
  match s with
  | EmptyString => []
  | String a s => Z.of_N (Ascii.N_of_ascii a) :: chars s
  end.

(** * Paths *)

(** [Path::join] with a relative name. *)
Definition join (dir name : list Z) : list Z :=
  if decide (dir = [] ∨ last dir = Some 47) then dir ++ name else dir ++ 47 :: name.

(** * UTF-8 *)

Definition utf8_encode_char (c : Z) : list Z :=
  if c <? 128 then [c]
  else if c <? 2048 then [192 + c / 64; 128 + c mod 64]
  else if c <? 65536 then [224 + c / 4096; 128 + c / 64 mod 64; 128 + c mod 64]
  else [240 + c / 262144; 128 + c / 4096 mod 64; 128 + c / 64 mod 64; 128 + c mod 64].

(** [str::as_bytes] and [str::len]. *)
Definition as_bytes (s : list Z) : list Z := s ≫= utf8_encode_char.
Definition str_len (s : list Z) : Z := Z.of_nat (length (as_bytes s)).

Definition is_cont (b : Z) : bool := (128 <=? b) && (b <=? 191).

(** One character off the front of a byte string, as [str::from_utf8] accepts
    it: no overlong forms, no surrogates, nothing past U+10FFFF. *)
Definition utf8_decode_char (bs : list Z) : option (Z * list Z) :=
  match bs with
  | a :: bs =>
      if a <? 128 then Some (a, bs)
      else match bs with
      | b :: bs =>
          if (194 <=? a) && (a <=? 223) then
            if is_cont b then Some ((a - 192) * 64 + (b - 128), bs) else None
          else match bs with
          | c :: bs =>
              if (224 <=? a) && (a <=? 239) then
                let v := (a - 224) * 4096 + (b - 128) * 64 + (c - 128) in
                if is_cont b && is_cont c && (2048 <=? v) &&
                   negb ((55296 <=? v) && (v <=? 57343)) then Some (v, bs) else None
              else match bs with
              | d :: bs =>
                  let v := (a - 240) * 262144 + (b - 128) * 4096 + (c - 128) * 64 + (d - 128) in
                  if (240 <=? a) && (a <=? 244) && is_cont b && is_cont c && is_cont d &&
                     (65536 <=? v) && (v <=? 1114111) then Some (v, bs) else None
              | [] => None
              end
          | [] => None
          end
      | [] => None
      end
  | [] => None
  end.

(** [String::from_utf8]; the fuel is the number of bytes. *)
Fixpoint utf8_decode_fuel (fuel : nat) (bs : list Z) : option (list Z) :=
  match bs with
  | [] => Some []
  | _ =>
      match fuel with
      | O => None
      | S fuel =>
          p ← utf8_decode_char bs;
          s ← utf8_decode_fuel fuel p.2;
          Some (p.1 :: s)
      end
  end.

Definition from_utf8 (bs : list Z) : option (list Z) := utf8_decode_fuel (length bs) bs.

(** The second byte a lead byte allows. *)
Definition utf8_second_ok (a b : Z) : bool :=
  if a =? 224 then (160 <=? b) && (b <=? 191)
  else if a =? 237 then (128 <=? b) && (b <=? 159)
  else if a =? 240 then (144 <=? b) && (b <=? 191)
  else if a =? 244 then (128 <=? b) && (b <=? 143)
  else is_cont b.

(** Length of the longest valid beginning of a character at the front of a byte
    string that starts no whole character: what one replacement stands for. *)
Definition utf8_bad_len (bs : list Z) : nat :=
  match bs with
  | a :: b :: bs =>
      if negb ((224 <=? a) && (a <=? 244) && utf8_second_ok a b) then 1
      else if a <? 240 then 2
      else match bs with c :: _ => if is_cont c then 3 else 2 | [] => 2 end
  | _ => 1
  end.

(** [String::from_utf8_lossy]; the fuel is the number of bytes. *)
Fixpoint from_utf8_lossy_fuel (fuel : nat) (bs : list Z) : list Z :=
  match fuel, bs with
  | S fuel, _ :: _ =>
      match utf8_decode_char bs with
      | Some (c, rest) => c :: from_utf8_lossy_fuel fuel rest
      | None => 65533 :: from_utf8_lossy_fuel fuel (drop (utf8_bad_len bs) bs)
      end
  | _, _ => []
  end.

Definition from_utf8_lossy (bs : list Z) : list Z := from_utf8_lossy_fuel (length bs) bs.

(** * Lines and fields *)

(** [split_inclusive('\n')], with the terminator taken off: each piece and
    whether it was terminated. *)
Fixpoint split_lines (cur : list Z) (s : list Z) : list (list Z * bool) :=
  match s with
  | [] => match cur with [] => [] | _ => [(reverse cur, false)] end
  | c :: s => if c =? 10 then (reverse cur, true) :: split_lines [] s
              else split_lines (c :: cur) s
  end.

(** A terminated line also loses a carriage return before the terminator. *)
Definition strip_cr (p : list Z * bool) : list Z :=
  if p.2 then match reverse p.1 with
              | c :: r => if c =? 13 then reverse r else p.1
              | [] => p.1
              end
  else p.1.

(** [str::lines] (and, on bytes, the pieces [BufRead::lines] decodes). *)
Definition lines (s : list Z) : list (list Z) := strip_cr <$> split_lines [] s.

Fixpoint drop_while (p : Z → bool) (s : list Z) : list Z :=
  match s with
  | c :: s' => if p c then drop_while p s' else s
  | [] => []
  end.

(** [str::trim]. *)
Definition trim (s : list Z) : list Z :=
  reverse (drop_while is_whitespace (reverse (drop_while is_whitespace s))).

Definition starts_with (c : Z) (s : list Z) : bool :=
  match s with x :: _ => x =? c | [] => false end.

(** [split_whitespace] and [split_ascii_whitespace]: the maximal runs of
    characters that are not separators. *)
Fixpoint split_on (sep : Z → bool) (cur : list Z) (s : list Z) : list (list Z) :=
  match s with
  | [] => match cur with [] => [] | _ => [reverse cur] end
  | c :: s =>
      if sep c then match cur with [] => split_on sep [] s | _ => reverse cur :: split_on sep [] s end
      else split_on sep (c :: cur) s
  end.

Definition split_whitespace (s : list Z) : list (list Z) := split_on is_whitespace [] s.
Definition split_ascii_whitespace (s : list Z) : list (list Z) := split_on is_ascii_whitespace [] s.

(** * Arguments *)

(** The argument after the first occurrence of a flag. *)
Fixpoint arg_at (args : list (list Z)) (flag : list Z) : option (list Z) :=
  match args with
  | [] => None
  | a :: args => if decide (a = flag) then head args else arg_at args flag
  end.

(** [arg_or]: the value of a flag, or its default. *)
Definition arg_or (args : list (list Z)) (flag dflt : string) : list Z :=
  default (chars dflt) (arg_at args (chars flag)).

(** * Integers *)

(** Decimal digits accumulated under an upper bound, as [checked_mul] and
    [checked_add] do. *)
Fixpoint parse_digits (bound acc : Z) (s : list Z) : option Z :=
  match s with
  | [] => Some acc
  | c :: s =>
      if is_digit c then
        let acc' := acc * 10 + (c - 48) in
        if acc' <=? bound then parse_digits bound acc' s else None
      else None
  end.

(** [str::parse::<u64>]: an optional plus sign, at least one digit, in range. *)
Definition parse_uint (bound : Z) (s : list Z) : option Z :=
  let ds := match s with c :: ds => if c =? 43 then ds else s | [] => s end in
  match ds with [] => None | _ => parse_digits bound 0 ds end.

Definition parse_u64 (s : list Z) : option Z := parse_uint u64_max s.

(** [Display] for unsigned integers; twenty digits are enough for a [u64]. *)
Fixpoint show_digits (fuel : nat) (n : Z) (acc : list Z) : list Z :=
  match fuel with
  | O => acc
  | S fuel =>
      let acc := (48 + n mod 10) :: acc in
      if n / 10 =? 0 then acc else show_digits fuel (n / 10) acc
  end.

Definition show_u64 (n : Z) : list Z := show_digits 20 n [].

(** * Hexadecimal *)

(** Lowercase digits. *)
Definition hex_char (n : Z) : Z := if n <? 10 then 48 + n else 97 + n - 10.

(** Two digits per byte, as [{:02x}] prints them. *)
Definition hex_encode (bs : list Z) : list Z := bs ≫= λ b, [hex_char (b / 16); hex_char (b mod 16)].

(** * Lemmas *)

Lemma as_bytes_ascii s : Forall (λ c, 0 <= c < 128) s → as_bytes s = s.
Proof.
  unfold as_bytes. induction 1 as [|c s Hc Hs IH]; simpl; [done|].
  unfold utf8_encode_char at 1. rewrite (proj2 (Z.ltb_lt c 128)) by lia. simpl. by f_equal.
Qed.

Lemma from_utf8_ascii s : Forall (λ c, 0 <= c < 128) s → from_utf8 s = Some s.
Proof.
  unfold from_utf8. induction 1 as [|c s Hc Hs IH]; simpl; [done|].
  rewrite (proj2 (Z.ltb_lt c 128)) by lia. simpl. by rewrite IH.
Qed.

(** Fields printed with single spaces between them are split back. *)
Definition clean (sep : Z → bool) (f : list Z) : Prop := f ≠ [] ∧ Forall (λ c, sep c = false) f.

Lemma split_on_clean sep cur f s :
  Forall (λ c, sep c = false) f →
  split_on sep cur (f ++ s) = split_on sep (reverse f ++ cur) s.
Proof.
  intros Hf. revert cur. induction Hf as [|c f Hc Hf IH]; intros cur; simpl; [done|].
  rewrite Hc, IH, reverse_cons, <-app_assoc. done.
Qed.

Fixpoint join_space (fs : list (list Z)) : list Z :=
  match fs with
  | [] => []
  | [f] => f
  | f :: fs => f ++ 32 :: join_space fs
  end.

Lemma split_on_join sep fs :
  sep 32 = true → Forall (clean sep) fs → split_on sep [] (join_space fs) = fs.
Proof.
  intros Hsp Hfs. induction Hfs as [|f fs [Hne Hf] Hfs IH]; [done|].
  assert (Hrev : ∀ r, match reverse f with [] => r | _ => [reverse (reverse f)] ++ r end = [f] ++ r).
  { intros r. rewrite reverse_involutive. destruct (reverse f) eqn:E; [|done].
    apply (f_equal reverse) in E. rewrite reverse_involutive in E. done. }
  destruct fs as [|g fs].
  - simpl. rewrite <-(app_nil_r f) at 1. rewrite split_on_clean by done. rewrite app_nil_r. simpl.
    specialize (Hrev []). by destruct (reverse f).
  - change (join_space (f :: g :: fs)) with (f ++ 32 :: join_space (g :: fs)).
    rewrite split_on_clean by done. rewrite app_nil_r. cbn [split_on]. rewrite Hsp, IH. specialize (Hrev (g :: fs)). by destruct (reverse f).
Qed.

Lemma parse_digits_app bound acc s t :
  parse_digits bound acc (s ++ t) = (acc' ← parse_digits bound acc s; parse_digits bound acc' t).
Proof.
  revert acc. induction s as [|c s IH]; intros acc; simpl; [done|].
  destruct (is_digit c); [|done]. destruct (_ <=? bound); [apply IH|done].
Qed.

Lemma show_digits_acc fuel n acc : show_digits fuel n acc = show_digits fuel n [] ++ acc.
Proof.
  revert n acc. induction fuel as [|fuel IH]; intros n acc; simpl; [done|].
  destruct (n / 10 =? 0); [done|]. rewrite (IH _ (_ :: acc)), (IH _ [_]), <-app_assoc. done.
Qed.

Lemma is_digit_mod n : is_digit (48 + n mod 10) = true.
Proof.
  pose proof (Z.mod_pos_bound n 10). unfold is_digit. apply andb_true_iff. split; apply Z.leb_le; lia.
Qed.

Lemma show_digits_spec fuel n bound :
  0 <= n <= bound → n < 10 ^ Z.of_nat fuel →
  show_digits fuel n [] ≠ [] ∨ fuel = O →
  parse_digits bound 0 (show_digits fuel n []) = Some n.
Proof.
  revert n. induction fuel as [|fuel IH]; intros n Hn Hf Hne.
  - simpl in Hf. simpl. f_equal. lia.
  - simpl. pose proof (Z.div_mod n 10). pose proof (Z.mod_pos_bound n 10).
    destruct (Z.eqb_spec (n / 10) 0) as [Hz|Hz].
    + simpl. rewrite is_digit_mod, (proj2 (Z.leb_le _ _)) by lia. f_equal. lia.
    + rewrite show_digits_acc, parse_digits_app, IH.
      * simpl. rewrite is_digit_mod, (proj2 (Z.leb_le _ _)) by lia. f_equal. lia.
      * pose proof (Z.div_pos n 10). lia.
      * rewrite Nat2Z.inj_succ, Z.pow_succ_r in Hf by lia. apply Z.div_lt_upper_bound; lia.
      * destruct fuel; [by right|]. left. simpl. destruct (_ =? 0); [done|].
        rewrite show_digits_acc. intros [_ ?]%app_nil. done.
Qed.

Lemma show_digits_digits fuel n : Forall (λ c, is_digit c = true) (show_digits fuel n []).
Proof.
  revert n. induction fuel as [|fuel IH]; intros n; simpl; [constructor|].
  destruct (_ =? 0); [repeat constructor; apply is_digit_mod|].
  rewrite show_digits_acc. apply Forall_app. split; [apply IH|]. repeat constructor. apply is_digit_mod.
Qed.

Lemma show_digits_nonempty fuel n : show_digits (S fuel) n [] ≠ [].
Proof. simpl. destruct (_ =? 0); [done|]. rewrite show_digits_acc. by intros [_ ?]%app_nil. Qed.

Lemma show_u64_nonempty n : show_u64 n ≠ [].
Proof. apply (show_digits_nonempty 19). Qed.

(** Printing then parsing a [u64] gives it back. *)
Lemma parse_show_u64 n : uint 64 n → parse_u64 (show_u64 n) = Some n.
Proof.
  intros Hn. pose proof (show_digits_digits 20 n) as Hd. pose proof (show_u64_nonempty n) as Hne.
  unfold parse_u64, parse_uint. fold (show_u64 n) in Hd.
  assert (Hsp : parse_digits u64_max 0 (show_u64 n) = Some n).
  { apply show_digits_spec; [u64_lia|unfold uint in Hn; lia|by left]. }
  destruct (show_u64 n) as [|c ds] eqn:E; [done|].
  apply Forall_cons in Hd as [Hc _]. unfold is_digit in Hc. apply andb_true_iff in Hc as [Hc1 Hc2].
  zbool. by rewrite (proj2 (Z.eqb_neq c 43)) by lia.
Qed.

(** * Hexadecimal round trip *)

(** A decoder of hexadecimal digits that reads back what [hex_char] prints. *)
Definition decodes_hex (d : Z → option Z) : Prop := ∀ n, 0 <= n < 16 → d (hex_char n) = Some n.

(** Decoding pairs of digits, [(hi << 4) | lo]; a lone last digit is dropped as
    [chunks_exact] does. *)
Fixpoint hex_decode (d : Z → option Z) (s : list Z) : option (list Z) :=
  match s with
  | a :: b :: s =>
      hi ← d a; lo ← d b; rest ← hex_decode d s;
      Some (Z.lor (Z.shiftl hi 4) lo :: rest)
  | _ => Some []
  end.

Lemma nibbles_disjoint hi lo : 0 <= lo < 16 → Z.land (Z.shiftl hi 4) lo = 0.
Proof.
  intros Hlo. rewrite <-(Z.mod_small lo 16) by done. change 16 with (2 ^ 4).
  rewrite <-Z.land_ones by lia. apply Z.bits_inj'. intros i Hi.
  rewrite !Z.land_spec, Z.shiftl_spec, Z.bits_0 by lia.
  destruct (Z.lt_ge_cases i 4).
  - by rewrite (Z.testbit_neg_r _ (i - 4)) by lia.
  - rewrite Z.ones_spec_high by lia. by rewrite !andb_false_r.
Qed.

Lemma nibbles_lor hi lo : 0 <= lo < 16 → Z.lor (Z.shiftl hi 4) lo = hi * 16 + lo.
Proof.
  intros Hlo. pose proof (Z.add_lor_land (Z.shiftl hi 4) lo) as H.
  rewrite nibbles_disjoint in H by done. rewrite Z.shiftl_mul_pow2 in * by lia. lia.
Qed.

Lemma hex_roundtrip d bs :
  decodes_hex d → Forall (uint 8) bs → hex_decode d (hex_encode bs) = Some bs.
Proof.
  intros Hd. induction 1 as [|b bs Hb Hbs IH]; [done|].
  change (hex_encode (b :: bs)) with (hex_char (b / 16) :: hex_char (b mod 16) :: hex_encode bs).
  cbn [hex_decode].
  pose proof (Z.mod_pos_bound b 16). pose proof (Z.div_mod b 16). unfold uint in Hb.
  assert (0 <= b / 16 < 16) by lia. rewrite !Hd by lia. simpl.
  rewrite IH. simpl. rewrite nibbles_lor by lia. do 2 f_equal. lia.
Qed.

Lemma hex_encode_length bs : length (hex_encode bs) = (2 * length bs)%nat.
Proof.
  induction bs as [|b bs IH]; [done|].
  change (hex_encode (b :: bs)) with (hex_char (b / 16) :: hex_char (b mod 16) :: hex_encode bs).
  simpl length. lia.
Qed.

Lemma hex_char_range n : 0 <= n < 16 → 48 <= hex_char n <= 102.
Proof. unfold hex_char. destruct (Z.ltb_spec n 10); lia. Qed.

Lemma hex_encode_range bs :
  Forall (uint 8) bs → Forall (λ c, 48 <= c <= 102) (hex_encode bs).
Proof.
  induction 1 as [|b bs Hb Hbs IH]; [constructor|].
  change (hex_encode (b :: bs)) with (hex_char (b / 16) :: hex_char (b mod 16) :: hex_encode bs).
  pose proof (Z.mod_pos_bound b 16). pose proof (Z.div_mod b 16). unfold uint in Hb.
  constructor; [apply hex_char_range; lia|].
  constructor; [apply hex_char_range; lia|done].
Qed.

(** * Lines *)

Lemma split_lines_app cur a b :
  split_lines cur (a ++ 10 :: b) = split_lines cur (a ++ [10]) ++ split_lines [] b.
Proof.
  revert cur. induction a as [|c a IH]; intros cur; simpl; [done|].
  destruct (c =? 10); [by rewrite IH|apply IH].
Qed.

Lemma split_lines_plain cur l b :
  Forall (λ c, c ≠ 10) l → split_lines cur (l ++ 10 :: b) = (reverse cur ++ l, true) :: split_lines [] b.
Proof.
  intros Hl. revert cur. induction Hl as [|c l Hc Hl IH]; intros cur; simpl.
  - by rewrite app_nil_r.
  - rewrite (proj2 (Z.eqb_neq c 10)) by done. rewrite IH, reverse_cons, <-app_assoc. done.
Qed.

(** Terminating an unterminated last line changes no line. *)
Lemma split_lines_terminate cur a :
  (a = [] → cur ≠ []) → last a ≠ Some 10 →
  (split_lines cur (a ++ [10])).*1 = (split_lines cur a).*1.
Proof.
  revert cur. induction a as [|c a IH]; intros cur Hne Hl; simpl.
  - destruct cur; [by destruct Hne|done].
  - destruct (Z.eqb_spec c 10) as [->|Hc].
    + destruct a as [|d a]; [done|]. rewrite !fmap_cons. f_equal. apply IH; [done|]. done.
    + apply IH; [done|]. by destruct a.
Qed.

Lemma split_lines_no_newline cur s :
  Forall (λ c, c ≠ 10) cur → Forall (λ p : list Z * bool, Forall (λ c, c ≠ 10) p.1) (split_lines cur s).
Proof.
  revert cur. induction s as [|c s IH]; intros cur Hcur; simpl.
  - destruct cur; [constructor|]. constructor; [|constructor]. by apply Forall_reverse.
  - destruct (Z.eqb_spec c 10) as [->|Hc].
    + constructor; [by apply Forall_reverse|]. by apply IH.
    + apply IH. by constructor.
Qed.

(** * Trimming *)

Lemma drop_while_prefix p s : ∃ w, s = w ++ drop_while p s ∧ Forall (λ c, p c = true) w.
Proof.
  induction s as [|c s IH]; simpl; [by exists []|]. destruct (p c) eqn:E; [|by exists []].
  destruct IH as (w & Hs & Hw). exists (c :: w). simpl. split; [by f_equal|by constructor].
Qed.

Lemma drop_while_head p s c r : drop_while p s = c :: r → p c = false.
Proof.
  induction s as [|x s IH]; simpl; [done|]. destruct (p x) eqn:E; [done|]. by intros [= -> ->].
Qed.

Lemma drop_while_app p s w :
  Forall (λ c, p c = true) w → drop_while p (w ++ s) = drop_while p s.
Proof. induction 1 as [|c w Hc Hw IH]; simpl; [done|]. by rewrite Hc. Qed.

Lemma drop_while_id p c r : p c = false → drop_while p (c :: r) = c :: r.
Proof. simpl. by intros ->. Qed.

Lemma trim_snoc_ws s c : is_whitespace c = true → trim (s ++ [c]) = trim s.
Proof.
  intros Hc. unfold trim. induction s as [|x s IH].
  - simpl. by rewrite Hc.
  - simpl. destruct (is_whitespace x) eqn:E; [apply IH|].
    rewrite app_comm_cons, reverse_snoc. simpl. by rewrite Hc.
Qed.

Lemma trim_strip_cr p : trim (strip_cr p) = trim p.1.
Proof.
  destruct p as [l [|]]; [|done]. unfold strip_cr. simpl.
  destruct (reverse l) as [|c r] eqn:E; [done|].
  destruct (Z.eqb_spec c 13) as [->|]; [|done].
  assert (l = reverse r ++ [13]) as ->.
  { rewrite <-(reverse_involutive l), E, reverse_cons. done. }
  by rewrite trim_snoc_ws.
Qed.

Lemma trim_lines s : trim <$> lines s = trim <$> (split_lines [] s).*1.
Proof.
  unfold lines. rewrite <-!list_fmap_compose. apply list_fmap_ext. intros i p _. apply trim_strip_cr.
Qed.

(** Text that begins and ends with visible characters is its own trimming. *)
Lemma trim_id s :
  (∀ c, head s = Some c → is_whitespace c = false) →
  (∀ c, last s = Some c → is_whitespace c = false) → trim s = s.
Proof.
  intros Hh Hl. unfold trim. destruct s as [|c s]; [done|].
  rewrite drop_while_id by by apply Hh.
  destruct (reverse (c :: s)) as [|d r] eqn:E.
  - apply (f_equal reverse) in E. by rewrite reverse_involutive in E.
  - assert (Hd : last (c :: s) = Some d).
    { rewrite <-(reverse_involutive (c :: s)), E, reverse_cons. apply last_snoc. }
    rewrite drop_while_id by by apply Hl. by rewrite <-E, reverse_involutive.
Qed.

(** The trimmed text is what is left of [trim_start] without trailing space. *)
Lemma trim_decompose s :
  ∃ w, drop_while is_whitespace s = trim s ++ w ∧ Forall (λ c, is_whitespace c = true) w.
Proof.
  unfold trim. set (t := drop_while is_whitespace s).
  destruct (drop_while_prefix is_whitespace (reverse t)) as (w & Hw & Hall).
  exists (reverse w). split; [|by apply Forall_reverse].
  rewrite <-reverse_app, <-Hw. by rewrite reverse_involutive.
Qed.

Lemma trim_nil_iff s : trim s = [] ↔ drop_while is_whitespace s = [].
Proof.
  destruct (trim_decompose s) as (w & Hw & Hall). split; [|unfold trim; by intros ->].
  intros Ht. rewrite Ht in Hw. simpl in Hw. destruct (drop_while is_whitespace s) as [|c r] eqn:E; [done|].
  apply drop_while_head in E. rewrite <-Hw in Hall. apply Forall_cons in Hall as [? _]. congruence.
Qed.

(** The first field and what follows it. *)
Lemma split_on_first sep cur s :
  cur ≠ [] → ∃ tok rest fs, s = tok ++ rest ∧ split_on sep cur s = (reverse cur ++ tok) :: fs ∧
    Forall (λ c, sep c = false) tok ∧ (∀ c, head rest = Some c → sep c = true).
Proof.
  revert cur. induction s as [|c s IH]; intros cur Hcur; simpl.
  - exists [], [], []. rewrite (app_nil_r (reverse cur)). split; [done|]. split; [by destruct cur|]. split; [constructor|done].
  - destruct (sep c) eqn:E.
    + exists [], (c :: s), (split_on sep [] s). rewrite (app_nil_r (reverse cur)).
      split; [done|]. split; [by destruct cur|]. split; [constructor|]. simpl. by intros ? [= <-].
    + destruct (IH (c :: cur)) as (tok & rest & fs & -> & Hs & Ht & Hr); [done|].
      exists (c :: tok), rest, fs. split; [done|]. rewrite Hs, reverse_cons, <-app_assoc.
      split; [done|]. split; [by constructor|done].
Qed.

(** ** What parses has its width *)

Lemma parse_digits_bound bound acc s n : 0 <= acc <= bound → parse_digits bound acc s = Some n → 0 <= n <= bound.
Proof.
  revert acc. induction s as [|c s IH]; intros acc Hacc; cbn [parse_digits]; [by intros [= <-]|].
  destruct (is_digit c) eqn:Ed; [|done]. destruct (Z.leb_spec (acc * 10 + (c - 48)) bound); [|done].
  apply IH. unfold is_digit in Ed. zbool. lia.
Qed.

Lemma parse_u64_uint s n : parse_u64 s = Some n → uint 64 n.
Proof.
  unfold parse_u64, parse_uint. intros Hp.
  assert (∃ ds, parse_digits u64_max 0 ds = Some n) as [ds Hds].
  { destruct s as [|c s]; [done|]. destruct (c =? 43); [destruct s; [done|]|]; eauto. }
  apply parse_digits_bound in Hds; u64_lia.
Qed.

(** ** Separators *)

(** A word without [sep] ends where the first [sep] is. *)
Lemma app_sep_inj (sep : Z) a b x y :
  sep ∉ a → sep ∉ b → a ++ sep :: x = b ++ sep :: y → a = b ∧ x = y.
Proof.
  revert b. induction a as [|c a IH]; intros [|d b] Ha Hb; cbn [app].
  - by intros [= <-].
  - intros [= <- _]. by destruct Hb; left.
  - intros [= -> _]. by destruct Ha; left.
  - intros [= <- Heq]. rewrite not_elem_of_cons in Ha, Hb. destruct Ha as [_ Ha], Hb as [_ Hb].
    destruct (IH b Ha Hb Heq) as [-> ->]. done.
Qed.

Lemma show_u64_no_slash n : 47 ∉ show_u64 n.
Proof.
  intros Hin. pose proof (show_digits_digits 20 n) as Hd. rewrite Forall_forall in Hd. by specialize (Hd 47 Hin).
Qed.

Lemma show_u64_inj n m : uint 64 n → uint 64 m → show_u64 n = show_u64 m → n = m.
Proof. intros Hn Hm Heq. apply (f_equal parse_u64) in Heq. rewrite !parse_show_u64 in Heq by done. congruence. Qed.

(** ** UTF-8 is lossless *)

(** A Unicode scalar value, a Rust [char]. *)
Definition is_char (c : Z) : Prop := 0 <= c < 55296 ∨ 57344 <= c < 1114112.

#[export] Instance is_char_dec c : Decision (is_char c).
Proof. unfold is_char. apply _. Defined.

(** Decides the tests of the decoder on the bytes of a character. *)
Ltac utf8_tests :=
  repeat match goal with
  | |- context [?a <? ?b] => first [rewrite (proj2 (Z.ltb_lt a b)) by (Z.to_euclidean_division_equations; lia)
                                   |rewrite (proj2 (Z.ltb_ge a b)) by (Z.to_euclidean_division_equations; lia)]
  | |- context [?a <=? ?b] => first [rewrite (proj2 (Z.leb_le a b)) by (Z.to_euclidean_division_equations; lia)
                                    |rewrite (proj2 (Z.leb_gt a b)) by (Z.to_euclidean_division_equations; lia)]
  end.

Lemma utf8_decode_encode c bs : is_char c → utf8_decode_char (utf8_encode_char c ++ bs) = Some (c, bs).
Proof.
  unfold is_char. intros Hc. unfold utf8_encode_char.
  destruct (Z.ltb_spec c 128) as [H1|H1]; [cbn [app utf8_decode_char]; by utf8_tests|].
  destruct (Z.ltb_spec c 2048) as [H2|H2].
  { cbn [app utf8_decode_char]. unfold is_cont. utf8_tests. cbn [andb]. do 2 f_equal. Z.to_euclidean_division_equations; lia. }
  destruct (Z.ltb_spec c 65536) as [H3|H3].
  { cbn [app utf8_decode_char]. unfold is_cont.
    assert (Hv : (224 + c / 4096 - 224) * 4096 + (128 + c / 64 mod 64 - 128) * 64 + (128 + c mod 64 - 128) = c)
      by (Z.to_euclidean_division_equations; lia).
    rewrite Hv. assert (Hs : (55296 <=? c) && (c <=? 57343) = false) by (apply andb_false_iff; rewrite !Z.leb_gt; lia).
    rewrite Hs. utf8_tests. done. }
  cbn [app utf8_decode_char]. unfold is_cont.
  assert (Hv : (240 + c / 262144 - 240) * 262144 + (128 + c / 4096 mod 64 - 128) * 4096 + (128 + c / 64 mod 64 - 128) * 64 +
    (128 + c mod 64 - 128) = c) by (Z.to_euclidean_division_equations; lia).
  rewrite Hv. utf8_tests. done.
Qed.

Lemma utf8_encode_nonempty c : ∃ b bs, utf8_encode_char c = b :: bs.
Proof. unfold utf8_encode_char. repeat case_match; eauto. Qed.

Lemma utf8_decode_as_bytes s fuel :
  Forall is_char s → (length (as_bytes s) <= fuel)%nat → utf8_decode_fuel fuel (as_bytes s) = Some s.
Proof.
  intros Hs. revert fuel. induction Hs as [|c s Hc Hs IH]; intros fuel Hf; [by destruct fuel|].
  cbn [as_bytes mbind list_bind] in *. change (s ≫= utf8_encode_char) with (as_bytes s) in *.
  destruct (utf8_encode_nonempty c) as (b & bs & He). pose proof (utf8_decode_encode c (as_bytes s) Hc) as Hd.
  rewrite He in Hd, Hf |- *. cbn [app length] in Hf |- *. rewrite length_app in Hf.
  destruct fuel as [|fuel]; [lia|]. cbn [utf8_decode_fuel].
  cbn [app] in Hd. rewrite Hd. cbn [mbind option_bind snd fst]. by rewrite IH by lia.
Qed.

(** Text is recovered from its bytes. *)
Lemma from_utf8_as_bytes s : Forall is_char s → from_utf8 (as_bytes s) = Some s.
Proof. intros Hs. by apply utf8_decode_as_bytes. Qed.

Lemma utf8_decode_char_is_char bs c rest :
  Forall (uint 8) bs → utf8_decode_char bs = Some (c, rest) → is_char c ∧ Forall (uint 8) rest.
Proof.
  intros Hbs. unfold utf8_decode_char, is_cont, is_char. destruct bs as [|a bs]; [done|].
  apply Forall_cons in Hbs as [Ha Hbs]. unfold uint in Ha.
  destruct (Z.ltb_spec a 128); [intros [= <- <-]; split; [lia|done]|].
  destruct bs as [|b bs]; [done|]. apply Forall_cons in Hbs as [Hb Hbs].
  destruct ((194 <=? a) && (a <=? 223)) eqn:E1.
  { destruct ((128 <=? b) && (b <=? 191)) eqn:E2; [|done]. intros [= <- <-]. rewrite !andb_true_iff, !Z.leb_le in *. split; [lia|done]. }
  destruct bs as [|c3 bs]; [done|]. apply Forall_cons in Hbs as [Hc3 Hbs].
  destruct ((224 <=? a) && (a <=? 239)) eqn:E3.
  { case_match eqn:E4; [|done]. intros [= <- <-]. split; [|done].
    rewrite !andb_true_iff, negb_true_iff, andb_false_iff, !Z.leb_le, !Z.leb_gt in E4.
    rewrite andb_true_iff, !Z.leb_le in E3. lia. }
  destruct bs as [|d bs]; [done|]. apply Forall_cons in Hbs as [Hd Hbs].
  case_match eqn:E4; [|done]. intros [= <- <-]. split; [|done]. rewrite !andb_true_iff, !Z.leb_le in E4. lia.
Qed.

(** What decodes is text. *)
Lemma from_utf8_is_char bs s : Forall (uint 8) bs → from_utf8 bs = Some s → Forall is_char s.
Proof.
  unfold from_utf8. generalize (length bs). intros fuel. revert bs s.
  induction fuel as [|fuel IH]; intros bs s Hbs; destruct bs as [|b bs]; cbn [utf8_decode_fuel]; try (by intros [= <-]); try done.
  destruct (utf8_decode_char (b :: bs)) as [[c rest]|] eqn:Ed; [|done]. cbn [mbind option_bind fst snd].
  destruct (utf8_decode_char_is_char _ _ _ Hbs Ed) as [Hc Hrest].
  destruct (utf8_decode_fuel fuel rest) as [s'|] eqn:Es; [|done]. cbn [mbind option_bind]. intros [= <-].
  constructor; [done|]. by eapply IH.
Qed.

(** The bytes of a text. *)
Lemma as_bytes_u8 s : Forall is_char s → Forall (uint 8) (as_bytes s).
Proof.
  intros Hs. unfold as_bytes. apply Forall_bind. eapply Forall_impl; [exact Hs|]. intros c Hc. unfold is_char in Hc.
  unfold compose, utf8_encode_char, uint. destruct (Z.ltb_spec c 128); [|destruct (Z.ltb_spec c 2048); [|destruct (Z.ltb_spec c 65536)]];
    repeat (apply Forall_cons; split); try (Z.to_euclidean_division_equations; lia); constructor.
Qed.
