(* ===== verification/Tenant.v ===== *)
(** Tenant registry, its file format and the file edits of the admin tool
    (src/crates/cosaci-state/src/tenant.rs, and the tenant subcommands of
    src/bins/cosaci-admin/src/main.rs that rewrite the same file).

    A file is its text. The theorems show that adding and revoking a tenant in
    the file do to the loaded registry exactly what the commands say, for every
    file that loads. *)

From S2P Require Import Prelude Attestation Text.

Record TenantRecord := mkTenantRecord {
  tr_tenant_id : Z;
  tr_signing_fp : bytes;
  tr_rate_capacity : Z;
  tr_rate_refill_per_sec : Z;
  tr_registered_at_unix_ns : Z;
}.

Definition tenant_wf (r : TenantRecord) : Prop :=
  uint 64 (tr_tenant_id r) ∧ byte_array 32 (tr_signing_fp r) ∧ uint 64 (tr_rate_capacity r) ∧
  uint 64 (tr_rate_refill_per_sec r) ∧ uint 64 (tr_registered_at_unix_ns r).

#[export] Instance tenant_wf_dec r : Decision (tenant_wf r).
Proof. unfold tenant_wf. apply _. Defined.

Record TenantRegistry := mkTenantRegistry { by_id : gmap Z TenantRecord }.

(** The [io::ErrorKind]s, with the line number and the field at fault. *)
Inductive LoadError :=
| LoadError_AlreadyExists (id : Z)
| LoadError_InvalidData (lineno : nat) (what : string).

Definition new : TenantRegistry := mkTenantRegistry ∅.

Definition len (r : TenantRegistry) : nat := size (by_id r).

Definition is_empty (r : TenantRegistry) : bool := bool_decide (by_id r = ∅).

Definition insert (record : TenantRecord) (r : TenantRegistry) : result TenantRegistry LoadError :=
  match by_id r !! tr_tenant_id record with
  | Some _ => Err (LoadError_AlreadyExists (tr_tenant_id record))
  | None => Ok (mkTenantRegistry (<[tr_tenant_id record := record]> (by_id r)))
  end.

Definition get (tenant_id : Z) (r : TenantRegistry) : option TenantRecord := by_id r !! tenant_id.

Definition iter (r : TenantRegistry) : list TenantRecord :=
  stable_sort (λ a b, tr_tenant_id a <=? tr_tenant_id b) ((map_to_list (by_id r)).*2).

Definition fingerprint `{Sha256} (pubkey : bytes) : bytes := sha256 pubkey.

Definition fingerprint_hex (fp : bytes) : list Z := hex_encode fp.

(** [b'0'..=b'9'] and [b'a'..=b'f'] only. *)
Definition hex_nibble (b : Z) : option Z :=
  if (48 <=? b) && (b <=? 57) then Some (b - 48)
  else if (97 <=? b) && (b <=? 102) then Some (b - 97 + 10)
  else None.

Definition parse_hex32 (s : list Z) : option bytes :=
  if str_len s =? 64 then hex_decode hex_nibble (as_bytes s) else None.

(** [ok_or_else] on an option. *)
Definition or_invalid {A} (lineno : nat) (what : string) (o : option A) : result A LoadError :=
  match o with Some a => Ok a | None => Err (LoadError_InvalidData lineno what) end.

(** [next_field]: the head of the remaining fields. *)
Definition next_field (it : list (list Z)) (lineno : nat) (name : string) :
    result (list Z * list (list Z)) LoadError :=
  match it with
  | f :: it => Ok (f, it)
  | [] => Err (LoadError_InvalidData lineno ("missing field: " +:+ name))
  end.

Definition parse_line (lineno : nat) (line : list Z) : result TenantRecord LoadError :=
  p1 ←? next_field (split_ascii_whitespace line) lineno "tenant_id";
  p2 ←? next_field p1.2 lineno "signing_fp_hex";
  p3 ←? next_field p2.2 lineno "rate_capacity";
  p4 ←? next_field p3.2 lineno "rate_refill_per_sec";
  p5 ←? next_field p4.2 lineno "registered_at_unix_ns";
  match p5.2 with
  | _ :: _ => Err (LoadError_InvalidData lineno "trailing fields after registered_at_unix_ns")
  | [] =>
      tenant_id ←? or_invalid lineno "tenant_id not a u64" (parse_u64 p1.1);
      signing_fp ←? or_invalid lineno "signing_fp_hex not 64 lowercase-hex chars" (parse_hex32 p2.1);
      rate_capacity ←? or_invalid lineno "rate_capacity not a u64" (parse_u64 p3.1);
      rate_refill ←? or_invalid lineno "rate_refill_per_sec not a u64" (parse_u64 p4.1);
      registered ←? or_invalid lineno "registered_at_unix_ns not a u64" (parse_u64 p5.1);
      Ok (mkTenantRecord tenant_id signing_fp rate_capacity rate_refill registered)
  end.

(** A trimmed line that is blank or a comment. *)
Definition skipped (trimmed : list Z) : bool :=
  match trimmed with [] => true | _ => starts_with 35 trimmed end.

(** The loop of [load_from_path]; [lineno] counts from zero. *)
Fixpoint load_lines (lineno : nat) (ls : list (list Z)) (reg : TenantRegistry) :
    result TenantRegistry LoadError :=
  match ls with
  | [] => Ok reg
  | line :: ls =>
      let trimmed := trim line in
      if skipped trimmed then load_lines (S lineno) ls reg
      else
        record ←? parse_line (lineno + 1) trimmed;
        reg ←? insert record reg;
        load_lines (S lineno) ls reg
  end.

(** [load_from_path], the file read as [text]. *)
Definition load (text : list Z) : result TenantRegistry LoadError := load_lines 0 (lines text) new.

(** * The admin tool's edits *)

(** The line [tenants_add] writes. *)
Definition tenant_line (r : TenantRecord) : list Z :=
  join_space [show_u64 (tr_tenant_id r); fingerprint_hex (tr_signing_fp r);
    show_u64 (tr_rate_capacity r); show_u64 (tr_rate_refill_per_sec r);
    show_u64 (tr_registered_at_unix_ns r)].

(** [append_atomic] on the content of the file. *)
Definition append_line (existing line : list Z) : list Z :=
  let c := match last existing with
           | Some ch => if ch =? 10 then existing else existing ++ [10]
           | None => existing
           end in
  c ++ line ++ [10].

Inductive AdminError :=
| AdminError_Load (e : LoadError)
| AdminError_AlreadyRegistered
| AdminError_NotFound.

(** [tenants_add] on the file, once its flags are parsed. *)
Definition tenants_add (record : TenantRecord) (text : list Z) : result (list Z) AdminError :=
  existing ←? map_err AdminError_Load (load text);
  match get (tr_tenant_id record) existing with
  | Some _ => Err AdminError_AlreadyRegistered
  | None => Ok (append_line text (tenant_line record))
  end.

(** Whether [tenants_revoke] drops a line. *)
Definition revoked_line (tenant_id : Z) (line : list Z) : bool :=
  let trimmed := drop_while is_whitespace line in
  if skipped trimmed then false
  else match parse_u64 (default [] (head (split_whitespace trimmed))) with
       | Some id => id =? tenant_id
       | None => false
       end.

(** [tenants_revoke] on the content of an existing file. *)
Definition tenants_revoke (tenant_id : Z) (text : list Z) : result (list Z) AdminError :=
  let out := concat ((λ l, l ++ [10]) <$> filter (λ l, revoked_line tenant_id l = false) (lines text)) in
  if existsb (revoked_line tenant_id) (lines text) then Ok out else Err AdminError_NotFound.

(** * Lemmas *)

Lemma hex_nibble_decodes : decodes_hex hex_nibble.
Proof.
  intros n Hn. unfold hex_nibble, hex_char. destruct (Z.ltb_spec n 10).
  - rewrite (proj2 (Z.leb_le 48 _)), (proj2 (Z.leb_le _ 57)) by lia. simpl. f_equal. lia.
  - rewrite (proj2 (Z.leb_gt (97 + n - 10) 57)), andb_false_r by lia.
    rewrite (proj2 (Z.leb_le 97 _)), (proj2 (Z.leb_le _ 102)) by lia. simpl. f_equal. lia.
Qed.

(** [parse_hex32] reads back every fingerprint [fingerprint_hex] prints. *)
Lemma parse_hex32_roundtrip fp : byte_array 32 fp → parse_hex32 (fingerprint_hex fp) = Some fp.
Proof.
  intros [Hl Hb]. unfold parse_hex32, str_len, fingerprint_hex.
  assert (Hr := hex_encode_range fp Hb).
  rewrite as_bytes_ascii by (eapply Forall_impl; [exact Hr|]; simpl; lia).
  rewrite hex_encode_length, Hl. simpl. by apply hex_roundtrip; [apply hex_nibble_decodes|].
Qed.

Lemma ascii_ws_range c : 33 <= c <= 132 → is_ascii_whitespace c = false ∧ is_whitespace c = false.
Proof.
  intros Hc. unfold is_ascii_whitespace, is_whitespace.
  repeat match goal with
  | |- context [?x =? ?y] => rewrite (proj2 (Z.eqb_neq x y)) by lia
  | |- context [c <=? ?y] => first [rewrite (proj2 (Z.leb_gt c y)) by lia|rewrite (proj2 (Z.leb_le c y)) by lia]
  | |- context [?y <=? c] => first [rewrite (proj2 (Z.leb_gt y c)) by lia|rewrite (proj2 (Z.leb_le y c)) by lia]
  end. done.
Qed.

Lemma digit_range c : is_digit c = true → 48 <= c <= 57.
Proof. unfold is_digit. rewrite andb_true_iff, !Z.leb_le. lia. Qed.

Lemma show_u64_clean n : clean is_ascii_whitespace (show_u64 n).
Proof.
  split; [apply show_u64_nonempty|]. eapply Forall_impl; [apply show_digits_digits|].
  intros c Hc%digit_range. apply ascii_ws_range. lia.
Qed.

Lemma fingerprint_hex_clean fp :
  byte_array 32 fp → clean is_ascii_whitespace (fingerprint_hex fp).
Proof.
  intros [Hl Hb]. split.
  - intros Hnil%(f_equal length). unfold fingerprint_hex in Hnil.
    rewrite hex_encode_length, Hl in Hnil. done.
  - eapply Forall_impl; [by apply hex_encode_range|]. intros c Hc. apply ascii_ws_range. simpl in Hc. lia.
Qed.

(** The line written for a record parses to that record. *)
Lemma parse_tenant_line n r : tenant_wf r → parse_line n (tenant_line r) = Ok r.
Proof.
  intros (Hid & Hfp & Hcap & Hrf & Hat). unfold parse_line, tenant_line, split_ascii_whitespace.
  rewrite split_on_join; [|done|].
  2:{ repeat (apply Forall_cons; split); try apply show_u64_clean; [by apply fingerprint_hex_clean|constructor]. }
  cbn [next_field fst snd]. rewrite !parse_show_u64, parse_hex32_roundtrip by done. simpl.
  by destruct r.
Qed.

(** The visible range every character of a rendered line lies in. *)
Lemma tenant_line_visible r :
  tenant_wf r → Forall (λ c, 32 <= c <= 102) (tenant_line r).
Proof.
  intros (_ & [_ Hb] & _). unfold tenant_line, join_space.
  assert (Hs : ∀ n, Forall (λ c, 32 <= c <= 102) (show_u64 n)).
  { intros n. eapply Forall_impl; [apply show_digits_digits|]. intros c Hc%digit_range. lia. }
  assert (Hh : Forall (λ c, 32 <= c <= 102) (fingerprint_hex (tr_signing_fp r))).
  { eapply Forall_impl; [by apply hex_encode_range|]. simpl. lia. }
  repeat (apply Forall_app; split; [done|]; apply Forall_cons; split; [lia|]). done.
Qed.

Lemma show_u64_ends n :
  (∃ c s, show_u64 n = c :: s ∧ 48 <= c <= 57) ∧ (∃ c s, show_u64 n = s ++ [c] ∧ 48 <= c <= 57).
Proof.
  pose proof (show_u64_nonempty n) as Hne. pose proof (show_digits_digits 20 n) as Hd.
  fold (show_u64 n) in Hd. split.
  - destruct (show_u64 n) as [|c s]; [done|]. apply Forall_cons in Hd as [Hc _].
    exists c, s. split; [done|]. by apply digit_range.
  - destruct (show_u64 n) as [|c s _] using rev_ind; [done|]. apply Forall_app in Hd as [_ Hc].
    apply Forall_cons in Hc as [Hc _]. exists c, s. split; [done|]. by apply digit_range.
Qed.

Lemma tenant_line_trim r : trim (tenant_line r) = tenant_line r ∧ skipped (tenant_line r) = false.
Proof.
  destruct (show_u64_ends (tr_tenant_id r)) as [(c & s & Hc & Hr) _].
  destruct (show_u64_ends (tr_registered_at_unix_ns r)) as [_ (d & t & Hd & Hr')].
  assert (Hh : ∃ x, tenant_line r = c :: x).
  { unfold tenant_line, join_space. rewrite Hc. by eexists. }
  assert (Hl : last (tenant_line r) = Some d).
  { unfold tenant_line, join_space. rewrite Hd, last_app, last_cons, last_app, last_cons, last_app,
      last_cons, last_app, last_cons, last_snoc. done. }
  destruct Hh as (x & Hx). split.
  - apply trim_id.
    + rewrite Hx. simpl. intros ? [= <-]. apply ascii_ws_range. lia.
    + rewrite Hl. intros ? [= <-]. apply ascii_ws_range. lia.
  - rewrite Hx. simpl. apply Z.eqb_neq. lia.
Qed.

(** ** Loading *)

Lemma parse_line_lineno n m l r : parse_line n l = Ok r → parse_line m l = Ok r.
Proof.
  unfold parse_line. destruct (split_ascii_whitespace l) as [|f1 [|f2 [|f3 [|f4 [|f5 [|]]]]]]; try done.
  cbn [next_field fst snd]. destruct (parse_u64 f1); [|done]. destruct (parse_hex32 f2); [|done].
  destruct (parse_u64 f3); [|done]. destruct (parse_u64 f4); [|done]. by destruct (parse_u64 f5).
Qed.

(** Loading looks at lines only through their trimming. *)
Lemma load_lines_ext n ls ls' reg :
  trim <$> ls = trim <$> ls' → load_lines n ls reg = load_lines n ls' reg.
Proof.
  revert n ls' reg. induction ls as [|l ls IH]; intros n [|l' ls'] reg Heq; try done.
  rewrite !fmap_cons in Heq. injection Heq as Hl Hls. simpl. rewrite Hl.
  destruct (skipped (trim l')); [by apply IH|]. destruct (parse_line _ _); [|done].
  destruct (insert _ _); [by apply IH|done].
Qed.

Lemma load_lines_lineno n m ls reg reg' :
  load_lines n ls reg = Ok reg' → load_lines m ls reg = Ok reg'.
Proof.
  revert n m reg. induction ls as [|l ls IH]; intros n m reg; simpl; [done|].
  destruct (skipped (trim l)); [apply IH|].
  destruct (parse_line (n + 1) (trim l)) as [r|] eqn:E; [|done].
  rewrite (parse_line_lineno _ (m + 1) _ _ E). destruct (insert r reg); [apply IH|done].
Qed.

Lemma load_lines_app n ls ls' reg :
  load_lines n (ls ++ ls') reg =
  (reg ←? load_lines n ls reg; load_lines (n + length ls) ls' reg).
Proof.
  revert n reg. induction ls as [|l ls IH]; intros n reg; simpl; [by rewrite Nat.add_0_r|].
  replace (n + S (length ls))%nat with (S n + length ls)%nat by lia.
  destruct (skipped (trim l)); [apply IH|]. destruct (parse_line _ _); [|done].
  destruct (insert _ _); [apply IH|done].
Qed.

(** Appending a line to a file adds one line at its end. *)
Lemma trim_lines_append text line :
  Forall (λ c, c ≠ 10) line →
  trim <$> lines (append_line text line) = (trim <$> lines text) ++ [trim line].
Proof.
  intros Hline. rewrite !trim_lines. unfold append_line.
  assert (Hend : ∀ a, split_lines [] (a ++ 10 :: line ++ [10]) =
    split_lines [] (a ++ [10]) ++ [(line, true)]).
  { intros a. rewrite split_lines_app. f_equal. rewrite split_lines_plain by done. done. }
  destruct text as [|c text _] using rev_ind.
  - simpl. rewrite split_lines_plain by done. done.
  - rewrite last_snoc. destruct (Z.eqb_spec c 10) as [->|Hc].
    + rewrite <-app_assoc. simpl. rewrite Hend, !fmap_app. done.
    + rewrite <-app_assoc. change ([10] ++ line ++ [10]) with (10 :: line ++ [10]).
      rewrite Hend, !fmap_app. rewrite split_lines_terminate; [done| |].
      * intros Hn. by apply app_nil in Hn as [_ ?].
      * rewrite last_snoc. congruence.
Qed.

(** Adding a tenant to any registry file that loads, under an id it does not
    have, yields a file that loads, to the old registry with exactly that
    record added; adding a present id is refused. *)
Theorem tenants_add_loads text reg r :
  tenant_wf r → load text = Ok reg →
  match tenants_add r text with
  | Ok text' => get (tr_tenant_id r) reg = None ∧
      load text' = Ok (mkTenantRegistry (<[tr_tenant_id r := r]> (by_id reg)))
  | Err e => e = AdminError_AlreadyRegistered ∧ is_Some (get (tr_tenant_id r) reg)
  end.
Proof.
  intros Hwf Hl. unfold tenants_add. rewrite Hl. cbn [map_err].
  destruct (get (tr_tenant_id r) reg) as [x|] eqn:Hg; [split; [done|by eexists]|]. split; [done|].
  unfold load. destruct (tenant_line_trim r) as [Htrim Hskip].
  rewrite (load_lines_ext 0 _ (lines text ++ [tenant_line r])).
  - rewrite load_lines_app. unfold load in Hl. rewrite Hl. cbn [load_lines].
    rewrite Htrim, Hskip, parse_tenant_line by done. unfold insert. unfold get in Hg. by rewrite Hg.
  - rewrite fmap_app. apply trim_lines_append.
    eapply Forall_impl; [by apply tenant_line_visible|]. simpl. lia.
Qed.

(** ** Revoking *)

Lemma parse_u64_visible s n : parse_u64 s = Some n → s ≠ [] ∧ Forall (λ c, 43 <= c <= 57) s.
Proof.
  assert (Hd : ∀ b acc s n, parse_digits b acc s = Some n → Forall (λ c, 43 <= c <= 57) s).
  { clear. intros b acc s. revert acc. induction s as [|c s IH]; intros acc n; simpl; [done|].
    destruct (is_digit c) eqn:E; [|done]. apply digit_range in E. destruct (_ <=? b); [|done].
    intros Hs. constructor; [lia|eauto]. }
  unfold parse_u64, parse_uint. destruct s as [|c s]; [done|]. intros Hp. split; [done|].
  destruct (Z.eqb_spec c 43) as [->|Hc].
  - destruct s as [|d s]; [done|]. constructor; [lia|eauto].
  - eauto.
Qed.

Lemma is_ascii_ws_ws c : is_ascii_whitespace c = true → is_whitespace c = true.
Proof.
  unfold is_ascii_whitespace. rewrite !orb_true_iff, !Z.eqb_eq. intros Hc.
  destruct Hc as [[[[-> | ->]| ->]| ->]| ->]; done.
Qed.

Lemma skipped_trim l : skipped (drop_while is_whitespace l) = skipped (trim l).
Proof.
  destruct (trim_decompose l) as (w & Hw & _). pose proof (trim_nil_iff l) as Hn.
  destruct (trim l) as [|c t] eqn:Et.
  - by rewrite (proj1 Hn eq_refl).
  - rewrite Hw. done.
Qed.

(** On a trimmed text that starts with a visible field, both ways of splitting
    find the same first field. *)
Lemma first_field_agrees l f fs n :
  split_ascii_whitespace (trim l) = f :: fs → parse_u64 f = Some n →
  head (split_whitespace (drop_while is_whitespace l)) = Some f.
Proof.
  intros Hf Hp. destruct (parse_u64_visible f n Hp) as [Hne Hvis].
  destruct (trim_decompose l) as (w & Hw & Hall).
  destruct (trim l) as [|c t] eqn:Et; [done|].
  assert (Hc : is_whitespace c = false) by (rewrite <-app_comm_cons in Hw; by apply drop_while_head in Hw).
  assert (Hca : is_ascii_whitespace c = false).
  { destruct (is_ascii_whitespace c) eqn:E; [|done]. apply is_ascii_ws_ws in E. congruence. }
  unfold split_ascii_whitespace in Hf. simpl in Hf. rewrite Hca in Hf.
  destruct (split_on_first is_ascii_whitespace [c] t) as (tok & rest & fs' & Ht & Hs & _ & Hr); [done|].
  rewrite Hs in Hf. simpl in Hf. injection Hf as <- <-.
  rewrite Hw. unfold split_whitespace. subst t.
  assert (Htok : Forall (λ c, is_whitespace c = false) tok).
  { apply Forall_cons in Hvis as [_ Hvis]. eapply Forall_impl; [exact Hvis|].
    intros x Hx. apply ascii_ws_range. simpl in Hx. lia. }
  simpl. rewrite Hc, <-app_assoc, split_on_clean by done.
  assert (Hrev : reverse (reverse tok ++ [c]) = c :: tok)
    by (rewrite reverse_app, reverse_involutive; done).
  destruct (rest ++ w) as [|x k] eqn:Ek; simpl.
  - rewrite Hrev. by destruct (reverse tok).
  - assert (is_whitespace x = true) as ->.
    { destruct rest as [|y rest]; simplify_eq/=; [by apply Forall_cons in Hall as [? _]|].
      apply is_ascii_ws_ws. by apply Hr. }
    rewrite Hrev. by destruct (reverse tok).
Qed.

(** The lines dropped are exactly those of records with that id. *)
Lemma revoked_line_record n l r id :
  skipped (trim l) = false → parse_line n (trim l) = Ok r →
  revoked_line id l = (tr_tenant_id r =? id).
Proof.
  intros Hsk Hp. unfold revoked_line. rewrite skipped_trim, Hsk. unfold parse_line in Hp.
  destruct (split_ascii_whitespace (trim l)) as [|f1 [|f2 [|f3 [|f4 [|f5 [|]]]]]] eqn:Ef; try done.
  cbn [next_field fst snd] in Hp. destruct (parse_u64 f1) as [i|] eqn:E1; [|done].
  rewrite (first_field_agrees l f1 _ i Ef E1). simpl. rewrite E1.
  destruct (parse_hex32 f2); [|done]. destruct (parse_u64 f3); [|done].
  destruct (parse_u64 f4); [|done]. destruct (parse_u64 f5); [|done]. by injection Hp as <-.
Qed.

Definition without (id : Z) (reg : TenantRegistry) : TenantRegistry :=
  mkTenantRegistry (delete id (by_id reg)).

Lemma load_lines_revoke n m ls reg reg' id :
  load_lines n ls reg = Ok reg' →
  load_lines m (filter (λ l, revoked_line id l = false) ls) (without id reg) = Ok (without id reg').
Proof.
  revert n m reg. induction ls as [|l ls IH]; intros n m reg; cbn [load_lines].
  { by intros [= ->]. }
  destruct (skipped (trim l)) eqn:Hsk.
  - intros Hl. rewrite filter_cons_True by (unfold revoked_line; by rewrite skipped_trim, Hsk).
    cbn [load_lines]. rewrite Hsk. by apply (IH (S n)).
  - destruct (parse_line (n + 1) (trim l)) as [r|] eqn:Hp; [|done].
    unfold insert at 1. destruct (by_id reg !! tr_tenant_id r) eqn:Hr; [done|]. intros Hl.
    pose proof (revoked_line_record _ l r id Hsk Hp) as Hrev.
    destruct (Z.eqb_spec (tr_tenant_id r) id) as [<-|Hne].
    + rewrite filter_cons_False by congruence.
      replace (without (tr_tenant_id r) reg) with
        (without (tr_tenant_id r) (mkTenantRegistry (<[tr_tenant_id r := r]> (by_id reg)))).
      { by apply (IH (S n)). }
      unfold without. simpl. by rewrite delete_insert_eq.
    + rewrite filter_cons_True by done. cbn [load_lines].
      rewrite Hsk, (parse_line_lineno _ (m + 1) _ _ Hp). unfold insert. simpl.
      rewrite lookup_delete_ne, Hr by done.
      specialize (IH (S n) (S m) _ Hl). unfold without in *. simpl in *.
      by rewrite <-delete_insert_ne by done.
Qed.

(** Rewriting lines one per line keeps them. *)
Lemma split_lines_concat ls :
  Forall (Forall (λ c, c ≠ 10)) ls →
  (split_lines [] (concat ((λ l, l ++ [10]) <$> ls))).*1 = ls.
Proof.
  induction 1 as [|l ls Hl Hls IH]; [done|]. simpl.
  rewrite <-app_assoc. simpl. rewrite split_lines_plain by done. simpl. by f_equal.
Qed.

Lemma lines_no_newline text : Forall (Forall (λ c, c ≠ 10)) (lines text).
Proof.
  unfold lines. apply Forall_fmap. eapply Forall_impl; [by apply split_lines_no_newline|].
  intros [l b] Hl. simpl in *. unfold strip_cr. simpl. destruct b; [|done].
  destruct (reverse l) as [|c r] eqn:E; [done|]. destruct (c =? 13); [|done].
  apply Forall_reverse. apply Forall_reverse in Hl. rewrite E in Hl. by apply Forall_cons in Hl as [_ ?].
Qed.

(** In a file that loads, some line is dropped iff the tenant is registered. *)
Lemma revoked_exists n ls reg reg' id :
  load_lines n ls reg = Ok reg' → by_id reg !! id = None →
  existsb (revoked_line id) ls = true ↔ is_Some (by_id reg' !! id).
Proof.
  revert n reg. induction ls as [|l ls IH]; intros n reg; cbn [load_lines existsb].
  { intros [= ->] ->. split; [done|by intros []]. }
  destruct (skipped (trim l)) eqn:Hsk.
  - intros Hl Hn. unfold revoked_line at 1. rewrite skipped_trim, Hsk. by apply (IH (S n) reg).
  - destruct (parse_line (n + 1) (trim l)) as [r|] eqn:Hp; [|done].
    unfold insert. destruct (by_id reg !! tr_tenant_id r) eqn:Hr; [done|]. intros Hl Hn.
    rewrite (revoked_line_record _ l r id Hsk Hp).
    destruct (Z.eqb_spec (tr_tenant_id r) id) as [<-|Hne]; simpl.
    + split; [intros _|done]. exists r. clear -Hl.
      assert (Hkeep : ∀ n ls reg reg' i x, load_lines n ls reg = Ok reg' → by_id reg !! i = Some x →
        by_id reg' !! i = Some x).
      { clear. intros n ls. revert n. induction ls as [|l ls IH]; intros n reg reg' i x; cbn [load_lines].
        - by intros [= ->].
        - destruct (skipped (trim l)); [apply IH|]. destruct (parse_line _ _) as [r|]; [|done].
          unfold insert. destruct (by_id reg !! tr_tenant_id r) eqn:Hr; [done|]. intros Hl Hi.
          eapply IH; [exact Hl|]. simpl. rewrite lookup_insert_ne; [done|]. congruence. }
      eapply Hkeep; [exact Hl|]. apply lookup_insert_eq.
    + apply (IH (S n) _ Hl). simpl. by rewrite lookup_insert_ne.
Qed.

(** Revoking a tenant from any registry file that loads succeeds exactly
    when the tenant is registered, and the rewritten file loads to the old
    registry without it; comments and other records survive. *)
Theorem tenants_revoke_loads text reg id :
  load text = Ok reg →
  match tenants_revoke id text with
  | Ok text' => is_Some (get id reg) ∧ load text' = Ok (mkTenantRegistry (delete id (by_id reg)))
  | Err e => e = AdminError_NotFound ∧ get id reg = None
  end.
Proof.
  intros Hl. unfold load in Hl. unfold tenants_revoke.
  pose proof (revoked_exists 0 (lines text) new reg id Hl (lookup_empty _)) as Hex. unfold get.
  destruct (existsb _ _).
  - split; [by apply Hex|]. unfold load.
    set (kept := filter _ (lines text)).
    rewrite (load_lines_ext 0 _ kept).
    + assert (new = without id new) as -> by (unfold without; simpl; by rewrite delete_empty).
      by apply (load_lines_revoke 0).
    + rewrite trim_lines, split_lines_concat; [done|].
      apply Forall_forall. intros l [_ Hin]%list_elem_of_filter.
      pose proof (lines_no_newline text) as Hn. rewrite Forall_forall in Hn. by apply Hn.
  - split; [done|]. apply eq_None_not_Some. intros Hs. by apply Hex in Hs.
Qed.

(** * Witnesses *)

Definition demo_tenant : TenantRecord := mkTenantRecord 7 (replicate 32 171) 100 10 1700000000.

(** ["# t
"]. *)
Definition demo_file : list Z := [35; 32; 116; 10].

Lemma tenants_add_loads_witness :
  load (append_line demo_file (tenant_line demo_tenant)) =
    Ok (mkTenantRegistry {[7 := demo_tenant]}).
Proof.
  destruct (tenants_add demo_tenant demo_file) as [t|e] eqn:E.
  - pose proof (tenants_add_loads demo_file new demo_tenant ltac:(by_decide) eq_refl) as H.
    rewrite E in H. destruct H as [_ H].
    unfold tenants_add in E. simpl in E. injection E as <-. exact H.
  - exfalso. vm_compute in E. discriminate E.
Defined.

Definition demo_registry : TenantRegistry := mkTenantRegistry (<[7 := demo_tenant]> ∅).

Lemma tenants_revoke_loads_witness :
  ∃ t, tenants_revoke 7 (append_line demo_file (tenant_line demo_tenant)) = Ok t ∧ load t = Ok new.
Proof.
  pose proof (tenants_revoke_loads (append_line demo_file (tenant_line demo_tenant))
    demo_registry 7 ltac:(vm_compute; reflexivity)) as H.
  destruct (tenants_revoke 7 _) as [t|e] eqn:E; [|exfalso; vm_compute in E; discriminate E].
  exists t. split; [reflexivity|]. destruct H as [_ H]. exact H.
Defined.
