(* ===== verification/SubmissionAuth.v ===== *)
(** Submission authentication
    (src/crates/cosaci-state/src/submission_auth.rs).

    The four-stage gate in front of the job queue: tenant lookup, signature,
    replay, rate. It threads the replay guard and the rate limiter; their three
    clock readings are arguments. Both payload shapes go through the same
    stages, so the stages are one definition over the signed bytes. *)

From S2P Require Import Prelude Attestation Replay RateLimit Tenant.

Record JobSubmissionPayload := mkJobSubmissionPayload {
  js_tenant_id : Z;
  js_kind : string;
  js_a : Z;
  js_b : Z;
  js_deadline_secs : Z;
  js_nonce : Z;
}.

Record PipelineSubmissionPayload := mkPipelineSubmissionPayload {
  ps_tenant_id : Z;
  ps_pipeline_cbor : bytes;
  ps_deadline_secs : Z;
  ps_nonce : Z;
}.

(** ciborium's encoders for the two payloads. *)
Class SubmissionCbor := {
  encode_job : JobSubmissionPayload → option bytes;
  encode_pipeline : PipelineSubmissionPayload → option bytes;
}.

Inductive AuthCheck :=
| AuthCheck_Ok
| AuthCheck_UnknownTenant
| AuthCheck_BadSignature
| AuthCheck_RateLimited
| AuthCheck_ReplayDetected.

#[export] Instance AuthCheck_eq_dec : EqDecision AuthCheck.
Proof. solve_decision. Defined.

(** The clock readings of one call: two in the replay guard, one in the
    limiter. *)
Record readings := mkReadings { rd_sweep : Z; rd_now : Z; rd_limiter : Z }.

(** The state the gate threads. *)
Record gate := mkGate { g_limiter : RateLimiter; g_replay : ReplayGuard }.

Section gate.
Context `{Sha256} `{Ed25519} `{SubmissionCbor}.

Definition canonical_bytes (payload : JobSubmissionPayload) : option bytes := encode_job payload.

Definition canonical_bytes_pipeline (payload : PipelineSubmissionPayload) : option bytes :=
  encode_pipeline payload.

Definition pubkey_fingerprint (pubkey : bytes) : bytes := sha256 pubkey.

(** The first eight bytes of the digest of [tenant_id || nonce], little endian. *)
Definition fold_replay_key (tenant_id nonce : Z) : Z :=
  of_le_bytes (take 8 (sha256 (le_bytes 8 tenant_id ++ le_bytes 16 nonce))).

(** Stages 2a and 2b: fingerprint, then signature over the canonical bytes. *)
Definition signature_ok (tenant : TenantRecord) (encoded : option bytes) (pubkey signature : bytes) :
    bool :=
  if decide (fingerprint pubkey = tr_signing_fp tenant) then
    match encoded with
    | None => false
    | Some b =>
        match vk_from_bytes pubkey with
        | None => false
        | Some vk => is_ok (verify vk b (sig_from_bytes signature))
        end
    end
  else false.

(** The body shared by the two entry points. *)
Definition check_submission (tenant_id nonce : Z) (encoded : option bytes) (pubkey signature : bytes)
    (now_ns : Z) (registry : TenantRegistry) (rd : readings) (g : gate) : AuthCheck * gate :=
  match get tenant_id registry with
  | None => (AuthCheck_UnknownTenant, g)
  | Some tenant =>
      if negb (signature_ok tenant encoded pubkey signature) then (AuthCheck_BadSignature, g)
      else
        let replay_key := fold_replay_key tenant_id nonce in
        match Replay.accept (rd_sweep rd) (rd_now rd) replay_key now_ns (g_replay g) with
        | (Err _, guard) => (AuthCheck_ReplayDetected, mkGate (g_limiter g) guard)
        | (Ok _, guard) =>
            let '(ok, limiter) :=
              accept_with_config (rd_limiter rd) tenant_id 1 (tr_rate_capacity tenant)
                (tr_rate_refill_per_sec tenant) (g_limiter g) in
            (if ok then AuthCheck_Ok else AuthCheck_RateLimited, mkGate limiter guard)
        end
  end.

Definition verify_and_admit (payload : JobSubmissionPayload) (pubkey signature : bytes) (now_ns : Z)
    (registry : TenantRegistry) (rd : readings) (g : gate) : AuthCheck * gate :=
  check_submission (js_tenant_id payload) (js_nonce payload) (canonical_bytes payload) pubkey signature now_ns
    registry rd g.

Definition verify_and_admit_pipeline (payload : PipelineSubmissionPayload) (pubkey signature : bytes)
    (now_ns : Z) (registry : TenantRegistry) (rd : readings) (g : gate) : AuthCheck * gate :=
  check_submission (ps_tenant_id payload) (ps_nonce payload) (canonical_bytes_pipeline payload) pubkey signature
    now_ns registry rd g.

(** * What each verdict means *)

(** The submission is signed by the key its tenant registered. *)
Definition authentic (registry : TenantRegistry) (tenant_id : Z) (encoded : option bytes)
    (pubkey signature : bytes) (tenant : TenantRecord) : Prop :=
  get tenant_id registry = Some tenant ∧ sha256 pubkey = tr_signing_fp tenant ∧
  ∃ b vk, encoded = Some b ∧ vk_from_bytes pubkey = Some vk ∧
    verify_strict vk b (sig_from_bytes signature) = true.

Lemma signature_ok_authentic registry tid enc pk sg tenant :
  get tid registry = Some tenant →
  signature_ok tenant enc pk sg = true ↔ authentic registry tid enc pk sg tenant.
Proof.
  intros Hg. unfold signature_ok, authentic, fingerprint, verify. case_decide as Hfp.
  - destruct enc as [b|], (vk_from_bytes pk) as [vk|];
      try (split; [done|]; intros (_ & _ & b' & vk' & ? & ? & _); congruence).
    destruct (verify_strict vk b (sig_from_bytes sg)) eqn:E; simpl.
    + split; [|done]. intros _. split_all; try done. eauto.
    + split; [done|]. intros (_ & _ & b' & vk' & ? & ? & Hv). congruence.
  - split; [done|]. by intros (_ & ? & _).
Qed.

Lemma admitted_authentic tid nonce enc pk sg now_ns registry rd g g' :
  check_submission tid nonce enc pk sg now_ns registry rd g = (AuthCheck_Ok, g') →
  ∃ t, authentic registry tid enc pk sg t.
Proof.
  unfold check_submission. destruct (get tid registry) as [t|] eqn:Hg; [|done].
  destruct (signature_ok t enc pk sg) eqn:Hs; [|done]. intros _. exists t. by apply signature_ok_authentic.
Qed.

(** C27: the gate admits only submissions signed, over the exact canonical
    bytes, by the key whose fingerprint the tenant registered, and each verdict
    touches only what it says: an unknown tenant or a bad signature leaves the
    guard and the limiter alone, a replay leaves the limiter alone, and an
    admission records the nonce and takes exactly one token of that tenant. A
    rate-limited submission has spent its nonce. *)
Theorem admit_verdicts tid nonce enc pk sg now_ns registry rd g :
  let '(v, g') := check_submission tid nonce enc pk sg now_ns registry rd g in
  let key := fold_replay_key tid nonce in
  match v with
  | AuthCheck_UnknownTenant => get tid registry = None ∧ g' = g
  | AuthCheck_BadSignature =>
      (∃ t, get tid registry = Some t ∧ ¬ authentic registry tid enc pk sg t) ∧ g' = g
  | AuthCheck_ReplayDetected =>
      (∃ t, authentic registry tid enc pk sg t) ∧ g_limiter g' = g_limiter g
  | AuthCheck_RateLimited | AuthCheck_Ok =>
      ∃ t, authentic registry tid enc pk sg t ∧
        rg_accepted (g_replay g') !! key = Some (rd_now rd) ∧
        let b := default (bucket_new (tr_rate_capacity t) (tr_rate_refill_per_sec t) (rd_limiter rd))
                   (rl_buckets (g_limiter g) !! tid) in
        let tokens := tb_tokens (refill (rd_limiter rd) b) in
        (v = AuthCheck_Ok ↔ 1 <= tokens) ∧
        rl_buckets (g_limiter g') !! tid =
          Some (set_tokens (tokens - (if decide (v = AuthCheck_Ok) then 1 else 0))
                  (refill (rd_limiter rd) b)) ∧
        (∀ t', t' ≠ tid → rl_buckets (g_limiter g') !! t' = rl_buckets (g_limiter g) !! t')
  end.
Proof.
  unfold check_submission. destruct (get tid registry) as [t|] eqn:Hg; [|done].
  pose proof (signature_ok_authentic registry tid enc pk sg t Hg) as Ha.
  destruct (signature_ok t enc pk sg); simpl.
  2:{ split; [|done]. exists t. split; [done|]. rewrite <-Ha. done. }
  assert (Hauth : authentic registry tid enc pk sg t) by by apply Ha.
  destruct (Replay.accept _ _ _ _ _) as [[u|e] guard] eqn:Er; [|by eauto].
  assert (Hkey : rg_accepted guard !! fold_replay_key tid nonce = Some (rd_now rd)).
  { unfold Replay.accept in Er. destruct (_ <? _); [done|].
    destruct (rg_accepted _ !! _); [done|]. simplify_eq. simpl. apply lookup_insert_eq. }
  rewrite accept_with_config_eq. cbv zeta. set (b := default _ _).
  destruct (Z.leb_spec 1 (tb_tokens (refill (rd_limiter rd) b))) as [Hle|Hgt]; exists t.
  - split; [done|]. split; [done|]. split; [done|].
    split; [apply lookup_insert_eq|]. intros t' Hne. by apply lookup_insert_ne.
  - split; [done|]. split; [done|]. split; [split; [done|]; intros Hle; exfalso|].
    { revert Hle. apply Z.lt_nge. exact Hgt. }
    split; [apply lookup_insert_eq|]. intros t' Hne. by apply lookup_insert_ne.
Qed.

(** * No second admission within the window *)

(** One call of the gate; the registry may have been reloaded since the last. *)
Record call := mkCall {
  c_registry : TenantRegistry;
  c_tenant : Z; c_nonce : Z; c_encoded : option bytes; c_pubkey : bytes; c_signature : bytes;
  c_now : Z; c_readings : readings }.

Definition admit_call (c : call) (g : gate) : AuthCheck * gate :=
  check_submission (c_tenant c) (c_nonce c) (c_encoded c) (c_pubkey c) (c_signature c) (c_now c) (c_registry c)
    (c_readings c) g.

Fixpoint admit_all (cs : list call) (g : gate) : gate :=
  match cs with [] => g | c :: cs => admit_all cs (admit_call c g).2 end.

(** A nonce stays known as long as every sweep happens inside its window. *)
Lemma admit_keeps_key c g k a :
  rg_accepted (g_replay g) !! k = Some a →
  sat_sub (rd_sweep (c_readings c)) a < rg_ttl_ns (g_replay g) →
  rg_accepted (g_replay (admit_call c g).2) !! k = Some a ∧
  rg_ttl_ns (g_replay (admit_call c g).2) = rg_ttl_ns (g_replay g).
Proof.
  intros Hk Hw. unfold admit_call, check_submission. destruct (get _ _) as [t|]; [|done].
  destruct (negb _); [done|].
  assert (Hs : rg_accepted (sweep (rd_sweep (c_readings c)) (g_replay g)) !! k = Some a)
    by by apply sweep_lookup.
  unfold Replay.accept.
  destruct (_ <? _); [done|].
  destruct (rg_accepted (sweep _ _) !! fold_replay_key _ _) eqn:E; [done|].
  destruct (accept_with_config _ _ _ _ _ _) as [ok l]. simpl. split; [|done].
  rewrite lookup_insert_ne; [done|]. intros <-. by rewrite Hs in E.
Qed.

Lemma admit_all_keeps_key cs g k a :
  rg_accepted (g_replay g) !! k = Some a →
  (∀ c, c ∈ cs → sat_sub (rd_sweep (c_readings c)) a < rg_ttl_ns (g_replay g)) →
  rg_accepted (g_replay (admit_all cs g)) !! k = Some a ∧
  rg_ttl_ns (g_replay (admit_all cs g)) = rg_ttl_ns (g_replay g).
Proof.
  revert g. induction cs as [|c cs IH]; intros g Hk Hw; cbn [admit_all]; [done|].
  destruct (admit_keeps_key c g k a Hk) as [Hk' Ht']; [apply Hw; left|].
  destruct (IH (admit_call c g).2 Hk') as [? Ht].
  - intros c' Hc'. rewrite Ht'. apply Hw. by right.
  - split; [done|]. congruence.
Qed.

(** An admission records the nonce. *)
Lemma admitted_recorded tid nonce enc pk sg now_ns registry rd g g' :
  check_submission tid nonce enc pk sg now_ns registry rd g = (AuthCheck_Ok, g') →
  rg_accepted (g_replay g') !! fold_replay_key tid nonce = Some (rd_now rd) ∧
  rg_ttl_ns (g_replay g') = rg_ttl_ns (g_replay g).
Proof.
  unfold check_submission. destruct (get _ _); [|done]. destruct (negb _); [done|].
  destruct (Replay.accept _ _ _ _ _) as [[u|e] guard] eqn:Er; [|done].
  destruct (accept_with_config _ _ _ _ _ _) as [ok l]. destruct ok; [|done].
  intros [= <-]. unfold Replay.accept in Er. destruct (_ <? _); [done|].
  destruct (rg_accepted _ !! _); [done|]. simplify_eq. simpl. split; [apply lookup_insert_eq|done].
Qed.

(** A recorded nonce is not admitted within its window. *)
Lemma recorded_refused tid nonce enc pk sg now_ns registry rd g a :
  rg_accepted (g_replay g) !! fold_replay_key tid nonce = Some a →
  sat_sub (rd_sweep rd) a < rg_ttl_ns (g_replay g) →
  (check_submission tid nonce enc pk sg now_ns registry rd g).1 ≠ AuthCheck_Ok.
Proof.
  intros Hk Hw. unfold check_submission. destruct (get _ _); [|done]. destruct (negb _); [done|].
  unfold Replay.accept. destruct (_ <? _); [done|].
  assert (rg_accepted (sweep (rd_sweep rd) (g_replay g)) !! fold_replay_key tid nonce = Some a) as ->; [|done].
  by apply sweep_lookup.
Qed.

(** C16: after a submission is admitted, no submission with the same tenant and
    nonce is admitted again, whatever else is submitted and however the tenant
    registry is reloaded in between, until the replay window since the admission
    has passed. *)
Theorem no_double_admission c1 cs c2 g g1 :
  admit_call c1 g = (AuthCheck_Ok, g1) →
  c_tenant c2 = c_tenant c1 → c_nonce c2 = c_nonce c1 →
  (∀ c, c ∈ cs ++ [c2] →
     sat_sub (rd_sweep (c_readings c)) (rd_now (c_readings c1)) < rg_ttl_ns (g_replay g)) →
  (admit_call c2 (admit_all cs g1)).1 ≠ AuthCheck_Ok.
Proof.
  intros Hok Ht Hn Hw. apply admitted_recorded in Hok as [Hk Httl].
  destruct (admit_all_keeps_key cs g1 _ _ Hk) as [Hk2 Ht2].
  { intros c Hc. rewrite Httl. apply Hw, elem_of_app. by left. }
  unfold admit_call. rewrite Ht, Hn. eapply recorded_refused; [exact Hk2|].
  rewrite Ht2, Httl. apply Hw, elem_of_app. right. by apply list_elem_of_singleton.
Qed.

End gate.

(** * Witnesses *)

Import (hints) Toy.

Module ToyCodec.

#[export] Instance toy_submission_cbor : SubmissionCbor := {|
  encode_job p := Some [js_tenant_id p; js_a p; js_b p; js_deadline_secs p; js_nonce p];
  encode_pipeline p := Some ([ps_tenant_id p; ps_deadline_secs p; ps_nonce p] ++ ps_pipeline_cbor p);
|}.

End ToyCodec.
Import (hints) ToyCodec.

Definition demo_pubkey : bytes := 9 :: replicate 31 0.

Definition demo_reg : TenantRegistry :=
  mkTenantRegistry (<[7 := mkTenantRecord 7 (sha256 demo_pubkey) 2 1 0]> ∅).

Definition demo_payload : JobSubmissionPayload := mkJobSubmissionPayload 7 "add" 1 2 30 55.

Definition demo_call_in (reg : TenantRegistry) (t : Z) : call :=
  mkCall reg 7 55 (canonical_bytes demo_payload) demo_pubkey
    (Toy.toy_sig 9 [7; 1; 2; 30; 55]) t (mkReadings t t t).

Definition demo_call : Z → call := demo_call_in demo_reg.

Definition demo_gate : gate := mkGate (RateLimit.new 10 10) (Replay.new 100).

Lemma no_double_admission_witness :
  (admit_call (demo_call 0) demo_gate).1 = AuthCheck_Ok ∧
  (admit_call (demo_call 50)
    (admit_all [demo_call 20] (admit_call (demo_call 0) demo_gate).2)).1
  ≠ AuthCheck_Ok.
Proof.
  split; [vm_compute; reflexivity|].
  refine (no_double_admission (demo_call 0) [demo_call 20] (demo_call 50) demo_gate
    (admit_call (demo_call 0) demo_gate).2 _ _ _ _).
  - vm_compute. reflexivity.
  - reflexivity.
  - reflexivity.
  - apply Forall_forall. repeat constructor.
Defined.

(** A submission refused for its rate has burnt its nonce: the same signed
    submission, retried later when a token is available, is answered as a
    replay. *)
Theorem rate_limited_retry_is_replay :
  let g := mkGate (RateLimit.new 10 10) (Replay.new 100000000000) in
  let reg := mkTenantRegistry (<[7 := mkTenantRecord 7 (sha256 demo_pubkey) 0 1 0]> ∅) in
  (admit_call (demo_call_in reg 0) g).1 = AuthCheck_RateLimited ∧
  (admit_call (demo_call_in reg 5000000000) (admit_call (demo_call_in reg 0) g).2).1 = AuthCheck_ReplayDetected.
Proof. vm_compute. done. Qed.
