(* ===== verification/AdminAuth.v ===== *)
(** Admin allowlist and session authentication
    (src/crates/cosaci-state/src/admin_auth.rs).

    The allowlist file has the syntax of the tenant file; the helpers the source
    repeats there are those of [Tenant]. The theorem characterises the
    authorised hello messages. *)

From S2P Require Import Prelude Attestation Text Tenant.

Record AdminRecord := mkAdminRecord {
  ar_admin_id : Z;
  ar_signing_fp : bytes;
  ar_enrolled_at_unix_ns : Z;
}.

Record AdminKeySet := mkAdminKeySet { by_fp : gmap bytes AdminRecord }.

Definition new : AdminKeySet := mkAdminKeySet ∅.

Definition len (s : AdminKeySet) : nat := size (by_fp s).

Definition is_empty (s : AdminKeySet) : bool := bool_decide (by_fp s = ∅).

Definition get (fp : bytes) (s : AdminKeySet) : option AdminRecord := by_fp s !! fp.

Inductive AdminLoadError :=
| AdminLoadError_AlreadyExists (fp : bytes)
| AdminLoadError_InvalidData (lineno : nat) (what : string).

Definition insert (record : AdminRecord) (s : AdminKeySet) : result AdminKeySet AdminLoadError :=
  match by_fp s !! ar_signing_fp record with
  | Some _ => Err (AdminLoadError_AlreadyExists (ar_signing_fp record))
  | None => Ok (mkAdminKeySet (<[ar_signing_fp record := record]> (by_fp s)))
  end.

Definition iter (s : AdminKeySet) : list AdminRecord :=
  stable_sort (λ a b, ar_admin_id a <=? ar_admin_id b) ((map_to_list (by_fp s)).*2).

Definition or_invalid {A} (lineno : nat) (what : string) (o : option A) : result A AdminLoadError :=
  match o with Some a => Ok a | None => Err (AdminLoadError_InvalidData lineno what) end.

Definition next_field (it : list (list Z)) (lineno : nat) (name : string) :
    result (list Z * list (list Z)) AdminLoadError :=
  match it with
  | f :: it => Ok (f, it)
  | [] => Err (AdminLoadError_InvalidData lineno ("missing field: " +:+ name))
  end.

Definition parse_line (lineno : nat) (line : list Z) : result AdminRecord AdminLoadError :=
  p1 ←? next_field (split_ascii_whitespace line) lineno "admin_id";
  p2 ←? next_field p1.2 lineno "signing_fp_hex";
  p3 ←? next_field p2.2 lineno "enrolled_at_unix_ns";
  match p3.2 with
  | _ :: _ => Err (AdminLoadError_InvalidData lineno "trailing fields after enrolled_at_unix_ns")
  | [] =>
      admin_id ←? or_invalid lineno "admin_id not a u64" (parse_u64 p1.1);
      signing_fp ←? or_invalid lineno "signing_fp_hex not 64 lowercase-hex chars" (parse_hex32 p2.1);
      enrolled ←? or_invalid lineno "enrolled_at_unix_ns not a u64" (parse_u64 p3.1);
      Ok (mkAdminRecord admin_id signing_fp enrolled)
  end.

Fixpoint load_lines (lineno : nat) (ls : list (list Z)) (s : AdminKeySet) :
    result AdminKeySet AdminLoadError :=
  match ls with
  | [] => Ok s
  | line :: ls =>
      let trimmed := trim line in
      if skipped trimmed then load_lines (S lineno) ls s
      else
        record ←? parse_line (lineno + 1) trimmed;
        s ←? insert record s;
        load_lines (S lineno) ls s
  end.

Definition load (text : list Z) : result AdminKeySet AdminLoadError := load_lines 0 (lines text) new.

Inductive AdminAuthCheck := AdminAuthCheck_Ok (admin_id : Z) | AdminAuthCheck_Unauthorized.

Section hello.
Context `{Sha256} `{Ed25519}.

(** [now] is the reading of the injected clock. *)
Definition verify_admin_hello (set : AdminKeySet) (pubkey : bytes) (ts_unix_ns : Z)
    (signature challenge : bytes) (freshness_ns now : Z) : AdminAuthCheck :=
  let diff := abs_diff now ts_unix_ns in
  if freshness_ns <? diff then AdminAuthCheck_Unauthorized
  else match get (sha256 pubkey) set with
  | None => AdminAuthCheck_Unauthorized
  | Some record =>
      match vk_from_bytes pubkey with
      | None => AdminAuthCheck_Unauthorized
      | Some vk =>
          let signed_bytes := challenge ++ le_bytes 8 ts_unix_ns in
          if is_ok (verify vk signed_bytes (sig_from_bytes signature))
          then AdminAuthCheck_Ok (ar_admin_id record)
          else AdminAuthCheck_Unauthorized
      end
  end.

Lemma hello_ok set pk ts sg ch fresh now aid :
  verify_admin_hello set pk ts sg ch fresh now = AdminAuthCheck_Ok aid ↔
  Z.abs (now - ts) <= fresh ∧
  ∃ r vk, by_fp set !! sha256 pk = Some r ∧ ar_admin_id r = aid ∧ vk_from_bytes pk = Some vk ∧
    verify_strict vk (ch ++ le_bytes 8 ts) (sig_from_bytes sg) = true.
Proof.
  unfold verify_admin_hello, abs_diff, get, verify.
  destruct (Z.ltb_spec fresh (Z.abs (now - ts))) as [Hlt|Hge].
  { split; [done|]. lia. }
  destruct (by_fp set !! sha256 pk) as [r|]; [|split; [done|]; by intros (_ & ? & ? & ? & _)].
  destruct (vk_from_bytes pk) as [vk|]; [|split; [done|]; by intros (_ & ? & ? & _ & _ & ? & _)].
  destruct (verify_strict vk _ _) eqn:Ev; cbn [is_ok].
  - split; [intros [= <-]; split; [done|]; by exists r, vk|].
    intros (_ & r' & vk' & [= <-] & <- & _). done.
  - split; [done|]. intros (_ & r' & vk' & _ & _ & [= <-] & Hv). congruence.
Qed.

(** A hello is authorised exactly when its timestamp is within the
    freshness window of the clock, the digest of its key is on the allowlist,
    and the signature verifies under that key over the challenge followed by
    the timestamp; the id reported is the allowlisted one. A signature for one
    timestamp is over different bytes than for any other, so a hello cannot be
    re-dated. *)
Theorem admin_hello_authorized set pk sg ch fresh now aid ts ts' :
  uint 64 ts → uint 64 ts' →
  (verify_admin_hello set pk ts sg ch fresh now = AdminAuthCheck_Ok aid ↔
   Z.abs (now - ts) <= fresh ∧
   ∃ r vk, by_fp set !! sha256 pk = Some r ∧ ar_admin_id r = aid ∧ vk_from_bytes pk = Some vk ∧
     verify_strict vk (ch ++ le_bytes 8 ts) (sig_from_bytes sg) = true) ∧
  (ch ++ le_bytes 8 ts = ch ++ le_bytes 8 ts' → ts = ts').
Proof.
  intros Ht Ht'. split; [apply hello_ok|]. intros Heq%app_inv_head.
  apply le_bytes_inj in Heq; [done|..]; unfold uint in *; simpl; lia.
Qed.

End hello.

(** * Witness *)

Import (hints) Toy.

Definition demo_admin_key : bytes := 9 :: replicate 31 0.

Definition demo_admins : AdminKeySet :=
  mkAdminKeySet (<[sha256 demo_admin_key := mkAdminRecord 3 (sha256 demo_admin_key) 0]> ∅).

Lemma admin_hello_authorized_witness :
  verify_admin_hello demo_admins demo_admin_key 100 (Toy.toy_sig 9 ([1; 2] ++ le_bytes 8 100))
    [1; 2] 60 130 = AdminAuthCheck_Ok 3.
Proof.
  apply (admin_hello_authorized demo_admins demo_admin_key (Toy.toy_sig 9 ([1; 2] ++ le_bytes 8 100))
    [1; 2] 60 130 3 100 200); [by_decide|by_decide|].
  split; [lia|]. exists (mkAdminRecord 3 (sha256 demo_admin_key) 0), 9. vm_compute. done.
Defined.
