(* ===== verification/Enrollment.v ===== *)
(** Agent enrollment registry
    (src/crates/cosaci-state/src/enrollment.rs).

    The parser of the enrollment file, with [f32] parsing and arithmetic, and
    the gate it feeds. The theorem reads the gate off the file: an agent is
    enrolled exactly when the last record of its id carries its two
    fingerprints. *)

From Stdlib Require Import Floats.SpecFloat.
From S2P Require Import Prelude Attestation Text StakeLedger.

Record EnrolledRecord := mkEnrolledRecord {
  er_runner_id : Z;
  er_signing_fp : bytes;
  er_vrf_fp : bytes;
  er_enrolled_at_unix_ns : Z;
  er_initial_reputation_milli : Z;
}.

(** [f32::from(milli) / 1000.0]. *)
Definition f32_thousand : spec_float := S754_finite false 16384000 (-14).

Definition initial_reputation (r : EnrolledRecord) : spec_float :=
  SFdiv 24 128 (binary_normalize 24 128 (er_initial_reputation_milli r) 0 false) f32_thousand.

Record EnrollmentSet := mkEnrollmentSet { records : gmap Z EnrolledRecord }.

Definition new : EnrollmentSet := mkEnrollmentSet ∅.

Definition insert (record : EnrolledRecord) (s : EnrollmentSet) :
    option EnrolledRecord * EnrollmentSet :=
  (records s !! er_runner_id record, mkEnrollmentSet (<[er_runner_id record := record]> (records s))).

Definition len (s : EnrollmentSet) : nat := size (records s).

Definition is_empty (s : EnrollmentSet) : bool := bool_decide (records s = ∅).

Definition get (runner_id : Z) (s : EnrollmentSet) : option EnrolledRecord := records s !! runner_id.

Definition is_enrolled (runner_id : Z) (signing_fp vrf_fp : bytes) (s : EnrollmentSet) : bool :=
  match records s !! runner_id with
  | Some r => bool_decide (er_signing_fp r = signing_fp) && bool_decide (er_vrf_fp r = vrf_fp)
  | None => false
  end.

(** * Parsing *)

(** [str::parse::<i64>]. *)
Definition parse_i64 (s : list Z) : option Z :=
  match s with
  | [] => None
  | c :: ds =>
      if c =? 45 then
        match ds with [] => None | _ => Z.opp <$> parse_digits (2 ^ 63) 0 ds end
      else parse_uint (2 ^ 63 - 1) s
  end.

(** A maximal run of digits: its value and length, and the rest. *)
Fixpoint take_digits (acc : Z) (n : nat) (s : list Z) : Z * nat * list Z :=
  match s with
  | c :: s' => if is_digit c then take_digits (acc * 10 + (c - 48)) (S n) s' else (acc, n, s)
  | [] => (acc, n, [])
  end.

(** The decimal with mantissa [m] and exponent [e10], rounded once to nearest
    even. A negative exponent divides with 64 extra bits and a sticky bit. *)
Definition dec_to_f32 (neg : bool) (m e10 : Z) : spec_float :=
  if 0 <=? e10 then binary_normalize 24 128 ((if neg then -1 else 1) * (m * 10 ^ e10)) 0 neg
  else
    let d := 10 ^ (- e10) in
    let k := Z.log2 d + 64 in
    let q := m * 2 ^ k / d in
    let sticky := if m * 2 ^ k mod d =? 0 then 0 else 1 in
    binary_normalize 24 128 ((if neg then -1 else 1) * (2 * q + sticky)) (- (k + 1)) neg.

Definition to_lower (c : Z) : Z := if (65 <=? c) && (c <=? 90) then c + 32 else c.

(** The exponent part: nothing, or [e] with an optional sign and digits. *)
Definition parse_exponent (s : list Z) : option Z :=
  match s with
  | [] => Some 0
  | c :: s =>
      if to_lower c =? 101 then
        let '(neg, ds) := match s with
                          | x :: r => if x =? 45 then (true, r) else if x =? 43 then (false, r) else (false, s)
                          | [] => (false, s)
                          end in
        let '(v, n, rest) := take_digits 0 0 ds in
        match n, rest with
        | S _, [] => Some (if neg then - v else v)
        | _, _ => None
        end
      else None
  end.

(** [str::parse::<f32>]. *)
Definition parse_f32 (s : list Z) : option spec_float :=
  let '(neg, body) := match s with
                      | c :: r => if c =? 45 then (true, r) else if c =? 43 then (false, r) else (false, s)
                      | [] => (false, s)
                      end in
  let low := to_lower <$> body in
  if decide (low = [105; 110; 102] ∨ low = [105; 110; 102; 105; 110; 105; 116; 121])
  then Some (S754_infinity neg)
  else if decide (low = [110; 97; 110]) then Some S754_nan
  else
    let '(ip, ni, r1) := take_digits 0 0 body in
    let '(m, nf, r2) := match r1 with
                        | c :: r => if c =? 46 then take_digits ip 0 r else (ip, O, r1)
                        | [] => (ip, O, r1)
                        end in
    if decide (ni + nf = 0)%nat then None
    else e ← parse_exponent r2; Some (dec_to_f32 neg m (e - Z.of_nat nf)).

(** [(x * 1000.0).round() as u16]: halves away from zero, saturating. *)
Definition to_milli (x : spec_float) : Z :=
  match SFmul 24 128 x f32_thousand with
  | S754_finite false m e =>
      Z.min (if 0 <=? e then Z.pos m * 2 ^ e else (Z.pos m + 2 ^ (- e - 1)) / 2 ^ (- e)) 65535
  | S754_infinity false => 65535
  | _ => 0
  end.

(** Both cases of letters. *)
Definition hex_digit (b : Z) : option Z :=
  if (48 <=? b) && (b <=? 57) then Some (b - 48)
  else if (97 <=? b) && (b <=? 102) then Some (b - 97 + 10)
  else if (65 <=? b) && (b <=? 70) then Some (b - 65 + 10)
  else None.

Definition parse_hex32 (s : list Z) : option bytes :=
  if str_len s =? 64 then hex_decode hex_digit (as_bytes s) else None.

(** [hex_nibble] and [fingerprint_hex]. *)
Definition fingerprint_hex (fp : bytes) : list Z :=
  fp ≫= λ b, [hex_char (Z.shiftr b 4); hex_char (Z.land b 15)].

Definition fingerprint `{Sha256} (pubkey : bytes) : bytes := sha256 pubkey.

(** The message of a failed field; the text of the standard library's own
    errors is left out. *)
Definition or_field {A} (what : string) (o : option A) : result A string :=
  match o with Some a => Ok a | None => Err what end.

Definition next_field (it : list (list Z)) (name : string) : result (list Z * list (list Z)) string :=
  match it with f :: it => Ok (f, it) | [] => Err ("missing field " +:+ name) end.

Definition parse_line (line : list Z) : result EnrolledRecord string :=
  p1 ←? next_field (split_whitespace line) "runner_id";
  runner_id ←? or_field "runner_id" (parse_u64 p1.1);
  p2 ←? next_field p1.2 "signing_fp";
  p3 ←? next_field p2.2 "vrf_fp";
  p4 ←? next_field p3.2 "enrolled_at_unix_ns";
  enrolled ←? or_field "enrolled_at_unix_ns" (parse_i64 p4.1);
  p5 ←? next_field p4.2 "initial_reputation";
  reputation ←? or_field "initial_reputation" (parse_f32 p5.1);
  match p5.2 with
  | _ :: _ => Err "trailing fields after initial_reputation"%string
  | [] =>
      if negb (SFleb f32_zero reputation && SFleb reputation f32_one)
      then Err "initial_reputation not in [0.0, 1.0]"%string
      else
        signing_fp ←? or_field "signing_fp" (parse_hex32 p2.1);
        vrf_fp ←? or_field "vrf_fp" (parse_hex32 p3.1);
        Ok (mkEnrolledRecord runner_id signing_fp vrf_fp enrolled (to_milli reputation))
  end.

(** A trimmed line that is blank or a comment. *)
Definition skipped (trimmed : list Z) : bool :=
  match trimmed with [] => true | _ => starts_with 35 trimmed end.

(** The loop of [parse]; the error carries the line number. *)
Fixpoint parse_lines (lineno : nat) (ls : list (list Z)) (s : EnrollmentSet) :
    result EnrollmentSet (nat * string) :=
  match ls with
  | [] => Ok s
  | line :: ls =>
      let trimmed := trim line in
      if skipped trimmed then parse_lines (S lineno) ls s
      else
        record ←? map_err (pair (lineno + 1)%nat) (parse_line trimmed);
        parse_lines (S lineno) ls (insert record s).2
  end.

Definition parse (text : list Z) : result EnrollmentSet (nat * string) := parse_lines 0 (lines text) new.

(** * What a file says *)

(** The records of the significant lines, in file order; [None] if one of them
    is malformed. *)
Fixpoint file_records (ls : list (list Z)) : option (list EnrolledRecord) :=
  match ls with
  | [] => Some []
  | line :: ls =>
      if skipped (trim line) then file_records ls
      else match parse_line (trim line) with
           | Ok r => rs ← file_records ls; Some (r :: rs)
           | Err _ => None
           end
  end.

Definition insert_all (rs : list EnrolledRecord) (s : EnrollmentSet) : EnrollmentSet :=
  foldl (λ s r, (insert r s).2) s rs.

Lemma parse_lines_records n ls s :
  match file_records ls with
  | Some rs => parse_lines n ls s = Ok (insert_all rs s)
  | None => is_ok (parse_lines n ls s) = false
  end.
Proof.
  revert n s. induction ls as [|l ls IH]; intros n s; cbn [file_records parse_lines]; [done|].
  destruct (skipped (trim l)); [apply IH|].
  destruct (parse_line (trim l)) as [r|e]; cbn [map_err]; [|done].
  specialize (IH (S n) (insert r s).2). by destruct (file_records ls) as [rs|].
Qed.

Lemma insert_all_lookup rs s id :
  records (insert_all rs s) !! id =
  match last (filter (λ r, er_runner_id r = id) rs) with
  | Some r => Some r
  | None => records s !! id
  end.
Proof.
  unfold insert_all. induction rs as [|r rs IH] using rev_ind; [done|].
  rewrite foldl_app, filter_app, filter_cons, filter_nil. simpl.
  destruct (decide (er_runner_id r = id)) as [<-|Hne].
  - by rewrite lookup_insert_eq, last_snoc.
  - by rewrite lookup_insert_ne, (right_id_L [] (++)).
Qed.

Lemma hex_digit_decodes : decodes_hex hex_digit.
Proof.
  intros n Hn. unfold hex_digit, hex_char. destruct (Z.ltb_spec n 10).
  - rewrite (proj2 (Z.leb_le 48 _)), (proj2 (Z.leb_le _ 57)) by lia. simpl. f_equal. lia.
  - rewrite (proj2 (Z.leb_gt (97 + n - 10) 57)), andb_false_r by lia.
    rewrite (proj2 (Z.leb_le 97 _)), (proj2 (Z.leb_le _ 102)) by lia. simpl. f_equal. lia.
Qed.

Lemma fingerprint_hex_encode fp : Forall (uint 8) fp → fingerprint_hex fp = hex_encode fp.
Proof.
  intros Hfp. unfold fingerprint_hex, hex_encode. induction Hfp as [|b bs Hb Hbs IH]; [done|].
  simpl. rewrite Z.shiftr_div_pow2 by lia. change 15 with (Z.ones 4).
  rewrite Z.land_ones by lia. do 2 f_equal. apply IH.
Qed.

(** [parse_hex32] is the inverse of [fingerprint_hex] its doc promises. *)
Lemma enrollment_hex_roundtrip fp : byte_array 32 fp → parse_hex32 (fingerprint_hex fp) = Some fp.
Proof.
  intros [Hl Hb]. rewrite fingerprint_hex_encode by done. unfold parse_hex32, str_len.
  assert (Hr := hex_encode_range fp Hb).
  rewrite as_bytes_ascii by (eapply Forall_impl; [exact Hr|]; simpl; lia).
  rewrite hex_encode_length, Hl. simpl. by apply hex_roundtrip; [apply hex_digit_decodes|].
Qed.

(** Parsing fails exactly when some significant line is malformed; when it
    succeeds, a runner passes the gate exactly when the last record the file
    has for its id carries both of its fingerprints, and a runner the file does
    not name never passes. *)
Theorem enrollment_gate_reads_file text id sfp vfp :
  match file_records (lines text) with
  | None => is_ok (parse text) = false
  | Some rs => ∃ s, parse text = Ok s ∧
      (is_enrolled id sfp vfp s = true ↔
       ∃ r, last (filter (λ r, er_runner_id r = id) rs) = Some r ∧
            er_signing_fp r = sfp ∧ er_vrf_fp r = vfp)
  end.
Proof.
  unfold parse. pose proof (parse_lines_records 0 (lines text) new) as Hp.
  destruct (file_records (lines text)) as [rs|]; [|done].
  exists (insert_all rs new). split; [done|].
  unfold is_enrolled. rewrite insert_all_lookup. simpl. rewrite lookup_empty.
  destruct (last _) as [r|].
  - rewrite andb_true_iff, !bool_decide_eq_true. split; [by eauto|]. by intros (? & [= <-] & ?).
  - split; [done|]. by intros (? & ? & _).
Qed.

(** ["1 <32 bytes 0xab> <32 bytes 0xcd> -5 0.75"] then a comment, as text. *)
Definition demo_enrollment : list Z :=
  join_space [[49]; fingerprint_hex (replicate 32 171); fingerprint_hex (replicate 32 205);
    [45; 53]; [48; 46; 55; 53]] ++ [10; 35; 120; 10].

(** A parsed line, with the reputation in thousandths. *)
Example enrollment_line_parses :
  parse demo_enrollment =
  Ok (mkEnrollmentSet (<[1 := mkEnrolledRecord 1 (replicate 32 171) (replicate 32 205) (-5) 750]> ∅)).
Proof. vm_compute. reflexivity. Qed.

(** The file format is documented as lowercase hexadecimal; the parser takes
    uppercase as well. *)
Theorem enrollment_accepts_uppercase :
  parse_hex32 (concat (replicate 32 [65; 66])) = Some (replicate 32 171).
Proof. vm_compute. reflexivity. Qed.
