(* ===== verification/Float32.v ===== *)
(** Rounding to [f32], as far as reputations need it.

    [f32] is [spec_float] with 24 bits and exponent 128, as in
    [Stdlib.Floats.SpecFloat]. A number of that format reads back from its exact
    decimal expansion, what [str::parse] gives has at most 24 bits, and
    [(x * 1000.0).round()] of a number between zero and one is at most a
    thousand, so every record that an enrollment file loads to has a reputation
    in range. *)

From Stdlib Require Import Floats.SpecFloat.
From S2P Require Import Prelude Attestation StakeLedger Text Enrollment.

(** A value of the type: mantissa and exponent are the ones of the format. *)
Definition is_f32 (x : spec_float) : Prop := valid_binary 24 128 x = true.

(** ** Digits *)

Lemma digits2_log2 p : Z.pos (digits2_pos p) = Z.log2 (Z.pos p) + 1.
Proof.
  induction p as [p IH|p IH|]; cbn [digits2_pos]; [| |done]; rewrite Pos2Z.inj_succ, IH.
  - rewrite (Pos2Z.inj_xI p), Z.log2_succ_double by lia. lia.
  - rewrite (Pos2Z.inj_xO p), Z.log2_double by lia. lia.
Qed.

Lemma Zdigits2_log2 n : 0 < n → Zdigits2 n = Z.log2 n + 1.
Proof. destruct n as [|p|p]; [lia| |lia]. intros _. apply digits2_log2. Qed.

(** ** Shifting *)

Lemma shr_1_m mrs : 0 <= shr_m mrs → shr_m (shr_1 mrs) = shr_m mrs / 2.
Proof.
  destruct mrs as [[|[p|p|]|p] r s]; cbn [shr_m]; intros Hm; try lia; cbn [shr_1 shr_m]; try done.
  - rewrite (Pos2Z.inj_xI p), Z.mul_comm, Z.add_comm, Z.div_add by lia. done.
  - rewrite (Pos2Z.inj_xO p), Z.mul_comm, Z.div_mul by lia. done.
Qed.

Lemma iter_shr_m p mrs : 0 <= shr_m mrs → shr_m (SpecFloat.iter_pos shr_1 p mrs) = shr_m mrs / 2 ^ Z.pos p.
Proof.
  assert (Hhalf : ∀ m q, 0 <= m → 0 <= m / 2 ^ Z.pos q) by (intros m q Hm; apply Z.div_pos; lia).
  revert mrs. induction p as [p IH|p IH|]; intros mrs Hm; cbn [SpecFloat.iter_pos].
  - assert (H1 : 0 <= shr_m (shr_1 mrs)) by (rewrite shr_1_m by done; apply Z.div_pos; lia).
    rewrite !IH, shr_1_m by (try done; rewrite IH by done; by apply Hhalf).
    rewrite !Z.div_div by lia. f_equal.
    rewrite (Pos2Z.inj_xI p), Z.pow_add_r, Z.pow_mul_r by lia. change (2 ^ 2) with (2 * 2). rewrite Z.pow_mul_l. lia.
  - rewrite !IH by (try done; rewrite IH by done; by apply Hhalf). rewrite Z.div_div by lia. f_equal.
    rewrite (Pos2Z.inj_xO p), Z.pow_mul_r by lia. change (2 ^ 2) with (2 * 2). rewrite Z.pow_mul_l. lia.
  - rewrite shr_1_m by done. done.
Qed.

(** Shifting zeros out loses nothing. *)
Lemma shr_1_double m : 0 <= m → shr_1 (Build_shr_record (2 * m) false false) = Build_shr_record m false false.
Proof. destruct m as [|p|p]; [done|done|lia]. Qed.

Lemma iter_shr_exact p m :
  0 <= m → SpecFloat.iter_pos shr_1 p (Build_shr_record (m * 2 ^ Z.pos p) false false) = Build_shr_record m false false.
Proof.
  revert m. induction p as [p IH|p IH|]; intros m Hm; cbn [SpecFloat.iter_pos].
  - replace (m * 2 ^ Z.pos p~1) with (2 * (m * 2 ^ Z.pos p * 2 ^ Z.pos p)).
    + rewrite shr_1_double by nia. rewrite !IH by nia. done.
    + rewrite (Pos2Z.inj_xI p), Z.pow_add_r, Z.pow_mul_r by lia. change (2 ^ 2) with (2 * 2). rewrite Z.pow_mul_l. lia.
  - replace (m * 2 ^ Z.pos p~0) with (m * 2 ^ Z.pos p * 2 ^ Z.pos p).
    + rewrite !IH by nia. done.
    + rewrite (Pos2Z.inj_xO p), Z.pow_mul_r by lia. change (2 ^ 2) with (2 * 2). rewrite Z.pow_mul_l. lia.
  - change (2 ^ 1) with 2. rewrite Z.mul_comm. by apply shr_1_double.
Qed.

(** ** Exact numbers *)

(** The format's own mantissa and exponent. *)
Lemma canonical_spec m e : is_f32 (S754_finite false m e) →
  fexp 24 128 (Z.log2 (Z.pos m) + 1 + e) = e ∧ -149 <= e <= 104 ∧ Z.pos m < 2 ^ 24 ∧ (-149 < e → 2 ^ 23 <= Z.pos m).
Proof.
  unfold is_f32. cbn [valid_binary]. unfold bounded, canonical_mantissa. intros [Hc%Z.eqb_eq He%Z.leb_le]%andb_prop.
  rewrite digits2_log2 in Hc. unfold fexp, emin in Hc |- *. destruct (Z.log2_spec (Z.pos m)) as [Hlo Hhi]; [lia|].
  assert (Hl : Z.log2 (Z.pos m) <= 23) by lia. split; [lia|]. split; [lia|]. split.
  - eapply Z.lt_le_trans; [exact Hhi|]. apply Z.pow_le_mono_r; lia.
  - intros Hgt. assert (Z.log2 (Z.pos m) = 23) as Heq by lia. by rewrite Heq in Hlo.
Qed.

(** A number of the format, however many zeros its mantissa is given, rounds to
    itself. *)
Lemma normalize_exact m e s :
  is_f32 (S754_finite false m e) → 0 <= s →
  binary_normalize 24 128 (Z.pos m * 2 ^ s) (e - s) false = S754_finite false m e.
Proof.
  intros Hx Hs. destruct (canonical_spec m e Hx) as (Hf & He & _).
  assert (Hp : 0 < 2 ^ s) by (apply Z.pow_pos_nonneg; lia).
  destruct (Z.pos m * 2 ^ s) as [|mx|mx] eqn:Hmx; [lia| |lia]. cbn [binary_normalize]. unfold binary_round.
  assert (Hd : Z.pos (digits2_pos mx) + (e - s) = Z.log2 (Z.pos m) + 1 + e).
  { rewrite digits2_log2, <-Hmx, Z.log2_mul_pow2 by lia. lia. }
  rewrite Hd, Hf. unfold shl_align. replace (e - (e - s)) with s by lia.
  assert (Hal : match s with Z.neg d => (Pos.iter xO mx d, e) | _ => (mx, e - s) end = (mx, e - s)) by (destruct s; [done|done|lia]).
  rewrite Hal. unfold binary_round_aux, shr_fexp. cbn [Zdigits2 shr_record_of_loc]. rewrite Hd, Hf.
  replace (e - (e - s)) with s by lia. rewrite <-Hmx.
  assert (Hsh : shr (Build_shr_record (Z.pos m * 2 ^ s) false false) (e - s) s = (Build_shr_record (Z.pos m) false false, e)).
  { unfold shr. destruct s as [|p|p]; [|rewrite iter_shr_exact by lia; f_equal; lia|lia].
    rewrite Z.mul_1_r. f_equal. lia. }
  rewrite Hsh. cbn [shr_m loc_of_shr_record round_nearest_even Zdigits2]. rewrite digits2_log2, Hf, Z.sub_diag.
  cbn [shr shr_m]. by rewrite (proj2 (Z.leb_le _ _)) by lia.
Qed.

(** A number below one reads back from all its decimal places. *)
Lemma dec_exact m f :
  is_f32 (S754_finite false m (- f)) → 0 < f →
  dec_to_f32 false (Z.pos m * 5 ^ f) (- f) = S754_finite false m (- f).
Proof.
  intros Hx Hf. unfold dec_to_f32. rewrite (proj2 (Z.leb_gt _ _)) by lia. rewrite Z.opp_involutive.
  set (k := Z.log2 (10 ^ f) + 64).
  assert (Hk : f <= k).
  { unfold k. assert (f <= Z.log2 (10 ^ f)); [|lia]. rewrite <-(Z.log2_pow2 f) at 1 by lia.
    apply Z.log2_le_mono, Z.pow_le_mono_l. lia. }
  assert (Hten : 10 ^ f = 2 ^ f * 5 ^ f) by (rewrite <-Z.pow_mul_l; done).
  assert (Hpow : 2 ^ k = 2 ^ (k - f) * 2 ^ f) by (rewrite <-Z.pow_add_r by lia; f_equal; lia).
  assert (Hprod : Z.pos m * 5 ^ f * 2 ^ k = Z.pos m * 2 ^ (k - f) * 10 ^ f) by (rewrite Hten, Hpow; ring).
  assert (0 < 10 ^ f) by (apply Z.pow_pos_nonneg; lia).
  rewrite Hprod, Z.mod_mul, Z.div_mul by lia. cbn [Z.eqb].
  replace (1 * (2 * (Z.pos m * 2 ^ (k - f)) + 0)) with (Z.pos m * 2 ^ (k - f + 1)) by (rewrite Z.pow_add_r by lia; lia).
  replace (- (k + 1)) with (- f - (k - f + 1)) by lia. apply normalize_exact; [done|lia].
Qed.

(** ** Bounds of rounding *)

(** One step of rounding: the mantissa is cut to 24 bits, the exponent is at
    least the format's, and the mantissa is what the shift leaves. *)
Lemma shr_fexp_spec m e l mrs e' :
  0 <= m → shr_fexp 24 128 m e l = (mrs, e') →
  0 <= shr_m mrs < 2 ^ 24 ∧ e <= e' ∧ shr_m mrs = m / 2 ^ (e' - e) ∧ (m = 0 → e' = Z.max e (fexp 24 128 e)) ∧
  (0 < m → e' = Z.max e (fexp 24 128 (Z.log2 m + 1 + e))).
Proof.
  intros Hm. unfold shr_fexp, shr. set (n := fexp 24 128 (Zdigits2 m + e) - e).
  assert (Hrec : shr_m (shr_record_of_loc m l) = m) by by destruct l as [|[]].
  assert (Hn : Z.log2 m + 1 - 24 <= n ∨ m = 0).
  { destruct (Z.eq_dec m 0) as [|Hne]; [by right|left]. unfold n, fexp. rewrite Zdigits2_log2 by lia. lia. }
  assert (Hres : ∀ k, 0 <= k → n <= k → (m = 0 ∨ Z.log2 m + 1 - 24 <= k) → 0 <= m / 2 ^ k < 2 ^ 24).
  { intros k Hk _ [-> |Hl]; [by rewrite Z.div_0_l by (apply Z.pow_nonzero; lia)|].
    split; [apply Z.div_pos; [done|apply Z.pow_pos_nonneg; lia]|].
    apply Z.div_lt_upper_bound; [apply Z.pow_pos_nonneg; lia|]. rewrite <-Z.pow_add_r by lia.
    destruct (Z.eq_dec m 0) as [-> |]; [apply Z.pow_pos_nonneg; lia|].
    destruct (Z.log2_spec m) as [_ Hhi]; [lia|]. eapply Z.lt_le_trans; [exact Hhi|]. apply Z.pow_le_mono_r; lia. }
  assert (Hexp : (m = 0 → e + Z.max n 0 = Z.max e (fexp 24 128 e)) ∧
    (0 < m → e + Z.max n 0 = Z.max e (fexp 24 128 (Z.log2 m + 1 + e)))).
  { unfold n. split; [intros ->; cbn [Zdigits2]; rewrite Z.add_0_l; lia|]. intros Hp. rewrite Zdigits2_log2 by done. lia. }
  destruct n as [|p|p] eqn:Hn'; intros [= <- <-].
  - rewrite Hrec, Z.sub_diag, Z.pow_0_r, Z.div_1_r. rewrite <-(Z.div_1_r m) at 1 2. change 1 with (2 ^ 0) at 1 2.
    destruct Hexp as [H0 H1]. split; [apply Hres; lia|]. split; [lia|]. split; [done|].
    split; [intros Hz; specialize (H0 Hz); lia|intros Hz; specialize (H1 Hz); lia].
  - rewrite iter_shr_m by (rewrite Hrec; done). rewrite Hrec. replace (e + Z.pos p - e) with (Z.pos p) by lia.
    destruct Hexp as [H0 H1]. split; [apply Hres; lia|]. split; [lia|]. split; [done|].
    split; [intros Hz; specialize (H0 Hz); lia|intros Hz; specialize (H1 Hz); lia].
  - rewrite Hrec, Z.sub_diag, Z.pow_0_r, Z.div_1_r. rewrite <-(Z.div_1_r m) at 1 2. change 1 with (2 ^ 0) at 1 2.
    destruct Hexp as [H0 H1]. split; [apply Hres; lia|]. split; [lia|]. split; [done|].
    split; [intros Hz; specialize (H0 Hz); lia|intros Hz; specialize (H1 Hz); lia].
Qed.

Lemma round_near m l : m <= round_nearest_even m l <= m + 1.
Proof. destruct l as [|[]]; cbn [round_nearest_even]; try lia. destruct (Z.even m); lia. Qed.

(** Rounded numbers have at most 24 bits. *)
Lemma round_aux_small s m e l s' m' e' :
  0 <= m → binary_round_aux 24 128 s m e l = S754_finite s' m' e' → Z.pos m' < 2 ^ 24.
Proof.
  intros Hm. unfold binary_round_aux. destruct (shr_fexp 24 128 m e l) as [mrs1 e1] eqn:E1.
  destruct (shr_fexp_spec _ _ _ _ _ Hm E1) as (H1 & _).
  set (r := round_nearest_even (shr_m mrs1) (loc_of_shr_record mrs1)).
  pose proof (round_near (shr_m mrs1) (loc_of_shr_record mrs1)) as Hr. fold r in Hr.
  destruct (shr_fexp 24 128 r e1 loc_Exact) as [mrs2 e2] eqn:E2.
  destruct (shr_fexp_spec r e1 loc_Exact mrs2 e2 ltac:(lia) E2) as (H2 & _).
  destruct (shr_m mrs2) as [|p|p]; [done| |done]. destruct (_ <=? _); [|done]. intros [= _ <- _]. lia.
Qed.

Lemma parsed_small text s m e : parse_f32 text = Some (S754_finite s m e) → Z.pos m < 2 ^ 24.
Proof.
  assert (Hnorm : ∀ z k b, binary_normalize 24 128 z k b = S754_finite s m e → Z.pos m < 2 ^ 24).
  { intros [|p|p] k b; cbn [binary_normalize]; [done|..]; unfold binary_round; destruct (shl_align _ _ _) as [mz ez];
      by apply round_aux_small. }
  unfold parse_f32. set (p := match text with [] => _ | _ => _ end). destruct p as [neg body].
  case_decide; [done|]. case_decide; [done|]. destruct (take_digits 0 0 body) as [[ip ni] r1].
  set (q := match r1 with [] => _ | _ => _ end). destruct q as [[mm nf] r2]. case_decide; [done|].
  destruct (parse_exponent r2); [|done]. cbn [mbind option_bind]. intros [= Hd]. unfold dec_to_f32 in Hd.
  destruct (_ <=? _); by eapply Hnorm.
Qed.

(** ** Thousandths *)

(** A thousand times a number below one rounds to at most a thousand. *)
Lemma thousand_times_small m e :
  Z.pos m < 2 ^ (- e) → e <= -23 →
  match SFmul 24 128 (S754_finite false m e) f32_thousand with
  | S754_finite s m' e' => s = false ∧ e' < 0 ∧ Z.pos m' <= 1000 * 2 ^ (- e')
  | S754_zero _ => True
  | _ => False
  end.
Proof.
  intros Hlt He. cbn [SFmul f32_thousand xorb]. set (P := Z.pos (m * 16384000)).
  assert (HP : 0 < P < 1000 * 2 ^ (- (e + -14))).
  { unfold P. replace (- (e + -14)) with (- e + 14) by lia. rewrite Z.pow_add_r by lia. lia. }
  (* a mantissa below a thousand at an exponent keeps the exponent negative *)
  assert (Hexp : ∀ r k, 0 <= r <= 1000 * 2 ^ (- k) → k < 0 → Z.max k (fexp 24 128 (Z.log2 r + 1 + k)) < 0 ∧
    Z.max k (fexp 24 128 k) < 0).
  { intros r k Hr Hk. unfold fexp, emin. split; [|lia]. assert (Z.log2 r < 10 - k); [|lia].
    destruct (Z.eq_dec r 0) as [-> |]; [cbn; lia|]. apply Z.log2_lt_pow2; [lia|].
    replace (10 - k) with (10 + - k) by lia. rewrite Z.pow_add_r by lia.
    assert (0 < 2 ^ (- k)) by (apply Z.pow_pos_nonneg; lia). nia. }
  unfold binary_round_aux. destruct (shr_fexp 24 128 P (e + -14) loc_Exact) as [mrs1 e1] eqn:E1.
  destruct (shr_fexp_spec P (e + -14) loc_Exact mrs1 e1 ltac:(lia) E1) as (H1 & Hle1 & Hm1 & _ & He1). specialize (He1 ltac:(lia)).
  destruct (Hexp P (e + -14)) as [Hneg _]; [lia|lia|]. rewrite <-He1 in Hneg.
  assert (Hb1 : shr_m mrs1 < 1000 * 2 ^ (- e1)).
  { rewrite Hm1. apply Z.div_lt_upper_bound; [apply Z.pow_pos_nonneg; lia|].
    replace (2 ^ (e1 - (e + -14)) * (1000 * 2 ^ (- e1))) with (1000 * (2 ^ (e1 - (e + -14)) * 2 ^ (- e1))) by ring.
    rewrite <-Z.pow_add_r by lia. replace (e1 - (e + -14) + - e1) with (- (e + -14)) by lia. lia. }
  set (r := round_nearest_even (shr_m mrs1) (loc_of_shr_record mrs1)).
  pose proof (round_near (shr_m mrs1) (loc_of_shr_record mrs1)) as Hr. fold r in Hr.
  destruct (shr_fexp 24 128 r e1 loc_Exact) as [mrs2 e2] eqn:E2.
  destruct (shr_fexp_spec r e1 loc_Exact mrs2 e2 ltac:(lia) E2) as (H2 & Hle2 & Hm2 & Hz2 & He2).
  destruct (Hexp r e1) as [Hneg2 Hneg3]; [lia|lia|].
  assert (Hn2 : e2 < 0) by (destruct (Z.eq_dec r 0) as [Hr0|]; [rewrite Hz2 by done|rewrite He2 by lia]; lia).
  destruct (shr_m mrs2) as [|p|p] eqn:Hp; [done| |lia]. rewrite (proj2 (Z.leb_le _ _)) by lia.
  split; [done|]. split; [done|]. rewrite Hm2.
  apply Z.div_le_upper_bound; [apply Z.pow_pos_nonneg; lia|].
  replace (2 ^ (e2 - e1) * (1000 * 2 ^ (- e2))) with (1000 * (2 ^ (e2 - e1) * 2 ^ (- e2))) by ring.
  rewrite <-Z.pow_add_r by lia. replace (e2 - e1 + - e2) with (- e1) by lia. lia.
Qed.

(** Numbers between zero and one with at most 24 bits: a zero, one, or below
    one. *)
Lemma unit_cases x :
  SFleb f32_zero x && SFleb x f32_one = true →
  (∀ s m e, x = S754_finite s m e → Z.pos m < 2 ^ 24) →
  (∃ s, x = S754_zero s) ∨ x = f32_one ∨ ∃ m e, x = S754_finite false m e ∧ Z.pos m < 2 ^ (- e) ∧ e <= -23.
Proof.
  intros [Hlo Hhi]%andb_prop Hsmall. destruct x as [s|[]| |[] m e]; try done; [by left; eexists|right].
  specialize (Hsmall false m e eq_refl). unfold SFleb, f32_one in Hhi. cbn [SFcompare] in Hhi.
  destruct (Z.compare_spec e (-23)) as [-> |Hlt|]; [|right|done].
  - change (Pos.compare_cont Eq m 8388608) with (m ?= 8388608)%positive in Hhi.
    destruct (Pos.compare_spec m 8388608) as [-> |Hm|]; [by left| |done]. right. exists m, (-23).
    split; [done|]. split; [|done]. change (2 ^ (- -23)) with 8388608. lia.
  - exists m, e. split; [done|]. split; [|lia]. eapply Z.lt_le_trans; [exact Hsmall|]. apply Z.pow_le_mono_r; lia.
Qed.

Lemma to_milli_range x :
  SFleb f32_zero x && SFleb x f32_one = true → (∀ s m e, x = S754_finite s m e → Z.pos m < 2 ^ 24) →
  0 <= to_milli x <= 1000.
Proof.
  intros Hr Hs. destruct (unit_cases x Hr Hs) as [(s & ->)|[-> |(m & e & -> & Hlt & He)]].
  - by destruct s.
  - by_decide.
  - pose proof (thousand_times_small m e Hlt He) as Ht. unfold to_milli.
    destruct (SFmul _ _ _ _) as [s|s| |s m' e']; try done. destruct Ht as (-> & He' & Hm').
    rewrite (proj2 (Z.leb_gt _ _)) by lia.
    assert (Hp : 2 ^ (- e') = 2 * 2 ^ (- e' - 1)) by (rewrite <-Z.pow_succ_r by lia; f_equal; lia).
    assert (0 < 2 ^ (- e' - 1)) by (apply Z.pow_pos_nonneg; lia).
    assert (0 <= (Z.pos m' + 2 ^ (- e' - 1)) / 2 ^ (- e') <= 1000); [|lia].
    split; [apply Z.div_pos; lia|]. apply Z.lt_succ_r, Z.div_lt_upper_bound; lia.
Qed.
