(* ===== verification/Sharding.v ===== *)
(** Sharded key/value stores
    (src/crates/cosaci-state/src/sharding.rs and
    src/crates/cosaci-state/src/sharding_handoff.rs).

    [Kv] is what both stores promise: an operation on the store is the operation
    on one finite map. Both stores are instances, so the history theorem at the
    end holds for either; rebalancing, atomic or in steps, leaves the map alone.
    A panic is [None]. *)

From S2P Require Import Prelude.

(** [shard_of]: 64-bit mixing, then the remainder by the shard count. *)
Definition mix (key : Z) : Z :=
  let h := Z.lxor 14695981039346656037 key in
  let h := wrap 64 (h * 1099511628211) in
  let h := Z.lxor h (Z.shiftr h 33) in
  let h := wrap 64 (h * 18397679294719823053) in
  Z.lxor h (Z.shiftr h 33).

Definition shard_of (key : Z) (n_shards : nat) : option nat :=
  if decide (n_shards = O) then None
  else Some (Z.to_nat (mix key mod Z.of_nat n_shards)).

Abbreviation Shard := (gmap Z Z) (only parsing).

(** * Shard sets

    A vector of shards, used by both stores. *)

(** [(0..n).map(|_| Shard::default())]. *)
Definition fresh_shards (n : nat) : list Shard := replicate n ∅.

(** [shards[shard_of(key, n)].entries.insert(key, value)]. *)
Definition shards_insert (k v : Z) (ss : list Shard) : option (list Shard) :=
  idx ← shard_of k (length ss);
  sh ← ss !! idx;
  Some (<[idx := <[k := v]> sh]> ss).

Definition shards_lookup (k : Z) (ss : list Shard) : option (option Z) :=
  idx ← shard_of k (length ss);
  sh ← ss !! idx;
  Some (sh !! k).

Definition shards_remove (k : Z) (ss : list Shard) : option (option Z * list Shard) :=
  idx ← shard_of k (length ss);
  sh ← ss !! idx;
  Some (sh !! k, <[idx := delete k sh]> ss).

Definition shards_len (ss : list Shard) : nat := sum_list (size <$> ss).

(** The loop that inserts collected entries one by one. *)
Fixpoint insert_all (kvs : list (Z * Z)) (ss : list Shard) : option (list Shard) :=
  match kvs with
  | [] => Some ss
  | (k, v) :: kvs => ss ← shards_insert k v ss; insert_all kvs ss
  end.

(** * sharding.rs *)

Record ShardedStore := mkShardedStore { ss_shards : list Shard }.

Definition new (n_shards : nat) : option ShardedStore :=
  if decide (n_shards = O) then None else Some (mkShardedStore (fresh_shards n_shards)).

Definition n_shards (s : ShardedStore) : nat := length (ss_shards s).

Definition len (s : ShardedStore) : nat := shards_len (ss_shards s).

Definition is_empty (s : ShardedStore) : bool := bool_decide (len s = O).

Definition put (key value : Z) (s : ShardedStore) : option ShardedStore :=
  ss ← shards_insert key value (ss_shards s); Some (mkShardedStore ss).

Definition get (key : Z) (s : ShardedStore) : option (option Z) := shards_lookup key (ss_shards s).

Definition remove (key : Z) (s : ShardedStore) : option (option Z * ShardedStore) :=
  p ← shards_remove key (ss_shards s); Some (p.1, mkShardedStore p.2).

Definition contains_key (key : Z) (s : ShardedStore) : option bool :=
  o ← get key s; Some (bool_decide (is_Some o)).

Definition shard_load (idx : nat) (s : ShardedStore) : option nat := size <$> ss_shards s !! idx.

Definition all_keys (s : ShardedStore) : list Z :=
  ss_shards s ≫= λ sh, (map_to_list sh).*1.

Definition rebalance (new_n : nat) (s : ShardedStore) : option ShardedStore :=
  if decide (new_n = O) then None
  else
    let collected := ss_shards s ≫= map_to_list in
    ss ← insert_all collected (fresh_shards new_n);
    Some (mkShardedStore ss).

(** * sharding_handoff.rs *)

Record HandoffStore := mkHandoffStore {
  new_shards : list Shard;
  old_shards : option (list Shard);
}.

Definition handoff_new (n : nat) : option HandoffStore :=
  if decide (n = O) then None else Some (mkHandoffStore (fresh_shards n) None).

Definition is_migrating (s : HandoffStore) : bool := bool_decide (is_Some (old_shards s)).

Definition handoff_n_shards (s : HandoffStore) : nat := length (new_shards s).

Definition handoff_put (key value : Z) (s : HandoffStore) : option HandoffStore :=
  ss ← shards_insert key value (new_shards s);
  match old_shards s with
  | Some old => p ← shards_remove key old; Some (mkHandoffStore ss (Some p.2))
  | None => Some (mkHandoffStore ss None)
  end.

Definition handoff_get (key : Z) (s : HandoffStore) : option (option Z) :=
  o ← shards_lookup key (new_shards s);
  match o with
  | Some v => Some (Some v)
  | None => match old_shards s with Some old => shards_lookup key old | None => Some None end
  end.

Definition handoff_remove (key : Z) (s : HandoffStore) : option (option Z * HandoffStore) :=
  p ← shards_remove key (new_shards s);
  match old_shards s with
  | Some old =>
      q ← shards_remove key old;
      Some (match p.1 with Some v => Some v | None => q.1 end, mkHandoffStore p.2 (Some q.2))
  | None => Some (p.1, mkHandoffStore p.2 None)
  end.

Definition begin_rebalance (new_n : nat) (s : HandoffStore) : option HandoffStore :=
  if decide (new_n = O) then None
  else match old_shards s with
       | Some _ => None
       | None => Some (mkHandoffStore (fresh_shards new_n) (Some (new_shards s)))
       end.

Definition migrate_step (key : Z) (s : HandoffStore) : option (bool * HandoffStore) :=
  match old_shards s with
  | None => Some (false, s)
  | Some old =>
      p ← shards_remove key old;
      match p.1 with
      | None => Some (false, s)
      | Some v =>
          ss ← shards_insert key v (new_shards s);
          Some (true, mkHandoffStore ss (Some p.2))
      end
  end.

Definition complete_rebalance (s : HandoffStore) : option HandoffStore :=
  match old_shards s with
  | None => Some s
  | Some old => ss ← insert_all (old ≫= map_to_list) (new_shards s); Some (mkHandoffStore ss None)
  end.

Definition handoff_len (s : HandoffStore) : nat :=
  (shards_len (new_shards s) + match old_shards s with Some old => shards_len old | None => 0 end)%nat.

Definition handoff_is_empty (s : HandoffStore) : bool := bool_decide (handoff_len s = O).

(** * Representation *)

(** The shards hold exactly the entries of [m], each in the shard its key is
    routed to. *)
Definition shards_rep (ss : list Shard) (m : gmap Z Z) : Prop :=
  ss ≠ [] ∧ ∀ i sh, ss !! i = Some sh →
    ∀ k, sh !! k = if decide (shard_of k (length ss) = Some i) then m !! k else None.

Lemma mix_nonneg k n : (0 < n)%nat → 0 <= mix k mod Z.of_nat n < Z.of_nat n.
Proof. intros. apply Z.mod_pos_bound. lia. Qed.

Lemma shard_of_lt k n : n ≠ O → ∃ i, shard_of k n = Some i ∧ (i < n)%nat.
Proof.
  intros Hn. unfold shard_of. rewrite decide_False by done. eexists. split; [done|].
  pose proof (mix_nonneg k n). lia.
Qed.

(** Every key has a shard, and it holds that key's entry. *)
Lemma shards_rep_route ss m k :
  shards_rep ss m → ∃ i sh, shard_of k (length ss) = Some i ∧ ss !! i = Some sh ∧ sh !! k = m !! k.
Proof.
  intros [Hne Hrep]. destruct (shard_of_lt k (length ss)) as (i & Hi & Hlt).
  { by destruct ss. }
  destruct (lookup_lt_is_Some_2 ss i Hlt) as [sh Hsh]. exists i, sh. split; [done|]. split; [done|].
  rewrite (Hrep i sh Hsh k). by rewrite decide_True.
Qed.

Lemma fresh_shards_rep n : n ≠ O → shards_rep (fresh_shards n) ∅.
Proof.
  intros Hn. split; [by destruct n|]. intros i sh Hsh k. unfold fresh_shards in Hsh.
  apply lookup_replicate in Hsh as [-> _]. rewrite lookup_empty. by case_decide.
Qed.

Lemma shards_lookup_rep ss m k : shards_rep ss m → shards_lookup k ss = Some (m !! k).
Proof.
  intros Hrep. destruct (shards_rep_route ss m k Hrep) as (i & sh & Hi & Hsh & Hk).
  unfold shards_lookup. rewrite Hi. simpl. rewrite Hsh. simpl. by rewrite Hk.
Qed.

(** Changing one key in the shard it is routed to changes that key of the map. *)
Lemma shards_update_rep ss m k i sh sh' m' :
  shards_rep ss m → shard_of k (length ss) = Some i → ss !! i = Some sh →
  (∀ j, j ≠ k → sh' !! j = sh !! j) → sh' !! k = m' !! k → (∀ j, j ≠ k → m' !! j = m !! j) →
  shards_rep (<[i := sh']> ss) m'.
Proof.
  intros [Hne Hrep] Hi Hsh Hframe Hk Hm. split.
  { intros Hnil%(f_equal length). rewrite length_insert in Hnil. by destruct ss. }
  rewrite length_insert. intros i' x Hx j. rewrite list_lookup_insert in Hx.
  case_decide as Hii.
  - destruct Hii as [<- _]. injection Hx as <-. destruct (decide (j = k)) as [->|Hjk].
    + by rewrite decide_True.
    + rewrite Hframe, Hm by done. by apply Hrep.
  - rewrite (Hrep i' x Hx j). case_decide as Hr; [|done].
    rewrite Hm; [done|]. intros ->. apply Hii.
    rewrite Hi in Hr. injection Hr as <-. split; [done|]. by apply lookup_lt_Some in Hsh.
Qed.

Lemma shards_insert_rep ss m k v :
  shards_rep ss m → ∃ ss', shards_insert k v ss = Some ss' ∧ shards_rep ss' (<[k := v]> m) ∧
    length ss' = length ss.
Proof.
  intros Hrep. destruct (shards_rep_route ss m k Hrep) as (i & sh & Hi & Hsh & Hk).
  unfold shards_insert. rewrite Hi. simpl. rewrite Hsh. simpl. eexists. split; [done|].
  split; [|by rewrite length_insert].
  apply (shards_update_rep ss m k i sh); try done.
  - intros. by apply lookup_insert_ne.
  - by rewrite !lookup_insert_eq.
  - intros. by apply lookup_insert_ne.
Qed.

Lemma shards_remove_rep ss m k :
  shards_rep ss m → ∃ ss', shards_remove k ss = Some (m !! k, ss') ∧ shards_rep ss' (delete k m) ∧
    length ss' = length ss.
Proof.
  intros Hrep. destruct (shards_rep_route ss m k Hrep) as (i & sh & Hi & Hsh & Hk).
  unfold shards_remove. rewrite Hi. simpl. rewrite Hsh. simpl. eexists. split; [by rewrite Hk|].
  split; [|by rewrite length_insert].
  apply (shards_update_rep ss m k i sh); try done.
  - intros. by apply lookup_delete_ne.
  - by rewrite !lookup_delete_eq.
  - intros. by apply lookup_delete_ne.
Qed.

Lemma insert_all_rep kvs ss m :
  shards_rep ss m → ∃ ss', insert_all kvs ss = Some ss' ∧
    shards_rep ss' (foldl (λ m kv, <[kv.1 := kv.2]> m) m kvs) ∧ length ss' = length ss.
Proof.
  revert ss m. induction kvs as [|[k v] kvs IH]; intros ss m Hrep; simpl; [eauto|].
  destruct (shards_insert_rep ss m k v Hrep) as (ss1 & -> & Hrep1 & Hl1). simpl.
  destruct (IH ss1 _ Hrep1) as (ss2 & Hs2 & Hrep2 & Hl2). exists ss2. split_all; [done|done|congruence].
Qed.

(** ** Enumerations *)

(** The entries of all shards, in any order, are the entries of the map. *)
Lemma shards_entries ss m : shards_rep ss m → (ss ≫= map_to_list) ≡ₚ map_to_list m.
Proof.
  intros Hrep. apply NoDup_Permutation; [|apply NoDup_map_to_list|].
  - destruct Hrep as [_ Hrep].
    assert (Hgen : ∀ (l : list (gmap Z Z)) (off : nat), (∀ i sh, l !! i = Some sh → ss !! (off + i)%nat = Some sh) →
      NoDup (l ≫= map_to_list)).
    { induction l as [|sh l IH]; intros off Hl; csimpl; [constructor|].
      apply NoDup_app. split; [apply NoDup_map_to_list|]. split.
      - intros [k v] Hk%elem_of_map_to_list Hin. apply list_elem_of_bind in Hin as (sh' & Hk' & Hin).
        apply elem_of_map_to_list in Hk'. apply list_elem_of_lookup in Hin as [j Hj].
        pose proof (Hl O sh eq_refl) as H0. pose proof (Hl (S j) sh' Hj) as H1.
        rewrite (Hrep _ _ H0) in Hk. rewrite (Hrep _ _ H1) in Hk'.
        case_decide as E1; [|done]. case_decide as E2; [|done].
        rewrite E1 in E2. injection E2. lia.
      - apply (IH (S off)). intros i sh' Hi. rewrite Nat.add_succ_comm. by apply (Hl (S i)). }
    by apply (Hgen ss O).
  - intros [k v]. rewrite elem_of_map_to_list, list_elem_of_bind. split.
    + intros (sh & Hk & [i Hi]%list_elem_of_lookup). apply elem_of_map_to_list in Hk.
      destruct Hrep as [_ Hrep]. rewrite (Hrep i sh Hi) in Hk. by case_decide.
    + intros Hk. destruct (shards_rep_route ss m k Hrep) as (i & sh & _ & Hsh & Hsk).
      exists sh. split; [apply elem_of_map_to_list; congruence|]. by eapply list_elem_of_lookup_2.
Qed.

Lemma shards_len_rep ss m : shards_rep ss m → shards_len ss = size m.
Proof.
  intros Hrep. pose proof (Permutation_length (shards_entries ss m Hrep)) as Hlen.
  rewrite length_map_to_list in Hlen. rewrite <-Hlen. unfold shards_len. clear.
  induction ss as [|sh ss IH]; csimpl; [done|]. by rewrite length_app, length_map_to_list, IH.
Qed.

(** * The interface

    [S] is the concrete state, [M] the maintenance requests (rebalancing) and
    [A] what the outcome of maintenance depends on besides the map. *)

Class Kv (S A M : Type) := {
  kv_put : Z → Z → S → option S;
  kv_get : Z → S → option (option Z);
  kv_remove : Z → S → option (option Z * S);
  kv_len : S → nat;
  kv_maint : M → S → option S;
  kv_ctl : M → A → option A;
  kv_rep : S → A → gmap Z Z → Prop;
}.

(** What a client may rely on: no operation panics, except maintenance when
    [kv_ctl] says so; each is the operation on the map; maintenance leaves the
    map alone. *)
Class KvLaws (S A M : Type) `{Kv S A M} := {
  kv_put_ok k v s a m : kv_rep s a m → ∃ s', kv_put k v s = Some s' ∧ kv_rep s' a (<[k := v]> m);
  kv_get_ok k s a m : kv_rep s a m → kv_get k s = Some (m !! k);
  kv_remove_ok k s a m :
    kv_rep s a m → ∃ s', kv_remove k s = Some (m !! k, s') ∧ kv_rep s' a (delete k m);
  kv_len_ok s a m : kv_rep s a m → kv_len s = size m;
  kv_maint_ok x s a m :
    kv_rep s a m →
    match kv_ctl x a with
    | Some a' => ∃ s', kv_maint x s = Some s' ∧ kv_rep s' a' m
    | None => kv_maint x s = None
    end;
}.

(** A request, and the answer a client sees. *)
Inductive kv_op (M : Type) :=
| Kv_put (k v : Z) | Kv_get (k : Z) | Kv_remove (k : Z) | Kv_len | Kv_maint (x : M).
Arguments Kv_put {M} _ _.
Arguments Kv_get {M} _.
Arguments Kv_remove {M} _.
Arguments Kv_len {M}.
Arguments Kv_maint {M} _.

Inductive kv_answer := Ans_done | Ans_value (o : option Z) | Ans_count (n : nat).

Section history.
Context {S A M : Type} `{KvLaws S A M}.

(** A history on the store; [None] once something panics. *)
Fixpoint kv_run (ops : list (kv_op M)) (s : S) : option (list kv_answer) :=
  match ops with
  | [] => Some []
  | Kv_put k v :: ops => s ← kv_put k v s; r ← kv_run ops s; Some (Ans_done :: r)
  | Kv_get k :: ops => o ← kv_get k s; r ← kv_run ops s; Some (Ans_value o :: r)
  | Kv_remove k :: ops => p ← kv_remove k s; r ← kv_run ops p.2; Some (Ans_value p.1 :: r)
  | Kv_len :: ops => r ← kv_run ops s; Some (Ans_count (kv_len s) :: r)
  | Kv_maint x :: ops => s ← kv_maint x s; r ← kv_run ops s; Some (Ans_done :: r)
  end.

(** The same history on one map; only maintenance looks at the control state. *)
Fixpoint map_run (ops : list (kv_op M)) (a : A) (m : gmap Z Z) : option (list kv_answer) :=
  match ops with
  | [] => Some []
  | Kv_put k v :: ops => r ← map_run ops a (<[k := v]> m); Some (Ans_done :: r)
  | Kv_get k :: ops => r ← map_run ops a m; Some (Ans_value (m !! k) :: r)
  | Kv_remove k :: ops => r ← map_run ops a (delete k m); Some (Ans_value (m !! k) :: r)
  | Kv_len :: ops => r ← map_run ops a m; Some (Ans_count (size m) :: r)
  | Kv_maint x :: ops => a ← kv_ctl x a; r ← map_run ops a m; Some (Ans_done :: r)
  end.

Lemma kv_run_refines ops s a m : kv_rep s a m → kv_run ops s = map_run ops a m.
Proof.
  revert s a m. induction ops as [|o ops IH]; intros s a m Hrep; [done|].
  destruct o as [k v|k|k| |x]; cbn [kv_run map_run].
  - destruct (kv_put_ok k v s a m Hrep) as (s' & -> & Hrep'). cbn. by rewrite (IH s' a (<[k:=v]> m)).
  - rewrite (kv_get_ok k s a m Hrep). cbn. by rewrite (IH s a m).
  - destruct (kv_remove_ok k s a m Hrep) as (s' & -> & Hrep'). cbn. by rewrite (IH s' a (delete k m)).
  - rewrite (kv_len_ok s a m Hrep). by rewrite (IH s a m).
  - pose proof (kv_maint_ok x s a m Hrep) as Hx. destruct (kv_ctl x a) as [a'|].
    + destruct Hx as (s' & -> & Hrep'). cbn. by rewrite (IH s' a' m).
    + by rewrite Hx.
Qed.

End history.

(** ** The atomic store *)

#[export] Instance sharded_kv : Kv ShardedStore unit nat := {|
  kv_put := put;
  kv_get := get;
  kv_remove := remove;
  kv_len := len;
  kv_maint := rebalance;
  kv_ctl n _ := if decide (n = O) then None else Some ();
  kv_rep s _ m := shards_rep (ss_shards s) m;
|}.

(** Reinserting the entries of a map rebuilds it, in whatever order. *)
Lemma foldl_insert_entries (kvs : list (Z * Z)) (m m0 : gmap Z Z) :
  NoDup kvs.*1 → foldl (λ m kv, <[kv.1 := kv.2]> m) m0 kvs = list_to_map kvs ∪ m0.
Proof.
  revert m0. induction kvs as [|[k v] kvs IH]; intros m0 Hnd; csimpl.
  - by rewrite (left_id_L ∅ (∪)).
  - apply NoDup_cons in Hnd as [Hk Hnd]. rewrite IH by done.
    rewrite <-insert_union_l, insert_union_r; [done|]. by apply not_elem_of_list_to_map_1.
Qed.

Lemma foldl_insert_perm (kvs : list (Z * Z)) (m m0 : gmap Z Z) :
  kvs ≡ₚ map_to_list m → foldl (λ m kv, <[kv.1 := kv.2]> m) m0 kvs = m ∪ m0.
Proof.
  intros Hp. assert (Hnd : NoDup kvs.*1) by (rewrite Hp; apply NoDup_fst_map_to_list).
  rewrite foldl_insert_entries by done. f_equal.
  rewrite <-(list_to_map_to_list m). by apply list_to_map_proper.
Qed.

#[export] Instance sharded_kv_laws : KvLaws ShardedStore unit nat.
Proof.
  constructor; simpl.
  - intros k v s _ m Hrep. destruct (shards_insert_rep _ m k v Hrep) as (ss & Hs & Hrep' & _).
    unfold put. rewrite Hs. simpl. eauto.
  - intros k s _ m Hrep. by apply shards_lookup_rep.
  - intros k s _ m Hrep. destruct (shards_remove_rep _ m k Hrep) as (ss & Hs & Hrep' & _).
    unfold remove. rewrite Hs. simpl. eauto.
  - intros s _ m Hrep. by apply shards_len_rep.
  - intros n s _ m Hrep. unfold rebalance. case_decide as Hn; [done|].
    destruct (insert_all_rep (ss_shards s ≫= map_to_list) (fresh_shards n) ∅) as (ss & Hs & Hrep' & _).
    { by apply fresh_shards_rep. }
    rewrite Hs. simpl. eexists. split; [done|]. simpl.
    rewrite (foldl_insert_perm _ m) in Hrep' by by apply shards_entries.
    by rewrite (right_id_L ∅ (∪)) in Hrep'.
Qed.

(** ** The handoff store *)

Inductive handoff_maint := Maint_begin (n : nat) | Maint_migrate (k : Z) | Maint_complete.

(** New and old shards share no key; the map is both together. The control state
    says whether a migration is on. *)
Definition handoff_rep (s : HandoffStore) (migrating : bool) (m : gmap Z Z) : Prop :=
  match old_shards s with
  | None => migrating = false ∧ shards_rep (new_shards s) m
  | Some old => migrating = true ∧ ∃ mn mo, shards_rep (new_shards s) mn ∧ shards_rep old mo ∧
      mn ##ₘ mo ∧ m = mn ∪ mo
  end.

#[export] Instance handoff_kv : Kv HandoffStore bool handoff_maint := {|
  kv_put := handoff_put;
  kv_get := handoff_get;
  kv_remove := handoff_remove;
  kv_len := handoff_len;
  kv_maint x s := match x with
                  | Maint_begin n => begin_rebalance n s
                  | Maint_migrate k => p ← migrate_step k s; Some p.2
                  | Maint_complete => complete_rebalance s
                  end;
  kv_ctl x a := match x with
                | Maint_begin n => if decide (n = O ∨ a = true) then None else Some true
                | Maint_migrate _ => Some a
                | Maint_complete => Some false
                end;
  kv_rep := handoff_rep;
|}.

Lemma handoff_put_ok k v s a m :
  handoff_rep s a m → ∃ s', handoff_put k v s = Some s' ∧ handoff_rep s' a (<[k := v]> m).
Proof.
  unfold handoff_rep, handoff_put. destruct (old_shards s) as [old|].
  - intros (Ha & mn & mo & Hn & Ho & Hd & ->).
    destruct (shards_insert_rep _ mn k v Hn) as (ss & -> & Hn' & _). simpl.
    destruct (shards_remove_rep _ mo k Ho) as (os & -> & Ho' & _). simpl.
    eexists. split; [done|]. simpl. split; [done|]. exists (<[k := v]> mn), (delete k mo).
    split; [done|]. split; [done|]. split.
    + apply map_disjoint_insert_l_2; [apply lookup_delete_eq|]. by apply map_disjoint_delete_r.
    + apply map_eq. intros j. rewrite lookup_union. destruct (decide (j = k)) as [->|Hne].
      * by rewrite !lookup_insert_eq, lookup_delete_eq.
      * by rewrite !lookup_insert_ne, lookup_delete_ne, lookup_union.
  - intros (Ha & Hn). destruct (shards_insert_rep _ m k v Hn) as (ss & -> & Hn' & _). simpl.
    eexists. split; [done|]. done.
Qed.

Lemma handoff_get_ok k s a m : handoff_rep s a m → handoff_get k s = Some (m !! k).
Proof.
  unfold handoff_rep, handoff_get. destruct (old_shards s) as [old|].
  - intros (Ha & mn & mo & Hn & Ho & Hd & ->). rewrite (shards_lookup_rep _ mn k Hn). simpl.
    rewrite lookup_union. destruct (mn !! k) as [v|] eqn:E; simpl.
    + by destruct (mo !! k).
    + rewrite (shards_lookup_rep _ mo k Ho). by rewrite (left_id_L None (∪)).
  - intros (Ha & Hn). rewrite (shards_lookup_rep _ m k Hn). simpl. by destruct (m !! k).
Qed.

Lemma handoff_remove_ok k s a m :
  handoff_rep s a m → ∃ s', handoff_remove k s = Some (m !! k, s') ∧ handoff_rep s' a (delete k m).
Proof.
  unfold handoff_rep, handoff_remove. destruct (old_shards s) as [old|].
  - intros (Ha & mn & mo & Hn & Ho & Hd & ->).
    destruct (shards_remove_rep _ mn k Hn) as (ss & -> & Hn' & _). simpl.
    destruct (shards_remove_rep _ mo k Ho) as (os & -> & Ho' & _). simpl.
    eexists. split.
    { do 2 f_equal. rewrite lookup_union. by destruct (mn !! k), (mo !! k). }
    simpl. split; [done|]. exists (delete k mn), (delete k mo). split; [done|]. split; [done|].
    split; [by apply map_disjoint_delete_l, map_disjoint_delete_r|]. apply delete_union.
  - intros (Ha & Hn). destruct (shards_remove_rep _ m k Hn) as (ss & -> & Hn' & _). simpl.
    eexists. split; [done|]. done.
Qed.

Lemma handoff_len_ok s a m : handoff_rep s a m → handoff_len s = size m.
Proof.
  unfold handoff_rep, handoff_len. destruct (old_shards s) as [old|].
  - intros (Ha & mn & mo & Hn & Ho & Hd & ->).
    by rewrite (shards_len_rep _ mn Hn), (shards_len_rep _ mo Ho), map_size_disj_union.
  - intros (Ha & Hn). rewrite (shards_len_rep _ m Hn). lia.
Qed.

(** Moving a key from the old map to the new one keeps their union. *)
Lemma migrate_union (mn mo : gmap Z Z) k v :
  mn ##ₘ mo → mo !! k = Some v →
  <[k := v]> mn ##ₘ delete k mo ∧ <[k := v]> mn ∪ delete k mo = mn ∪ mo.
Proof.
  intros Hd Hk. split.
  - apply map_disjoint_insert_l_2; [apply lookup_delete_eq|]. by apply map_disjoint_delete_r.
  - apply map_eq. intros j. rewrite !lookup_union. destruct (decide (j = k)) as [->|Hne].
    + rewrite lookup_insert_eq, lookup_delete_eq, Hk.
      assert (mn !! k = None) as -> by by apply (map_disjoint_Some_r mn mo k v). done.
    + by rewrite lookup_insert_ne, lookup_delete_ne.
Qed.

Lemma handoff_maint_ok x s a m :
  handoff_rep s a m →
  match kv_ctl x a with
  | Some a' => ∃ s', kv_maint x s = Some s' ∧ handoff_rep s' a' m
  | None => kv_maint x s = None
  end.
Proof.
  intros Hrep. destruct x as [n|k|]; simpl.
  - unfold begin_rebalance. unfold handoff_rep in Hrep. case_decide as Hc; case_decide as Hn; try tauto.
    + destruct Hc as [?| ->]; [done|]. destruct (old_shards s); [done|]. by destruct Hrep.
    + destruct (old_shards s); [tauto|]. destruct Hrep as [_ Hn']. eexists. split; [done|]. simpl.
      split; [done|]. exists ∅, m. split; [by apply fresh_shards_rep|]. split; [done|].
      split; [apply map_disjoint_empty_l|]. by rewrite (left_id_L ∅ (∪)).
  - unfold migrate_step. unfold handoff_rep in *. destruct (old_shards s) as [old|] eqn:Eo.
    + destruct Hrep as (Ha & mn & mo & Hn & Ho & Hd & ->).
      destruct (shards_remove_rep _ mo k Ho) as (os & -> & Ho' & _). simpl.
      destruct (mo !! k) as [v|] eqn:Ek; simpl.
      * destruct (shards_insert_rep _ mn k v Hn) as (ss & -> & Hn' & _). simpl.
        eexists. split; [done|]. simpl. split; [done|]. exists (<[k := v]> mn), (delete k mo).
        split; [done|]. split; [done|]. destruct (migrate_union mn mo k v Hd Ek) as [? Hu]. done.
      * exists s. split; [done|]. rewrite Eo. split; [done|]. eauto 10.
    + exists s. split; [done|]. rewrite Eo. done.
  - unfold complete_rebalance. unfold handoff_rep in *. destruct (old_shards s) as [old|] eqn:Eo.
    + destruct Hrep as (Ha & mn & mo & Hn & Ho & Hd & ->).
      destruct (insert_all_rep (old ≫= map_to_list) _ mn Hn) as (ss & -> & Hrep' & _). simpl.
      eexists. split; [done|]. simpl. split; [done|].
      rewrite (foldl_insert_perm _ mo) in Hrep' by by apply shards_entries.
      by rewrite map_union_comm in Hrep' by done.
    + exists s. split; [done|]. rewrite Eo. split; [done|]. by destruct Hrep.
Qed.

#[export] Instance handoff_kv_laws : KvLaws HandoffStore bool handoff_maint.
Proof.
  constructor; simpl.
  - apply handoff_put_ok.
  - apply handoff_get_ok.
  - apply handoff_remove_ok.
  - apply handoff_len_ok.
  - apply handoff_maint_ok.
Qed.

(** * Theorems *)

(** Every history of puts, gets, removes, counts and rebalances on the
    sharded store gives the answers of a single map that rebalancing does not
    touch; the only panic is a shard count of zero. *)
Theorem sharded_store_refines_map n s ops :
  new n = Some s → kv_run ops s = map_run (S:=ShardedStore) ops () ∅.
Proof.
  intros Hnew. apply kv_run_refines. unfold new in Hnew. case_decide; [done|]. simplify_eq. simpl.
  by apply fresh_shards_rep.
Qed.

(** C38: the same for the store that migrates key by key: at every point of a
    migration, after any steps in any order, every answer is that of the single
    map; the only panics are a shard count of zero and a second migration begun
    before the first is complete. *)
Theorem handoff_store_refines_map n s ops :
  handoff_new n = Some s → kv_run ops s = map_run (S:=HandoffStore) ops false ∅.
Proof.
  intros Hnew. apply kv_run_refines. unfold handoff_new in Hnew. case_decide; [done|]. simplify_eq.
  simpl. split; [done|]. by apply fresh_shards_rep.
Qed.

(** * Witnesses *)

Lemma sharded_store_refines_map_witness :
  kv_run (S:=ShardedStore) [Kv_put 1 10; Kv_put 2 20; Kv_maint 5%nat; Kv_get 1; Kv_remove 2; Kv_len]
    (mkShardedStore (fresh_shards 3)) =
  Some [Ans_done; Ans_done; Ans_done; Ans_value (Some 10); Ans_value (Some 20); Ans_count 1].
Proof.
  rewrite (sharded_store_refines_map 3 (mkShardedStore (fresh_shards 3)) _ eq_refl).
  vm_compute. reflexivity.
Defined.

Lemma handoff_store_refines_map_witness :
  kv_run (S:=HandoffStore) [Kv_put 1 10; Kv_put 2 20; Kv_maint (Maint_begin 5); Kv_maint (Maint_migrate 1);
    Kv_get 1; Kv_get 2; Kv_maint Maint_complete; Kv_get 2] (mkHandoffStore (fresh_shards 3) None) =
  Some [Ans_done; Ans_done; Ans_done; Ans_done; Ans_value (Some 10); Ans_value (Some 20); Ans_done;
    Ans_value (Some 20)].
Proof.
  rewrite (handoff_store_refines_map 3 (mkHandoffStore (fresh_shards 3) None) _ eq_refl).
  vm_compute. reflexivity.
Defined.
