(* ===== verification/Gossip.v ===== *)
(** Anti-entropy gossip over last-writer-wins registers
    (src/crates/cosaci-core/src/gossip.rs).

    A node state is a map from keys to timestamped entries; [merge] keeps the
    dominating entry of each key. The theorems show that merging is a join of a
    semilattice, and that pairwise gossip in any order brings every node that
    heard, directly or not, from the same nodes to the same state. *)

From S2P Require Import Prelude.

Record Entry := mkEntry { e_value : Z; e_timestamp : Z }.

#[export] Instance Entry_eq_dec : EqDecision Entry.
Proof. solve_decision. Defined.

Record NodeState := mkNodeState { entries : gmap Z Entry }.

Definition new : NodeState := mkNodeState ∅.

Definition entry_dominates (a b : Entry) : bool :=
  if e_timestamp a =? e_timestamp b then e_value b <=? e_value a
  else e_timestamp b <? e_timestamp a.

Definition write (key value timestamp : Z) (s : NodeState) : NodeState :=
  let incoming := mkEntry value timestamp in
  let keep_existing := match entries s !! key with
                       | Some existing => entry_dominates existing incoming
                       | None => false
                       end in
  if negb keep_existing then mkNodeState (<[key := incoming]> (entries s)) else s.

Definition get (key : Z) (s : NodeState) : option Entry := entries s !! key.

Definition len (s : NodeState) : nat := size (entries s).

Definition is_empty (s : NodeState) : bool := bool_decide (entries s = ∅).

Definition keys (s : NodeState) : list Z := (map_to_list (entries s)).*1.

(** One iteration of the loop of [merge]. *)
Definition merge_entry (out : gmap Z Entry) (p : Z * Entry) : gmap Z Entry :=
  let '(k, entry_b) := p in
  let winner := match out !! k with
                | Some entry_a => if entry_dominates entry_a entry_b then entry_a else entry_b
                | None => entry_b
                end in
  <[k := winner]> out.

Definition merge (a b : NodeState) : NodeState :=
  mkNodeState (foldl merge_entry (entries a) (map_to_list (entries b))).

(** * Domination is a total order *)

Definition dom_le (b a : Entry) : Prop := entry_dominates a b = true.

Lemma dom_le_spec b a :
  dom_le b a ↔ e_timestamp b < e_timestamp a ∨ e_timestamp a = e_timestamp b ∧ e_value b <= e_value a.
Proof.
  unfold dom_le, entry_dominates. destruct (Z.eqb_spec (e_timestamp a) (e_timestamp b)).
  - rewrite Z.leb_le. lia.
  - rewrite Z.ltb_lt. lia.
Qed.

Lemma dom_le_total a b : dom_le a b ∨ dom_le b a.
Proof. rewrite !dom_le_spec. lia. Qed.

Lemma dom_le_trans a b c : dom_le a b → dom_le b c → dom_le a c.
Proof. rewrite !dom_le_spec. lia. Qed.

Lemma dom_le_antisym a b : dom_le a b → dom_le b a → a = b.
Proof.
  rewrite !dom_le_spec. destruct a as [v t], b as [w u]. simpl. intros.
  assert (v = w ∧ t = u) as [-> ->] by lia. done.
Qed.

Lemma dom_le_refl a : dom_le a a.
Proof. rewrite dom_le_spec. lia. Qed.

(** The entry [merge] keeps of two. *)
Definition best (a b : Entry) : Entry := if entry_dominates a b then a else b.

Lemma best_l a b : dom_le a (best a b).
Proof.
  unfold best. destruct (entry_dominates a b) eqn:E; [apply dom_le_refl|].
  destruct (dom_le_total a b) as [H|H]; [done|]. unfold dom_le in H. congruence.
Qed.

Lemma best_r a b : dom_le b (best a b).
Proof. unfold best. destruct (entry_dominates a b) eqn:E; [done|apply dom_le_refl]. Qed.

Lemma best_cases a b : best a b = a ∨ best a b = b.
Proof. unfold best. destruct (entry_dominates a b); auto. Qed.

(** The loop in closed form, for every iteration order of the hash map. *)
Lemma merge_loop_lookup (l : list (Z * Entry)) (out : gmap Z Entry) k :
  NoDup l.*1 →
  foldl merge_entry out l !! k =
  union_with (λ a b, Some (best a b)) (out !! k) ((list_to_map l : gmap Z Entry) !! k).
Proof.
  revert out. induction l as [|[i e] l IH]; intros out Hnd; csimpl.
  - rewrite lookup_empty. by destruct (out !! k).
  - apply NoDup_cons in Hnd as [Hi Hnd]. rewrite IH by done. unfold merge_entry.
    destruct (decide (i = k)) as [->|Hne].
    + rewrite !lookup_insert_eq, not_elem_of_list_to_map_1 by done. by destruct (out !! k).
    + by rewrite !lookup_insert_ne.
Qed.

Lemma merge_lookup a b k :
  entries (merge a b) !! k =
  union_with (λ x y, Some (best x y)) (entries a !! k) (entries b !! k).
Proof.
  unfold merge. simpl. rewrite merge_loop_lookup by apply NoDup_fst_map_to_list.
  by rewrite list_to_map_to_list.
Qed.

(** * Joins *)

(** [s] is the join of the states of the nodes in [K]: at each key it holds one
    of their entries, and one that dominates them all. *)
Definition is_join (init : nat → NodeState) (K : gset nat) (s : NodeState) : Prop :=
  ∀ k, (∀ j e, j ∈ K → entries (init j) !! k = Some e →
          ∃ e', entries s !! k = Some e' ∧ dom_le e e') ∧
       (∀ e', entries s !! k = Some e' → ∃ j, j ∈ K ∧ entries (init j) !! k = Some e').

Lemma is_join_unique init K s t : is_join init K s → is_join init K t → s = t.
Proof.
  intros Hs Ht. destruct s as [s], t as [t]. f_equal. apply map_eq. intros k.
  destruct (Hs k) as [Hs1 Hs2], (Ht k) as [Ht1 Ht2]. simpl in *.
  destruct (s !! k) as [e|] eqn:Es, (t !! k) as [f|] eqn:Et.
  - destruct (Hs2 e eq_refl) as (i & Hi & Hei), (Ht2 f eq_refl) as (j & Hj & Hfj).
    destruct (Hs1 j f Hj Hfj) as (e1 & [= <-] & ?). destruct (Ht1 i e Hi Hei) as (e2 & [= <-] & ?).
    f_equal. by apply dom_le_antisym.
  - destruct (Hs2 e eq_refl) as (i & Hi & Hei). by destruct (Ht1 i e Hi Hei) as (? & ? & _).
  - destruct (Ht2 f eq_refl) as (j & Hj & Hfj). by destruct (Hs1 j f Hj Hfj) as (? & ? & _).
  - done.
Qed.

Lemma is_join_singleton init i : is_join init {[i]} (init i).
Proof.
  intros k. split.
  - intros j e ->%elem_of_singleton He. exists e. split; [done|apply dom_le_refl].
  - intros e' He'. exists i. split; [by apply elem_of_singleton|done].
Qed.

Lemma is_join_merge init K L s t :
  is_join init K s → is_join init L t → is_join init (K ∪ L) (merge s t).
Proof.
  intros Hs Ht k. destruct (Hs k) as [Hs1 Hs2], (Ht k) as [Ht1 Ht2]. rewrite merge_lookup. split.
  - intros j e [Hj|Hj]%elem_of_union He.
    + destruct (Hs1 j e Hj He) as (e1 & -> & Hle). destruct (entries t !! k) as [f|]; simpl.
      * eexists. split; [done|]. eapply dom_le_trans; [done|apply best_l].
      * eauto.
    + destruct (Ht1 j e Hj He) as (f & -> & Hle). destruct (entries s !! k) as [e1|]; simpl.
      * eexists. split; [done|]. eapply dom_le_trans; [done|apply best_r].
      * eauto.
  - intros e'. destruct (entries s !! k) as [e|] eqn:Es, (entries t !! k) as [f|] eqn:Et; simpl; try done.
    + intros [= <-]. destruct (best_cases e f) as [-> | ->].
      * destruct (Hs2 e eq_refl) as (j & ? & ?). exists j. split; [apply elem_of_union; by left|done].
      * destruct (Ht2 f eq_refl) as (j & ? & ?). exists j. split; [apply elem_of_union; by right|done].
    + intros [= <-]. destruct (Hs2 e eq_refl) as (j & ? & ?). exists j. split; [apply elem_of_union; by left|done].
    + intros [= <-]. destruct (Ht2 f eq_refl) as (j & ? & ?). exists j. split; [apply elem_of_union; by right|done].
Qed.

(** * Gossip rounds *)

(** In a round node [i] merges the state of node [j] into its own; alongside
    goes the set of nodes each has heard from. *)
Definition pull {A} (f : A → A → A) (nodes : nat → A) (r : nat * nat) : nat → A :=
  λ x, if decide (x = r.1) then f (nodes r.1) (nodes r.2) else nodes x.

Definition gossip (rounds : list (nat * nat)) (init : nat → NodeState) : nat → NodeState :=
  foldl (pull merge) init rounds.

Definition heard (rounds : list (nat * nat)) : nat → gset nat :=
  foldl (pull (∪)) (λ i, {[i]}) rounds.

Lemma gossip_joins init rounds i : is_join init (heard rounds i) (gossip rounds init i).
Proof.
  unfold heard, gossip. revert i. induction rounds as [|[a b] rounds IH] using rev_ind; intros i.
  - apply is_join_singleton.
  - rewrite !foldl_app. simpl. unfold pull at 1 3. simpl. case_decide; [|apply IH].
    by apply is_join_merge.
Qed.

(** A local write is the merge of a one-entry state. *)
Lemma write_merge k v t a :
  write k v t a = merge a (mkNodeState {[k := mkEntry v t]}).
Proof.
  destruct a as [a]. set (b := mkNodeState {[k := mkEntry v t]}).
  assert (Hm : entries (write k v t (mkNodeState a)) = entries (merge (mkNodeState a) b)).
  { apply map_eq. intros x. rewrite merge_lookup. unfold write, b. simpl.
    destruct (decide (x = k)) as [->|Hne].
    - rewrite lookup_singleton_eq. unfold best. destruct (a !! k) as [e|] eqn:E; simpl.
      + destruct (entry_dominates e (mkEntry v t)); simpl; [done|]. apply lookup_insert_eq.
      + apply lookup_insert_eq.
    - rewrite lookup_singleton_ne by done. destruct (negb _); simpl;
        rewrite ?lookup_insert_ne by done; by destruct (a !! x). }
  destruct (write _ _ _ _), (merge _ _). simpl in Hm. by subst.
Qed.

(** * Theorems *)

(** Merging is commutative, associative and idempotent, whatever order the
    hash map is visited in, and a local write is the merge of a one-entry
    state. *)
Theorem merge_semilattice a b c k v t :
  merge a b = merge b a ∧ merge a (merge b c) = merge (merge a b) c ∧ merge a a = a ∧
  write k v t a = merge a (mkNodeState {[k := mkEntry v t]}).
Proof.
  set (init := λ i : nat, match i with O => a | S O => b | _ => c end).
  assert (Ha : is_join init {[0%nat]} a) by apply (is_join_singleton init 0).
  assert (Hb : is_join init {[1%nat]} b) by apply (is_join_singleton init 1).
  assert (Hc : is_join init {[2%nat]} c) by apply (is_join_singleton init 2).
  split; [|split; [|split]].
  - apply (is_join_unique init ({[0%nat]} ∪ {[1%nat]})); [by apply is_join_merge|].
    rewrite (comm_L (∪)). by apply is_join_merge.
  - apply (is_join_unique init ({[0%nat]} ∪ ({[1%nat]} ∪ {[2%nat]}))).
    + by repeat apply is_join_merge.
    + rewrite (assoc_L (∪)). by repeat apply is_join_merge.
  - apply (is_join_unique init ({[0%nat]})); [|done].
    replace ({[0%nat]} : gset nat) with ({[0%nat]} ∪ {[0%nat]} : gset nat)
      by (by rewrite (idemp_L (∪))). by apply is_join_merge.
  - apply write_merge.
Qed.

(** After any rounds of pairwise gossip, in any order and with any
    repetitions, two nodes that have heard from the same nodes hold the same
    state; and a node's state holds, for each key, the dominating entry among
    the nodes it has heard from. *)
Theorem gossip_converges init rounds i j :
  heard rounds i = heard rounds j →
  gossip rounds init i = gossip rounds init j ∧
  is_join init (heard rounds i) (gossip rounds init i).
Proof.
  intros Heq. split; [|apply gossip_joins].
  apply (is_join_unique init (heard rounds i)); [apply gossip_joins|].
  rewrite Heq. apply gossip_joins.
Qed.

(** * Witness *)

Definition demo_nodes (i : nat) : NodeState :=
  match i with
  | O => write 1 10 5 new
  | S O => write 1 20 5 (write 2 7 1 new)
  | _ => write 1 30 4 new
  end.

Definition demo_rounds : list (nat * nat) := [(0, 1); (2, 0); (1, 2); (0, 1)]%nat.

Lemma gossip_converges_witness :
  gossip demo_rounds demo_nodes 0 = gossip demo_rounds demo_nodes 1.
Proof.
  refine (proj1 (gossip_converges demo_nodes demo_rounds 0 1 _)). by_decide.
Defined.
