(* ===== verification/Bloom.v ===== *)
(** Bloom filter
    (src/crates/cosaci-core/src/bloom.rs).

    Bits are packed in 64-bit words; every index that leaves the word vector is
    a panic, [None]. The theorem is the absence of false negatives, with no
    panic, for every sequence of insertions. The floating-point estimate of the
    false-positive rate takes [exp] and [powi] as parameters. *)

From Stdlib Require Import Floats.SpecFloat.
From S2P Require Import Prelude Attestation StakeLedger.

Record BloomFilter := mkBloomFilter { bf_bits : list Z; bf_m : Z; bf_k : nat }.

Definition new (m_bits : Z) (k_hashes : nat) : option BloomFilter :=
  if (m_bits =? 0) || bool_decide (k_hashes = O) then None
  else Some (mkBloomFilter (replicate (Z.to_nat (div_ceil m_bits 64)) 0) m_bits k_hashes).

Section bloom.
Context `{Sha256}.

(** The index of hash function [i]. *)
Definition hash_index (m : Z) (item : bytes) (i : nat) : Z :=
  of_le_bytes (take 8 (sha256 (item ++ le_bytes 4 (wrap 32 (Z.of_nat i))))) mod m.

Definition hash_indices (f : BloomFilter) (item : bytes) : list Z :=
  hash_index (bf_m f) item <$> seq 0 (bf_k f).

(** [self.bits[idx / 64] |= 1 << (idx % 64)]. *)
Definition set_bit (bits : list Z) (idx : Z) : option (list Z) :=
  w ← bits !! Z.to_nat (idx / 64);
  Some (<[Z.to_nat (idx / 64) := Z.lor w (Z.shiftl 1 (idx mod 64))]> bits).

Fixpoint set_bits (bits : list Z) (idxs : list Z) : option (list Z) :=
  match idxs with [] => Some bits | i :: idxs => bits ← set_bit bits i; set_bits bits idxs end.

Definition insert (item : bytes) (f : BloomFilter) : option BloomFilter :=
  bits ← set_bits (bf_bits f) (hash_indices f item);
  Some (mkBloomFilter bits (bf_m f) (bf_k f)).

(** The loop of [contains], with its early return. *)
Fixpoint all_set (bits : list Z) (idxs : list Z) : option bool :=
  match idxs with
  | [] => Some true
  | idx :: idxs =>
      w ← bits !! Z.to_nat (idx / 64);
      if Z.land w (Z.shiftl 1 (idx mod 64)) =? 0 then Some false else all_set bits idxs
  end.

Definition contains (item : bytes) (f : BloomFilter) : option bool :=
  all_set (bf_bits f) (hash_indices f item).

Definition capacity_bits (f : BloomFilter) : Z := bf_m f.

Definition num_hashes (f : BloomFilter) : nat := bf_k f.

(** * Lemmas *)

(** Bit [idx] of the packed vector. *)
Definition bit_at (bits : list Z) (idx : Z) : bool :=
  match bits !! Z.to_nat (idx / 64) with Some w => Z.testbit w (idx mod 64) | None => false end.

Definition in_range (bits : list Z) (idx : Z) : Prop := 0 <= idx < 64 * Z.of_nat (length bits).

Lemma in_range_word bits idx : in_range bits idx → is_Some (bits !! Z.to_nat (idx / 64)).
Proof.
  intros [H0 H1]. apply lookup_lt_is_Some_2.
  assert (idx / 64 < Z.of_nat (length bits)) by (apply Z.div_lt_upper_bound; lia).
  pose proof (Z.div_pos idx 64). lia.
Qed.

Lemma mask_zero w b : 0 <= b → (Z.land w (Z.shiftl 1 b) =? 0) = negb (Z.testbit w b).
Proof.
  intros Hb. destruct (Z.testbit w b) eqn:E; simpl.
  - apply Z.eqb_neq. intros Hz. apply (f_equal (λ x, Z.testbit x b)) in Hz.
    rewrite Z.land_spec, Z.shiftl_spec, Z.sub_diag, E, Z.bits_0 in Hz by done. done.
  - apply Z.eqb_eq, Z.bits_inj'. intros n Hn. rewrite Z.land_spec, Z.bits_0.
    destruct (decide (n = b)) as [->|Hne]; [by rewrite E|].
    rewrite Z.shiftl_1_l, Z.pow2_bits_false by lia. apply andb_false_r.
Qed.

Lemma set_bit_ok bits idx :
  in_range bits idx →
  ∃ bits', set_bit bits idx = Some bits' ∧ length bits' = length bits ∧ bit_at bits' idx = true ∧
    ∀ j, 0 <= j → bit_at bits j = true → bit_at bits' j = true.
Proof.
  intros Hr. destruct (in_range_word bits idx Hr) as [w Hw]. unfold set_bit. rewrite Hw. simpl.
  pose proof (Z.mod_pos_bound idx 64). eexists. split; [done|]. split; [apply length_insert|].
  assert (Hlt : (Z.to_nat (idx / 64) < length bits)%nat) by by apply lookup_lt_Some in Hw.
  split.
  - unfold bit_at. rewrite list_lookup_insert_eq by done.
    rewrite Z.lor_spec, Z.shiftl_spec, Z.sub_diag by lia. apply orb_true_r.
  - intros j Hj. unfold bit_at. rewrite list_lookup_insert.
    case_decide as Hjj; [|done]. destruct Hjj as [<- _]. rewrite Hw. intros Hb.
    by rewrite Z.lor_spec, Hb.
Qed.

Lemma set_bits_ok bits idxs :
  Forall (in_range bits) idxs →
  ∃ bits', set_bits bits idxs = Some bits' ∧ length bits' = length bits ∧
    Forall (λ i, bit_at bits' i = true) idxs ∧
    ∀ j, 0 <= j → bit_at bits j = true → bit_at bits' j = true.
Proof.
  intros Hr. revert bits Hr. induction idxs as [|i idxs IH]; intros bits Hr; cbn [set_bits].
  { exists bits. split_all; try done. }
  apply Forall_cons in Hr as [Hi Hr].
  destruct (set_bit_ok bits i Hi) as (b1 & -> & Hl1 & Hi1 & Hm1). simpl.
  destruct (IH b1) as (b2 & -> & Hl2 & Hall & Hm2).
  { eapply Forall_impl; [exact Hr|]. unfold in_range. by rewrite Hl1. }
  exists b2. split; [done|]. split; [congruence|]. split.
  - constructor; [|done]. apply Hm2; [apply Hi|done].
  - intros j Hj Hb. auto.
Qed.

Lemma all_set_ok bits idxs :
  Forall (in_range bits) idxs →
  all_set bits idxs = Some (forallb (bit_at bits) idxs).
Proof.
  induction 1 as [|i idxs Hi Hr IH]; simpl; [done|].
  destruct (in_range_word bits i Hi) as [w Hw]. pose proof (Z.mod_pos_bound i 64).
  rewrite Hw. simpl. rewrite mask_zero by lia. unfold bit_at at 1. rewrite Hw.
  by destruct (Z.testbit w (i mod 64)).
Qed.

Lemma forallb_iff (p : Z → bool) l : forallb p l = true ↔ Forall (λ x, p x = true) l.
Proof.
  induction l as [|x l IH]; simpl; [done|]. by rewrite andb_true_iff, Forall_cons, IH.
Qed.

(** A filter whose vector covers its bit count. *)
Definition bf_ok (f : BloomFilter) : Prop :=
  0 < bf_m f ∧ bf_m f <= 64 * Z.of_nat (length (bf_bits f)) ∧ bf_k f ≠ O.

Lemma hash_indices_in_range f item : bf_ok f → Forall (in_range (bf_bits f)) (hash_indices f item).
Proof.
  intros (Hm & Hlen & _). apply Forall_fmap, Forall_true. intros i. unfold in_range. simpl.
  unfold hash_index. pose proof (Z.mod_pos_bound
    (of_le_bytes (take 8 (sha256 (item ++ le_bytes 4 (wrap 32 (Z.of_nat i)))))) (bf_m f) Hm). lia.
Qed.

Lemma new_ok m k f : 0 <= m → new m k = Some f → bf_ok f ∧ bf_m f = m ∧ bf_k f = k.
Proof.
  unfold new. intros Hm. destruct (Z.eqb_spec m 0); [done|]. case_bool_decide; [done|].
  simpl. intros [= <-]. unfold bf_ok. simpl. rewrite length_replicate.
  pose proof (div_ceil_least m 64 (div_ceil m 64)). lia.
Qed.

Lemma insert_ok item f :
  bf_ok f → ∃ f', insert item f = Some f' ∧ bf_ok f' ∧ bf_m f' = bf_m f ∧ bf_k f' = bf_k f ∧
    contains item f' = Some true ∧
    ∀ x, contains x f = Some true → contains x f' = Some true.
Proof.
  intros Hf. pose proof (hash_indices_in_range f item Hf) as Hr.
  destruct (set_bits_ok (bf_bits f) (hash_indices f item) Hr) as (bits & Hb & Hl & Hall & Hm).
  unfold insert. rewrite Hb. simpl. eexists. split; [done|].
  set (f' := mkBloomFilter bits (bf_m f) (bf_k f)).
  assert (Hf' : bf_ok f') by (unfold bf_ok, f' in *; simpl; by rewrite Hl).
  split; [done|]. split; [done|]. split; [done|]. unfold contains. split.
  - rewrite all_set_ok by by apply hash_indices_in_range. f_equal.
    by apply forallb_iff.
  - intros x. rewrite !all_set_ok by by apply hash_indices_in_range. intros [= Hx]. f_equal.
    apply forallb_iff. apply forallb_iff in Hx.
    pose proof (hash_indices_in_range f x Hf) as Hrx. rewrite Forall_forall in Hx, Hrx.
    apply Forall_forall. intros i Hi. apply Hm; [apply (Hrx i Hi)|]. by apply Hx.
Qed.

Fixpoint insert_all (items : list bytes) (f : BloomFilter) : option BloomFilter :=
  match items with [] => Some f | x :: items => f ← insert x f; insert_all items f end.

Lemma insert_all_ok items f :
  bf_ok f → ∃ f', insert_all items f = Some f' ∧ bf_ok f' ∧
    (∀ x, x ∈ items → contains x f' = Some true) ∧
    (∀ x, contains x f = Some true → contains x f' = Some true).
Proof.
  revert f. induction items as [|y items IH]; intros f Hf; cbn [insert_all].
  { exists f. split_all; try done. by intros x ?%elem_of_nil. }
  destruct (insert_ok y f Hf) as (f1 & -> & Hf1 & _ & _ & Hy & Hm1). simpl.
  destruct (IH f1 Hf1) as (f2 & -> & Hf2 & Hin & Hm2). exists f2. split; [done|]. split; [done|].
  split; [|auto]. intros x [->|Hx]%elem_of_cons; auto.
Qed.

(** In a filter of any size, after any insertions (none of which panics),
    every inserted item is reported present; and a fresh filter reports nothing
    present. *)
Theorem bloom_no_false_negatives m k f items x :
  0 <= m → new m k = Some f →
  (∃ f', insert_all items f = Some f' ∧ (x ∈ items → contains x f' = Some true)) ∧
  contains x f = Some false.
Proof.
  intros Hm Hnew. destruct (new_ok m k f Hm Hnew) as (Hf & Hfm & Hfk). split.
  - destruct (insert_all_ok items f Hf) as (f' & Hi & _ & Hin & _). exists f'. split; [done|]. apply Hin.
  - unfold contains. rewrite all_set_ok by by apply hash_indices_in_range. f_equal.
    unfold hash_indices. destruct Hf as (_ & _ & Hk). destruct (bf_k f) as [|k'] eqn:Ek; [done|].
    simpl. apply andb_false_iff. left. unfold new in Hnew.
    destruct ((m =? 0) || bool_decide (k = O)); [done|]. injection Hnew as <-. simpl.
    unfold bit_at. destruct (replicate _ _ !! _) as [w|] eqn:Ew; [|done].
    apply lookup_replicate in Ew as [-> _]. apply Z.bits_0.
Qed.

End bloom.

(** * The estimate of the false-positive rate *)

(** [f64::exp] and [f64::powi]. *)
Class F64Math := { f64_exp : spec_float → spec_float; f64_powi : spec_float → Z → spec_float }.

(** Both are exact at the arguments of an empty filter: [exp] at a zero, [powi]
    of zero at a positive exponent. *)
Class F64MathLaws `{F64Math} := {
  f64_exp_zero s : f64_exp (S754_zero s) = f64_of_u64 1;
  f64_powi_zero k : 0 < k → f64_powi (S754_zero false) k = S754_zero false;
}.

(** [usize as i32]. *)
Definition as_i32 (n : Z) : Z := let w := wrap 32 n in if w <? 2 ^ 31 then w else w - 2 ^ 32.

Section rate.
Context `{F64MathLaws}.

Definition theoretical_fp_rate (m_bits k_hashes n_inserts : Z) : spec_float :=
  let exponent := SFdiv 53 1024 (SFmul 53 1024 (SFopp (f64_of_u64 k_hashes)) (f64_of_u64 n_inserts)) (f64_of_u64 m_bits) in
  let bit_set_prob := SFsub 53 1024 (f64_of_u64 1) (f64_exp exponent) in
  f64_powi bit_set_prob (as_i32 k_hashes).

(** Nothing inserted, nothing found by mistake: the estimate is zero. *)
Lemma theoretical_fp_rate_empty m k :
  0 < k < 2 ^ 31 →
  (∃ d e, f64_of_u64 m = S754_finite false d e) → (∃ d e, f64_of_u64 k = S754_finite false d e) →
  theoretical_fp_rate m k 0 = S754_zero false.
Proof.
  intros Hk (d & e & Hm) (d' & e' & Hf). unfold theoretical_fp_rate. rewrite Hm, Hf. cbn [f64_of_u64 binary_normalize SFopp SFmul SFdiv].
  rewrite f64_exp_zero. replace (SFsub _ _ _ _) with (S754_zero false) by reflexivity. apply f64_powi_zero.
  unfold as_i32. rewrite wrap_small by (unfold uint; lia). case_match; zbool; lia.
Qed.

End rate.

(** * Witness *)

Import (hints) Toy.

Lemma bloom_no_false_negatives_witness :
  ∃ f', insert_all [[1]; [2]] (mkBloomFilter [0; 0] 100 3) = Some f' ∧ contains [2] f' = Some true.
Proof.
  destruct (bloom_no_false_negatives 100 3 (mkBloomFilter [0; 0] 100 3) [[1]; [2]] [2]
    ltac:(lia) ltac:(vm_compute; reflexivity)) as [(f' & Hf & Hx) _].
  exists f'. split; [exact Hf|]. apply Hx. by_decide.
Defined.
