(* ===== verification/Verifier.v ===== *)
(** Deterministic-execution verifier
    (src/crates/cosaci-core/src/verifier.rs).

    Leaves are sorted before the Merkle tree is built. The theorem shows the
    root to be a function of the multiset of leaves, and inclusion proofs to
    exist for exactly the leaves and to verify. *)

From S2P Require Import Prelude Attestation Capabilities MerkleLog.

Record InclusionProof := mkInclusionProof {
  ip_leaf : bytes;
  ip_index : nat;
  ip_proof_hashes : list bytes;
  ip_total_leaves : nat;
}.

(** [sort_unstable] by the lexicographic order of byte arrays: equal leaves are
    indistinguishable, so stability does not matter. *)
Definition sort_leaves (leaves : list bytes) : list bytes := stable_sort lex_leb leaves.

(** [Iterator::position]. *)
Fixpoint position (leaf : bytes) (ls : list bytes) : option nat :=
  match ls with
  | [] => None
  | l :: ls => if decide (l = leaf) then Some O else S <$> position leaf ls
  end.

Section verifier.
Context `{RsMerkle}.

Definition hash_leaf (data : bytes) : bytes := mt_hash data.

Definition compute_root (leaves : list bytes) : option bytes :=
  match leaves with [] => None | _ => mt_root (sort_leaves leaves) end.

Definition inclusion_proof (leaves : list bytes) (leaf : bytes) : option InclusionProof :=
  match leaves with
  | [] => None
  | _ =>
      let sorted := sort_leaves leaves in
      index ← position leaf sorted;
      Some (mkInclusionProof leaf index (mt_proof sorted index) (length sorted))
  end.

Definition verify_inclusion (proof : InclusionProof) (root : bytes) : bool :=
  mt_verify (ip_proof_hashes proof) root (ip_index proof) (ip_leaf proof) (ip_total_leaves proof).

End verifier.

Lemma sort_leaves_canonical ls ls' : ls ≡ₚ ls' → sort_leaves ls = sort_leaves ls'.
Proof.
  intros Hp. apply (StronglySorted_unique_perm lex_leb).
  - intros x y _ _. apply lex_leb_antisym.
  - apply stable_sort_sorted; [apply lex_leb_total|apply lex_leb_trans].
  - apply stable_sort_sorted; [apply lex_leb_total|apply lex_leb_trans].
  - unfold sort_leaves. by rewrite !stable_sort_perm.
Qed.

Lemma position_spec leaf ls :
  match position leaf ls with
  | Some i => ls !! i = Some leaf
  | None => leaf ∉ ls
  end.
Proof.
  induction ls as [|l ls IH]; simpl; [apply not_elem_of_nil|].
  case_decide; [by subst|]. destruct (position leaf ls); simpl; [done|].
  apply not_elem_of_cons. split; [by intros ->|done].
Qed.

(** The root depends only on the multiset of leaves and exists unless there
    are none; an inclusion proof exists exactly for the leaves, and verifies
    against the root of any arrangement of them. *)
Theorem verifier_canonical `{RsMerkleLaws} ls ls' leaf :
  ls ≡ₚ ls' →
  compute_root ls = compute_root ls' ∧
  (compute_root ls = None ↔ ls = []) ∧
  (inclusion_proof ls leaf = None ↔ leaf ∉ ls) ∧
  (∀ p r, inclusion_proof ls leaf = Some p → compute_root ls' = Some r →
     ip_leaf p = leaf ∧ verify_inclusion p r = true).
Proof.
  intros Hp. pose proof (sort_leaves_canonical ls ls' Hp) as Hs.
  assert (Hc : ∀ l, compute_root l = match l with [] => None | _ => mt_root (sort_leaves l) end) by done.
  assert (Hroot : compute_root ls = compute_root ls').
  { rewrite !Hc, <-Hs. destruct ls as [|x ls], ls' as [|y ls']; try done.
    - by apply Permutation_nil in Hp.
    - by apply Permutation_nil_r in Hp. }
  split; [done|]. rewrite <-Hroot.
  assert (Hne : ls ≠ [] → sort_leaves ls ≠ []).
  { intros Hne Hnil. apply Hne. apply Permutation_nil. rewrite <-Hnil. apply stable_sort_perm. }
  assert (Hin : leaf ∈ sort_leaves ls ↔ leaf ∈ ls) by (unfold sort_leaves; by rewrite stable_sort_perm).
  pose proof (position_spec leaf (sort_leaves ls)) as Hpos.
  split; [|split].
  - rewrite Hc. destruct ls as [|x l]; [done|]. split; [|done]. intros Hnone.
    destruct (mt_root_some (sort_leaves (x :: l))) as [r Hr]; [by apply Hne|congruence].
  - unfold inclusion_proof. destruct ls as [|x l]; [split; [intros _; apply not_elem_of_nil|done]|].
    destruct (position leaf _) as [i|]; simpl.
    + split; [done|]. intros Hno. exfalso. apply Hno, Hin. by eapply list_elem_of_lookup_2.
    + rewrite Hin in Hpos. done.
  - intros p r Hip Hr. rewrite Hc in Hr. unfold inclusion_proof in Hip. destruct ls as [|x l]; [done|].
    destruct (position leaf _) as [i|]; simpl in Hip; [|done]. injection Hip as <-.
    split; [done|]. unfold verify_inclusion. simpl. by apply mt_proof_verifies.
Qed.

(** * Witness *)

Import (hints) ToyTree.

Lemma verifier_canonical_witness :
  compute_root [demo_hash 3; demo_hash 1; demo_hash 2] =
  compute_root [demo_hash 2; demo_hash 3; demo_hash 1].
Proof.
  refine (proj1 (verifier_canonical [demo_hash 3; demo_hash 1; demo_hash 2]
    [demo_hash 2; demo_hash 3; demo_hash 1] (demo_hash 1) _)).
  apply (Permutation_app_comm [demo_hash 3; demo_hash 1] [demo_hash 2]).
Defined.
