(* ===== verification/Registry.v ===== *)
(** Runner registry
    (src/crates/cosaci-state/src/registry.rs): a map with last-write-wins
    registration. *)

From S2P Require Import Prelude Attestation.

Record RunnerInfo := mkRunnerInfo { ri_pubkey : bytes; ri_stake : Z }.

Record Registry := mkRegistry { runners : gmap Z RunnerInfo }.

Definition new : Registry := mkRegistry ∅.

Definition register (id : Z) (info : RunnerInfo) (r : Registry) : Registry :=
  mkRegistry (<[id := info]> (runners r)).

Definition deregister (id : Z) (r : Registry) : Registry := mkRegistry (delete id (runners r)).

Definition lookup (id : Z) (r : Registry) : option RunnerInfo := runners r !! id.

Definition is_registered (id : Z) (r : Registry) : bool := bool_decide (is_Some (runners r !! id)).

Definition len (r : Registry) : nat := size (runners r).

Definition is_empty (r : Registry) : bool := bool_decide (runners r = ∅).

Definition ids (r : Registry) : list Z := (map_to_list (runners r)).*1.

(** Requests on the registry. *)
Inductive registry_op := Reg_register (id : Z) (info : RunnerInfo) | Reg_deregister (id : Z).

Definition op_id (o : registry_op) : Z :=
  match o with Reg_register id _ | Reg_deregister id => id end.

Definition apply_registry_op (r : Registry) (o : registry_op) : Registry :=
  match o with Reg_register id info => register id info r | Reg_deregister id => deregister id r end.

(** After any requests, what is known of a runner is what the last request
    about it said, and the enumeration lists exactly the registered runners,
    once each. *)
Lemma registry_last_write ops id :
  let r := foldl apply_registry_op new ops in
  lookup id r = match last (filter (λ o, op_id o = id) ops) with
                | Some (Reg_register _ info) => Some info
                | _ => None
                end ∧
  (id ∈ ids r ↔ is_registered id r = true) ∧ NoDup (ids r) ∧ length (ids r) = len r.
Proof.
  split; [|split; [|split]].
  - unfold lookup. induction ops as [|o ops IH] using rev_ind; [done|].
    rewrite foldl_app, filter_app, filter_cons, filter_nil. simpl.
    destruct o as [i info|i]; simpl; destruct (decide (i = id)) as [->|Hne]; rewrite ?last_snoc.
    + apply lookup_insert_eq.
    + by rewrite lookup_insert_ne, (right_id_L [] (++)).
    + apply lookup_delete_eq.
    + by rewrite lookup_delete_ne, (right_id_L [] (++)).
  - unfold ids, is_registered. rewrite bool_decide_eq_true, list_elem_of_fmap. split.
    + intros ([i x] & -> & Hx%elem_of_map_to_list). by eexists.
    + intros [x Hx]. exists (id, x). split; [done|]. by apply elem_of_map_to_list.
  - apply NoDup_fst_map_to_list.
  - unfold ids, len. by rewrite length_fmap, length_map_to_list.
Qed.
