(* ===== verification/Confidentiality.v ===== *)
(** Envelope encryption
    (src/crates/cosaci-core/src/confidentiality.rs), over the AEAD of the
    chacha20poly1305 crate as an interface. *)

From S2P Require Import Prelude Attestation.

Class Aead := {
  aead_encrypt : bytes → bytes → bytes → option bytes;
  aead_decrypt : bytes → bytes → bytes → option bytes;
}.

(** What was encrypted under a key and nonce decrypts under them. *)
Class AeadLaws `{Aead} := {
  aead_roundtrip k n p c : aead_encrypt k n p = Some c → aead_decrypt k n c = Some p;
}.

Inductive AeadError := AeadError_Failed | AeadError_BadKeyLength.

Section aead.
Context `{Aead}.

Definition or_failed (o : option bytes) : result bytes AeadError :=
  match o with Some b => Ok b | None => Err AeadError_Failed end.

Definition encrypt (key nonce plaintext : bytes) : result bytes AeadError :=
  or_failed (aead_encrypt key nonce plaintext).

Definition decrypt (key nonce ciphertext : bytes) : result bytes AeadError :=
  or_failed (aead_decrypt key nonce ciphertext).

Definition wrap_dek (kek nonce dek : bytes) : result bytes AeadError := encrypt kek nonce dek.

Definition unwrap_dek (kek nonce wrapped : bytes) : result bytes AeadError :=
  b ←? decrypt kek nonce wrapped;
  if negb (Z.of_nat (length b) =? 32) then Err AeadError_BadKeyLength else Ok b.

(** A wrapped key unwraps to itself, and through it the payload decrypts; what
    unwraps is always a whole key. *)
Lemma envelope_roundtrip `{!AeadLaws} kek n1 n2 dek payload w c :
  byte_array 32 dek → wrap_dek kek n1 dek = Ok w → encrypt dek n2 payload = Ok c →
  unwrap_dek kek n1 w = Ok dek ∧ decrypt dek n2 c = Ok payload ∧
  (∀ w' k, unwrap_dek kek n1 w' = Ok k → length k = 32%nat).
Proof.
  intros [Hl _] Hw Hc. unfold wrap_dek, encrypt, unwrap_dek, decrypt, or_failed in *.
  destruct (aead_encrypt kek n1 dek) as [w0|] eqn:Ew; [|done]. injection Hw as <-.
  destruct (aead_encrypt dek n2 payload) as [c0|] eqn:Ec; [|done]. injection Hc as <-.
  rewrite (aead_roundtrip kek n1 dek w0 Ew), (aead_roundtrip dek n2 payload c0 Ec), Hl.
  split; [done|]. split; [done|]. intros w' k. destruct (aead_decrypt kek n1 w') as [b|]; [|done].
  destruct (Z.eqb_spec (Z.of_nat (length b)) 32); [|done]. simpl. intros [= <-]. lia.
Qed.

End aead.
