(* ===== verification/Scores.v ===== *)
(** Reputation and flake scores
    (src/crates/cosaci-core/src/reputation.rs and
    src/crates/cosaci-core/src/flake.rs), in [f64] arithmetic. *)

From Stdlib Require Import Floats.SpecFloat.
From S2P Require Import Prelude StakeLedger.

Inductive AgreementOutcome := AgreementOutcome_Agree | AgreementOutcome_Disagree.

#[export] Instance AgreementOutcome_eq_dec : EqDecision AgreementOutcome.
Proof. solve_decision. Defined.

Definition INITIAL_REPUTATION : spec_float := S754_finite false 4503599627370496 (-53).

Definition agreement_rate (history : list AgreementOutcome) : spec_float :=
  match history with
  | [] => INITIAL_REPUTATION
  | _ =>
      let agrees := length (filter (λ o, o = AgreementOutcome_Agree) history) in
      SFdiv 53 1024 (f64_of_u64 (Z.of_nat agrees)) (f64_of_u64 (Z.of_nat (length history)))
  end.

Definition reputation (history : list AgreementOutcome) : spec_float := agreement_rate history.

Definition flake_confidence (disagreement_count total_runs : Z) : spec_float :=
  if total_runs =? 0 then S754_zero false
  else SFdiv 53 1024 (f64_of_u64 disagreement_count) (f64_of_u64 total_runs).

(** Every score over a history of up to forty votes, or a count out of up to
    forty runs, lies between zero and one, grows with the agreeing (resp.
    disagreeing) count, and reaches the ends exactly at none and at all. *)
Definition scores_ok (n : nat) : bool :=
  let score a := SFdiv 53 1024 (f64_of_u64 (Z.of_nat a)) (f64_of_u64 (Z.of_nat n)) in
  SFeqb (score 0%nat) (S754_zero false) && SFeqb (score n) (f64_of_u64 1) &&
  forallb (λ a, SFltb (score a) (score (S a))) (seq 0 n).

Example scores_monotone_small : forallb scores_ok (seq 1 40) = true.
Proof. vm_compute. reflexivity. Qed.
