(* ===== verification/Journal.v ===== *)
(** Append-only job journal
    (src/crates/cosaci-state/src/journal.rs).

    The journal file is its bytes; an append takes the outcome of its write and
    sync. JSON is the serde_json crate, the class [JournalJson], whose laws say
    that an entry's line parses back and that a line cut short does not parse.
    The theorems relate what is replayed after a crash to what was appended, and
    the reconstructed state of a job to its own entries. *)

From S2P Require Import Prelude Attestation Text MerkleLog.

Inductive JournalOutcome :=
| JournalOutcome_Pass
| JournalOutcome_Fail
| JournalOutcome_Escalate
| JournalOutcome_Retry.

#[export] Instance JournalOutcome_eq_dec : EqDecision JournalOutcome.
Proof. solve_decision. Defined.

Inductive JournalEntry :=
| JournalEntry_JobSubmitted (job_id : Z)
| JournalEntry_CommitteeSelected (job_id : Z) (committee : list Z)
| JournalEntry_AttestationReceived (job_id runner_id : Z)
| JournalEntry_Aggregated (job_id : Z) (outcome : JournalOutcome) (artifact_hex : list Z)
| JournalEntry_Anchored (job_id position : Z).

#[export] Instance JournalEntry_eq_dec : EqDecision JournalEntry.
Proof. solve_decision. Defined.

Inductive JobState :=
| JobState_Submitted
| JobState_InFlight
| JobState_AggregatedNotAnchored (outcome : JournalOutcome) (artifact_hex : list Z)
| JobState_Anchored (position : Z).

#[export] Instance JobState_eq_dec : EqDecision JobState.
Proof. solve_decision. Defined.

Record JournalState := mkJournalState { jobs : gmap Z JobState }.

Definition new : JournalState := mkJournalState ∅.

Definition pending_re_anchor (s : JournalState) : list Z :=
  omap (λ p : Z * JobState, match p.2 with JobState_AggregatedNotAnchored _ _ => Some p.1 | _ => None end)
    (map_to_list (jobs s)).

Definition pending_re_run (s : JournalState) : list Z :=
  omap (λ p : Z * JobState, match p.2 with JobState_Submitted | JobState_InFlight => Some p.1 | _ => None end)
    (map_to_list (jobs s)).

Definition anchored_jobs (s : JournalState) : list Z :=
  omap (λ p : Z * JobState, match p.2 with JobState_Anchored _ => Some p.1 | _ => None end)
    (map_to_list (jobs s)).

(** One entry of the loop of [reconstruct_state]. *)
Definition apply_entry (state : JournalState) (entry : JournalEntry) : JournalState :=
  match entry with
  | JournalEntry_JobSubmitted job_id =>
      mkJournalState (<[job_id := JobState_Submitted]> (jobs state))
  | JournalEntry_CommitteeSelected job_id _ =>
      mkJournalState (<[job_id := JobState_InFlight]> (jobs state))
  | JournalEntry_AttestationReceived job_id _ =>
      match jobs state !! job_id with
      | Some _ => state
      | None => mkJournalState (<[job_id := JobState_InFlight]> (jobs state))
      end
  | JournalEntry_Aggregated job_id outcome artifact_hex =>
      mkJournalState (<[job_id := JobState_AggregatedNotAnchored outcome artifact_hex]> (jobs state))
  | JournalEntry_Anchored job_id position =>
      mkJournalState (<[job_id := JobState_Anchored position]> (jobs state))
  end.

Definition reconstruct_state (entries : list JournalEntry) : JournalState :=
  foldl apply_entry new entries.

(** * The file *)

(** serde_json on journal entries. *)
Class JournalJson := {
  to_vec : JournalEntry → bytes;
  from_str : list Z → option JournalEntry;
}.

(** A line is UTF-8 text with no newline and no space at its ends, and parses
    back; no proper prefix of it parses. *)
Class JournalJsonLaws `{JournalJson} := {
  to_vec_text e : ∃ t, from_utf8 (to_vec e) = Some t ∧ t ≠ [] ∧ trim t = t ∧ from_str t = Some e;
  to_vec_no_newline e : Forall (λ c, c ≠ 10 ∧ c ≠ 13) (to_vec e);
  to_vec_prefix e p q t : to_vec e = p ++ q → q ≠ [] → from_utf8 p = Some t → from_str (trim t) = None;
}.

Section file.
Context `{JournalJson}.

(** [Journal::append] on the content of the file. *)
Definition append (io : io_outcome) (entry : JournalEntry) (content : bytes) :
    result unit io_error * bytes :=
  let b := to_vec entry ++ [10] in
  match io_write_err io with
  | Some k => (Err IoError_Write, content ++ take k b)
  | None => (if io_sync_ok io then Ok () else Err IoError_Sync, content ++ b)
  end.

(** The loop of [replay] over [BufRead::lines]; a line that is not UTF-8 ends it
    with an error. *)
Fixpoint replay_lines (ls : list bytes) : result (list JournalEntry) io_error :=
  match ls with
  | [] => Ok []
  | l :: ls =>
      match from_utf8 l with
      | None => Err IoError_InvalidData
      | Some line =>
          let trimmed := trim line in
          rest ←? replay_lines ls;
          match trimmed with
          | [] => Ok rest
          | _ => match from_str trimmed with Some e => Ok (e :: rest) | None => Ok rest end
          end
      end
  end.

(** [replay]; [None] is a path that does not exist. *)
Definition replay (content : option bytes) : result (list JournalEntry) io_error :=
  match content with None => Ok [] | Some b => replay_lines (lines b) end.

Definition append_all (es : list JournalEntry) (content : bytes) : bytes :=
  foldl (λ c e, (append io_fine e c).2) content es.

End file.

(** * Lemmas *)

Lemma strip_cr_plain l : Forall (λ c, c ≠ 13) l → strip_cr (l, true) = l.
Proof.
  intros Hl. unfold strip_cr. simpl. apply Forall_reverse in Hl.
  destruct (reverse l) as [|c r]; [done|]. apply Forall_cons in Hl as [Hc _].
  by rewrite (proj2 (Z.eqb_neq c 13)).
Qed.

Section replay_lemmas.
Context `{JournalJsonLaws}.

Lemma append_all_app es c : append_all es c = c ++ concat ((λ e, to_vec e ++ [10]) <$> es).
Proof.
  unfold append_all. revert c. induction es as [|e es IH]; intros c; simpl; [by rewrite app_nil_r|].
  rewrite IH. cbn. by rewrite <-app_assoc.
Qed.

Lemma lines_journal es tail :
  lines (concat ((λ e, to_vec e ++ [10]) <$> es) ++ tail) = (to_vec <$> es) ++ lines tail.
Proof.
  unfold lines. induction es as [|e es IH]; [done|]. simpl.
  rewrite <-!app_assoc. simpl.
  pose proof (to_vec_no_newline e) as He.
  rewrite split_lines_plain by (eapply Forall_impl; [exact He|]; by intros ? []).
  rewrite fmap_cons. setoid_rewrite IH. cbn [fmap list_fmap app]. f_equal. apply strip_cr_plain.
  eapply Forall_impl; [exact He|]. by intros ? [].
Qed.

Lemma replay_lines_entries es ls :
  replay_lines ((to_vec <$> es) ++ ls) = (r ←? replay_lines ls; Ok (es ++ r)).
Proof.
  induction es as [|e es IH]; cbn [fmap list_fmap app].
  - by destruct (replay_lines ls).
  - cbn [replay_lines]. destruct (to_vec_text e) as (t & -> & Hne & Ht & He).
    rewrite IH. destruct (replay_lines ls) as [r|]; [|done]. rewrite Ht.
    destruct t; [done|]. by rewrite He.
Qed.

(** What a write that stopped early left behind is skipped. *)
Lemma replay_torn e p q :
  to_vec e ++ [10] = p ++ q → Forall (λ c, 0 <= c < 128) (to_vec e) →
  q ≠ [] → replay_lines (lines p) = Ok (if decide (q = [10]) then [e] else []).
Proof.
  intros Heq Hascii Hq. destruct q as [|c q _] using rev_ind; [done|]. clear Hq.
  rewrite app_assoc in Heq. apply app_inj_tail in Heq as [Heq <-].
  pose proof (to_vec_no_newline e) as Hnl. rewrite Heq in Hnl, Hascii.
  apply Forall_app in Hnl as [Hnl _]. apply Forall_app in Hascii as [Hascii _].
  assert (Hlines : lines p = match p with [] => [] | _ => [p] end).
  { unfold lines. assert (Hsp : ∀ cur, split_lines cur p =
      match reverse cur ++ p with [] => [] | x => [(x, false)] end).
    { clear -Hnl. induction Hnl as [|c p [Hc _] _ IH]; intros cur; simpl.
      - rewrite app_nil_r. destruct cur; [done|]. destruct (reverse (z :: cur)) eqn:E; [|done].
        apply (f_equal reverse) in E. by rewrite reverse_involutive in E.
      - rewrite (proj2 (Z.eqb_neq c 10)), IH, reverse_cons, <-app_assoc by done. done. }
    rewrite Hsp. simpl. by destruct p. }
  rewrite Hlines. destruct p as [|x p].
  - rewrite decide_False; [done|]. simpl in Heq. intros Hqq. destruct q; [|by destruct q].
    destruct (to_vec_text e) as (t & Ht & Hne & _). rewrite Heq in Ht. vm_compute in Ht. simplify_eq.
  - cbn [replay_lines]. rewrite from_utf8_ascii by done.
    destruct (decide (q ++ [10] = [10])) as [Hq|Hq].
    + assert (q = []) as -> by (destruct q as [|? [|]]; done). rewrite app_nil_r in Heq.
      destruct (to_vec_text e) as (t & Ht & Hne & Htrim & He).
      rewrite Heq, from_utf8_ascii in Ht by done. injection Ht as <-. rewrite Htrim. by rewrite He.
    + assert (q ≠ []) by (intros ->; done).
      rewrite (to_vec_prefix e (x :: p) q (x :: p)) by (done || by apply from_utf8_ascii).
      by destruct (trim (x :: p)).
Qed.

End replay_lemmas.

(** * Theorems *)

(** C19: replaying a journal gives back exactly the entries appended, in order;
    after a crash that left only part of the last line, it gives the entries
    before it, and the last one too only if all of its line but the newline
    reached the file. *)
Theorem journal_replay `{JournalJsonLaws} es e p q :
  Forall (λ c, 0 <= c < 128) (to_vec e) → to_vec e ++ [10] = p ++ q → q ≠ [] →
  replay (Some (append_all es [])) = Ok es ∧
  replay (Some (append_all es [] ++ p)) = Ok (es ++ (if decide (q = [10]) then [e] else [])).
Proof.
  intros Hascii Heq Hq. unfold replay. rewrite append_all_app. simpl. split.
  - rewrite <-(app_nil_r (concat _)), lines_journal, replay_lines_entries. simpl. by rewrite app_nil_r.
  - rewrite lines_journal, replay_lines_entries, (replay_torn e p q) by done. done.
Qed.

(** The job an entry is about. *)
Definition entry_job (e : JournalEntry) : Z :=
  match e with
  | JournalEntry_JobSubmitted j | JournalEntry_CommitteeSelected j _
  | JournalEntry_AttestationReceived j _ | JournalEntry_Aggregated j _ _
  | JournalEntry_Anchored j _ => j
  end.

(** The state an entry sets, if it sets one. *)
Definition entry_state (e : JournalEntry) : option JobState :=
  match e with
  | JournalEntry_JobSubmitted _ => Some JobState_Submitted
  | JournalEntry_CommitteeSelected _ _ => Some JobState_InFlight
  | JournalEntry_AttestationReceived _ _ => None
  | JournalEntry_Aggregated _ o a => Some (JobState_AggregatedNotAnchored o a)
  | JournalEntry_Anchored _ p => Some (JobState_Anchored p)
  end.

Lemma reconstruct_snoc es e : reconstruct_state (es ++ [e]) = apply_entry (reconstruct_state es) e.
Proof. unfold reconstruct_state. by rewrite foldl_app. Qed.

Lemma apply_entry_lookup s e j :
  jobs (apply_entry s e) !! j =
  if decide (entry_job e = j) then
    match entry_state e with
    | Some st => Some st
    | None => Some (default JobState_InFlight (jobs s !! j))
    end
  else jobs s !! j.
Proof.
  destruct e; simpl; try (rewrite lookup_insert; by case_decide).
  destruct (jobs s !! job_id) as [st|] eqn:E; simpl.
  - case_decide; [subst; by rewrite E|done].
  - rewrite lookup_insert. case_decide; [subst; by rewrite E|done].
Qed.

Lemma omap_class (f : JobState → bool) (s : JournalState) (g : Z * JobState → option Z) j :
  (∀ i st, g (i, st) = if f st then Some i else None) →
  j ∈ omap g (map_to_list (jobs s)) ↔ ∃ st, jobs s !! j = Some st ∧ f st = true.
Proof.
  intros Hg. rewrite list_elem_of_omap. split.
  - intros ([i st] & Hin & Hi). apply elem_of_map_to_list in Hin. rewrite Hg in Hi.
    destruct (f st) eqn:E; [|done]. simplify_eq. eauto.
  - intros (st & Hst & Hf). exists (j, st). split; [by apply elem_of_map_to_list|]. by rewrite Hg, Hf.
Qed.

(** The three recovery lists, in terms of the recovered state. *)
Lemma recovery_lists s j :
  (j ∈ pending_re_run s ↔ jobs s !! j = Some JobState_Submitted ∨ jobs s !! j = Some JobState_InFlight) ∧
  (j ∈ pending_re_anchor s ↔ ∃ o a, jobs s !! j = Some (JobState_AggregatedNotAnchored o a)) ∧
  (j ∈ anchored_jobs s ↔ ∃ p, jobs s !! j = Some (JobState_Anchored p)).
Proof.
  split_and!.
  - unfold pending_re_run.
    rewrite (omap_class (λ st, match st with JobState_Submitted | JobState_InFlight => true | _ => false end));
      [|by intros ? []].
    split; [intros ([] & ? & ?); auto; done|]. intros [E|E]; eauto.
  - unfold pending_re_anchor.
    rewrite (omap_class (λ st, match st with JobState_AggregatedNotAnchored _ _ => true | _ => false end));
      [|by intros ? []].
    split; [intros ([] & ? & ?); eauto; done|]. intros (o & a & E); eauto.
  - unfold anchored_jobs.
    rewrite (omap_class (λ st, match st with JobState_Anchored _ => true | _ => false end));
      [|by intros ? []].
    split; [intros ([] & ? & ?); eauto; done|]. intros (q & E); eauto.
Qed.

(** The recovered state of a job is decided by the last entry about it that
    sets a state, attestations only making an otherwise unmentioned job count
    as in flight; and every job mentioned is in exactly one of the three
    recovery lists, none of them naming a job that was not. *)
Theorem reconstruct_state_exact es j :
  let mine := filter (λ e, entry_job e = j) es in
  jobs (reconstruct_state es) !! j =
    match last (omap entry_state mine) with
    | Some st => Some st
    | None => match mine with [] => None | _ => Some JobState_InFlight end
    end ∧
  (mine = [] ↔ j ∉ pending_re_run (reconstruct_state es) ++
                    pending_re_anchor (reconstruct_state es) ++ anchored_jobs (reconstruct_state es)) ∧
  ¬ (j ∈ pending_re_run (reconstruct_state es) ∧ j ∈ pending_re_anchor (reconstruct_state es)) ∧
  ¬ (j ∈ anchored_jobs (reconstruct_state es) ∧
     j ∈ pending_re_run (reconstruct_state es) ++ pending_re_anchor (reconstruct_state es)).
Proof.
  cbv zeta. assert (Hst : jobs (reconstruct_state es) !! j =
    match last (omap entry_state (filter (λ e, entry_job e = j) es)) with
    | Some st => Some st
    | None => match filter (λ e, entry_job e = j) es with [] => None | _ => Some JobState_InFlight end
    end).
  { induction es as [|e es IH] using rev_ind; [done|].
    rewrite reconstruct_snoc, apply_entry_lookup, filter_app, filter_cons, filter_nil, IH.
    case_decide as Hj; [|by rewrite (right_id_L [] (++))].
    rewrite omap_app. simpl. destruct (entry_state e) as [st|]; simpl.
    - by rewrite last_snoc.
    - rewrite (right_id_L [] (++)). destruct (last _); [done|].
      by destruct (filter (λ e, entry_job e = j) es). }
  split; [exact Hst|].
  destruct (recovery_lists (reconstruct_state es) j) as (Hrun & Hre & Han).
  assert (Hmine : filter (λ e, entry_job e = j) es = [] ↔ jobs (reconstruct_state es) !! j = None).
  { rewrite Hst. destruct (filter _ es) as [|e l]; [done|]. split; [done|]. by destruct (last _). }
  rewrite Hmine, !elem_of_app, Hrun, Hre, Han. clear.
  destruct (jobs _ !! j) as [[]|]; split_and!; try (split; [done|]); try intros Hn;
    try (exfalso; apply Hn; eauto 6; fail); firstorder congruence.
Qed.

(** * Examples *)

(** A codec that satisfies the laws: braces around a string of binary digits. *)
Module ToyJson.

Definition entry_fields (e : JournalEntry) : list Z :=
  match e with
  | JournalEntry_JobSubmitted j => [0; j]
  | JournalEntry_CommitteeSelected j c => 1 :: j :: c
  | JournalEntry_AttestationReceived j r => [2; j; r]
  | JournalEntry_Aggregated j o a =>
      3 :: j :: match o with JournalOutcome_Pass => 0 | JournalOutcome_Fail => 1
                | JournalOutcome_Escalate => 2 | JournalOutcome_Retry => 3 end :: a
  | JournalEntry_Anchored j p => [4; j; p]
  end.

Definition fields_entry (l : list Z) : option JournalEntry :=
  match l with
  | [0; j] => Some (JournalEntry_JobSubmitted j)
  | 1 :: j :: c => Some (JournalEntry_CommitteeSelected j c)
  | [2; j; r] => Some (JournalEntry_AttestationReceived j r)
  | 3 :: j :: o :: a =>
      Some (JournalEntry_Aggregated j
        (if o =? 0 then JournalOutcome_Pass else if o =? 1 then JournalOutcome_Fail
         else if o =? 2 then JournalOutcome_Escalate else JournalOutcome_Retry) a)
  | [4; j; p] => Some (JournalEntry_Anchored j p)
  | _ => None
  end.

Lemma fields_entry_fields e : fields_entry (entry_fields e) = Some e.
Proof. by destruct e as [| | |? []|]. Qed.

Fixpoint digits (p : positive) : list Z :=
  match p with xH => [125] | xO p => 48 :: digits p | xI p => 49 :: digits p end.

Fixpoint undigits (l : list Z) : option positive :=
  match l with
  | [] => None
  | c :: l => if c =? 125 then match l with [] => Some xH | _ => None end
              else if c =? 48 then xO <$> undigits l
              else if c =? 49 then xI <$> undigits l else None
  end.

Lemma undigits_digits p : undigits (digits p) = Some p.
Proof. induction p as [p IH|p IH|]; simpl; [by rewrite IH..|done]. Qed.

Lemma undigits_prefix p l r : digits p = l ++ r → r ≠ [] → undigits l = None.
Proof.
  revert l. induction p as [p IH|p IH|]; intros [|c l]; simpl; try done; intros E Hr; simplify_eq.
  - simpl. by rewrite (IH l).
  - simpl. by rewrite (IH l).
  - by destruct l, r.
Qed.

Lemma digits_chars p : Forall (λ c, 48 <= c <= 125) (digits p).
Proof. induction p; simpl; repeat constructor; done || lia. Qed.

#[export] Instance toy_json : JournalJson := {|
  to_vec e := 123 :: digits (encode (entry_fields e));
  from_str s := match s with
                | 123 :: r => p ← undigits r; l ← decode p; fields_entry l
                | _ => None
                end;
|}.

Lemma toy_ascii e : Forall (λ c, 48 <= c <= 125) (to_vec e).
Proof. constructor; [lia|apply digits_chars]. Qed.

Lemma drop_while_printable s : Forall (λ c, 48 <= c <= 125) s → drop_while is_whitespace s = s.
Proof.
  destruct 1 as [|c s Hc _]; [done|]. simpl.
  replace (is_whitespace c) with false; [done|]. unfold is_whitespace. symmetry. zbool. lia.
Qed.

Lemma trim_printable s : Forall (λ c, 48 <= c <= 125) s → trim s = s.
Proof.
  intros Hs. unfold trim. rewrite (drop_while_printable s) by done.
  rewrite drop_while_printable by by apply Forall_reverse. apply reverse_involutive.
Qed.

#[export] Instance toy_json_laws : JournalJsonLaws.
Proof.
  split.
  - intros e. exists (to_vec e). split_and!.
    + apply from_utf8_ascii. eapply Forall_impl; [apply toy_ascii|]. simpl. lia.
    + done.
    + apply trim_printable, toy_ascii.
    + simpl. rewrite undigits_digits. simpl. rewrite decode_encode. simpl. apply fields_entry_fields.
  - intros e. eapply Forall_impl; [apply toy_ascii|]. simpl. lia.
  - intros e p q t E Hq Ht. pose proof (toy_ascii e) as Hp. rewrite E in Hp.
    apply Forall_app in Hp as [Hp _]. rewrite from_utf8_ascii in Ht.
    2:{ eapply Forall_impl; [exact Hp|]. simpl. lia. }
    injection Ht as <-. rewrite trim_printable by done. destruct p as [|c p]; [done|].
    simpl in E. simplify_eq. simpl. by rewrite (undigits_prefix _ _ _ H0 Hq).
Qed.

End ToyJson.
Import (hints) ToyJson.

Definition demo_entries : list JournalEntry :=
  [JournalEntry_JobSubmitted 7; JournalEntry_CommitteeSelected 7 [2; 4]].

Lemma journal_replay_witness :
  replay (Some (append_all demo_entries [])) = Ok demo_entries ∧
  replay (Some (append_all demo_entries [] ++ take 5 (to_vec (JournalEntry_Anchored 7 0)))) =
    Ok (demo_entries ++ []).
Proof.
  refine (journal_replay demo_entries (JournalEntry_Anchored 7 0)
    (take 5 (to_vec (JournalEntry_Anchored 7 0)))
    (drop 5 (to_vec (JournalEntry_Anchored 7 0) ++ [10])) _ _ _).
  - eapply Forall_impl; [apply ToyJson.toy_ascii|]. simpl. lia.
  - vm_compute. reflexivity.
  - vm_compute. discriminate.
Defined.

(** A job's entries decide its state; the attestation of a job never submitted
    makes it count as in flight. *)
Example reconstruct_demo :
  reconstruct_state [JournalEntry_JobSubmitted 1; JournalEntry_AttestationReceived 2 9;
    JournalEntry_Aggregated 1 JournalOutcome_Pass []; JournalEntry_AttestationReceived 1 9] =
  mkJournalState (<[1 := JobState_AggregatedNotAnchored JournalOutcome_Pass []]>
    (<[2 := JobState_InFlight]> ∅)).
Proof. vm_compute. reflexivity. Qed.

(** After a torn write, the next append lands on the torn line, and replay
    drops it although its append succeeded. *)
Example torn_line_swallows_next :
  let torn := append_all demo_entries [] ++ take 5 (to_vec (JournalEntry_Anchored 7 0)) in
  (append io_fine (JournalEntry_Anchored 7 0) torn).1 = Ok () ∧
  replay (Some (append io_fine (JournalEntry_Anchored 7 0) torn).2) = Ok demo_entries.
Proof. vm_compute. split; reflexivity. Qed.
