(* ===== verification/Network.v ===== *)
(** Network egress policy
    (src/crates/cosaci-jobs/src/network.rs).

    The policy is evaluated on strings as the operator wrote them, so the
    address parser of the standard library is part of the model. The theorem
    gives the decision in terms of address intervals and shows that it does not
    depend on the order of the allowlist. *)

From S2P Require Import Prelude Text.

Inductive Scheme := Scheme_Http | Scheme_Https | Scheme_Tcp.

#[export] Instance Scheme_eq_dec : EqDecision Scheme.
Proof. solve_decision. Defined.

Inductive EgressDefault := EgressDefault_Deny | EgressDefault_Audit.

#[export] Instance EgressDefault_eq_dec : EqDecision EgressDefault.
Proof. solve_decision. Defined.

Inductive EgressTarget :=
| EgressTarget_Host (hostname : list Z) (port : Z) (scheme : Scheme)
| EgressTarget_Cidr (cidr : list Z) (port_range_start port_range_end : Z).

#[export] Instance EgressTarget_eq_dec : EqDecision EgressTarget.
Proof. solve_decision. Defined.

Record NetworkPolicy := mkNetworkPolicy { np_allow : list EgressTarget; np_default : EgressDefault }.

#[export] Instance NetworkPolicy_eq_dec : EqDecision NetworkPolicy.
Proof. solve_decision. Defined.

Inductive Decision := Decision_Allow | Decision_Deny | Decision_Audit.

#[export] Instance Decision_eq_dec : EqDecision Decision.
Proof. solve_decision. Defined.

(** [std::net::IpAddr], the address as an integer. *)
Inductive IpAddr := IpAddr_V4 (a : Z) | IpAddr_V6 (a : Z).

#[export] Instance IpAddr_eq_dec : EqDecision IpAddr.
Proof. solve_decision. Defined.

Record EgressAttempt := mkEgressAttempt {
  ea_hostname : option (list Z);
  ea_addr : IpAddr;
  ea_port : Z;
  ea_scheme : Scheme;
}.

(** * Address parsing of the standard library

    A parser takes the rest of the input; a failed one consumes nothing. *)

(** [char::to_digit]. *)
Definition to_digit (radix c : Z) : option Z :=
  let d := if (48 <=? c) && (c <=? 57) then Some (c - 48)
           else if (97 <=? c) && (c <=? 122) then Some (c - 97 + 10)
           else if (65 <=? c) && (c <=? 90) then Some (c - 65 + 10) else None in
  match d with Some d => if d <? radix then Some d else None | None => None end.

Definition read_given_char (c : Z) (s : list Z) : option (list Z) :=
  match s with x :: s => if x =? c then Some s else None | [] => None end.

(** The digits off the front, their value and their number. *)
Fixpoint read_digits (radix acc : Z) (n : nat) (s : list Z) : Z * nat * list Z :=
  match s with
  | [] => (acc, n, [])
  | c :: s' => match to_digit radix c with
               | Some d => read_digits radix (acc * radix + d) (S n) s'
               | None => (acc, n, s)
               end
  end.

Definition read_number (radix bound : Z) (max_digits : nat) (allow_zero_prefix : bool) (s : list Z) :
    option (Z * list Z) :=
  let has_leading_zero := starts_with 48 s in
  let '(v, n, rest) := read_digits radix 0 0 s in
  if bool_decide (max_digits < n)%nat then None
  else if bool_decide (n = 0)%nat then None
  else if negb allow_zero_prefix && has_leading_zero && bool_decide (1 < n)%nat then None
  else if v <=? bound then Some (v, rest) else None.

(** [read_separator]: the separator is read before all but the first item. *)
Definition read_separator {A} (sep : Z) (index : nat) (inner : list Z → option (A * list Z))
    (s : list Z) : option (A * list Z) :=
  match index with O => inner s | _ => s ← read_given_char sep s; inner s end.

Definition read_octet : list Z → option (Z * list Z) := read_number 10 255 3 false.

Definition read_ipv4_addr (s : list Z) : option (Z * list Z) :=
  '(a, s) ← read_octet s;
  '(b, s) ← read_separator 46 1 read_octet s;
  '(c, s) ← read_separator 46 2 read_octet s;
  '(d, s) ← read_separator 46 3 read_octet s;
  Some (((a * 256 + b) * 256 + c) * 256 + d, s).

(** [read_groups]: [i] groups are read, [k] may follow; the flag says that the
    last two came from an embedded IPv4 address. *)
Fixpoint read_groups (i k : nat) (s : list Z) : list Z * bool * list Z :=
  match k with
  | O => ([], false, s)
  | S k' =>
      match (match k' with O => None | _ => read_separator 58 i read_ipv4_addr s end) with
      | Some (v4, s') => ([v4 / 65536; v4 mod 65536], true, s')
      | None =>
          match read_separator 58 i (read_number 16 65535 4 true) s with
          | Some (g, s') => let '(gs, f, rest) := read_groups (S i) k' s' in (g :: gs, f, rest)
          | None => ([], false, s)
          end
      end
  end.

Definition of_groups (gs : list Z) : Z := foldl (λ a g, a * 65536 + g) 0 gs.

Definition read_ipv6_addr (s : list Z) : option (Z * list Z) :=
  let '(head, head_ipv4, s) := read_groups 0 8 s in
  if bool_decide (length head = 8%nat) then Some (of_groups head, s)
  else if head_ipv4 : bool then None
  else
    s ← read_given_char 58 s;
    s ← read_given_char 58 s;
    let limit := (8 - (length head + 1))%nat in
    let '(tail, _, s) := read_groups 0 limit s in
    Some (of_groups (head ++ replicate (8 - length head - length tail) 0 ++ tail), s).

(** [str::parse::<IpAddr>]: either form, and nothing left over. *)
Definition parse_ip (s : list Z) : option IpAddr :=
  let r := match read_ipv4_addr s with
           | Some (a, rest) => Some (IpAddr_V4 a, rest)
           | None => match read_ipv6_addr s with Some (a, rest) => Some (IpAddr_V6 a, rest) | None => None end
           end in
  match r with Some (a, []) => Some a | _ => None end.

(** [str::split_once]. *)
Fixpoint split_once (c : Z) (s : list Z) : option (list Z * list Z) :=
  match s with
  | [] => None
  | x :: s => if x =? c then Some ([], s)
              else '(a, b) ← split_once c s; Some (x :: a, b)
  end.

(** * The policy *)

(** [u32::MAX << (32 - prefix)], and the same for 128 bits: the shift amount is
    below the width, bits shifted out are lost. *)
Definition mask (w prefix : Z) : Z := wrap w (Z.shiftl (2 ^ w - 1) (w - prefix)).

Definition in_prefix (w prefix base target : Z) : bool :=
  if w <? prefix then false
  else if prefix =? 0 then true
  else Z.land base (mask w prefix) =? Z.land target (mask w prefix).

Definition cidr_contains (cidr : list Z) (addr : IpAddr) : bool :=
  match split_once 47 cidr with
  | None => false
  | Some (base_str, prefix_str) =>
      match parse_uint 255 prefix_str with
      | None => false
      | Some prefix =>
          match parse_ip base_str, addr with
          | Some (IpAddr_V4 base), IpAddr_V4 target => in_prefix 32 prefix base target
          | Some (IpAddr_V6 base), IpAddr_V6 target => in_prefix 128 prefix base target
          | _, _ => false
          end
      end
  end.

Definition scheme_matches (allowed attempted : Scheme) : bool :=
  bool_decide (allowed = Scheme_Tcp) || bool_decide (allowed = attempted).

Definition matches_target (target : EgressTarget) (attempt : EgressAttempt) : bool :=
  match target with
  | EgressTarget_Host hostname port scheme =>
      let hostname_match := match ea_hostname attempt with
                            | Some h => bool_decide (h = hostname)
                            | None => false
                            end in
      let port_match := (port =? 0) || (port =? ea_port attempt) in
      hostname_match && port_match && scheme_matches scheme (ea_scheme attempt)
  | EgressTarget_Cidr cidr port_range_start port_range_end =>
      let port_match := ((port_range_start =? 0) && (port_range_end =? 0)) ||
                        ((port_range_start <=? ea_port attempt) && (ea_port attempt <=? port_range_end)) in
      port_match && cidr_contains cidr (ea_addr attempt)
  end.

(** The loop over the allowlist, with its early return. *)
Fixpoint evaluate_loop (allow : list EgressTarget) (attempt : EgressAttempt) (dflt : EgressDefault) :
    Decision :=
  match allow with
  | target :: allow =>
      if matches_target target attempt then Decision_Allow else evaluate_loop allow attempt dflt
  | [] => match dflt with EgressDefault_Deny => Decision_Deny | EgressDefault_Audit => Decision_Audit end
  end.

Definition evaluate (policy : NetworkPolicy) (attempt : EgressAttempt) : Decision :=
  evaluate_loop (np_allow policy) attempt (np_default policy).

Definition deny_all : NetworkPolicy := mkNetworkPolicy [] EgressDefault_Deny.

(** ["0.0.0.0/0"] and ["::/0"]. *)
Definition allow_all : NetworkPolicy :=
  mkNetworkPolicy
    [EgressTarget_Cidr [48; 46; 48; 46; 48; 46; 48; 47; 48] 0 0;
     EgressTarget_Cidr [58; 58; 47; 48] 0 0] EgressDefault_Deny.

(** * What an entry covers *)

(** The block of addresses of a prefix: [2^(w - prefix)] of them, the one that
    contains the base. *)
Definition in_block (w prefix base target : Z) : Prop :=
  let size := 2 ^ (w - prefix) in
  base / size * size <= target < base / size * size + size.

Definition ip_ok (a : IpAddr) : Prop :=
  match a with IpAddr_V4 a => uint 32 a | IpAddr_V6 a => uint 128 a end.

(** An entry covers a host it names, or an address of its block. *)
Definition covers (target : EgressTarget) (attempt : EgressAttempt) : Prop :=
  match target with
  | EgressTarget_Host hostname port scheme =>
      ea_hostname attempt = Some hostname ∧ (port = 0 ∨ port = ea_port attempt) ∧
      (scheme = Scheme_Tcp ∨ scheme = ea_scheme attempt)
  | EgressTarget_Cidr cidr lo hi =>
      ((lo = 0 ∧ hi = 0) ∨ lo <= ea_port attempt <= hi) ∧
      ∃ base_str prefix_str prefix,
        cidr = (base_str ++ 47 :: prefix_str) ∧ (47 ∉ base_str) ∧ parse_uint 255 prefix_str = Some prefix ∧
        match parse_ip base_str, ea_addr attempt with
        | Some (IpAddr_V4 b), IpAddr_V4 t => prefix <= 32 ∧ in_block 32 prefix b t
        | Some (IpAddr_V6 b), IpAddr_V6 t => prefix <= 128 ∧ in_block 128 prefix b t
        | _, _ => False
        end
  end.

(** * Lemmas *)

Lemma read_digits_nonneg radix acc n s :
  0 <= acc → 0 <= radix → 0 <= (read_digits radix acc n s).1.1.
Proof.
  revert acc n. induction s as [|c s IH]; intros acc n Ha Hr; simpl; [done|].
  destruct (to_digit radix c) as [d|] eqn:E; simpl; [|done]. apply IH; [|done].
  assert (0 <= d); [|nia]. unfold to_digit in E. repeat case_match; simplify_eq; zbool; lia.
Qed.

Lemma read_number_bounds radix bound m z s v rest :
  0 <= radix → read_number radix bound m z s = Some (v, rest) → 0 <= v <= bound.
Proof.
  intros Hr. unfold read_number. pose proof (read_digits_nonneg radix 0 0 s (Z.le_refl 0) Hr) as Hn.
  destruct (read_digits radix 0 0 s) as [[x n] r]. simpl in Hn. repeat case_match; try done.
  intros [= <- <-]. zbool. lia.
Qed.

Lemma read_separator_some {A} sep i (inner : list Z → option (A * list Z)) s p :
  read_separator sep i inner s = Some p → ∃ s', inner s' = Some p.
Proof. destruct i; simpl; [eauto|]. destruct (read_given_char sep s); simpl; [eauto|done]. Qed.

Lemma read_octet_bounds s v rest : read_octet s = Some (v, rest) → 0 <= v <= 255.
Proof. by apply read_number_bounds. Qed.

Lemma read_ipv4_bounds s v rest : read_ipv4_addr s = Some (v, rest) → uint 32 v.
Proof.
  unfold read_ipv4_addr. intros Hr.
  destruct (read_octet s) as [[a s1]|] eqn:Ea; cbn [mbind option_bind] in Hr; [|done].
  destruct (read_separator 46 1 read_octet s1) as [[b s2]|] eqn:Eb; cbn [mbind option_bind] in Hr; [|done].
  destruct (read_separator 46 2 read_octet s2) as [[c s3]|] eqn:Ec; cbn [mbind option_bind] in Hr; [|done].
  destruct (read_separator 46 3 read_octet s3) as [[d s4]|] eqn:Ed; cbn [mbind option_bind] in Hr; [|done].
  apply read_separator_some in Eb as [? Eb], Ec as [? Ec], Ed as [? Ed].
  apply read_octet_bounds in Ea, Eb, Ec, Ed. injection Hr as <- <-.
  unfold uint. lia.
Qed.

Lemma of_groups_bounds gs a n :
  Forall (λ g, 0 <= g <= 65535) gs → 0 <= a < 2 ^ (16 * Z.of_nat n) →
  0 <= foldl (λ a g, a * 65536 + g) a gs < 2 ^ (16 * Z.of_nat (n + length gs)).
Proof.
  intros Hgs. revert a n. induction Hgs as [|g gs Hg _ IH]; intros a n Ha; simpl.
  - by rewrite Nat.add_0_r.
  - rewrite <-Nat.add_succ_comm. apply IH. rewrite Nat2Z.inj_succ, Z.mul_succ_r, Z.pow_add_r by lia. lia.
Qed.

Lemma read_groups_bounds i k s gs f rest :
  read_groups i k s = (gs, f, rest) → Forall (λ g, 0 <= g <= 65535) gs ∧ (length gs <= k)%nat.
Proof.
  revert i s gs f rest. induction k as [|k IH]; intros i s gs f rest; simpl; [intros; by simplify_eq|].
  destruct (match k with O => None | _ => _ end) as [[v4 s']|] eqn:E4.
  - intros. simplify_eq. destruct k; [done|]. apply read_separator_some in E4 as [? E4].
    apply read_ipv4_bounds in E4. unfold uint in E4. simpl. split; [|lia].
    repeat constructor; try (apply Z.div_pos; lia); try (pose proof (Z.mod_pos_bound v4 65536); lia).
    assert (v4 / 65536 < 65536) by (apply Z.div_lt_upper_bound; lia). lia.
  - destruct (read_separator 58 i (read_number 16 65535 4 true) s) as [[g s']|] eqn:Eg;
      [|intros; simplify_eq; simpl; split; [constructor|lia]].
    destruct (read_groups (S i) k s') as [[gs' f'] r'] eqn:Er. intros. simplify_eq.
    apply IH in Er as [Hgs Hl]. apply read_separator_some in Eg as [? Eg].
    apply read_number_bounds in Eg; [|lia]. simpl. split; [by constructor|lia].
Qed.

Lemma read_ipv6_bounds s v rest : read_ipv6_addr s = Some (v, rest) → uint 128 v.
Proof.
  unfold read_ipv6_addr. destruct (read_groups 0 8 s) as [[head f] s1] eqn:Eh.
  apply read_groups_bounds in Eh as [Hh Hlh].
  case_bool_decide as Hl.
  - intros [= <- <-]. pose proof (of_groups_bounds head 0 0 Hh) as Hb. rewrite Hl in Hb. apply Hb. done.
  - destruct f; [done|]. destruct (read_given_char 58 s1) as [s2|]; [|done]. simpl.
    destruct (read_given_char 58 s2) as [s3|]; [|done]. simpl.
    destruct (read_groups 0 _ s3) as [[tail ft] s4] eqn:Et. apply read_groups_bounds in Et as [Ht Hlt].
    intros [= <- <-].
    set (gs := head ++ _). assert (Hgs : Forall (λ g, 0 <= g <= 65535) gs ∧ length gs = 8%nat).
    { unfold gs. rewrite !Forall_app, !length_app, length_replicate. split; [|lia].
      split; [done|]. split; [|done]. apply Forall_replicate. lia. }
    destruct Hgs as [Hgs Hlgs]. pose proof (of_groups_bounds gs 0 0 Hgs) as Hb. rewrite Hlgs in Hb.
    apply Hb. done.
Qed.

Lemma parse_ip_ok s a : parse_ip s = Some a → ip_ok a.
Proof.
  unfold parse_ip. destruct (read_ipv4_addr s) as [[v r]|] eqn:E4.
  - destruct r; [|done]. intros [= <-]. by apply read_ipv4_bounds in E4.
  - destruct (read_ipv6_addr s) as [[v r]|] eqn:E6; [|done]. destruct r; [|done].
    intros [= <-]. by apply read_ipv6_bounds in E6.
Qed.

Lemma parse_digits_nonneg bound acc s v : 0 <= acc → parse_digits bound acc s = Some v → 0 <= v.
Proof.
  revert acc. induction s as [|c s IH]; intros acc Ha; simpl; [by intros [= <-]|].
  destruct (is_digit c) eqn:E; [|done]. case_match; [|done]. apply IH.
  unfold is_digit in E. apply andb_prop in E as [? ?]. zbool. lia.
Qed.

Lemma parse_uint_nonneg bound s v : parse_uint bound s = Some v → 0 <= v.
Proof.
  unfold parse_uint. repeat case_match; try done; apply parse_digits_nonneg; lia.
Qed.

Lemma split_once_spec c s :
  match split_once c s with
  | Some (a, b) => s = a ++ c :: b ∧ c ∉ a
  | None => c ∉ s
  end.
Proof.
  induction s as [|x s IH]; simpl; [apply not_elem_of_nil|].
  destruct (Z.eqb_spec x c) as [->|Hx]; [split; [done|apply not_elem_of_nil]|].
  destruct (split_once c s) as [[a b]|]; simpl; [destruct IH as [-> IH]; split; [done|]|];
    by apply not_elem_of_cons.
Qed.

(** The text before and after the first separator is determined. *)
Lemma split_once_app c a b : c ∉ a → split_once c (a ++ c :: b) = Some (a, b).
Proof.
  induction a as [|x a IH]; intros Ha; simpl; [by rewrite Z.eqb_refl|].
  apply not_elem_of_cons in Ha as [Hx Ha]. rewrite (proj2 (Z.eqb_neq x c)) by congruence.
  by rewrite IH.
Qed.

Lemma mask_bits w p n : 0 <= p <= w → 0 <= n → Z.testbit (mask w p) n = (w - p <=? n) && (n <? w).
Proof.
  intros Hp Hn. unfold mask, wrap. rewrite <-Z.land_ones, Z.land_spec, Z.shiftl_spec by lia.
  replace (2 ^ w - 1) with (Z.ones w) by (rewrite Z.ones_equiv; lia).
  rewrite (Z.testbit_ones w n), (Z.testbit_ones w) by lia.
  apply eq_bool_prop_intro. rewrite !andb_True, !Is_true_true, !Z.leb_le, !Z.ltb_lt. lia.
Qed.

(** Masking with a prefix keeps the block and clears the offset in it. *)
Lemma land_mask w p x :
  uint w x → 0 <= p <= w → Z.land x (mask w p) = x / 2 ^ (w - p) * 2 ^ (w - p).
Proof.
  intros [Hx0 Hx] Hp. rewrite <-Z.shiftr_div_pow2, <-Z.shiftl_mul_pow2 by lia.
  apply Z.bits_inj'. intros n Hn. rewrite Z.land_spec, mask_bits, Z.shiftl_spec by lia.
  destruct (Z.leb_spec (w - p) n).
  - rewrite Z.shiftr_spec by lia. replace (n - (w - p) + (w - p)) with n by lia.
    destruct (Z.ltb_spec n w); simpl; [by rewrite andb_true_r|].
    rewrite andb_false_r. symmetry. destruct (decide (x = 0)) as [->|]; [apply Z.bits_0|].
    apply Z.bits_above_log2; [done|]. apply Z.log2_lt_pow2; [lia|].
    eapply Z.lt_le_trans; [exact Hx|]. apply Z.pow_le_mono_r; lia.
  - simpl. rewrite andb_false_r. symmetry. apply Z.testbit_neg_r. lia.
Qed.

Lemma in_prefix_block w p b t :
  0 <= p → uint w b → uint w t → 0 <= w →
  in_prefix w p b t = true ↔ p <= w ∧ in_block w p b t.
Proof.
  intros Hp Hb Ht Hw. unfold in_prefix. destruct (Z.ltb_spec w p); [split; [done|lia]|].
  unfold in_block. destruct (Z.eqb_spec p 0) as [->|Hp0].
  - rewrite Z.sub_0_r. rewrite (Z.div_small b) by done. split; [|done]. intros _. split; [lia|].
    unfold uint in Ht. lia.
  - rewrite !land_mask, Z.eqb_eq by (done || lia).
    assert (Hs : 0 < 2 ^ (w - p)) by (apply Z.pow_pos_nonneg; lia).
    pose proof (Z.div_mod t (2 ^ (w - p))). pose proof (Z.mod_pos_bound t (2 ^ (w - p)) Hs).
    split.
    + intros E. split; [lia|]. lia.
    + intros [_ E]. assert (t / 2 ^ (w - p) = b / 2 ^ (w - p)); [|lia].
      symmetry. apply (Z.div_unique_pos t _ _ (t - b / 2 ^ (w - p) * 2 ^ (w - p))); lia.
Qed.

Lemma cidr_contains_spec cidr a :
  ip_ok a → cidr_contains cidr a = true ↔
  ∃ base_str prefix_str prefix,
    cidr = (base_str ++ 47 :: prefix_str) ∧ (47 ∉ base_str) ∧ parse_uint 255 prefix_str = Some prefix ∧
    match parse_ip base_str, a with
    | Some (IpAddr_V4 b), IpAddr_V4 t => prefix <= 32 ∧ in_block 32 prefix b t
    | Some (IpAddr_V6 b), IpAddr_V6 t => prefix <= 128 ∧ in_block 128 prefix b t
    | _, _ => False
    end.
Proof.
  intros Ha.
  assert (Hmatch : ∀ base_str prefix, 0 <= prefix →
    match parse_ip base_str, a with
    | Some (IpAddr_V4 base), IpAddr_V4 target => in_prefix 32 prefix base target
    | Some (IpAddr_V6 base), IpAddr_V6 target => in_prefix 128 prefix base target
    | _, _ => false
    end = true ↔
    match parse_ip base_str, a with
    | Some (IpAddr_V4 b), IpAddr_V4 t => prefix <= 32 ∧ in_block 32 prefix b t
    | Some (IpAddr_V6 b), IpAddr_V6 t => prefix <= 128 ∧ in_block 128 prefix b t
    | _, _ => False
    end).
  { intros bs p Hp. destruct (parse_ip bs) as [[b|b]|] eqn:E; destruct a as [t|t]; try done;
      apply parse_ip_ok in E; apply in_prefix_block; done || lia. }
  unfold cidr_contains. split.
  - pose proof (split_once_spec 47 cidr) as Hs. destruct (split_once 47 cidr) as [[bs ps]|]; [|done].
    destruct (parse_uint 255 ps) as [p|] eqn:Ep; [|done]. rewrite Hmatch by by eapply parse_uint_nonneg.
    destruct Hs as [-> Hn]. eauto 7.
  - intros (bs & ps & p & -> & Hn & Hp & Hm). rewrite split_once_app, Hp by done.
    apply Hmatch; [by eapply parse_uint_nonneg|done].
Qed.

Lemma matches_target_covers target attempt :
  ip_ok (ea_addr attempt) → matches_target target attempt = true ↔ covers target attempt.
Proof.
  intros Hok. destruct target as [h p sc|cidr lo hi]; simpl.
  - unfold scheme_matches. rewrite !andb_true_iff, !orb_true_iff, !bool_decide_eq_true, !Z.eqb_eq.
    assert (Hh : match ea_hostname attempt with Some h' => bool_decide (h' = h) | None => false end = true ↔
      ea_hostname attempt = Some h).
    { destruct (ea_hostname attempt); [rewrite bool_decide_eq_true|]; split; congruence. }
    rewrite Hh. tauto.
  - rewrite andb_true_iff, cidr_contains_spec, orb_true_iff, !andb_true_iff, !Z.eqb_eq, !Z.leb_le by done.
    done.
Qed.

Lemma evaluate_loop_spec allow attempt dflt :
  evaluate_loop allow attempt dflt =
  if existsb (λ t, matches_target t attempt) allow then Decision_Allow
  else match dflt with EgressDefault_Deny => Decision_Deny | EgressDefault_Audit => Decision_Audit end.
Proof. induction allow as [|t allow IH]; simpl; [done|]. by destruct (matches_target t attempt). Qed.

(** * Theorem *)

(** C12: an attempt is allowed exactly when some allowlist entry covers it: a
    host entry by exact name, an address entry when its text is a well-formed
    block of the same address family that contains the destination, both with
    their port condition; otherwise the answer is the configured default. The
    order and repetition of entries do not matter, and an entry that does not
    parse as an address block allows nothing. *)
Theorem egress_policy_exact policy attempt :
  ip_ok (ea_addr attempt) →
  (evaluate policy attempt = Decision_Allow ↔ ∃ t, t ∈ np_allow policy ∧ covers t attempt) ∧
  (evaluate policy attempt ≠ Decision_Allow →
    evaluate policy attempt = match np_default policy with
                              | EgressDefault_Deny => Decision_Deny
                              | EgressDefault_Audit => Decision_Audit
                              end) ∧
  (∀ allow', (∀ t, t ∈ allow' ↔ t ∈ np_allow policy) →
    evaluate (mkNetworkPolicy allow' (np_default policy)) attempt = evaluate policy attempt) ∧
  evaluate deny_all attempt = Decision_Deny ∧ evaluate allow_all attempt = Decision_Allow.
Proof.
  intros Hok.
  assert (Hex : ∀ allow, existsb (λ t, matches_target t attempt) allow = true ↔
    ∃ t, t ∈ allow ∧ covers t attempt).
  { intros allow. rewrite existsb_exists. split; intros (t & Ht & Hc); exists t;
      apply matches_target_covers in Hc || apply matches_target_covers;
      rewrite ?list_elem_of_In in *; done. }
  unfold evaluate. rewrite !evaluate_loop_spec. split_and!.
  - rewrite <-Hex. destruct (existsb _ _); [done|]. by destruct (np_default policy).
  - by destruct (existsb _ _).
  - intros allow' Ha. rewrite evaluate_loop_spec. simpl.
    replace (existsb (λ t, matches_target t attempt) allow')
      with (existsb (λ t, matches_target t attempt) (np_allow policy)); [done|].
    apply eq_bool_prop_intro. rewrite !Is_true_true, !Hex. split; intros (t & Ht & Hc); exists t;
      (split; [by apply Ha|done]).
  - done.
  - destruct attempt as [h [a|a] p s]; reflexivity.
Qed.

(** * Examples *)

(** ["10.1.0.0/16"], ["fe80::1:2/112"] and ["::ffff:10.0.0.1/128"]. *)
Definition demo_v4 : list Z := [49; 48; 46; 49; 46; 48; 46; 48; 47; 49; 54].
Definition demo_v6 : list Z := [102; 101; 56; 48; 58; 58; 49; 58; 50; 47; 49; 49; 50].
Definition demo_v4_in_v6 : list Z :=
  [58; 58; 102; 102; 102; 102; 58; 49; 48; 46; 48; 46; 48; 46; 49; 47; 49; 50; 56].

Example cidr_demo :
  cidr_contains demo_v4 (IpAddr_V4 (10 * 2 ^ 24 + 2 ^ 16 + 999)) = true ∧
  cidr_contains demo_v4 (IpAddr_V4 (10 * 2 ^ 24 + 2 ^ 17)) = false ∧
  cidr_contains demo_v4 (IpAddr_V6 (10 * 2 ^ 24 + 2 ^ 16)) = false ∧
  cidr_contains demo_v6 (IpAddr_V6 (0xfe80 * 2 ^ 112 + 2 ^ 16 + 7)) = true ∧
  cidr_contains demo_v4_in_v6 (IpAddr_V6 (0xffff0a000001)) = true.
Proof. vm_compute. auto. Qed.

Lemma egress_policy_exact_witness :
  evaluate (mkNetworkPolicy [EgressTarget_Cidr demo_v4 443 443] EgressDefault_Audit)
    (mkEgressAttempt None (IpAddr_V4 (10 * 2 ^ 24 + 2 ^ 16)) 80 Scheme_Tcp) = Decision_Audit.
Proof.
  refine (proj1 (proj2 (egress_policy_exact
    (mkNetworkPolicy [EgressTarget_Cidr demo_v4 443 443] EgressDefault_Audit)
    (mkEgressAttempt None (IpAddr_V4 (10 * 2 ^ 24 + 2 ^ 16)) 80 Scheme_Tcp) _)) _).
  - vm_compute. done.
  - vm_compute. done.
Defined.
