(* ===== verification/SourceFetch.v ===== *)
(** Source fetching: the hash of a working tree
    (src/crates/cosaci-jobs/src/source_fetch.rs).

    A directory is the list of its entries in the order the operating system
    returns them; file names are bytes, decoded lossily as the source does.
    The git processes are the answers they give. The theorem shows that the
    tree hash is a function of the files alone and identifies them, up to a
    SHA-256 collision. *)

From S2P Require Import Prelude Attestation Capabilities Text.

Set Warnings "-register-all".

(** Digests of sha2 are 32 bytes. *)
Class Sha256Len `{Sha256} := sha256_length b : length (sha256 b) = 32%nat.

(** * The file system *)

(** [Fs_unreadable] is a directory that cannot be listed, [Fs_broken] an entry
    whose type, metadata or content cannot be read. *)
Inductive fs_node :=
| Fs_dir (entries : list (bytes * fs_node))
| Fs_file (mode : Z) (content : bytes)
| Fs_symlink
| Fs_unreadable
| Fs_broken.

(** A record: path, mode and content digest. *)
Abbreviation tree_record := (list Z * Z * bytes)%type (only parsing).

Definition canonical_mode (mode : Z) : Z :=
  let perms := Z.land mode 511 in
  if negb (Z.land perms 73 =? 0) then 33261 else 33188.

(** Components joined by slashes. *)
Fixpoint path_to_unix (components : list (list Z)) : list Z :=
  match components with
  | [] => []
  | [c] => c
  | c :: cs => c ++ 47 :: path_to_unix cs
  end.

Section tree.
Context `{Sha256}.

Definition hash_file (content : bytes) : bytes := sha256 content.

(** The body of the loop of [walk] on one entry; [dir] are the components of
    the directory, the error is the kind-less I/O error. *)
Fixpoint walk_entry (exclude_dirs : list (list Z)) (dir : list (list Z)) (name_os : bytes)
    (node : fs_node) (out : list tree_record) : result (list tree_record) unit :=
  let name := from_utf8_lossy name_os in
  match node with
  | Fs_dir entries =>
      if bool_decide (name ∈ exclude_dirs) then Ok out
      else
        (fix walk_entries (es : list (bytes * fs_node)) (out : list tree_record) :=
           match es with
           | [] => Ok out
           | (nm, nd) :: es =>
               match walk_entry exclude_dirs (dir ++ [name]) nm nd out with
               | Ok out => walk_entries es out
               | Err e => Err e
               end
           end) entries out
  | Fs_unreadable => if bool_decide (name ∈ exclude_dirs) then Ok out else Err ()
  | Fs_file mode content =>
      Ok (out ++ [(path_to_unix (dir ++ [name]), canonical_mode mode, hash_file content)])
  | Fs_symlink => Ok out
  | Fs_broken => Err ()
  end.

(** [walk] over a directory. *)
Fixpoint walk (exclude_dirs : list (list Z)) (dir : list (list Z)) (entries : list (bytes * fs_node))
    (out : list tree_record) : result (list tree_record) unit :=
  match entries with
  | [] => Ok out
  | (nm, nd) :: entries =>
      out ←? walk_entry exclude_dirs dir nm nd out;
      walk exclude_dirs dir entries out
  end.

(** The comparison of [sort_by]: strings compare by their UTF-8 bytes. *)
Definition record_leb (a b : tree_record) : bool := lex_leb (as_bytes a.1.1) (as_bytes b.1.1).

(** The bytes fed to the hash for one record. *)
Definition record_bytes (r : tree_record) : bytes :=
  let path_bytes := as_bytes r.1.1 in
  le_bytes 8 (Z.of_nat (length path_bytes)) ++ path_bytes ++ le_bytes 4 r.1.2 ++ r.2.

(** [hash_working_tree]; [None] is a root that cannot be listed. *)
Definition hash_working_tree (root : option (list (bytes * fs_node))) (exclude_dirs : list (list Z)) :
    result bytes unit :=
  match root with
  | None => Err ()
  | Some entries =>
      records ←? walk exclude_dirs [] entries [];
      Ok (sha256 (concat (record_bytes <$> stable_sort record_leb records)))
  end.

(** * Fetching *)

Record SourceFetchOutput := mkSourceFetchOutput { sf_resolved_sha : list Z; sf_tree_hash : bytes }.

Inductive SourceFetchError :=
| SourceFetchError_GitNotFound
| SourceFetchError_CloneFailed (s : list Z)
| SourceFetchError_CheckoutFailed (s : list Z)
| SourceFetchError_ResolveFailed (s : list Z)
| SourceFetchError_Io.

(** What running a command gives: it does not start, or it ends with a status
    and two outputs. *)
Inductive command_output :=
| Command_not_found
| Command_io
| Command_done (success : bool) (stdout stderr : bytes).

Inductive GitInvocationError :=
| GitInvocationError_NotFound
| GitInvocationError_Io
| GitInvocationError_NonZero (s : list Z).

Definition run_git (out : command_output) : result (list Z) GitInvocationError :=
  match out with
  | Command_not_found => Err GitInvocationError_NotFound
  | Command_io => Err GitInvocationError_Io
  | Command_done success stdout stderr =>
      if negb success then Err (GitInvocationError_NonZero (from_utf8_lossy stderr))
      else Ok (from_utf8_lossy stdout)
  end.

Definition classify (e : GitInvocationError) (nonzero : list Z → SourceFetchError) : SourceFetchError :=
  match e with
  | GitInvocationError_NotFound => SourceFetchError_GitNotFound
  | GitInvocationError_Io => SourceFetchError_Io
  | GitInvocationError_NonZero s => nonzero s
  end.

(** The machine the fetch runs on: whether a temporary directory could be
    created, what git answers to its arguments, and the tree that is then in
    the directory. *)
Record fetch_env := mkFetchEnv {
  fe_tempdir : bool;
  fe_git : list (list Z) → command_output;
  fe_tree : option (list (bytes * fs_node));
}.

Definition execute_source_fetch (env : fetch_env) (url reference : list Z) :
    result SourceFetchOutput SourceFetchError :=
  if negb (fe_tempdir env) then Err SourceFetchError_Io
  else
    _ ←? map_err (λ e, classify e SourceFetchError_CloneFailed)
           (run_git (fe_git env [chars "clone"; url; chars "."]));
    _ ←? map_err (λ e, classify e SourceFetchError_CheckoutFailed)
           (run_git (fe_git env [chars "checkout"; reference]));
    head ←? map_err (λ e, classify e SourceFetchError_ResolveFailed)
              (run_git (fe_git env [chars "rev-parse"; chars "HEAD"]));
    let resolved_sha := trim head in
    tree_hash ←? map_err (λ _, SourceFetchError_Io)
                   (hash_working_tree (fe_tree env) [chars ".git"]);
    Ok (mkSourceFetchOutput resolved_sha tree_hash).

Definition output_hash (out : SourceFetchOutput) : bytes :=
  let sha_bytes := as_bytes (sf_resolved_sha out) in
  sha256 (le_bytes 8 (Z.of_nat (length sha_bytes)) ++ sha_bytes ++ sf_tree_hash out).

End tree.

(** * What the hash is a function of *)

(** The files under a directory: the walk with each content in place of its
    digest. *)
Definition listing : list (list Z) → list (list Z) → list (bytes * fs_node) → list tree_record →
    result (list tree_record) unit := @walk (λ content, content).

(** A file as the hash sees it: path bytes, canonical mode and content. *)
Definition file_key (r : tree_record) : bytes * Z * bytes := (as_bytes r.1.1, r.1.2, r.2).

(** The entries of a directory, and of any directory below it, in another
    order. *)
Inductive reordered : list (bytes * fs_node) → list (bytes * fs_node) → Prop :=
| reordered_refl es : reordered es es
| reordered_swap x y es : reordered (x :: y :: es) (y :: x :: es)
| reordered_cons x es es' : reordered es es' → reordered (x :: es) (x :: es')
| reordered_dir nm es es' l : reordered es es' → reordered ((nm, Fs_dir es) :: l) ((nm, Fs_dir es') :: l)
| reordered_trans es1 es2 es3 : reordered es1 es2 → reordered es2 es3 → reordered es1 es3.

(** What the source relies on: no two files share a path, and a path is shorter
    than the address space. *)
Definition distinct_paths (fs : list tree_record) : Prop :=
  NoDup (as_bytes <$> fs.*1.*1) ∧ Forall (λ r : tree_record, Z.of_nat (length (as_bytes r.1.1)) < 2 ^ 64) fs.

(** Two different byte strings with one digest. *)
Definition collision `{Sha256} : Prop := ∃ x y : bytes, x ≠ y ∧ sha256 x = sha256 y.

(** * Lemmas *)

(** Induction that reaches the nodes inside a directory. *)
Lemma fs_node_nested_ind (P : fs_node → Prop) :
  (∀ es, Forall (λ p : bytes * fs_node, P p.2) es → P (Fs_dir es)) → (∀ m c, P (Fs_file m c)) →
  P Fs_symlink → P Fs_unreadable → P Fs_broken → ∀ n, P n.
Proof.
  intros Hd Hf Hs Hu Hb. fix IH 1. intros [es|m c| | |]; [|by apply Hf|done..].
  apply Hd. induction es as [|[nm nd] es IHes]; constructor; [apply IH|exact IHes].
Qed.

Section walk_lemmas.
Context `{Sha256}.

Lemma walk_entry_dir ex dir nm es out :
  walk_entry ex dir nm (Fs_dir es) out =
  if bool_decide (from_utf8_lossy nm ∈ ex) then Ok out
  else walk ex (dir ++ [from_utf8_lossy nm]) es out.
Proof.
  simpl. case_bool_decide; [done|].
  revert out. induction es as [|[n nd] es IH]; intros out; simpl; [done|].
  destruct (walk_entry ex _ n nd out); [apply IH|done].
Qed.

Definition map_ok {A B E} (f : A → B) (r : result A E) : result B E :=
  match r with Ok a => Ok (f a) | Err e => Err e end.

(** The walk appends: it starts from any records alike. *)
Lemma walk_entry_acc ex nd dir nm out :
  walk_entry ex dir nm nd out = map_ok (app out) (walk_entry ex dir nm nd []).
Proof.
  revert dir nm out. induction nd as [es IH|m c| | |] using fs_node_nested_ind; intros dir nm out;
    try (simpl; rewrite ?app_nil_r; by try case_bool_decide).
  - rewrite !walk_entry_dir. case_bool_decide; [simpl; by rewrite app_nil_r|].
    revert out. induction IH as [|[n nd] es Hnd _ IHes]; intros out; simpl in *; [by rewrite app_nil_r|].
    rewrite (Hnd _ _ out). destruct (walk_entry ex _ n nd []) as [r|]; simpl; [|done].
    rewrite (IHes (out ++ r)), (IHes r). destruct (walk ex _ es []); simpl; [|done].
    by rewrite app_assoc.
  - simpl. by case_bool_decide; simpl; rewrite ?app_nil_r.
Qed.

Lemma walk_acc ex dir es out : walk ex dir es out = map_ok (app out) (walk ex dir es []).
Proof.
  revert out. induction es as [|[n nd] es IH]; intros out; simpl; [by rewrite app_nil_r|].
  rewrite (walk_entry_acc ex nd dir n out). destruct (walk_entry ex dir n nd []) as [r|]; simpl; [|done].
  rewrite (IH (out ++ r)), (IH r). destruct (walk ex dir es []); simpl; [|done]. by rewrite app_assoc.
Qed.

Lemma walk_cons ex dir nm nd es :
  walk ex dir ((nm, nd) :: es) [] =
  (r ←? walk_entry ex dir nm nd []; r' ←? walk ex dir es []; Ok (r ++ r')).
Proof.
  simpl. destruct (walk_entry ex dir nm nd []) as [r|]; [|done]. rewrite walk_acc.
  by destruct (walk ex dir es []).
Qed.

(** Equal up to the order of the records. *)
Definition same_records {A} (x y : result (list A) unit) : Prop :=
  match x, y with Ok r, Ok r' => r ≡ₚ r' | Err _, Err _ => True | _, _ => False end.

#[local] Instance same_records_equiv {A} : Equivalence (@same_records A).
Proof.
  split.
  - intros [r|e]; simpl; done.
  - intros [r|e] [r'|e']; simpl; done.
  - intros [r|e] [r'|e'] [r''|e'']; simpl; try done. by intros -> ->.
Qed.

Lemma walk_reordered ex es es' :
  reordered es es' → ∀ dir, same_records (walk ex dir es []) (walk ex dir es' []).
Proof.
  induction 1 as [es|[n1 d1] [n2 d2] es|[n d] es es' _ IH|nm es es' l _ IH|es1 es2 es3 _ IH1 _ IH2];
    intros dir.
  - reflexivity.
  - rewrite !walk_cons. destruct (walk_entry ex dir n1 d1 []), (walk_entry ex dir n2 d2 []),
      (walk ex dir es []); simpl; try done. rewrite !app_assoc. by rewrite (Permutation_app_comm a).
  - rewrite !walk_cons. specialize (IH dir). destruct (walk_entry ex dir n d []); [|done].
    destruct (walk ex dir es []), (walk ex dir es' []); simpl in *; try done. by rewrite IH.
  - rewrite !walk_cons, !walk_entry_dir. case_bool_decide; [by destruct (walk ex dir l [])|].
    specialize (IH (dir ++ [from_utf8_lossy nm])).
    destruct (walk ex _ es []), (walk ex _ es' []); simpl in *; try done.
    destruct (walk ex dir l []); simpl; [by rewrite IH|done].
  - etransitivity; eauto.
Qed.

End walk_lemmas.

(** The digests of the records of a listing. *)
Definition with_digest `{Sha256} (r : tree_record) : tree_record := (r.1.1, r.1.2, sha256 r.2).

Lemma walk_entry_listing `{Sha256} ex nd dir nm :
  walk_entry ex dir nm nd [] = map_ok (fmap with_digest) (@walk_entry (λ c, c) ex dir nm nd []).
Proof.
  revert dir nm. induction nd as [es IH|m c| | |] using fs_node_nested_ind; intros dir nm; try done.
  - rewrite !walk_entry_dir. case_bool_decide; [done|]. generalize (dir ++ [from_utf8_lossy nm]). intros d.
    induction IH as [|[n nd] es Hnd _ IHes]; [done|]. rewrite !walk_cons. simpl in Hnd. rewrite Hnd.
    destruct (@walk_entry (λ c, c) ex d n nd []); [|done]. simpl. rewrite IHes.
    destruct (@walk (λ c, c) ex d es []); simpl; [by rewrite fmap_app|done].
  - simpl. by case_bool_decide.
Qed.

Lemma walk_listing `{Sha256} ex dir es :
  walk ex dir es [] = map_ok (fmap with_digest) (listing ex dir es []).
Proof.
  unfold listing. induction es as [|[n nd] es IH]; [done|]. rewrite !walk_cons, walk_entry_listing, IH.
  destruct (@walk_entry (λ c, c) ex dir n nd []); [|done].
  simpl. destruct (@walk (λ c, c) ex dir es []); simpl; [by rewrite fmap_app|done].
Qed.

Definition key_leb (a b : bytes * Z * bytes) : bool := lex_leb a.1.1 b.1.1.

(** The bytes hashed for one file. *)
Definition key_bytes (k : bytes * Z * bytes) : bytes :=
  le_bytes 8 (Z.of_nat (length k.1.1)) ++ k.1.1 ++ le_bytes 4 k.1.2 ++ k.2.

Definition digest_key `{Sha256} (k : bytes * Z * bytes) : bytes * Z * bytes := (k.1.1, k.1.2, sha256 k.2).

Lemma hash_of_listing `{Sha256} ex es fs :
  listing ex [] es [] = Ok fs →
  hash_working_tree (Some es) ex =
  Ok (sha256 (concat (key_bytes <$> (digest_key <$> stable_sort key_leb (file_key <$> fs))))).
Proof.
  intros Hfs. unfold hash_working_tree. rewrite walk_listing, Hfs. cbn [map_ok].
  do 3 f_equal.
  rewrite (stable_sort_fmap record_leb key_leb file_key) by done.
  rewrite (stable_sort_fmap record_leb record_leb with_digest) by done.
  rewrite <-!list_fmap_compose. done.
Qed.

Lemma sort_keys_canonical l l' :
  NoDup l.*1.*1 → l ≡ₚ l' → stable_sort key_leb l = stable_sort key_leb l'.
Proof.
  intros Hnd Hp.
  assert (Htot : ∀ x y, key_leb x y = true ∨ key_leb y x = true) by (intros; apply lex_leb_total).
  assert (Htr : ∀ x y z, key_leb x y = true → key_leb y z = true → key_leb x z = true)
    by (intros x y z; apply lex_leb_trans).
  apply (StronglySorted_unique_perm key_leb).
  - intros x y Hx Hy Hxy Hyx. pose proof (lex_leb_antisym _ _ Hxy Hyx) as Heq.
    rewrite stable_sort_perm in Hx, Hy.
    apply list_elem_of_lookup in Hx as [i Hi], Hy as [j Hj].
    assert (i = j) as ->; [|congruence].
    eapply (NoDup_lookup _ i j _ Hnd); rewrite !list_lookup_fmap; rewrite ?Hi, ?Hj; simpl; [done|].
    by rewrite Heq.
  - by apply stable_sort_sorted.
  - by apply stable_sort_sorted.
  - by rewrite !stable_sort_perm.
Qed.

(** The record stream is uniquely decodable. *)
Definition key_ok (k : bytes * Z * bytes) : Prop :=
  Z.of_nat (length k.1.1) < 2 ^ 64 ∧ uint 32 k.1.2 ∧ length k.2 = 32%nat.

Lemma key_bytes_inj k k' s s' :
  key_ok k → key_ok k' → key_bytes k ++ s = key_bytes k' ++ s' → k = k' ∧ s = s'.
Proof.
  destruct k as [[p m] d], k' as [[p' m'] d']. unfold key_ok, key_bytes. cbn [fst snd].
  intros (Hp & Hm & Hd) (Hp' & Hm' & Hd') Heq. rewrite <-!app_assoc in Heq.
  apply app_inj_1 in Heq as [Hl Heq]; [|by rewrite !le_bytes_length].
  apply le_bytes_inj in Hl; [|lia..].
  apply app_inj_1 in Heq as [-> Heq]; [|lia].
  apply app_inj_1 in Heq as [He Heq]; [|by rewrite !le_bytes_length].
  apply le_bytes_inj in He as ->; [|done..].
  by apply app_inj_1 in Heq as [-> ->]; [|congruence].
Qed.

Lemma key_bytes_nonempty k s : key_bytes k ++ s ≠ [].
Proof. by destruct k as [[p m] d]. Qed.

Lemma record_stream_inj l l' :
  Forall key_ok l → Forall key_ok l' → concat (key_bytes <$> l) = concat (key_bytes <$> l') → l = l'.
Proof.
  intros Hl. revert l'. induction Hl as [|k l Hk _ IH]; intros l' Hl'; csimpl.
  - destruct l' as [|k' l']; [done|]. csimpl. intros Heq. symmetry in Heq. by apply key_bytes_nonempty in Heq.
  - destruct Hl' as [|k' l' Hk' Hl']; csimpl; [intros Heq; by apply key_bytes_nonempty in Heq|].
    intros Heq. apply key_bytes_inj in Heq as [-> Heq]; [|done..]. f_equal. by apply IH.
Qed.

(** Lists of files with the same digests are the same or exhibit a collision. *)
Lemma digest_keys_eq `{Sha256} (l l' : list (bytes * Z * bytes)) : digest_key <$> l = digest_key <$> l' → l = l' ∨ collision.
Proof.
  revert l'. induction l as [|[[p m] c] l IH]; intros [|[[p' m'] c'] l']; csimpl; try done; [by left|].
  intros Heq. injection Heq as -> -> Hc Hl. destruct (decide (c = c')) as [->|Hne].
  - destruct (IH _ Hl) as [->|?]; auto.
  - right. by exists c, c'.
Qed.

Lemma canonical_mode_u32 m : uint 32 (canonical_mode m).
Proof. unfold canonical_mode. by case_match. Qed.

Definition mode_ok (r : tree_record) : Prop := uint 32 r.1.2.

Lemma walk_entry_modes `{Sha256} ex nd dir nm r : walk_entry ex dir nm nd [] = Ok r → Forall mode_ok r.
Proof.
  revert dir nm r. induction nd as [es IH|m c| | |] using fs_node_nested_ind; intros dir nm r;
    try (simpl; intros; simplify_eq; constructor; fail).
  - rewrite walk_entry_dir. case_bool_decide; [intros [= <-]; constructor|].
    generalize (dir ++ [from_utf8_lossy nm]). intros d. revert r.
    induction IH as [|[n nd] es Hnd _ IHes]; intros r; [simpl; intros [= <-]; constructor|].
    rewrite walk_cons. destruct (walk_entry ex d n nd []) as [r1|] eqn:E1; [|done].
    destruct (walk ex d es []) as [r2|] eqn:E2; [|done]. intros [= <-].
    apply Forall_app. split; [by eapply Hnd|by apply IHes].
  - simpl. intros [= <-]. constructor; [apply canonical_mode_u32|constructor].
  - simpl. case_bool_decide; [intros [= <-]; constructor|done].
Qed.

Lemma walk_modes `{Sha256} ex dir es r : walk ex dir es [] = Ok r → Forall mode_ok r.
Proof.
  revert r. induction es as [|[n nd] es IH]; intros r; [simpl; intros [= <-]; constructor|].
  rewrite walk_cons. destruct (walk_entry ex dir n nd []) as [r1|] eqn:E1; [|done].
  destruct (walk ex dir es []) as [r2|] eqn:E2; [|done]. intros [= <-].
  apply Forall_app. split; [by eapply walk_entry_modes|by apply IH].
Qed.

Lemma digest_keys_ok `{Sha256Len} fs :
  Forall mode_ok fs → distinct_paths fs →
  Forall key_ok (digest_key <$> stable_sort key_leb (file_key <$> fs)).
Proof.
  intros Hm [_ Hl]. apply Forall_fmap. rewrite stable_sort_perm. apply Forall_fmap.
  apply Forall_forall. intros r Hr. rewrite Forall_forall in Hm, Hl.
  split; [exact (Hl r Hr)|]. split; [exact (Hm r Hr)|]. apply sha256_length.
Qed.

Lemma distinct_keys fs : distinct_paths fs → NoDup (file_key <$> fs).*1.*1.
Proof.
  intros [Hnd _]. rewrite <-!list_fmap_compose in *. done.
Qed.

(** * Theorem *)

(** The hash of a readable working tree is a function of its set of files
    (path, executable or not, content), whatever order directories list their
    entries in, and two trees with one hash have the same files, unless SHA-256
    has a collision. *)
Theorem tree_hash_exact `{Sha256Len} ex es es' fs fs' :
  listing ex [] es [] = Ok fs → listing ex [] es' [] = Ok fs' →
  distinct_paths fs → distinct_paths fs' →
  ∃ h h', hash_working_tree (Some es) ex = Ok h ∧ hash_working_tree (Some es') ex = Ok h' ∧
    (file_key <$> fs ≡ₚ file_key <$> fs' → h = h') ∧
    (h = h' → file_key <$> fs ≡ₚ file_key <$> fs' ∨ collision) ∧
    (reordered es es' → h = h').
Proof.
  intros Hfs Hfs' Hd Hd'. rewrite (hash_of_listing _ _ _ Hfs), (hash_of_listing _ _ _ Hfs').
  assert (Hperm : file_key <$> fs ≡ₚ file_key <$> fs' →
    stable_sort key_leb (file_key <$> fs) = stable_sort key_leb (file_key <$> fs')).
  { apply sort_keys_canonical. by apply distinct_keys. }
  eexists _, _. split; [done|]. split; [done|]. split_and!.
  - intros Hp. by rewrite Hperm.
  - intros Heq. destruct (decide (concat (key_bytes <$> (digest_key <$> stable_sort key_leb (file_key <$> fs))) =
      concat (key_bytes <$> (digest_key <$> stable_sort key_leb (file_key <$> fs'))))) as [Hc|Hc].
    + apply record_stream_inj in Hc;
        [|apply digest_keys_ok; [by eapply (@walk_modes (λ c, c))|done]..].
      apply digest_keys_eq in Hc as [Hc|Hc]; [left|by right].
      by rewrite <-(stable_sort_perm key_leb (file_key <$> fs)), Hc, stable_sort_perm.
    + right. eexists _, _. split; [exact Hc|exact Heq].
  - intros Hre. pose proof (@walk_reordered (λ c, c) ex es es' Hre []) as Hw.
    unfold listing in Hfs, Hfs'. rewrite Hfs, Hfs' in Hw. simpl in Hw. rewrite Hperm; [done|]. by rewrite Hw.
Qed.

(** The output of a fetch binds the commit and the tree. *)
Lemma fetch_output_binds `{Sha256Len} a b :
  Z.of_nat (length (as_bytes (sf_resolved_sha a))) < 2 ^ 64 →
  Z.of_nat (length (as_bytes (sf_resolved_sha b))) < 2 ^ 64 →
  output_hash a = output_hash b →
  (as_bytes (sf_resolved_sha a) = as_bytes (sf_resolved_sha b) ∧ sf_tree_hash a = sf_tree_hash b) ∨ collision.
Proof.
  intros Ha Hb. unfold output_hash. cbv zeta. intros Heq.
  destruct (decide (le_bytes 8 (Z.of_nat (length (as_bytes (sf_resolved_sha a)))) ++
      as_bytes (sf_resolved_sha a) ++ sf_tree_hash a =
    le_bytes 8 (Z.of_nat (length (as_bytes (sf_resolved_sha b)))) ++
      as_bytes (sf_resolved_sha b) ++ sf_tree_hash b)) as [Hc|Hc].
  - left. apply app_inj_1 in Hc as [Hl Hc]; [|by rewrite !le_bytes_length].
    apply le_bytes_inj in Hl; [|lia..]. apply app_inj_1 in Hc; [done|lia].
  - right. by eexists _, _.
Qed.

(** * Examples *)

Import (hints) Toy.

#[local] Instance toy_sha256_len : Sha256Len.
Proof. done. Qed.

Definition demo_dir : list (bytes * fs_node) :=
  [(chars "src", Fs_dir [(chars "a.rs", Fs_file 420 [1; 2]); (chars "b.rs", Fs_file 493 [3])]);
   (chars "link", Fs_symlink); (chars ".git", Fs_dir [(chars "HEAD", Fs_broken)])].

Definition demo_dir' : list (bytes * fs_node) :=
  [(chars "link", Fs_symlink);
   (chars "src", Fs_dir [(chars "b.rs", Fs_file 493 [3]); (chars "a.rs", Fs_file 420 [1; 2])]);
   (chars ".git", Fs_dir [(chars "HEAD", Fs_broken)])].

Lemma tree_hash_exact_witness :
  hash_working_tree (Some demo_dir) [chars ".git"] = hash_working_tree (Some demo_dir') [chars ".git"].
Proof.
  destruct (tree_hash_exact [chars ".git"] demo_dir demo_dir'
    [(chars "src/a.rs", 33188, [1; 2]); (chars "src/b.rs", 33261, [3])]
    [(chars "src/b.rs", 33261, [3]); (chars "src/a.rs", 33188, [1; 2])])
    as (h & h' & Hh & Hh' & _ & _ & Hre).
  - vm_compute. reflexivity.
  - vm_compute. reflexivity.
  - split; [by apply (bool_decide_unpack _); vm_compute|repeat constructor].
  - split; [by apply (bool_decide_unpack _); vm_compute|repeat constructor].
  - rewrite Hh, Hh', Hre; [reflexivity|].
    eapply reordered_trans; [apply reordered_swap|]. apply reordered_cons, reordered_dir, reordered_swap.
Defined.

(** File names that are not UTF-8 can be decoded to one path, and then the hash
    depends on the listing order. *)
Example lossy_names_order :
  let f n c := ([n], Fs_file 420 [c]) in
  let records es := match walk [] [] es [] with
                    | Ok r => stable_sort record_leb r
                    | Err _ => []
                    end in
  records [f 254 1; f 255 2] ≠ records [f 255 2; f 254 1].
Proof. vm_compute. discriminate. Qed.
