(* ===== verification/Wasm.v ===== *)
(** WASM execution under limits
    (src/crates/cosaci-wasm/src/wasm_runtime.rs).

    The wasmtime engine is what it answers in a run, the record [engine]; what
    the source decides is which limits it configures and how it classifies the
    answer. *)

From S2P Require Import Prelude Attestation Text.

(** [wall] in seconds. *)
Record ExecLimits := mkExecLimits { el_fuel : Z; el_memory_bytes : Z; el_wall : Z }.

Definition unlimited : ExecLimits := mkExecLimits 0 0 0.

Inductive ExecLimitKind := ExecLimitKind_Cpu | ExecLimitKind_Memory | ExecLimitKind_Wall.

Inductive ExecOutcome :=
| ExecOutcome_Ok (v : Z)
| ExecOutcome_LimitExceeded (kind : ExecLimitKind).

(** The traps the source distinguishes, and an error of a call: the trap it
    carries, if any, and its message. *)
Inductive Trap := Trap_OutOfFuel | Trap_Interrupt | Trap_Other.

Record call_error := mkCallError { ce_trap : option Trap; ce_msg : list Z }.

(** The answers of ciborium and wasmtime: decoding the arguments, creating the
    engine (with fuel, with epochs), compiling, setting fuel, instantiating,
    looking up the export, and the call under the configured limits. *)
Record engine := mkEngine {
  en_decode_args : bytes → result (Z * Z) (list Z);
  en_new : bool → bool → result unit (list Z);
  en_module : bytes → result unit (list Z);
  en_set_fuel : Z → result unit (list Z);
  en_instance : ExecLimits → bytes → result unit (list Z);
  en_typed_func : bytes → result unit (list Z);
  en_call : ExecLimits → bytes → Z → Z → result Z call_error;
}.

(** [LimitsCtx::memory_growing]. *)
Definition memory_growing (max_bytes desired : Z) : result bool (list Z) :=
  if (0 <? max_bytes) && (max_bytes <? desired) then
    Err (chars "cosaci-wasm memory cap exceeded: requested " ++ show_u64 desired ++
         chars " > cap " ++ show_u64 max_bytes)
  else Ok true.

(** [LimitsCtx::table_growing]. *)
Definition table_growing (desired : Z) : result bool (list Z) := Ok true.

Fixpoint is_prefix (p s : list Z) : bool :=
  match p, s with
  | [], _ => true
  | c :: p, d :: s => (c =? d) && is_prefix p s
  | _ :: _, [] => false
  end.

(** [str::contains]. *)
Fixpoint contains (p s : list Z) : bool :=
  is_prefix p s || match s with [] => false | _ :: s => contains p s end.

Definition prefix_err {A} (p : string) (r : result A (list Z)) : result A (list Z) :=
  map_err (app (chars p)) r.

(** The match on the result of the call. *)
Definition classify_call (res : result Z call_error) : result ExecOutcome (list Z) :=
  match res with
  | Ok v => Ok (ExecOutcome_Ok v)
  | Err e =>
      match ce_trap e with
      | Some Trap_OutOfFuel => Ok (ExecOutcome_LimitExceeded ExecLimitKind_Cpu)
      | Some Trap_Interrupt => Ok (ExecOutcome_LimitExceeded ExecLimitKind_Wall)
      | _ => if contains (chars "cosaci-wasm memory cap exceeded") (ce_msg e)
             then Ok (ExecOutcome_LimitExceeded ExecLimitKind_Memory)
             else Err (chars "call: " ++ ce_msg e)
      end
  end.

Definition execute_with_limits (en : engine) (wasm args_cbor : bytes) (limits : ExecLimits) :
    result ExecOutcome (list Z) :=
  ab ←? prefix_err "cbor decode args: " (en_decode_args en args_cbor);
  let wall_active := negb (el_wall limits =? 0) in
  _ ←? prefix_err "engine: " (en_new en (0 <? el_fuel limits) wall_active);
  _ ←? prefix_err "module: " (en_module en wasm);
  _ ←? (if 0 <? el_fuel limits then prefix_err "set_fuel: " (en_set_fuel en (el_fuel limits)) else Ok ());
  _ ←? prefix_err "instance: " (en_instance en limits wasm);
  _ ←? prefix_err "get_typed_func add: " (en_typed_func en wasm);
  classify_call (en_call en limits wasm ab.1 ab.2).

Definition execute (en : engine) (wasm args_cbor : bytes) : result Z (list Z) :=
  o ←? execute_with_limits en wasm args_cbor unlimited;
  match o with
  | ExecOutcome_Ok v => Ok v
  | ExecOutcome_LimitExceeded kind =>
      Err (chars "limit exceeded (" ++
           chars match kind with
                 | ExecLimitKind_Cpu => "Cpu"
                 | ExecLimitKind_Memory => "Memory"
                 | ExecLimitKind_Wall => "Wall"
                 end ++ chars ") under unlimited budget " ++ 8212 :: chars " should be impossible")
  end.

Section hashes.
Context `{Sha256}.

Definition module_hash (wasm : bytes) : bytes := sha256 wasm.

(** [result] is an [i32]; its bytes are those of its two's complement. *)
Definition output_hash (module_hash : bytes) (result : Z) : bytes :=
  sha256 (module_hash ++ le_bytes 4 (wrap 32 result)).

End hashes.

(** * The canned modules *)

(** [wat::parse_str]. *)
Class Wat := wat_parse_str : list Z → result bytes (list Z).

(** The text of a module whose export [add] applies an operation to its two
    parameters. *)
Definition canned_text (op : string) : list Z :=
  10 :: chars "(module" ++ 10 ::
  chars "    (func $add (export " ++ 34 :: chars "add" ++ 34 :: chars ") (param $a i32) (param $b i32) (result i32)" ++ 10 ::
  chars "        local.get $a" ++ 10 ::
  chars "        local.get $b" ++ 10 ::
  chars "        " ++ chars op ++ chars ")" ++ 10 ::
  chars ")" ++ [10].

Definition CANNED_WAT : list Z := canned_text "i32.add".
Definition CANNED_MUL_WAT : list Z := canned_text "i32.mul".

Section canned.
Context `{Wat}.

Definition wat_to_wasm (wat : list Z) : result bytes (list Z) := prefix_err "wat: " (wat_parse_str wat).
Definition canned_add_module : result bytes (list Z) := wat_to_wasm CANNED_WAT.
Definition canned_mul_module : result bytes (list Z) := wat_to_wasm CANNED_MUL_WAT.

End canned.

(** * Lemmas *)

Lemma is_prefix_app p s : is_prefix p (p ++ s) = true.
Proof. induction p as [|c p IH]; simpl; [done|]. by rewrite Z.eqb_refl. Qed.

Lemma contains_app p a b : contains p (a ++ p ++ b) = true.
Proof.
  induction a as [|c a IH]; simpl.
  - destruct (p ++ b) eqn:E; simpl; rewrite <-E, is_prefix_app; done.
  - rewrite IH. apply orb_true_r.
Qed.

(** Memory growth past a positive cap, reported by the limiter with whatever
    context the engine puts around its message, is classified as a memory
    limit. *)
Lemma memory_cap_classified cap desired msg trap pre post :
  memory_growing cap desired = Err msg → trap ≠ Some Trap_OutOfFuel → trap ≠ Some Trap_Interrupt →
  classify_call (Err (mkCallError trap (pre ++ msg ++ post))) =
    Ok (ExecOutcome_LimitExceeded ExecLimitKind_Memory) ∧ 0 < cap < desired.
Proof.
  unfold memory_growing. destruct ((0 <? cap) && (cap <? desired)) eqn:E; [|done].
  intros Hmsg Hf Hi.
  assert (msg = chars "cosaci-wasm memory cap exceeded: requested " ++ show_u64 desired ++
    chars " > cap " ++ show_u64 cap) as -> by congruence.
  clear Hmsg. apply andb_prop in E as [? ?]. zbool. split; [|lia].
  assert (Hc : contains (chars "cosaci-wasm memory cap exceeded")
    (pre ++ (chars "cosaci-wasm memory cap exceeded: requested " ++ show_u64 desired ++
             chars " > cap " ++ show_u64 cap) ++ post) = true).
  { replace (chars "cosaci-wasm memory cap exceeded: requested ")
      with (chars "cosaci-wasm memory cap exceeded" ++ chars ": requested ") by done.
    rewrite <-!app_assoc. apply contains_app. }
  unfold classify_call. cbn [ce_trap ce_msg]. rewrite Hc. by destruct trap as [[]|].
Qed.

(** A call that returned, trapped on fuel or was interrupted is never an error. *)
Lemma classify_call_error res msg :
  classify_call res = Err msg →
  ∃ e, res = Err e ∧ ce_trap e ≠ Some Trap_OutOfFuel ∧ ce_trap e ≠ Some Trap_Interrupt.
Proof. destruct res as [v|[[[]|] m]]; simpl; try done; eauto. Qed.
