(* ===== verification/Pipeline.v ===== *)
(** Job pipelines
    (src/crates/cosaci-jobs/src/lib.rs).

    [execute_pipeline] runs the steps in order over a [step_env] per step: the
    answers of git, of the WASM engine and of the operating system (processes,
    pipes, control groups). Every hash is taken over the serde data model of the
    hashed value, written out as a [cbor] term; ciborium is only the encoding of
    such terms as bytes.

    The theorems give the result of a pipeline step by step, and show that the
    artifact hash that runners vote on binds the outputs of all steps and,
    through them, the captured logs. *)

From S2P Require Import Prelude Attestation Text Network SourceFetch Wasm.

Set Warnings "-register-all".

(** * Data *)

Record Limits := mkLimits {
  lim_cpu_seconds : Z;
  lim_memory_mb : Z;
  lim_wall_seconds : Z;
  lim_network : NetworkPolicy;
}.

(** The environment of a native step is the ordered entries of its map. *)
Inductive Step :=
| Step_SourceFetch (url reference : list Z)
| Step_ExecWasm (module args_cbor : bytes) (limits : Limits)
| Step_ExecNative (command : list (list Z)) (env : list (list Z * list Z)) (limits : Limits)
| Step_CaptureLog (name : list Z)
| Step_CaptureArtifact (path name : list Z).

Record Pipeline := mkPipeline { steps : list Step }.

Inductive LimitKind := LimitKind_Cpu | LimitKind_Memory | LimitKind_Wall | LimitKind_Network.

Inductive StepStatus :=
| StepStatus_Success
| StepStatus_Failed
| StepStatus_LimitExceeded (which : LimitKind)
| StepStatus_NotImplemented.

Record StepOutput := mkStepOutput { so_step_index : Z; so_status : StepStatus; so_output_hash : bytes }.

Inductive CaptureKind := CaptureKind_Stdout | CaptureKind_Stderr | CaptureKind_Artifact.

Record CapturedOutput := mkCapturedOutput {
  co_step_index : Z;
  co_name : list Z;
  co_kind : CaptureKind;
  co_sha256 : bytes;
  co_length : Z;
  co_bytes_inline : bytes;
}.

Record PipelineResult := mkPipelineResult {
  pr_steps : list StepOutput;
  pr_final_artifact_hash : bytes;
  pr_captures : list CapturedOutput;
}.

Inductive StepKind :=
| StepKind_SourceFetch | StepKind_ExecWasm | StepKind_ExecNative | StepKind_CaptureLog
| StepKind_CaptureArtifact.

Inductive PipelineError :=
| PipelineError_Encoding (step_index : Z) (detail : list Z)
| PipelineError_WasmRuntime (step_index : Z) (detail : list Z)
| PipelineError_StepNotImplemented (step_index : Z) (kind : StepKind).

Record NativeCaptures := mkNativeCaptures {
  nc_stdout_bytes : bytes;
  nc_stdout_sha256 : bytes;
  nc_stderr_bytes : bytes;
  nc_stderr_sha256 : bytes;
}.

Definition FUEL_PER_CPU_SECOND : Z := 1000000000.
Definition MAX_CAPTURE_BYTES : Z := 16 * 1024 * 1024.

(** * Serialization

    The serde data model: structs and struct variants are maps, unit variants
    text, tuples, arrays and byte vectors sequences. *)

Inductive cbor :=
| Cb_int (z : Z)
| Cb_text (s : list Z)
| Cb_array (l : list cbor)
| Cb_map (l : list (cbor * cbor)).

(** ciborium's encoding of a term. *)
Class CborBytes := cbor_bytes : cbor → bytes.

(** Terms are recovered from their bytes. *)
Class CborBytesLaws `{CborBytes} := cbor_bytes_inj x y : cbor_bytes x = cbor_bytes y → x = y.

Definition cb_str (s : string) : cbor := Cb_text (chars s).
Definition cb_bytes (b : bytes) : cbor := Cb_array (Cb_int <$> b).

(** A struct or a struct variant's body. *)
Definition cb_struct (fields : list (string * cbor)) : cbor :=
  Cb_map ((λ p : string * cbor, (cb_str p.1, p.2)) <$> fields).

(** An externally tagged variant. *)
Definition cb_variant (name : string) (body : cbor) : cbor := Cb_map [(cb_str name, body)].

Definition cb_scheme (s : Scheme) : cbor :=
  cb_str match s with Scheme_Http => "Http" | Scheme_Https => "Https" | Scheme_Tcp => "Tcp" end.

Definition cb_target (t : EgressTarget) : cbor :=
  match t with
  | EgressTarget_Host h p s =>
      cb_variant "Host" (cb_struct [("hostname"%string, Cb_text h); ("port"%string, Cb_int p);
                                    ("scheme"%string, cb_scheme s)])
  | EgressTarget_Cidr c lo hi =>
      cb_variant "Cidr" (cb_struct [("cidr"%string, Cb_text c); ("port_range_start"%string, Cb_int lo);
                                    ("port_range_end"%string, Cb_int hi)])
  end.

Definition cb_policy (p : NetworkPolicy) : cbor :=
  cb_struct [("allow"%string, Cb_array (cb_target <$> np_allow p));
             ("default"%string,
              cb_str match np_default p with EgressDefault_Deny => "Deny" | EgressDefault_Audit => "Audit" end)].

Definition cb_limits (l : Limits) : cbor :=
  cb_struct [("cpu_seconds"%string, Cb_int (lim_cpu_seconds l));
             ("memory_mb"%string, Cb_int (lim_memory_mb l));
             ("wall_seconds"%string, Cb_int (lim_wall_seconds l));
             ("network"%string, cb_policy (lim_network l))].

Definition cb_step (s : Step) : cbor :=
  match s with
  | Step_SourceFetch u r =>
      cb_variant "SourceFetch" (cb_struct [("url"%string, Cb_text u); ("reference"%string, Cb_text r)])
  | Step_ExecWasm m a l =>
      cb_variant "ExecWasm" (cb_struct [("module"%string, cb_bytes m); ("args_cbor"%string, cb_bytes a);
                                        ("limits"%string, cb_limits l)])
  | Step_ExecNative c e l =>
      cb_variant "ExecNative"
        (cb_struct [("command"%string, Cb_array (Cb_text <$> c));
                    ("env"%string, Cb_map ((λ p : list Z * list Z, (Cb_text p.1, Cb_text p.2)) <$> e));
                    ("limits"%string, cb_limits l)])
  | Step_CaptureLog n => cb_variant "CaptureLog" (cb_struct [("name"%string, Cb_text n)])
  | Step_CaptureArtifact p n =>
      cb_variant "CaptureArtifact" (cb_struct [("path"%string, Cb_text p); ("name"%string, Cb_text n)])
  end.

Definition cb_pipeline (p : Pipeline) : cbor :=
  cb_struct [("steps"%string, Cb_array (cb_step <$> steps p))].

Definition cb_limit_kind (k : LimitKind) : cbor :=
  cb_str match k with
         | LimitKind_Cpu => "Cpu" | LimitKind_Memory => "Memory"
         | LimitKind_Wall => "Wall" | LimitKind_Network => "Network"
         end.

Definition cb_status (s : StepStatus) : cbor :=
  match s with
  | StepStatus_Success => cb_str "Success"
  | StepStatus_Failed => cb_str "Failed"
  | StepStatus_LimitExceeded which =>
      cb_variant "LimitExceeded" (cb_struct [("which"%string, cb_limit_kind which)])
  | StepStatus_NotImplemented => cb_str "NotImplemented"
  end.

Definition cb_step_output (o : StepOutput) : cbor :=
  cb_struct [("step_index"%string, Cb_int (so_step_index o)); ("status"%string, cb_status (so_status o));
             ("output_hash"%string, cb_bytes (so_output_hash o))].

(** * The operating system *)

(** An exit status: the code, absent when a signal ended the process. *)
Record exit_status := mkExitStatus { es_code : option Z }.

Definition es_success (s : exit_status) : bool := bool_decide (es_code s = Some 0).

Inductive ExitOutcome :=
| ExitOutcome_Exited (status : exit_status)
| ExitOutcome_KilledByWall
| ExitOutcome_KilledByCpu.

(** What one look at the child shows: [try_wait], the time since the start in
    nanoseconds, and the text of [cpu.stat] if it can be read. *)
Inductive try_wait := Wait_exited (status : exit_status) | Wait_running | Wait_error.

Record poll := mkPoll { po_wait : try_wait; po_elapsed : Z; po_cpu_stat : option (list Z) }.

(** The files of the control group: [/proc/self/cgroup], the delegated
    controllers, and whether the directory can be made and the limit written. *)
Record cgroup_env := mkCgroupEnv {
  cg_self : option (list Z);
  cg_subtree_control : option (list Z);
  cg_mkdir : bool;
  cg_write_memory_max : bool;
}.

(** One run of a child: the error kind if it does not start, the control group,
    the looks at it, what its pipes deliver read by read, and the text of
    [memory.events.local] at the end. *)
Record native_env := mkNativeEnv {
  ne_spawn : result unit Z;
  ne_cgroup : cgroup_env;
  ne_polls : list poll;
  ne_stdout : list bytes;
  ne_stderr : list bytes;
  ne_memory_events : option (list Z);
}.

(** [str::strip_prefix]. *)
Fixpoint strip_prefix (p s : list Z) : option (list Z) :=
  match p, s with
  | [], _ => Some s
  | c :: p, d :: s => if c =? d then strip_prefix p s else None
  | _ :: _, [] => None
  end.

(** The first line with a prefix, without it. *)
Fixpoint find_prefixed (p : list Z) (ls : list (list Z)) : option (list Z) :=
  match ls with
  | [] => None
  | l :: ls => match strip_prefix p l with Some r => Some r | None => find_prefixed p ls end
  end.

Definition current_cgroup_path (self : option (list Z)) : option (list Z) :=
  text ← self;
  rest ← find_prefixed (chars "0::") (lines text);
  Some (chars "/sys/fs/cgroup/" ++ drop_while (λ c, c =? 47) rest).

Definition subtree_has_controller (subtree_control : option (list Z)) (controller : string) : bool :=
  match subtree_control with
  | None => false
  | Some text => bool_decide (chars controller ∈ split_whitespace text)
  end.

(** [StepCgroup::try_create]: whether there is a group. *)
Definition try_create (cg : cgroup_env) (memory_mb cpu_seconds : Z) : bool :=
  if (memory_mb =? 0) && (cpu_seconds =? 0) then false
  else match current_cgroup_path (cg_self cg) with
  | None => false
  | Some _ =>
      if (0 <? memory_mb) && negb (subtree_has_controller (cg_subtree_control cg) "memory") then false
      else if (0 <? cpu_seconds) && negb (subtree_has_controller (cg_subtree_control cg) "cpu") then false
      else if negb (cg_mkdir cg) then false
      else if (0 <? memory_mb) && negb (cg_write_memory_max cg) then false
      else true
  end.

(** [StepCgroup::was_oom_killed]. *)
Definition was_oom_killed (memory_events : option (list Z)) : bool :=
  match memory_events with
  | None => false
  | Some text =>
      existsb (λ rest, match parse_u64 (trim rest) with Some n => 0 <? n | None => false end)
        (omap (strip_prefix (chars "oom_kill ")) (lines text))
  end.

(** [StepCgroup::cpu_usage_usec]. *)
Definition cpu_usage_usec (cpu_stat : option (list Z)) : option Z :=
  text ← cpu_stat;
  rest ← find_prefixed (chars "usage_usec ") (lines text);
  parse_u64 (trim rest).

(** The loop of [read_capped] over the reads that returned data. *)
Fixpoint read_capped_loop (cap total : Z) (reads : list bytes) (out : bytes) : bytes :=
  match reads with
  | [] => out
  | chunk :: reads =>
      let n := Z.of_nat (length chunk) in
      let out := if total <? cap then out ++ take (Z.to_nat (Z.min (cap - total) n)) chunk else out in
      read_capped_loop cap (sat_add total n) reads out
  end.

Definition read_capped (reads : list bytes) (cap : Z) : bytes := read_capped_loop cap 0 reads [].

(** The blocking wait: the first look that is not [Wait_running]. *)
Fixpoint child_wait (polls : list poll) : option ExitOutcome :=
  match polls with
  | [] => None
  | p :: polls =>
      match po_wait p with
      | Wait_exited status => Some (ExitOutcome_Exited status)
      | Wait_error => Some ExitOutcome_KilledByWall
      | Wait_running => child_wait polls
      end
  end.

(** The polling loop; limits in nanoseconds and microseconds. *)
Fixpoint wait_loop (wall_limit cpu_limit_usec : option Z) (cgroup : bool) (polls : list poll) :
    option ExitOutcome :=
  match polls with
  | [] => None
  | p :: polls =>
      match po_wait p with
      | Wait_exited status => Some (ExitOutcome_Exited status)
      | Wait_error => Some ExitOutcome_KilledByWall
      | Wait_running =>
          if match wall_limit with Some w => w <=? po_elapsed p | None => false end
          then Some ExitOutcome_KilledByWall
          else if match cpu_limit_usec with
                  | Some c => cgroup &&
                      match cpu_usage_usec (po_cpu_stat p) with Some usage => c <=? usage | None => false end
                  | None => false
                  end
          then Some ExitOutcome_KilledByCpu
          else wait_loop wall_limit cpu_limit_usec cgroup polls
      end
  end.

(** [wait_with_limits], limits in seconds; [None] while nothing has ended the
    wait yet. *)
Definition wait_with_limits (wall_limit cpu_limit : option Z) (cgroup : bool) (polls : list poll) :
    option ExitOutcome :=
  match wall_limit, cpu_limit with
  | None, None => child_wait polls
  | _, _ => wait_loop ((λ s, s * 1000000000) <$> wall_limit) ((λ s, s * 1000000) <$> cpu_limit) cgroup polls
  end.

(** * Executors *)

(** What the machine answers to one step. *)
Record step_env := mkStepEnv { se_fetch : fetch_env; se_engine : engine; se_native : native_env }.

Section executors.
Context `{Sha256} `{CborBytes}.

Definition hash_canonical (value : cbor) : bytes := sha256 (cbor_bytes value).

(** [encode_args] of the WASM runtime. *)
Definition encode_args (a b : Z) : bytes := cbor_bytes (Cb_array [Cb_int a; Cb_int b]).

(** [execute_add] of the WASM runtime: its canned module. *)
Definition execute_add `{Wat} (en : engine) (a b : Z) : result Z (list Z) :=
  wasm ←? canned_add_module;
  execute en wasm (encode_args a b).

(** Encoding does not fail for these types. *)
Definition canonical_encoding (pipeline : Pipeline) : result bytes PipelineError :=
  Ok (cbor_bytes (cb_pipeline pipeline)).

Definition execute_capture_log_step (step_index : Z) (name : list Z) (last_native : option NativeCaptures)
    (captures : list CapturedOutput) (step : Step) : StepOutput * list CapturedOutput :=
  match last_native with
  | None =>
      (mkStepOutput step_index StepStatus_Failed
         (hash_canonical (Cb_array [cb_step step; cb_str "no_preceding_exec_native"])), captures)
  | Some nc =>
      (mkStepOutput step_index StepStatus_Success
         (hash_canonical (Cb_array [cb_step step; cb_str "ok"; cb_bytes (nc_stdout_sha256 nc);
                                    cb_bytes (nc_stderr_sha256 nc)])),
       captures ++
         [mkCapturedOutput step_index (name ++ chars ".stdout") CaptureKind_Stdout (nc_stdout_sha256 nc)
            (Z.of_nat (length (nc_stdout_bytes nc))) (nc_stdout_bytes nc);
          mkCapturedOutput step_index (name ++ chars ".stderr") CaptureKind_Stderr (nc_stderr_sha256 nc)
            (Z.of_nat (length (nc_stderr_bytes nc))) (nc_stderr_bytes nc)])
  end.

Definition execute_source_fetch_step (env : fetch_env) (step_index : Z) (url reference : list Z)
    (step : Step) : StepOutput :=
  match execute_source_fetch env url reference with
  | Ok out => mkStepOutput step_index StepStatus_Success (SourceFetch.output_hash out)
  | Err e =>
      let kind_id := match e with
                     | SourceFetchError_GitNotFound => 0
                     | SourceFetchError_CloneFailed _ => 1
                     | SourceFetchError_CheckoutFailed _ => 2
                     | SourceFetchError_ResolveFailed _ => 3
                     | SourceFetchError_Io => 4
                     end in
      mkStepOutput step_index StepStatus_Failed (hash_canonical (Cb_array [cb_step step; Cb_int kind_id]))
  end.

Definition execute_wasm_step (en : engine) (step_index : Z) (module args_cbor : bytes) (limits : Limits)
    (step : Step) : result StepOutput PipelineError :=
  let exec_limits := mkExecLimits (sat_mul (lim_cpu_seconds limits) FUEL_PER_CPU_SECOND)
                       (sat_mul (lim_memory_mb limits) (1024 * 1024)) (lim_wall_seconds limits) in
  outcome ←? map_err (PipelineError_WasmRuntime step_index)
               (execute_with_limits en module args_cbor exec_limits);
  match outcome with
  | ExecOutcome_Ok result =>
      Ok (mkStepOutput step_index StepStatus_Success (Wasm.output_hash (module_hash module) result))
  | ExecOutcome_LimitExceeded kind =>
      let which := match kind with
                   | ExecLimitKind_Cpu => LimitKind_Cpu
                   | ExecLimitKind_Memory => LimitKind_Memory
                   | ExecLimitKind_Wall => LimitKind_Wall
                   end in
      Ok (mkStepOutput step_index (StepStatus_LimitExceeded which)
            (hash_canonical (Cb_array [cb_step step; cb_limit_kind which])))
  end.

Definition empty_caps : NativeCaptures := mkNativeCaptures [] (sha256 []) [] (sha256 []).

(** The step once its child has ended or was killed. *)
Definition native_outcome (env : native_env) (step_index : Z) (step : Step) (oom_killed : bool) (outcome : ExitOutcome) :
    StepOutput * NativeCaptures :=
  match outcome with
  | ExitOutcome_Exited status =>
      let stdout := read_capped (ne_stdout env) MAX_CAPTURE_BYTES in
      let stderr := read_capped (ne_stderr env) MAX_CAPTURE_BYTES in
      let stdout_hash := sha256 stdout in
      let stderr_hash := sha256 stderr in
      if oom_killed then
        (mkStepOutput step_index (StepStatus_LimitExceeded LimitKind_Memory)
           (hash_canonical (Cb_array [cb_step step; cb_limit_kind LimitKind_Memory])), empty_caps)
      else
        let caps := mkNativeCaptures stdout stdout_hash stderr stderr_hash in
        let out :=
          if es_success status then
            mkStepOutput step_index StepStatus_Success
              (hash_canonical (Cb_array [cb_step step; cb_str "ok";
                 Cb_int (default 0 (es_code status)); cb_bytes stdout_hash; cb_bytes stderr_hash]))
          else
            mkStepOutput step_index StepStatus_Failed
              (hash_canonical (Cb_array [cb_step step; cb_str "exit_nonzero";
                 Cb_int (default (-1) (es_code status)); cb_bytes stdout_hash; cb_bytes stderr_hash])) in
        (out, caps)
  | ExitOutcome_KilledByWall =>
      (mkStepOutput step_index (StepStatus_LimitExceeded LimitKind_Wall)
         (hash_canonical (Cb_array [cb_step step; cb_limit_kind LimitKind_Wall])), empty_caps)
  | ExitOutcome_KilledByCpu =>
      (mkStepOutput step_index (StepStatus_LimitExceeded LimitKind_Cpu)
         (hash_canonical (Cb_array [cb_step step; cb_limit_kind LimitKind_Cpu])), empty_caps)
  end.

(** [None] while the child is still being waited for. *)
Definition execute_native_step (env : native_env) (step_index : Z) (command : list (list Z))
    (limits : Limits) (step : Step) : option (StepOutput * NativeCaptures) :=
  match command with
  | [] => Some (mkStepOutput step_index StepStatus_Failed
                  (hash_canonical (Cb_array [cb_step step; cb_str "empty_command"])), empty_caps)
  | _ =>
      match ne_spawn env with
      | Err kind_id =>
          Some (mkStepOutput step_index StepStatus_Failed
                  (hash_canonical (Cb_array [cb_step step; cb_str "spawn_failed"; Cb_int kind_id])), empty_caps)
      | Ok _ =>
          let cgroup := try_create (ne_cgroup env) (lim_memory_mb limits) (lim_cpu_seconds limits) in
          let wall_limit := if 0 <? lim_wall_seconds limits then Some (lim_wall_seconds limits) else None in
          let cpu_limit := if 0 <? lim_cpu_seconds limits then Some (lim_cpu_seconds limits) else None in
          outcome ← wait_with_limits wall_limit cpu_limit cgroup (ne_polls env);
          let oom_killed := cgroup && was_oom_killed (ne_memory_events env) in
          Some (native_outcome env step_index step oom_killed outcome)
      end
  end.

Definition not_implemented (step_index : Z) (step : Step) : StepOutput :=
  mkStepOutput step_index StepStatus_NotImplemented (hash_canonical (cb_step step)).

(** The mutable state of the loop. *)
Record run_state := mkRunState {
  rs_outputs : list StepOutput;
  rs_captures : list CapturedOutput;
  rs_last_native : option NativeCaptures;
}.

(** One iteration of the loop of [execute_pipeline]. *)
Definition run_step (env : step_env) (step_index : Z) (step : Step) (st : run_state) :
    option (result run_state PipelineError) :=
  let push o := mkRunState (rs_outputs st ++ [o]) (rs_captures st) (rs_last_native st) in
  match step with
  | Step_ExecWasm module args_cbor limits =>
      Some (o ←? execute_wasm_step (se_engine env) step_index module args_cbor limits step; Ok (push o))
  | Step_SourceFetch url reference =>
      Some (Ok (push (execute_source_fetch_step (se_fetch env) step_index url reference step)))
  | Step_ExecNative command _ limits =>
      p ← execute_native_step (se_native env) step_index command limits step;
      Some (Ok (mkRunState (rs_outputs st ++ [p.1]) (rs_captures st) (Some p.2)))
  | Step_CaptureLog name =>
      let '(o, captures) := execute_capture_log_step step_index name (rs_last_native st) (rs_captures st) step in
      Some (Ok (mkRunState (rs_outputs st ++ [o]) captures (rs_last_native st)))
  | Step_CaptureArtifact _ _ => Some (Ok (push (not_implemented step_index step)))
  end.

(** The loop; [idx] counts the steps done. *)
Fixpoint run_steps (envs : nat → step_env) (idx : nat) (ss : list Step) (st : run_state) :
    option (result run_state PipelineError) :=
  match ss with
  | [] => Some (Ok st)
  | s :: ss =>
      r ← run_step (envs idx) (wrap 32 (Z.of_nat idx)) s st;
      match r with Ok st => run_steps envs (S idx) ss st | Err e => Some (Err e) end
  end.

(** [execute_pipeline]; [None] while a native step has not ended. *)
Definition execute_pipeline (envs : nat → step_env) (pipeline : Pipeline) :
    option (result PipelineResult PipelineError) :=
  r ← run_steps envs 0 (steps pipeline) (mkRunState [] [] None);
  Some (st ←? r;
        Ok (mkPipelineResult (rs_outputs st)
              (hash_canonical (Cb_array (cb_step_output <$> rs_outputs st))) (rs_captures st))).

End executors.

(** * Lemmas *)

Lemma read_capped_loop_take cap total reads out :
  0 <= cap <= u64_max → 0 <= total → (total < cap → Z.of_nat (length out) = total) →
  (cap <= total → Z.of_nat (length out) = cap) →
  read_capped_loop cap total reads out = take (Z.to_nat cap) (out ++ concat reads).
Proof.
  intros Hcap. revert total out. induction reads as [|b reads IH]; intros total out Ht Hlo Hhi; simpl.
  - rewrite app_nil_r, take_ge; [done|]. destruct (Z.lt_ge_cases total cap) as [Hc|Hc].
    + specialize (Hlo Hc). lia.
    + specialize (Hhi Hc). lia.
  - destruct (Z.ltb_spec total cap) as [Hlt|Hge].
    + specialize (Hlo Hlt). rewrite app_assoc. rewrite IH; [|u64_lia|rewrite length_app, length_take; u64_lia..].
      destruct (Z.le_gt_cases (Z.of_nat (length b)) (cap - total)) as [Hb|Hb].
      * rewrite Z.min_r by lia. by rewrite Nat2Z.id, firstn_all.
      * rewrite Z.min_l by lia.
        rewrite (take_app_le (out ++ take _ b)) by (rewrite length_app, length_take; lia).
        rewrite (take_app_le (out ++ b)) by (rewrite length_app; lia).
        rewrite take_ge by (rewrite length_app, length_take; lia).
        rewrite take_app, (take_ge out) by lia. f_equal. f_equal. lia.
    + specialize (Hhi Hge). rewrite IH; [|u64_lia|u64_lia|done].
      rewrite !take_app_le by lia. done.
Qed.

(** What is captured of a pipe is its first [cap] bytes, however they arrive. *)
Lemma read_capped_spec reads cap :
  0 <= cap <= u64_max → read_capped reads cap = take (Z.to_nat cap) (concat reads).
Proof. intros Hc. unfold read_capped. rewrite read_capped_loop_take by (simpl; lia). done. Qed.

(** With a wall limit the wait ends at the latest at the first look past it. *)
Lemma wait_ends w cpu cg polls :
  Exists (λ p, w * 1000000000 <= po_elapsed p) polls →
  is_Some (wait_with_limits (Some w) cpu cg polls).
Proof.
  unfold wait_with_limits. simpl. induction 1 as [p polls Hp|p polls _ IH]; simpl.
  - destruct (po_wait p); [by eexists| |by eexists]. rewrite (proj2 (Z.leb_le _ _)) by done. by eexists.
  - destruct (po_wait p); [by eexists| |by eexists]. destruct (_ <=? _); [by eexists|].
    match goal with |- is_Some (if ?c then _ else _) => destruct c; [by eexists|done] end.
Qed.

Definition caps_ok `{Sha256} (nc : NativeCaptures) : Prop :=
  nc_stdout_sha256 nc = sha256 (nc_stdout_bytes nc) ∧ nc_stderr_sha256 nc = sha256 (nc_stderr_bytes nc) ∧
  Z.of_nat (length (nc_stdout_bytes nc)) <= MAX_CAPTURE_BYTES ∧
  Z.of_nat (length (nc_stderr_bytes nc)) <= MAX_CAPTURE_BYTES.

(** A capture is its own evidence. *)
Definition capture_ok `{Sha256} (c : CapturedOutput) : Prop :=
  co_sha256 c = sha256 (co_bytes_inline c) ∧ co_length c = Z.of_nat (length (co_bytes_inline c)) ∧
  co_length c <= MAX_CAPTURE_BYTES.

Section pipeline_lemmas.
Context `{Sha256} `{CborBytes}.

Lemma empty_caps_ok : caps_ok empty_caps.
Proof. done. Qed.

Lemma read_capped_length reads : Z.of_nat (length (read_capped reads MAX_CAPTURE_BYTES)) <= MAX_CAPTURE_BYTES.
Proof. rewrite read_capped_spec by done. rewrite length_take. unfold MAX_CAPTURE_BYTES. lia. Qed.

Lemma native_step_caps env i c l s o nc :
  execute_native_step env i c l s = Some (o, nc) →
  caps_ok nc ∧ so_step_index o = i ∧ so_status o ≠ StepStatus_NotImplemented.
Proof.
  unfold execute_native_step. intros Hx.
  destruct c; [by simplify_eq|]. destruct (ne_spawn env); [|by simplify_eq].
  destruct (wait_with_limits _ _ _ _) as [[st| |]|]; simpl in Hx; [|by simplify_eq..].
  destruct (_ && _); simplify_eq; [done|]. split_and!; [|by case_match..].
  split; [done|]. split; [done|]. split; apply read_capped_length.
Qed.

(** What one iteration does: it appends one output, for a capture step the two
    records of the last native step, and replaces that only for a native one. *)
Lemma run_step_shape env i s st st' :
  run_step env i s st = Some (Ok st') →
  ∃ o, rs_outputs st' = rs_outputs st ++ [o] ∧ so_step_index o = i ∧
    (so_status o = StepStatus_NotImplemented ↔ ∃ p n, s = Step_CaptureArtifact p n) ∧
    match s with
    | Step_CaptureLog name =>
        (o, rs_captures st') = execute_capture_log_step i name (rs_last_native st) (rs_captures st) s ∧
        rs_last_native st' = rs_last_native st
    | Step_ExecNative _ _ _ =>
        rs_captures st' = rs_captures st ∧ ∃ nc, rs_last_native st' = Some nc ∧ caps_ok nc
    | _ => rs_captures st' = rs_captures st ∧ rs_last_native st' = rs_last_native st
    end.
Proof.
  intros Hx. destruct s as [u r|m a l|c e l|n|p n]; simpl in Hx.
  - simplify_eq. simpl. eexists. split; [done|].
    unfold execute_source_fetch_step. destruct (execute_source_fetch _ _ _); simpl; split_and!; try done;
      split; [done|by intros (? & ? & ?)|done|by intros (? & ? & ?)].
  - destruct (execute_wasm_step _ _ _ _ _ _) as [o|] eqn:E; simplify_eq. simpl. eexists. split; [done|].
    unfold execute_wasm_step in E. destruct (execute_with_limits _ _ _ _) as [[]|]; simplify_eq/=;
      split_and!; try done; split; [done|by intros (? & ? & ?)|done|by intros (? & ? & ?)].
  - destruct (execute_native_step _ _ _ _ _) as [[o nc]|] eqn:E; simplify_eq/=.
    apply native_step_caps in E as (Hnc & Hi & Hs). eexists. split; [done|]. split_and!; try done.
    + split; [done|by intros (? & ? & ?)].
    + eauto.
  - destruct (execute_capture_log_step _ _ _ _ _) as [o cs] eqn:E. injection Hx as <-. exists o.
    split; [done|]. unfold execute_capture_log_step in E.
    destruct (rs_last_native st); simplify_eq/=; split_and!; try done; split; [done|by intros (? & ? & ?)|done|by intros (? & ? & ?)].
  - simplify_eq/=. eexists. split; [done|]. simpl. split_and!; try done. split; eauto.
Qed.

Lemma run_step_err env i s st e :
  run_step env i s st = Some (Err e) →
  ∃ m a l d, s = Step_ExecWasm m a l ∧ e = PipelineError_WasmRuntime i d.
Proof.
  intros Hx. destruct s as [u r|m a l|c x l|n|p n]; simpl in Hx; try done.
  - destruct (execute_wasm_step _ _ _ _ _ _) as [o|] eqn:E; simplify_eq.
    unfold execute_wasm_step in E. destruct (execute_with_limits _ _ _ _) as [[]|]; simplify_eq/=. eauto 7.
  - by destruct (execute_native_step _ _ _ _ _).
  - by destruct (execute_capture_log_step _ _ _ _ _).
Qed.

Definition state_ok (st : run_state) : Prop :=
  Forall capture_ok (rs_captures st) ∧ ∀ nc, rs_last_native st = Some nc → caps_ok nc.

Lemma run_step_ok env i s st st' : run_step env i s st = Some (Ok st') → state_ok st → state_ok st'.
Proof.
  intros Hx [Hc Hn]. apply run_step_shape in Hx as (o & _ & _ & _ & Hs).
  destruct s as [u r|m a l|c e l|n|p n]; unfold state_ok.
  - by destruct Hs as [-> ->].
  - by destruct Hs as [-> ->].
  - destruct Hs as [-> (nc & -> & Hnc)]. split; [done|]. by intros ? [= <-].
  - destruct Hs as [Hs ->]. split; [|done]. unfold execute_capture_log_step in Hs.
    destruct (rs_last_native st) as [nc|] eqn:E; injection Hs as -> ->; [|done].
    destruct (Hn nc eq_refl) as (H1 & H2 & H3 & H4).
    apply Forall_app. split; [done|]. repeat constructor; done.
  - by destruct Hs as [-> ->].
Qed.

(** The whole run: one output per step, in order. *)
Lemma run_steps_shape envs idx ss st st' :
  run_steps envs idx ss st = Some (Ok st') → state_ok st →
  state_ok st' ∧ ∃ os, rs_outputs st' = rs_outputs st ++ os ∧ length os = length ss ∧
    ∀ k s, ss !! k = Some s → ∃ o, os !! k = Some o ∧ so_step_index o = wrap 32 (Z.of_nat (idx + k)) ∧
      (so_status o = StepStatus_NotImplemented ↔ ∃ p n, s = Step_CaptureArtifact p n).
Proof.
  revert idx st. induction ss as [|s ss IH]; intros idx st Hx Hok; simpl in Hx.
  - simplify_eq. split; [done|]. exists []. by rewrite app_nil_r.
  - destruct (run_step (envs idx) (wrap 32 (Z.of_nat idx)) s st) as [[st1|]|] eqn:E; simplify_eq/=.
    apply IH in Hx as (Hok' & os & Hos & Hl & Hk); [|by eapply run_step_ok].
    split; [done|]. apply run_step_shape in E as (o & Ho & Hi & Hs & _).
    exists (o :: os). rewrite Hos, Ho, <-app_assoc. split; [done|]. split; [simpl; by f_equal|].
    intros [|k] x Hx; simpl in Hx.
    + simplify_eq. exists o. by rewrite Nat.add_0_r.
    + destruct (Hk k x Hx) as (o' & Ho' & Hi' & Hs'). exists o'. split; [done|].
      by rewrite <-Nat.add_succ_comm.
Qed.

Lemma run_steps_err envs idx ss st e :
  run_steps envs idx ss st = Some (Err e) →
  ∃ k m a l d, ss !! k = Some (Step_ExecWasm m a l) ∧
    e = PipelineError_WasmRuntime (wrap 32 (Z.of_nat (idx + k))) d.
Proof.
  revert idx st. induction ss as [|s ss IH]; intros idx st Hx; simpl in Hx; [done|].
  destruct (run_step (envs idx) (wrap 32 (Z.of_nat idx)) s st) as [[st1|e1]|] eqn:E; simplify_eq/=.
  - apply IH in Hx as (k & m & a & l & d & Hk & He). exists (S k), m, a, l, d. split; [done|].
    by rewrite <-Nat.add_succ_comm.
  - apply run_step_err in E as (m & a & l & d & -> & ->). exists O, m, a, l, d. by rewrite Nat.add_0_r.
Qed.

Lemma cb_bytes_inj a b : cb_bytes a = cb_bytes b → a = b.
Proof. unfold cb_bytes. intros [= Hl]. revert Hl. apply list_fmap_eq_inj. by intros ? ? [= ->]. Qed.

Lemma cb_step_output_inj o o' : cb_step_output o = cb_step_output o' → o = o'.
Proof.
  destruct o as [i s h], o' as [i' s' h']. unfold cb_step_output, cb_struct. cbn [fmap list_fmap fst snd].
  cbn [so_step_index so_status so_output_hash]. intros Heq. injection Heq as -> Hs Hh.
  assert (h = h') as -> by (apply cb_bytes_inj; unfold cb_bytes; by rewrite Hh). f_equal.
  destruct s as [| |[]|], s' as [| |[]|]; by try (exfalso; revert Hs; vm_compute; congruence).
Qed.

Lemma hash_canonical_eq `{!CborBytesLaws} x y : hash_canonical x = hash_canonical y → x = y ∨ collision.
Proof.
  unfold hash_canonical. intros Heq. destruct (decide (cbor_bytes x = cbor_bytes y)) as [E|E].
  - left. by apply cbor_bytes_inj.
  - right. by eexists _, _.
Qed.

(** Two capture steps with one output captured the same bytes. *)
Lemma capture_log_eq `{!CborBytesLaws} i name nc1 nc2 cs s :
  caps_ok nc1 → caps_ok nc2 →
  (execute_capture_log_step i name (Some nc1) cs s).1 = (execute_capture_log_step i name (Some nc2) cs s).1 →
  (execute_capture_log_step i name (Some nc1) cs s).2 = (execute_capture_log_step i name (Some nc2) cs s).2 ∨
  collision.
Proof.
  intros (Ho1 & He1 & _) (Ho2 & He2 & _). cbn [execute_capture_log_step fst snd]. intros Heq.
  apply (f_equal so_output_hash) in Heq. cbn [so_output_hash] in Heq.
  apply hash_canonical_eq in Heq as [Heq|Hc]; [|by right].
  assert (nc_stdout_sha256 nc1 = nc_stdout_sha256 nc2 ∧ nc_stderr_sha256 nc1 = nc_stderr_sha256 nc2) as [Ho He].
  { split; apply cb_bytes_inj; congruence. }
  destruct (decide (nc_stdout_bytes nc1 = nc_stdout_bytes nc2)) as [Eo|Eo];
    [|right; eexists _, _; split; [exact Eo|congruence]].
  destruct (decide (nc_stderr_bytes nc1 = nc_stderr_bytes nc2)) as [Ee|Ee];
    [|right; eexists _, _; split; [exact Ee|congruence]].
  left. by rewrite Eo, Ee, Ho, He.
Qed.

(** Two runs of the same steps that produced the same outputs captured the same
    logs. *)
Lemma run_steps_captures `{!CborBytesLaws} e1 e2 idx ss s1 s2 t1 t2 :
  run_steps e1 idx ss s1 = Some (Ok t1) → run_steps e2 idx ss s2 = Some (Ok t2) →
  state_ok s1 → state_ok s2 → length (rs_outputs s1) = length (rs_outputs s2) →
  rs_captures s1 = rs_captures s2 → (is_Some (rs_last_native s1) ↔ is_Some (rs_last_native s2)) →
  rs_outputs t1 = rs_outputs t2 → rs_captures t1 = rs_captures t2 ∨ collision.
Proof.
  revert idx s1 s2. induction ss as [|s ss IH]; intros idx s1 s2 R1 R2 Hok1 Hok2 Hl Hc Hn Ht;
    simpl in R1, R2; [simplify_eq; by left|].
  destruct (run_step (e1 idx) _ s s1) as [[u1|]|] eqn:E1; simplify_eq/=.
  destruct (run_step (e2 idx) _ s s2) as [[u2|]|] eqn:E2; simplify_eq/=.
  pose proof (run_step_ok _ _ _ _ _ E1 Hok1) as Hu1. pose proof (run_step_ok _ _ _ _ _ E2 Hok2) as Hu2.
  destruct (run_steps_shape _ _ _ _ _ R1 Hu1) as (_ & os1 & Ho1 & _).
  destruct (run_steps_shape _ _ _ _ _ R2 Hu2) as (_ & os2 & Ho2 & _).
  apply run_step_shape in E1 as (o1 & Eo1 & _ & _ & Hs1), E2 as (o2 & Eo2 & _ & _ & Hs2).
  assert (o1 = o2) as ->.
  { rewrite Ho1, Ho2, Eo1, Eo2, <-!app_assoc in Ht. apply app_inj_1 in Ht as [_ Ht]; [|done]. by simplify_eq. }
  assert (Hl' : length (rs_outputs u1) = length (rs_outputs u2)) by (rewrite Eo1, Eo2, !length_app; simpl; lia).
  assert (Hcaps : (rs_captures u1 = rs_captures u2 ∧
    (is_Some (rs_last_native u1) ↔ is_Some (rs_last_native u2))) ∨ collision).
  { destruct s as [u r|m a l|c x l|name|p n].
    1,2,5: destruct Hs1 as [-> ->], Hs2 as [-> ->]; by left.
    - destruct Hs1 as [-> (nc1 & -> & _)], Hs2 as [-> (nc2 & -> & _)]. left. split; [done|].
      split; by eexists.
    - destruct Hs1 as [Hs1 ->], Hs2 as [Hs2 ->]. rewrite <-Hc in Hs2.
      destruct (rs_last_native s1) as [nc1|] eqn:N1, (rs_last_native s2) as [nc2|] eqn:N2.
      + destruct (capture_log_eq (wrap 32 (Z.of_nat idx)) name nc1 nc2 (rs_captures s1) (Step_CaptureLog name)) as [He|?];
          [by apply Hok1|by apply Hok2|by rewrite <-Hs1, <-Hs2| |by right].
        rewrite <-Hs1, <-Hs2 in He. left. split; [done|]. split; by eexists.
      + destruct (proj1 Hn) as [? ?]; [by eexists|done].
      + destruct (proj2 Hn) as [? ?]; [by eexists|done].
      + left. split; [|done]. rewrite <-Hs2 in Hs1. by simplify_eq. }
  destruct Hcaps as [[Hcap Hlast]|?]; [|by right]. by eapply (IH (S idx) u1 u2).
Qed.

End pipeline_lemmas.

(** * Theorems *)

(** C9: the artifact hash binds the whole result: two runners that execute the
    same pipeline, on whatever machines, and report the same artifact hash have
    the same step statuses, the same step hashes and the same captured logs,
    unless SHA-256 has a collision. *)
Theorem artifact_binds_run `{Sha256} `{CborBytesLaws} e1 e2 pipeline r1 r2 :
  execute_pipeline e1 pipeline = Some (Ok r1) → execute_pipeline e2 pipeline = Some (Ok r2) →
  pr_final_artifact_hash r1 = pr_final_artifact_hash r2 → r1 = r2 ∨ collision.
Proof.
  unfold execute_pipeline. intros R1 R2 Hh.
  destruct (run_steps e1 0 _ _) as [[t1|]|] eqn:E1; simplify_eq/=.
  destruct (run_steps e2 0 _ _) as [[t2|]|] eqn:E2; simplify_eq/=.
  apply hash_canonical_eq in Hh as [Hh|?]; [|by right].
  assert (Ho : rs_outputs t1 = rs_outputs t2).
  { injection Hh as Hh. revert Hh. apply list_fmap_eq_inj. intros ? ?. apply cb_step_output_inj. }
  destruct (run_steps_captures _ _ _ _ _ _ _ _ E1 E2) as [Hc|?]; try done; [|by right].
  left. by rewrite Ho, Hc.
Qed.

(** A pipeline either stops at a WASM step whose engine reported an error,
    with that step's index, or yields one output per step, in order, where only
    artifact captures are reported as not implemented; no other error is ever
    returned. Every capture carries the digest and the length of its bytes and
    respects the cap. *)
Theorem pipeline_results `{Sha256} `{CborBytes} envs pipeline res :
  Z.of_nat (length (steps pipeline)) <= 2 ^ 32 →
  execute_pipeline envs pipeline = Some res →
  match res with
  | Err e => ∃ i m a l d, steps pipeline !! i = Some (Step_ExecWasm m a l) ∧
               e = PipelineError_WasmRuntime (Z.of_nat i) d
  | Ok r =>
      length (pr_steps r) = length (steps pipeline) ∧
      (∀ i s, steps pipeline !! i = Some s →
        ∃ o, pr_steps r !! i = Some o ∧ so_step_index o = Z.of_nat i ∧
          (so_status o = StepStatus_NotImplemented ↔ ∃ p n, s = Step_CaptureArtifact p n)) ∧
      pr_final_artifact_hash r = hash_canonical (Cb_array (cb_step_output <$> pr_steps r)) ∧
      Forall capture_ok (pr_captures r)
  end.
Proof.
  intros Hlen Hx. unfold execute_pipeline in Hx.
  assert (Hwrap : ∀ i s, steps pipeline !! i = Some s → wrap 32 (Z.of_nat i) = Z.of_nat i).
  { intros i s Hi%lookup_lt_Some. apply wrap_small. unfold uint. lia. }
  destruct (run_steps envs 0 _ _) as [[t|e]|] eqn:E; simplify_eq/=.
  - apply run_steps_shape in E as ([Hc _] & os & Ho & Hl & Hk); [|by split; [constructor|]].
    simpl in Ho. rewrite Ho. split; [done|]. split; [|done].
    intros i s Hi. destruct (Hk i s Hi) as (o & Hio & Hidx & Hst). exists o. split; [done|].
    split; [rewrite Hidx; by apply (Hwrap i s)|done].
  - apply run_steps_err in E as (k & m & a & l & d & Hk & ->). exists k, m, a, l, d. split; [done|].
    change (0 + k)%nat with k. by rewrite (Hwrap k _ Hk).
Qed.

(** * Examples *)

Import (hints) Toy.

(** An injective encoding of terms as bytes: a prefix notation. *)
Module ToyCbor.

Definition cons_len {A} (l : list A) : Z := Z.of_nat (length l).

Fixpoint toy_bytes (c : cbor) : bytes :=
  match c with
  | Cb_int z => [0; z]
  | Cb_text s => 1 :: cons_len s :: s
  | Cb_array l => 2 :: cons_len l :: concat (toy_bytes <$> l)
  | Cb_map l => 3 :: cons_len l :: concat ((λ p, toy_bytes p.1 ++ toy_bytes p.2) <$> l)
  end.

Lemma cbor_nested_ind (P : cbor → Prop) :
  (∀ z, P (Cb_int z)) → (∀ s, P (Cb_text s)) → (∀ l, Forall P l → P (Cb_array l)) →
  (∀ l, Forall (λ p : cbor * cbor, P p.1 ∧ P p.2) l → P (Cb_map l)) → ∀ c, P c.
Proof.
  intros Hi Ht Ha Hm. fix IH 1. intros [z|s|l|l]; [apply Hi|apply Ht|apply Ha|apply Hm].
  - induction l as [|c l IHl]; constructor; [apply IH|exact IHl].
  - induction l as [|[a b] l IHl]; constructor; [split; apply IH|exact IHl].
Qed.

(** An encoding is never a proper beginning of another. *)
Lemma toy_bytes_prefix x : ∀ y r r', toy_bytes x ++ r = toy_bytes y ++ r' → x = y ∧ r = r'.
Proof.
  induction x as [z|s|l IH|l IH] using cbor_nested_ind; intros [z'|s'|l'|l'] r r' Heq;
    cbn [toy_bytes app] in Heq; simplify_eq.
  - done.
  - rename select (cons_len _ = _) into Hl. unfold cons_len in Hl.
    rename select (_ ++ _ = _ ++ _) into Hr. apply app_inj_1 in Hr as [-> ->]; [done|lia].
  - rename select (cons_len _ = _) into Hl. unfold cons_len in Hl.
    rename select (_ ++ _ = _ ++ _) into Hr. assert (l = l' ∧ r = r') as [-> ->]; [|done].
    revert l' r r' Hl Hr. induction IH as [|c l Hc _ IHl]; intros [|c' l'] r r' Hl Hr; csimpl in *; try lia; [done|].
    rewrite <-!app_assoc in Hr. apply Hc in Hr as [-> Hr]. apply IHl in Hr as [-> ->]; [done|lia].
  - rename select (cons_len _ = _) into Hl. unfold cons_len in Hl.
    rename select (_ ++ _ = _ ++ _) into Hr. assert (l = l' ∧ r = r') as [-> ->]; [|done].
    revert l' r r' Hl Hr. induction IH as [|[a b] l [Ha Hb] _ IHl]; intros [|[a' b'] l'] r r' Hl Hr;
      csimpl in *; try lia; [done|].
    rewrite <-!app_assoc in Hr. apply Ha in Hr as [-> Hr]. apply Hb in Hr as [-> Hr].
    apply IHl in Hr as [-> ->]; [done|lia].
Qed.

#[export] Instance toy_cbor_bytes : CborBytes := toy_bytes.

#[export] Instance toy_cbor_bytes_laws : CborBytesLaws.
Proof.
  intros x y Heq. apply (toy_bytes_prefix x y [] []). by rewrite !app_nil_r.
Qed.

End ToyCbor.
Import (hints) ToyCbor.

Definition demo_limits : Limits := mkLimits 0 0 2 deny_all.

(** A machine on which the native command prints, in the given pieces. *)
Definition demo_env (out : list bytes) : step_env :=
  mkStepEnv (mkFetchEnv false (λ _, Command_not_found) None)
    (mkEngine (λ _, Ok (1, 2)) (λ _ _, Ok ()) (λ _, Ok ()) (λ _, Ok ()) (λ _ _, Ok ()) (λ _, Ok ())
       (λ _ _ a b, Ok (a + b)))
    (mkNativeEnv (Ok ()) (mkCgroupEnv None None false false)
       [mkPoll Wait_running 1000 None; mkPoll (Wait_exited (mkExitStatus (Some 0))) 2000 None]
       out [] None).

Definition demo_pipeline : Pipeline :=
  mkPipeline [Step_ExecWasm [1] [2] demo_limits; Step_ExecNative [chars "echo"] [] demo_limits;
              Step_CaptureLog (chars "log")].

Lemma artifact_binds_run_witness :
  ∃ r1 r2, execute_pipeline (λ _, demo_env [[104; 105]; [10]]) demo_pipeline = Some (Ok r1) ∧
    execute_pipeline (λ _, demo_env [[104]; [105; 10]]) demo_pipeline = Some (Ok r2) ∧
    length (pr_captures r1) = 2%nat ∧ (r1 = r2 ∨ collision).
Proof.
  eexists _, _. split; [vm_compute; reflexivity|]. split; [vm_compute; reflexivity|].
  split; [reflexivity|].
  eapply (artifact_binds_run (λ _, demo_env [[104; 105]; [10]]) (λ _, demo_env [[104]; [105; 10]])
    demo_pipeline).
  - vm_compute. reflexivity.
  - vm_compute. reflexivity.
  - reflexivity.
Defined.

Lemma pipeline_results_witness :
  ∃ r, execute_pipeline (λ _, demo_env [[104; 105]; [10]]) demo_pipeline = Some (Ok r) ∧
    length (pr_steps r) = 3%nat ∧ Forall capture_ok (pr_captures r).
Proof.
  destruct (execute_pipeline (λ _, demo_env [[104; 105]; [10]]) demo_pipeline) as [[r|e]|] eqn:E;
    [|by vm_compute in E..].
  exists r. split; [reflexivity|].
  destruct (pipeline_results (λ _, demo_env [[104; 105]; [10]]) demo_pipeline (Ok r)) as (Hl & _ & _ & Hc).
  - vm_compute. done.
  - exact E.
  - split; [exact Hl|exact Hc].
Defined.
