(* ===== verification/Wire.v ===== *)
(** Wire protocol: envelopes and framing
    (src/crates/cosaci-protocol/src/proto.rs).

    An envelope travels as a 4-byte big-endian length and its CBOR encoding. A
    reader is the bytes that will still arrive before the end of the stream, a
    writer the bytes sent so far; ciborium is the class [EnvelopeCbor]. The
    theorem shows that a sequence of envelopes is read back exactly, from any
    point where a frame starts, and what happens to oversized and cut frames.
    The asynchronous functions are in [WireAsync]. *)

From S2P Require Import Prelude Attestation Capabilities MerkleLog Retrieval Pipeline.

(** * Envelopes *)

Record AttestationBundle := mkAttestationBundle {
  ab_attestation : Attestation;
  ab_captures : list CapturedOutput;
}.

Definition from_attestation (attestation : Attestation) : AttestationBundle :=
  mkAttestationBundle attestation [].

Record AdminTenantRecord := mkAdminTenantRecord {
  atr_tenant_id : Z;
  atr_signing_fp : bytes;
  atr_rate_capacity : Z;
  atr_rate_refill_per_sec : Z;
  atr_registered_at_unix_ns : Z;
}.

Record AdminAgentRecord := mkAdminAgentRecord {
  aar_runner_id : Z;
  aar_signing_fp : bytes;
  aar_vrf_fp : bytes;
  aar_enrolled_at_unix_ns : Z;
  aar_initial_reputation_thousandths : Z;
}.

Inductive Envelope :=
| Envelope_Register (runner_id : Z) (signing_pubkey vrf_pubkey vrf_output vrf_proof : bytes) (stake : Z)
    (capabilities : Capabilities)
| Envelope_VrfClaim (job_id : Z) (vrf_output vrf_proof : bytes)
| Envelope_SubmitAttestation (bundle : AttestationBundle)
| Envelope_RegisterAck
| Envelope_JobSeed (job_id : Z) (seed : bytes)
| Envelope_Assign (job_id : Z) (pipeline : Pipeline) (requirements : JobRequirements)
    (deadline_unix_ns : Z)
| Envelope_Shutdown
| Envelope_GetJob (job_id : Z)
| Envelope_GetLogRoot
| Envelope_JobBundleResponse (bundle : JobBundle)
| Envelope_JobNotFound (job_id : Z)
| Envelope_LogRoot (root : option bytes) (length : Z)
| Envelope_GetCaptures (job_id runner_id : Z)
| Envelope_CapturesResponse (job_id runner_id : Z) (captures : list CapturedOutput)
| Envelope_CapturesNotFound (job_id runner_id : Z)
| Envelope_AdminHello (admin_pubkey : bytes) (ts_unix_ns : Z) (signature : bytes)
| Envelope_AdminWelcome
| Envelope_AdminError (reason : list Z)
| Envelope_AdminListAgents
| Envelope_AdminAgentList (entries : list AdminAgentRecord)
| Envelope_AdminGetLogRoot
| Envelope_AdminLogRoot (root : option bytes) (length : Z)
| Envelope_AdminEnrollAgent (runner_id : Z) (signing_fp vrf_fp : bytes) (enrolled_at_unix_ns : Z)
    (initial_reputation_thousandths : Z)
| Envelope_AdminEnrollAck
| Envelope_AdminRevokeAgent (runner_id : Z)
| Envelope_AdminRevokeAck
| Envelope_AdminListTenants
| Envelope_AdminTenantList (entries : list AdminTenantRecord)
| Envelope_AdminAddTenant (tenant_id : Z) (signing_fp : bytes) (rate_capacity rate_refill_per_sec : Z)
    (registered_at_unix_ns : Z)
| Envelope_AdminAddTenantAck
| Envelope_AdminRevokeTenant (tenant_id : Z)
| Envelope_AdminRevokeTenantAck.

Definition ADMIN_HELLO_FRESHNESS_NS : Z := 60 * 1000000000.

(** [MAX_ENVELOPE_BYTES_PUB]: 16 MiB. *)
Definition MAX_ENVELOPE_BYTES : Z := 16 * 2 ^ 20.

(** * Framing *)

(** ciborium on envelopes; encoding may fail. *)
Class EnvelopeCbor := {
  env_into : Envelope → option bytes;
  env_from : bytes → option Envelope;
}.

(** What was encoded decodes to the same envelope. *)
Class EnvelopeCborLaws `{EnvelopeCbor} := env_from_into e b : env_into e = Some b → env_from b = Some e.

Inductive wire_error := WireError_InvalidData | WireError_Io | WireError_Eof.

#[export] Instance wire_error_eq_dec : EqDecision wire_error.
Proof. solve_decision. Defined.

Definition be_bytes (n : nat) (x : Z) : bytes := reverse (le_bytes n x).
Definition of_be_bytes (b : bytes) : Z := of_le_bytes (reverse b).

Section framing.
Context `{EnvelopeCbor}.

(** [write_envelope]; [io] says after how many bytes of the frame the writer
    fails, if it does, and whether the flush succeeds. *)
Definition write_envelope (io : io_outcome) (env : Envelope) (out : bytes) :
    result unit wire_error * bytes :=
  match env_into env with
  | None => (Err WireError_InvalidData, out)
  | Some buf =>
      if MAX_ENVELOPE_BYTES <? Z.of_nat (length buf) then (Err WireError_InvalidData, out)
      else
        let frame := be_bytes 4 (wrap 32 (Z.of_nat (length buf))) ++ buf in
        match io_write_err io with
        | Some k => (Err WireError_Io, out ++ take k frame)
        | None => (if io_sync_ok io then Ok () else Err WireError_Io, out ++ frame)
        end
  end.

(** [read_exact]: a stream that ends early is consumed. *)
Definition read_exact (n : nat) (inp : bytes) : result bytes wire_error * bytes :=
  if bool_decide (n <= length inp)%nat then (Ok (take n inp), drop n inp) else (Err WireError_Eof, []).

Definition read_envelope (inp : bytes) : result Envelope wire_error * bytes :=
  match read_exact 4 inp with
  | (Err e, inp) => (Err e, inp)
  | (Ok len_bytes, inp) =>
      let len := of_be_bytes len_bytes in
      if MAX_ENVELOPE_BYTES <? len then (Err WireError_InvalidData, inp)
      else
        match read_exact (Z.to_nat len) inp with
        | (Err e, inp) => (Err e, inp)
        | (Ok buf, inp) =>
            (match env_from buf with Some env => Ok env | None => Err WireError_InvalidData end, inp)
        end
  end.

(** A sender's sequence of writes, all of which succeed. *)
Fixpoint write_all (envs : list Envelope) (out : bytes) : option bytes :=
  match envs with
  | [] => Some out
  | e :: envs => match write_envelope io_fine e out with
                 | (Ok _, out) => write_all envs out
                 | (Err _, _) => None
                 end
  end.

(** A receiver's sequence of reads, until one fails. *)
Fixpoint read_n (n : nat) (inp : bytes) : list Envelope * bytes :=
  match n with
  | O => ([], inp)
  | S n => match read_envelope inp with
           | (Ok e, inp) => let '(es, inp) := read_n n inp in (e :: es, inp)
           | (Err _, inp) => ([], inp)
           end
  end.

End framing.

#[global] Arguments be_bytes : simpl never.
#[global] Arguments of_be_bytes : simpl never.
#[global] Arguments read_exact : simpl never.
#[global] Arguments read_envelope : simpl never.
#[global] Arguments write_envelope : simpl never.

(** * Lemmas *)

Lemma be_bytes_length n x : length (be_bytes n x) = n.
Proof. unfold be_bytes. by rewrite length_reverse, le_bytes_length. Qed.

Lemma of_be_be n x : 0 <= x < 256 ^ Z.of_nat n → of_be_bytes (be_bytes n x) = x.
Proof. intros. unfold of_be_bytes, be_bytes. rewrite reverse_involutive. by apply of_le_le. Qed.

Lemma read_exact_app n a b : length a = n → read_exact n (a ++ b) = (Ok a, b).
Proof.
  intros <-. unfold read_exact. rewrite bool_decide_eq_true_2 by (rewrite length_app; lia).
  by rewrite take_app_length, drop_app_length.
Qed.

Lemma read_exact_short n a : (length a < n)%nat → read_exact n a = (Err WireError_Eof, []).
Proof. intros. unfold read_exact. by rewrite bool_decide_eq_false_2 by lia. Qed.

(** The frame of a payload. *)
Definition frame (buf : bytes) : bytes := be_bytes 4 (Z.of_nat (length buf)) ++ buf.
#[global] Arguments frame : simpl never.

Section framing_lemmas.
Context `{EnvelopeCbor}.

Lemma write_ok e out out' :
  write_envelope io_fine e out = (Ok (), out') →
  ∃ buf, env_into e = Some buf ∧ Z.of_nat (length buf) <= MAX_ENVELOPE_BYTES ∧ out' = out ++ frame buf.
Proof.
  unfold write_envelope. destruct (env_into e) as [buf|]; [|done].
  destruct (Z.ltb_spec MAX_ENVELOPE_BYTES (Z.of_nat (length buf))) as [|Hl]; [done|].
  simpl. intros [= <-]. exists buf. split; [done|]. split; [done|].
  unfold frame. by rewrite wrap_small by (unfold uint, MAX_ENVELOPE_BYTES in *; lia).
Qed.

Lemma read_frame buf rest :
  Z.of_nat (length buf) <= MAX_ENVELOPE_BYTES →
  read_envelope (frame buf ++ rest) =
  (match env_from buf with Some env => Ok env | None => Err WireError_InvalidData end, rest).
Proof.
  intros Hl. unfold read_envelope, frame. rewrite <-app_assoc.
  rewrite read_exact_app by apply be_bytes_length.
  rewrite of_be_be by (unfold MAX_ENVELOPE_BYTES in Hl; lia).
  rewrite (proj2 (Z.ltb_ge _ _)) by lia. by rewrite read_exact_app by (by rewrite Nat2Z.id).
Qed.

(** A frame cut anywhere is an end-of-stream error. *)
Lemma read_cut buf p q :
  Z.of_nat (length buf) <= MAX_ENVELOPE_BYTES → frame buf = p ++ q → q ≠ [] →
  read_envelope p = (Err WireError_Eof, []).
Proof.
  intros Hl Hf Hq. unfold read_envelope.
  destruct (decide (length p < 4)%nat) as [Hp|Hp]; [by rewrite read_exact_short|].
  assert (Hsplit : p = be_bytes 4 (Z.of_nat (length buf)) ++ drop 4 p).
  { rewrite <-(take_drop 4 p) at 1. f_equal. apply (f_equal (take 4)) in Hf. unfold frame in Hf.
    rewrite take_app_length' in Hf by (by rewrite be_bytes_length).
    rewrite take_app_le in Hf by lia. done. }
  assert (Hlen : length (frame buf) = (4 + length buf)%nat)
    by (unfold frame; by rewrite length_app, be_bytes_length).
  assert (Hq' : (0 < length q)%nat) by (destruct q; [done|simpl; lia]).
  rewrite Hf, length_app in Hlen.
  rewrite Hsplit, read_exact_app by apply be_bytes_length.
  rewrite of_be_be by (unfold MAX_ENVELOPE_BYTES in Hl; lia).
  rewrite (proj2 (Z.ltb_ge _ _)) by lia.
  rewrite read_exact_short; [done|]. rewrite length_drop, Nat2Z.id. lia.
Qed.

Lemma write_all_frames envs out out' :
  write_all envs out = Some out' →
  ∃ bufs, Forall2 (λ e b, env_into e = Some b ∧ Z.of_nat (length b) <= MAX_ENVELOPE_BYTES) envs bufs ∧
    out' = out ++ concat (frame <$> bufs).
Proof.
  revert out. induction envs as [|e envs IH]; intros out Hw; simpl in Hw.
  - simplify_eq. exists []. split; [constructor|]. by rewrite app_nil_r.
  - destruct (write_envelope io_fine e out) as [[[]|] out1] eqn:E; [|done].
    apply write_ok in E as (b & Hb & Hl & ->). apply IH in Hw as (bs & Hbs & ->).
    exists (b :: bs). split; [by constructor|]. cbn [fmap list_fmap concat]. by rewrite <-app_assoc.
Qed.

Lemma read_n_frames `{!EnvelopeCborLaws} envs bufs rest :
  Forall2 (λ e b, env_into e = Some b ∧ Z.of_nat (length b) <= MAX_ENVELOPE_BYTES) envs bufs →
  read_n (length envs) (concat (frame <$> bufs) ++ rest) = (envs, rest).
Proof.
  induction 1 as [|e b envs bufs [Hb Hl] _ IH]; cbn [fmap list_fmap concat length read_n]; [done|].
  rewrite <-app_assoc, read_frame by done. rewrite (env_from_into e b Hb), IH. done.
Qed.

Lemma read_n_cut `{!EnvelopeCborLaws} envs bufs p :
  Forall2 (λ e b, env_into e = Some b ∧ Z.of_nat (length b) <= MAX_ENVELOPE_BYTES) envs bufs →
  read_envelope p = (Err WireError_Eof, []) →
  read_n (S (length envs)) (concat (frame <$> bufs) ++ p) = (envs, []).
Proof.
  intros Hb Hcut. revert Hb.
  induction 1 as [|e b envs bufs [Hb Hl] _ IH]; cbn [fmap list_fmap concat length]; cbn [read_n].
  - simpl app. by rewrite Hcut.
  - rewrite <-app_assoc, read_frame by done. rewrite (env_from_into e b Hb).
    cbn [read_n] in IH. by rewrite IH.
Qed.

End framing_lemmas.

(** * Theorem *)

(** C18: envelopes written one after the other are read back one after the
    other, whatever follows them on the stream; an envelope too large to read
    is refused before a byte of it is sent, a length prefix over the limit is
    refused before the payload is read, and a stream that ends inside a frame
    yields the envelopes before it and then an error. *)
Theorem wire_roundtrip `{EnvelopeCborLaws} envs stream rest e out :
  write_all envs [] = Some stream →
  read_n (length envs) (stream ++ rest) = (envs, rest) ∧
  (∀ buf, env_into e = Some buf → MAX_ENVELOPE_BYTES < Z.of_nat (length buf) →
    write_envelope io_fine e out = (Err WireError_InvalidData, out)) ∧
  (∀ len, MAX_ENVELOPE_BYTES < len < 2 ^ 32 →
    read_envelope (be_bytes 4 len ++ rest) = (Err WireError_InvalidData, rest)) ∧
  (∀ frames p q, write_envelope io_fine e [] = (Ok (), frames) → frames = p ++ q → q ≠ [] →
    read_n (S (length envs)) (stream ++ p) = (envs, [])).
Proof.
  intros Hw. apply write_all_frames in Hw as (bufs & Hbufs & ->). split_and!.
  - by apply read_n_frames.
  - intros buf Hbuf Hl. unfold write_envelope. by rewrite Hbuf, (proj2 (Z.ltb_lt _ _)).
  - intros len Hlen. unfold read_envelope. rewrite read_exact_app by apply be_bytes_length.
    rewrite of_be_be by (unfold MAX_ENVELOPE_BYTES in Hlen; lia). by rewrite (proj2 (Z.ltb_lt _ _)) by lia.
  - intros frames p q He -> Hq. apply write_ok in He as (b & Hb & Hl & Hf). simpl in Hf.
    assert (Hcut := read_cut b p q Hl (eq_sym Hf) Hq).
    by apply read_n_cut.
Qed.

(** * Witness *)

(** A codec that supports the requests of the read API only. *)
Module ToyEnvelope.

#[export] Instance toy_envelope_cbor : EnvelopeCbor := {|
  env_into e := match e with
                | Envelope_GetJob j => Some [0; j]
                | Envelope_GetLogRoot => Some [1]
                | Envelope_GetCaptures j r => Some [2; j; r]
                | _ => None
                end;
  env_from b := match b with
                | [0; j] => Some (Envelope_GetJob j)
                | [1] => Some Envelope_GetLogRoot
                | [2; j; r] => Some (Envelope_GetCaptures j r)
                | _ => None
                end;
|}.

#[export] Instance toy_envelope_cbor_laws : EnvelopeCborLaws.
Proof. intros [] b; simpl; intros; by simplify_eq. Qed.

End ToyEnvelope.
Import (hints) ToyEnvelope.

Definition demo_envelopes : list Envelope :=
  [Envelope_GetJob 5; Envelope_GetLogRoot; Envelope_GetCaptures 5 2].

Lemma wire_roundtrip_witness :
  ∃ stream, write_all demo_envelopes [] = Some stream ∧ length stream = 18%nat ∧
    read_n 3 (stream ++ [9; 9]) = (demo_envelopes, [9; 9]) ∧
    read_n 4 (stream ++ [0; 0; 0]) = (demo_envelopes, []).
Proof.
  eexists. split; [vm_compute; reflexivity|]. split; [reflexivity|].
  split.
  - refine (proj1 (wire_roundtrip demo_envelopes _ [9; 9] Envelope_GetLogRoot [] _)).
    vm_compute. reflexivity.
  - refine (proj2 (proj2 (proj2 (wire_roundtrip demo_envelopes _ [9; 9] Envelope_GetLogRoot [] _)))
      [0; 0; 0; 1; 1] [0; 0; 0] [1; 1] _ _ _).
    + vm_compute. reflexivity.
    + vm_compute. reflexivity.
    + reflexivity.
    + discriminate.
Defined.
