(* ===== verification/WireAsync.v ===== *)
(** The asynchronous framing (src/crates/cosaci-protocol/src/proto_async.rs).

    tokio's [read_exact], [write_all] and [flush] are the parameters of the two
    functions: the class [AsyncIo] has what each gives when it is awaited, and
    [AsyncIoLaws] what tokio documents of them. A reader has bytes that will
    still arrive and then ends, breaks or stays silent; a writer has the bytes
    it took so far. The theorem says that the functions do what [Wire]'s do, so
    that either end of a connection may use either. *)

From S2P Require Import Prelude Attestation Capabilities MerkleLog Retrieval Pipeline Wire.

(** * tokio *)

(** What the futures of [AsyncReadExt] and [AsyncWriteExt] give when they are
    awaited; [None] is a future that is never ready. A writer's error is the
    one of the connection. *)
Class AsyncIo := {
  AsyncRead : Type;
  AsyncWrite : Type;
  aread_exact : nat → AsyncRead → option (result bytes wire_error * AsyncRead);
  awrite_all : bytes → AsyncWrite → option (result unit unit * AsyncWrite);
  aflush : AsyncWrite → option (result unit unit * AsyncWrite);
}.

(** [read_exact] fills the buffer with the next bytes, or gives the error the
    stream ends with. [write_all] hands over the buffer from its beginning, all
    of it unless it fails; [flush] hands over nothing. A connection that works
    does not let a future wait for ever. *)
Class AsyncIoLaws `{AsyncIo} := {
  arriving : AsyncRead → bytes;
  ending : AsyncRead → option wire_error;
  sent : AsyncWrite → bytes;
  working : AsyncWrite → Prop;
  aread_exact_filled n r : (n <= length (arriving r))%nat →
    ∃ r', aread_exact n r = Some (Ok (take n (arriving r)), r') ∧ arriving r' = drop n (arriving r) ∧ ending r' = ending r;
  aread_exact_broken n r e : (length (arriving r) < n)%nat → ending r = Some e → ∃ r', aread_exact n r = Some (Err e, r');
  aread_exact_silent n r : (length (arriving r) < n)%nat → ending r = None → aread_exact n r = None;
  awrite_all_sends b w res w' : awrite_all b w = Some (res, w') →
    ∃ k, sent w' = sent w ++ take k b ∧ (res = Ok () → take k b = b);
  awrite_all_works b w : working w → ∃ w', awrite_all b w = Some (Ok (), w') ∧ working w';
  aflush_sends w res w' : aflush w = Some (res, w') → sent w' = sent w;
  aflush_works w : working w → ∃ w', aflush w = Some (Ok (), w') ∧ working w';
}.

(** * The functions *)

Section async.
Context `{EnvelopeCbor} `{AsyncIo}.

Definition write_envelope_async (env : Envelope) (w : AsyncWrite) : option (result unit wire_error * AsyncWrite) :=
  match env_into env with
  | None => Some (Err WireError_InvalidData, w)
  | Some buf =>
      if MAX_ENVELOPE_BYTES <? Z.of_nat (length buf) then Some (Err WireError_InvalidData, w)
      else
        let len := wrap 32 (Z.of_nat (length buf)) in
        match awrite_all (be_bytes 4 len) w with
        | None => None
        | Some (Err _, w) => Some (Err WireError_Io, w)
        | Some (Ok _, w) =>
            match awrite_all buf w with
            | None => None
            | Some (Err _, w) => Some (Err WireError_Io, w)
            | Some (Ok _, w) =>
                match aflush w with
                | None => None
                | Some (Err _, w) => Some (Err WireError_Io, w)
                | Some (Ok _, w) => Some (Ok (), w)
                end
            end
        end
  end.

Definition read_envelope_async (r : AsyncRead) : option (result Envelope wire_error * AsyncRead) :=
  match aread_exact 4 r with
  | None => None
  | Some (Err e, r) => Some (Err e, r)
  | Some (Ok len_bytes, r) =>
      let len := of_be_bytes len_bytes in
      if MAX_ENVELOPE_BYTES <? len then Some (Err WireError_InvalidData, r)
      else
        match aread_exact (Z.to_nat len) r with
        | None => None
        | Some (Err e, r) => Some (Err e, r)
        | Some (Ok buf, r) =>
            Some (match env_from buf with Some env => Ok env | None => Err WireError_InvalidData end, r)
        end
  end.

(** A sender that sends one envelope after the other, and a receiver. *)
Fixpoint write_all_async (envs : list Envelope) (w : AsyncWrite) : option AsyncWrite :=
  match envs with
  | [] => Some w
  | e :: envs => match write_envelope_async e w with
                 | Some (Ok _, w) => write_all_async envs w
                 | _ => None
                 end
  end.

Fixpoint read_n_async (n : nat) (r : AsyncRead) : option (list Envelope * AsyncRead) :=
  match n with
  | O => Some ([], r)
  | S n => match read_envelope_async r with
           | Some (Ok e, r) => match read_n_async n r with
                               | Some (es, r) => Some (e :: es, r)
                               | None => None
                               end
           | _ => None
           end
  end.

End async.

(** * Reading *)

Section reading.
Context `{EnvelopeCbor} `{AsyncIoLaws}.

(** What the asynchronous reader does where the synchronous one, on the bytes
    that arrive, gives [sync]: the same, and it leaves the same bytes; only that
    the end of the bytes is the end of the stream, whatever that is. *)
Definition reads_as (r : AsyncRead) (sync : result Envelope wire_error * bytes)
    (async : option (result Envelope wire_error * AsyncRead)) : Prop :=
  match sync.1, ending r with
  | Err WireError_Eof, None => async = None
  | Err WireError_Eof, Some e => ∃ r', async = Some (Err e, r')
  | res, _ => ∃ r', async = Some (res, r') ∧ arriving r' = sync.2 ∧ ending r' = ending r
  end.

(** The await of a buffer of [n] bytes, against [read_exact]. *)
Lemma aread_exact_agrees n r :
  match read_exact n (arriving r) with
  | (Ok b, rest) => ∃ r', aread_exact n r = Some (Ok b, r') ∧ arriving r' = rest ∧ ending r' = ending r
  | (Err err, _) => err = WireError_Eof ∧
                    match ending r with
                    | Some e => ∃ r', aread_exact n r = Some (Err e, r')
                    | None => aread_exact n r = None
                    end
  end.
Proof.
  unfold read_exact. case_bool_decide as Hn; [by apply aread_exact_filled|]. split; [done|].
  destruct (ending r) as [e|] eqn:He; [apply aread_exact_broken|apply aread_exact_silent]; by try lia.
Qed.

Lemma read_envelope_reads r : reads_as r (read_envelope (arriving r)) (read_envelope_async r).
Proof.
  unfold read_envelope, read_envelope_async. pose proof (aread_exact_agrees 4 r) as Hlen.
  destruct (read_exact 4 (arriving r)) as [[len_bytes|err] rest].
  - destruct Hlen as (r1 & -> & <- & He). cbv zeta. destruct (MAX_ENVELOPE_BYTES <? of_be_bytes len_bytes).
    { unfold reads_as. cbn. by exists r1. }
    pose proof (aread_exact_agrees (Z.to_nat (of_be_bytes len_bytes)) r1) as Hbuf. rewrite He in Hbuf.
    destruct (read_exact _ (arriving r1)) as [[buf|err] rest].
    + destruct Hbuf as (r2 & -> & <- & He2). unfold reads_as. destruct (env_from buf); cbn; by exists r2.
    + destruct Hbuf as [-> Hbuf]. unfold reads_as. cbn. destruct (ending r); [destruct Hbuf as (r2 & ->)|rewrite Hbuf]; eauto.
  - destruct Hlen as [-> Hlen]. unfold reads_as. cbn. destruct (ending r); [destruct Hlen as (r2 & ->)|rewrite Hlen]; eauto.
Qed.

Lemma read_n_reads `{!EnvelopeCborLaws} envs bufs r rest :
  Forall2 (λ e b, env_into e = Some b ∧ Z.of_nat (length b) <= MAX_ENVELOPE_BYTES) envs bufs →
  arriving r = concat (frame <$> bufs) ++ rest →
  ∃ r', read_n_async (length envs) r = Some (envs, r') ∧ arriving r' = rest ∧ ending r' = ending r.
Proof.
  intros Hall. revert r. induction Hall as [|e b envs bufs [Hb Hl] _ IH]; intros r Hr; [by exists r|].
  cbn [fmap list_fmap concat length read_n_async] in *. rewrite <-app_assoc in Hr.
  pose proof (read_envelope_reads r) as Hread. rewrite Hr, read_frame, (env_from_into e b Hb) in Hread by done.
  destruct Hread as (r1 & -> & Hr1 & He). destruct (IH r1 Hr1) as (r2 & -> & Hr2 & He2). exists r2.
  by rewrite He2.
Qed.

End reading.

(** * Writing *)

Section writing.
Context `{EnvelopeCbor} `{AsyncIoLaws}.

(** A write of two buffers that failed in the first, and in the second. *)
Lemma take_first (k : nat) (a b : bytes) : take (k `min` length a) (a ++ b) = take k a.
Proof.
  rewrite take_app_le by lia. destruct (decide (k <= length a)%nat); [by rewrite Nat.min_l by lia|].
  rewrite Nat.min_r by lia. by rewrite !take_ge by lia.
Qed.

(** What was sent is what [write_envelope] writes for some outcome of its I/O,
    and a success has been flushed. *)
Lemma write_envelope_writes env w res w' :
  write_envelope_async env w = Some (res, w') →
  ∃ io, write_envelope io env (sent w) = (res, sent w') ∧
    (res = Ok () → ∃ w1, sent w1 = sent w' ∧ aflush w1 = Some (Ok (), w')).
Proof.
  unfold write_envelope_async, write_envelope. destruct (env_into env) as [buf|]; [|by intros [= <- <-]; exists io_fine].
  destruct (MAX_ENVELOPE_BYTES <? Z.of_nat (length buf)); [by intros [= <- <-]; exists io_fine|].
  cbv zeta. set (len := be_bytes 4 _).
  destruct (awrite_all len w) as [[[[]|[]] w1]|] eqn:E1; [| |done].
  2: { intros [= <- <-]. apply awrite_all_sends in E1 as (k & -> & _).
       exists (mkIo (Some (k `min` length len)%nat) true). cbn. by rewrite take_first. }
  apply awrite_all_sends in E1 as (k1 & Hs1 & Hall1). rewrite Hall1 in Hs1 by done.
  destruct (awrite_all buf w1) as [[[[]|[]] w2]|] eqn:E2; [| |done].
  2: { intros [= <- <-]. apply awrite_all_sends in E2 as (k & -> & _).
       exists (mkIo (Some (length len + k)%nat) true). cbn. by rewrite take_app_add, Hs1, <-app_assoc. }
  apply awrite_all_sends in E2 as (k2 & Hs2 & Hall2). rewrite Hall2, Hs1, <-app_assoc in Hs2 by done.
  destruct (aflush w2) as [[[[]|[]] w3]|] eqn:E3; [| |done]; intros [= <- <-]; pose proof (aflush_sends _ _ _ E3) as Hs3.
  - exists io_fine. cbn. rewrite Hs3, Hs2. eauto.
  - exists (mkIo None false). cbn. by rewrite Hs3, Hs2.
Qed.

(** On a connection that works it is what [write_envelope] writes when nothing fails. *)
Lemma write_envelope_works env w :
  working w →
  ∃ w', write_envelope_async env w = Some ((write_envelope io_fine env (sent w)).1, w') ∧
    sent w' = (write_envelope io_fine env (sent w)).2 ∧ working w'.
Proof.
  intros Hw. unfold write_envelope_async, write_envelope. destruct (env_into env) as [buf|]; [|by exists w].
  destruct (MAX_ENVELOPE_BYTES <? Z.of_nat (length buf)); [by exists w|]. cbv zeta. set (len := be_bytes 4 _).
  destruct (awrite_all_works len w Hw) as (w1 & E1 & Hw1), (awrite_all_works buf w1 Hw1) as (w2 & E2 & Hw2),
    (aflush_works w2 Hw2) as (w3 & E3 & Hw3). rewrite E1, E2, E3. exists w3. cbn. split_and!; try done.
  apply awrite_all_sends in E1 as (k1 & Hs1 & Hall1), E2 as (k2 & Hs2 & Hall2). apply aflush_sends in E3.
  by rewrite E3, Hs2, Hs1, Hall1, Hall2, <-app_assoc by done.
Qed.

(** A success is the success of the synchronous function. *)
Lemma write_envelope_fine env w w' :
  write_envelope_async env w = Some (Ok (), w') → write_envelope io_fine env (sent w) = (Ok (), sent w').
Proof.
  intros (io & Hio & _)%write_envelope_writes. revert Hio. unfold write_envelope. destruct (env_into env); [|done].
  destruct (MAX_ENVELOPE_BYTES <? _); [done|]. by destruct io as [[k|] []].
Qed.

Lemma write_all_writes envs w w' :
  write_all_async envs w = Some w' → write_all envs (sent w) = Some (sent w').
Proof.
  revert w. induction envs as [|e envs IH]; intros w; cbn [write_all_async write_all]; [by intros [= ->]|].
  destruct (write_envelope_async e w) as [[[[]|] w1]|] eqn:E; try done. apply write_envelope_fine in E as ->. apply IH.
Qed.

End writing.

(** * Theorem *)

(** C20: the asynchronous functions do what the synchronous ones do, on any
    reader and writer that keep tokio's promises. Reading gives the result of
    [read_envelope] on the bytes that arrive and leaves the bytes it leaves; a
    frame cut short shows how the stream ended, and on a stream that neither
    goes on nor ends the read waits for ever. Whatever a write gives, it is what
    [write_envelope] gives for some outcome of its I/O, with the same bytes
    sent, and a success was flushed with the whole frame handed over; on a
    connection that works it is [write_envelope] without failures. So a sequence
    of envelopes sent asynchronously is, byte for byte, the one sent
    synchronously, and one sent synchronously is received asynchronously,
    whatever follows it. *)
Theorem async_framing_agrees `{EnvelopeCborLaws} `{AsyncIoLaws} :
  (∀ r, reads_as r (read_envelope (arriving r)) (read_envelope_async r)) ∧
  (∀ env w res w', write_envelope_async env w = Some (res, w') →
    ∃ io, write_envelope io env (sent w) = (res, sent w') ∧
      (res = Ok () → ∃ w1, sent w1 = sent w' ∧ aflush w1 = Some (Ok (), w'))) ∧
  (∀ env w, working w →
    ∃ w', write_envelope_async env w = Some ((write_envelope io_fine env (sent w)).1, w') ∧
      sent w' = (write_envelope io_fine env (sent w)).2 ∧ working w') ∧
  (∀ envs w w', write_all_async envs w = Some w' → write_all envs (sent w) = Some (sent w')) ∧
  (∀ envs stream r rest, write_all envs [] = Some stream → arriving r = stream ++ rest →
    ∃ r', read_n_async (length envs) r = Some (envs, r') ∧ arriving r' = rest ∧ ending r' = ending r).
Proof.
  split; [exact read_envelope_reads|]. split; [exact write_envelope_writes|]. split; [exact write_envelope_works|].
  split; [exact write_all_writes|]. intros envs stream r rest (bufs & Hbufs & ->)%write_all_frames Hr.
  by apply (read_n_reads envs bufs).
Qed.

(** * Witness *)

(** Readers whose bytes come in pieces with delays between them, and which end,
    break or fall silent; writers that take everything, or so many bytes. *)
Module ToyAsync.

Inductive net_in := In_pending | In_bytes (b : bytes) | In_error | In_silent.

Fixpoint toy_read (n : nat) (filled : bytes) (tr : list net_in) : option (result bytes wire_error * list net_in) :=
  if bool_decide (n <= length filled)%nat then Some (Ok filled, tr)
  else
    match tr with
    | [] => Some (Err WireError_Eof, [])
    | In_pending :: tr => toy_read n filled tr
    | In_error :: tr => Some (Err WireError_Io, tr)
    | In_silent :: _ => None
    | In_bytes b :: tr =>
        if bool_decide (n < length filled + length b)%nat
        then Some (Ok (filled ++ take (n - length filled) b), In_bytes (drop (n - length filled) b) :: tr)
        else toy_read n (filled ++ b) tr
    end.

Definition toy_write (b : bytes) (w : bytes * option nat) : option (result unit unit * (bytes * option nat)) :=
  match w with
  | (out, None) => Some (Ok (), (out ++ b, None))
  | (out, Some k) => if bool_decide (length b <= k)%nat then Some (Ok (), (out ++ b, Some (k - length b)%nat))
                     else Some (Err (), (out ++ take k b, Some O))
  end.

Fixpoint toy_arriving (tr : list net_in) : bytes :=
  match tr with
  | In_bytes b :: tr => b ++ toy_arriving tr
  | In_pending :: tr => toy_arriving tr
  | _ => []
  end.

Fixpoint toy_ending (tr : list net_in) : option wire_error :=
  match tr with
  | [] => Some WireError_Eof
  | In_error :: _ => Some WireError_Io
  | In_silent :: _ => None
  | _ :: tr => toy_ending tr
  end.

#[export] Instance toy_async : AsyncIo := {|
  AsyncRead := list net_in;
  AsyncWrite := bytes * option nat;
  aread_exact n tr := toy_read n [] tr;
  awrite_all := toy_write;
  aflush w := Some (Ok (), w);
|}.

Lemma toy_read_spec n filled tr :
  (length filled <= n)%nat →
  if bool_decide (n <= length (filled ++ toy_arriving tr))%nat
  then ∃ tr', toy_read n filled tr = Some (Ok (take n (filled ++ toy_arriving tr)), tr') ∧
         toy_arriving tr' = drop n (filled ++ toy_arriving tr) ∧ toy_ending tr' = toy_ending tr
  else match toy_ending tr with
       | Some e => ∃ tr', toy_read n filled tr = Some (Err e, tr')
       | None => toy_read n filled tr = None
       end.
Proof.
  revert filled. induction tr as [|ev tr IH]; intros filled Hn; cbn [toy_read]; rewrite length_app.
  all: destruct (decide (length filled = n)) as [<-|Hne].
  1,3: rewrite bool_decide_true by lia; rewrite bool_decide_true by lia; rewrite take_app_length, drop_app_length; eauto.
  all: rewrite (bool_decide_false (n <= length filled)%nat) by lia.
  { cbn. rewrite bool_decide_false by lia. eauto. }
  destruct ev as [|b| |]; cbn [toy_arriving toy_ending].
  - specialize (IH filled Hn). by rewrite length_app in IH.
  - rewrite length_app. destruct (decide (n < length filled + length b)%nat) as [Hlt|Hlt].
    + rewrite !bool_decide_true by lia. exists (In_bytes (drop (n - length filled) b) :: tr).
      split; [|split; [|done]].
      * rewrite take_app_ge by lia. by rewrite take_app_le by lia.
      * cbn [toy_arriving]. rewrite drop_app_ge by lia. by rewrite drop_app_le by lia.
    + rewrite (bool_decide_false (n < _)%nat) by lia. specialize (IH (filled ++ b)).
      rewrite <-app_assoc, !length_app in IH. apply IH. lia.
  - cbn. rewrite bool_decide_false by lia. eauto.
  - cbn. by rewrite bool_decide_false by lia.
Qed.

#[export] Instance toy_async_laws : AsyncIoLaws.
Proof.
  refine {| arriving := toy_arriving : AsyncRead → bytes; ending := toy_ending : AsyncRead → _;
            sent := λ w : AsyncWrite, w.1; working := λ w : AsyncWrite, w.2 = None |}.
  - intros n r Hn. pose proof (toy_read_spec n [] r (le_0_n _)) as Hs. by rewrite bool_decide_true in Hs.
  - intros n r e Hn He. pose proof (toy_read_spec n [] r (le_0_n _)) as Hs.
    rewrite bool_decide_false in Hs by (cbn; lia). by rewrite He in Hs.
  - intros n r Hn He. pose proof (toy_read_spec n [] r (le_0_n _)) as Hs.
    rewrite bool_decide_false in Hs by (cbn; lia). by rewrite He in Hs.
  - intros b [out [k|]] res w'; cbn; [case_bool_decide as Hk|]; intros [= <- <-].
    + exists (length b). by rewrite take_ge.
    + by exists k.
    + exists (length b). by rewrite take_ge.
  - intros b [out lim] Hlim. cbn in Hlim. subst lim. cbn. eauto.
  - by intros [out lim] res w' [= <- <-].
  - intros [out lim] Hlim. cbn in Hlim. subst lim. cbn. eauto.
Defined.

End ToyAsync.
Import (hints) ToyAsync.

Import (hints) ToyEnvelope.

(** A request that arrives byte by byte, with another one cut short after it. *)
Definition demo_reads : list ToyAsync.net_in :=
  [ToyAsync.In_bytes [0]; ToyAsync.In_pending; ToyAsync.In_bytes [0; 0; 2]; ToyAsync.In_bytes [0]; ToyAsync.In_pending;
   ToyAsync.In_bytes [5; 0]; ToyAsync.In_error].

Lemma async_framing_agrees_witness :
  (∃ r', read_envelope_async demo_reads = Some (Ok (Envelope_GetJob 5), r') ∧ arriving r' = [0] ∧
     ending r' = Some WireError_Io ∧ ∃ r2, read_envelope_async r' = Some (Err WireError_Io, r2)) ∧
  (∃ io, write_envelope io (Envelope_GetJob 5) [] = (Err WireError_Io, [0; 0; 0; 2; 0])) ∧
  write_all demo_envelopes [] = Some [0; 0; 0; 2; 0; 5; 0; 0; 0; 1; 1; 0; 0; 0; 3; 2; 5; 2] ∧
  ∃ r', read_n_async 3 [ToyAsync.In_bytes [0; 0; 0; 2; 0; 5; 0; 0; 0; 1; 1; 0]; ToyAsync.In_pending;
    ToyAsync.In_bytes [0; 0; 3; 2; 5; 2; 9]; ToyAsync.In_silent] = Some (demo_envelopes, r') ∧ arriving r' = [9].
Proof.
  destruct async_framing_agrees as (Hread & Hwrite & _ & Hsend & Hreceive). split_and!.
  - destruct (Hread demo_reads) as (r' & Hr & Ha & He). exists r'. split; [exact Hr|]. split; [exact Ha|].
    split; [exact He|]. specialize (Hread r'). rewrite Ha in Hread. unfold reads_as in Hread. rewrite He in Hread. exact Hread.
  - destruct (Hwrite (Envelope_GetJob 5) ([], Some 5%nat) (Err WireError_Io) ([0; 0; 0; 2; 0], Some O))
      as (io & Hio & _); [vm_compute; reflexivity|]. exists io. exact Hio.
  - apply (Hsend demo_envelopes ([], None) ([0; 0; 0; 2; 0; 5; 0; 0; 0; 1; 1; 0; 0; 0; 3; 2; 5; 2], None)).
    vm_compute. reflexivity.
  - destruct (Hreceive demo_envelopes [0; 0; 0; 2; 0; 5; 0; 0; 0; 1; 1; 0; 0; 0; 3; 2; 5; 2]
      [ToyAsync.In_bytes [0; 0; 0; 2; 0; 5; 0; 0; 0; 1; 1; 0]; ToyAsync.In_pending;
       ToyAsync.In_bytes [0; 0; 3; 2; 5; 2; 9]; ToyAsync.In_silent] [9]) as (r' & Hr & Ha & _).
    + vm_compute. reflexivity.
    + reflexivity.
    + exists r'. split; [exact Hr|exact Ha].
Defined.
