(* ===== verification/Vrf.v ===== *)
(** VRF wrapper
    (src/crates/cosaci-vrf/src/vrf.rs), over schnorrkel and merlin as an
    interface. *)

From S2P Require Import Prelude Attestation Text.

(** A merlin transcript: its label and the labelled messages appended. *)
Definition Transcript : Type := list Z * list (list Z * bytes).

(** schnorrkel. A secret key is expanded from a seed; signing draws randomness
    [r]; the three [from_bytes] only accept well-formed encodings. *)
Class Schnorrkel := {
  VrfSecret : Type;
  expand_to_keypair : bytes → VrfSecret;
  public_to_bytes : VrfSecret → bytes;
  vrf_sign : VrfSecret → Transcript → bytes → bytes * bytes;
  public_from_bytes : bytes → bool;
  preout_from_bytes : bytes → bool;
  proof_from_bytes : bytes → bool;
  vrf_verify : bytes → Transcript → bytes → bytes → bool;
}.

(** Keys, outputs and proofs a key produces are well formed and verify, and the
    output does not depend on the randomness of the proof. *)
Class SchnorrkelLaws `{Schnorrkel} := {
  public_ok k : public_from_bytes (public_to_bytes k) = true;
  sign_ok k t r : let '(o, p) := vrf_sign k t r in
    preout_from_bytes o = true ∧ proof_from_bytes p = true ∧ vrf_verify (public_to_bytes k) t o p = true;
  sign_output k t r r' : (vrf_sign k t r).1 = (vrf_sign k t r').1;
}.

Inductive VrfError := VrfError_InvalidProof | VrfError_InvalidPublicKey | VrfError_InvalidOutput.

#[export] Instance VrfError_eq_dec : EqDecision VrfError.
Proof. solve_decision. Defined.

Definition CONTEXT : list Z := chars "cosaci-vrf".

Definition transcript (input : bytes) : Transcript := (CONTEXT, [(chars "input", input)]).

Section vrf.
Context `{Schnorrkel}.

Record VrfKeypair := mkVrfKeypair { vkp_keypair : VrfSecret }.

Definition from_seed (seed : bytes) : VrfKeypair := mkVrfKeypair (expand_to_keypair seed).

Definition public_key_bytes (k : VrfKeypair) : bytes := public_to_bytes (vkp_keypair k).

Definition evaluate (r : bytes) (k : VrfKeypair) (input : bytes) : bytes * bytes :=
  vrf_sign (vkp_keypair k) (transcript input) r.

Definition verify (pk_bytes input output proof_bytes : bytes) : result unit VrfError :=
  if negb (public_from_bytes pk_bytes) then Err VrfError_InvalidPublicKey
  else if negb (preout_from_bytes output) then Err VrfError_InvalidOutput
  else if negb (proof_from_bytes proof_bytes) then Err VrfError_InvalidProof
  else if vrf_verify pk_bytes (transcript input) output proof_bytes then Ok ()
  else Err VrfError_InvalidProof.

(** An honest evaluation verifies under the public key, and its output is a
    function of key and input. *)
Lemma vrf_honest `{!SchnorrkelLaws} k input r r' :
  verify (public_key_bytes k) input (evaluate r k input).1 (evaluate r k input).2 = Ok () ∧
  (evaluate r k input).1 = (evaluate r' k input).1.
Proof.
  split; [|apply sign_output]. unfold verify, public_key_bytes, evaluate. rewrite public_ok.
  pose proof (sign_ok (vkp_keypair k) (transcript input) r) as Hs.
  destruct (vrf_sign _ _ r) as [o p]. destruct Hs as (Ho & Hp & Hv). simpl. by rewrite Ho, Hp, Hv.
Qed.

End vrf.
