(* ===== verification/Coordinator.v ===== *)
(** The coordinator: fleet registration, the job lifecycle and the read API
    (src/bins/cosaci-coordinator/src/main.rs: [accept_fleet], [run_one_job],
    [LogBackend], [persist_captures], [handle_read_client] and their helpers).

    A connection is what its reads return, as any function of what has been sent
    to the agent, and which of its writes succeed; agents are otherwise
    arbitrary. The order in which a [HashMap] is
    iterated, which decides ties between artifacts, is the parameter
    [hash_order]. The theorems hold for every behaviour of the agents, every
    I/O failure and every iteration order: what reaches the log and the read
    API is backed by a quorum of the stake of the committee drawn for its job,
    and stays verifiable. *)

From Stdlib Require Import Floats.SpecFloat.
From S2P Require Import Prelude Quorum PartialQuorum Attestation StakeLedger Capabilities MerkleLog.
From S2P Require Import Retrieval Text Enrollment Journal Pipeline Wire Vrf.

(** * Connections *)

(** [st_peer n out] is what the [n]-th read returns once [out] has been sent;
    [st_writes] says which of the next writes succeed (all when it is empty). *)
Record stream := mkStream {
  st_peer : nat → list Envelope → result Envelope wire_error;
  st_reads : nat;
  st_out : list Envelope;
  st_writes : list bool;
}.

(** [read_envelope] on a connection. *)
Definition recv (s : stream) : result Envelope wire_error * stream :=
  (st_peer s (st_reads s) (st_out s), mkStream (st_peer s) (S (st_reads s)) (st_out s) (st_writes s)).

(** [write_envelope] on a connection. *)
Definition send (e : Envelope) (s : stream) : result unit wire_error * stream :=
  match st_writes s with
  | false :: l => (Err WireError_Io, mkStream (st_peer s) (st_reads s) (st_out s) l)
  | true :: l => (Ok (), mkStream (st_peer s) (st_reads s) (st_out s ++ [e]) l)
  | [] => (Ok (), mkStream (st_peer s) (st_reads s) (st_out s ++ [e]) [])
  end.

#[global] Arguments recv : simpl never.
#[global] Arguments send : simpl never.

Definition VRF_REGISTRATION_CHALLENGE : bytes := chars "cosaci-runner-registration-v1".

(** * Registration *)

Record RegisteredAgent `{Ed25519} := mkRegisteredAgent {
  ra_runner_id : Z;
  ra_stream : stream;
  ra_signing_pk : VerifyingKey;
  ra_vrf_pk : bytes;
  ra_stake : Z;
  ra_capabilities : Capabilities;
}.

Section registration.
Context `{Ed25519} `{Sha256} `{Schnorrkel}.

Definition set_stream (s : stream) (a : RegisteredAgent) : RegisteredAgent :=
  mkRegisteredAgent _ (ra_runner_id a) s (ra_signing_pk a) (ra_vrf_pk a) (ra_stake a) (ra_capabilities a).

(** The body of the loop of [accept_fleet] after the connection is accepted;
    [tls_ok] is [ServerConnection::new]. *)
Definition register_agent (enrollment : option EnrollmentSet) (tls_ok : bool) (s : stream) :
    option RegisteredAgent :=
  if negb tls_ok then None
  else
    match recv s with
    | (Ok (Envelope_Register runner_id signing_pubkey vrf_pubkey vrf_output vrf_proof stake capabilities), s) =>
        if negb (is_ok (Vrf.verify vrf_pubkey VRF_REGISTRATION_CHALLENGE vrf_output vrf_proof)) then None
        else if negb (match enrollment with
                      | Some set => is_enrolled runner_id (fingerprint signing_pubkey) (fingerprint vrf_pubkey) set
                      | None => true
                      end) then None
        else match vk_from_bytes signing_pubkey with
        | None => None
        | Some signing_pk =>
            match send Envelope_RegisterAck s with
            | (Err _, _) => None
            | (Ok _, s) =>
                Some (mkRegisteredAgent _ runner_id s signing_pk vrf_pubkey stake capabilities)
            end
        end
    | _ => None
    end.

(** What the listener delivers: an error of [accept] or [set_nodelay], or a
    connection. *)
Inductive accept_event := Accept_error | Accept_conn (tls_ok : bool) (s : stream).

(** [accept_fleet]; [None] while it waits for more connections. *)
Fixpoint accept_fleet (listener : list accept_event) (fleet : nat) (enrollment : option EnrollmentSet)
    (agents : list RegisteredAgent) : option (result (list RegisteredAgent) wire_error) :=
  if bool_decide (fleet <= length agents)%nat then Some (Ok agents)
  else match listener with
  | [] => None
  | Accept_error :: _ => Some (Err WireError_Io)
  | Accept_conn tls_ok s :: listener =>
      match register_agent enrollment tls_ok s with
      | Some a => accept_fleet listener fleet enrollment (agents ++ [a])
      | None => accept_fleet listener fleet enrollment agents
      end
  end.

End registration.

(** * The log behind either backend *)

Inductive LogBackend := LogBackend_Mem (l : MerkleLog MemStore) | LogBackend_File (l : MerkleLog FileStore).

Definition backend_append (io : io_outcome) (entry : bytes) (b : LogBackend) :
    result Z io_error * LogBackend :=
  match b with
  | LogBackend_Mem l =>
      match MerkleLog.append io entry l with
      | (Ok p, l) => (Ok p, LogBackend_Mem l)
      | (Err e, _) => match (e : Empty_set) with end
      end
  | LogBackend_File l => let '(r, l) := MerkleLog.append io entry l in (r, LogBackend_File l)
  end.

Definition backend_entries (b : LogBackend) : list bytes :=
  match b with LogBackend_Mem l => log_entries l | LogBackend_File l => log_entries l end.

Section backend.
Context `{RsMerkle}.

Definition backend_root (b : LogBackend) : option bytes :=
  match b with LogBackend_Mem l => root l | LogBackend_File l => root l end.

Definition backend_len (b : LogBackend) : Z :=
  match b with LogBackend_Mem l => MerkleLog.len l | LogBackend_File l => MerkleLog.len l end.

Definition backend_build_bundle (b : LogBackend) (records : gmap Z JobRecord) (job_id : Z) :
    option JobBundle :=
  match b with
  | LogBackend_Mem l => build_bundle records l job_id
  | LogBackend_File l => build_bundle records l job_id
  end.

End backend.

(** * Journal and captures *)

(** The journal file and the outcomes of its next appends. *)
Record journal_file := mkJournalFile { jf_content : bytes; jf_ios : list io_outcome }.

(** [journal_append]: a failure is logged and otherwise ignored. *)
Definition journal_append `{JournalJson} (journal : option journal_file) (entry : JournalEntry) :
    option journal_file :=
  match journal with
  | None => None
  | Some j =>
      let io := default io_fine (head (jf_ios j)) in
      Some (mkJournalFile (Journal.append io entry (jf_content j)).2 (tail (jf_ios j)))
  end.

Definition outcome_to_journal (o : Outcome) : JournalOutcome :=
  match o with
  | Outcome_Pass => JournalOutcome_Pass
  | Outcome_Fail => JournalOutcome_Fail
  | Outcome_Retry => JournalOutcome_Retry
  | Outcome_Escalate => JournalOutcome_Escalate
  end.

Definition hex_lower (b : bytes) : list Z := hex_encode b.

(** ciborium on capture lists. *)
Class CapturesCbor := {
  captures_into : list CapturedOutput → option bytes;
  captures_from : bytes → option (list CapturedOutput);
}.

(** Where the captures of a job and a runner are. *)
Definition captures_path (root : list Z) (job_id runner_id : Z) : list Z :=
  join (join root (show_u64 job_id)) (show_u64 runner_id ++ chars ".cbor").

(** The captures directory: the files at these paths, by job and runner; the
    paths differ ([captures_path_inj]). *)
Abbreviation capture_files := (gmap (Z * Z) bytes) (only parsing).

(** How writing a file can go: it cannot be created, it is cut short, or it is
    written. *)
Inductive file_io := File_no | File_cut (k : nat) | File_done.

Definition persist_captures `{CapturesCbor} (io : file_io) (job_id runner_id : Z)
    (captures : list CapturedOutput) (files : capture_files) : capture_files :=
  match captures_into captures with
  | None => files
  | Some buf => match io with
                | File_no => files
                | File_cut k => <[(job_id, runner_id) := take k buf]> files
                | File_done => <[(job_id, runner_id) := buf]> files
                end
  end.

Definition load_captures `{CapturesCbor} (job_id runner_id : Z) (files : capture_files) :
    option (list CapturedOutput) :=
  buf ← files !! (job_id, runner_id); captures_from buf.

Definition job_seed_bytes (job_id : Z) : bytes := le_bytes 8 job_id ++ replicate 23 0 ++ [171].

(** * The job lifecycle *)

Section jobs.
Context `{Cbor} `{Sha256} `{Ed25519} `{CborBytes} `{RsMerkle} `{JournalJson} `{CapturesCbor} `{Schnorrkel}.
Context (hash_order : gmap (list Z) Z → list (list Z * Z)).

(** What the lifecycle mutates. *)
Record world := mkWorld {
  w_agents : list RegisteredAgent;
  w_ledger : StakeLedger;
  w_log : LogBackend;
  w_records : gmap Z JobRecord;
  w_journal : option journal_file;
  w_captures : capture_files;
}.

Definition set_agents (l : list RegisteredAgent) (w : world) : world :=
  mkWorld l (w_ledger w) (w_log w) (w_records w) (w_journal w) (w_captures w).

Definition set_ledger (l : StakeLedger) (w : world) : world :=
  mkWorld (w_agents w) l (w_log w) (w_records w) (w_journal w) (w_captures w).

Definition set_log (l : LogBackend) (w : world) : world :=
  mkWorld (w_agents w) (w_ledger w) l (w_records w) (w_journal w) (w_captures w).

Definition set_records (r : gmap Z JobRecord) (w : world) : world :=
  mkWorld (w_agents w) (w_ledger w) (w_log w) r (w_journal w) (w_captures w).

(** [journal_append(journal, &entry)]. *)
Definition journaled (entry : JournalEntry) (w : world) : world :=
  mkWorld (w_agents w) (w_ledger w) (w_log w) (w_records w) (journal_append (w_journal w) entry)
    (w_captures w).

(** Writing to every agent [to] selects; the first failure ends the loop. *)
Fixpoint send_each (to : RegisteredAgent → bool) (e : Envelope) (agents : list RegisteredAgent) :
    result unit wire_error * list RegisteredAgent :=
  match agents with
  | [] => (Ok (), [])
  | a :: agents =>
      if to a then
        match send e (ra_stream a) with
        | (Err err, s) => (Err err, set_stream s a :: agents)
        | (Ok _, s) => let '(r, agents) := send_each to e agents in (r, set_stream s a :: agents)
        end
      else let '(r, agents) := send_each to e agents in (r, a :: agents)
  end.

(** The loop that collects the VRF claims; a failed read ends the job. *)
Fixpoint collect_claims (job_id : Z) (seed : bytes) (agents : list RegisteredAgent) :
    result (list (Z * bytes)) wire_error * list RegisteredAgent :=
  match agents with
  | [] => (Ok [], [])
  | a :: agents =>
      match recv (ra_stream a) with
      | (Err err, s) => (Err err, set_stream s a :: agents)
      | (Ok env, s) =>
          let claim :=
            match env with
            | Envelope_VrfClaim claim_job_id vrf_output vrf_proof =>
                if negb (claim_job_id =? job_id) then []
                else if negb (is_ok (Vrf.verify (ra_vrf_pk a) seed vrf_output vrf_proof)) then []
                else [(ra_runner_id a, vrf_output)]
            | _ => []
            end in
          let '(r, agents) := collect_claims job_id seed agents in
          (claims ←? r; Ok (claim ++ claims), set_stream s a :: agents)
      end
  end.

(** The candidates: claims whose runner has registered capabilities; of two
    agents with one id, the later one's are used. *)
Definition candidates_of (agents : list RegisteredAgent) (claims : list (Z * bytes)) : list (Candidate Z) :=
  let agent_caps : gmap Z Capabilities :=
    foldl (λ m a, <[ra_runner_id a := ra_capabilities a]> m) ∅ agents in
  omap (λ p : Z * bytes, caps ← agent_caps !! p.1; Some (mkCandidate p.1 caps p.2)) claims.

(** What one committee member's connection yields in the collection phase. *)
Definition read_attestation (a : RegisteredAgent) : option AttestationBundle * stream :=
  match recv (ra_stream a) with
  | (Ok (Envelope_SubmitAttestation bundle), s) =>
      (if verify_signature (ab_attestation bundle) (ra_signing_pk a) then Some bundle else None, s)
  | (_, s) => (None, s)
  end.

(** State of the collection loop. *)
Record collection := mkCollection {
  cl_attestations : list Attestation;
  cl_missing : list Z;
  cl_journal : option journal_file;
  cl_captures : capture_files;
}.

(** The loop that collects attestations. A timeout, a failed read, another
    envelope and a bad signature all count as missing; captures are only stored
    when [captures_on] and the signature is good. *)
Fixpoint collect_attestations (job_id : Z) (committee : list Z) (captures_on : bool)
    (cap_io : Z → file_io) (agents : list RegisteredAgent) (c : collection) :
    collection * list RegisteredAgent :=
  match agents with
  | [] => (c, [])
  | a :: agents =>
      if negb (bool_decide (ra_runner_id a ∈ committee)) then
        let '(c, agents) := collect_attestations job_id committee captures_on cap_io agents c in
        (c, a :: agents)
      else
        let '(got, s) := read_attestation a in
        let c :=
          match got with
          | None => mkCollection (cl_attestations c) (cl_missing c ++ [ra_runner_id a]) (cl_journal c)
                      (cl_captures c)
          | Some bundle =>
              let files :=
                if negb (bool_decide (ab_captures bundle = [])) && captures_on
                then persist_captures (cap_io (ra_runner_id a)) job_id (ra_runner_id a)
                       (ab_captures bundle) (cl_captures c)
                else cl_captures c in
              mkCollection (cl_attestations c ++ [ab_attestation bundle]) (cl_missing c)
                (journal_append (cl_journal c) (JournalEntry_AttestationReceived job_id (ra_runner_id a)))
                files
          end in
        let '(c, agents) := collect_attestations job_id committee captures_on cap_io agents c in
        (c, set_stream s a :: agents)
  end.

Definition vote_of (att : Attestation) : Vote :=
  mkVote (att_runner_id att)
    match att_result att with
    | AttestationResult_Pass => VoteResult_Pass
    | AttestationResult_Fail => VoteResult_Fail
    end.

Definition artifact_counts (atts : list Attestation) : gmap (list Z) Z :=
  foldl (λ m att, <[att_artifact_hash att := default 0 (m !! att_artifact_hash att) + 1]> m) ∅ atts.

(** [Iterator::max_by_key]: the last of the greatest. *)
Definition max_by_count (l : list (list Z * Z)) : option (list Z * Z) :=
  foldl (λ best p, match best with
                   | None => Some p
                   | Some b => if b.2 <=? p.2 then Some p else best
                   end) None l.

Definition consensus_artifact (atts : list Attestation) : bytes :=
  match max_by_count (hash_order (artifact_counts atts)) with
  | Some (k, _) => k
  | None => replicate 32 0
  end.

(** The stake of the committee and the threshold computed from it. *)
Definition committee_threshold (md : overflow_mode) (committee : list Z) (stake : StakeMap) : option Z :=
  committee_stake ← sum64 md ((λ id, default 0 (stake !! id)) <$> committee);
  doubled ← mul64 md committee_stake 2;
  Some (div_ceil doubled 3).

Inductive job_error := JobError_Wire (e : wire_error) | JobError_Log (e : io_error).

(** What a job depends on besides the world: the wall clock for the deadline,
    and how the log append and the capture files go. *)
Record job_env := mkJobEnv { je_now : Z; je_log_io : io_outcome; je_cap_io : Z → file_io }.

(** The anchoring phase: append under the lock, then record. *)
Definition anchor (env : job_env) (job_id : Z) (pipeline : Pipeline) (atts : list Attestation)
    (artifact : bytes) (w : world) : option (result unit job_error * world) :=
  let pipeline_hash := hash_bytes (cbor_bytes (cb_pipeline pipeline)) in
  match backend_append (je_log_io env) artifact (w_log w) with
  | (Err e, log) => Some (Err (JobError_Log e), set_log log w)
  | (Ok pos, log) =>
      _ ← backend_root log;
      let record := mkJobRecord job_id pipeline_hash atts artifact pos (backend_len log) in
      let w := set_records (<[job_id := record]> (w_records w)) (set_log log w) in
      Some (Ok (), journaled (JournalEntry_Anchored job_id pos) w)
  end.

(** The phases from the votes on. *)
Definition settle (md : overflow_mode) (env : job_env) (job_id : Z) (pipeline : Pipeline)
    (slash_fraction : spec_float) (committee : list Z) (atts : list Attestation) (w : world) :
    option (result unit job_error * world) :=
  let stake_snapshot := as_stake_map (w_ledger w) in
  threshold ← committee_threshold md committee stake_snapshot;
  outcome ← aggregate md (vote_of <$> atts) threshold stake_snapshot;
  let artifact := consensus_artifact atts in
  let w := journaled (JournalEntry_Aggregated job_id (outcome_to_journal outcome) (hex_lower artifact)) w in
  let w := if bool_decide (outcome = Outcome_Pass ∨ outcome = Outcome_Fail) && SFltb f32_zero slash_fraction
           then set_ledger (slash_minority artifact atts slash_fraction (w_ledger w)).2 w else w in
  if bool_decide (outcome = Outcome_Pass) then anchor env job_id pipeline atts artifact w
  else Some (Ok (), w).

(** [run_one_job]. [None] is a panic of the overflow-checked arithmetic (on the
    stake or the deadline) or of the [expect] on the root. *)
Definition run_one_job (md : overflow_mode) (env : job_env) (job_id : Z) (committee_size : nat)
    (pipeline : Pipeline) (requirements : JobRequirements) (slash_fraction : spec_float)
    (captures_on : bool) (w : world) : option (result unit job_error * world) :=
  let w := journaled (JournalEntry_JobSubmitted job_id) w in
  let job_seed := job_seed_bytes job_id in
  match send_each (λ _, true) (Envelope_JobSeed job_id job_seed) (w_agents w) with
  | (Err e, agents) => Some (Err (JobError_Wire e), set_agents agents w)
  | (Ok _, agents) =>
      match collect_claims job_id job_seed agents with
      | (Err e, agents) => Some (Err (JobError_Wire e), set_agents agents w)
      | (Ok claims, agents) =>
          let w := set_agents agents w in
          let candidates := candidates_of agents claims in
          match select_capability_aware_committee candidates requirements committee_size with
          | None => Some (Ok (), w)
          | Some committee =>
              let w := journaled (JournalEntry_CommitteeSelected job_id committee) w in
              deadline ← add_i64 md (je_now env) 60000000000;
              match send_each (λ a, bool_decide (ra_runner_id a ∈ committee))
                      (Envelope_Assign job_id pipeline requirements deadline) agents with
              | (Err e, agents) => Some (Err (JobError_Wire e), set_agents agents w)
              | (Ok _, agents) =>
                  let '(c, agents) :=
                    collect_attestations job_id committee captures_on (je_cap_io env) agents
                      (mkCollection [] [] (w_journal w) (w_captures w)) in
                  let w := mkWorld agents (w_ledger w) (w_log w) (w_records w) (cl_journal c) (cl_captures c) in
                  settle md env job_id pipeline slash_fraction committee (cl_attestations c) w
              end
          end
      end
  end.

(** * The read API *)

(** [handle_read_client] after the request is read: the answer, if there is
    one; [captures_on] is whether a captures directory is configured. *)
Definition handle_read (captures_on : bool) (w : world) (req : Envelope) : option Envelope :=
  match req with
  | Envelope_GetJob job_id =>
      Some match backend_build_bundle (w_log w) (w_records w) job_id with
           | Some b => Envelope_JobBundleResponse b
           | None => Envelope_JobNotFound job_id
           end
  | Envelope_GetLogRoot => Some (Envelope_LogRoot (backend_root (w_log w)) (backend_len (w_log w)))
  | Envelope_GetCaptures job_id runner_id =>
      if negb captures_on then Some (Envelope_CapturesNotFound job_id runner_id)
      else Some match load_captures job_id runner_id (w_captures w) with
                | Some captures => Envelope_CapturesResponse job_id runner_id captures
                | None => Envelope_CapturesNotFound job_id runner_id
                end
  | _ => None
  end.

End jobs.

(** * The log positions *)

(** The backend counts what the mirror holds. *)
Definition backend_pos_ok (b : LogBackend) : Prop :=
  match b with
  | LogBackend_Mem l => length (ms_entries (log_store l)) = length (log_entries l)
  | LogBackend_File l => fs_len (log_store l) = Z.of_nat (length (log_entries l))
  end.

(** No two pairs of a job and a runner share a file. *)
Lemma captures_path_inj root job runner job' runner' :
  uint 64 job → uint 64 runner → uint 64 job' → uint 64 runner' →
  captures_path root job runner = captures_path root job' runner' → job = job' ∧ runner = runner'.
Proof.
  intros Hj Hr Hj' Hr'.
  assert (Hin : ∃ pre, ∀ name, join root name = pre ++ name).
  { unfold join. case_decide; [by exists root|exists (root ++ [47])]. intros name. by rewrite <-app_assoc. }
  assert (Hout : ∀ pre j name, join (pre ++ show_u64 j) name = pre ++ show_u64 j ++ 47 :: name).
  { intros pre j name. unfold join. rewrite decide_False; [by rewrite <-app_assoc|]. intros [Heq|Heq].
    - apply app_eq_nil in Heq as [_ Heq]. by apply show_u64_nonempty in Heq.
    - rewrite last_app in Heq. destruct (last (show_u64 j)) as [c|] eqn:El.
      + injection Heq as ->. by apply last_Some_elem_of, show_u64_no_slash in El.
      + apply last_None in El. by apply show_u64_nonempty in El. }
  destruct Hin as [pre Hpre]. unfold captures_path. rewrite !Hpre, !Hout. intros Heq%app_inv_head.
  apply app_sep_inj in Heq as [Hjs Hrs]; [|apply show_u64_no_slash|apply show_u64_no_slash].
  apply app_inv_tail in Hrs. split; by apply show_u64_inj.
Qed.

Lemma backend_append_spec io e b r b' :
  backend_pos_ok b → backend_append io e b = (r, b') →
  backend_pos_ok b' ∧ backend_entries b' = backend_entries b ++ (if is_ok r then [e] else []) ∧
  (∀ p, r = Ok p → p = Z.of_nat (length (backend_entries b))).
Proof.
  destruct b as [l|l]; simpl; intros Hp Happ.
  - unfold MerkleLog.append in Happ. simpl in Happ. injection Happ as <- <-. simpl.
    rewrite !length_app, Hp. split; [done|]. split; [done|]. by intros p [= <-].
  - destruct (MerkleLog.append io e l) as [r0 l'] eqn:E. injection Happ as <- <-.
    pose proof (append_entries _ _ _ _ _ E) as Hent. simpl. rewrite Hent.
    unfold MerkleLog.append in E. simpl in E. unfold file_append in E.
    destruct (io_write_err io), (io_sync_ok io); simpl in E; injection E as <- <-; simpl;
      rewrite ?length_app, ?app_nil_r; simpl; (split; [lia|]); (split; [done|]); intros p; try done;
      by intros [= <-].
Qed.

(** A record is anchored in a sequence of entries. *)
Definition anchored_in (es : list bytes) (r : JobRecord) : Prop :=
  0 <= jr_log_position r < jr_log_length_at_anchor r ∧
  jr_log_length_at_anchor r <= Z.of_nat (length es) ∧
  es !! Z.to_nat (jr_log_position r) = Some (jr_consensus_artifact r).

Lemma anchored_in_extend es new r : anchored_in es r → anchored_in (es ++ new) r.
Proof.
  intros (Hp & Hl & He). split; [done|]. split; [rewrite length_app; lia|]. by apply lookup_app_l_Some.
Qed.

(** ** Artifacts *)

Definition count_artifact (h : list Z) (atts : list Attestation) : Z :=
  Z.of_nat (length (filter (λ a, att_artifact_hash a = h) atts)).

Lemma artifact_counts_lookup atts h :
  artifact_counts atts !! h = if decide (count_artifact h atts = 0) then None else Some (count_artifact h atts).
Proof.
  unfold artifact_counts, count_artifact. induction atts as [|a atts IH] using rev_ind; [done|].
  rewrite foldl_app, filter_app, filter_cons, filter_nil. simpl.
  destruct (decide (att_artifact_hash a = h)) as [->|Hne].
  - rewrite lookup_insert_eq, IH, length_app. simpl length.
    destruct (decide (Z.of_nat (length _ + 1) = 0)) as [?|_]; [lia|].
    f_equal. case_decide; simpl; lia.
  - rewrite lookup_insert_ne, IH by done. by rewrite app_nil_r.
Qed.

Lemma max_by_count_spec l :
  match max_by_count l with
  | Some p => p ∈ l ∧ ∀ q, q ∈ l → q.2 <= p.2
  | None => l = []
  end.
Proof.
  unfold max_by_count. induction l as [|x l IH] using rev_ind; [done|].
  rewrite foldl_app. simpl. destruct (foldl _ None l) as [b|].
  - destruct IH as [Hb Hmax]. destruct (Z.leb_spec b.2 x.2).
    + split; [apply elem_of_app; right; by left|].
      intros q [Hq|Hq%list_elem_of_singleton]%elem_of_app; [|by subst]. specialize (Hmax q Hq). lia.
    + split; [apply elem_of_app; by left|].
      intros q [Hq|Hq%list_elem_of_singleton]%elem_of_app; [by apply Hmax|]. subst. lia.
  - subst. simpl. split; [by left|]. intros q Hq%list_elem_of_singleton. by subst.
Qed.

(** The artifact chosen is reported at least as often as any other, whatever
    the iteration order. *)
Lemma consensus_plurality (hash_order : gmap (list Z) Z → list (list Z * Z)) atts h :
  (∀ m, hash_order m ≡ₚ map_to_list m) →
  count_artifact h atts <= count_artifact (consensus_artifact hash_order atts) atts.
Proof.
  intros Ho. unfold consensus_artifact.
  pose proof (max_by_count_spec (hash_order (artifact_counts atts))) as Hm.
  destruct (decide (count_artifact h atts = 0)) as [Hz|Hz]; [rewrite Hz; unfold count_artifact; lia|].
  assert (Hin : (h, count_artifact h atts) ∈ hash_order (artifact_counts atts)).
  { rewrite Ho. apply elem_of_map_to_list. rewrite artifact_counts_lookup. by rewrite decide_False. }
  destruct (max_by_count _) as [[k n]|]; [|rewrite Hm in Hin; by apply not_elem_of_nil in Hin].
  destruct Hm as [Hk Hmax]. rewrite Ho in Hk. apply elem_of_map_to_list in Hk.
  rewrite artifact_counts_lookup in Hk. case_decide; simplify_eq. by apply (Hmax (h, _)).
Qed.

(** ** The phases keep the fleet *)

Section phases.
Context `{Cbor} `{Sha256} `{Ed25519} `{JournalJson} `{CapturesCbor} `{Schnorrkel}.

(** Who may sign: the runner ids and keys of the fleet. *)
Definition fleet_of (agents : list RegisteredAgent) : list (Z * VerifyingKey) :=
  (λ a, (ra_runner_id a, ra_signing_pk a)) <$> agents.

Lemma send_each_fleet to e agents r agents' :
  send_each to e agents = (r, agents') → fleet_of agents' = fleet_of agents.
Proof.
  revert r agents'. induction agents as [|a agents IH]; intros r agents' Hs; simpl in Hs; [by simplify_eq|].
  destruct (send_each to e agents) as [r1 l1] eqn:E1. specialize (IH r1 l1 eq_refl).
  destruct (to a); [|simplify_eq; csimpl; by rewrite IH].
  destruct (send e (ra_stream a)) as [[] s]; simplify_eq; csimpl; [by rewrite IH|done].
Qed.

(** Claims come from the fleet, one per agent at most. *)
Lemma collect_claims_spec job seed agents r agents' :
  collect_claims job seed agents = (r, agents') →
  fleet_of agents' = fleet_of agents ∧
  ∀ claims, r = Ok claims → claims.*1 `sublist_of` (fleet_of agents).*1.
Proof.
  revert r agents'. induction agents as [|a agents IH]; intros r agents' Hs; cbn [collect_claims] in Hs.
  { simplify_eq. split; [done|]. by intros claims [= <-]. }
  destruct (recv (ra_stream a)) as [[env|err] s]; [|by simplify_eq].
  destruct (collect_claims job seed agents) as [r1 l1] eqn:E1.
  destruct (IH r1 l1 eq_refl) as [Hf Hc]. simplify_eq. csimpl. rewrite Hf. split; [done|].
  intros claims Hr. destruct r1 as [cs|]; [|done]. injection Hr as <-. specialize (Hc cs eq_refl).
  assert (Hskip : ([] ++ cs).*1 `sublist_of` ra_runner_id a :: (fleet_of agents).*1)
    by by apply sublist_cons.
  destruct env; try done. destruct (negb _); [done|]. destruct (negb _); [done|].
  csimpl. by apply sublist_skip.
Qed.

Lemma candidates_ids agents claims : (cand_id <$> candidates_of agents claims) `sublist_of` claims.*1.
Proof.
  unfold candidates_of. generalize (foldl (λ m a, <[ra_runner_id a := ra_capabilities a]> m) ∅ agents : gmap Z Capabilities).
  intros m. induction claims as [|[i v] claims IH]; [done|]. csimpl.
  destruct (m !! i); csimpl; [by apply sublist_skip|by apply sublist_cons].
Qed.

(** Members of a committee are registered. *)
Lemma committee_in_fleet agents claims req k committee :
  claims.*1 `sublist_of` (fleet_of agents).*1 →
  select_capability_aware_committee (candidates_of agents claims) req k = Some committee →
  committee ⊆ (fleet_of agents).*1.
Proof.
  intros Hsub Hsel i Hi. unfold select_capability_aware_committee in Hsel. case_decide; [done|].
  injection Hsel as <-. apply list_elem_of_fmap in Hi as (c & -> & Hc).
  apply elem_of_take in Hc as (n & Hn & _). apply list_elem_of_lookup_2 in Hn.
  rewrite stable_sort_perm in Hn. unfold eligible in Hn. apply list_elem_of_filter in Hn as [_ Hn].
  eapply elem_of_submseteq; [|apply sublist_submseteq; exact Hsub].
  eapply elem_of_submseteq; [|apply sublist_submseteq, candidates_ids].
  apply list_elem_of_fmap. eauto.
Qed.

(** Attestations that count are signed by different members of the committee,
    each with its registered key. *)
Definition signed_by (fleet : list (Z * VerifyingKey)) (committee : list Z) (atts : list Attestation) : Prop :=
  ∃ signers, signers `sublist_of` filter (λ p, p.1 ∈ committee) fleet ∧
    Forall2 (λ (p : Z * VerifyingKey) att, verify_signature att p.2 = true) signers atts.

Lemma collect_attestations_spec job committee con cio agents c c' agents' :
  collect_attestations job committee con cio agents c = (c', agents') →
  fleet_of agents' = fleet_of agents ∧
  ∃ new, cl_attestations c' = cl_attestations c ++ new ∧ signed_by (fleet_of agents) committee new.
Proof.
  revert c c' agents'. induction agents as [|a agents IH]; intros c c' agents' Hs.
  { simpl in Hs. simplify_eq. split; [done|]. exists []. rewrite app_nil_r. split; [done|].
    exists []. split; [apply sublist_nil_l|constructor]. }
  cbn [collect_attestations] in Hs. unfold signed_by. csimpl. rewrite filter_cons.
  case_bool_decide as Hin; simpl negb in Hs; cbv iota in Hs.
  - destruct (read_attestation a) as [got s] eqn:Eg.
    destruct (collect_attestations job committee con cio agents _) as [c1 l1] eqn:E1. simplify_eq.
    apply IH in E1 as [Hf (new & Hnew & signers & Hsub & Hall)]. csimpl. rewrite Hf. split; [done|].
    rewrite decide_True by done. destruct got as [bundle|]; simpl in Hnew.
    + assert (Hv : verify_signature (ab_attestation bundle) (ra_signing_pk a) = true).
      { unfold read_attestation in Eg. destruct (recv (ra_stream a)) as [[[]|] ?]; simplify_eq/=.
        by case_match; simplify_eq. }
      exists (ab_attestation bundle :: new). rewrite Hnew, <-app_assoc. split; [done|].
      exists ((ra_runner_id a, ra_signing_pk a) :: signers). split; [by apply sublist_skip|by constructor].
    + exists new. split; [done|]. exists signers. split; [by apply sublist_cons|done].
  - destruct (collect_attestations job committee con cio agents c) as [c1 l1] eqn:E1. simplify_eq.
    apply IH in E1 as [Hf (new & Hnew & signers & Hsub & Hall)]. csimpl. rewrite Hf. split; [done|].
    exists new. split; [done|]. exists signers. by rewrite decide_False.
Qed.

End phases.

Lemma slash_stake_ok c atts fraction l : stake_ok (stakes l) → stake_ok (stakes (slash_minority c atts fraction l).2).
Proof.
  intros [Hs Ht]. unfold slash_minority. split; [by apply foldl_slash_nonneg|].
  pose proof (foldl_slash_conserves c (clamp01 fraction) atts [] l Hs) as Hc.
  destruct (foldl_slash_events c (clamp01 fraction) atts [] l Hs) as (new & Hnew & Hok).
  simpl in Hnew. rewrite Hnew in Hc. unfold sumz in Hc at 2. simpl in Hc.
  assert (0 <= sumz (se_slashed <$> new)); [|lia].
  apply sumz_nonneg, Forall_fmap. eapply Forall_impl; [exact Hok|]. intros ev (_ & Hsl & Hb). simpl. lia.
Qed.

(** ** Bundles of either backend *)

Lemma backend_bundle `{RsMerkleLaws} b records job r :
  records !! job = Some r → anchored_in (backend_entries b) r →
  ∃ bd, backend_build_bundle b records job = Some bd ∧
    verify_inclusion (jb_merkle_proof bd) (jb_log_root bd) = true ∧
    ip_entry (jb_merkle_proof bd) = jb_consensus_artifact bd ∧
    jb_consensus_artifact bd = jr_consensus_artifact r ∧
    jb_committee_attestations bd = jr_committee_attestations r ∧
    ip_position (jb_merkle_proof bd) = jb_log_position bd ∧
    ip_length_at_proof (jb_merkle_proof bd) = jb_log_length_at_anchor bd ∧
    jb_job_id bd = jr_job_id r ∧ jb_log_length_at_anchor bd = jr_log_length_at_anchor r.
Proof.
  intros Hr Ha. destruct b as [l|l];
    destruct (anchored_bundle records l job r Hr Ha) as (bd & Hb & Hv & He & Hp & Hl & Hart & Hatts & Hid & Hlen);
    exists bd; done.
Qed.

(** A bundle depends on the entries and on the job's own record only, and later
    entries do not change it. *)
Lemma backend_bundle_extend `{RsMerkle} b b' records records' new job r :
  backend_entries b' = backend_entries b ++ new →
  records !! job = Some r → records' !! job = Some r → anchored_in (backend_entries b) r →
  backend_build_bundle b' records' job = backend_build_bundle b records job.
Proof.
  intros Hnew Hr Hr' Ha.
  assert (Hany : ∀ c recs, backend_build_bundle c recs job = build_bundle recs (mkMerkleLog (backend_entries c) ()) job)
    by by intros [].
  rewrite !Hany.
  rewrite <-(build_bundle_extend records (mkMerkleLog (backend_entries b) ()) (mkMerkleLog (backend_entries b') ()) new job r)
    by done.
  unfold build_bundle. by rewrite Hr, Hr'.
Qed.

(** * Reachable worlds *)

Section reachable.
Context `{Cbor} `{Sha256} `{Ed25519} `{CborBytes} `{RsMerkleLaws} `{JournalJson} `{CapturesCbor} `{Schnorrkel}.
Context (hash_order : gmap (list Z) Z → list (list Z * Z)) (md : overflow_mode).

(** One job, with any parameters, in any environment. *)
Inductive job_step : world → world → Prop :=
| job_step_run env job_id k pipeline req fraction captures_on w r w' :
    run_one_job hash_order md env job_id k pipeline req fraction captures_on w = Some (r, w') →
    job_step w w'.

(** What holds of a world in which jobs have run since [w0]. *)
Definition world_ok (w0 w : world) : Prop :=
  fleet_of (w_agents w) = fleet_of (w_agents w0) ∧
  stake_ok (stakes (w_ledger w)) ∧
  backend_pos_ok (w_log w) ∧
  (∃ new, backend_entries (w_log w) = backend_entries (w_log w0) ++ new) ∧
  ∀ job r, w_records w !! job = Some r →
    jr_job_id r = job ∧ anchored_in (backend_entries (w_log w)) r.

(** A change of the agents' connections, the journal or the captures only. *)
Lemma world_ok_frame w0 w w' :
  world_ok w0 w → fleet_of (w_agents w') = fleet_of (w_agents w) → w_ledger w' = w_ledger w →
  w_log w' = w_log w → w_records w' = w_records w → world_ok w0 w'.
Proof. intros Hok Hf Hl Hg Hr. unfold world_ok. rewrite Hf, Hl, Hg, Hr. exact Hok. Qed.

Lemma world_ok_ledger w0 w l : world_ok w0 w → stake_ok (stakes l) → world_ok w0 (set_ledger l w).
Proof. intros (Hf & _ & Hrest) Hl. split; [exact Hf|]. split; [exact Hl|exact Hrest]. Qed.

(** Anchoring keeps the world in order, whatever the append does. *)
Lemma anchor_ok w0 env job_id pipeline atts artifact w r w' :
  world_ok w0 w → anchor env job_id pipeline atts artifact w = Some (r, w') → world_ok w0 w'.
Proof.
  intros (Hf & Hs & Hp & (new & Hnew) & Hrec). unfold anchor.
  destruct (backend_append (je_log_io env) artifact (w_log w)) as [[pos|e] log] eqn:E;
    destruct (backend_append_spec _ _ _ _ _ Hp E) as (Hp' & Hent & Hpos); simpl in Hent.
  - destruct (backend_root log); [|done]. simpl. intros [= <- <-]. specialize (Hpos pos eq_refl).
    assert (Hlen : backend_len log = Z.of_nat (length (backend_entries (w_log w)) + 1)).
    { transitivity (Z.of_nat (length (backend_entries log))); [by destruct log|].
      by rewrite Hent, length_app. }
    split; [done|]. split; [done|]. split; [done|]. simpl. split.
    { exists (new ++ [artifact]). by rewrite Hent, Hnew, <-app_assoc. }
    intros job x Hx. rewrite lookup_insert in Hx. case_decide; simplify_eq.
    + split; [done|]. rewrite Hlen. unfold anchored_in. simpl. rewrite Hent, length_app. simpl.
      split; [lia|]. split; [lia|]. rewrite Nat2Z.id. by apply list_lookup_middle.
    + destruct (Hrec job x Hx) as (Hj & Ha). split; [done|].
      rewrite Hent. by apply anchored_in_extend.
  - intros [= <- <-]. rewrite app_nil_r in Hent. unfold world_ok. simpl. rewrite Hent. split_and!; try done.
    by exists new.
Qed.

Lemma settle_ok w0 env job_id pipeline fraction committee atts w r w' :
  world_ok w0 w →
  settle hash_order md env job_id pipeline fraction committee atts w = Some (r, w') → world_ok w0 w'.
Proof.
  intros Hok. unfold settle.
  destruct (committee_threshold md committee _) as [threshold|]; [|done]. cbn [mbind option_bind].
  destruct (aggregate md _ threshold _) as [outcome|]; [|done]. cbn [mbind option_bind].
  set (w1 := journaled _ w). set (w2 := if _ && _ then _ else w1).
  assert (Hok1 : world_ok w0 w1) by by apply (world_ok_frame w0 w).
  assert (Hok2 : world_ok w0 w2).
  { unfold w2. destruct (_ && _); [|done]. apply world_ok_ledger; [done|].
    apply slash_stake_ok. apply Hok1. }
  case_bool_decide; [|by intros [= <- <-]]. intros Han. by eapply anchor_ok.
Qed.

Lemma run_one_job_ok w0 w w' : world_ok w0 w → job_step w w' → world_ok w0 w'.
Proof.
  intros Hok. destruct 1 as [env job_id k pipeline req fraction con w r w' Hrun].
  unfold run_one_job in Hrun. set (w1 := journaled (JournalEntry_JobSubmitted job_id) w) in *.
  assert (Hok1 : world_ok w0 w1) by by apply (world_ok_frame w0 w).
  destruct (send_each _ _ (w_agents w1)) as [[|e] ag1] eqn:E1; apply send_each_fleet in E1;
    [|injection Hrun as <- <-; apply (world_ok_frame w0 w1); [exact Hok1|exact E1|done..]].
  destruct (collect_claims _ _ ag1) as [[claims|e] ag2] eqn:E2; apply collect_claims_spec in E2 as [Hf2 _];
    [|injection Hrun as <- <-; apply (world_ok_frame w0 w1); [exact Hok1|exact (eq_trans Hf2 E1)|done..]].
  assert (Hok2 : world_ok w0 (set_agents ag2 w1))
    by (apply (world_ok_frame w0 w1); [exact Hok1|exact (eq_trans Hf2 E1)|done..]).
  destruct (select_capability_aware_committee _ req k) as [committee|]; [|by injection Hrun as <- <-].
  destruct (add_i64 md (je_now env) _) as [deadline|]; [|done]. cbn [mbind option_bind] in Hrun.
  destruct (send_each _ _ ag2) as [[|e] ag3] eqn:E3; apply send_each_fleet in E3;
    [|injection Hrun as <- <-; apply (world_ok_frame w0 (set_agents ag2 w1)); [exact Hok2|exact E3|done..]].
  destruct (collect_attestations _ _ _ _ ag3 _) as [c ag4] eqn:E4.
  apply collect_attestations_spec in E4 as [Hf4 _].
  eapply settle_ok; [|exact Hrun].
  apply (world_ok_frame w0 (set_agents ag2 w1)); [exact Hok2|exact (eq_trans Hf4 E3)|done..].
Qed.

Lemma reachable_ok w0 w1 w : rtc job_step w1 w → world_ok w0 w1 → world_ok w0 w.
Proof. induction 1 as [|w1 w2 w3 Hst _ IH]; [done|]. intros Hok. by eapply IH, run_one_job_ok. Qed.

Lemma world_ok_rebase w0 w : world_ok w0 w → world_ok w w.
Proof.
  intros (Hf & Hs & Hp & _ & Hr). split; [done|]. split; [done|]. split; [done|].
  split; [exists []; by rewrite app_nil_r|done].
Qed.

(** ** No panic *)

(** What rules panics out: every runner registered once, and room for twice the
    stake. *)
Definition sized (w : world) : Prop :=
  NoDup (fleet_of (w_agents w)).*1 ∧ stake_ok (stakes (w_ledger w)) ∧
  2 * total (stakes (w_ledger w)) <= u64_max.

(** A committee without repetitions holds no more than the whole stake. *)
Lemma committee_stake_le committee stake :
  stake_ok stake → NoDup committee →
  0 <= sumz ((λ id, default 0 (stake !! id)) <$> committee) <= total stake.
Proof.
  intros Hs Hnd.
  pose proof (responding_le_total committee ((λ id, mkVote id VoteResult_Pass) <$> committee) stake Hs Hnd) as Hr.
  rewrite filter_all in Hr.
  - apply Hr. intros v Hv. apply list_elem_of_fmap in Hv as (id & -> & Hid). done.
  - intros id Hid. apply elem_of_list_to_set. rewrite <-list_fmap_compose. apply list_elem_of_fmap.
    by exists id.
Qed.

Lemma committee_threshold_some committee stake :
  stake_ok stake → 2 * total stake <= u64_max → NoDup committee →
  committee_threshold md committee stake =
  Some (div_ceil (2 * sumz ((λ id, default 0 (stake !! id)) <$> committee)) 3).
Proof.
  intros Hs Ht Hnd. pose proof (committee_stake_le committee stake Hs Hnd) as Hc.
  unfold committee_threshold. rewrite sum64_small.
  - cbn [mbind option_bind]. unfold mul64. rewrite fit64_small by u64_lia. cbn [mbind option_bind].
    by rewrite Z.mul_comm.
  - apply Forall_fmap, Forall_true. intros id. simpl. by apply weight_of_nonneg.
  - lia.
Qed.

Lemma slash_total_le c atts fraction l :
  stake_ok (stakes l) → total (stakes (slash_minority c atts fraction l).2) <= total (stakes l).
Proof.
  intros [Hs Ht]. unfold slash_minority.
  pose proof (foldl_slash_conserves c (clamp01 fraction) atts [] l Hs) as Hc.
  destruct (foldl_slash_events c (clamp01 fraction) atts [] l Hs) as (new & Hnew & Hok).
  simpl in Hnew. rewrite Hnew in Hc. unfold sumz in Hc at 2. simpl in Hc.
  assert (0 <= sumz (se_slashed <$> new)); [|lia].
  apply sumz_nonneg, Forall_fmap. eapply Forall_impl; [exact Hok|]. intros ev (_ & Hsl & Hb). simpl. lia.
Qed.

Lemma committee_nodup (agents : list RegisteredAgent) claims req k committee :
  claims.*1 `sublist_of` (fleet_of agents).*1 → NoDup (fleet_of agents).*1 →
  select_capability_aware_committee (candidates_of agents claims) req k = Some committee → NoDup committee.
Proof.
  intros Hsub Hnd Hsel. unfold select_capability_aware_committee in Hsel. case_decide; [done|].
  injection Hsel as <-. rewrite fmap_take. eapply sublist_NoDup; [|apply sublist_take].
  rewrite stable_sort_perm. apply NoDup_fmap_filter.
  eapply sublist_NoDup; [|apply candidates_ids]. by eapply sublist_NoDup.
Qed.

Lemma anchor_some env job_id pipeline atts artifact w :
  is_Some (anchor env job_id pipeline atts artifact w) ∧
  ∀ r w', anchor env job_id pipeline atts artifact w = Some (r, w') →
    w_agents w' = w_agents w ∧ w_ledger w' = w_ledger w.
Proof.
  unfold anchor. destruct (backend_append (je_log_io env) artifact (w_log w)) as [[pos|e] log] eqn:E;
    [|split; [by eexists|by intros r w' [= <- <-]]].
  assert (is_Some (backend_root log)) as [rt ->].
  { destruct (w_log w) as [l|l]; simpl in E;
      [unfold MerkleLog.append in E; simpl in E; injection E as <- <-|
       destruct (MerkleLog.append _ _ _) as [? l'] eqn:E'; simplify_eq; apply append_entries in E'];
      simpl; unfold root, MerkleLog.is_empty; simpl in *;
      (rewrite bool_decide_eq_false_2;
       [apply mt_root_some; by destruct (log_entries l); rewrite ?E'|by rewrite ?E'; destruct (log_entries l)]). }
  split; [by eexists|]. by intros r w' [= <- <-].
Qed.

Lemma settle_some env job_id pipeline fraction committee atts w :
  sized w → NoDup committee →
  ∃ r w', settle hash_order md env job_id pipeline fraction committee atts w = Some (r, w') ∧ sized w'.
Proof.
  intros (Hf & Hs & Ht) Hnd. unfold settle, as_stake_map.
  rewrite committee_threshold_some by done. cbn [mbind option_bind].
  rewrite aggregate_decides by done. cbn [mbind option_bind].
  set (outcome := decide_outcome _ _ _ _). set (w1 := journaled _ w). set (w2 := if _ && _ then _ else w1).
  assert (Hw2 : sized w2).
  { unfold w2. destruct (_ && _); [|done]. split; [done|]. simpl. split; [by apply slash_stake_ok|].
    pose proof (slash_total_le (consensus_artifact hash_order atts) atts fraction (w_ledger w) Hs). simpl. lia. }
  case_bool_decide; [|by eexists _, _].
  destruct (anchor_some env job_id pipeline atts (consensus_artifact hash_order atts) w2) as [[[r w'] Hr] Hfr].
  exists r, w'. split; [done|]. destruct (Hfr r w' Hr) as [Ha Hl]. unfold sized. by rewrite Ha, Hl.
Qed.

(** The deadline of a job fits [i64]. *)
Definition clock_ok (env : job_env) : Prop := - 2 ^ 63 <= je_now env < 2 ^ 63 - 60000000000.

(** A job either leaves a sized world or panicked on the deadline. *)
Lemma run_one_job_sized env job_id k pipeline req fraction con w :
  sized w →
  ¬ clock_ok env ∧ md = Checked ∧ run_one_job hash_order md env job_id k pipeline req fraction con w = None ∨
  ∃ r w', run_one_job hash_order md env job_id k pipeline req fraction con w = Some (r, w') ∧ sized w'.
Proof.
  intros Hw. unfold run_one_job. set (w1 := journaled (JournalEntry_JobSubmitted job_id) w).
  assert (Hfr : ∀ w' : world, fleet_of (w_agents w') = fleet_of (w_agents w) → w_ledger w' = w_ledger w → sized w').
  { intros w' Hf Hl. unfold sized. rewrite Hf, Hl. exact Hw. }
  destruct (send_each _ _ (w_agents w1)) as [[|e] ag1] eqn:E1; apply send_each_fleet in E1;
    [|right; eexists _, _; split; [done|by apply Hfr]].
  destruct (collect_claims _ _ ag1) as [[claims|e] ag2] eqn:E2; apply collect_claims_spec in E2 as [Hf2 Hc2];
    [|right; eexists _, _; split; [done|apply Hfr; [exact (eq_trans Hf2 E1)|done]]].
  specialize (Hc2 claims eq_refl). rewrite <-Hf2 in Hc2.
  destruct (select_capability_aware_committee _ req k) as [committee|] eqn:Es;
    [|right; eexists _, _; split; [done|apply Hfr; [exact (eq_trans Hf2 E1)|done]]].
  assert (Hnd : NoDup committee).
  { eapply committee_nodup; [exact Hc2| |exact Es]. rewrite Hf2, E1. apply Hw. }
  destruct (add_i64 md (je_now env) _) as [deadline|] eqn:Ed; cbn [mbind option_bind];
    [right|left].
  2: { unfold clock_ok. unfold add_i64 in Ed. case_decide; [done|]. destruct md; [|done]. split; [lia|done]. }
  destruct (send_each _ _ ag2) as [[|e] ag3] eqn:E3; apply send_each_fleet in E3;
    [|eexists _, _; split; [done|apply Hfr; [exact (eq_trans E3 (eq_trans Hf2 E1))|done]]].
  destruct (collect_attestations _ _ _ _ ag3 _) as [c ag4] eqn:E4.
  apply collect_attestations_spec in E4 as [Hf4 _].
  apply settle_some; [|done]. apply Hfr; [exact (eq_trans Hf4 (eq_trans E3 (eq_trans Hf2 E1)))|done].
Qed.

Lemma reachable_sized w0 w : sized w0 → rtc job_step w0 w → sized w.
Proof.
  intros Hw0 Hreach. induction Hreach as [|w1 w2 w3 Hst _ IH]; [done|]. apply IH.
  destruct Hst as [e j n p q f c w1 r w2 Hrun].
  destruct (run_one_job_sized e j n p q f c w1 Hw0) as [(_ & _ & ?)|(r' & w' & Hrun' & Hs)]; congruence.
Qed.

(** ** What backs a record *)

(** The committee of a job in a world: the VRF claims its agents make on the
    job's seed, the candidates among them, and the selection by capabilities. *)
Definition drawn_committee (w : world) (job_id : Z) (req : JobRequirements) (k : nat) : option (list Z) :=
  match send_each (λ _, true) (Envelope_JobSeed job_id (job_seed_bytes job_id)) (w_agents w) with
  | (Ok _, agents) =>
      match collect_claims job_id (job_seed_bytes job_id) agents with
      | (Ok claims, agents) => select_capability_aware_committee (candidates_of agents claims) req k
      | (Err _, _) => None
      end
  | (Err _, _) => None
  end.

Definition committee_stake (stake : StakeMap) (committee : list Z) : Z :=
  sumz (weight_of stake <$> committee).

(** The votes pass, in exact arithmetic: the runners the surviving votes for
    passing name hold two thirds of the committee's stake, and those named for
    failing do not. *)
Definition two_thirds (stake : StakeMap) (committee : list Z) (votes : list Vote) : Prop :=
  2 * committee_stake stake committee <= 3 * support stake VoteResult_Pass (latest votes) ∧
  3 * support stake VoteResult_Fail (latest votes) < 2 * committee_stake stake committee.

(** A record is backed in the world its job was run in: the committee is the one
    drawn there, its attestations are signed by different members of it with
    their registered keys, with the ledger's stake of that moment the votes
    reach the threshold for passing and not for failing, which in a sized world
    is two thirds of the committee's stake exactly, and no artifact was attested
    more often than the recorded one. *)
Definition backed (w : world) (job_id : Z) (req : JobRequirements) (k : nat) (r : JobRecord) : Prop :=
  let atts := jr_committee_attestations r in
  let stake := stakes (w_ledger w) in
  ∃ committee threshold,
    drawn_committee w job_id req k = Some committee ∧ committee ⊆ (fleet_of (w_agents w)).*1 ∧
    signed_by (fleet_of (w_agents w)) committee atts ∧
    committee_threshold md committee stake = Some threshold ∧
    support stake VoteResult_Fail (latest (vote_of <$> atts)) < threshold <=
      support stake VoteResult_Pass (latest (vote_of <$> atts)) ∧
    (sized w → two_thirds stake committee (vote_of <$> atts)) ∧
    ∀ h, count_artifact h atts <= count_artifact (jr_consensus_artifact r) atts.

(** A threshold without overflow is two thirds, rounded up. *)
Lemma two_thirds_threshold committee stake votes threshold :
  stake_ok stake → 2 * total stake <= u64_max → NoDup committee →
  committee_threshold md committee stake = Some threshold →
  support stake VoteResult_Fail (latest votes) < threshold <= support stake VoteResult_Pass (latest votes) →
  two_thirds stake committee votes.
Proof.
  intros Hs Ht Hnd. rewrite committee_threshold_some by done. intros [= <-].
  fold (weight_of stake). fold (committee_stake stake committee). unfold two_thirds, div_ceil.
  pose proof (Z.div_mod (2 * committee_stake stake committee) 3 ltac:(lia)) as Hd.
  pose proof (Z.mod_pos_bound (2 * committee_stake stake committee) 3 ltac:(lia)) as Hm.
  destruct (Z.eqb_spec (2 * committee_stake stake committee mod 3) 0); lia.
Qed.

(** The phases from the votes on record at most the job, when the votes pass. *)
Lemma settle_records env job_id pipeline fraction committee atts w r w' :
  settle hash_order md env job_id pipeline fraction committee atts w = Some (r, w') →
  w_records w' = w_records w ∨
  ∃ x threshold, w_records w' = <[job_id := x]> (w_records w) ∧
    jr_pipeline_hash x = hash_bytes (cbor_bytes (cb_pipeline pipeline)) ∧ jr_committee_attestations x = atts ∧
    jr_consensus_artifact x = consensus_artifact hash_order atts ∧
    committee_threshold md committee (stakes (w_ledger w)) = Some threshold ∧
    aggregate md (vote_of <$> atts) threshold (stakes (w_ledger w)) = Some Outcome_Pass.
Proof.
  unfold settle, as_stake_map.
  destruct (committee_threshold _ _ _) as [threshold|]; [|done]. cbn [mbind option_bind].
  destruct (aggregate _ _ _ _) as [outcome|] eqn:Ea; [|done]. cbn [mbind option_bind].
  set (w2 := if _ && _ then _ else _).
  assert (Hw2 : w_records w2 = w_records w) by (unfold w2; by destruct (_ && _)).
  clearbody w2. case_bool_decide as Hpass; [|intros [= <- <-]; by left]. subst outcome. unfold anchor.
  destruct (backend_append _ _ _) as [[pos|e] log]; [|intros [= <- <-]; by left].
  destruct (backend_root log); [|done]. cbn [mbind option_bind]. intros [= <- <-]. right.
  eexists _, threshold. split; [simpl; by rewrite Hw2|done].
Qed.

(** A job adds at most its own record, with the hash of its pipeline, backed in
    the world it was run in. *)
Lemma run_one_job_records env job_id k pipeline req fraction con w r w' :
  run_one_job hash_order md env job_id k pipeline req fraction con w = Some (r, w') →
  w_records w' = w_records w ∨
  ∃ x, w_records w' = <[job_id := x]> (w_records w) ∧
    jr_pipeline_hash x = hash_bytes (cbor_bytes (cb_pipeline pipeline)) ∧
    ((∀ m, hash_order m ≡ₚ map_to_list m) → stake_ok (stakes (w_ledger w)) → backed w job_id req k x).
Proof.
  unfold run_one_job, backed, drawn_committee. cbn [w_agents journaled].
  destruct (send_each _ _ _) as [[|e] ag1] eqn:E1; [|intros [= <- <-]; by left]. apply send_each_fleet in E1.
  destruct (collect_claims _ _ _) as [[claims|e] ag2] eqn:E2; [|intros [= <- <-]; by left].
  apply collect_claims_spec in E2 as [Hf2 Hc2]. specialize (Hc2 claims eq_refl). rewrite <-Hf2 in Hc2.
  destruct (select_capability_aware_committee _ _ _) as [committee|] eqn:Es; [|intros [= <- <-]; by left].
  destruct (add_i64 _ _ _) as [deadline|]; [|done]. cbn [mbind option_bind].
  destruct (send_each _ _ _) as [[|e] ag3] eqn:E3; [|intros [= <- <-]; by left]. apply send_each_fleet in E3.
  destruct (collect_attestations _ _ _ _ _ _) as [c ag4] eqn:E4.
  apply collect_attestations_spec in E4 as [_ (atts & Hatts & Hsig)]. cbn [cl_attestations app] in Hatts.
  intros Hset. apply settle_records in Hset. cbn [w_ledger w_records set_agents journaled] in Hset.
  destruct Hset as [Heq|(x & threshold & Hx & Hhash & Hat & Hart & Ht & Hv)]; [by left|right].
  exists x. split; [done|]. split; [done|]. intros Ho Hs. rewrite <-Hat in Hv, Hart.
  rewrite aggregate_decides in Hv by done. injection Hv as Hv.
  assert (Hag : fleet_of ag2 = fleet_of (w_agents w)) by exact (eq_trans Hf2 E1).
  assert (Hq : support (stakes (w_ledger w)) VoteResult_Fail (latest (vote_of <$> jr_committee_attestations x)) < threshold
    <= support (stakes (w_ledger w)) VoteResult_Pass (latest (vote_of <$> jr_committee_attestations x))).
  { unfold decide_outcome in Hv. repeat case_match; try done. zbool. lia. }
  exists committee, threshold. split; [done|]. split; [rewrite <-Hag; by eapply committee_in_fleet|]. split.
  { rewrite Hat, Hatts, <-Hag, <-E3. exact Hsig. }
  split; [done|]. split; [done|]. split; [|intros h; rewrite Hart; by apply consensus_plurality].
  intros (Hnd & _ & Htot). eapply two_thirds_threshold; [done|done| |exact Ht|exact Hq].
  eapply committee_nodup; [exact Hc2| |exact Es]. by rewrite Hag.
Qed.

(** A record of a reachable world was there or comes from one of the jobs. *)
Lemma reachable_records w0 w1 w job r :
  (∀ m, hash_order m ≡ₚ map_to_list m) → world_ok w0 w1 → rtc job_step w1 w → w_records w !! job = Some r →
  w_records w1 !! job = Some r ∨
  ∃ w2 w3 k req, rtc job_step w1 w2 ∧ job_step w2 w3 ∧ rtc job_step w3 w ∧ backed w2 job req k r.
Proof.
  intros Ho Hok Hreach Hr. induction Hreach as [|w1 w2 w Hst Hreach IH]; [by left|].
  assert (Hok2 : world_ok w0 w2) by by eapply run_one_job_ok.
  destruct (IH Hok2 Hr) as [Hr2|(w3 & w4 & k & req & Ha & Hb & Hc & Hd)].
  - pose proof Hst as Hst'. destruct Hst' as [env job_id k pipeline req fraction con v1 res v2 Hrun].
    destruct Hok as (_ & Hs & _). apply run_one_job_records in Hrun.
    destruct Hrun as [Heq|(x & Heq & _ & Hback)]; rewrite Heq in Hr2; [by left|].
    rewrite lookup_insert in Hr2. case_decide; [|by left]. simplify_eq. right.
    exists v1, v2, k, req. split_and!; [apply rtc_refl|exact Hst|done|by apply Hback].
  - right. exists w3, w4, k, req. split_and!; try done. by eapply rtc_l.
Qed.

(** * Theorems *)

(** Whatever the agents send, whatever I/O fails and however hash maps are
    iterated, every job the coordinator has recorded was run in a world in which
    the record is backed (by attestations that members of the committee drawn
    there signed, whose votes reach two thirds of its stake in the ledger), and
    the read API answers for it with a bundle whose Merkle proof of exactly the
    recorded artifact verifies; later jobs never change that answer, and the
    log only grows. *)
Theorem coordinator_records_sound w0 w job r captures_on :
  (∀ m, hash_order m ≡ₚ map_to_list m) →
  stake_ok (stakes (w_ledger w0)) → backend_pos_ok (w_log w0) → w_records w0 = ∅ →
  rtc job_step w0 w → w_records w !! job = Some r →
  (∃ w1 w2 k req, rtc job_step w0 w1 ∧ job_step w1 w2 ∧ rtc job_step w2 w ∧ backed w1 job req k r) ∧
  (∃ new, backend_entries (w_log w) = backend_entries (w_log w0) ++ new) ∧
  ∃ b, handle_read captures_on w (Envelope_GetJob job) = Some (Envelope_JobBundleResponse b) ∧
    verify_inclusion (jb_merkle_proof b) (jb_log_root b) = true ∧
    ip_entry (jb_merkle_proof b) = jr_consensus_artifact r ∧
    jb_committee_attestations b = jr_committee_attestations r ∧
    ∀ w', rtc job_step w w' → w_records w' !! job = Some r →
      handle_read captures_on w' (Envelope_GetJob job) = Some (Envelope_JobBundleResponse b).
Proof.
  intros Ho Hs Hp Hr Hreach Hjob.
  assert (Hok0 : world_ok w0 w0).
  { split_and!; try done; [exists []; by rewrite app_nil_r|]. intros ? ?. by rewrite Hr, lookup_empty. }
  assert (Hok : world_ok w0 w) by by eapply reachable_ok.
  destruct (Hok) as (_ & _ & _ & Hgrow & Hrec). destruct (Hrec job r Hjob) as (Hid & Hanch).
  split; [|split; [done|]].
  { destruct (reachable_records w0 w0 w job r Ho Hok0 Hreach Hjob) as [Hold|Hback]; [|exact Hback].
    by rewrite Hr, lookup_empty in Hold. }
  destruct (backend_bundle (w_log w) (w_records w) job r Hjob Hanch) as (b & Hb & Hv & He & Hart & Hatts & _).
  exists b. unfold handle_read. rewrite Hb. split; [done|]. split; [done|]. split; [congruence|]. split; [done|].
  intros w' Hreach' Hjob'. assert (Hok' : world_ok w w').
  { eapply reachable_ok; [exact Hreach'|]. by apply (world_ok_rebase w0). }
  destruct Hok' as (_ & _ & _ & (new & Hnew) & _).
  by rewrite (backend_bundle_extend (w_log w) (w_log w') (w_records w) (w_records w') new job r), Hb.
Qed.

(** With every runner registered once and twice the total stake within
    [u64] at the start, no job of a run ever panics, whatever the build's
    overflow mode, what the agents send and which I/O fails, as long as the wall
    clock leaves room for the job's deadline in [i64]; a release build, whose arithmetic wraps, panics in no case. *)
Theorem coordinator_never_panics w0 w env job_id k pipeline req fraction captures_on :
  sized w0 → rtc job_step w0 w →
  let job := run_one_job hash_order md env job_id k pipeline req fraction captures_on w in
  (clock_ok env → is_Some job) ∧ (job = None → md = Checked).
Proof.
  intros Hw0 Hreach. pose proof (reachable_sized w0 w Hw0 Hreach) as Hw. cbv zeta.
  destruct (run_one_job_sized env job_id k pipeline req fraction captures_on w Hw)
    as [(Hc & Hmd & Hrun)|(r & w' & Hrun & _)]; rewrite Hrun; (split; [intros Hok|intros Hnone]); try done.
Qed.

End reachable.

(** * Examples *)

Import (hints) Toy ToyTree ToyJson ToyCbor.

(** A VRF whose output is the public key. *)
Module ToyVrf.

#[export] Instance toy_schnorrkel : Schnorrkel := {|
  VrfSecret := bytes;
  expand_to_keypair seed := seed;
  public_to_bytes k := k;
  vrf_sign k _ r := (k, r);
  public_from_bytes _ := true;
  preout_from_bytes _ := true;
  proof_from_bytes _ := true;
  vrf_verify pk _ o _ := bool_decide (o = pk);
|}.

#[export] Instance toy_schnorrkel_laws : SchnorrkelLaws.
Proof. split; [done| |done]. intros k t r. simpl. split; [done|]. split; [done|]. by apply bool_decide_eq_true_2. Qed.

#[export] Instance toy_captures_cbor : CapturesCbor := {|
  captures_into _ := Some [];
  captures_from _ := None;
|}.

End ToyVrf.
Import (hints) ToyVrf.

Definition wasm_caps : Capabilities := mkCapabilities 4 4096 Platform_LinuxX86_64 {[Runtime_Wasm]}.
Definition wasm_req : JobRequirements := mkJobRequirements 1 256 Platform_LinuxX86_64 {[Runtime_Wasm]}.

(** A passing attestation of [artifact] that claims to come from [claimed],
    signed with the key [key]. *)
Definition signed_attestation (key claimed : Z) (artifact : bytes) : Attestation :=
  sign_with (mkKeypair key)
    (mkAttestation VERSION (replicate 16 1) (replicate 32 66) claimed AttestationResult_Pass
       (replicate 32 238) artifact 0 (replicate 64 0)).

(** An agent that answers the VRF round and then sends [reply]. *)
Definition demo_agent (id stake : Z) (reply : result Envelope wire_error) : RegisteredAgent :=
  mkRegisteredAgent _ id
    (mkStream (λ n _, match n with O => Ok (Envelope_VrfClaim 1 [id] [0]) | _ => reply end) 0 [] [])
    id [id] stake wasm_caps.

Definition reply_with (att : Attestation) : result Envelope wire_error :=
  Ok (Envelope_SubmitAttestation (mkAttestationBundle att [])).

Definition demo_world (agents : list RegisteredAgent) : world :=
  mkWorld agents (from_stake_map (stake_map_from_pairs ((λ a, (ra_runner_id a, ra_stake a)) <$> agents)))
    (LogBackend_Mem MerkleLog.new) ∅ (Some (mkJournalFile [] [])) ∅.

Definition demo_job (order : gmap (list Z) Z → list (list Z * Z)) (k : nat) (w : world) :
    option (result unit job_error * world) :=
  run_one_job order Checked (mkJobEnv 0 io_fine (λ _, File_done)) 1 k (mkPipeline []) wasm_req
    (S754_finite false 8388608 (-25)) false w.

Definition after (r : option (result unit job_error * world)) (w : world) : world :=
  match r with Some (_, w') => w' | None => w end.

(** Two of three members attest one artifact, the third times out. *)
Definition honest_world : world :=
  demo_world [demo_agent 1 10 (reply_with (signed_attestation 1 1 (replicate 32 7)));
              demo_agent 2 10 (reply_with (signed_attestation 2 2 (replicate 32 7)));
              demo_agent 3 10 (Err WireError_Io)].

Lemma coordinator_records_sound_witness :
  ∃ w r b, rtc (job_step map_to_list Checked) honest_world w ∧ w_records w !! 1 = Some r ∧
    handle_read false w (Envelope_GetJob 1) = Some (Envelope_JobBundleResponse b) ∧
    verify_inclusion (jb_merkle_proof b) (jb_log_root b) = true.
Proof.
  assert (Hrec : is_Some (w_records (after (demo_job map_to_list 3 honest_world) honest_world) !! 1)).
  { apply (bool_decide_unpack _). vm_compute. done. }
  destruct (demo_job map_to_list 3 honest_world) as [[r0 w]|] eqn:E; [|by destruct Hrec].
  destruct Hrec as [r Hr]. cbn [after] in Hr.
  assert (Hst : rtc (job_step map_to_list Checked) honest_world w) by (apply rtc_once; by eapply job_step_run).
  destruct (coordinator_records_sound map_to_list Checked honest_world w 1 r false) as (_ & _ & b & Hb & Hv & _).
  - done.
  - apply (bool_decide_unpack _). vm_compute. done.
  - reflexivity.
  - reflexivity.
  - exact Hst.
  - exact Hr.
  - exists w, r, b. split; [exact Hst|]. split; [exact Hr|]. split; [exact Hb|exact Hv].
Defined.

Lemma coordinator_never_panics_witness :
  is_Some (demo_job map_to_list 3 honest_world).
Proof.
  refine (proj1 (coordinator_never_panics map_to_list Checked honest_world honest_world _ _ _ _ _ _ _ _ _) _).
  - split; [apply (bool_decide_unpack _); vm_compute; done|].
    split; [apply (bool_decide_unpack _); vm_compute; done|]. vm_compute. done.
  - apply rtc_refl.
  - unfold clock_ok. simpl. lia.
Defined.

(** Three members that all pass with three different artifacts reach a quorum,
    and which artifact is anchored is up to the iteration order of a hash map. *)
Definition divided_world : world :=
  demo_world [demo_agent 1 10 (reply_with (signed_attestation 1 1 (replicate 32 7)));
              demo_agent 2 10 (reply_with (signed_attestation 2 2 (replicate 32 8)));
              demo_agent 3 10 (reply_with (signed_attestation 3 3 (replicate 32 9)))].

Example pass_without_agreement :
  let entries order := backend_entries (w_log (after (demo_job order 3 divided_world) divided_world)) in
  length (entries map_to_list) = 1%nat ∧ entries map_to_list ≠ entries (λ m, reverse (map_to_list m)).
Proof. vm_compute. split; [reflexivity|discriminate]. Qed.

(** A vote weighs what the runner it names has staked, not its signer: in a
    committee of two runners with a stake of one, one of them passes the job
    alone by naming a third runner with a larger stake. *)
Definition usurped_world (claimed : Z) : world :=
  demo_world [demo_agent 1 1 (reply_with (signed_attestation 1 claimed (replicate 32 7)));
              demo_agent 2 1 (Err WireError_Io); demo_agent 3 100 (Err WireError_Io)].

Example vote_weighs_claimed_runner :
  let anchored_by claimed :=
    length (backend_entries (w_log (after (demo_job map_to_list 2 (usurped_world claimed))
      (usurped_world claimed)))) in
  anchored_by 1 = 0%nat ∧ anchored_by 3 = 1%nat.
Proof. vm_compute. split; reflexivity. Qed.
