(* ===== verification/Agent.v ===== *)
(** The agent, and its protocol with the coordinator
    (src/bins/cosaci-agent/src/main.rs).

    An agent is what it sends in answer to what it receives: [agent_step] is one
    iteration of its loop, with the randomness of the VRF proof and the
    behaviour of the machine it runs the pipeline on as the [agent_env] of that
    iteration. [peer] plugs the agent into a connection of the coordinator, and
    the theorem runs both sides against each other: a fleet of agents that agree
    on an artifact has it anchored, and nobody is slashed. *)

From Stdlib Require Import Floats.SpecFloat.
From S2P Require Import Prelude Quorum PartialQuorum Attestation StakeLedger Capabilities MerkleLog.
From S2P Require Import Retrieval Text Enrollment Journal Pipeline Wire Vrf Coordinator.

(** * The agent *)

Section agent.
Context `{Cbor} `{Sha256} `{Ed25519} `{CborBytes} `{Schnorrkel}.

Record agent := mkAgent {
  ag_runner_id : Z;
  ag_stake : Z;
  ag_signing : Keypair;
  ag_vrf : VrfKeypair;
}.

Definition u64_to_uuid (id : Z) : bytes := le_bytes 8 id ++ replicate 8 0.

(** The keys of [main], derived from the id. *)
Definition agent_of_id (id stake : Z) : agent :=
  mkAgent id stake (Attestation.from_seed (le_bytes 8 id ++ replicate 24 0))
    (Vrf.from_seed (le_bytes 8 id ++ 255 :: replicate 23 0)).

Definition agent_capabilities : Capabilities :=
  mkCapabilities 4 4096 Platform_LinuxX86_64 {[Runtime_Wasm]}.

(** What one iteration depends on: the randomness of a VRF proof, and the
    machine the steps of a pipeline run on. *)
Record agent_env := mkAgentEnv { ae_random : bytes; ae_steps : nat → step_env }.

Definition registration (r : bytes) (a : agent) : Envelope :=
  let '(reg_vrf_output, reg_vrf_proof) := Vrf.evaluate r (ag_vrf a) VRF_REGISTRATION_CHALLENGE in
  Envelope_Register (ag_runner_id a) (vk_to_bytes (verifying_key (ag_signing a))) (public_key_bytes (ag_vrf a))
    reg_vrf_output reg_vrf_proof (ag_stake a) agent_capabilities.

(** The attestation of a finished pipeline. *)
Definition attest (a : agent) (job_id deadline_unix_ns : Z) (artifact : bytes) : Attestation :=
  sign_with (ag_signing a)
    (mkAttestation VERSION (u64_to_uuid job_id) (replicate 32 66) (ag_runner_id a) AttestationResult_Pass
       (replicate 32 238) artifact deadline_unix_ns (replicate 64 0)).

(** What the loop does with an envelope: it answers, goes on without an answer,
    or leaves the loop. A pipeline that fails ends the process; one that never
    ends leaves it in the iteration. *)
Inductive reaction := Reaction_reply (e : Envelope) | Reaction_ignore | Reaction_end.

Definition react (env : agent_env) (a : agent) (e : Envelope) : reaction :=
  match e with
  | Envelope_JobSeed job_id seed =>
      let '(output, proof) := Vrf.evaluate (ae_random env) (ag_vrf a) seed in
      Reaction_reply (Envelope_VrfClaim job_id output proof)
  | Envelope_Assign job_id pipeline _ deadline_unix_ns =>
      match execute_pipeline (ae_steps env) pipeline with
      | Some (Ok result) =>
          Reaction_reply (Envelope_SubmitAttestation
            (mkAttestationBundle (attest a job_id deadline_unix_ns (pr_final_artifact_hash result))
               (pr_captures result)))
      | Some (Err _) | None => Reaction_end
      end
  | Envelope_Shutdown => Reaction_end
  | _ => Reaction_ignore
  end.

Inductive phase := Phase_registering | Phase_running | Phase_ended.

(** The agent after some envelopes: what it has sent, and where it stands. *)
Record agent_state := mkAgentState { as_sent : list Envelope; as_received : nat; as_phase : phase }.

(** The state once the registration is sent. *)
Definition agent_start (envs : nat → agent_env) (a : agent) : agent_state :=
  mkAgentState [registration (ae_random (envs O)) a] 0 Phase_registering.

Definition agent_step (envs : nat → agent_env) (a : agent) (st : agent_state) (e : Envelope) : agent_state :=
  let n := S (as_received st) in
  match as_phase st with
  | Phase_registering =>
      mkAgentState (as_sent st) n match e with Envelope_RegisterAck => Phase_running | _ => Phase_ended end
  | Phase_running =>
      match react (envs n) a e with
      | Reaction_reply e' => mkAgentState (as_sent st ++ [e']) n Phase_running
      | Reaction_ignore => mkAgentState (as_sent st) n Phase_running
      | Reaction_end => mkAgentState (as_sent st) n Phase_ended
      end
  | Phase_ended => st
  end.

Definition agent_after (envs : nat → agent_env) (a : agent) (inbox : list Envelope) : agent_state :=
  foldl (agent_step envs a) (agent_start envs a) inbox.

Lemma agent_after_snoc envs a out e :
  agent_after envs a (out ++ [e]) = agent_step envs a (agent_after envs a out) e.
Proof. unfold agent_after. by rewrite foldl_app. Qed.

#[local] Arguments agent_after : simpl never.

(** The agent as the peer of a connection: the [n]-th read gets the [n]-th
    envelope it sent, or times out. *)
Definition peer (envs : nat → agent_env) (a : agent) (n : nat) (out : list Envelope) :
    result Envelope wire_error :=
  match as_sent (agent_after envs a out) !! n with Some e => Ok e | None => Err WireError_Io end.

Definition connection (envs : nat → agent_env) (a : agent) : stream := mkStream (peer envs a) 0 [] [].

(** * Both sides in step *)

(** The coordinator's side of the connection belongs to the agent, which is in
    its loop, and the coordinator has read all but the envelopes [pending]. *)
Definition in_step (pending : list Envelope) (p : agent * (nat → agent_env)) (ra : RegisteredAgent) : Prop :=
  let '(a, envs) := p in
  let s := ra_stream ra in
  let st := agent_after envs a (st_out s) in
  ra_runner_id ra = ag_runner_id a ∧ ra_signing_pk ra = verifying_key (ag_signing a) ∧
  ra_vrf_pk ra = public_key_bytes (ag_vrf a) ∧ ra_stake ra = ag_stake a ∧
  ra_capabilities ra = agent_capabilities ∧
  st_peer s = peer envs a ∧ st_writes s = [] ∧ as_phase st = Phase_running ∧
  ∃ seen, as_sent st = seen ++ pending ∧ st_reads s = length seen.

(** An envelope the agent answers is written, and its answer is pending. *)
Lemma send_in_step p ra e e' :
  in_step [] p ra → (∀ n, react (p.2 n) p.1 e = Reaction_reply (e' n)) →
  ∃ s n, send e (ra_stream ra) = (Ok (), s) ∧ in_step [e' n] p (set_stream s ra).
Proof.
  destruct p as [a envs], ra as [id s pk vpk stake caps]. cbn [in_step ra_stream].
  intros (Hid & Hpk & Hvpk & Hst & Hcap & Hp & Hw & Hph & seen & Hsent & Hreads) Hr.
  unfold send. cbn [ra_stream]. rewrite Hw. eexists _, _. split; [done|]. cbn [in_step set_stream ra_stream st_out].
  rewrite agent_after_snoc. unfold agent_step. rewrite Hph, Hr. split_and!; try done.
  exists seen. split; [|done]. cbn [as_sent]. by rewrite Hsent, app_nil_r.
Qed.

(** A pending answer is what the next read returns. *)
Lemma recv_in_step p ra e :
  in_step [e] p ra → ∃ s, recv (ra_stream ra) = (Ok e, s) ∧ in_step [] p (set_stream s ra).
Proof.
  destruct p as [a envs], ra as [id s pk vpk stake caps]. cbn [in_step ra_stream].
  intros (Hid & Hpk & Hvpk & Hst & Hcap & Hp & Hw & Hph & seen & Hsent & Hreads).
  unfold recv. cbn [ra_stream]. rewrite Hp. unfold peer. rewrite Hsent, Hreads, lookup_app_r, Nat.sub_diag by lia.
  eexists. split; [done|]. unfold set_stream. cbn. split_and!; try done.
  exists (seen ++ [e]). rewrite app_nil_r, length_app, Nat.add_1_r. by rewrite Hsent.
Qed.

(** ** Registration *)

Definition may_register (enrollment : option EnrollmentSet) (a : agent) : Prop :=
  match enrollment with
  | Some set => is_enrolled (ag_runner_id a) (fingerprint (vk_to_bytes (verifying_key (ag_signing a))))
                  (fingerprint (public_key_bytes (ag_vrf a))) set = true
  | None => True
  end.

Lemma register_in_step `{!Ed25519Laws} `{!SchnorrkelLaws} enrollment envs a :
  may_register enrollment a →
  ∃ ra, register_agent enrollment true (connection envs a) = Some ra ∧ in_step [] (a, envs) ra.
Proof.
  intros Hmay. unfold register_agent. cbn [negb].
  assert (Hrecv : recv (connection envs a) =
    (Ok (registration (ae_random (envs O)) a), mkStream (peer envs a) 1 [] [])) by done.
  rewrite Hrecv. unfold registration. pose proof (vrf_honest (ag_vrf a) VRF_REGISTRATION_CHALLENGE
    (ae_random (envs O)) []) as [Hv _].
  destruct (Vrf.evaluate _ _ _) as [o pr]. cbn [fst snd] in Hv. rewrite Hv. cbn [is_ok negb].
  assert (match enrollment with
    | Some set => is_enrolled (ag_runner_id a) (fingerprint (vk_to_bytes (verifying_key (ag_signing a))))
                    (fingerprint (public_key_bytes (ag_vrf a))) set
    | None => true end = true) as -> by by destruct enrollment.
  cbn [negb]. unfold verifying_key. rewrite vk_from_to. eexists. split; [done|].
  cbn. split_and!; try done. by eexists [_].
Qed.

(** A fleet of such agents is accepted, in the order of its connections. *)
Lemma accept_in_step `{!Ed25519Laws} `{!SchnorrkelLaws} enrollment (fleet : list (agent * (nat → agent_env))) done_ fleet0 :
  Forall (λ p, may_register enrollment p.1) fleet → Forall2 (in_step []) fleet0 done_ →
  ∃ agents, accept_fleet ((λ p, Accept_conn true (connection p.2 p.1)) <$> fleet) (length fleet + length done_)
      enrollment done_ = Some (Ok agents) ∧ Forall2 (in_step []) (fleet0 ++ fleet) agents.
Proof.
  revert done_ fleet0. induction fleet as [|[a envs] fleet IH]; intros agents fleet0 Hmay Hin.
  { exists agents. simpl. rewrite bool_decide_eq_true_2, app_nil_r by lia. done. }
  inversion Hmay as [|? ? Ha Hrest]; subst. destruct (register_in_step enrollment envs a Ha) as (ra & Hra & Hst).
  destruct (IH (agents ++ [ra]) (fleet0 ++ [(a, envs)])) as (agents' & Hacc & Hall); [done| |].
  { apply Forall2_app; [done|]. constructor; [exact Hst|constructor]. }
  exists agents'. rewrite length_app in Hacc. rewrite <-app_assoc in Hall. split; [|exact Hall].
  rewrite <-Hacc. cbn [fmap list_fmap accept_fleet length fst snd].
  rewrite bool_decide_eq_false_2, Hra by lia. f_equal. simpl. lia.
Qed.

(** ** The phases of a job *)

(** Writing to the selected agents leaves their answers pending. *)
Lemma send_each_in_step (sel : Z → bool) e (reply : agent * (nat → agent_env) → nat → Envelope) fleet agents :
  Forall2 (in_step []) fleet agents →
  (∀ p n, p ∈ fleet → sel (ag_runner_id p.1) = true → react (p.2 n) p.1 e = Reaction_reply (reply p n)) →
  ∃ agents', send_each (λ ra, sel (ra_runner_id ra)) e agents = (Ok (), agents') ∧
    Forall2 (λ p ra, if sel (ag_runner_id p.1) then ∃ n, in_step [reply p n] p ra else in_step [] p ra)
      fleet agents'.
Proof.
  intros Hin Hr. induction Hin as [|p ra fleet agents Hp Hin IH]; [by exists []|].
  destruct IH as (agents' & Hsend & Hall); [intros; apply Hr; [by right|done]|].
  assert (Hid : ra_runner_id ra = ag_runner_id p.1) by (destruct p; apply Hp).
  cbn [send_each]. rewrite Hid. destruct (sel (ag_runner_id p.1)) eqn:Esel.
  - destruct (send_in_step p ra e (reply p)) as (s & n & Hs & Hst); [done|intros; apply Hr; [by left|done]|].
    rewrite Hs, Hsend. eexists. split; [done|]. constructor; [rewrite Esel; by exists n|done].
  - rewrite Hsend. eexists. split; [done|]. constructor; [by rewrite Esel|done].
Qed.

Definition claim (job_id : Z) (seed : bytes) (p : agent * (nat → agent_env)) (n : nat) : Envelope :=
  let '(output, proof) := Vrf.evaluate (ae_random (p.2 n)) (ag_vrf p.1) seed in
  Envelope_VrfClaim job_id output proof.

Definition vrf_output_of (seed : bytes) (p : agent * (nat → agent_env)) : bytes :=
  (Vrf.evaluate [] (ag_vrf p.1) seed).1.

Lemma collect_claims_in_step `{!SchnorrkelLaws} job seed fleet agents :
  Forall2 (λ p ra, ∃ n, in_step [claim job seed p n] p ra) fleet agents →
  ∃ agents', collect_claims job seed agents =
      (Ok ((λ p, (ag_runner_id p.1, vrf_output_of seed p)) <$> fleet), agents') ∧
    Forall2 (in_step []) fleet agents'.
Proof.
  induction 1 as [|p ra fleet agents [n Hp] Hin (agents' & Hc & Hall)]; [by exists []|].
  destruct (recv_in_step p ra _ Hp) as (s & Hs & Hst).
  exists (set_stream s ra :: agents'). split; [|by constructor].
  cbn [collect_claims]. rewrite Hs, Hc. unfold claim.
  pose proof (vrf_honest (ag_vrf p.1) seed (ae_random (p.2 n)) []) as [Hv Ho].
  destruct p as [a envs]. destruct Hp as (Hid & _ & Hvpk & _). cbn [fst snd] in *.
  unfold vrf_output_of. cbn [fst].
  destruct (Vrf.evaluate (ae_random (envs n)) _ _) as [o pr]. cbn [fst snd] in *.
  rewrite Z.eqb_refl, Hvpk, Hv, Hid, Ho. done.
Qed.

Lemma agent_caps_lookup (l : list RegisteredAgent) (m : gmap Z Capabilities) i :
  Forall (λ ra, ra_capabilities ra = agent_capabilities) l →
  i ∈ ra_runner_id <$> l ∨ m !! i = Some agent_capabilities →
  foldl (λ m ra, <[ra_runner_id ra := ra_capabilities ra]> m) m l !! i = Some agent_capabilities.
Proof.
  intros Hl. revert m. induction Hl as [|ra l Hra Hl IH]; intros m Hi; simpl.
  { destruct Hi as [Hi|Hi]; [by apply not_elem_of_nil in Hi|done]. }
  apply IH. rewrite Hra. destruct (decide (ra_runner_id ra = i)) as [->|Hne]; [right; apply lookup_insert_eq|].
  rewrite lookup_insert_ne by done. csimpl in Hi. rewrite elem_of_cons in Hi. intuition congruence.
Qed.

Lemma in_step_ids pending fleet agents :
  Forall2 (in_step pending) fleet agents → ra_runner_id <$> agents = (λ p, ag_runner_id p.1) <$> fleet.
Proof.
  induction 1 as [|[a envs] ra fleet agents Hp Hin IH]; [done|]. csimpl. rewrite IH. f_equal. apply Hp.
Qed.

Lemma in_step_stakes pending fleet agents :
  Forall2 (in_step pending) fleet agents →
  (λ ra, (ra_runner_id ra, ra_stake ra)) <$> agents = (λ p, (ag_runner_id p.1, ag_stake p.1)) <$> fleet.
Proof.
  induction 1 as [|[a envs] ra fleet agents Hp Hin IH]; [done|]. csimpl. rewrite IH.
  destruct Hp as (-> & _ & _ & -> & _). done.
Qed.

Lemma in_step_caps pending fleet agents :
  Forall2 (in_step pending) fleet agents → Forall (λ ra, ra_capabilities ra = agent_capabilities) agents.
Proof. induction 1 as [|[a envs] ra fleet agents Hp Hin IH]; constructor; [apply Hp|done]. Qed.

(** Every agent of the fleet is a candidate, with its VRF output. *)
Lemma candidates_in_step seed fleet agents :
  Forall2 (in_step []) fleet agents →
  candidates_of agents ((λ p, (ag_runner_id p.1, vrf_output_of seed p)) <$> fleet) =
  (λ p, mkCandidate (ag_runner_id p.1) agent_capabilities (vrf_output_of seed p)) <$> fleet.
Proof.
  intros Hin. unfold candidates_of. set (m := foldl _ _ agents).
  assert (Hm : ∀ p, p ∈ fleet → m !! ag_runner_id p.1 = Some agent_capabilities).
  { intros p Hp. apply agent_caps_lookup.
    - by eapply in_step_caps.
    - left. rewrite (in_step_ids [] fleet) by done. apply list_elem_of_fmap. eauto. }
  clearbody m. clear Hin. induction fleet as [|p fleet IH]; [done|]. csimpl.
  rewrite Hm by left. csimpl. f_equal. apply IH. intros q Hq. apply Hm. by right.
Qed.

(** The answer to an assignment whose pipeline ends with the artifact [h]. *)
Definition submission (job_id deadline : Z) (pipeline : Pipeline) (h : bytes)
    (p : agent * (nat → agent_env)) (n : nat) : Envelope :=
  Envelope_SubmitAttestation (mkAttestationBundle (attest p.1 job_id deadline h)
    match execute_pipeline (ae_steps (p.2 n)) pipeline with Some (Ok r) => pr_captures r | _ => [] end).

(** Every committee member's attestation is collected, and none is missing. *)
Lemma collect_attestations_in_step `{!Ed25519Laws} `{JournalJson} `{CapturesCbor}
    job deadline pipeline h (committee : list Z) con cio fleet agents c :
  Forall2 (λ p ra, if bool_decide (ag_runner_id p.1 ∈ committee)
                   then ∃ n, in_step [submission job deadline pipeline h p n] p ra else in_step [] p ra)
    fleet agents →
  ∃ c' agents', collect_attestations job committee con cio agents c = (c', agents') ∧
    Forall2 (in_step []) fleet agents' ∧
    cl_attestations c' = cl_attestations c ++
      ((λ p, attest p.1 job deadline h) <$> filter (λ p, ag_runner_id p.1 ∈ committee) fleet) ∧
    cl_missing c' = cl_missing c.
Proof.
  intros Hin. revert c. induction Hin as [|p ra fleet agents Hp Hin IH]; intros c.
  { exists c, []. split; [done|]. split; [constructor|]. by rewrite app_nil_r. }
  assert (Hid : ra_runner_id ra = ag_runner_id p.1).
  { destruct p. case_bool_decide; [destruct Hp as [n Hp]|]; apply Hp. }
  cbn [collect_attestations]. rewrite Hid, filter_cons. case_bool_decide as Hc; cbn [negb].
  - destruct Hp as [n Hp]. rewrite decide_True by done.
    destruct (recv_in_step p ra _ Hp) as (s & Hs & Hst).
    assert (Hpk : ra_signing_pk ra = verifying_key (ag_signing p.1)) by (destruct p; apply Hp).
    unfold read_attestation. rewrite Hs. unfold submission. cbn [ab_attestation]. unfold attest at 1.
    rewrite Hpk, verify_sign_with.
    match goal with |- context [collect_attestations job committee con cio agents ?c1] =>
      destruct (IH c1) as (c' & agents' & E & Hall & Hatts & Hmiss) end.
    rewrite E. exists c', (set_stream s ra :: agents'). split; [done|]. split; [by constructor|].
    rewrite Hatts, Hmiss. cbn [cl_attestations cl_missing]. by rewrite <-app_assoc.
  - rewrite decide_False by done. destruct (IH c) as (c' & agents' & E & Hall & Hatts & Hmiss). rewrite E.
    exists c', (ra :: agents'). split; [done|]. split; [by constructor|done].
Qed.

End agent.

(** ** A unanimous committee *)

Lemma unanimous_support stake committee atts :
  NoDup committee → att_runner_id <$> atts ≡ₚ committee →
  Forall (λ att, att_result att = AttestationResult_Pass) atts →
  support stake VoteResult_Fail (latest (vote_of <$> atts)) = 0 ∧
  support stake VoteResult_Pass (latest (vote_of <$> atts)) =
    sumz ((λ id, default 0 (stake !! id)) <$> committee).
Proof.
  intros Hnd Hids Hpass.
  assert (Hvid : vote_runner_id <$> (vote_of <$> atts) = att_runner_id <$> atts).
  { rewrite <-list_fmap_compose. done. }
  assert (Hf : support stake VoteResult_Fail (latest (vote_of <$> atts)) = 0).
  { rewrite support_votes. etrans; [apply (msum_ext _ (λ _ _, 0))|apply msum_zero]. intros rid x Hx.
    rewrite latest_lookup in Hx. apply fmap_Some in Hx as (v & Hv & ->). apply last_Some_elem_of in Hv.
    apply list_elem_of_filter in Hv as [_ Hv]. apply list_elem_of_fmap in Hv as (att & -> & Hatt).
    rewrite Forall_forall in Hpass. simpl. rewrite (Hpass att Hatt). by rewrite decide_False. }
  split; [done|]. pose proof (responding_support committee (vote_of <$> atts) stake Hnd) as Hr.
  rewrite Hf, Z.add_0_r in Hr. rewrite <-Hr.
  - rewrite filter_all; [done|]. intros id Hid. rewrite elem_of_list_to_set, Hvid. by rewrite Hids.
  - intros v Hv. rewrite <-Hids, <-Hvid. apply list_elem_of_fmap. eauto.
Qed.

(** Two thirds of a committee's stake are within its stake. *)
Lemma unanimous_outcome C T : 0 < C → decide_outcome (div_ceil (2 * C) 3) C 0 T = Outcome_Pass.
Proof.
  intros HC. unfold decide_outcome. pose proof (div_ceil_least (2 * C) 3 0 ltac:(lia) ltac:(lia)).
  pose proof (div_ceil_least (2 * C) 3 C ltac:(lia) ltac:(lia)).
  destruct (Z.leb_spec (div_ceil (2 * C) 3) 0); [lia|].
  destruct (Z.leb_spec (div_ceil (2 * C) 3) C); [done|lia].
Qed.

Lemma unanimous_artifact (order : gmap (list Z) Z → list (list Z * Z)) atts h :
  (∀ m, order m ≡ₚ map_to_list m) → atts ≠ [] → Forall (λ att, att_artifact_hash att = h) atts →
  consensus_artifact order atts = h.
Proof.
  intros Ho Hne Hall. pose proof (consensus_plurality order atts h Ho) as Hp.
  destruct (decide (consensus_artifact order atts = h)) as [|Hd]; [done|]. exfalso.
  rewrite Forall_forall in Hall. unfold count_artifact in Hp. rewrite filter_all in Hp by done.
  rewrite filter_none in Hp; [destruct atts; simpl in Hp; [done|lia]|].
  intros att Hatt. rewrite (Hall att Hatt). congruence.
Qed.

Lemma unanimous_no_slash c atts fraction l :
  Forall (λ att, att_artifact_hash att = c) atts → slash_minority c atts fraction l = ([], l).
Proof.
  intros Hall. unfold slash_minority. generalize (@nil SlashEvent).
  induction Hall as [|att atts Hatt Hall IH]; intros evs; [done|]. cbn [foldl]. rewrite <-IH at 2.
  f_equal. unfold slash_one. by rewrite decide_True.
Qed.

Section mesh.
Context `{Cbor} `{Sha256} `{Ed25519Laws} `{CborBytes} `{RsMerkleLaws} `{JournalJson} `{CapturesCbor}.
Context `{SchnorrkelLaws}.
Context (hash_order : gmap (list Z) Z → list (list Z * Z)) (md : overflow_mode).

(** Anchoring with working storage. *)
Lemma anchor_fine env job pipeline atts artifact w :
  je_log_io env = io_fine →
  ∃ w' r, anchor env job pipeline atts artifact w = Some (Ok (), w') ∧
    w_agents w' = w_agents w ∧ w_ledger w' = w_ledger w ∧
    backend_entries (w_log w') = backend_entries (w_log w) ++ [artifact] ∧
    w_records w' = <[job := r]> (w_records w) ∧
    jr_consensus_artifact r = artifact ∧ jr_committee_attestations r = atts.
Proof.
  intros Hio. destruct (anchor_some env job pipeline atts artifact w) as [[[res w'] Hr] _].
  rewrite Hr. revert Hr. unfold anchor. rewrite Hio.
  destruct (w_log w) as [l|l]; unfold backend_append, MerkleLog.append; cbn -[backend_root backend_len];
    (destruct (backend_root _); [|done]); cbn -[backend_len]; intros [= <- <-];
    eexists _, _; by split_and!.
Qed.

(** A unanimous committee with some stake passes and nobody is slashed. *)
Lemma settle_unanimous env job pipeline fraction committee atts h w :
  (∀ m, hash_order m ≡ₚ map_to_list m) → sized w → je_log_io env = io_fine →
  NoDup committee → committee ≠ [] → att_runner_id <$> atts ≡ₚ committee →
  (∀ id, id ∈ committee → 0 < default 0 (stakes (w_ledger w) !! id)) →
  Forall (λ att, att_result att = AttestationResult_Pass) atts →
  Forall (λ att, att_artifact_hash att = h) atts →
  ∃ w' r, settle hash_order md env job pipeline fraction committee atts w = Some (Ok (), w') ∧
    w_agents w' = w_agents w ∧ w_ledger w' = w_ledger w ∧
    backend_entries (w_log w') = backend_entries (w_log w) ++ [h] ∧
    w_records w' = <[job := r]> (w_records w) ∧
    jr_consensus_artifact r = h ∧ jr_committee_attestations r = atts.
Proof.
  intros Ho (_ & Hs & Ht) Hio Hnd Hne Hids Hpos Hpass Hart.
  assert (Hatts : atts ≠ []).
  { intros ->. simpl in Hids. apply Hne. symmetry. by apply Permutation_nil_l. }
  destruct (unanimous_support (stakes (w_ledger w)) committee atts Hnd Hids Hpass) as [HF HP].
  set (C := sumz _) in HP.
  assert (HC : 0 < C).
  { destruct committee as [|id rest]; [done|]. specialize (Hpos id ltac:(left)).
    eapply Z.lt_le_trans; [exact Hpos|]. apply sumz_elem_le; [|csimpl; by left].
    apply Forall_fmap, Forall_true. intros x. simpl. by apply weight_of_nonneg. }
  unfold settle, as_stake_map. rewrite committee_threshold_some by done. cbn [mbind option_bind].
  rewrite aggregate_decides, HF, HP by done. cbn [mbind option_bind]. fold C.
  rewrite unanimous_outcome by done.
  rewrite (unanimous_artifact hash_order atts h Ho Hatts Hart). cbn [bool_decide].
  set (w1 := journaled _ w). rewrite unanimous_no_slash by done. cbn [snd].
  set (w2 := if _ && _ then _ else w1).
  assert (Hw2 : w_agents w2 = w_agents w ∧ w_ledger w2 = w_ledger w ∧ w_log w2 = w_log w ∧ w_records w2 = w_records w)
    by (unfold w2; by destruct (_ && _)).
  destruct Hw2 as (Ha & Hl & Hg & Hrec). rewrite bool_decide_eq_true_2 by done.
  rewrite <-Ha, <-Hl, <-Hg, <-Hrec. by apply anchor_fine.
Qed.

(** The fleet can carry a job: everybody has stake, the agents match the
    requirements, and each of them ends the pipeline with the artifact [h]. *)
Definition agreeing (fleet : list (agent * (nat → agent_env))) (stake : StakeMap) (req : JobRequirements)
    (pipeline : Pipeline) (h : bytes) : Prop :=
  matches agent_capabilities req = true ∧
  Forall (λ p, 0 < default 0 (stake !! ag_runner_id p.1) ∧
    ∀ n, ∃ result, execute_pipeline (ae_steps (p.2 n)) pipeline = Some (Ok result) ∧
      pr_final_artifact_hash result = h) fleet.

Lemma fleet_ids fleet agents :
  Forall2 (in_step []) fleet agents → (fleet_of agents).*1 = (λ p, ag_runner_id p.1) <$> fleet.
Proof. intros Hin. rewrite <-(in_step_ids [] fleet agents) by done. unfold fleet_of. by rewrite <-list_fmap_compose. Qed.

(** The committee of such a fleet. *)
Lemma agreeing_committee fleet agents stake req pipeline h k seed :
  Forall2 (in_step []) fleet agents → agreeing fleet stake req pipeline h →
  NoDup ((λ p, ag_runner_id p.1) <$> fleet) → (k <= length fleet)%nat →
  ∃ committee, select_capability_aware_committee
      (candidates_of agents ((λ p, (ag_runner_id p.1, vrf_output_of seed p)) <$> fleet)) req k = Some committee ∧
    length committee = k ∧ NoDup committee ∧ committee ⊆ (λ p, ag_runner_id p.1) <$> fleet.
Proof.
  intros Hin [Hmatch _] Hnd Hk.
  pose proof (fleet_ids fleet agents Hin) as Hids.
  assert (Hclaims : ((λ p, (ag_runner_id p.1, vrf_output_of seed p)) <$> fleet).*1 `sublist_of` (fleet_of agents).*1).
  { rewrite Hids, <-list_fmap_compose. done. }
  assert (Hsel : ∃ committee, select_capability_aware_committee
    (candidates_of agents ((λ p, (ag_runner_id p.1, vrf_output_of seed p)) <$> fleet)) req k = Some committee ∧
    length committee = k).
  { rewrite candidates_in_step by done. unfold select_capability_aware_committee, eligible. rewrite filter_all.
    - rewrite decide_False by (rewrite length_fmap; lia). eexists. split; [done|].
      rewrite length_fmap, length_take, stable_sort_length, length_fmap. lia.
    - intros c Hc. apply list_elem_of_fmap in Hc as (p & -> & _). done. }
  destruct Hsel as (committee & Hsel & Hlen). exists committee. split; [done|]. split; [done|]. split.
  - eapply committee_nodup; [exact Hclaims|by rewrite Hids|exact Hsel].
  - rewrite <-Hids. by eapply committee_in_fleet.
Qed.

(** The attestations of the committee name exactly its members. *)
Lemma committee_attesters (fleet : list (agent * (nat → agent_env))) (committee : list Z) job deadline h :
  NoDup ((λ p, ag_runner_id p.1) <$> fleet) → NoDup committee → committee ⊆ (λ p, ag_runner_id p.1) <$> fleet →
  att_runner_id <$> ((λ p, attest p.1 job deadline h) <$> filter (λ p, ag_runner_id p.1 ∈ committee) fleet)
    ≡ₚ committee.
Proof.
  intros Hnd Hc Hsub. rewrite <-list_fmap_compose.
  change (att_runner_id ∘ (λ p : agent * (nat → agent_env), attest p.1 job deadline h)) with
    (λ p : agent * (nat → agent_env), ag_runner_id p.1).
  apply NoDup_Permutation; [by apply NoDup_fmap_filter|done|]. intros id. rewrite list_elem_of_fmap. split.
  - intros (p & -> & Hp). by apply list_elem_of_filter in Hp as [? _].
  - intros Hid. pose proof (Hsub id Hid) as Hp. apply list_elem_of_fmap in Hp as (p & -> & Hp).
    exists p. split; [done|]. by apply list_elem_of_filter.
Qed.

(** * Theorem *)

(** A fleet of agents that agree anchors its artifact: with both sides of
    every connection running the code, working storage and a committee that has
    stake, a job ends successfully with the artifact appended to the log and
    recorded with an attestation of every committee member, nobody is slashed,
    and both sides are in step for the next job. *)
Theorem honest_fleet_anchors env job k pipeline req fraction captures_on fleet w h :
  (∀ m, hash_order m ≡ₚ map_to_list m) →
  Forall2 (in_step []) fleet (w_agents w) → sized w → clock_ok env → je_log_io env = io_fine →
  (0 < k <= length fleet)%nat → agreeing fleet (stakes (w_ledger w)) req pipeline h →
  ∃ w' r, run_one_job hash_order md env job k pipeline req fraction captures_on w = Some (Ok (), w') ∧
    Forall2 (in_step []) fleet (w_agents w') ∧ w_ledger w' = w_ledger w ∧
    backend_entries (w_log w') = backend_entries (w_log w) ++ [h] ∧
    w_records w' = <[job := r]> (w_records w) ∧
    jr_consensus_artifact r = h ∧ length (jr_committee_attestations r) = k.
Proof.
  intros Ho Hin Hw Hclock Hio [Hk Hlen] Hagree.
  assert (Hnd : NoDup ((λ p, ag_runner_id p.1) <$> fleet)) by (rewrite <-(fleet_ids fleet (w_agents w)) by done; apply Hw).
  unfold run_one_job. set (w1 := journaled _ w). set (seed := job_seed_bytes job).
  destruct (send_each_in_step (λ _, true) (Envelope_JobSeed job seed) (claim job seed) fleet (w_agents w1))
    as (ag1 & -> & Hin1); [done| |].
  { intros p n _ _. unfold react, claim. by destruct (Vrf.evaluate _ _ _). }
  destruct (collect_claims_in_step job seed fleet ag1 Hin1) as (ag2 & -> & Hin2).
  destruct (agreeing_committee fleet ag2 _ req pipeline h k seed Hin2 Hagree Hnd Hlen) as
    (committee & -> & Hck & Hcnd & Hcsub).
  destruct (add_i64 md (je_now env) 60000000000) as [deadline|] eqn:Ed.
  2: { unfold add_i64 in Ed. unfold clock_ok in Hclock. case_decide; [done|lia]. }
  cbn [mbind option_bind]. destruct Hagree as [_ Hfleet]. rewrite Forall_forall in Hfleet.
  destruct (send_each_in_step (λ i, bool_decide (i ∈ committee)) (Envelope_Assign job pipeline req deadline)
    (submission job deadline pipeline h) fleet ag2) as (ag3 & -> & Hin3); [done| |].
  { intros p n Hp _. unfold react, submission. destruct (Hfleet p Hp) as [_ Hrun].
    destruct (Hrun n) as (res & -> & ->). done. }
  destruct (collect_attestations_in_step job deadline pipeline h committee captures_on (je_cap_io env) fleet ag3
    (mkCollection [] [] (w_journal (journaled (JournalEntry_CommitteeSelected job committee) (set_agents ag2 w1)))
       (w_captures (journaled (JournalEntry_CommitteeSelected job committee) (set_agents ag2 w1)))) Hin3)
    as (c & ag4 & -> & Hin4 & Hatts & _).
  cbn [cl_attestations app] in Hatts. rewrite Hatts. set (atts := _ <$> _).
  pose proof (committee_attesters fleet committee job deadline h Hnd Hcnd Hcsub) as Hids.
  fold atts in Hids. set (w2 := mkWorld ag4 _ _ _ _ _).
  destruct (settle_unanimous env job pipeline fraction committee atts h w2)
    as (w' & r & Hset & Hag & Hled & Hlog & Hrec & Hart & Hra); try done.
  - destruct Hw as (_ & Hs). split; [|exact Hs]. cbn [w2 w_agents]. by rewrite (fleet_ids fleet ag4).
  - intros ->. simpl in Hck. lia.
  - intros id Hid. apply Hcsub in Hid. apply list_elem_of_fmap in Hid as (p & -> & Hp). by apply Hfleet.
  - apply Forall_fmap, Forall_true. done.
  - apply Forall_fmap, Forall_true. done.
  - exists w', r. rewrite Hset, Hag. split; [done|]. split; [done|]. split; [exact Hled|]. split; [exact Hlog|].
    split; [exact Hrec|]. split; [exact Hart|]. rewrite Hra, <-Hck, <-Hids. by rewrite length_fmap.
Qed.

End mesh.

(** * Witness *)

Import (hints) Toy ToyTree ToyJson ToyCbor ToyVrf.

(** Three agents on machines that deliver the same output in different pieces. *)
Definition demo_fleet : list (agent * (nat → agent_env)) :=
  [(agent_of_id 1 10, λ _, mkAgentEnv [] (λ _, demo_env [[104; 105]; [10]]));
   (agent_of_id 2 10, λ _, mkAgentEnv [] (λ _, demo_env [[104]; [105; 10]]));
   (agent_of_id 3 10, λ _, mkAgentEnv [] (λ _, demo_env [[104; 105; 10]]))].

Definition demo_artifact : bytes :=
  match execute_pipeline (λ _, demo_env [[104; 105]; [10]]) demo_pipeline with
  | Some (Ok r) => pr_final_artifact_hash r
  | _ => []
  end.

Lemma honest_fleet_anchors_witness :
  ∃ agents w', accept_fleet ((λ p, Accept_conn true (connection p.2 p.1)) <$> demo_fleet) 3 None [] =
      Some (Ok agents) ∧
    run_one_job map_to_list Checked (mkJobEnv 0 io_fine (λ _, File_done)) 1 2 demo_pipeline wasm_req
      (S754_finite false 8388608 (-25)) false (demo_world agents) = Some (Ok (), w') ∧
    backend_entries (w_log w') = [demo_artifact].
Proof.
  destruct (accept_in_step None demo_fleet [] []) as (agents & Hacc & Hin); [by repeat constructor|constructor|].
  simpl app in Hin. pose proof (fleet_ids demo_fleet agents Hin) as Hids.
  assert (Hst : stakes (w_ledger (demo_world agents)) = <[3 := 10]> (<[2 := 10]> (<[1 := 10]> ∅))).
  { cbn [demo_world w_ledger from_stake_map stakes]. by rewrite (in_step_stakes [] demo_fleet) by done. }
  destruct (honest_fleet_anchors map_to_list Checked (mkJobEnv 0 io_fine (λ _, File_done)) 1 2 demo_pipeline
    wasm_req (S754_finite false 8388608 (-25)) false demo_fleet (demo_world agents) demo_artifact)
    as (w' & r & Hrun & _ & _ & Hlog & _).
  - done.
  - exact Hin.
  - unfold sized. rewrite Hst. cbn [demo_world w_agents]. rewrite Hids.
    split; [apply (bool_decide_unpack _); vm_compute; done|].
    split; [apply (bool_decide_unpack _); vm_compute; done|]. vm_compute. done.
  - unfold clock_ok. simpl. lia.
  - reflexivity.
  - simpl. lia.
  - split; [vm_compute; reflexivity|]. rewrite Hst. unfold demo_fleet.
    apply Forall_cons; split; [|apply Forall_cons; split; [|apply Forall_singleton]]; (split; [vm_compute; reflexivity|]);
      intros n; eexists; (split; [vm_compute; reflexivity|vm_compute; reflexivity]).
  - exists agents, w'. split; [exact Hacc|]. split; [exact Hrun|exact Hlog].
Defined.
