(* ===== verification/Service.v ===== *)
(** The coordinator as a service: the submission reader, the job queue, hot
    reload and the main loop
    (src/bins/cosaci-coordinator/src/main.rs: [main], [spawn_stdin_reader],
    [check_submission] and the wire shapes of submissions).

    The reader thread, the reload on SIGHUP, the drain signal and the iterations
    of the main loop are the events of one system, interleaved in any order. The
    theorems say what that system does over whole runs: the jobs that run are
    exactly the lines the gate admitted and the queue took, in order; what the
    read API says of a job never changes; and an agreeing fleet anchors every
    queued job. *)

From Stdlib Require Import Floats.SpecFloat.
From S2P Require Import Prelude Quorum PartialQuorum Attestation StakeLedger Capabilities MerkleLog.
From S2P Require Import Retrieval Text Replay RateLimit Tenant SubmissionAuth Enrollment Journal.
From S2P Require Import Network Pipeline Wire Vrf Coordinator Agent.

(** * Submissions *)

Inductive JobKind := JobKind_Add | JobKind_Mul.

Definition as_wire (k : JobKind) : string :=
  match k with JobKind_Add => "add" | JobKind_Mul => "mul" end.

Record LegacyJobSubmission := mkLegacyJobSubmission {
  lj_kind : JobKind;
  lj_a : Z;
  lj_b : Z;
  lj_deadline_secs : Z;
  lj_tenant_id : option Z;
  lj_nonce : option Z;
  lj_pubkey_hex : option (list Z);
  lj_signature_hex : option (list Z);
}.

Record PipelineJobSubmission := mkPipelineJobSubmission {
  pj_pipeline_cbor_hex : list Z;
  pj_deadline_secs : Z;
  pj_tenant_id : option Z;
  pj_nonce : option Z;
  pj_pubkey_hex : option (list Z);
  pj_signature_hex : option (list Z);
}.

Inductive JobSubmission :=
| JobSubmission_Legacy (l : LegacyJobSubmission)
| JobSubmission_Pipeline (p : PipelineJobSubmission).

Inductive SubmissionOrigin := SubmissionOrigin_Legacy | SubmissionOrigin_Pipeline.

Record RunSubmission := mkRunSubmission {
  rs_pipeline : Pipeline;
  rs_deadline_secs : Z;
  rs_origin : SubmissionOrigin;
}.

(** serde_json on a line: whether it is a JSON value with the field
    [pipeline_cbor_hex], and the two derived parsers; ciborium on a pipeline. *)
Class SubmissionWire := {
  json_has_pipeline : list Z → option bool;
  json_legacy : list Z → option LegacyJobSubmission;
  json_pipeline : list Z → option PipelineJobSubmission;
  pipeline_from_reader : bytes → option Pipeline;
}.

Definition parse_submission_line `{SubmissionWire} (line : list Z) : option JobSubmission :=
  has ← json_has_pipeline line;
  if (has : bool) then JobSubmission_Pipeline <$> json_pipeline line
  else JobSubmission_Legacy <$> json_legacy line.

Definition parse_hex_bytes (s : list Z) : option bytes :=
  if negb (str_len s mod 2 =? 0) then None else hex_decode hex_nibble (as_bytes s).

Definition parse_hex64 (s : list Z) : option bytes :=
  if negb (str_len s =? 128) then None else hex_decode hex_nibble (as_bytes s).

(** [Limits::default]. *)
Definition default_limits : Limits := mkLimits 0 0 0 deny_all.

(** The auth state behind its mutex. *)
Record AuthState := mkAuthState { au_registry : TenantRegistry; au_gate : gate }.

Definition REPLAY_TTL_NS : Z := 5 * 60 * 1000000000.

(** The state [main] starts with. *)
Definition auth_start (registry : TenantRegistry) : AuthState :=
  mkAuthState registry (mkGate (RateLimit.new 0 0) (Replay.new REPLAY_TTL_NS)).

Section reader.
Context `{Sha256} `{Ed25519} `{SubmissionCbor} `{CborBytes} `{SubmissionWire}.

Definition check_legacy (sub : LegacyJobSubmission) (now_ns : Z) (rd : readings) (registry : TenantRegistry)
    (g : gate) : AuthCheck * gate :=
  match lj_tenant_id sub, lj_nonce sub, lj_pubkey_hex sub, lj_signature_hex sub with
  | Some tenant_id, Some nonce, Some pubkey_hex, Some signature_hex =>
      match Tenant.parse_hex32 pubkey_hex, parse_hex64 signature_hex with
      | Some pubkey, Some signature =>
          verify_and_admit (mkJobSubmissionPayload tenant_id (as_wire (lj_kind sub)) (lj_a sub) (lj_b sub)
            (lj_deadline_secs sub) nonce) pubkey signature now_ns registry rd g
      | _, _ => (AuthCheck_BadSignature, g)
      end
  | _, _, _, _ => (AuthCheck_BadSignature, g)
  end.

Definition check_pipeline (sub : PipelineJobSubmission) (now_ns : Z) (rd : readings)
    (registry : TenantRegistry) (g : gate) : AuthCheck * gate :=
  match pj_tenant_id sub, pj_nonce sub, pj_pubkey_hex sub, pj_signature_hex sub with
  | Some tenant_id, Some nonce, Some pubkey_hex, Some signature_hex =>
      match Tenant.parse_hex32 pubkey_hex, parse_hex64 signature_hex, parse_hex_bytes (pj_pipeline_cbor_hex sub) with
      | Some pubkey, Some signature, Some pipeline_cbor =>
          verify_and_admit_pipeline (mkPipelineSubmissionPayload tenant_id pipeline_cbor (pj_deadline_secs sub) nonce)
            pubkey signature now_ns registry rd g
      | _, _, _ => (AuthCheck_BadSignature, g)
      end
  | _, _, _, _ => (AuthCheck_BadSignature, g)
  end.

Definition check_submission (sub : JobSubmission) (now_ns : Z) (rd : readings) (registry : TenantRegistry)
    (g : gate) : AuthCheck * gate :=
  match sub with
  | JobSubmission_Legacy l => check_legacy l now_ns rd registry g
  | JobSubmission_Pipeline p => check_pipeline p now_ns rd registry g
  end.

(** A single-step pipeline of a canned module. *)
Definition canned_pipeline (module : bytes) (a b : Z) : Pipeline :=
  mkPipeline [Step_ExecWasm module (encode_args a b) default_limits].

(** The queue-ready form of an admitted submission. *)
Definition resolve (add_wasm mul_wasm : bytes) (sub : JobSubmission) : option RunSubmission :=
  match sub with
  | JobSubmission_Legacy l =>
      let module := match lj_kind l with JobKind_Add => add_wasm | JobKind_Mul => mul_wasm end in
      Some (mkRunSubmission (canned_pipeline module (lj_a l) (lj_b l)) (lj_deadline_secs l) SubmissionOrigin_Legacy)
  | JobSubmission_Pipeline p =>
      cbor ← parse_hex_bytes (pj_pipeline_cbor_hex p);
      pipeline ← pipeline_from_reader cbor;
      Some (mkRunSubmission pipeline (pj_deadline_secs p) SubmissionOrigin_Pipeline)
  end.

(** [SyncSender::try_send] on a channel of capacity [cap]; a channel without
    capacity takes a message only for a receiver that is [waiting]. *)
Definition try_send (cap : nat) (waiting : bool) (sub : RunSubmission) (queue : list RunSubmission) :
    option (list RunSubmission) :=
  if match cap with O => waiting && bool_decide (queue = []) | _ => bool_decide (length queue < cap)%nat end
  then Some (queue ++ [sub]) else None.

(** One line of the reader: the submission it sends, if any, and the auth
    state. *)
Definition read_line (add_wasm mul_wasm : bytes) (line : list Z) (now_ns : Z) (rd : readings)
    (auth : option AuthState) : option RunSubmission * option AuthState :=
  let trimmed := trim line in
  if bool_decide (trimmed = []) || starts_with 35 trimmed then (None, auth)
  else match parse_submission_line trimmed with
  | None => (None, auth)
  | Some sub =>
      match auth with
      | None => (resolve add_wasm mul_wasm sub, None)
      | Some st =>
          let '(verdict, g) := check_submission sub now_ns rd (au_registry st) (au_gate st) in
          (if decide (verdict = AuthCheck_Ok) then resolve add_wasm mul_wasm sub else None,
           Some (mkAuthState (au_registry st) g))
      end
  end.

(** * What admits a line *)

(** The submission carries a signature, by the key its tenant registered, over
    the canonical bytes of exactly what will run. *)
Definition signed (registry : TenantRegistry) (sub : JobSubmission) : Prop :=
  match sub with
  | JobSubmission_Legacy l =>
      ∃ tid nonce pk_hex sig_hex pk sig t,
        lj_tenant_id l = Some tid ∧ lj_nonce l = Some nonce ∧
        lj_pubkey_hex l = Some pk_hex ∧ Tenant.parse_hex32 pk_hex = Some pk ∧
        lj_signature_hex l = Some sig_hex ∧ parse_hex64 sig_hex = Some sig ∧
        authentic registry tid
          (canonical_bytes (mkJobSubmissionPayload tid (as_wire (lj_kind l)) (lj_a l) (lj_b l)
             (lj_deadline_secs l) nonce)) pk sig t
  | JobSubmission_Pipeline p =>
      ∃ tid nonce pk_hex sig_hex pk sig cbor t,
        pj_tenant_id p = Some tid ∧ pj_nonce p = Some nonce ∧
        pj_pubkey_hex p = Some pk_hex ∧ Tenant.parse_hex32 pk_hex = Some pk ∧
        pj_signature_hex p = Some sig_hex ∧ parse_hex64 sig_hex = Some sig ∧
        parse_hex_bytes (pj_pipeline_cbor_hex p) = Some cbor ∧
        authentic registry tid
          (canonical_bytes_pipeline (mkPipelineSubmissionPayload tid cbor (pj_deadline_secs p) nonce)) pk sig t
  end.

Lemma check_submission_signed sub now_ns rd registry g g' :
  check_submission sub now_ns rd registry g = (AuthCheck_Ok, g') → signed registry sub.
Proof.
  destruct sub as [l|p]; simpl; [unfold check_legacy|unfold check_pipeline].
  - destruct (lj_tenant_id l) as [tid|], (lj_nonce l) as [nonce|], (lj_pubkey_hex l) as [pkh|],
      (lj_signature_hex l) as [sgh|]; try done.
    destruct (Tenant.parse_hex32 pkh) as [pk|] eqn:Ep, (parse_hex64 sgh) as [sg|] eqn:Es; try done.
    intros Hc. apply admitted_authentic in Hc as [t Ht]. by exists tid, nonce, pkh, sgh, pk, sg, t.
  - destruct (pj_tenant_id p) as [tid|], (pj_nonce p) as [nonce|], (pj_pubkey_hex p) as [pkh|],
      (pj_signature_hex p) as [sgh|]; try done.
    destruct (Tenant.parse_hex32 pkh) as [pk|] eqn:Ep, (parse_hex64 sgh) as [sg|] eqn:Es,
      (parse_hex_bytes _) as [cbor|] eqn:Eb; try done.
    intros Hc. apply admitted_authentic in Hc as [t Ht]. by exists tid, nonce, pkh, sgh, pk, sg, cbor, t.
Qed.

(** Why a submission is in the queue: its line parses to it, and with a registry
    it is signed. *)
Definition vouched (add_wasm mul_wasm : bytes) (registry : option TenantRegistry) (line : list Z)
    (run : RunSubmission) : Prop :=
  ∃ sub, parse_submission_line (trim line) = Some sub ∧ resolve add_wasm mul_wasm sub = Some run ∧
    ∀ reg, registry = Some reg → signed reg sub.

Lemma read_line_vouched add_wasm mul_wasm line now_ns rd auth run auth' :
  read_line add_wasm mul_wasm line now_ns rd auth = (Some run, auth') →
  vouched add_wasm mul_wasm (au_registry <$> auth) line run.
Proof.
  unfold read_line. destruct (_ || _); [done|].
  destruct (parse_submission_line (trim line)) as [sub|] eqn:Ep; [|done]. destruct auth as [st|].
  - destruct (check_submission _ _ _ _ _) as [v g] eqn:Ec. case_decide; [|done]. subst v.
    intros [= Hr <-]. exists sub. split; [done|]. split; [done|]. intros reg [= <-].
    by eapply check_submission_signed.
  - intros [= Hr <-]. by exists sub.
Qed.

End reader.

(** * The main loop *)

Definition demo_requirements : JobRequirements :=
  mkJobRequirements 1 256 Platform_LinuxX86_64 {[Runtime_Wasm]}.

Record config := mkConfig {
  cf_committee_size : nat;
  cf_max_jobs : Z;
  cf_slash_fraction : spec_float;
  cf_captures_on : bool;
  cf_submit_stdin : bool;
  cf_queue_cap : nat;
  cf_job_a : Z;
  cf_job_b : Z;
  cf_add_wasm : bytes;
  cf_mul_wasm : bytes;
}.

Section service.
Context `{Cbor} `{Sha256} `{Ed25519} `{CborBytes} `{RsMerkle} `{JournalJson} `{CapturesCbor} `{Schnorrkel}.
Context `{SubmissionCbor} `{SubmissionWire}.
Context (hash_order : gmap (list Z) Z → list (list Z * Z)) (md : overflow_mode) (cf : config).

(** What the threads share. [sv_reading] is whether the reader still holds its
    end of the queue, [sv_done] whether [main] has returned. *)
Record service := mkService {
  sv_world : world;
  sv_auth : option AuthState;
  sv_queue : list RunSubmission;
  sv_reading : bool;
  sv_draining : bool;
  sv_completed : Z;
  sv_done : bool;
}.

(** The service once the fleet is assembled: the ledger holds the stakes of the
    registrations, and no job has run. *)
Definition service_start (agents : list RegisteredAgent) (log : LogBackend) (journal : option journal_file)
    (captures : capture_files) (auth : option AuthState) : service :=
  mkService
    (mkWorld agents (from_stake_map (stake_map_from_pairs ((λ a, (ra_runner_id a, ra_stake a)) <$> agents)))
       log ∅ journal captures)
    auth [] (cf_submit_stdin cf) false 0 false.

(** What a run shows: submissions put in the queue, with the registry they were
    checked against and the line they come from, and jobs run. *)
Inductive output :=
| Out_queued (registry : option TenantRegistry) (line : list Z) (sub : RunSubmission)
| Out_ran (job_id : Z) (pipeline : Pipeline) (r : result unit job_error).

(** The events: a line of standard input, or an error or the end of it; the
    drain signal; SIGHUP with the text of the tenant file, if it can be read;
    an iteration of the main loop. *)
Inductive event :=
| Ev_line (line : list Z) (now_ns : Z) (rd : readings) (waiting : bool)
| Ev_stdin_end
| Ev_drain
| Ev_sighup (tenants : option (list Z))
| Ev_iterate (env : job_env).

Definition on_line (line : list Z) (now_ns : Z) (rd : readings) (waiting : bool) (s : service) :
    service * list output :=
  let '(got, auth) := read_line (cf_add_wasm cf) (cf_mul_wasm cf) line now_ns rd (sv_auth s) in
  let keep queue := mkService (sv_world s) auth queue (sv_reading s) (sv_draining s) (sv_completed s) (sv_done s) in
  match sub ← got; queue ← try_send (cf_queue_cap cf) waiting sub (sv_queue s); Some (sub, queue) with
  | Some (sub, queue) => (keep queue, [Out_queued (au_registry <$> sv_auth s) line sub])
  | None => (keep (sv_queue s), [])
  end.

(** The tenant part of the reload: a file that does not load keeps the previous
    registry; the limiter and the guard are kept in any case. *)
Definition reload_registry (tenants : option (list Z)) (auth : option AuthState) : option AuthState :=
  match auth, tenants with
  | Some st, Some text =>
      Some match Tenant.load text with
           | Ok registry => mkAuthState registry (au_gate st)
           | Err _ => st
           end
  | _, _ => auth
  end.

(** The end of [main]: every agent is told to shut down, failures ignored. *)
Definition shutdown (s : service) : service :=
  let stop a := set_stream (send Envelope_Shutdown (ra_stream a)).2 a in
  mkService (set_agents (stop <$> w_agents (sv_world s)) (sv_world s)) (sv_auth s) (sv_queue s) (sv_reading s)
    (sv_draining s) (sv_completed s) true.

(** The pipeline of the next job and the queue after taking it; [None] when
    nothing is queued. *)
Definition next_pipeline (job_id : Z) (s : service) : option (Pipeline * list RunSubmission) :=
  if cf_submit_stdin cf then
    match sv_queue s with [] => None | sub :: queue => Some (rs_pipeline sub, queue) end
  else
    let module := if job_id mod 2 =? 1 then cf_add_wasm cf else cf_mul_wasm cf in
    Some (canned_pipeline module (cf_job_a cf) (cf_job_b cf), sv_queue s).

(** One iteration of the main loop; [None] is a panic. An idle iteration waits
    for the queue. *)
Definition iterate (env : job_env) (s : service) : option (service * list output) :=
  if negb (sv_completed s <? cf_max_jobs cf) || sv_draining s then Some (shutdown s, [])
  else
    let job_id := sv_completed s + 1 in
    match next_pipeline job_id s with
    | None => Some (if sv_reading s then s else shutdown s, [])
    | Some (pipeline, queue) =>
        '(r, w) ← run_one_job hash_order md env job_id (cf_committee_size cf) pipeline demo_requirements
                    (cf_slash_fraction cf) (cf_captures_on cf) (sv_world s);
        Some (mkService w (sv_auth s) queue (sv_reading s) (sv_draining s) (sv_completed s + 1) (sv_done s),
              [Out_ran job_id pipeline r])
    end.

Definition handle (ev : event) (s : service) : option (service * list output) :=
  if sv_done s then Some (s, [])
  else match ev with
  | Ev_line line now_ns rd waiting =>
      Some (if sv_reading s then on_line line now_ns rd waiting s else (s, []))
  | Ev_stdin_end =>
      Some (mkService (sv_world s) (sv_auth s) (sv_queue s) false (sv_draining s) (sv_completed s) (sv_done s), [])
  | Ev_drain =>
      Some (mkService (sv_world s) (sv_auth s) (sv_queue s) (sv_reading s) true (sv_completed s) (sv_done s), [])
  | Ev_sighup tenants =>
      Some (mkService (sv_world s) (reload_registry tenants (sv_auth s)) (sv_queue s) (sv_reading s)
              (sv_draining s) (sv_completed s) (sv_done s), [])
  | Ev_iterate env => iterate env s
  end.

Fixpoint serve (evs : list event) (s : service) : option (service * list output) :=
  match evs with
  | [] => Some (s, [])
  | ev :: evs =>
      '(s, out) ← handle ev s;
      '(s, outs) ← serve evs s;
      Some (s, out ++ outs)
  end.

Lemma serve_app evs evs' s s1 s2 o1 o2 :
  serve evs s = Some (s1, o1) → serve evs' s1 = Some (s2, o2) →
  serve (evs ++ evs') s = Some (s2, o1 ++ o2).
Proof.
  revert s o1. induction evs as [|ev evs IH]; intros s o1; simpl; [by intros [= <- <-]|].
  destruct (handle ev s) as [[s' o]|]; [|done]. simpl.
  destruct (serve evs s') as [[s'' o']|] eqn:E; [|done]. simpl. intros [= <- <-] Hs2.
  rewrite (IH s' o' E Hs2). simpl. by rewrite <-app_assoc.
Qed.

(** * The history of a run *)

Definition ran (outs : list output) : list (Z * Pipeline) :=
  omap (λ o, match o with Out_ran job_id pipeline _ => Some (job_id, pipeline) | _ => None end) outs.

Definition queued (outs : list output) : list Pipeline :=
  omap (λ o, match o with Out_queued _ _ sub => Some (rs_pipeline sub) | _ => None end) outs.

(** From [s] to [s'] with [outs]: job ids are consecutive, the queue is first in
    first out and bounded, and what is queued is vouched for. *)
Definition accounted (s s' : service) (outs : list output) : Prop :=
  (ran outs).*1 = seqZ (sv_completed s + 1) (sv_completed s' - sv_completed s) ∧
  sv_completed s <= sv_completed s' ∧
  (if cf_submit_stdin cf
   then (ran outs).*2 ++ (rs_pipeline <$> sv_queue s') = (rs_pipeline <$> sv_queue s) ++ queued outs
   else ∀ job_id pipeline, (job_id, pipeline) ∈ ran outs →
     pipeline = canned_pipeline (if job_id mod 2 =? 1 then cf_add_wasm cf else cf_mul_wasm cf)
                  (cf_job_a cf) (cf_job_b cf)) ∧
  (length (sv_queue s) <= 1 `max` cf_queue_cap cf → length (sv_queue s') <= 1 `max` cf_queue_cap cf)%nat ∧
  (sv_completed s <= cf_max_jobs cf → sv_completed s' <= cf_max_jobs cf) ∧
  ∀ reg line sub, Out_queued reg line sub ∈ outs → vouched (cf_add_wasm cf) (cf_mul_wasm cf) reg line sub.

Lemma ran_app o1 o2 : ran (o1 ++ o2) = ran o1 ++ ran o2.
Proof. apply omap_app. Qed.

Lemma queued_app o1 o2 : queued (o1 ++ o2) = queued o1 ++ queued o2.
Proof. apply omap_app. Qed.

(** A step that neither queues nor runs anything. *)
Lemma accounted_frame s s' :
  sv_queue s' = sv_queue s → sv_completed s' = sv_completed s → accounted s s' [].
Proof.
  intros Hq Hc. unfold accounted. rewrite Hq, Hc, Z.sub_diag. split; [done|]. split; [done|].
  split; [|split; [done|split; [done|]]; by intros ? ? ? ?%elem_of_nil].
  destruct (cf_submit_stdin cf); [by rewrite app_nil_r|]. by intros ? ? ?%elem_of_nil.
Qed.

Lemma accounted_trans s1 s2 s3 o1 o2 :
  accounted s1 s2 o1 → accounted s2 s3 o2 → accounted s1 s3 (o1 ++ o2).
Proof.
  intros (Hi1 & Hc1 & Hf1 & Hl1 & Hm1 & Hv1) (Hi2 & Hc2 & Hf2 & Hl2 & Hm2 & Hv2). unfold accounted.
  rewrite ran_app, queued_app, !fmap_app, Hi1, Hi2. split; [|split; [lia|split; [|split; [auto|split; [auto|]]]]].
  - replace (sv_completed s3 - sv_completed s1) with
      ((sv_completed s2 - sv_completed s1) + (sv_completed s3 - sv_completed s2)) by lia.
    rewrite seqZ_app by lia. do 2 f_equal. lia.
  - destruct (cf_submit_stdin cf).
    + by rewrite <-app_assoc, Hf2, app_assoc, Hf1, app_assoc.
    + intros job p. rewrite elem_of_app. intros [?|?]; auto.
  - intros reg line sub. rewrite elem_of_app. intros [?|?]; auto.
Qed.

Lemma try_send_spec cap waiting sub queue queue' :
  try_send cap waiting sub queue = Some queue' →
  queue' = queue ++ [sub] ∧ (length queue' <= 1 `max` cap)%nat.
Proof.
  unfold try_send. destruct cap as [|cap].
  - case_match eqn:E; [|done]. intros [= <-]. split; [done|]. apply andb_prop in E as [_ E].
    apply bool_decide_eq_true_1 in E as ->. simpl. lia.
  - case_bool_decide; [|done]. intros [= <-]. split; [done|]. rewrite length_app. simpl. lia.
Qed.

Lemma on_line_accounted line now_ns rd waiting s s' outs :
  sv_reading s = true → (sv_reading s = true → cf_submit_stdin cf = true) →
  on_line line now_ns rd waiting s = (s', outs) → accounted s s' outs.
Proof.
  intros Hr Hstdin. unfold on_line.
  destruct (read_line _ _ _ _ _ _) as [got auth] eqn:Er. destruct got as [sub|]; simpl;
    [|intros [= <- <-]; by apply accounted_frame].
  destruct (try_send _ _ _ _) as [queue|] eqn:Es; simpl; intros [= <- <-]; [|by apply accounted_frame].
  apply try_send_spec in Es as [-> Hl]. unfold accounted. simpl. rewrite Z.sub_diag, Hstdin by done.
  split; [done|]. split; [done|]. split; [by rewrite fmap_app|]. split; [done|]. split; [done|].
  intros reg l0 sub0 Hin. apply list_elem_of_singleton in Hin. injection Hin as -> -> ->.
  by eapply read_line_vouched.
Qed.

Lemma iterate_accounted env s s' outs :
  iterate env s = Some (s', outs) → accounted s s' outs.
Proof.
  unfold iterate. destruct (Z.ltb_spec (sv_completed s) (cf_max_jobs cf)) as [Hlt|]; simpl;
    [|intros [= <- <-]; by apply accounted_frame].
  destruct (sv_draining s); [intros [= <- <-]; by apply accounted_frame|].
  destruct (next_pipeline _ s) as [[pipeline queue]|] eqn:En;
    [|intros [= <- <-]; destruct (sv_reading s); by apply accounted_frame].
  destruct (run_one_job _ _ _ _ _ _ _ _ _ _) as [[r w]|]; simpl; [|done]. intros [= <- <-].
  unfold accounted. simpl. rewrite Z.add_simpl_l. split; [done|]. split; [lia|].
  unfold next_pipeline in En. destruct (cf_submit_stdin cf).
  - destruct (sv_queue s) as [|sub q] eqn:Eq; [done|]. injection En as <- <-. csimpl.
    split; [by rewrite app_nil_r|]. split; [lia|]. split; [lia|].
    intros reg l0 sub0 Hin. by apply list_elem_of_singleton in Hin.
  - injection En as <- <-. split; [|split; [done|split; [lia|]]].
    + intros job p Hin. apply list_elem_of_singleton in Hin. by injection Hin as -> ->.
    + intros reg l0 sub0 Hin. by apply list_elem_of_singleton in Hin.
Qed.

(** Only a coordinator that reads standard input has a reader. *)
Definition reader_ok (s : service) : Prop := sv_reading s = true → cf_submit_stdin cf = true.

Lemma handle_accounted ev s s' outs :
  reader_ok s → handle ev s = Some (s', outs) → reader_ok s' ∧ accounted s s' outs.
Proof.
  intros Hr. unfold handle. destruct (sv_done s); [intros [= <- <-]; split; [done|by apply accounted_frame]|].
  destruct ev as [line now_ns rd waiting| | |tenants|env].
  - destruct (sv_reading s) eqn:E; intros Heq; injection Heq as Heq; [|simplify_eq; split; [done|by apply accounted_frame]].
    split; [|by eapply on_line_accounted]. unfold on_line in Heq.
    destruct (read_line _ _ _ _ _ _) as [got auth]. unfold reader_ok in *.
    repeat case_match; simplify_eq/=; intros _; by apply Hr.
  - intros [= <- <-]. split; [done|by apply accounted_frame].
  - intros [= <- <-]. split; [done|by apply accounted_frame].
  - intros [= <- <-]. split; [done|by apply accounted_frame].
  - intros Hi. split; [|by eapply iterate_accounted]. unfold iterate in Hi.
    destruct (_ || _); [by simplify_eq|]. destruct (next_pipeline _ _) as [[? ?]|].
    + destruct (run_one_job _ _ _ _ _ _ _ _ _ _) as [[? ?]|]; simpl in Hi; by simplify_eq.
    + injection Hi as <- <-. by destruct (sv_reading s).
Qed.

Lemma serve_accounted evs s s' outs :
  reader_ok s → serve evs s = Some (s', outs) → reader_ok s' ∧ accounted s s' outs.
Proof.
  revert s outs. induction evs as [|ev evs IH]; intros s outs Hr; simpl.
  { intros [= <- <-]. split; [done|by apply accounted_frame]. }
  destruct (handle ev s) as [[s1 o1]|] eqn:Eh; [|done]. simpl.
  destruct (serve evs s1) as [[s2 o2]|] eqn:Es; [|done]. simpl. intros [= <- <-].
  destruct (handle_accounted _ _ _ _ Hr Eh) as [Hr1 Ha1]. destruct (IH _ _ Hr1 Es) as [Hr2 Ha2].
  split; [done|]. by eapply accounted_trans.
Qed.

(** ** Records *)

(** Records only come from jobs of the run, and stay. *)
Definition recorded (s s' : service) (outs : list output) : Prop :=
  (∀ job r, w_records (sv_world s) !! job = Some r → job <= sv_completed s →
     w_records (sv_world s') !! job = Some r) ∧
  (∀ job r, w_records (sv_world s') !! job = Some r → w_records (sv_world s) !! job = Some r ∨
     ∃ pipeline res, Out_ran job pipeline res ∈ outs ∧
       jr_pipeline_hash r = hash_bytes (cbor_bytes (cb_pipeline pipeline))) ∧
  sv_completed s <= sv_completed s'.

Lemma recorded_frame s s' :
  w_records (sv_world s') = w_records (sv_world s) → sv_completed s' = sv_completed s → recorded s s' [].
Proof.
  intros Hr Hc. unfold recorded. rewrite Hr, Hc. split; [done|]. split; [|done]. intros job r Hj. by left.
Qed.

Lemma recorded_trans s1 s2 s3 o1 o2 :
  recorded s1 s2 o1 → recorded s2 s3 o2 → recorded s1 s3 (o1 ++ o2).
Proof.
  intros (Hk1 & Hn1 & Hc1) (Hk2 & Hn2 & Hc2). split; [|split; [|lia]].
  - intros job r Hj Hle. apply Hk2; [by apply Hk1|lia].
  - intros job r Hj. destruct (Hn2 job r Hj) as [Hj2|(p & res & Hin & Hh)].
    + destruct (Hn1 job r Hj2) as [Hj1|(p & res & Hin & Hh)]; [by left|].
      right. exists p, res. split; [|done]. apply elem_of_app. by left.
    + right. exists p, res. split; [|done]. apply elem_of_app. by right.
Qed.

Lemma handle_recorded ev s s' outs : handle ev s = Some (s', outs) → recorded s s' outs.
Proof.
  unfold handle. destruct (sv_done s); [intros [= <- <-]; by apply recorded_frame|].
  destruct ev as [line now_ns rd waiting| | |tenants|env]; try (intros [= <- <-]; by apply recorded_frame).
  - intros Heq. injection Heq as Heq. destruct (sv_reading s); [|simplify_eq; by apply recorded_frame].
    unfold on_line in Heq. destruct (read_line _ _ _ _ _ _) as [got auth].
    assert (Hs : w_records (sv_world s') = w_records (sv_world s) ∧ sv_completed s' = sv_completed s)
      by (repeat case_match; by simplify_eq/=).
    destruct Hs as [Hr Hc]. unfold recorded. rewrite Hr, Hc. split; [done|]. split; [|done]. intros job r Hj. by left.
  - unfold iterate. destruct (_ || _); [intros [= <- <-]; by apply recorded_frame|].
    destruct (next_pipeline _ _) as [[pipeline queue]|];
      [|intros [= <- <-]; destruct (sv_reading s); by apply recorded_frame].
    destruct (run_one_job _ _ _ _ _ _ _ _ _ _) as [[res w]|] eqn:Er; simpl; [|done]. intros [= <- <-].
    apply run_one_job_records in Er. unfold recorded. simpl.
    destruct Er as [->|(x & -> & Hx & _)].
    + split; [done|]. split; [|lia]. intros job r Hj. by left.
    + split; [|split; [|lia]].
      * intros job r Hj Hle. rewrite lookup_insert_ne by lia. done.
      * intros job r. rewrite lookup_insert. case_decide; [|by left]. intros [= <-]. subst job. right.
        exists pipeline, res. split; [by left|done].
Qed.

Lemma serve_recorded evs s s' outs : serve evs s = Some (s', outs) → recorded s s' outs.
Proof.
  revert s outs. induction evs as [|ev evs IH]; intros s outs; simpl.
  { intros [= <- <-]. by apply recorded_frame. }
  destruct (handle ev s) as [[s1 o1]|] eqn:Eh; [|done]. simpl.
  destruct (serve evs s1) as [[s2 o2]|] eqn:Es; [|done]. simpl. intros [= <- <-].
  eapply recorded_trans; [by eapply handle_recorded|by apply IH].
Qed.

End service.

(** ** The world of a service *)

Section service_world.
Context `{Cbor} `{Sha256} `{Ed25519} `{CborBytes} `{RsMerkleLaws} `{JournalJson} `{CapturesCbor} `{Schnorrkel}.
Context `{SubmissionCbor} `{SubmissionWire}.
Context (hash_order : gmap (list Z) Z → list (list Z * Z)) (md : overflow_mode) (cf : config).
Context (hash_order_ok : ∀ m, hash_order m ≡ₚ map_to_list m).

Lemma shutdown_world w0 s : world_ok w0 (sv_world s) → world_ok w0 (sv_world (shutdown s)).
Proof.
  intros Hok. apply (world_ok_frame w0 (sv_world s)); try done. unfold fleet_of. simpl.
  rewrite <-list_fmap_compose. done.
Qed.

Lemma handle_world w0 ev s s' outs :
  handle hash_order md cf ev s = Some (s', outs) → world_ok w0 (sv_world s) → world_ok w0 (sv_world s').
Proof.
  unfold handle. destruct (sv_done s); [by intros [= <- <-]|].
  destruct ev as [line now_ns rd waiting| | |tenants|env]; try by intros [= <- <-].
  - intros Heq. injection Heq as Heq. destruct (sv_reading s); [|by simplify_eq].
    unfold on_line in Heq. destruct (read_line _ _ _ _ _ _) as [got auth]. repeat case_match; by simplify_eq/=.
  - unfold iterate. destruct (_ || _); [intros [= <- <-]; apply shutdown_world|].
    destruct (next_pipeline _ _ _) as [[pipeline queue]|];
      [|intros [= <- <-]; destruct (sv_reading s); [done|apply shutdown_world]].
    destruct (run_one_job _ _ _ _ _ _ _ _ _ _) as [[res w]|] eqn:Er; simpl; [|done]. intros [= <- <-] Hok.
    eapply run_one_job_ok; [exact Hok|]. by eapply job_step_run.
Qed.

Lemma serve_world w0 evs s s' outs :
  serve hash_order md cf evs s = Some (s', outs) → world_ok w0 (sv_world s) → world_ok w0 (sv_world s').
Proof.
  revert s outs. induction evs as [|ev evs IH]; intros s outs; simpl; [by intros [= <- <-]|].
  destruct (handle _ _ _ ev s) as [[s1 o1]|] eqn:Eh; [|done]. simpl.
  destruct (serve _ _ _ evs s1) as [[s2 o2]|] eqn:Es; [|done]. simpl. intros [= <- <-] Hok.
  eapply IH; [exact Es|]. by eapply handle_world.
Qed.

(** * Theorems *)

Lemma ran_elem (outs : list output) job pipeline res :
  Out_ran job pipeline res ∈ outs → (job, pipeline) ∈ ran outs.
Proof. intros Hin. apply list_elem_of_omap. eauto. Qed.

(** What ran was put in the queue, by a line that vouches for it. *)
Lemma ran_vouched s0 s outs job pipeline :
  accounted cf s0 s outs → sv_queue s0 = [] → cf_submit_stdin cf = true → (job, pipeline) ∈ ran outs →
  ∃ registry line sub, Out_queued registry line sub ∈ outs ∧ rs_pipeline sub = pipeline ∧
    vouched (cf_add_wasm cf) (cf_mul_wasm cf) registry line sub.
Proof.
  intros (_ & _ & Hf & _ & _ & Hv) Hq Hstdin Hin. rewrite Hstdin, Hq in Hf. simpl in Hf.
  assert (Hp : pipeline ∈ queued outs).
  { rewrite <-Hf. apply elem_of_app. left. apply list_elem_of_fmap. by exists (job, pipeline). }
  apply list_elem_of_omap in Hp as ([registry line sub|] & Ho & Hp); [|done]. injection Hp as <-.
  exists registry, line, sub. eauto.
Qed.

(** A record made by an event is the one of the job the event ran, backed in the
    world it was run in. *)
Lemma handle_backed ev s s' outs job r :
  handle hash_order md cf ev s = Some (s', outs) → stake_ok (stakes (w_ledger (sv_world s))) →
  w_records (sv_world s') !! job = Some r →
  w_records (sv_world s) !! job = Some r ∨
  (∃ env, ev = Ev_iterate env) ∧ backed md (sv_world s) job demo_requirements (cf_committee_size cf) r.
Proof.
  intros Hh Hs Hr. unfold handle in Hh. destruct (sv_done s); [simplify_eq; by left|].
  destruct ev as [line now_ns rd waiting| | |tenants|env]; try (simplify_eq; by left).
  - left. destruct (sv_reading s); [|by simplify_eq]. injection Hh as Hh. unfold on_line in Hh.
    destruct (read_line _ _ _ _ _ _) as [got auth]. repeat case_match; by simplify_eq/=.
  - unfold iterate in Hh. destruct (_ || _); [simplify_eq; by left|].
    destruct (next_pipeline _ _ _) as [[pipeline queue]|]; [|left; destruct (sv_reading s); by simplify_eq].
    destruct (run_one_job _ _ _ _ _ _ _ _ _ _) as [[res w]|] eqn:Er; [|done]. simplify_eq/=.
    apply run_one_job_records in Er as [Heq|(x & Heq & _ & Hback)]; rewrite Heq in Hr; [by left|].
    rewrite lookup_insert in Hr. case_decide; [|by left]. simplify_eq. right. split; [by eexists|]. by apply Hback.
Qed.

(** The world of a service that has just started. *)
Lemma service_start_world agents log journal captures auth :
  let w := sv_world (service_start cf agents log journal captures auth) in
  stake_ok (stakes (w_ledger w)) → backend_pos_ok log → world_ok w w.
Proof.
  intros w Hs Hp. split; [done|]. split; [done|]. split; [done|]. split; [exists []; by rewrite app_nil_r|].
  by intros ? ? Hl.
Qed.

(** Over any run of the service, from an empty start, whatever the order of
    lines, reloads, signals and jobs, whatever the agents send and whatever I/O
    fails: every recorded job is one of the jobs that ran, with the hash of its
    pipeline; reading submissions, that pipeline comes from an input line that
    parsed to it and that the registry of the time vouched for, signed by its
    tenant; and the read API serves a verifying bundle for it that no later
    event changes. *)
Theorem service_records_sound agents log journal captures auth evs s outs job r captures_on :
  let s0 := service_start cf agents log journal captures auth in
  stake_ok (stakes (w_ledger (sv_world s0))) → backend_pos_ok log →
  serve hash_order md cf evs s0 = Some (s, outs) → w_records (sv_world s) !! job = Some r →
  (∃ pipeline res, Out_ran job pipeline res ∈ outs ∧
     jr_pipeline_hash r = hash_bytes (cbor_bytes (cb_pipeline pipeline)) ∧
     (cf_submit_stdin cf = true → ∃ registry line sub,
        Out_queued registry line sub ∈ outs ∧ rs_pipeline sub = pipeline ∧
        vouched (cf_add_wasm cf) (cf_mul_wasm cf) registry line sub)) ∧
  ∃ b, handle_read captures_on (sv_world s) (Envelope_GetJob job) = Some (Envelope_JobBundleResponse b) ∧
    verify_inclusion (jb_merkle_proof b) (jb_log_root b) = true ∧
    ip_entry (jb_merkle_proof b) = jr_consensus_artifact r ∧
    ∀ evs' s' outs', serve hash_order md cf evs' s = Some (s', outs') →
      handle_read captures_on (sv_world s') (Envelope_GetJob job) = Some (Envelope_JobBundleResponse b).
Proof.
  intros s0 Hs Hp Hserve Hjob.
  destruct (serve_accounted hash_order md cf evs s0 s outs) as [_ Hacc]; [by intros ?|exact Hserve|].
  destruct (serve_recorded hash_order md cf evs s0 s outs Hserve) as (_ & Hnew & Hc).
  destruct (Hnew job r Hjob) as [Hold|(pipeline & res & Hran & Hhash)]; [done|].
  assert (Hle : job <= sv_completed s).
  { destruct Hacc as (Hids & _). assert (Hin : job ∈ (ran outs).*1).
    { apply list_elem_of_fmap. exists (job, pipeline). split; [done|]. by eapply ran_elem. }
    rewrite Hids in Hin. apply elem_of_seqZ in Hin. simpl in Hin. lia. }
  assert (Hok : world_ok (sv_world s0) (sv_world s)).
  { eapply serve_world; [exact Hserve|]. by apply service_start_world. }
  destruct (Hok) as (_ & _ & _ & _ & Hrec). destruct (Hrec job r Hjob) as (_ & Hanch).
  split.
  { exists pipeline, res. split; [done|]. split; [done|]. intros Hstdin.
    eapply ran_vouched; [exact Hacc|done|done|]. by eapply ran_elem. }
  destruct (backend_bundle (w_log (sv_world s)) (w_records (sv_world s)) job r Hjob Hanch)
    as (b & Hb & Hv & He & Hart & _).
  exists b. unfold handle_read. rewrite Hb. split; [done|]. split; [done|]. split; [congruence|].
  intros evs' s' outs' Hserve'. destruct (serve_recorded _ _ _ _ _ _ _ Hserve') as (Hkeep & _).
  assert (Hok' : world_ok (sv_world s) (sv_world s')).
  { eapply serve_world; [exact Hserve'|]. by eapply world_ok_rebase. }
  destruct Hok' as (_ & _ & _ & (new & Hgrow) & _).
  by rewrite (backend_bundle_extend (w_log (sv_world s)) (w_log (sv_world s')) (w_records (sv_world s))
    (w_records (sv_world s')) new job r), Hb by auto.
Qed.

(** C24: a run is accounted for from its start: the jobs are numbered from one
    without gaps up to the number completed, which never exceeds the maximum;
    reading submissions, what has run and what still waits is exactly what was
    put in the queue, in order, and the queue respects its capacity; without a
    reader the jobs alternate between the two canned modules. *)
Theorem service_history agents log journal captures auth evs s outs :
  0 <= cf_max_jobs cf →
  serve hash_order md cf evs (service_start cf agents log journal captures auth) = Some (s, outs) →
  (ran outs).*1 = seqZ 1 (sv_completed s) ∧ 0 <= sv_completed s <= cf_max_jobs cf ∧
  (length (sv_queue s) <= 1 `max` cf_queue_cap cf)%nat ∧
  if cf_submit_stdin cf then (ran outs).*2 ++ (rs_pipeline <$> sv_queue s) = queued outs
  else ∀ job pipeline, (job, pipeline) ∈ ran outs →
    pipeline = canned_pipeline (if job mod 2 =? 1 then cf_add_wasm cf else cf_mul_wasm cf)
                 (cf_job_a cf) (cf_job_b cf).
Proof.
  intros Hmax Hserve. pose proof (serve_accounted hash_order md cf evs (service_start cf agents log journal captures auth) s outs) as Hacc.
  destruct Hacc as [_ Hacc]; [by intros ?|exact Hserve|].
  destruct Hacc as (Hids & Hc & Hf & Hl & Hm & _). simpl in *. rewrite Z.sub_0_r in Hids.
  split; [exact Hids|]. split; [auto|]. split; [apply Hl; lia|exact Hf].
Qed.

Definition clock_event_ok (ev : event) : Prop :=
  match ev with Ev_iterate env => clock_ok env | _ => True end.

Lemma shutdown_sized s : sized (sv_world s) → sized (sv_world (shutdown s)).
Proof.
  unfold sized. intros (Hnd & Hrest). split; [|exact Hrest]. revert Hnd. unfold fleet_of. simpl.
  by rewrite <-!list_fmap_compose.
Qed.

(** An event leaves a sized world or panicked on a deadline. *)
Lemma handle_sized ev s :
  sized (sv_world s) →
  ¬ clock_event_ok ev ∧ handle hash_order md cf ev s = None ∨
  ∃ s' outs, handle hash_order md cf ev s = Some (s', outs) ∧ sized (sv_world s').
Proof.
  intros Hw. unfold handle. destruct (sv_done s); [right; by eexists _, _|].
  destruct ev as [line now_ns rd waiting| | |tenants|env]; try (right; by eexists _, _).
  - right. destruct (sv_reading s); [|by eexists _, _]. destruct (on_line _ _ _ _ _ _) as [s' outs] eqn:E.
    exists s', outs. split; [done|]. unfold on_line in E. destruct (read_line _ _ _ _ _ _) as [got auth].
    repeat case_match; by simplify_eq/=.
  - unfold iterate. destruct (_ || _); [right; eexists _, _; split; [done|by apply shutdown_sized]|].
    destruct (next_pipeline _ _ _) as [[pipeline queue]|].
    + destruct (run_one_job_sized hash_order md env (sv_completed s + 1) (cf_committee_size cf) pipeline
        demo_requirements (cf_slash_fraction cf) (cf_captures_on cf) (sv_world s) Hw)
        as [(Hc & _ & ->)|(r & w & -> & Hw')]; [by left|]. right. by eexists _, _.
    + right. eexists _, _. split; [done|]. destruct (sv_reading s); [done|by apply shutdown_sized].
Qed.

Lemma serve_sized evs s s' outs :
  serve hash_order md cf evs s = Some (s', outs) → sized (sv_world s) → sized (sv_world s').
Proof.
  revert s outs. induction evs as [|ev evs IH]; intros s outs; cbn [serve]; [by intros [= <- <-]|].
  intros Hs Hw. destruct (handle_sized ev s Hw) as [(_ & Hh)|(s1 & o1 & Hh & Hw1)]; rewrite Hh in Hs; [done|].
  cbn in Hs. destruct (serve _ _ _ evs s1) as [[s2 o2]|] eqn:E; [|done]. simplify_eq/=. by eapply IH.
Qed.

(** C25: with every runner registered once and room for twice the stake, the
    service never panics, over any sequence of events whose clocks leave room
    for a job's deadline. *)
Theorem service_never_panics evs s :
  sized (sv_world s) → Forall clock_event_ok evs → is_Some (serve hash_order md cf evs s).
Proof.
  intros Hw Hevs. revert s Hw. induction Hevs as [|ev evs Hev Hevs IH]; intros s Hw; [by eexists|].
  destruct (handle_sized ev s Hw) as [[? _]|(s' & outs & Hh & Hw')]; [done|]. simpl. rewrite Hh. simpl.
  destruct (IH s' Hw') as [[s2 o2] ->]. by eexists.
Qed.

End service_world.

(** * An agreeing fleet *)

Section honest_service.
Context `{Cbor} `{Sha256} `{Ed25519Laws} `{CborBytes} `{RsMerkleLaws} `{JournalJson} `{CapturesCbor}.
Context `{SchnorrkelLaws} `{SubmissionCbor} `{SubmissionWire}.
Context (hash_order : gmap (list Z) Z → list (list Z * Z)) (md : overflow_mode) (cf : config).
Context (hash_order_ok : ∀ m, hash_order m ≡ₚ map_to_list m).

(** C6: a fleet of agents that run the agent code and agree on the artifact of
    every waiting job drains the queue: with working storage, one iteration per
    waiting submission runs it successfully, the artifacts are appended to the
    log in the order of the queue, no stake is lost, and agents and coordinator
    are in step for whatever comes next. *)
Theorem honest_service_drains fleet envs s artifacts :
  cf_submit_stdin cf = true → sv_draining s = false → sv_done s = false →
  Forall2 (in_step []) fleet (w_agents (sv_world s)) → sized (sv_world s) →
  (0 < cf_committee_size cf <= length fleet)%nat →
  sv_completed s + Z.of_nat (length (sv_queue s)) <= cf_max_jobs cf →
  Forall (λ env, clock_ok env ∧ je_log_io env = io_fine) envs → length envs = length (sv_queue s) →
  Forall2 (λ sub h, agreeing fleet (stakes (w_ledger (sv_world s))) demo_requirements (rs_pipeline sub) h)
    (sv_queue s) artifacts →
  ∃ s' outs, serve hash_order md cf (Ev_iterate <$> envs) s = Some (s', outs) ∧
    sv_queue s' = [] ∧ sv_completed s' = sv_completed s + Z.of_nat (length (sv_queue s)) ∧
    backend_entries (w_log (sv_world s')) = backend_entries (w_log (sv_world s)) ++ artifacts ∧
    w_ledger (sv_world s') = w_ledger (sv_world s) ∧ Forall2 (in_step []) fleet (w_agents (sv_world s')).
Proof.
  intros Hstdin Hdr Hdone Hin Hw Hk Hmax Henvs Hlen Hagree. revert s artifacts Hdr Hdone Hin Hw Hmax Hlen Hagree.
  induction Henvs as [|env envs [Hclock Hio] Henvs IH]; intros s artifacts Hdr Hdone Hin Hw Hmax Hlen Hagree.
  { destruct (sv_queue s) as [|? ?] eqn:Eq; [|done]. inversion Hagree; subst. exists s, [].
    rewrite app_nil_r, Z.add_0_r. done. }
  destruct (sv_queue s) as [|sub queue] eqn:Eq; [done|].
  inversion Hagree as [|? h ? artifacts' Hag Hrest]; subst.
  destruct (honest_fleet_anchors hash_order md env (sv_completed s + 1) (cf_committee_size cf) (rs_pipeline sub)
    demo_requirements (cf_slash_fraction cf) (cf_captures_on cf) fleet (sv_world s) h)
    as (w' & r & Hrun & Hin' & Hled & Hlog & _); [exact hash_order_ok|exact Hin|exact Hw|exact Hclock|exact Hio|exact Hk|exact Hag|].
  set (s1 := mkService w' (sv_auth s) queue (sv_reading s) false (sv_completed s + 1) false).
  assert (Hh : handle hash_order md cf (Ev_iterate env) s = Some (s1, [Out_ran (sv_completed s + 1) (rs_pipeline sub) (Ok ())])).
  { unfold handle, iterate, next_pipeline. rewrite Hdone, Hdr, Hstdin, Eq, orb_false_r.
    simpl in Hmax. rewrite (proj2 (Z.ltb_lt _ _)) by lia. cbn [negb]. by rewrite Hrun. }
  destruct (IH s1 artifacts') as (s' & outs & Hs & Hq & Hc & Hl & Hled' & Hin''); try done.
  - destruct Hw as (Hnd & Hst). split; [|simpl; by rewrite Hled]. cbn [s1 sv_world].
    rewrite (fleet_ids fleet w'.(w_agents)) by done. by rewrite <-(fleet_ids fleet (w_agents (sv_world s))).
  - simpl in *. lia.
  - by injection Hlen.
  - simpl. rewrite Hled. exact Hrest.
  - exists s'. eexists. cbn [fmap list_fmap serve]. rewrite Hh. cbn [mbind option_bind]. rewrite Hs.
    split; [done|]. split; [done|]. simpl in *. split; [lia|]. rewrite Hl, Hlog, <-app_assoc.
    split; [done|]. split; [congruence|done].
Qed.

End honest_service.

(** * Witnesses *)

Import (hints) Toy ToyCodec ToyTree ToyJson ToyCbor ToyVrf.

(** A wire format in which a line stands for an addition, signed by the tenant
    of the demonstration, with the length of the line as its nonce. *)
Module ToyWire.

#[export] Instance toy_submission_wire : SubmissionWire := {|
  json_has_pipeline _ := Some false;
  json_legacy line :=
    let n := Z.of_nat (length line) in
    Some (mkLegacyJobSubmission JobKind_Add 1 2 30 (Some 7) (Some n) (Some (hex_encode demo_pubkey))
            (Some (hex_encode (Toy.toy_sig 9 [7; 1; 2; 30; n]))));
  json_pipeline _ := None;
  pipeline_from_reader _ := None;
|}.

End ToyWire.
Import (hints) ToyWire.

Definition demo_config : config :=
  mkConfig 2 5 (S754_finite false 8388608 (-25)) false true 4 0 0 [1] [2].

Definition demo_job_env : job_env := mkJobEnv 0 io_fine (λ _, File_done).

Definition demo_agents : list RegisteredAgent :=
  match accept_fleet ((λ p, Accept_conn true (connection p.2 p.1)) <$> demo_fleet) 3 None [] with
  | Some (Ok agents) => agents
  | _ => []
  end.

Definition demo_service : service :=
  service_start demo_config demo_agents (LogBackend_Mem MerkleLog.new) None ∅ (Some (auth_start demo_reg)).

(** Two lines, the second a replay of the first, and one iteration. *)
Definition demo_events : list event :=
  [Ev_line (chars "job") 0 (mkReadings 0 0 0) false; Ev_line (chars "job") 1 (mkReadings 1 1 1) false;
   Ev_iterate demo_job_env].

Definition demo_serve : option (service * list output) := serve map_to_list Checked demo_config demo_events demo_service.

Lemma service_records_sound_witness :
  ∃ s outs r b, demo_serve = Some (s, outs) ∧ w_records (sv_world s) !! 1 = Some r ∧
    handle_read false (sv_world s) (Envelope_GetJob 1) = Some (Envelope_JobBundleResponse b) ∧
    verify_inclusion (jb_merkle_proof b) (jb_log_root b) = true.
Proof.
  assert (Hrec : is_Some (p ← demo_serve; w_records (sv_world p.1) !! 1)).
  { apply (bool_decide_unpack _). vm_compute. done. }
  destruct demo_serve as [[s outs]|] eqn:E; [|by destruct Hrec]. destruct Hrec as [r Hr]. cbn [mbind option_bind fst] in Hr.
  destruct (service_records_sound map_to_list Checked demo_config demo_agents
    (LogBackend_Mem MerkleLog.new) None ∅ (Some (auth_start demo_reg)) demo_events s outs 1 r false)
    as (_ & b & Hb & Hv & _).
  - apply (bool_decide_unpack _). vm_compute. done.
  - reflexivity.
  - exact E.
  - exact Hr.
  - exists s, outs, r, b. split; [reflexivity|]. split; [exact Hr|]. split; [exact Hb|exact Hv].
Defined.

Lemma service_history_witness :
  ∃ s outs, demo_serve = Some (s, outs) ∧ sv_completed s = 1 ∧ (ran outs).*1 = [1] ∧
    (ran outs).*2 ++ (rs_pipeline <$> sv_queue s) = queued outs.
Proof.
  assert (Hc : sv_completed <$> (fst <$> demo_serve) = Some 1) by (vm_compute; reflexivity).
  destruct demo_serve as [[s outs]|] eqn:E; [|done]. injection Hc as Hc.
  destruct (service_history map_to_list Checked demo_config demo_agents (LogBackend_Mem MerkleLog.new) None ∅
    (Some (auth_start demo_reg)) demo_events s outs) as (Hids & _ & _ & Hf).
  - vm_compute. done.
  - exact E.
  - rewrite Hc in Hids. exists s, outs. split; [reflexivity|]. split; [exact Hc|]. split; [exact Hids|exact Hf].
Defined.

Lemma service_never_panics_witness : is_Some demo_serve.
Proof.
  refine (service_never_panics map_to_list Checked demo_config demo_events demo_service _ _).
  - split; [apply (bool_decide_unpack _); vm_compute; done|].
    split; [apply (bool_decide_unpack _); vm_compute; done|]. vm_compute. done.
  - apply Forall_cons. split; [done|]. apply Forall_cons. split; [done|]. apply Forall_singleton.
    unfold clock_event_ok, clock_ok. simpl. lia.
Defined.

Definition demo_sub : RunSubmission :=
  mkRunSubmission (canned_pipeline [1] 1 2) 30 SubmissionOrigin_Legacy.

Definition demo_sub_artifact : bytes :=
  match execute_pipeline (λ _, demo_env []) (rs_pipeline demo_sub) with
  | Some (Ok r) => pr_final_artifact_hash r
  | _ => []
  end.

(** The service with two submissions waiting. *)
Definition waiting_service : service :=
  mkService (sv_world demo_service) None [demo_sub; demo_sub] true false 0 false.

Lemma demo_agents_in_step : Forall2 (in_step []) demo_fleet demo_agents.
Proof.
  destruct (accept_in_step None demo_fleet [] []) as (agents & Hacc & Hin); [by repeat constructor|constructor|].
  unfold demo_agents. change 3%nat with (length demo_fleet + length (@nil RegisteredAgent))%nat. rewrite Hacc. exact Hin.
Qed.

Lemma demo_agrees :
  agreeing demo_fleet (stakes (w_ledger (sv_world waiting_service))) demo_requirements (rs_pipeline demo_sub)
    demo_sub_artifact.
Proof.
  assert (Hst : stakes (w_ledger (sv_world waiting_service)) = <[3 := 10]> (<[2 := 10]> (<[1 := 10]> ∅))).
  { cbn [waiting_service demo_service service_start sv_world w_ledger from_stake_map stakes].
    by rewrite (in_step_stakes [] demo_fleet) by apply demo_agents_in_step. }
  split; [vm_compute; reflexivity|]. rewrite Hst. unfold demo_fleet.
  apply Forall_cons; split; [|apply Forall_cons; split; [|apply Forall_singleton]]; (split; [vm_compute; reflexivity|]);
    intros n; eexists; (split; [vm_compute; reflexivity|vm_compute; reflexivity]).
Qed.

Lemma honest_service_drains_witness :
  ∃ s' outs, serve map_to_list Checked demo_config [Ev_iterate demo_job_env; Ev_iterate demo_job_env]
      waiting_service = Some (s', outs) ∧
    sv_queue s' = [] ∧ backend_entries (w_log (sv_world s')) = [demo_sub_artifact; demo_sub_artifact].
Proof.
  destruct (honest_service_drains map_to_list Checked demo_config (λ m, reflexivity _) demo_fleet
    [demo_job_env; demo_job_env] waiting_service [demo_sub_artifact; demo_sub_artifact])
    as (s' & outs & Hs & Hq & _ & Hl & _).
  - reflexivity.
  - reflexivity.
  - reflexivity.
  - exact demo_agents_in_step.
  - split; [apply (bool_decide_unpack _); vm_compute; done|].
    split; [apply (bool_decide_unpack _); vm_compute; done|]. vm_compute. done.
  - simpl. lia.
  - simpl. lia.
  - repeat (apply Forall_cons; split; [split; [unfold clock_ok; simpl; lia|reflexivity]|]). by apply Forall_nil.
  - reflexivity.
  - constructor; [exact demo_agrees|]. constructor; [exact demo_agrees|]. constructor.
  - exists s', outs. split; [exact Hs|]. split; [exact Hq|exact Hl].
Defined.
