(* ===== verification/AdminSession.v ===== *)
(** Admin sessions of the coordinator
    (src/bins/cosaci-coordinator/src/main.rs: [handle_admin_client] and the
    [admin_*] functions it calls).

    A session reads a signed hello and one request, and may rewrite the
    enrollment or the tenant file and reload the tenant registry. A file is
    missing, unreadable or a text; writing goes through a temporary file and a
    rename, so a failed write leaves the old file. The text of an [io::Error]
    inside a message is an argument. *)

From Stdlib Require Import Floats.SpecFloat.
From S2P Require Import Prelude Attestation Text Replay RateLimit Tenant SubmissionAuth AdminAuth Enrollment.
From S2P Require Import StakeLedger MerkleLog Wire Coordinator Service.

(** * Files *)

Inductive file := File_missing | File_unreadable | File_text (text : list Z).

(** [read_to_string]; the error says whether it is [NotFound]. *)
Definition read_to_string (f : file) : result (list Z) bool :=
  match f with
  | File_missing => Err true
  | File_unreadable => Err false
  | File_text t => Ok t
  end.

(** [write_atomic]; [ok] is whether every call succeeds. *)
Definition write_atomic (ok : bool) (content : list Z) (f : file) : result unit unit * file :=
  if ok then (Ok (), File_text content) else (Err (), f).

Definition append_atomic (ok : bool) (line : list Z) (f : file) : result unit unit * file :=
  match f with
  | File_unreadable => (Err (), f)
  | File_missing => write_atomic ok (append_line [] line) f
  | File_text existing => write_atomic ok (append_line existing line) f
  end.

(** * The line of an enrollment *)

(** [Display] of an [i64]. *)
Definition show_i64 (n : Z) : list Z := if n <? 0 then 45 :: show_u64 (- n) else show_u64 n.

(** [Display] of the [f32] quotient [k / 1000] for [k] up to 1000: its shortest
    decimal is that of the fraction. *)
Definition show_milli (k : Z) : list Z :=
  if k =? 0 then [48]
  else if k =? 1000 then [49]
  else
    let d1 := k / 100 in let d2 := k / 10 mod 10 in let d3 := k mod 10 in
    [48; 46; 48 + d1] ++
    (if d3 =? 0 then if d2 =? 0 then [] else [48 + d2] else [48 + d2; 48 + d3]).

(** A line of the enrollment file. *)
Definition enrollment_text (runner_id : Z) (signing_fp vrf_fp : bytes) (enrolled_at_unix_ns : Z)
    (reputation : list Z) : list Z :=
  join_space [show_u64 runner_id; Enrollment.fingerprint_hex signing_fp; Enrollment.fingerprint_hex vrf_fp;
    show_i64 enrolled_at_unix_ns; reputation].

(** [format!] of an enrollment record, the reputation being
    [min(thousandths, 1000) as f32 / 1000.0]. *)
Definition enrollment_line (r : EnrolledRecord) : list Z :=
  enrollment_text (er_runner_id r) (er_signing_fp r) (er_vrf_fp r) (er_enrolled_at_unix_ns r)
    (show_milli (er_initial_reputation_milli r)).

(** What an enroll request puts in the file. *)
Definition requested_record (runner_id : Z) (signing_fp vrf_fp : bytes)
    (enrolled_at_unix_ns initial_reputation_thousandths : Z) : EnrolledRecord :=
  mkEnrolledRecord runner_id signing_fp vrf_fp enrolled_at_unix_ns (Z.min initial_reputation_thousandths 1000).

(** The thousandths of the agent list: [(r.initial_reputation() *
    1000.0).round().clamp(0.0, 1000.0) as u32]. *)
Definition listed_thousandths (r : EnrolledRecord) : Z := Z.min (to_milli (initial_reputation r)) 1000.

Definition record_wf (r : EnrolledRecord) : Prop :=
  uint 64 (er_runner_id r) ∧ byte_array 32 (er_signing_fp r) ∧ byte_array 32 (er_vrf_fp r) ∧
  - 2 ^ 63 <= er_enrolled_at_unix_ns r < 2 ^ 63 ∧ 0 <= er_initial_reputation_milli r <= 1000.

(** ** It parses back *)

Lemma show_u64_digits n : Forall (λ c, 48 <= c <= 57) (show_u64 n).
Proof. eapply Forall_impl; [apply show_digits_digits|]. intros c. apply digit_range. Qed.

Lemma parse_show_i64 n : - 2 ^ 63 <= n < 2 ^ 63 → parse_i64 (show_i64 n) = Some n.
Proof.
  intros Hn. unfold show_i64. destruct (Z.ltb_spec n 0).
  - unfold parse_i64. rewrite Z.eqb_refl.
    assert (Hp : parse_digits (2 ^ 63) 0 (show_u64 (- n)) = Some (- n)).
    { apply show_digits_spec; [lia|simpl; lia|left; apply show_u64_nonempty]. }
    destruct (show_u64 (- n)) eqn:E; [by apply show_u64_nonempty in E|]. rewrite Hp. simpl. f_equal. lia.
  - pose proof (show_u64_digits n) as Hd. pose proof (show_u64_nonempty n) as Hne.
    assert (Hp : parse_digits (2 ^ 63 - 1) 0 (show_u64 n) = Some n)
      by (apply show_digits_spec; [lia|simpl; lia|by left]).
    unfold parse_i64, parse_uint. destruct (show_u64 n) as [|c ds]; [done|].
    apply Forall_cons in Hd as [Hc _]. rewrite (proj2 (Z.eqb_neq c 45)), (proj2 (Z.eqb_neq c 43)) by lia. exact Hp.
Qed.

#[export] Instance spec_float_eq_dec : EqDecision spec_float.
Proof. solve_decision. Defined.

(** All thousand and one reputations, by computation. *)
Lemma milli_table :
  forallb (λ k, bool_decide (parse_f32 (show_milli k) =
      Some (SFdiv 24 128 (binary_normalize 24 128 k 0 false) f32_thousand)) &&
    match parse_f32 (show_milli k) with
    | Some x => SFleb f32_zero x && SFleb x f32_one && (to_milli x =? k)
    | None => false
    end) (seqZ 0 1001) = true.
Proof. vm_compute. reflexivity. Qed.

(** The reputation printed is the quotient, is in range, and reads back as the
    same number of thousandths. *)
Lemma parse_show_milli k :
  0 <= k <= 1000 →
  ∃ x, parse_f32 (show_milli k) = Some x ∧
    x = SFdiv 24 128 (binary_normalize 24 128 k 0 false) f32_thousand ∧
    SFleb f32_zero x && SFleb x f32_one = true ∧ to_milli x = k.
Proof.
  intros Hk. pose proof milli_table as Ht. rewrite forallb_forall in Ht. specialize (Ht k).
  apply andb_prop in Ht as [Hd Hx]; [|apply list_elem_of_In, elem_of_seqZ; lia].
  apply bool_decide_eq_true_1 in Hd. rewrite Hd in Hx |- *. eexists. split; [done|]. split; [done|].
  apply andb_prop in Hx as [Hr Hm]. split; [done|]. by apply Z.eqb_eq.
Qed.

(** A field of visible ASCII characters. *)
Definition visible (f : list Z) : Prop := f ≠ [] ∧ Forall (λ c, 33 <= c <= 126) f.

Lemma join_visible f fs :
  Forall visible (f :: fs) →
  (∃ s, join_space (f :: fs) = f ++ s) ∧
  (∃ c s, join_space (f :: fs) = s ++ [c] ∧ 33 <= c <= 126) ∧
  Forall (λ c, c ≠ 10) (join_space (f :: fs)).
Proof.
  revert f. induction fs as [|g fs IH]; intros f Hf; apply Forall_cons in Hf as [[Hne Hf] Hfs].
  - simpl. split; [exists []; symmetry; apply app_nil_r|]. split.
    + destruct f as [|c f _] using rev_ind; [done|]. rewrite Forall_app, Forall_singleton in Hf.
      destruct Hf as [_ Hc]. exists c, f. split; [reflexivity|exact Hc].
    + eapply Forall_impl; [exact Hf|]. simpl. lia.
  - change (join_space (f :: g :: fs)) with (f ++ 32 :: join_space (g :: fs)).
    destruct (IH g Hfs) as (_ & (c & s & Hs & Hc) & Hn). split; [by eexists|]. split.
    + exists c, (f ++ 32 :: s). rewrite Hs, <-app_assoc. done.
    + apply Forall_app. split; [eapply Forall_impl; [exact Hf|]; simpl; lia|]. constructor; [lia|done].
Qed.

Lemma visible_clean f : visible f → clean is_whitespace f.
Proof.
  intros [Hne Hf]. split; [done|]. eapply Forall_impl; [exact Hf|]. intros c Hc.
  apply ascii_ws_range. simpl in Hc. lia.
Qed.

Lemma show_u64_visible n : visible (show_u64 n).
Proof. split; [apply show_u64_nonempty|]. eapply Forall_impl; [apply show_u64_digits|]. simpl. lia. Qed.

Lemma show_i64_visible n : visible (show_i64 n).
Proof.
  unfold show_i64. destruct (n <? 0); [|apply show_u64_visible]. split; [done|].
  constructor; [lia|]. apply show_u64_visible.
Qed.

Lemma show_milli_visible k : 0 <= k <= 1000 → visible (show_milli k).
Proof.
  intros Hk. unfold show_milli. destruct (Z.eqb_spec k 0); [split; [done|]; by repeat constructor|].
  destruct (Z.eqb_spec k 1000); [split; [done|]; by repeat constructor|].
  pose proof (Z.mod_pos_bound k 10). pose proof (Z.mod_pos_bound (k / 10) 10).
  assert (0 <= k / 100 < 10) by (split; [apply Z.div_pos; lia|apply Z.div_lt_upper_bound; lia]).
  split; [done|]. apply Forall_app. split; [repeat constructor; lia|].
  destruct (_ =? 0); [destruct (_ =? 0)|]; repeat constructor; lia.
Qed.

Lemma fingerprint_hex_visible fp : byte_array 32 fp → visible (Enrollment.fingerprint_hex fp).
Proof.
  intros [Hl Hb]. rewrite fingerprint_hex_encode by done. split.
  - intros Hnil%(f_equal length). rewrite hex_encode_length, Hl in Hnil. done.
  - eapply Forall_impl; [by apply hex_encode_range|]. simpl. lia.
Qed.

(** A significant line of a file that parses to a record. *)
Definition line_of (r : EnrolledRecord) (line : list Z) : Prop :=
  Forall (λ c, c ≠ 10) line ∧ trim line = line ∧ Enrollment.skipped line = false ∧ Enrollment.parse_line line = Ok r.

Lemma enrollment_text_ok id sfp vfp at_ns rep x :
  uint 64 id → byte_array 32 sfp → byte_array 32 vfp → - 2 ^ 63 <= at_ns < 2 ^ 63 →
  visible rep → parse_f32 rep = Some x → SFleb f32_zero x && SFleb x f32_one = true →
  line_of (mkEnrolledRecord id sfp vfp at_ns (to_milli x)) (enrollment_text id sfp vfp at_ns rep).
Proof.
  intros Hid Hs Hv Hat Hrep Hx Hr.
  set (fs := [Enrollment.fingerprint_hex sfp; Enrollment.fingerprint_hex vfp; show_i64 at_ns; rep]).
  assert (Hvis : Forall visible (show_u64 id :: fs)).
  { repeat (apply Forall_cons; split); try apply Forall_nil; eauto using show_u64_visible, show_i64_visible,
      fingerprint_hex_visible. }
  change (enrollment_text id sfp vfp at_ns rep) with (join_space (show_u64 id :: fs)). unfold line_of.
  destruct (join_visible _ _ Hvis) as ((s & Hh) & (c & t & Hl & Hc) & Hn). split; [done|].
  destruct (show_u64_ends id) as [(d & u & Hd & Hdr) _].
  split; [|split].
  - apply trim_id.
    + rewrite Hh, Hd. simpl. intros ? [= <-]. apply ascii_ws_range. lia.
    + rewrite Hl, last_snoc. intros ? [= <-]. apply ascii_ws_range. lia.
  - rewrite Hh, Hd. simpl. apply Z.eqb_neq. lia.
  - unfold Enrollment.parse_line, split_whitespace. rewrite split_on_join; [|done|].
    2: { eapply Forall_impl; [exact Hvis|]. apply visible_clean. }
    unfold fs. cbn [Enrollment.next_field fst snd or_field]. rewrite parse_show_u64 by done. cbn [or_field].
    rewrite parse_show_i64 by done. cbn [or_field]. rewrite Hx. cbn [or_field]. rewrite Hr. cbn [negb].
    rewrite !enrollment_hex_roundtrip by done. done.
Qed.

(** The line of a record is a significant line that parses to the record. *)
Lemma enrollment_line_ok r : record_wf r → line_of r (enrollment_line r).
Proof.
  intros (Hid & Hs & Hv & Hat & Hm). destruct (parse_show_milli _ Hm) as (x & Hx & _ & Hr & Hk).
  destruct r as [id sfp vfp at_ns k]. simpl in *. rewrite <-Hk at 1.
  apply enrollment_text_ok; auto using show_milli_visible.
Qed.

(** * Edits of the enrollment file *)

Lemma file_records_ext ls ls' : trim <$> ls = trim <$> ls' → file_records ls = file_records ls'.
Proof.
  revert ls'. induction ls as [|l ls IH]; intros [|l' ls'] Heq; try done.
  rewrite !fmap_cons in Heq. injection Heq as Hl Hls. simpl. rewrite Hl, (IH ls') by done. done.
Qed.

Lemma file_records_app ls ls' :
  file_records (ls ++ ls') = (rs ← file_records ls; rs' ← file_records ls'; Some (rs ++ rs')).
Proof.
  induction ls as [|l ls IH]; simpl; [by destruct (file_records ls')|]. rewrite IH.
  destruct (Enrollment.skipped (trim l)); [done|]. destruct (Enrollment.parse_line (trim l)); [|done].
  destruct (file_records ls); [|done]. simpl. by destruct (file_records ls').
Qed.

Lemma parse_records text s :
  Enrollment.parse text = Ok s → ∃ rs, file_records (lines text) = Some rs ∧ s = insert_all rs Enrollment.new.
Proof.
  unfold Enrollment.parse. pose proof (parse_lines_records 0 (lines text) Enrollment.new) as Hp.
  destruct (file_records (lines text)) as [rs|]; intros Hs; rewrite Hs in Hp; [|done].
  exists rs. split; [done|]. by injection Hp.
Qed.

Lemma records_parse text rs :
  file_records (lines text) = Some rs → Enrollment.parse text = Ok (insert_all rs Enrollment.new).
Proof.
  intros Hr. unfold Enrollment.parse. pose proof (parse_lines_records 0 (lines text) Enrollment.new) as Hp.
  by rewrite Hr in Hp.
Qed.

(** Appending a record's line adds the record. *)
Lemma append_loads text s r line :
  line_of r line → Enrollment.parse text = Ok s →
  Enrollment.parse (append_line text line) = Ok (mkEnrollmentSet (<[er_runner_id r := r]> (records s))).
Proof.
  intros (Hn & Ht & Hsk & Hp) Hs. destruct (parse_records text s Hs) as (rs & Hrs & ->).
  rewrite (records_parse _ (rs ++ [r])).
  - unfold insert_all. by rewrite foldl_app.
  - rewrite (file_records_ext _ (lines text ++ [line])).
    + rewrite file_records_app, Hrs. simpl. by rewrite Ht, Hsk, Hp.
    + rewrite fmap_app. by apply trim_lines_append.
Qed.

(** The first field of a line is the same before and after trimming its end. *)
Lemma first_field_trim l :
  head (split_whitespace (drop_while is_whitespace l)) = head (split_whitespace (trim l)).
Proof.
  destruct (trim_decompose l) as (w & Hw & Hall). rewrite Hw. destruct (trim l) as [|c t] eqn:Et.
  - apply trim_nil_iff in Et. rewrite Et in Hw. by destruct w.
  - assert (Hc : is_whitespace c = false) by (rewrite <-app_comm_cons in Hw; by apply drop_while_head in Hw).
    unfold split_whitespace. simpl. rewrite Hc.
    destruct (split_on_first is_whitespace [c] t) as (tok & rest & fs & -> & -> & Htok & Hrest); [done|].
    rewrite <-app_assoc, split_on_clean by done. simpl.
    assert (Hrev : reverse (reverse tok ++ [c]) = c :: tok) by (rewrite reverse_app, reverse_involutive; done).
    destruct (rest ++ w) as [|x k] eqn:Ek; simpl.
    + rewrite Hrev. by destruct (reverse tok).
    + assert (is_whitespace x = true) as ->.
      { destruct rest as [|y rest]; simplify_eq/=; [by apply Forall_cons in Hall as [? _]|by apply Hrest]. }
      rewrite Hrev. by destruct (reverse tok).
Qed.

Lemma skipped_same l : Enrollment.skipped l = Tenant.skipped l.
Proof. by destruct l. Qed.

(** The lines dropped are those of the records with that id. *)
Lemma revoked_enrollment_line l r id :
  Enrollment.skipped (trim l) = false → Enrollment.parse_line (trim l) = Ok r →
  revoked_line id l = (er_runner_id r =? id).
Proof.
  intros Hsk Hp. unfold revoked_line. rewrite skipped_trim, <-skipped_same, Hsk, first_field_trim.
  unfold Enrollment.parse_line in Hp. destruct (split_whitespace (trim l)) as [|f fs]; [done|].
  cbn [Enrollment.next_field fst snd] in Hp. simpl. destruct (parse_u64 f) as [n|]; [|done].
  simpl in Hp. repeat (case_match; try done). by simplify_eq/=.
Qed.

Lemma file_records_revoke ls rs id :
  file_records ls = Some rs →
  file_records (filter (λ l, revoked_line id l = false) ls) = Some (filter (λ r, er_runner_id r ≠ id) rs) ∧
  (existsb (revoked_line id) ls = true ↔ ∃ r, r ∈ rs ∧ er_runner_id r = id).
Proof.
  revert rs. induction ls as [|l ls IH]; intros rs; cbn [file_records].
  { intros [= <-]. split; [done|]. simpl. split; [done|]. by intros (? & ?%elem_of_nil & _). }
  rewrite filter_cons. cbn [existsb]. destruct (Enrollment.skipped (trim l)) eqn:Hsk.
  - intros Hr. assert (Hrl : revoked_line id l = false)
      by (unfold revoked_line; by rewrite skipped_trim, <-skipped_same, Hsk).
    rewrite Hrl, decide_True by done. cbn [file_records]. rewrite Hsk. by apply IH.
  - destruct (Enrollment.parse_line (trim l)) as [r|] eqn:Hp; [|done].
    destruct (file_records ls) as [rs'|] eqn:Hf; [|done]. cbn [mbind option_bind]. intros [= <-].
    destruct (IH rs' eq_refl) as [Hr He]. rewrite (revoked_enrollment_line l r id) by done. rewrite filter_cons.
    destruct (Z.eqb_spec (er_runner_id r) id) as [Heq|Hne].
    + rewrite decide_False by done. rewrite decide_False by tauto. split; [done|]. simpl. split; [|done].
      intros _. exists r. split; [by left|done].
    + rewrite decide_True by done. rewrite decide_True by done. cbn [file_records]. rewrite Hsk, Hp, Hr. split; [done|].
      simpl. rewrite He. setoid_rewrite elem_of_cons. split; [intros (x & ? & ?); eauto|].
      intros (x & [->|Hx] & Hi); [done|eauto].
Qed.

Lemma insert_all_without rs id :
  records (insert_all (filter (λ r, er_runner_id r ≠ id) rs) Enrollment.new) =
  delete id (records (insert_all rs Enrollment.new)).
Proof.
  apply map_eq. intros j. rewrite insert_all_lookup, list_filter_filter.
  destruct (decide (id = j)) as [<-|Hne].
  - rewrite lookup_delete_eq. rewrite filter_none; [done|]. intros x _. tauto.
  - rewrite lookup_delete_ne, insert_all_lookup by done.
    rewrite (list_filter_iff _ (λ r, er_runner_id r = j)); [done|]. intros x. split; [tauto|]. intros ->. done.
Qed.

Lemma trim_kept_lines ls :
  Forall (Forall (λ c, c ≠ 10)) ls → trim <$> lines (concat ((λ l, l ++ [10]) <$> ls)) = trim <$> ls.
Proof. intros Hls. by rewrite trim_lines, split_lines_concat. Qed.

(** Dropping the lines of an id removes its record; [tenants_revoke] is the same
    loop as in [admin_revoke_agent]. *)
Lemma revoke_loads text s id :
  Enrollment.parse text = Ok s →
  match tenants_revoke id text with
  | Ok text' => is_Some (records s !! id) ∧ Enrollment.parse text' = Ok (mkEnrollmentSet (delete id (records s)))
  | Err _ => records s !! id = None
  end.
Proof.
  intros Hs. destruct (parse_records text s Hs) as (rs & Hrs & ->). unfold tenants_revoke.
  destruct (file_records_revoke (lines text) rs id Hrs) as [Hkept Hex].
  assert (Hsome : is_Some (records (insert_all rs Enrollment.new) !! id) ↔ ∃ r, r ∈ rs ∧ er_runner_id r = id).
  { rewrite insert_all_lookup. simpl. rewrite lookup_empty. split.
    - destruct (last _) as [r|] eqn:El; [|by intros []]. intros _. apply last_Some_elem_of in El.
      apply list_elem_of_filter in El as [? ?]. eauto.
    - intros (r & Hr & Hid). destruct (last _) as [x|] eqn:El; [done|]. apply last_None in El.
      assert (Hin : r ∈ filter (λ r, er_runner_id r = id) rs) by by apply list_elem_of_filter.
      rewrite El in Hin. by apply not_elem_of_nil in Hin. }
  destruct (existsb _ _).
  - split; [apply Hsome, Hex; done|]. rewrite <-insert_all_without.
    rewrite (records_parse _ (filter (λ r, er_runner_id r ≠ id) rs)); [f_equal; set (x := insert_all _ _); by destruct x|].
    rewrite <-Hkept. apply file_records_ext, trim_kept_lines. apply Forall_forall.
    intros l [_ Hl]%list_elem_of_filter. pose proof (lines_no_newline text) as Hn. rewrite Forall_forall in Hn. by apply Hn.
  - apply eq_None_not_Some. intros Hc%Hsome%Hex. done.
Qed.

(** * Requests *)

(** What the coordinator's admin sessions work on; [ad_tenants] is [None] when
    no tenant file is configured. *)
Record admin_state := mkAdminState {
  ad_enrollment : file;
  ad_tenants : option file;
  ad_auth : option AuthState;
}.

Definition set_enrollment (f : file) (st : admin_state) : admin_state := mkAdminState f (ad_tenants st) (ad_auth st).

Definition load_enrollment (f : file) : option EnrollmentSet :=
  match read_to_string f with
  | Ok text => match Enrollment.parse text with Ok s => Some s | Err _ => None end
  | Err _ => None
  end.

(** [TenantRegistry::load_from_path]; the error says whether it is
    [NotFound]. *)
Definition load_tenants (f : file) : result TenantRegistry bool :=
  match read_to_string f with
  | Ok text => match Tenant.load text with Ok r => Ok r | Err _ => Err false end
  | Err e => Err e
  end.

(** [AdminError] with a formatted reason; [e] is the text of the inner error. *)
Definition admin_error (prefix : string) (e : list Z) : Envelope := Envelope_AdminError (chars prefix ++ e).

Definition admin_list_agents (e : list Z) (st : admin_state) : Envelope :=
  match load_enrollment (ad_enrollment st) with
  | Some set =>
      Envelope_AdminAgentList
        (stable_sort (λ a b, aar_runner_id a <=? aar_runner_id b)
           ((λ r, mkAdminAgentRecord (er_runner_id r) (er_signing_fp r) (er_vrf_fp r) (er_enrolled_at_unix_ns r)
                    (listed_thousandths r)) <$> (map_to_list (records set)).*2))
  | None => admin_error "enrollment file: " e
  end.

Definition admin_enroll_agent (write_ok : bool) (e : list Z) (r : EnrolledRecord) (st : admin_state) :
    Envelope * admin_state :=
  match load_enrollment (ad_enrollment st) with
  | None => (admin_error "load enrollment: " e, st)
  | Some existing =>
      match Enrollment.get (er_runner_id r) existing with
      | Some _ =>
          (Envelope_AdminError (chars "runner_id " ++ show_u64 (er_runner_id r) ++ chars " already enrolled"), st)
      | None =>
          match append_atomic write_ok (enrollment_line r) (ad_enrollment st) with
          | (Err _, _) => (admin_error "write enrollment: " e, st)
          | (Ok _, f) => (Envelope_AdminEnrollAck, set_enrollment f st)
          end
      end
  end.

Definition admin_revoke_agent (write_ok : bool) (e : list Z) (runner_id : Z) (st : admin_state) :
    Envelope * admin_state :=
  match read_to_string (ad_enrollment st) with
  | Err _ => (admin_error "read enrollment: " e, st)
  | Ok original =>
      match tenants_revoke runner_id original with
      | Err _ => (Envelope_AdminError (chars "runner_id " ++ show_u64 runner_id ++ chars " not enrolled"), st)
      | Ok out =>
          match write_atomic write_ok out (ad_enrollment st) with
          | (Err _, _) => (admin_error "write enrollment: " e, st)
          | (Ok _, f) => (Envelope_AdminRevokeAck, set_enrollment f st)
          end
      end
  end.

Definition not_configured : Envelope :=
  Envelope_AdminError (chars "tenants registry not configured (--tenants is empty)").

Definition admin_list_tenants (e : list Z) (st : admin_state) : Envelope :=
  match ad_tenants st with
  | None => not_configured
  | Some f =>
      match load_tenants f with
      | Ok reg =>
          Envelope_AdminTenantList
            ((λ r, mkAdminTenantRecord (tr_tenant_id r) (tr_signing_fp r) (tr_rate_capacity r)
                     (tr_rate_refill_per_sec r) (tr_registered_at_unix_ns r)) <$> Tenant.iter reg)
      | Err _ => admin_error "load tenants: " e
      end
  end.

(** [reload_tenants_in_state]. *)
Definition reload_tenants (f : file) (auth : option AuthState) : option AuthState :=
  match auth with
  | None => None
  | Some a => Some match load_tenants f with Ok reg => mkAuthState reg (au_gate a) | Err _ => a end
  end.

Definition admin_add_tenant (write_ok : bool) (e : list Z) (r : TenantRecord) (st : admin_state) :
    Envelope * admin_state :=
  match ad_tenants st with
  | None => (not_configured, st)
  | Some f =>
      match match load_tenants f with Err true => Ok Tenant.new | x => x end with
      | Err _ => (admin_error "load tenants: " e, st)
      | Ok existing =>
          match Tenant.get (tr_tenant_id r) existing with
          | Some _ =>
              (Envelope_AdminError (chars "tenant_id " ++ show_u64 (tr_tenant_id r) ++ chars " already registered"), st)
          | None =>
              match append_atomic write_ok (tenant_line r) f with
              | (Err _, _) => (admin_error "write tenants: " e, st)
              | (Ok _, f) => (Envelope_AdminAddTenantAck,
                              mkAdminState (ad_enrollment st) (Some f) (reload_tenants f (ad_auth st)))
              end
          end
      end
  end.

Definition admin_revoke_tenant (write_ok : bool) (e : list Z) (tenant_id : Z) (st : admin_state) :
    Envelope * admin_state :=
  match ad_tenants st with
  | None => (not_configured, st)
  | Some f =>
      match read_to_string f with
      | Err _ => (admin_error "read tenants: " e, st)
      | Ok original =>
          match tenants_revoke tenant_id original with
          | Err _ => (Envelope_AdminError (chars "tenant_id " ++ show_u64 tenant_id ++ chars " not registered"), st)
          | Ok out =>
              match write_atomic write_ok out f with
              | (Err _, _) => (admin_error "write tenants: " e, st)
              | (Ok _, f) => (Envelope_AdminRevokeTenantAck,
                              mkAdminState (ad_enrollment st) (Some f) (reload_tenants f (ad_auth st)))
              end
          end
      end
  end.

(** * Sessions *)

Definition ADMIN_HELLO_CHALLENGE : bytes := chars "cosaci-admin-hello-v1".

(** The wall clock, whether writes succeed, and the text of errors. *)
Record session_env := mkSessionEnv { sn_now : Z; sn_write_ok : bool; sn_error : list Z }.

Section sessions.
Context `{Sha256} `{Ed25519} `{RsMerkle}.
Context (keys : AdminKeySet) (env : session_env) (log : LogBackend).

(** The answer to the request after the hello. *)
Definition admin_request (req : Envelope) (st : admin_state) : Envelope * admin_state :=
  let ok := sn_write_ok env in
  let e := sn_error env in
  match req with
  | Envelope_AdminListAgents => (admin_list_agents e st, st)
  | Envelope_AdminGetLogRoot => (Envelope_AdminLogRoot (backend_root log) (backend_len log), st)
  | Envelope_AdminEnrollAgent runner_id signing_fp vrf_fp enrolled_at_unix_ns thousandths =>
      admin_enroll_agent ok e (requested_record runner_id signing_fp vrf_fp enrolled_at_unix_ns thousandths) st
  | Envelope_AdminRevokeAgent runner_id => admin_revoke_agent ok e runner_id st
  | Envelope_AdminListTenants => (admin_list_tenants e st, st)
  | Envelope_AdminAddTenant tenant_id signing_fp rate_capacity rate_refill_per_sec registered_at_unix_ns =>
      admin_add_tenant ok e
        (mkTenantRecord tenant_id signing_fp rate_capacity rate_refill_per_sec registered_at_unix_ns) st
  | Envelope_AdminRevokeTenant tenant_id => admin_revoke_tenant ok e tenant_id st
  | _ => (Envelope_AdminError (chars "unsupported admin operation"), st)
  end.

Definition handle_admin_client (s : stream) (st : admin_state) : stream * admin_state :=
  match recv s with
  | (Err _, s) => (s, st)
  | (Ok (Envelope_AdminHello admin_pubkey ts_unix_ns signature), s) =>
      match verify_admin_hello keys admin_pubkey ts_unix_ns signature ADMIN_HELLO_CHALLENGE
              ADMIN_HELLO_FRESHNESS_NS (sn_now env) with
      | AdminAuthCheck_Unauthorized => ((send (Envelope_AdminError (chars "unauthorized")) s).2, st)
      | AdminAuthCheck_Ok _ =>
          match send Envelope_AdminWelcome s with
          | (Err _, s) => (s, st)
          | (Ok _, s) =>
              match recv s with
              | (Err _, s) => (s, st)
              | (Ok req, s) => let '(resp, st) := admin_request req st in ((send resp s).2, st)
              end
          end
      end
  | (Ok _, s) => ((send (Envelope_AdminError (chars "expected AdminHello")) s).2, st)
  end.

(** * Theorems *)

(** The first envelope of the session is a hello of an allowlisted key, fresh
    and signed. *)
Definition admitted (s : stream) : Prop :=
  ∃ pk ts sg r vk, st_peer s (st_reads s) (st_out s) = Ok (Envelope_AdminHello pk ts sg) ∧
    Z.abs (sn_now env - ts) <= ADMIN_HELLO_FRESHNESS_NS ∧ by_fp keys !! sha256 pk = Some r ∧
    vk_from_bytes pk = Some vk ∧
    verify_strict vk (ADMIN_HELLO_CHALLENGE ++ le_bytes 8 ts) (sig_from_bytes sg) = true.

Lemma send_out e s : ∃ sent, st_out (send e s).2 = st_out s ++ sent ∧ (sent = [] ∨ sent = [e]).
Proof.
  unfold send. destruct (st_writes s) as [|[] l]; simpl; [exists [e]; eauto|exists [e]; eauto|].
  exists []. rewrite app_nil_r. eauto.
Qed.

Lemma recv_peer s : recv s = (st_peer s (st_reads s) (st_out s),
  mkStream (st_peer s) (S (st_reads s)) (st_out s) (st_writes s)).
Proof. done. Qed.

(** C28: an admin session does nothing for a stranger: unless the first envelope
    is a fresh hello signed by an allowlisted key, files and registry stay as
    they are and the peer is sent nothing but an error; and an admitted session
    carries out exactly one request, the one read after the welcome, or
    nothing. *)
Theorem admin_session_gate s st :
  let '(s', st') := handle_admin_client s st in
  (¬ admitted s → st' = st ∧ ∃ sent, st_out s' = st_out s ++ sent ∧
     Forall (λ e, ∃ reason, e = Envelope_AdminError reason) sent) ∧
  (st' = st ∨ ∃ req, st_peer s (S (st_reads s)) (st_out s ++ [Envelope_AdminWelcome]) = Ok req ∧
     st' = (admin_request req st).2 ∧ admitted s).
Proof.
  unfold handle_admin_client. rewrite recv_peer.
  assert (Herr : ∀ reason s1, st_out s1 = st_out s →
    ∃ sent, st_out (send (Envelope_AdminError reason) s1).2 = st_out s ++ sent ∧
      Forall (λ e, ∃ reason, e = Envelope_AdminError reason) sent).
  { intros reason s1 Hs1. destruct (send_out (Envelope_AdminError reason) s1) as (sent & Hs & Hsent).
    exists sent. rewrite Hs, Hs1. split; [done|]. destruct Hsent as [-> | ->]; [done|]. apply Forall_singleton. eauto. }
  destruct (st_peer s (st_reads s) (st_out s)) as [env0|err] eqn:Hp.
  2: { split; [|by left]. intros _. split; [done|]. exists []. simpl. by rewrite app_nil_r. }
  destruct env0; try (split; [intros _; split; [done|]; by apply Herr|by left]).
  destruct (verify_admin_hello _ _ _ _ _ _ _) as [aid|] eqn:Hv;
    [|split; [intros _; split; [done|]; by apply Herr|by left]].
  apply hello_ok in Hv as (Hf & r & vk & Hr & _ & Hvk & Hsig).
  assert (Hadm : admitted s) by by eexists _, _, _, r, vk.
  unfold send at 1. cbn [st_writes st_peer st_reads st_out].
  destruct (st_writes s) as [|[] l]; try (split; [by intros ?|by left]); rewrite recv_peer; cbn [st_peer st_reads st_out];
    (destruct (st_peer s (S _) _) as [req|] eqn:Hq; [|split; [by intros ?|by left]]);
    destruct (admin_request req st) as [resp st'] eqn:Ereq; (split; [by intros ?|]); right; exists req; rewrite Ereq; done.
Qed.

(** The widths of the fields of a request. *)
Definition request_wf (req : Envelope) : Prop :=
  match req with
  | Envelope_AdminEnrollAgent runner_id signing_fp vrf_fp at_ns thousandths =>
      record_wf (requested_record runner_id signing_fp vrf_fp at_ns thousandths)
  | Envelope_AdminAddTenant tenant_id signing_fp capacity refill at_ns =>
      tenant_wf (mkTenantRecord tenant_id signing_fp capacity refill at_ns)
  | _ => True
  end.

(** The registry a tenant file stands for when a tenant is added. *)
Definition tenants_of (f : file) (reg : TenantRegistry) : Prop :=
  load_tenants f = Ok reg ∨ f = File_missing ∧ reg = Tenant.new.

Definition with_registry (reg : TenantRegistry) (auth : option AuthState) : option AuthState :=
  (λ a, mkAuthState reg (au_gate a)) <$> auth.

(** What an answer says about the request, the state before and the state
    after. *)
Definition answer_means (req resp : Envelope) (st st' : admin_state) : Prop :=
  match resp with
  | Envelope_AdminEnrollAck =>
      ∃ id sfp vfp at_ns th set, req = Envelope_AdminEnrollAgent id sfp vfp at_ns th ∧
        load_enrollment (ad_enrollment st) = Some set ∧ records set !! id = None ∧
        load_enrollment (ad_enrollment st') =
          Some (mkEnrollmentSet (<[id := requested_record id sfp vfp at_ns th]> (records set))) ∧
        ad_tenants st' = ad_tenants st ∧ ad_auth st' = ad_auth st
  | Envelope_AdminRevokeAck =>
      ∃ id, req = Envelope_AdminRevokeAgent id ∧
        (∀ set, load_enrollment (ad_enrollment st) = Some set →
           is_Some (records set !! id) ∧
           load_enrollment (ad_enrollment st') = Some (mkEnrollmentSet (delete id (records set)))) ∧
        ad_tenants st' = ad_tenants st ∧ ad_auth st' = ad_auth st
  | Envelope_AdminAddTenantAck =>
      ∃ id fp capacity refill at_ns f f' reg,
        let reg' := mkTenantRegistry (<[id := mkTenantRecord id fp capacity refill at_ns]> (by_id reg)) in
        req = Envelope_AdminAddTenant id fp capacity refill at_ns ∧
        ad_tenants st = Some f ∧ tenants_of f reg ∧ by_id reg !! id = None ∧
        ad_tenants st' = Some f' ∧ load_tenants f' = Ok reg' ∧
        ad_auth st' = with_registry reg' (ad_auth st) ∧ ad_enrollment st' = ad_enrollment st
  | Envelope_AdminRevokeTenantAck =>
      ∃ id f f', req = Envelope_AdminRevokeTenant id ∧ ad_tenants st = Some f ∧ ad_tenants st' = Some f' ∧
        ad_enrollment st' = ad_enrollment st ∧
        ∀ reg, load_tenants f = Ok reg →
          let reg' := mkTenantRegistry (delete id (by_id reg)) in
          is_Some (by_id reg !! id) ∧ load_tenants f' = Ok reg' ∧ ad_auth st' = with_registry reg' (ad_auth st)
  | _ => st' = st
  end.

Lemma append_atomic_ok ok line f u f' :
  append_atomic ok line f = (Ok u, f') →
  ∃ t, (f = File_text t ∨ f = File_missing ∧ t = []) ∧ f' = File_text (append_line t line).
Proof.
  unfold append_atomic, write_atomic. destruct f as [| |t], ok; intros [= <- <-]; eauto.
Qed.

Lemma reload_loaded f auth reg : load_tenants f = Ok reg → reload_tenants f auth = with_registry reg auth.
Proof. intros Hl. unfold reload_tenants. rewrite Hl. by destruct auth. Qed.

Lemma enroll_means r st resp st' :
  record_wf r → admin_enroll_agent (sn_write_ok env) (sn_error env) r st = (resp, st') →
  match resp with
  | Envelope_AdminEnrollAck =>
      ∃ set, load_enrollment (ad_enrollment st) = Some set ∧ records set !! er_runner_id r = None ∧
        load_enrollment (ad_enrollment st') = Some (mkEnrollmentSet (<[er_runner_id r := r]> (records set))) ∧
        ad_tenants st' = ad_tenants st ∧ ad_auth st' = ad_auth st
  | Envelope_AdminError _ => st' = st
  | _ => False
  end.
Proof.
  intros Hwf. unfold admin_enroll_agent. destruct (load_enrollment (ad_enrollment st)) as [set|] eqn:Hl; [|by intros [= <- <-]].
  destruct (Enrollment.get (er_runner_id r) set) eqn:Hg; [by intros [= <- <-]|].
  destruct (append_atomic _ _ _) as [[[]|] f] eqn:Ha; [|by intros [= <- <-]]. intros [= <- <-].
  exists set. split; [done|]. split; [done|]. split; [|done].
  apply append_atomic_ok in Ha as (t & Ht & ->). destruct Ht as [Ht|[Ht _]]; rewrite Ht in Hl; [|done].
  unfold load_enrollment in *. simpl in *. destruct (Enrollment.parse t) as [s|] eqn:Hs; [|done].
  injection Hl as ->. by rewrite (append_loads t set r _ (enrollment_line_ok r Hwf) Hs).
Qed.

Lemma revoke_means id st resp st' :
  admin_revoke_agent (sn_write_ok env) (sn_error env) id st = (resp, st') →
  match resp with
  | Envelope_AdminRevokeAck =>
      (∀ set, load_enrollment (ad_enrollment st) = Some set →
         is_Some (records set !! id) ∧
         load_enrollment (ad_enrollment st') = Some (mkEnrollmentSet (delete id (records set)))) ∧
      ad_tenants st' = ad_tenants st ∧ ad_auth st' = ad_auth st
  | Envelope_AdminError _ => st' = st
  | _ => False
  end.
Proof.
  unfold admin_revoke_agent, write_atomic.
  destruct (ad_enrollment st) as [| |t] eqn:Hf; simpl; try by intros [= <- <-].
  destruct (tenants_revoke id t) as [out|] eqn:Hr; [|by intros [= <- <-]].
  destruct (sn_write_ok env); intros [= <- <-]; [|done]. split; [|done]. intros set.
  unfold load_enrollment. simpl. destruct (Enrollment.parse t) as [s|] eqn:Hs; [|done]. intros [= <-].
  pose proof (revoke_loads t s id Hs) as Hl. rewrite Hr in Hl. destruct Hl as [Hi Hp]. by rewrite Hp.
Qed.

Lemma add_tenant_means r st resp st' :
  tenant_wf r → admin_add_tenant (sn_write_ok env) (sn_error env) r st = (resp, st') →
  match resp with
  | Envelope_AdminAddTenantAck =>
      ∃ f f' reg, ad_tenants st = Some f ∧ tenants_of f reg ∧ by_id reg !! tr_tenant_id r = None ∧
        ad_tenants st' = Some f' ∧
        load_tenants f' = Ok (mkTenantRegistry (<[tr_tenant_id r := r]> (by_id reg))) ∧
        ad_auth st' = with_registry (mkTenantRegistry (<[tr_tenant_id r := r]> (by_id reg))) (ad_auth st) ∧
        ad_enrollment st' = ad_enrollment st
  | Envelope_AdminError _ => st' = st
  | _ => False
  end.
Proof.
  intros Hwf. unfold admin_add_tenant. destruct (ad_tenants st) as [f|]; [|by intros [= <- <-]].
  destruct (match load_tenants f with Err true => Ok Tenant.new | x => x end) as [reg|] eqn:Hl; [|by intros [= <- <-]].
  destruct (Tenant.get (tr_tenant_id r) reg) eqn:Hg; [by intros [= <- <-]|].
  destruct (append_atomic _ _ _) as [[[]|] f'] eqn:Ha; [|by intros [= <- <-]]. intros [= <- <-].
  apply append_atomic_ok in Ha as (t & Ht & ->).
  assert (Hload : Tenant.load t = Ok reg ∧ tenants_of f reg).
  { unfold tenants_of. destruct Ht as [->|[-> ->]]; simpl in Hl; [|injection Hl as <-; eauto].
    unfold load_tenants in *. simpl in *. destruct (Tenant.load t) as [reg0|]; simplify_eq. eauto. }
  destruct Hload as [Hload Hof].
  pose proof (tenants_add_loads t reg r Hwf Hload) as Hadd. unfold tenants_add in Hadd.
  rewrite Hload in Hadd. cbn [map_err] in Hadd. rewrite Hg in Hadd. destruct Hadd as [_ Hadd].
  assert (Hl' : load_tenants (File_text (append_line t (tenant_line r))) =
    Ok (mkTenantRegistry (<[tr_tenant_id r := r]> (by_id reg)))) by (unfold load_tenants; simpl; by rewrite Hadd).
  eexists f, _, reg. split; [done|]. split; [done|]. split; [done|]. split; [done|]. split; [exact Hl'|].
  split; [|done]. by apply reload_loaded.
Qed.

Lemma revoke_tenant_means id st resp st' :
  admin_revoke_tenant (sn_write_ok env) (sn_error env) id st = (resp, st') →
  match resp with
  | Envelope_AdminRevokeTenantAck =>
      ∃ f f', ad_tenants st = Some f ∧ ad_tenants st' = Some f' ∧ ad_enrollment st' = ad_enrollment st ∧
        ∀ reg, load_tenants f = Ok reg →
          let reg' := mkTenantRegistry (delete id (by_id reg)) in
          is_Some (by_id reg !! id) ∧ load_tenants f' = Ok reg' ∧ ad_auth st' = with_registry reg' (ad_auth st)
  | Envelope_AdminError _ => st' = st
  | _ => False
  end.
Proof.
  unfold admin_revoke_tenant, write_atomic. destruct (ad_tenants st) as [f|]; [|by intros [= <- <-]].
  destruct f as [| |t]; simpl; try by intros [= <- <-].
  destruct (tenants_revoke id t) as [out|] eqn:Hr; [|by intros [= <- <-]].
  destruct (sn_write_ok env); intros [= <- <-]; [|done].
  eexists _, _. split; [done|]. split; [done|]. split; [done|]. intros reg Hl. cbv zeta.
  unfold load_tenants in Hl. simpl in Hl. destruct (Tenant.load t) as [reg0|] eqn:Hload; simplify_eq.
  pose proof (tenants_revoke_loads t reg id Hload) as Hrev. rewrite Hr in Hrev. destruct Hrev as [Hs Hl].
  assert (Hl' : load_tenants (File_text out) = Ok (mkTenantRegistry (delete id (by_id reg))))
    by (unfold load_tenants; simpl; by rewrite Hl).
  split; [done|]. split; [done|]. by apply reload_loaded.
Qed.

(** C17: what an admin is told is what happened. An acknowledged enrollment means
    that the enrollment file, as the next start will load it, has gained exactly
    the requested record (with its reputation, printed and parsed through
    [f32], in thousandths) under an id that was free; an acknowledged revocation
    that it has lost exactly that runner; the same for tenants, where moreover
    the running gate has the new registry at once and keeps its token buckets
    and nonces. Any other answer means that nothing has changed. *)
Theorem admin_requests_exact req st :
  request_wf req → let '(resp, st') := admin_request req st in answer_means req resp st st'.
Proof.
  intros Hwf. destruct (admin_request req st) as [resp st'] eqn:E. unfold admin_request in E.
  destruct req; try by injection E as <- <-.
  - injection E as <- <-. unfold admin_list_agents. by destruct (load_enrollment _).
  - apply enroll_means in E; [|done]. destruct resp; try done.
    destruct E as (set & E). by eexists _, _, _, _, _, set.
  - apply revoke_means in E. destruct resp; try done. by eexists.
  - injection E as <- <-. unfold admin_list_tenants. destruct (ad_tenants st); [|done]. by destruct (load_tenants _).
  - apply add_tenant_means in E; [|done]. destruct resp; try done.
    destruct E as (f & f' & reg & E). by eexists _, _, _, _, _, f, f', reg.
  - apply revoke_tenant_means in E. destruct resp; try done. destruct E as (f & f' & E). by eexists _, f, f'.
Qed.

End sessions.

(** * Witness *)

Import (hints) Toy ToyTree.

Definition demo_enroll : Envelope := Envelope_AdminEnrollAgent 9 (replicate 32 1) (replicate 32 2) (-77) 250.

Definition demo_admin_state : admin_state := mkAdminState (File_text demo_enrollment) None None.

Definition demo_admin_request : Envelope * admin_state :=
  admin_request (mkSessionEnv 0 true []) (LogBackend_Mem MerkleLog.new) demo_enroll demo_admin_state.

Lemma admin_requests_exact_witness :
  ∃ st', demo_admin_request = (Envelope_AdminEnrollAck, st') ∧
    is_Some (load_enrollment (ad_enrollment st')) ∧
    answer_means demo_enroll Envelope_AdminEnrollAck demo_admin_state st'.
Proof.
  exists demo_admin_request.2. split; [vm_compute; reflexivity|].
  split; [apply (bool_decide_unpack _); vm_compute; done|].
  refine (admin_requests_exact (mkSessionEnv 0 true []) (LogBackend_Mem MerkleLog.new) demo_enroll
    demo_admin_state _).
  repeat split; try (vm_compute; congruence); apply Forall_replicate; vm_compute; split; congruence.
Defined.
