(* ===== verification/AtomicFile.v ===== *)
(** Files replaced atomically
    (src/bins/cosaci-coordinator/src/main.rs and src/bins/cosaci-admin/src/main.rs,
    [append_atomic] and [write_atomic]).

    The enrollment and the tenant file are edited by the coordinator's admin
    sessions and by the command-line tool, each of which writes the whole new
    content to a temporary file, syncs it and renames it over the original. The
    name of the temporary file has the process id in it: every run of the tool
    has its own, while the sessions of one coordinator, each on a thread of its
    own, share one. Here the edits run call by call, interleaved with each other, with
    every failure of a call, with processes that are killed and with power loss.
    Of the file system only documented behaviour is used: a file is an inode
    named by a directory, [rename] replaces a name at once, after a power loss an
    inode that was synced has its content, one that was not has any, and the
    directory is one of those it has been, since no directory is ever synced.

    The theorems: as long as no two edits with one temporary name run at once, the
    file is never anything but a complete version; and one edit that runs by
    itself is what [AdminSession] takes it for. Two sessions of one coordinator
    at once can leave a torn file ([coordinator_sessions_race]). *)

From S2P Require Import Prelude Attestation Text Tenant AdminSession.

(** * The disk *)

Record inode := mkInode { in_content : bytes; in_synced : bool }.

Abbreviation directory := (gmap (list Z) nat) (only parsing).

(** The inodes, the directory, and the directories a power loss can bring
    back. *)
Record disk := mkDisk { dk_inodes : gmap nat inode; dk_dir : directory; dk_older : list directory }.

Definition set_inode (n : nat) (i : inode) (d : disk) : disk := mkDisk (<[n := i]> (dk_inodes d)) (dk_dir d) (dk_older d).

Definition set_dir (dir : directory) (d : disk) : disk := mkDisk (dk_inodes d) dir (dk_dir d :: dk_older d).

(** [File::create]: an existing file is truncated. *)
Definition file_create (name : list Z) (d : disk) : nat * disk :=
  match dk_dir d !! name with
  | Some n => (n, set_inode n (mkInode [] false) d)
  | None =>
      let n := fresh (dom (dk_inodes d)) in
      (n, set_inode n (mkInode [] false) (set_dir (<[name := n]> (dk_dir d)) d))
  end.

Definition sync_all (n : nat) (d : disk) : disk :=
  match dk_inodes d !! n with Some i => set_inode n (mkInode (in_content i) true) d | None => d end.

(** [std::fs::rename]. *)
Definition rename (from to : list Z) (d : disk) : option disk :=
  n ← dk_dir d !! from;
  Some (set_dir (<[to := n]> (delete from (dk_dir d))) d).

(** The content of a file in a directory. *)
Definition content_in (path : list Z) (dir : directory) (d : disk) : option bytes :=
  n ← dir !! path; in_content <$> dk_inodes d !! n.

Definition content (path : list Z) (d : disk) : option bytes := content_in path (dk_dir d) d.

(** What a power loss leaves. *)
Definition lost (d d' : disk) : Prop :=
  (dk_dir d' :: dk_older d') `suffix_of` (dk_dir d :: dk_older d) ∧
  ∀ n i, dk_inodes d !! n = Some i → ∃ i', dk_inodes d' !! n = Some i' ∧ (in_synced i = true → i' = i).

(** * The edits *)

Inductive job := Job_append (line : list Z) | Job_write (text : list Z).

(** Where a process is: before reading the file, before creating the temporary
    file with its content, with a part of it written, with all of it written,
    with all of it synced; or at its end. *)
Inductive pc :=
| Pc_read (line : list Z)
| Pc_create (c : bytes)
| Pc_write (c : bytes) (n fd : nat)
| Pc_sync (c : bytes) (fd : nat)
| Pc_rename (c : bytes)
| Pc_done (c : bytes)
| Pc_failed
| Pc_killed.

Definition live (p : pc) : bool :=
  match p with Pc_done _ | Pc_failed | Pc_killed => false | _ => true end.

Definition pc_start (j : job) : pc :=
  match j with Job_append line => Pc_read line | Job_write text => Pc_create (as_bytes text) end.

(** The text an append starts from: none is like an empty one, and a file that
    is not text is an error. *)
Definition read_existing (c : option bytes) : option (list Z) :=
  match c with Some b => from_utf8 b | None => Some [] end.

(** How a call ends; one that writes takes at least one byte, as [write_all]
    makes an error of anything less. *)
Inductive outcome := Call_ok (k : nat) | Call_err.

(** [write_all] ends when nothing is left. *)
Definition next_write (c : bytes) (n fd : nat) : pc := if (length c <=? n)%nat then Pc_sync c fd else Pc_write c n fd.

(** Writing at an offset, past the end if another process has truncated the
    file. *)
Definition write_at (n : nat) (bs old : bytes) : bytes :=
  take n old ++ replicate (n - length old) 0 ++ bs ++ drop (n + length bs) old.

(** The next call of a process. *)
Definition call (path tmp : list Z) (o : outcome) (p : pc) (d : disk) : pc * disk :=
  match o with
  | Call_err => (Pc_failed, d)
  | Call_ok k =>
      match p with
      | Pc_read line =>
          match read_existing (content path d) with
          | Some t => (Pc_create (as_bytes (append_line t line)), d)
          | None => (Pc_failed, d)
          end
      | Pc_create c => let '(fd, d) := file_create tmp d in (next_write c 0 fd, d)
      | Pc_write c n fd =>
          let m := Nat.min (length c) (n + S k) in
          let old := default [] (in_content <$> dk_inodes d !! fd) in
          (next_write c m fd, set_inode fd (mkInode (write_at n (take (m - n) (drop n c)) old) false) d)
      | Pc_sync c fd => (Pc_rename c, sync_all fd d)
      | Pc_rename c => match rename tmp path d with Some d => (Pc_done c, d) | None => (Pc_failed, d) end
      | p => (p, d)
      end
  end.

(** A process by itself: its calls until it ends or no more outcomes are
    given. *)
Fixpoint run_calls (path tmp : list Z) (os : list outcome) (p : pc) (d : disk) : pc * disk :=
  match os with
  | [] => (p, d)
  | o :: os =>
      if live p then let '(p, d) := call path tmp o p d in run_calls path tmp os p d else (p, d)
  end.

(** The temporary files: the two programs use different names, and all the
    sessions of a coordinator one. *)
Definition tmp_coord (path : list Z) (pid : Z) : list Z := path ++ chars ".tmp.coord." ++ show_u64 pid.
Definition tmp_cli (path : list Z) (pid : Z) : list Z := path ++ chars ".tmp." ++ show_u64 pid.

(** * Interleaving *)

(** The disk, the processes with their temporary names, and the edits begun so
    far. *)
Record system := mkSystem { sy_disk : disk; sy_procs : list (list Z * pc); sy_jobs : list job }.

Definition kill (q : list Z * pc) : list Z * pc := (q.1, if live q.2 then Pc_killed else q.2).

Section system.
Context (path : list Z).

(** An edit may begin at any time, with the temporary name of one that is
    running too. *)
Inductive step : system → system → Prop :=
| step_spawn tmp j d ps js :
    tmp ≠ path → step (mkSystem d ps js) (mkSystem d (ps ++ [(tmp, pc_start j)]) (js ++ [j]))
| step_call i tmp p o p' d d' ps js :
    ps !! i = Some (tmp, p) → live p = true → call path tmp o p d = (p', d') →
    step (mkSystem d ps js) (mkSystem d' (<[i := (tmp, p')]> ps) js)
| step_kill i q d ps js :
    ps !! i = Some q → step (mkSystem d ps js) (mkSystem d (<[i := kill q]> ps) js)
| step_power_loss d d' ps js :
    lost d d' → step (mkSystem d ps js) (mkSystem d' (kill <$> ps) js).

(** No two running edits have one temporary name: at most one admin session of a
    coordinator edits the file at a time, and the runs of the command-line tool
    have process ids of their own. *)
Definition exclusive (s : system) : Prop :=
  ∀ i j tmp p p', sy_procs s !! i = Some (tmp, p) → sy_procs s !! j = Some (tmp, p') →
    live p = true → live p' = true → i = j.

Definition exclusive_step (s s' : system) : Prop := step s s' ∧ exclusive s'.

(** * Versions *)

(** The complete versions of the file: the first one, what a write was given,
    and what an append makes of a version. *)
Inductive made (v0 : option bytes) (js : list job) : option bytes → Prop :=
| made_first : made v0 js v0
| made_write text : Job_write text ∈ js → made v0 js (Some (as_bytes text))
| made_append line v t :
    Job_append line ∈ js → made v0 js v → read_existing v = Some t → made v0 js (Some (as_bytes (append_line t line))).

Lemma made_mono v0 js js' v : made v0 js v → made v0 (js ++ js') v.
Proof.
  induction 1 as [|text Hin|line v t Hin Hm IH Ht]; [apply made_first|apply made_write, elem_of_app; by left|].
  eapply made_append; [apply elem_of_app; by left|exact IH|done].
Qed.

(** The content a process is about to give the file. *)
Definition pc_made (v0 : option bytes) (js : list job) (p : pc) : Prop :=
  match p with
  | Pc_read line => Job_append line ∈ js
  | Pc_create c | Pc_write c _ _ | Pc_sync c _ | Pc_rename c | Pc_done c => made v0 js (Some c)
  | Pc_failed | Pc_killed => True
  end.

(** What a running process has on the disk. *)
Definition pc_on_disk (tmp : list Z) (p : pc) (d : disk) : Prop :=
  match p with
  | Pc_write c n fd => dk_dir d !! tmp = Some fd ∧ in_content <$> dk_inodes d !! fd = Some (take n c) ∧ (n <= length c)%nat
  | Pc_sync c fd => dk_dir d !! tmp = Some fd ∧ in_content <$> dk_inodes d !! fd = Some c
  | Pc_rename c => ∃ fd, dk_dir d !! tmp = Some fd ∧ dk_inodes d !! fd = Some (mkInode c true)
  | _ => True
  end.

(** * The invariant *)

(** The file is a synced version in every directory that may come back, no other
    name of a directory leads to an inode the file has or had by then, and every
    name leads to an inode of its own. *)
Definition target_ok (P : option bytes → Prop) (dir : directory) (d : disk) : Prop :=
  match dir !! path with
  | None => P None
  | Some n => ∃ c, dk_inodes d !! n = Some (mkInode c true) ∧ P (Some c)
  end.

Definition unshared (dirs : list directory) : Prop :=
  match dirs with
  | [] => True
  | dir :: _ => ∀ dir' n name, dir' ∈ dirs → dir' !! path = Some n → name ≠ path → dir !! name ≠ Some n
  end.

Definition dir_ok (d : disk) (dir : directory) : Prop :=
  (∀ a b n, dir !! a = Some n → dir !! b = Some n → a = b) ∧ ∀ a n, dir !! a = Some n → is_Some (dk_inodes d !! n).

Definition disk_ok (P : option bytes → Prop) (d : disk) : Prop :=
  Forall (λ dir, target_ok P dir d ∧ dir_ok d dir) (dk_dir d :: dk_older d) ∧
  ∀ dirs, dirs `suffix_of` (dk_dir d :: dk_older d) → unshared dirs.

Definition procs_ok (v0 : option bytes) (s : system) : Prop :=
  (∀ i tmp p, sy_procs s !! i = Some (tmp, p) → pc_made v0 (sy_jobs s) p ∧ (live p = true → tmp ≠ path ∧ pc_on_disk tmp p (sy_disk s))) ∧
  ∀ i j tmp p tmp' p', sy_procs s !! i = Some (tmp, p) → sy_procs s !! j = Some (tmp', p') → i ≠ j →
    live p = true → live p' = true → tmp ≠ tmp'.

Definition inv (v0 : option bytes) (s : system) : Prop :=
  disk_ok (made v0 (sy_jobs s)) (sy_disk s) ∧ procs_ok v0 s.

(** ** The disk operations *)

Abbreviation dirs d := (dk_dir d :: dk_older d) (only parsing).

Lemma target_other P d n name :
  disk_ok P d → name ≠ path → dk_dir d !! name = Some n → ∀ dir, dir ∈ dirs d → dir !! path ≠ Some n.
Proof.
  intros [_ Hun] Hne Hn dir Hdir Hp. specialize (Hun (dirs d) (reflexivity _)). by eapply Hun.
Qed.

(** A directory that may come back. *)
Lemma disk_ok_dir P d dir : disk_ok P d → dir ∈ dirs d → target_ok P dir d ∧ dir_ok d dir.
Proof. intros [Hall _] Hdir. rewrite Forall_forall in Hall. by apply Hall. Qed.

(** Changing an inode the file does not have. *)
Lemma disk_ok_set_inode P d n i :
  disk_ok P d → (∀ dir, dir ∈ dirs d → dir !! path ≠ Some n) → disk_ok P (set_inode n i d).
Proof.
  intros Hd Hn. split; [|exact (proj2 Hd)]. apply Forall_forall. intros dir Hdir. cbn in Hdir.
  destruct (disk_ok_dir _ _ _ Hd Hdir) as [Ht [Hinj Hex]]. split.
  - unfold target_ok in *. destruct (dir !! path) as [m|] eqn:Em; [|done]. destruct Ht as (c & Hc & HP).
    exists c. split; [|done]. cbn. rewrite lookup_insert_ne; [done|]. intros ->. by apply (Hn dir).
  - split; [done|]. intros a m Ha. cbn. rewrite lookup_insert. case_decide; [by eexists|]. by eapply Hex.
Qed.

(** Adding a directory. *)
Lemma disk_ok_set_dir P d dir :
  disk_ok P d → target_ok P dir d → dir_ok d dir →
  (∀ dir' n name, dir' ∈ dir :: dirs d → dir' !! path = Some n → name ≠ path → dir !! name ≠ Some n) →
  disk_ok P (set_dir dir d).
Proof.
  intros [Hall Hun] Ht Hok Hnew. split; [by apply Forall_cons|]. cbn. intros [|x ds] Hs; [done|].
  apply suffix_cons_inv in Hs as [Heq|Hs]; [injection Heq as -> ->; exact Hnew|by apply Hun].
Qed.

(** [d'] is [d] but for what [tmp] and the file lead to. *)
Definition frame (tmp : list Z) (d d' : disk) : Prop :=
  ∀ t, t ≠ tmp → t ≠ path → dk_dir d' !! t = dk_dir d !! t ∧
    ∀ n, dk_dir d !! t = Some n → dk_inodes d' !! n = dk_inodes d !! n.

Lemma pc_on_disk_frame tmp t p d d' : frame tmp d d' → t ≠ tmp → t ≠ path → pc_on_disk t p d → pc_on_disk t p d'.
Proof.
  intros Hf Ht Hp. destruct (Hf t Ht Hp) as [Hdir Hin]. destruct p as [|c|c n fd|c fd|c|c| |]; cbn [pc_on_disk]; try done; rewrite Hdir.
  - intros (Hd & Hi & Hn). split; [done|]. by rewrite Hin.
  - intros [Hd Hi]. split; [done|]. by rewrite Hin.
  - intros (fd & Hd & Hi). exists fd. split; [done|]. by rewrite Hin.
Qed.

Lemma frame_set_inode P tmp d n i : disk_ok P d → dk_dir d !! tmp = Some n → frame tmp d (set_inode n i d).
Proof.
  intros Hd Hn t Ht _. split; [done|]. intros m Hm. cbn. apply lookup_insert_ne. intros <-.
  destruct (disk_ok_dir _ _ (dk_dir d) Hd) as [_ [Hinj _]]; [by left|]. by apply Ht, (Hinj t tmp n).
Qed.

(** The file is where it was, with what it had. *)
Lemma content_set_inode d n i :
  (∀ dir, dir ∈ dirs d → dir !! path ≠ Some n) → content path (set_inode n i d) = content path d.
Proof.
  intros Hn. unfold content, content_in. cbn. destruct (dk_dir d !! path) as [m|] eqn:Em; [|done]. cbn.
  rewrite lookup_insert_ne; [done|]. intros ->. apply (Hn (dk_dir d)); [by left|done].
Qed.

Lemma file_create_ok P tmp d fd d' :
  disk_ok P d → tmp ≠ path → file_create tmp d = (fd, d') →
  disk_ok P d' ∧ frame tmp d d' ∧ content path d' = content path d ∧ dk_dir d' !! tmp = Some fd ∧
  dk_inodes d' !! fd = Some (mkInode [] false).
Proof.
  intros Hd Hne. unfold file_create. destruct (dk_dir d !! tmp) as [n|] eqn:En.
  - intros [= <- <-]. pose proof (target_other _ _ _ _ Hd Hne En) as Ho.
    split; [by apply disk_ok_set_inode|]. split; [by eapply frame_set_inode|]. split; [by apply content_set_inode|].
    split; [done|]. cbn. by rewrite lookup_insert_eq.
  - set (n := fresh (dom (dk_inodes d))). assert (Hfresh : dk_inodes d !! n = None).
    { apply not_elem_of_dom, is_fresh. }
    assert (Hno : ∀ dir a, dir ∈ dirs d → dir !! a ≠ Some n).
    { intros dir a Hdir Ha. destruct (disk_ok_dir _ _ _ Hd Hdir) as [_ [_ Hex]]. apply Hex in Ha as [i Hi]. congruence. }
    intros [= <- <-]. pose proof (disk_ok_set_inode P d n (mkInode [] false) Hd ltac:(intros; by apply Hno)) as Hd1.
    destruct (disk_ok_dir _ _ (dk_dir d) Hd1) as [Ht [Hinj Hex]]; [by left|].
    split; [|split; [|split; [|split]]].
    + apply (disk_ok_set_dir P (set_inode n (mkInode [] false) d) (<[tmp := n]> (dk_dir d))); [done|..].
      * unfold target_ok in *. by rewrite lookup_insert_ne.
      * split.
        -- intros a b m. rewrite !lookup_insert. do 2 case_decide; intros Ha Hb; simplify_eq; try done;
             try (by destruct (Hno (dk_dir d) b ltac:(by left))); try (by destruct (Hno (dk_dir d) a ltac:(by left))). by eapply Hinj.
        -- intros a m. rewrite lookup_insert. case_decide; [|by apply Hex]. intros [= <-]. cbn. rewrite lookup_insert_eq. by eexists.
      * intros dir' m name Hdir Hm Hname. rewrite lookup_insert. case_decide as Hna.
        -- intros [= <-]. subst name. apply elem_of_cons in Hdir as [->|Hdir]; [|by apply (Hno dir' path Hdir)].
           rewrite lookup_insert_ne in Hm by done. by apply (Hno (dk_dir d) path ltac:(by left)).
        -- apply elem_of_cons in Hdir as [->|Hdir].
           ++ rewrite lookup_insert_ne in Hm by done. eapply (proj2 Hd1 _ (reflexivity _)); [by left|done|done].
           ++ by eapply (proj2 Hd1 _ (reflexivity _)).
    + intros t Ht' Hp. cbn. rewrite lookup_insert_ne by done. split; [done|]. intros m Hm. apply lookup_insert_ne.
      intros <-. by apply (Hno (dk_dir d) t ltac:(by left)).
    + unfold content, content_in. cbn. rewrite lookup_insert_ne by done. destruct (dk_dir d !! path) as [m|] eqn:Em; [|done].
      cbn. rewrite lookup_insert_ne; [done|]. intros <-. by apply (Hno (dk_dir d) path ltac:(by left)).
    + cbn. by rewrite lookup_insert_eq.
    + cbn. by rewrite lookup_insert_eq.
Qed.

Lemma rename_ok (P : option bytes → Prop) tmp d d' fd c :
  disk_ok P d → tmp ≠ path → dk_dir d !! tmp = Some fd → dk_inodes d !! fd = Some (mkInode c true) → P (Some c) →
  rename tmp path d = Some d' → disk_ok P d' ∧ frame tmp d d' ∧ content path d' = Some c.
Proof.
  intros Hd Hne Hfd Hc HP. unfold rename. rewrite Hfd. cbn. intros [= <-].
  destruct (disk_ok_dir _ _ (dk_dir d) Hd) as [_ [Hinj Hex]]; [by left|].
  set (dir := <[path := fd]> (delete tmp (dk_dir d))).
  assert (Hold : ∀ a n, a ≠ path → dir !! a = Some n → dk_dir d !! a = Some n ∧ a ≠ tmp).
  { intros a n Ha. unfold dir. rewrite lookup_insert_ne, lookup_delete_Some by done. intros [? ?]. split; congruence. }
  assert (Hpath : dir !! path = Some fd) by (unfold dir; by rewrite lookup_insert_eq).
  split; [|split].
  - apply disk_ok_set_dir; [done| | |].
    + unfold target_ok. rewrite Hpath. eauto.
    + split.
      * intros a b n Ha Hb. destruct (decide (a = path)) as [->|Hap], (decide (b = path)) as [->|Hbp]; try done.
        -- destruct (Hold b n Hbp Hb) as [Hb' Hbt]. assert (n = fd) as -> by congruence. by destruct Hbt; apply (Hinj b tmp fd).
        -- destruct (Hold a n Hap Ha) as [Ha' Hat]. assert (n = fd) as -> by congruence. by destruct Hat; apply (Hinj a tmp fd).
        -- destruct (Hold a n Hap Ha) as [Ha' _], (Hold b n Hbp Hb) as [Hb' _]. by apply (Hinj a b n).
      * intros a n Ha. destruct (decide (a = path)) as [->|Hap]; [|by eapply Hex, Hold].
        assert (n = fd) as -> by congruence. by eexists.
    + intros dir' n name Hdir Hn Hname Hd'. destruct (Hold name n Hname Hd') as [Hname' Hnt].
      apply elem_of_cons in Hdir as [->|Hdir].
      * assert (n = fd) as -> by congruence. by apply Hnt, (Hinj name tmp fd).
      * by eapply (target_other _ _ _ _ Hd Hname Hname').
  - intros t Ht Hp. cbn. unfold dir. by rewrite lookup_insert_ne, lookup_delete_ne by done.
  - unfold content, content_in. cbn. fold dir. rewrite Hpath. cbn. by rewrite Hc.
Qed.

Lemma read_made v0 js d :
  disk_ok (made v0 js) d → made v0 js (content path d).
Proof.
  intros Hd. destruct (disk_ok_dir _ _ (dk_dir d) Hd) as [Ht _]; [by left|]. unfold target_ok in Ht. unfold content, content_in.
  destruct (dk_dir d !! path) as [n|]; [|done]. cbn. destruct Ht as (c & -> & Hm). exact Hm.
Qed.

(** Writing on at the end. *)
Lemma write_at_end n m (c : bytes) :
  (n <= length c)%nat → (n <= m)%nat → write_at n (take (m - n) (drop n c)) (take n c) = take m c.
Proof.
  intros Hn Hm. unfold write_at. rewrite take_take, Nat.min_id, length_take_le, Nat.sub_diag by done. cbn [replicate app].
  rewrite (drop_ge (take n c)) by (rewrite length_take_le; lia). rewrite app_nil_r.
  rewrite <-(take_drop n (take m c)) at 1. rewrite take_take, Nat.min_l by done. f_equal. symmetry. apply skipn_firstn_comm.
Qed.

(** One call of a process. *)
Lemma call_ok v0 js tmp o p d p' d' :
  disk_ok (made v0 js) d → tmp ≠ path → pc_made v0 js p → pc_on_disk tmp p d → live p = true →
  call path tmp o p d = (p', d') →
  disk_ok (made v0 js) d' ∧ frame tmp d d' ∧ pc_made v0 js p' ∧ pc_on_disk tmp p' d' ∧
  content path d' = match p' with Pc_done c => Some c | _ => content path d end.
Proof.
  intros Hd Hne Hm Hon Hlive.
  assert (Hsame : frame tmp d d) by by intros t _ _.
  unfold call. destruct o as [k|]; [|by intros [= <- <-]].
  destruct p as [line|c|c n fd|c fd|c|c| |]; try done; cbn [pc_made pc_on_disk] in Hm, Hon.
  - destruct (read_existing (content path d)) as [t|] eqn:Et; intros [= <- <-]; [|done].
    split_and!; try done. eapply made_append; [done|by apply read_made|done].
  - destruct (file_create tmp d) as [fd d1] eqn:Ef. intros [= <- <-].
    destruct (file_create_ok _ _ _ _ _ Hd Hne Ef) as (Hd1 & Hf1 & Hc1 & Hdir & Hin).
    split; [done|]. split; [done|]. unfold next_write. destruct (Nat.leb_spec (length c) 0) as [Hz|Hz]; (split; [done|]);
      (split; [split; [done|]|done]); rewrite Hin; [|split; [done|lia]]. by destruct c; cbn in *; [|lia].
  - destruct Hon as (Hdir & Hold & Hn). intros [= <- <-]. set (m := Nat.min _ _). rewrite Hold. cbn [default from_option id].
    rewrite write_at_end by (subst m; lia).
    pose proof (target_other _ _ _ _ Hd Hne Hdir) as Ho. pose proof (frame_set_inode _ _ _ _ (mkInode (take m c) false) Hd Hdir) as Hf.
    split; [by apply disk_ok_set_inode|]. split; [done|].
    assert (Hc : content path (set_inode fd (mkInode (take m c) false) d) = content path d) by by apply content_set_inode.
    unfold next_write. destruct (Nat.leb_spec (length c) m) as [Hz|Hz]; (split; [done|]); (split; [split; [done|]|done]); cbn;
      rewrite lookup_insert_eq; [|split; [done|lia]]. cbn. by rewrite take_ge.
  - destruct Hon as [Hdir Hin]. intros [= <- <-]. destruct (dk_inodes d !! fd) as [i|] eqn:Ei; [|done]. injection Hin as Hin.
    unfold sync_all. rewrite Ei. pose proof (target_other _ _ _ _ Hd Hne Hdir) as Ho.
    split; [by apply disk_ok_set_inode|]. split; [by eapply frame_set_inode|]. split; [done|].
    split; [|by apply content_set_inode]. exists fd. split; [done|]. cbn. by rewrite lookup_insert_eq, Hin.
  - destruct Hon as (fd & Hdir & Hin). destruct (rename tmp path d) as [d1|] eqn:Er; intros [= <- <-]; [|done].
    destruct (rename_ok _ _ _ _ _ _ Hd Hne Hdir Hin Hm Er) as (Hd1 & Hf1 & Hc1). done.
Qed.

(** ** Steps *)

Lemma made_disk_mono v0 js js' d : disk_ok (made v0 js) d → disk_ok (made v0 (js ++ js')) d.
Proof.
  intros [Hall Hun]. split; [|done]. eapply Forall_impl; [exact Hall|]. intros dir [Ht Hok]. split; [|done].
  unfold target_ok in *. destruct (dir !! path); [|by apply made_mono]. destruct Ht as (c & Hc & Hm). exists c.
  split; [done|]. by apply made_mono.
Qed.

Lemma pc_made_mono v0 js js' p : pc_made v0 js p → pc_made v0 (js ++ js') p.
Proof. destruct p; cbn; try apply made_mono; try done. intros Hin. apply elem_of_app. by left. Qed.

Lemma lost_ok P d d' : disk_ok P d → lost d d' → disk_ok P d'.
Proof.
  intros Hd (Hsuf & Hin). split.
  - apply Forall_forall. intros dir Hdir. assert (Hdir0 : dir ∈ dirs d) by (destruct Hsuf as [l ->]; apply elem_of_app; by right).
    destruct (disk_ok_dir _ _ _ Hd Hdir0) as [Ht [Hinj Hex]]. split.
    + unfold target_ok in *. destruct (dir !! path) as [n|]; [|done]. destruct Ht as (c & Hc & HP). exists c. split; [|done].
      destruct (Hin n _ Hc) as (i' & Hi' & Hs). rewrite Hi'. f_equal. by apply Hs.
    + split; [done|]. intros a n Ha. destruct (Hex a n Ha) as [i Hi]. destruct (Hin n i Hi) as (i' & Hi' & _). by eexists.
  - intros ds Hs. apply (proj2 Hd). by etrans.
Qed.

Lemma kill_not_live q : live (kill q).2 = false.
Proof. destruct q as [t p]. cbn. destruct (live p) eqn:E; [done|exact E]. Qed.

Lemma kill_made v0 js q : pc_made v0 js q.2 → pc_made v0 js (kill q).2.
Proof. destruct q as [t p]. cbn. by destruct (live p). Qed.

Lemma spawn_inv v0 tmp j d ps js :
  inv v0 (mkSystem d ps js) → tmp ≠ path → (∀ q, q ∈ ps → live q.2 = true → q.1 ≠ tmp) →
  inv v0 (mkSystem d (ps ++ [(tmp, pc_start j)]) (js ++ [j])).
Proof.
  intros [Hd [Hp Hdis]] Hne Hfree. split; [by apply made_disk_mono|]. split; cbn [sy_disk sy_procs sy_jobs] in *.
  - intros i t p [Hi|[_ Hi]]%lookup_app_Some.
    + destruct (Hp i t p Hi) as [Hm Hon]. split; [by apply pc_made_mono|done].
    + apply list_lookup_singleton_Some in Hi as [_ [= <- <-]]. split; [|intros _; split; [done|by destruct j]].
      destruct j as [line|text]; cbn; [apply elem_of_app; right; by left|]. apply made_write, elem_of_app. right. by left.
  - intros i k t p t' p' Hi Hk Hik Hl Hl'.
    apply lookup_app_Some in Hi as [Hi|[Hi' Hi]], Hk as [Hk|[Hk' Hk]].
    + by eapply (Hdis i k).
    + apply list_lookup_singleton_Some in Hk as [_ [= <- <-]]. apply (Hfree (t, p)); [by eapply list_elem_of_lookup_2|done].
    + apply list_lookup_singleton_Some in Hi as [_ [= <- <-]]. apply not_eq_sym, (Hfree (t', p')); [by eapply list_elem_of_lookup_2|done].
    + apply list_lookup_singleton_Some in Hi as [Hi _]. apply list_lookup_singleton_Some in Hk as [Hk _]. lia.
Qed.

Lemma call_inv v0 i tmp p o p' d d' ps js :
  inv v0 (mkSystem d ps js) → ps !! i = Some (tmp, p) → live p = true → call path tmp o p d = (p', d') →
  inv v0 (mkSystem d' (<[i := (tmp, p')]> ps) js).
Proof.
  intros [Hd [Hp Hdis]] Hi Hlive Hcall. cbn [sy_disk sy_procs sy_jobs] in *.
  destruct (Hp i tmp p Hi) as [Hm Hon]. destruct (Hon Hlive) as [Hne Hond].
  destruct (call_ok _ _ _ _ _ _ _ _ Hd Hne Hm Hond Hlive Hcall) as (Hd' & Hf & Hm' & Hon' & _).
  split; [done|]. split.
  - intros k t q Hk. cbn in Hk. apply list_lookup_insert_Some in Hk as [(<- & [= <- <-] & _)|[Hik Hk]]; [done|].
    destruct (Hp k t q Hk) as [Hmk Honk]. split; [done|]. intros Hlk. destruct (Honk Hlk) as [Hnk Hdk]. split; [done|].
    eapply pc_on_disk_frame; [exact Hf| |done|done]. by eapply (Hdis k i).
  - intros k l t q t' q' Hk Hl Hkl Hlq Hlq'. cbn in Hk, Hl. apply list_lookup_insert_Some in Hk as [(<- & [= <- <-] & _)|[Hik Hk]].
    + apply list_lookup_insert_Some in Hl as [(<- & _)|[Hil Hl]]; [done|]. by eapply (Hdis i l).
    + apply list_lookup_insert_Some in Hl as [(<- & [= <- <-] & _)|[Hil Hl]]; [by eapply (Hdis k i)|by eapply (Hdis k l)].
Qed.

(** Processes that end change nothing. *)
Lemma killed_inv v0 d ps ps' js :
  inv v0 (mkSystem d ps js) →
  (∀ k q, ps' !! k = Some q → ps !! k = Some q ∨ ∃ q0, ps !! k = Some q0 ∧ q = kill q0) → inv v0 (mkSystem d ps' js).
Proof.
  intros [Hd [Hp Hdis]] Hps. cbn [sy_disk sy_procs sy_jobs] in *. split; [done|]. split.
  - intros k t p Hk. destruct (Hps k _ Hk) as [Hk'|([t0 p0] & Hk' & Heq)]; [by apply (Hp k)|].
    pose proof (kill_not_live (t0, p0)) as Hn. pose proof (kill_made v0 js (t0, p0) (proj1 (Hp k t0 p0 Hk'))) as Hm.
    rewrite <-Heq in Hn, Hm. cbn in Hn, Hm. split; [done|congruence].
  - intros k l t p t' p' Hk Hl Hkl Hlp Hlp'.
    destruct (Hps k _ Hk) as [Hk'|(q & _ & Heq)]; [|pose proof (kill_not_live q) as Hn; rewrite <-Heq in Hn; cbn in Hn; congruence].
    destruct (Hps l _ Hl) as [Hl'|(q & _ & Heq)]; [|pose proof (kill_not_live q) as Hn; rewrite <-Heq in Hn; cbn in Hn; congruence].
    by eapply (Hdis k l).
Qed.

(** A power loss ends every process. *)
Lemma loss_inv v0 d d' ps js : inv v0 (mkSystem d ps js) → lost d d' → inv v0 (mkSystem d' (kill <$> ps) js).
Proof.
  intros Hinv Hlost. assert (Hk : inv v0 (mkSystem d (kill <$> ps) js)).
  { apply (killed_inv _ _ ps); [done|]. intros k q Hq. apply list_lookup_fmap_Some in Hq as (q0 & -> & Hq). right. by exists q0. }
  destruct Hk as [Hd [Hp Hdis]]. split; [by eapply lost_ok|]. split; [|exact Hdis].
  intros k t p Hq. cbn [sy_procs] in *. destruct (Hp k t p Hq) as [Hm _]. split; [done|]. intros Hl.
  apply list_lookup_fmap_Some in Hq as (q & Heq & _). pose proof (kill_not_live q) as Hn. rewrite <-Heq in Hn. cbn in Hn. congruence.
Qed.

Lemma step_inv v0 s s' : inv v0 s → exclusive_step s s' → inv v0 s'.
Proof.
  intros Hinv [Hs Hex]. destruct Hs as [tmp j d ps js Hne|i tmp p o p' d d' ps js Hi Hlive Hcall|i q d ps js Hi|d d' ps js Hlost].
  - apply spawn_inv; [done|done|]. intros [t p] Hq Hl <-. apply list_elem_of_lookup in Hq as [i Hi].
    assert (i = length ps) as ->; [|by rewrite lookup_ge_None_2 in Hi].
    eapply (Hex i (length ps) t p (pc_start j)); [by apply lookup_app_l_Some|by apply list_lookup_middle|done|by destruct j].
  - by eapply call_inv.
  - eapply killed_inv; [done|]. intros k q' Hk. apply list_lookup_insert_Some in Hk as [(<- & <- & _)|[_ Hk]]; [right; by exists q|by left].
  - by eapply loss_inv.
Qed.

(** ** Versions of appends *)

(** An append keeps what was there. *)
Lemma append_line_prefix t line : t `prefix_of` append_line t line.
Proof.
  unfold append_line. destruct (last t) as [ch|]; [|by apply prefix_app_r]. destruct (ch =? 10); [by apply prefix_app_r|].
  rewrite <-app_assoc. by apply prefix_app_r.
Qed.

Lemma append_line_chars t line : Forall is_char t → Forall is_char line → Forall is_char (append_line t line).
Proof.
  intros Ht Hl. assert (H10 : Forall is_char [10]) by by_decide. unfold append_line. apply Forall_app. split; [|by apply Forall_app].
  destruct (last t) as [ch|]; [|done]. destruct (ch =? 10); [done|by apply Forall_app].
Qed.

Lemma made_appends t0 js v :
  Forall is_char t0 → Forall (λ j, ∃ line, j = Job_append line ∧ Forall is_char line) js →
  made (Some (as_bytes t0)) js v → ∃ t, v = Some (as_bytes t) ∧ Forall is_char t ∧ t0 `prefix_of` t.
Proof.
  intros Ht0 Hjs. rewrite Forall_forall in Hjs. induction 1 as [|text Hin|line v t Hin Hm (t1 & -> & Hc1 & Hp1) Ht].
  - by exists t0.
  - by destruct (Hjs _ Hin) as (line & ? & _).
  - destruct (Hjs _ Hin) as (line' & [= <-] & Hl). cbn [read_existing] in Ht. rewrite from_utf8_as_bytes in Ht by done.
    injection Ht as <-. exists (append_line t1 line). split; [done|]. split; [by apply append_line_chars|].
    etrans; [done|]. apply append_line_prefix.
Qed.

(** * Theorems *)

(** The disk before any edit: the file is synced, and no inode has two names. *)
Definition settled (d : disk) : Prop :=
  dk_older d = [] ∧ dir_ok d (dk_dir d) ∧ ∀ n, dk_dir d !! path = Some n → ∃ c, dk_inodes d !! n = Some (mkInode c true).

Lemma settled_inv d : settled d → inv (content path d) (mkSystem d [] []).
Proof.
  intros (Hold & Hok & Hsync). split; [|by split; intros i]. split.
  - cbn. rewrite Hold. apply Forall_singleton. split; [|done]. unfold target_ok. pose proof (Hsync) as Hs. unfold content, content_in.
    destruct (dk_dir d !! path) as [n|]; [|apply made_first]. destruct (Hs n eq_refl) as (c & Hc). exists c. split; [done|].
    cbn. rewrite Hc. apply made_first.
  - cbn. rewrite Hold. intros [|x ds] Hs; [done|]. apply suffix_cons_inv in Hs as [Heq|Hs]; [|by apply suffix_nil_inv in Hs].
    injection Heq as -> ->. intros dir' n name Hdir Hn Hne Hname. apply list_elem_of_singleton in Hdir as ->.
    by apply Hne, (proj1 Hok name path n).
Qed.

Lemma reachable_inv d s : settled d → rtc exclusive_step (mkSystem d [] []) s → inv (content path d) s.
Proof.
  intros Hd Hs. pose proof (settled_inv d Hd) as Hinv. revert Hinv. generalize (content path d). intros v0.
  induction Hs as [|x y z Hxy Hyz IH]; [done|]. intros Hx. apply IH. by eapply step_inv.
Qed.

(** C11: files are replaced atomically, as long as no two sessions of a
    coordinator edit one at once. Whatever edits coordinators and runs of the
    command-line tool make at the same time, each with a temporary name of its
    own, however their calls interleave and fail, whoever is killed and whenever
    the power goes: the file is always one
    of its complete versions, that is the first one, the whole text of a write,
    or an append to the whole of a version; when an edit returns, the file has
    its content; and as long as all edits are appends, the file can be read and
    begins with all it had. *)
Theorem atomic_file_safe d s :
  settled d → rtc exclusive_step (mkSystem d [] []) s →
  made (content path d) (sy_jobs s) (content path (sy_disk s)) ∧
  (∀ s' i tmp p c, step s s' → sy_procs s !! i = Some (tmp, p) → live p = true →
     sy_procs s' !! i = Some (tmp, Pc_done c) → content path (sy_disk s') = Some c) ∧
  (∀ t0, content path d = Some (as_bytes t0) → Forall is_char t0 →
     Forall (λ j, ∃ line, j = Job_append line ∧ Forall is_char line) (sy_jobs s) →
     ∃ t, content path (sy_disk s) = Some (as_bytes t) ∧ from_utf8 (as_bytes t) = Some t ∧ t0 `prefix_of` t).
Proof.
  intros Hd Hs. pose proof (reachable_inv d s Hd Hs) as Hinv. destruct (Hinv) as [Hdisk [Hp _]].
  pose proof (read_made _ _ _ Hdisk) as Hmade. split; [done|]. split.
  - intros s' i tmp p c Hstep Hi Hlive Hi'.
    destruct Hstep as [tmp' j d1 ps js _|k tmp' p0 o p' d1 d' ps js Hk Hl Hcall|k q d1 ps js Hk|d1 d' ps js Hlost]; cbn in *.
    + rewrite lookup_app_l in Hi' by by eapply lookup_lt_Some. assert (p = Pc_done c) as -> by congruence. done.
    + apply list_lookup_insert_Some in Hi' as [(<- & [= -> ->] & _)|[_ Hi']]; [|assert (p = Pc_done c) as -> by congruence; done].
      destruct (Hp k tmp p0 Hk) as [Hm Hon]. destruct (Hon Hl) as [Hne Hond].
      by destruct (call_ok _ _ _ _ _ _ _ _ Hdisk Hne Hm Hond Hl Hcall) as (_ & _ & _ & _ & ->).
    + apply list_lookup_insert_Some in Hi' as [(<- & Heq & _)|[_ Hi']]; [|assert (p = Pc_done c) as -> by congruence; done].
      assert (q = (tmp, p)) as -> by congruence. cbn in Heq. unfold kill in Heq. cbn in Heq. by rewrite Hlive in Heq.
    + apply list_lookup_fmap_Some in Hi' as (q & Heq & Hq). assert (q = (tmp, p)) as -> by congruence. unfold kill in Heq.
      cbn in Heq. by rewrite Hlive in Heq.
  - intros t0 Hc Ht0 Hjs. rewrite Hc in Hmade. destruct (made_appends _ _ _ Ht0 Hjs Hmade) as (t & Ht & Hchars & Hpre).
    exists t. split; [done|]. split; [by apply from_utf8_as_bytes|done].
Qed.

(** ** One edit by itself *)

(** The file as [AdminSession] sees it. *)
Definition view (d : disk) : file :=
  match content path d with
  | None => File_missing
  | Some b => match from_utf8 b with Some t => File_text t | None => File_unreadable end
  end.

Definition edit (ok : bool) (j : job) (f : file) : result unit unit * file :=
  match j with Job_append line => append_atomic ok line f | Job_write text => write_atomic ok text f end.

Definition is_done (p : pc) : bool := match p with Pc_done _ => true | _ => false end.

(** What a process writes, and how many calls it still makes at most. *)
Definition pc_content (p : pc) : option bytes :=
  match p with Pc_create c | Pc_write c _ _ | Pc_sync c _ | Pc_rename c | Pc_done c => Some c | _ => None end.

Definition rank (p : pc) : nat :=
  match p with
  | Pc_create c => length c + 4
  | Pc_write c n _ => (length c - n) + 3
  | Pc_sync _ _ => 2
  | Pc_rename _ => 1
  | _ => 0
  end.

Lemma next_write_rank c n fd : (rank (next_write c n fd) <= (length c - n) + 3)%nat ∧ pc_content (next_write c n fd) = Some c.
Proof. unfold next_write. destruct (Nat.leb_spec (length c) n); cbn; split; try done; lia. Qed.

(** A call gets a process nearer to its end, with what it writes. *)
Lemma call_rank tmp k p d p' d' c :
  pc_content p = Some c → live p = true → pc_on_disk tmp p d → call path tmp (Call_ok k) p d = (p', d') →
  (rank p' < rank p)%nat ∧ pc_content p' = Some c.
Proof.
  intros Hc Hlive Hon. unfold call. destruct p as [line|c0|c0 n fd|c0 fd|c0|c0| |]; try done; cbn [pc_content] in Hc; injection Hc as ->.
  - destruct (file_create tmp d) as [fd d1]. intros [= <- <-]. destruct (next_write_rank c 0 fd) as [Hr ->]. cbn. split; [lia|done].
  - intros [= <- <-]. destruct (next_write_rank c (Nat.min (length c) (n + S k)) fd) as [Hr ->]. split; [|done].
    unfold next_write in *. destruct (Nat.leb_spec (length c) (Nat.min (length c) (n + S k))); cbn in *; lia.
  - intros [= <- <-]. cbn. split; [lia|done].
  - destruct Hon as (fd & Hdir & _). unfold rename. rewrite Hdir. cbn. intros [= <- <-]. cbn. split; [lia|done].
Qed.

Lemma run_calls_ended tmp os p d : live p = false → run_calls path tmp os p d = (p, d).
Proof. intros Hl. destruct os as [|o os]; cbn; [done|]. by rewrite Hl. Qed.

(** A process that has its content runs to its end. *)
Lemma run_calls_result v0 js tmp os p d p' d' c :
  disk_ok (made v0 js) d → tmp ≠ path → pc_made v0 js p → pc_on_disk tmp p d → live p = true → pc_content p = Some c →
  (rank p <= length os)%nat → run_calls path tmp os p d = (p', d') →
  live p' = false ∧ content path d' = (if is_done p' then Some c else content path d) ∧
  (Forall (λ o, o ≠ Call_err) os → is_done p' = true).
Proof.
  intros Hd Hne. revert p d Hd. induction os as [|o os IH]; intros p d Hd Hm Hon Hl Hc Hr Hrun.
  { destruct p; cbn in *; try done; lia. }
  cbn [run_calls] in Hrun. rewrite Hl in Hrun. destruct (call path tmp o p d) as [p1 d1] eqn:Ecall.
  destruct (call_ok _ _ _ _ _ _ _ _ Hd Hne Hm Hon Hl Ecall) as (Hd1 & _ & Hm1 & Hon1 & Hcont).
  destruct o as [k|].
  - destruct (call_rank _ _ _ _ _ _ _ Hc Hl Hon Ecall) as [Hlt Hc1]. destruct (live p1) eqn:Hl1.
    + destruct (IH p1 d1) as (He & Hcc & Hok); try done; [cbn in Hr; lia|]. split; [done|]. split.
      * rewrite Hcc, Hcont. by destruct (is_done p'), p1.
      * intros [_ Ho]%Forall_cons. by apply Hok.
    + rewrite run_calls_ended in Hrun by done. injection Hrun as <- <-. split; [done|].
      destruct p1; cbn in *; try done. by injection Hc1 as ->.
  - cbn in Ecall. injection Ecall as <- <-. rewrite run_calls_ended in Hrun by done. injection Hrun as <- <-.
    split; [done|]. split; [done|]. by intros [? _]%Forall_cons.
Qed.

(** Calls enough for an edit: reading, creating, one write per byte, the end of
    the last write, syncing and renaming. *)
Definition calls_needed (j : job) (f : file) : nat :=
  match j, f with
  | Job_write text, _ => length (as_bytes text) + 4
  | Job_append line, File_text t => length (as_bytes (append_line t line)) + 5
  | Job_append line, _ => length (as_bytes (append_line [] line)) + 5
  end.

Definition job_text (j : job) : list Z := match j with Job_append line => line | Job_write text => text end.

Lemma view_done d text :
  Forall is_char text → content path d = Some (as_bytes text) → view d = File_text text.
Proof. intros Ht Hc. unfold view. rewrite Hc. by rewrite from_utf8_as_bytes. Qed.

Lemma view_same d d' : content path d' = content path d → view d' = view d.
Proof. unfold view. by intros ->. Qed.

(** A process that writes [text], run to its end. *)
Lemma write_refines v0 js tmp os d p' d' text :
  disk_ok (made v0 js) d → tmp ≠ path → made v0 js (Some (as_bytes text)) → Forall is_char text →
  (length (as_bytes text) + 4 <= length os)%nat → run_calls path tmp os (Pc_create (as_bytes text)) d = (p', d') →
  live p' = false ∧
  write_atomic (is_done p') text (view d) = (if is_done p' then Ok () else Err (), view d') ∧
  (Forall (λ o, o ≠ Call_err) os → is_done p' = true).
Proof.
  intros Hd Hne Hm Ht Hos Hrun.
  destruct (run_calls_result v0 js tmp os (Pc_create (as_bytes text)) d p' d' (as_bytes text) Hd Hne Hm I eq_refl eq_refl Hos Hrun) as (Hl & Hc & Hok).
  split; [done|]. split; [|done]. unfold write_atomic. destruct (is_done p'); f_equal; symmetry.
  - by apply view_done.
  - by apply view_same.
Qed.

(** C21: an edit that runs by itself is the edit [AdminSession] and [AdminCli]
    reason with. On any disk that edits, kills and power losses can lead to, an
    append or a write ends after at most as many calls as it has bytes to write
    and five more; it returns with the file replaced by exactly the new text, or
    fails with the file as it was; and it fails only if a call fails or the file
    was not text. *)
Theorem atomic_file_refines d0 s tmp j os p d :
  settled d0 → rtc exclusive_step (mkSystem d0 [] []) s → tmp ≠ path → Forall is_char (job_text j) →
  (∀ b, content path (sy_disk s) = Some b → Forall (uint 8) b) →
  (calls_needed j (view (sy_disk s)) <= length os)%nat → run_calls path tmp os (pc_start j) (sy_disk s) = (p, d) →
  live p = false ∧
  edit (is_done p) j (view (sy_disk s)) = (if is_done p then Ok () else Err (), view d) ∧
  (Forall (λ o, o ≠ Call_err) os → view (sy_disk s) ≠ File_unreadable → is_done p = true).
Proof.
  intros Hd0 Hs Hne Hj Hb Hos Hrun. destruct (reachable_inv d0 s Hd0 Hs) as [Hd _].
  apply (made_disk_mono _ _ [j]) in Hd. set (js := sy_jobs s ++ [j]) in *. set (v0 := content path d0) in *.
  assert (Hin : j ∈ js) by (apply elem_of_app; right; by left).
  destruct j as [line|text]; cbn [pc_start edit job_text] in *.
  - destruct os as [|o os]; [destruct (view (sy_disk s)); cbn in Hos; lia|]. cbn [run_calls live call] in Hrun.
    destruct o as [k|]; cbn [call] in Hrun.
    2: { rewrite run_calls_ended in Hrun by done. injection Hrun as <- <-. split; [done|]. split; [|by intros [? _]%Forall_cons].
         unfold append_atomic, write_atomic. by destruct (view _). }
    pose proof (read_made _ _ _ Hd) as Hmade.
    assert (Hread : read_existing (content path (sy_disk s)) =
      match view (sy_disk s) with File_text t => Some t | File_missing => Some [] | File_unreadable => None end).
    { unfold view, read_existing. destruct (content path (sy_disk s)) as [b|]; [|done]. by destruct (from_utf8 b). }
    assert (Hchars : ∀ t, read_existing (content path (sy_disk s)) = Some t → Forall is_char t).
    { intros t. unfold read_existing. destruct (content path (sy_disk s)) as [b|]; [|by intros [= <-]].
      apply from_utf8_is_char. by apply Hb. }
    destruct (read_existing _) as [t|] eqn:Et.
    + assert (Happ : made v0 js (Some (as_bytes (append_line t line)))) by by eapply made_append.
      assert (Hlen : (length (as_bytes (append_line t line)) + 4 <= length os)%nat)
        by (destruct (view _); cbn in *; simplify_eq; cbn in *; lia).
      destruct (write_refines v0 js tmp os _ p d (append_line t line) Hd Hne Happ) as (Hl & He & Hok); try done;
        [by apply append_line_chars; [apply Hchars|]|].
      split; [done|]. split; [|intros [_ Ho]%Forall_cons _; by apply Hok].
      unfold append_atomic. destruct (view (sy_disk s)) eqn:Ev; simplify_eq; done.
    + rewrite run_calls_ended in Hrun by done. injection Hrun as <- <-. split; [done|].
      destruct (view (sy_disk s)) eqn:Ev; try done.
  - destruct (write_refines v0 js tmp os _ p d text Hd Hne) as (Hl & He & Hok); try done; [by apply made_write|]. split_and!; try done.
    intros Ho _. by apply Hok.
Qed.

End system.

(** * The names *)

Lemma app_nonempty_ne {A} (l s : list A) : s ≠ [] → l ++ s ≠ l.
Proof. intros Hs Heq. apply Hs. rewrite <-(app_nil_r l) in Heq at 2. by apply app_inv_head in Heq. Qed.

(** Running processes have temporary names of their own, and none is the
    file's. *)
Lemma temp_names path pid pid' :
  uint 64 pid → uint 64 pid' →
  tmp_coord path pid ≠ path ∧ tmp_cli path pid ≠ path ∧ tmp_coord path pid ≠ tmp_cli path pid' ∧
  (tmp_coord path pid = tmp_coord path pid' → pid = pid') ∧ (tmp_cli path pid = tmp_cli path pid' → pid = pid').
Proof.
  intros Hp Hp'. split; [by apply app_nonempty_ne|]. split; [by apply app_nonempty_ne|]. split.
  - intros Heq. unfold tmp_coord, tmp_cli in Heq. apply app_inv_head in Heq. cbn [chars app] in Heq.
    pose proof (show_u64_digits pid') as Hd. rewrite !(inj_iff (cons _)) in Heq. rewrite <-Heq in Hd.
    apply Forall_cons in Hd as [Hd _]. vm_compute in Hd. by destruct Hd as [? []].
  - split; intros Heq; apply app_inv_head, app_inv_head in Heq; by apply show_u64_inj.
Qed.

(** * Examples *)

(** A schedule: which process makes the next call, and how it ends. *)
Fixpoint schedule (path : list Z) (sched : list (nat * outcome)) (s : system) : option system :=
  match sched with
  | [] => Some s
  | (i, o) :: sched =>
      '(tmp, p) ← sy_procs s !! i;
      if live p then
        let '(p', d) := call path tmp o p (sy_disk s) in
        schedule path sched (mkSystem d (<[i := (tmp, p')]> (sy_procs s)) (sy_jobs s))
      else None
  end.

Lemma schedule_steps path sched s s' : schedule path sched s = Some s' → rtc (step path) s s'.
Proof.
  revert s. induction sched as [|[i o] sched IH]; intros s; cbn [schedule]; [intros [= <-]; apply rtc_refl|].
  destruct (sy_procs s !! i) as [[tmp p]|] eqn:Ei; [|done]. cbn [mbind option_bind]. destruct (live p) eqn:El; [|done].
  destruct (call path tmp o p (sy_disk s)) as [p' d] eqn:Ec. intros Hs. eapply rtc_l; [|by apply IH].
  destruct s as [d0 ps js]. by eapply step_call.
Qed.

(** A call keeps the temporary names apart. *)
Lemma call_exclusive i tmp p p' d d' ps js :
  ps !! i = Some (tmp, p) → live p = true → exclusive (mkSystem d ps js) →
  exclusive (mkSystem d' (<[i := (tmp, p')]> ps) js).
Proof.
  intros Hi Hl Hex k l t q q' Hk Hl' Hq Hq'. cbn [sy_procs] in *.
  apply list_lookup_insert_Some in Hk as [(<- & [= <- <-] & _)|[Hik Hk]].
  - apply list_lookup_insert_Some in Hl' as [(<- & _)|[Hil Hl']]; [done|]. by eapply (Hex i l tmp p q').
  - apply list_lookup_insert_Some in Hl' as [(<- & [= <- <-] & _)|[Hil Hl']]; [by eapply (Hex k i tmp q p)|by eapply (Hex k l t q q')].
Qed.

Lemma schedule_exclusive path sched s s' :
  schedule path sched s = Some s' → exclusive s → rtc (exclusive_step path) s s'.
Proof.
  revert s. induction sched as [|[i o] sched IH]; intros s; cbn [schedule]; [intros [= <-] _; apply rtc_refl|].
  destruct (sy_procs s !! i) as [[tmp p]|] eqn:Ei; [|done]. cbn [mbind option_bind]. destruct (live p) eqn:El; [|done].
  destruct (call path tmp o p (sy_disk s)) as [p' d] eqn:Ec. intros Hs Hex. destruct s as [d0 ps js]. cbn in *.
  assert (Hex' : exclusive (mkSystem d (<[i := (tmp, p')]> ps) js)) by by eapply call_exclusive.
  eapply rtc_l; [|by apply IH]. split; [by eapply step_call|done].
Qed.

Definition demo_path : list Z := chars "enrollment.txt".

(** The file holds one line. *)
Definition demo_disk : disk := mkDisk {[0%nat := mkInode (chars "a" ++ [10]) true]} {[demo_path := 0%nat]} [].

Lemma demo_settled : settled demo_path demo_disk.
Proof.
  unfold settled, dir_ok. cbn [demo_disk dk_dir dk_older dk_inodes]. split; [done|]. split; [split|].
  - intros a b n [<- _]%lookup_singleton_Some [<- _]%lookup_singleton_Some. done.
  - intros a n [_ <-]%lookup_singleton_Some. by eexists.
  - intros n [_ <-]%lookup_singleton_Some. by eexists.
Qed.

(** The coordinator and the tool append a line each. *)
Definition two_appends : system :=
  mkSystem demo_disk
    [(tmp_coord demo_path 10, Pc_read (chars "b")); (tmp_cli demo_path 11, Pc_read (chars "c"))]
    [Job_append (chars "b"); Job_append (chars "c")].

Lemma two_appends_exclusive : exclusive two_appends.
Proof.
  intros [|[|i]] [|[|j]] t p p' Hi Hj; try done; cbn in Hi, Hj; exfalso; simplify_eq;
    assert (tmp_coord demo_path 10 ≠ tmp_cli demo_path 11) by by_decide; congruence.
Qed.

Lemma two_appends_begun : rtc (exclusive_step demo_path) (mkSystem demo_disk [] []) two_appends.
Proof.
  eapply rtc_l; [split; [apply (step_spawn demo_path (tmp_coord demo_path 10) (Job_append (chars "b"))); by_decide|]|].
  { intros [|i] [|j] t p p' Hi Hj; done. }
  eapply rtc_l; [|apply rtc_refl]. split; [|exact two_appends_exclusive].
  apply (step_spawn demo_path (tmp_cli demo_path 11) (Job_append (chars "c"))). by_decide.
Qed.

Definition whole (i : nat) : list (nat * outcome) := [(i, Call_ok 0); (i, Call_ok 9); (i, Call_ok 0); (i, Call_ok 0)].

(** Both read before either renames: both return, and one line is lost. *)
Definition racing : list (nat * outcome) := [(0%nat, Call_ok 0); (1%nat, Call_ok 0)] ++ whole 0 ++ whole 1.

Example append_lost :
  (λ s, ((λ q : list Z * pc, is_done q.2) <$> sy_procs s, content demo_path (sy_disk s))) <$>
    schedule demo_path racing two_appends =
  Some ([true; true], Some (chars "a" ++ [10] ++ chars "c" ++ [10])).
Proof. vm_compute. reflexivity. Qed.

(** The tool is cut off in the middle of its write, the coordinator is not. *)
Definition cut_short : list (nat * outcome) :=
  [(1%nat, Call_ok 0); (1%nat, Call_ok 0); (1%nat, Call_ok 1); (0%nat, Call_ok 0)] ++ whole 0 ++ [(1%nat, Call_err)].

Lemma atomic_file_safe_witness :
  ∃ s, schedule demo_path cut_short two_appends = Some s ∧
    content demo_path (sy_disk s) = Some (chars "a" ++ [10] ++ chars "b" ++ [10]) ∧
    made (content demo_path demo_disk) (sy_jobs s) (content demo_path (sy_disk s)) ∧
    ∃ t, content demo_path (sy_disk s) = Some (as_bytes t) ∧ (chars "a" ++ [10]) `prefix_of` t.
Proof.
  assert (Hc : (λ s, (sy_jobs s, content demo_path (sy_disk s))) <$> schedule demo_path cut_short two_appends =
    Some ([Job_append (chars "b"); Job_append (chars "c")], Some (chars "a" ++ [10] ++ chars "b" ++ [10])))
    by (vm_compute; reflexivity).
  destruct (schedule demo_path cut_short two_appends) as [s|] eqn:Es; [|done]. injection Hc as Hjobs Hc.
  destruct (atomic_file_safe demo_path demo_disk s demo_settled) as (Hm & _ & Hpre).
  { etrans; [exact two_appends_begun|]. eapply schedule_exclusive; [done|exact two_appends_exclusive]. }
  exists s. split; [done|]. split; [exact Hc|]. split; [exact Hm|].
  destruct (Hpre (chars "a" ++ [10])) as (t & Ht & _ & Hp).
  - reflexivity.
  - by_decide.
  - rewrite Hjobs. apply Forall_cons. split; [exists (chars "b"); split; [done|by_decide]|].
    apply Forall_singleton. exists (chars "c"). split; [done|by_decide].
  - exists t. split; [exact Ht|exact Hp].
Defined.

(** Two sessions of one coordinator append at once: the second creates the
    temporary file anew while the first is about to rename it. *)
Definition two_sessions : system :=
  mkSystem demo_disk
    [(tmp_coord demo_path 10, Pc_read (chars "b")); (tmp_coord demo_path 10, Pc_read (chars "c"))]
    [Job_append (chars "b"); Job_append (chars "c")].

Definition overtaking : list (nat * outcome) :=
  [(0%nat, Call_ok 0); (0%nat, Call_ok 0); (0%nat, Call_ok 9); (0%nat, Call_ok 0); (1%nat, Call_ok 0); (1%nat, Call_ok 0);
   (0%nat, Call_ok 0)].

(** The first session returns, and the file is empty: neither the content it had
    nor what either session writes, but the file the second has just begun. *)
Theorem coordinator_sessions_race :
  ∃ s, rtc (step demo_path) (mkSystem demo_disk [] []) s ∧
    sy_procs s !! 0%nat = Some (tmp_coord demo_path 10, Pc_done (chars "a" ++ [10] ++ chars "b" ++ [10])) ∧
    content demo_path (sy_disk s) = Some [] ∧
    ¬ made (content demo_path demo_disk) (sy_jobs s) (content demo_path (sy_disk s)).
Proof.
  assert (Hc : (λ s, (sy_jobs s, sy_procs s !! 0%nat, content demo_path (sy_disk s))) <$>
    schedule demo_path overtaking two_sessions =
    Some ([Job_append (chars "b"); Job_append (chars "c")],
      Some (tmp_coord demo_path 10, Pc_done (chars "a" ++ [10] ++ chars "b" ++ [10])), Some [])) by (vm_compute; reflexivity).
  destruct (schedule demo_path overtaking two_sessions) as [s|] eqn:Es; [|done]. injection Hc as Hjobs Hp Hc. exists s.
  split; [|split; [done|split; [done|]]].
  - etrans; [|by eapply schedule_steps].
    eapply rtc_l; [apply (step_spawn demo_path (tmp_coord demo_path 10) (Job_append (chars "b"))); by_decide|].
    eapply rtc_l; [apply (step_spawn demo_path (tmp_coord demo_path 10) (Job_append (chars "c"))); by_decide|apply rtc_refl].
  - rewrite Hc, Hjobs. intros Hm. destruct (made_appends (chars "a" ++ [10]) [Job_append (chars "b"); Job_append (chars "c")] (Some []))
      as (t & Ht & _ & Hpre).
    + by_decide.
    + apply Forall_cons. split; [exists (chars "b"); split; [done|by_decide]|].
      apply Forall_singleton. exists (chars "c"). split; [done|by_decide].
    + exact Hm.
    + destruct Hpre as [t' ->]. by destruct t'.
Qed.

Lemma atomic_file_refines_witness :
  ∃ d, run_calls demo_path (tmp_cli demo_path 11) (replicate 10 (Call_ok 0)) (pc_start (Job_append (chars "c"))) demo_disk
      = (Pc_done (chars "a" ++ [10] ++ chars "c" ++ [10]), d) ∧
    view demo_path d = File_text (chars "a" ++ [10] ++ chars "c" ++ [10]).
Proof.
  destruct (run_calls demo_path (tmp_cli demo_path 11) (replicate 10 (Call_ok 0)) (pc_start (Job_append (chars "c"))) demo_disk)
    as [p d] eqn:Er.
  assert (Hp : (run_calls demo_path (tmp_cli demo_path 11) (replicate 10 (Call_ok 0)) (pc_start (Job_append (chars "c"))) demo_disk).1
    = Pc_done (chars "a" ++ [10] ++ chars "c" ++ [10])) by (vm_compute; reflexivity).
  rewrite Er in Hp. cbn [fst] in Hp. subst p.
  destruct (atomic_file_refines demo_path demo_disk (mkSystem demo_disk [] []) (tmp_cli demo_path 11) (Job_append (chars "c"))
    (replicate 10 (Call_ok 0)) (Pc_done (chars "a" ++ [10] ++ chars "c" ++ [10])) d demo_settled (rtc_refl _ _))
    as (_ & He & _).
  - by_decide.
  - by_decide.
  - intros b. vm_compute. intros [= <-]. by_decide.
  - vm_compute. lia.
  - exact Er.
  - exists d. split; [done|]. injection He as He. symmetry. exact He.
Defined.
