(* ===== verification/Webhook.v ===== *)
(** Webhook verification and translation
    (src/crates/cosaci-webhook/src/signature.rs, manifest.rs and translate.rs).

    HMAC-SHA-256 is the hmac crate, an interface; TOML is the toml crate. A JSON
    value is a tree; a number is its decimal text. The theorems say exactly when
    a delivery is authentic, and give the translation of an event as a function
    of the manifest in which only the two source-fetch fields can carry text of
    the event. *)

From S2P Require Import Prelude Attestation Text Enrollment Wasm.

(** * signature.rs *)

(** The hmac crate: HMAC-SHA-256 of a message under a key of any length. *)
Class HmacSha256 := hmac_sha256 : bytes → bytes → bytes.

Inductive SignatureError :=
| SignatureError_Malformed
| SignatureError_BadSignature
| SignatureError_Stale.

#[export] Instance SignatureError_eq_dec : EqDecision SignatureError.
Proof. solve_decision. Defined.

(** [str::strip_prefix]. *)
Fixpoint strip_prefix (p s : list Z) : option (list Z) :=
  match p, s with
  | [], _ => Some s
  | c :: p, d :: s => if c =? d then strip_prefix p s else None
  | _ :: _, [] => None
  end.

(** Both cases of letters, as in the enrollment parser. *)
Definition webhook_parse_hex32 (s : list Z) : option bytes :=
  if negb (str_len s =? 64) then None else hex_decode hex_digit (as_bytes s).

Definition verify_github_signature `{HmacSha256} (body : bytes) (header_value : list Z) (secret : bytes) :
    result unit SignatureError :=
  match strip_prefix (chars "sha256=") header_value with
  | None => Err SignatureError_Malformed
  | Some hex =>
      match webhook_parse_hex32 hex with
      | None => Err SignatureError_Malformed
      | Some provided =>
          if bool_decide (provided = hmac_sha256 secret body) then Ok () else Err SignatureError_BadSignature
      end
  end.

(** The accumulator loop: no early exit. *)
Definition constant_time_eq (a b : bytes) : bool :=
  if negb (Nat.eqb (length a) (length b)) then false
  else foldl (λ acc p, Z.lor acc (Z.lxor p.1 p.2)) 0 (zip a b) =? 0.

Definition verify_gitlab_token (header_value expected_token : list Z) : result unit SignatureError :=
  if bool_decide (header_value = []) || bool_decide (expected_token = []) then Err SignatureError_Malformed
  else if constant_time_eq (as_bytes header_value) (as_bytes expected_token) then Ok ()
  else Err SignatureError_BadSignature.

Definition is_fresh (event_unix_secs now_unix_secs window_secs : Z) : bool :=
  abs_diff event_unix_secs now_unix_secs <=? window_secs.

(** ** Lemmas *)

Lemma strip_prefix_spec p s r : strip_prefix p s = Some r ↔ s = p ++ r.
Proof.
  revert s. induction p as [|c p IH]; intros s; simpl; [split; congruence|].
  destruct s as [|d s]; [done|]. destruct (Z.eqb_spec c d) as [->|Hne]; [rewrite IH; split; congruence|].
  split; [done|]. intros [= -> _]. done.
Qed.

Lemma lor_xor_zero l acc :
  foldl (λ acc p, Z.lor acc (Z.lxor p.1 p.2)) acc l = 0 ↔ acc = 0 ∧ Forall (λ p : Z * Z, p.1 = p.2) l.
Proof.
  revert acc. induction l as [|[x y] l IH]; intros acc; simpl; [rewrite Forall_nil; tauto|].
  rewrite IH, Forall_cons, Z.lor_eq_0_iff, Z.lxor_eq_0_iff. simpl. tauto.
Qed.

Lemma constant_time_eq_spec a b : constant_time_eq a b = true ↔ a = b.
Proof.
  unfold constant_time_eq. destruct (Nat.eqb_spec (length a) (length b)) as [Hl|Hl]; simpl;
    [|split; [done|]; by intros ->].
  rewrite Z.eqb_eq, lor_xor_zero. split.
  - intros [_ Hall]. revert b Hl Hall. induction a as [|x a IH]; intros [|y b] Hl Hall; try done.
    simpl in Hall. apply Forall_cons in Hall as [Hx Hall]. simpl in Hx, Hl. f_equal; [done|]. apply IH; [lia|done].
  - intros ->. split; [done|]. apply Forall_forall. intros [x y] Hin. simpl. clear Hl.
    induction b as [|z b IH]; simpl in Hin; [by apply not_elem_of_nil in Hin|].
    apply elem_of_cons in Hin as [Hin|Hin]; [congruence|auto].
Qed.

(** * manifest.rs *)

Record TenantSection := mkTenantSection { ts_id : Z }.

Inductive StepSection :=
| StepSection_SourceFetch (url reference : list Z)
| StepSection_ExecWasm (module_path args_cbor_hex : list Z).

Record PipelineSection := mkPipelineSection {
  pl_name : list Z;
  pl_on_events : list (list Z);
  pl_steps : list StepSection;
}.

Record CosaciToml := mkCosaciToml { ct_tenant : TenantSection; ct_pipelines : list PipelineSection }.

Inductive ManifestError := ManifestError_Toml (msg : list Z) | ManifestError_Schema (msg : list Z).

(** The toml crate's derived reader and writer; an error is its message. *)
Class Toml := {
  toml_from_str : list Z → result CosaciToml (list Z);
  toml_to_string : CosaciToml → result (list Z) (list Z);
}.

Definition parse_manifest `{Toml} (input : list Z) : result CosaciToml ManifestError :=
  map_err (λ msg, if contains (chars "unknown variant") msg then ManifestError_Schema msg else ManifestError_Toml msg)
    (toml_from_str input).

Definition emit_manifest `{Toml} (manifest : CosaciToml) : result (list Z) ManifestError :=
  map_err ManifestError_Toml (toml_to_string manifest).

(** * translate.rs *)

(** [serde_json::Value]: a number is the text [Number::to_string] gives it, an
    object its members. *)
#[warnings="-register-all"]
Inductive json :=
| J_null
| J_bool (b : bool)
| J_number (text : list Z)
| J_string (s : list Z)
| J_array (items : list json)
| J_object (members : list (list Z * json)).

(** [Value::get] with a string. *)
Definition json_get (key : list Z) (v : json) : option json :=
  match v with
  | J_object members => found ← list_find (λ m, m.1 = key) members; Some found.2.2
  | _ => None
  end.

(** [str::split('.')]: one piece more than there are dots. *)
Fixpoint split_dot (s : list Z) : list (list Z) :=
  match s with
  | [] => [[]]
  | c :: s =>
      if c =? 46 then [] :: split_dot s
      else match split_dot s with p :: ps => (c :: p) :: ps | [] => [[c]] end
  end.

Fixpoint walk (segments : list (list Z)) (current : json) : option json :=
  match segments with
  | [] => Some current
  | segment :: segments => next ← json_get segment current; walk segments next
  end.

Definition walk_path (root : json) (path : list Z) : option json := walk (split_dot path) root.

Inductive TranslateError :=
| TranslateError_PlaceholderUnresolved (template path : list Z)
| TranslateError_UnsupportedNamespace (ns : list Z)
| TranslateError_PlaceholderInLiteralField (step_kind field : string).

Inductive ResolvedStep :=
| ResolvedStep_SourceFetch (url reference : list Z)
| ResolvedStep_ExecWasm (module_path args_cbor_hex : list Z).

Record ResolvedPipeline := mkResolvedPipeline { rp_name : list Z; rp_steps : list ResolvedStep }.

(** [bool::to_string]. *)
Definition show_bool (b : bool) : list Z := chars (if b then "true" else "false").

Definition resolve_inner (inner template : list Z) (event : json) : result (list Z) TranslateError :=
  match strip_prefix (chars "event.") inner with
  | None => Err (TranslateError_UnsupportedNamespace inner)
  | Some path =>
      match walk_path event path with
      | None => Err (TranslateError_PlaceholderUnresolved template path)
      | Some (J_string s) => Ok s
      | Some (J_number n) => Ok n
      | Some (J_bool b) => Ok (show_bool b)
      | Some _ => Err (TranslateError_PlaceholderUnresolved template (path ++ chars " (non-scalar)"))
      end
  end.

(** [str::find] with the two slices around the match. *)
Fixpoint split_at_first (p s : list Z) : option (list Z * list Z) :=
  match strip_prefix p s with
  | Some rest => Some ([], rest)
  | None => match s with [] => None | c :: s => prod_map (cons c) id <$> split_at_first p s end
  end.

Definition OPEN : list Z := chars "{{".
Definition CLOSE : list Z := chars "}}".

(** The loop of [resolve_template] from [rest] on; every turn takes at least
    four characters off [rest], so its length is enough fuel. *)
Fixpoint resolve_rest (fuel : nat) (template rest : list Z) (event : json) (out : list Z) :
    result (list Z) TranslateError :=
  match split_at_first OPEN rest, fuel with
  | None, _ => Ok (out ++ rest)
  | Some (before, after_open), S fuel =>
      match split_at_first CLOSE after_open with
      | None => Err (TranslateError_PlaceholderUnresolved template (chars "(unterminated `{{`)"))
      | Some (inside, after_close) =>
          resolved ←? resolve_inner (trim inside) template event;
          resolve_rest fuel template after_close event (out ++ before ++ resolved)
      end
  | Some _, O => Ok out
  end.

Definition resolve_template (template : list Z) (event : json) : result (list Z) TranslateError :=
  resolve_rest (length template) template template event [].

Definition has_placeholder (s : list Z) : bool := contains OPEN s.

Definition resolve_step (step : StepSection) (event : json) : result ResolvedStep TranslateError :=
  match step with
  | StepSection_SourceFetch url reference =>
      url ←? resolve_template url event;
      reference ←? resolve_template reference event;
      Ok (ResolvedStep_SourceFetch url reference)
  | StepSection_ExecWasm module_path args_cbor_hex =>
      if has_placeholder module_path then
        Err (TranslateError_PlaceholderInLiteralField "exec-wasm" "module_path")
      else if has_placeholder args_cbor_hex then
        Err (TranslateError_PlaceholderInLiteralField "exec-wasm" "args_cbor_hex")
      else Ok (ResolvedStep_ExecWasm module_path args_cbor_hex)
  end.

(** A loop that stops at the first error. *)
Fixpoint collect {A B E} (f : A → result B E) (l : list A) : result (list B) E :=
  match l with
  | [] => Ok []
  | x :: l => y ←? f x; ys ←? collect f l; Ok (y :: ys)
  end.

Definition resolve_pipeline (p : PipelineSection) (event : json) : result ResolvedPipeline TranslateError :=
  steps ←? collect (λ step, resolve_step step event) (pl_steps p);
  Ok (mkResolvedPipeline (pl_name p) steps).

Definition pipeline_matches (p : PipelineSection) (event_name : list Z) : bool :=
  existsb (λ e, bool_decide (e = event_name)) (pl_on_events p).

Definition translate (manifest : CosaciToml) (event_name : list Z) (event_body : json) :
    result (list ResolvedPipeline) TranslateError :=
  collect (λ p, resolve_pipeline p event_body)
    (List.filter (λ p, pipeline_matches p event_name) (ct_pipelines manifest)).

(** ** What a template resolves to *)

(** The first occurrence of [p] in [s], with the text around it. *)
Definition first_at (p s before after : list Z) : Prop :=
  s = before ++ p ++ after ∧ ∀ b a, s = b ++ p ++ a → (length before <= length b)%nat.

(** The text of a scalar. *)
Inductive scalar_text : json → list Z → Prop :=
| scalar_string s : scalar_text (J_string s) s
| scalar_number n : scalar_text (J_number n) n
| scalar_bool b : scalar_text (J_bool b) (show_bool b).

(** [names event inside text]: between the braces stands [event.] and the path
    of a scalar of the event with this text. *)
Definition names (event : json) (inside text : list Z) : Prop :=
  ∃ path v, trim inside = chars "event." ++ path ∧ walk (split_dot path) event = Some v ∧ scalar_text v text.

(** The text of a template in an event, by its placeholders from the left. *)
Inductive resolves (event : json) : list Z → list Z → Prop :=
| resolves_literal t :
    contains OPEN t = false → resolves event t t
| resolves_placeholder t before after_open inside after_close text out :
    first_at OPEN t before after_open → first_at CLOSE after_open inside after_close →
    names event inside text → resolves event after_close out →
    resolves event t (before ++ text ++ out).

Inductive step_resolves (event : json) : StepSection → ResolvedStep → Prop :=
| source_fetch_resolves url url' reference reference' :
    resolves event url url' → resolves event reference reference' →
    step_resolves event (StepSection_SourceFetch url reference) (ResolvedStep_SourceFetch url' reference')
| exec_wasm_resolves module_path args_cbor_hex :
    contains OPEN module_path = false → contains OPEN args_cbor_hex = false →
    step_resolves event (StepSection_ExecWasm module_path args_cbor_hex)
      (ResolvedStep_ExecWasm module_path args_cbor_hex).

Definition pipeline_resolves (event : json) (p : PipelineSection) (r : ResolvedPipeline) : Prop :=
  rp_name r = pl_name p ∧ Forall2 (step_resolves event) (pl_steps p) (rp_steps r).

(** ** Lemmas *)

Lemma is_prefix_spec p s : is_prefix p s = true ↔ ∃ r, s = p ++ r.
Proof.
  revert s. induction p as [|c p IH]; intros s; simpl; [split; eauto|].
  destruct s as [|d s]; [split; [done|]; by intros [r [=]]|].
  rewrite andb_true_iff, Z.eqb_eq, IH. split; [intros [-> [r ->]]; eauto|].
  intros [r [= -> ->]]. eauto.
Qed.

Lemma contains_spec p s : contains p s = true ↔ ∃ a b, s = a ++ p ++ b.
Proof.
  split; [|intros (a & b & ->); apply contains_app].
  induction s as [|c s IH]; cbn [contains]; rewrite orb_true_iff, is_prefix_spec.
  - intros [[r Hr]|?]; [|done]. by exists [], r.
  - intros [[r Hr]|Hc]; [by exists [], r|]. destruct (IH Hc) as (a & b & ->). by exists (c :: a), b.
Qed.

Lemma split_at_first_some p s a b : split_at_first p s = Some (a, b) → first_at p s a b.
Proof.
  revert a b. induction s as [|c s IH]; intros a b; cbn [split_at_first];
    destruct (strip_prefix p _) as [r|] eqn:Es.
  - intros [= <- <-]. split; [simpl; by apply strip_prefix_spec|intros; simpl; lia].
  - done.
  - intros [= <- <-]. split; [simpl; by apply strip_prefix_spec|intros; simpl; lia].
  - destruct (split_at_first p s) as [[a' b']|]; [|done]. intros [= <- <-].
    destruct (IH _ _ eq_refl) as [-> Hmin]. split; [done|]. intros [|d b2] a2; simpl; intros Heq.
    + apply strip_prefix_spec in Heq. simpl in Heq. congruence.
    + injection Heq as _ Heq. apply Hmin in Heq. lia.
Qed.

Lemma split_at_first_none p s : split_at_first p s = None ↔ contains p s = false.
Proof.
  rewrite <-not_true_iff_false, contains_spec.
  induction s as [|c s IH]; cbn [split_at_first]; destruct (strip_prefix p _) as [r|] eqn:Es.
  - split; [done|]. intros Hc. destruct Hc. exists [], r. simpl. by apply strip_prefix_spec.
  - split; [|done]. intros _ ([|] & b & Heq); [simpl in Heq|done]. apply strip_prefix_spec in Heq. congruence.
  - split; [done|]. intros Hc. destruct Hc. exists [], r. simpl. by apply strip_prefix_spec.
  - rewrite fmap_None, IH. split.
    + intros Hn ([|d a] & b & Heq); simpl in Heq; [apply strip_prefix_spec in Heq; congruence|].
      injection Heq as _ Heq. eauto.
    + intros Hn (a & b & ->). apply Hn. by exists (c :: a), b.
Qed.

Lemma first_at_unique p s a b a' b' : first_at p s a b → first_at p s a' b' → a = a' ∧ b = b'.
Proof.
  intros [Hs Hmin] [Hs' Hmin']. assert (Hlen : length a = length a').
  { apply Nat.le_antisymm; eauto. }
  rewrite Hs in Hs'. apply app_inj_1 in Hs' as [-> Hs']; [|done]. apply app_inj_1 in Hs' as [_ ->]; done.
Qed.

Lemma split_at_first_iff p s a b : split_at_first p s = Some (a, b) ↔ first_at p s a b.
Proof.
  split; [apply split_at_first_some|]. intros Hf. destruct (split_at_first p s) as [[a' b']|] eqn:E.
  - apply split_at_first_some in E. by destruct (first_at_unique _ _ _ _ _ _ E Hf) as [-> ->].
  - apply split_at_first_none in E. destruct Hf as [-> _]. by rewrite contains_app in E.
Qed.

Lemma resolve_inner_ok inner template event text :
  resolve_inner (trim inner) template event = Ok text ↔ names event inner text.
Proof.
  unfold resolve_inner, names, walk_path. split.
  - destruct (strip_prefix _ _) as [path|] eqn:Es; [|done]. apply strip_prefix_spec in Es.
    destruct (walk _ _) as [v|] eqn:Ew; [|done]. intros Hv. exists path, v.
    split; [done|]. split; [done|]. destruct v; simplify_eq; constructor.
  - intros (path & v & Ht & Hw & Hs). rewrite (proj2 (strip_prefix_spec _ _ _) Ht), Hw. by destruct Hs.
Qed.

Lemma first_at_shorter p s a b : first_at p s a b → p ≠ [] → (length b < length s)%nat.
Proof. intros [-> _] Hp. rewrite !length_app. destruct p; [done|simpl; lia]. Qed.

Lemma resolves_no_open event t o : contains OPEN t = false → resolves event t o ↔ o = t.
Proof.
  intros Hn. split; [|intros ->; by constructor]. intros Hr. destruct Hr as [|? ? ? ? ? ? ? Ho]; [done|].
  apply split_at_first_iff in Ho. apply split_at_first_none in Hn. congruence.
Qed.

Lemma resolves_open event t before after_open o :
  first_at OPEN t before after_open →
  resolves event t o ↔ ∃ inside after_close text o', first_at CLOSE after_open inside after_close ∧
    names event inside text ∧ resolves event after_close o' ∧ o = before ++ text ++ o'.
Proof.
  intros Ho. split.
  - intros Hr. destruct Hr as [t' Hn|t' ? ? inside after_close text o' Ho' Hc Hi Hr].
    + destruct Ho as [-> _]. by rewrite contains_app in Hn.
    + destruct (first_at_unique _ _ _ _ _ _ Ho Ho') as [-> ->]. by exists inside, after_close, text, o'.
  - intros (inside & after_close & text & o' & Hc & Hi & Hr & ->). by eapply resolves_placeholder.
Qed.

(** The loop from [rest] on, with enough fuel. *)
Lemma resolve_rest_ok fuel template rest event out o :
  (length rest <= fuel)%nat →
  resolve_rest fuel template rest event out = Ok o ↔ ∃ o', o = out ++ o' ∧ resolves event rest o'.
Proof.
  revert rest out. induction fuel as [|fuel IH]; intros rest out Hf; cbn [resolve_rest];
    destruct (split_at_first OPEN rest) as [[before after_open]|] eqn:Eo.
  1: { apply split_at_first_iff in Eo. apply first_at_shorter in Eo; [lia|done]. }
  2: { apply split_at_first_iff in Eo as Ho. pose proof (first_at_shorter _ _ _ _ Ho ltac:(done)).
    setoid_rewrite (resolves_open _ _ _ _ _ Ho).
    destruct (split_at_first CLOSE after_open) as [[inside after_close]|] eqn:Ec.
    - apply split_at_first_iff in Ec as Hc. pose proof (first_at_shorter _ _ _ _ Hc ltac:(done)). split.
      + destruct (resolve_inner _ _ _) as [text|] eqn:Ei; [|done]. apply resolve_inner_ok in Ei.
        cbn. rewrite IH by lia. intros (o' & -> & Hr). exists (before ++ text ++ o').
        split; [by rewrite <-!app_assoc|]. by exists inside, after_close, text, o'.
      + intros (? & -> & i2 & a2 & text & o2 & Hc2 & Hi & Hr & ->).
        destruct (first_at_unique _ _ _ _ _ _ Hc Hc2) as [-> ->].
        rewrite (proj2 (resolve_inner_ok _ template _ _) Hi). cbn. rewrite IH by lia.
        exists o2. by rewrite <-!app_assoc.
    - split; [done|]. intros (? & -> & i2 & a2 & text & o2 & Hc2 & _). apply split_at_first_iff in Hc2. congruence. }
  all: apply split_at_first_none in Eo; setoid_rewrite (resolves_no_open _ _ _ Eo).
  all: split; [intros [= <-]; eauto|by intros (? & -> & ->)].
Qed.

Lemma resolve_template_ok template event o :
  resolve_template template event = Ok o ↔ resolves event template o.
Proof.
  unfold resolve_template. rewrite resolve_rest_ok by lia. split; [by intros (o' & -> & Hr)|eauto].
Qed.

Lemma collect_ok {A B E} (f : A → result B E) l ys :
  collect f l = Ok ys ↔ Forall2 (λ x y, f x = Ok y) l ys.
Proof.
  split.
  - revert ys. induction l as [|x l IH]; intros ys; cbn [collect]; [by intros [= <-]; constructor|].
    destruct (f x) as [y|] eqn:Ef; [|done]. cbn. destruct (collect f l) as [zs|]; [|done].
    cbn. intros [= <-]. constructor; [done|by apply IH].
  - induction 1 as [|x y l ys Hy _ IH]; cbn [collect]; [done|]. rewrite Hy. cbn. by rewrite IH.
Qed.

Lemma resolve_step_ok event step r : resolve_step step event = Ok r ↔ step_resolves event step r.
Proof.
  destruct step as [url reference|mp args]; cbn [resolve_step]; unfold has_placeholder.
  - split.
    + destruct (resolve_template url event) as [u|] eqn:Eu; [|done]. cbn.
      destruct (resolve_template reference event) as [f|] eqn:Ef; [|done]. cbn. intros [= <-].
      constructor; by apply resolve_template_ok.
    + intros Hr. inversion Hr as [? u ? f Hu Hf|]; subst.
      rewrite (proj2 (resolve_template_ok _ _ _) Hu). cbn. by rewrite (proj2 (resolve_template_ok _ _ _) Hf).
  - split.
    + destruct (contains OPEN mp) eqn:Em; [done|]. destruct (contains OPEN args) eqn:Ea; [done|].
      intros [= <-]. by constructor.
    + intros Hr. inversion Hr as [|? ? Hm Ha]; subst. by rewrite Hm, Ha.
Qed.

Lemma resolve_pipeline_ok event p r : resolve_pipeline p event = Ok r ↔ pipeline_resolves event p r.
Proof.
  unfold resolve_pipeline, pipeline_resolves. split.
  - destruct (collect _ _) as [steps|] eqn:Ec; [|done]. cbn. intros [= <-]. split; [done|].
    apply collect_ok in Ec. cbn. eapply Forall2_impl; [exact Ec|]. intros ? ?. apply resolve_step_ok.
  - destruct r as [name steps]. cbn. intros [-> Hs].
    rewrite (proj2 (collect_ok _ _ steps)); [done|]. eapply Forall2_impl; [exact Hs|].
    intros ? ?. apply resolve_step_ok.
Qed.

(** ** What an error says *)

(** The part of a template an error of its resolution is about. *)
Definition template_fault (template rest : list Z) (e : TranslateError) : Prop :=
  match e with
  | TranslateError_UnsupportedNamespace ns =>
      ∃ before inside after, rest = before ++ OPEN ++ inside ++ CLOSE ++ after ∧ ns = trim inside ∧
        strip_prefix (chars "event.") ns = None
  | TranslateError_PlaceholderUnresolved t _ => t = template ∧ contains OPEN rest = true
  | TranslateError_PlaceholderInLiteralField _ _ => False
  end.

Definition step_fault (step : StepSection) (e : TranslateError) : Prop :=
  match step with
  | StepSection_SourceFetch url reference => template_fault url url e ∨ template_fault reference reference e
  | StepSection_ExecWasm module_path args_cbor_hex =>
      (e = TranslateError_PlaceholderInLiteralField "exec-wasm" "module_path" ∧ contains OPEN module_path = true) ∨
      (e = TranslateError_PlaceholderInLiteralField "exec-wasm" "args_cbor_hex" ∧
       contains OPEN module_path = false ∧ contains OPEN args_cbor_hex = true)
  end.

Lemma template_fault_later template before rest e :
  template_fault template rest e → template_fault template (before ++ rest) e.
Proof.
  destruct e as [t path|ns|]; cbn [template_fault]; [| |done].
  - intros [-> Hc]. split; [done|]. apply contains_spec in Hc as (a & b & ->). apply contains_spec.
    exists (before ++ a), b. by rewrite <-app_assoc.
  - intros (b & i & a & -> & ? & ?). exists (before ++ b), i, a. by rewrite <-!app_assoc.
Qed.

Lemma resolve_inner_err inside template event e before after :
  resolve_inner (trim inside) template event = Err e →
  template_fault template (before ++ OPEN ++ inside ++ CLOSE ++ after) e.
Proof.
  unfold resolve_inner. assert (contains OPEN (before ++ OPEN ++ inside ++ CLOSE ++ after) = true) by apply contains_app.
  destruct (strip_prefix _ _) as [path|] eqn:Es; [|by intros [= <-]; exists before, inside, after].
  destruct (walk_path _ _) as [[]|]; intros [= <-]; done.
Qed.

Lemma resolve_rest_err fuel template rest event out e :
  resolve_rest fuel template rest event out = Err e → template_fault template rest e.
Proof.
  revert rest out. induction fuel as [|fuel IH]; intros rest out; cbn [resolve_rest];
    destruct (split_at_first OPEN rest) as [[before after_open]|] eqn:Eo; try done.
  apply split_at_first_iff in Eo as [-> _].
  destruct (split_at_first CLOSE after_open) as [[inside after_close]|] eqn:Ec.
  - apply split_at_first_iff in Ec as [-> _].
    destruct (resolve_inner _ _ _) as [text|e'] eqn:Ei; cbn.
    + intros Hr%IH. apply (template_fault_later _ (before ++ OPEN ++ inside ++ CLOSE)) in Hr.
      by rewrite <-!app_assoc in Hr.
    + intros [= <-]. by eapply resolve_inner_err.
  - intros [= <-]. split; [done|apply contains_app].
Qed.

Lemma collect_err {A B E} (f : A → result B E) l e : collect f l = Err e → ∃ x, x ∈ l ∧ f x = Err e.
Proof.
  induction l as [|x l IH]; cbn [collect]; [done|]. destruct (f x) as [y|e'] eqn:Ef; cbn.
  - destruct (collect f l) as [ys|e'']; [done|]. cbn. intros [= <-].
    destruct (IH eq_refl) as (z & Hz & Hf). exists z. split; [by right|done].
  - intros [= <-]. exists x. split; [by left|done].
Qed.

Lemma resolve_step_err event step e : resolve_step step event = Err e → step_fault step e.
Proof.
  destruct step as [url reference|mp args]; cbn [resolve_step step_fault]; unfold has_placeholder.
  - destruct (resolve_template url event) as [u|e'] eqn:Eu; cbn.
    + destruct (resolve_template reference event) as [f|e'] eqn:Ef; cbn; [done|].
      intros [= <-]. right. by eapply resolve_rest_err.
    + intros [= <-]. left. by eapply resolve_rest_err.
  - destruct (contains OPEN mp); [intros [= <-]; by left|].
    destruct (contains OPEN args); [intros [= <-]; by right|done].
Qed.

(** The pipelines that listen to an event. *)
Definition listening (manifest : CosaciToml) (event_name : list Z) : list PipelineSection :=
  filter (λ p, event_name ∈ pl_on_events p) (ct_pipelines manifest).

Lemma matching_listening manifest event_name :
  List.filter (λ p, pipeline_matches p event_name) (ct_pipelines manifest) = listening manifest event_name.
Proof.
  unfold listening. induction (ct_pipelines manifest) as [|p ps IH]; [done|].
  cbn [List.filter]. rewrite IH. assert (Hm : pipeline_matches p event_name = true ↔ event_name ∈ pl_on_events p).
  { unfold pipeline_matches. rewrite existsb_exists. setoid_rewrite bool_decide_eq_true.
    setoid_rewrite list_elem_of_In. split; [by intros (? & ? & ->)|eauto]. }
  destruct (pipeline_matches p event_name).
  - rewrite filter_cons_True; [done|]. by apply Hm.
  - rewrite filter_cons_False; [done|]. rewrite <-Hm. done.
Qed.

(** * Theorems *)

(** A GitHub delivery passes exactly when its header is [sha256=] and 64
    hexadecimal digits, of either case, of the HMAC of the raw body under the
    secret. *)
Lemma verify_github_ok `{HmacSha256} body header secret :
  verify_github_signature body header secret = Ok () ↔
  ∃ hex, header = chars "sha256=" ++ hex ∧ str_len hex = 64 ∧
    hex_decode hex_digit (as_bytes hex) = Some (hmac_sha256 secret body).
Proof.
  unfold verify_github_signature, webhook_parse_hex32. split.
  - destruct (strip_prefix _ header) as [hex|] eqn:Es; [|done]. apply strip_prefix_spec in Es as ->.
    destruct (Z.eqb_spec (str_len hex) 64); [|done]. cbn [negb].
    destruct (hex_decode _ _) as [mac|] eqn:Eh; [|done]. case_bool_decide as Hm; [|done]. subst mac. eauto.
  - intros (hex & Hh & Hl & Hm). rewrite (proj2 (strip_prefix_spec _ _ _) Hh), Hl. cbn [Z.eqb negb Pos.eqb].
    rewrite Hm. by rewrite bool_decide_eq_true_2.
Qed.

(** A GitLab delivery passes exactly when its token is the configured one, byte
    for byte, and neither is empty. *)
Lemma verify_gitlab_ok token expected :
  verify_gitlab_token token expected = Ok () ↔
  token ≠ [] ∧ expected ≠ [] ∧ as_bytes token = as_bytes expected.
Proof.
  unfold verify_gitlab_token. destruct (decide (token = [])) as [->|Ht]; [split; [done|]; by intros (Hne & _)|].
  destruct (decide (expected = [])) as [->|He]; [rewrite orb_true_r; split; [done|]; by intros (_ & Hne & _)|].
  rewrite !bool_decide_eq_false_2 by done. cbn [orb].
  rewrite <-(constant_time_eq_spec (as_bytes token)). destruct (constant_time_eq _ _); [tauto|].
  split; [done|]. by intros (_ & _ & Heq).
Qed.

Lemma translate_ok manifest event_name event out :
  translate manifest event_name event = Ok out ↔
  Forall2 (pipeline_resolves event) (listening manifest event_name) out.
Proof.
  unfold translate. rewrite matching_listening, collect_ok.
  split; intros Hf; (eapply Forall2_impl; [exact Hf|]); intros p r; apply resolve_pipeline_ok.
Qed.

(** C13: a translation that succeeds gives one pipeline for each pipeline of the
    manifest that lists the event, in the manifest's order, with its name and
    with each step resolved: the placeholders of the two source-fetch fields
    replaced from the left, each by the scalar of the event it names, text taken
    from the event never scanned again; the two fields of a WASM step copied and
    free of placeholders. It succeeds whenever there is such a list. A failure
    names a fault of a step of a listening pipeline. *)
Theorem translate_exact manifest event_name event :
  (∀ out, translate manifest event_name event = Ok out ↔
     Forall2 (pipeline_resolves event) (listening manifest event_name) out) ∧
  ∀ e, translate manifest event_name event = Err e →
    ∃ p step, p ∈ listening manifest event_name ∧ step ∈ pl_steps p ∧ step_fault step e.
Proof.
  split; [apply translate_ok|]. unfold translate. rewrite matching_listening.
  intros e (p & Hp & He)%collect_err. unfold resolve_pipeline in He.
  destruct (collect _ _) as [steps|e'] eqn:Ec in He; cbn in He; [done|]. injection He as <-.
  apply collect_err in Ec as (step & Hstep & Hs). exists p, step.
  split; [done|]. split; [done|]. by eapply resolve_step_err.
Qed.

(** * Witness *)

Definition demo_translation : CosaciToml :=
  mkCosaciToml (mkTenantSection 7)
    [mkPipelineSection (chars "ci") [chars "push"]
       [StepSection_SourceFetch (chars "https://h/{{ event.repo.name }}.git") (chars "v{{event.n}}")];
     mkPipelineSection (chars "other") [chars "tag"] [StepSection_ExecWasm (chars "{{x}}") []]].

(** A repository whose name looks like a placeholder. *)
Definition demo_body : json :=
  J_object [(chars "repo", J_object [(chars "name", J_string (chars "{{ event.n }}"))]); (chars "n", J_number (chars "5"))].

Lemma translate_exact_witness :
  (∃ r, pipeline_resolves demo_body
     (mkPipelineSection (chars "ci") [chars "push"]
       [StepSection_SourceFetch (chars "https://h/{{ event.repo.name }}.git") (chars "v{{event.n}}")]) r ∧
     rp_steps r = [ResolvedStep_SourceFetch (chars "https://h/{{ event.n }}.git") (chars "v5")]) ∧
  ∃ p step, p ∈ listening demo_translation (chars "tag") ∧ step ∈ pl_steps p ∧
    step_fault step (TranslateError_PlaceholderInLiteralField "exec-wasm" "module_path").
Proof.
  split.
  - assert (Ht : translate demo_translation (chars "push") demo_body = Ok [mkResolvedPipeline (chars "ci")
      [ResolvedStep_SourceFetch (chars "https://h/{{ event.n }}.git") (chars "v5")]]) by reflexivity.
    apply (proj1 (translate_exact demo_translation (chars "push") demo_body)) in Ht.
    inversion Ht as [|p r ps rs Hr]; subst. eexists. split; [exact Hr|reflexivity].
  - apply (proj2 (translate_exact demo_translation (chars "tag") demo_body)). reflexivity.
Defined.
