(* ===== verification/Listener.v ===== *)
(** The webhook listener (src/bins/cosaci-webhook-listener/src/main.rs).

    The HTTP server is tiny_http: the requests it yields are a list, each with
    its method, URL, headers and the outcome of reading its body, and with the
    clock reading its handler may take. Standard output is the list of lines
    written. The theorems follow a delivery from the request to the submission
    gate of the coordinator at the other end of the pipe. *)

From S2P Require Import Prelude Attestation Text Replay Tenant Enrollment Wasm SubmissionAuth.
From S2P Require Import Pipeline Webhook Service AdminSession.

(** serde_json on a request body (with its error message) and ciborium on a pair
    of [i32]. *)
Class ListenerCodec := {
  json_from_slice : bytes → result json (list Z);
  args_from_reader : bytes → option (Z * Z);
}.

Record request := mkRequest {
  rq_method : list Z;
  rq_url : list Z;
  rq_headers : list (list Z * list Z);
  rq_body : option bytes;
  rq_clock : Z;
}.

Inductive HandleError :=
| HandleError_BadSignature
| HandleError_BadRequest (msg : list Z)
| HandleError_Internal (msg : list Z).

Definition ROUTE_GITHUB : list Z := chars "/webhook/github".
Definition ROUTE_GITLAB : list Z := chars "/webhook/gitlab".

(** [eq_ignore_ascii_case] on the names; the first match wins. *)
Definition header (headers : list (list Z * list Z)) (name : string) : option (list Z) :=
  found ← list_find (λ h, to_lower <$> h.1 = to_lower <$> chars name) headers; Some found.2.2.

(** [Value::as_str]. *)
Definition as_str (v : json) : option (list Z) :=
  match v with J_string s => Some s | _ => None end.

Definition compose_event_name (kind : list Z) (body : json) : list Z :=
  match json_get (chars "action") body ≫= as_str with
  | Some action => kind ++ chars "." ++ action
  | None =>
      match json_get (chars "object_kind") body ≫= as_str with
      | Some object_kind => if decide (object_kind = kind) then kind else kind ++ chars "." ++ object_kind
      | None => kind
      end
  end.

(** The first sixteen bytes, zero padded, little endian. *)
Definition fold_nonce (s : list Z) : Z :=
  let bytes := take 16 (as_bytes s) in of_le_bytes (bytes ++ replicate (16 - length bytes) 0).

Fixpoint nonce_from (field_paths : list string) (event : json) : option Z :=
  match field_paths with
  | [] => None
  | path :: field_paths =>
      match walk (split_dot (chars path)) event ≫= as_str with
      | Some s => Some (fold_nonce s)
      | None => nonce_from field_paths event
      end
  end.

Definition NONCE_PATHS : list string := ["head_commit.id"; "pull_request.head.sha"; "checkout_sha"; "id"]%string.

(** [clock] is the nanoseconds since the epoch, zero before it. *)
Definition nonce_seed (clock : Z) (event : json) : Z := default clock (nonce_from NONCE_PATHS event).

Definition hex_to_bytes (s : list Z) : option bytes :=
  if negb (str_len s mod 2 =? 0) then None else hex_decode hex_digit (as_bytes s).

Definition decode_args_cbor_hex `{ListenerCodec} (hex : list Z) : option (Z * Z) :=
  bytes ← hex_to_bytes hex; args_from_reader bytes.

Fixpoint first_canned_step `{ListenerCodec} (steps : list ResolvedStep) : option (string * Z * Z) :=
  match steps with
  | [] => None
  | ResolvedStep_ExecWasm module_path args_cbor_hex :: _ =>
      let kind := if contains (chars "mul") module_path then "mul"%string else "add"%string in
      let '(a, b) := default (0, 0) (decode_args_cbor_hex args_cbor_hex) in
      Some (kind, a, b)
  | ResolvedStep_SourceFetch _ _ :: steps => first_canned_step steps
  end.

Definition first_canned_args `{ListenerCodec} (pipeline : ResolvedPipeline) : option (string * Z * Z) :=
  first_canned_step (rp_steps pipeline).

(** The payload of the [idx]-th resolved pipeline. *)
Definition payload_of `{ListenerCodec} (manifest : CosaciToml) (nonce_base : Z) (idx : nat)
    (pipeline : ResolvedPipeline) : JobSubmissionPayload :=
  let '(kind, a, b) := default ("add"%string, 0, 0) (first_canned_args pipeline) in
  mkJobSubmissionPayload (ts_id (ct_tenant manifest)) kind a b 60 (wrap 128 (nonce_base + Z.of_nat idx)).

(** [Display] for [TranslateError]. *)
Definition show_translate_error (e : TranslateError) : list Z :=
  match e with
  | TranslateError_PlaceholderUnresolved template path =>
      chars "placeholder " ++ template ++ chars " unresolved (path=" ++ path ++ chars ")"
  | TranslateError_UnsupportedNamespace ns => chars "unsupported template namespace: " ++ ns
  | TranslateError_PlaceholderInLiteralField step_kind field =>
      chars "placeholder in literal-only field " ++ chars step_kind ++ chars "." ++ chars field
  end.

Definition build_payloads `{ListenerCodec} (clock : Z) (manifest : CosaciToml) (event_name : list Z) (event : json) :
    result (list JobSubmissionPayload) HandleError :=
  resolved ←? map_err (λ e, HandleError_Internal (chars "translate: " ++ show_translate_error e))
                (translate manifest event_name event);
  Ok (imap (payload_of manifest (nonce_seed clock event)) resolved).

(** [ok_or], and [From<SignatureError>]. *)
Definition ok_or {A E} (o : option A) (e : E) : result A E := match o with Some a => Ok a | None => Err e end.

Section handlers.
Context `{HmacSha256} `{ListenerCodec}.

Definition handle_github (clock : Z) (body : bytes) (headers : list (list Z * list Z)) (secret : bytes)
    (manifest : CosaciToml) : result (list JobSubmissionPayload) HandleError :=
  if bool_decide (secret = []) then
    Err (HandleError_BadRequest (chars "github webhook delivered but --github-secret not configured"))
  else
    sig ←? ok_or (header headers "x-hub-signature-256") HandleError_BadSignature;
    _ ←? map_err (λ _, HandleError_BadSignature) (verify_github_signature body sig secret);
    event_kind ←? ok_or (header headers "x-github-event")
                    (HandleError_BadRequest (chars "missing X-GitHub-Event"));
    event ←? map_err (λ e, HandleError_BadRequest (chars "invalid JSON body: " ++ e)) (json_from_slice body);
    build_payloads clock manifest (compose_event_name event_kind event) event.

Definition handle_gitlab (clock : Z) (body : bytes) (headers : list (list Z * list Z)) (token : list Z)
    (manifest : CosaciToml) : result (list JobSubmissionPayload) HandleError :=
  if bool_decide (token = []) then
    Err (HandleError_BadRequest (chars "gitlab webhook delivered but --gitlab-token not configured"))
  else
    provided ←? ok_or (header headers "x-gitlab-token") HandleError_BadSignature;
    _ ←? map_err (λ _, HandleError_BadSignature) (verify_gitlab_token provided token);
    event_kind ←? ok_or (header headers "x-gitlab-event")
                    (HandleError_BadRequest (chars "missing X-Gitlab-Event"));
    event ←? map_err (λ e, HandleError_BadRequest (chars "invalid JSON body: " ++ e)) (json_from_slice body);
    build_payloads clock manifest (compose_event_name event_kind event) event.

End handlers.

(** * Lines *)

(** [Display] for a [u128]: thirty-nine digits are enough. *)
Definition show_u128 (n : Z) : list Z := show_digits 39 n [].

Definition quoted (s : list Z) : list Z := 34 :: s ++ [34].

(** [lower_hex]. *)
Definition lower_hex (bytes : bytes) : list Z := hex_encode bytes.

(** The [format!] of [sign_and_serialize], member by member. *)
Definition submission_line (kind : list Z) (a b ds tid nonce : Z) (pk_hex sig_hex : list Z) : list Z :=
  [123] ++ quoted (chars "kind") ++ [58] ++ quoted kind ++
  [44] ++ quoted (chars "a") ++ [58] ++ show_i64 a ++
  [44] ++ quoted (chars "b") ++ [58] ++ show_i64 b ++
  [44] ++ quoted (chars "deadline_secs") ++ [58] ++ show_u64 ds ++
  [44] ++ quoted (chars "tenant_id") ++ [58] ++ show_u64 tid ++
  [44] ++ quoted (chars "nonce") ++ [58] ++ show_u128 nonce ++
  [44] ++ quoted (chars "pubkey_hex") ++ [58] ++ quoted pk_hex ++
  [44] ++ quoted (chars "signature_hex") ++ [58] ++ quoted sig_hex ++ [125].

(** [None] when the payload does not encode, where the code panics. *)
Definition sign_and_serialize `{Ed25519} `{SubmissionCbor} (payload : JobSubmissionPayload) (kp : Keypair) :
    option (list Z) :=
  bytes ← canonical_bytes payload;
  let sig := sig_to_bytes (sign kp bytes) in
  let pk := vk_to_bytes (verifying_key kp) in
  Some (submission_line (chars (js_kind payload)) (js_a payload) (js_b payload) (js_deadline_secs payload)
    (js_tenant_id payload) (js_nonce payload) (lower_hex pk) (lower_hex sig)).

(** * Startup *)

(** Space, tab, newline and carriage return at the end. *)
Definition trim_end_inplace (v : bytes) : bytes :=
  reverse (drop_while (λ c, (c =? 32) || (c =? 9) || (c =? 10) || (c =? 13)) (reverse v)).

Record listener_config `{Ed25519} := mkListenerConfig {
  lc_tenant_kp : Keypair;
  lc_manifest : CosaciToml;
  lc_github_secret : bytes;
  lc_gitlab_token : list Z;
}.

Inductive StartError := StartError_Io (path : list Z) | StartError_Other (msg : list Z).

Definition other {A} (msg : string) : result A StartError := Err (StartError_Other (chars msg)).

(** A file the operator names; an absent or empty flag is no file. *)
Definition optional_secret {A} (path : list Z) (none : A) (read : result A StartError) (empty : A → bool)
    (msg : string) : result A StartError :=
  if bool_decide (path = []) then Ok none
  else s ←? read; if empty s then other msg else Ok s.

Section startup.
Context `{Ed25519} `{Toml}.

(** [fs::read] and [fs::read_to_string]. *)
Definition fs_read (fs : list Z → option bytes) (path : list Z) : result bytes StartError :=
  ok_or (fs path) (StartError_Io path).

Definition fs_read_to_string (fs : list Z → option bytes) (path : list Z) : result (list Z) StartError :=
  bytes ←? fs_read fs path; ok_or (from_utf8 bytes) (StartError_Io path).

(** [Display] for [ManifestError]. *)
Definition show_manifest_error (e : ManifestError) : list Z :=
  match e with
  | ManifestError_Toml s => chars "toml parse: " ++ s
  | ManifestError_Schema s => chars "manifest schema: " ++ s
  end.

(** [run] up to the bind. *)
Definition start (fs : list Z → option bytes) (args : list (list Z)) : result listener_config StartError :=
  let github_secret_path := arg_or args "--github-secret" "" in
  let gitlab_token_path := arg_or args "--gitlab-token" "" in
  tenant_id ←? ok_or (parse_u64 (arg_or args "--tenant-id" "0"))
                 (StartError_Other (chars "--tenant-id must be a u64"));
  let tenant_key_path := arg_or args "--tenant-key" "" in
  let manifest_path := arg_or args "--manifest" "" in
  if tenant_id =? 0 then other "--tenant-id is required (must match an entry in coord's --tenants file)"
  else if bool_decide (tenant_key_path = []) then other "--tenant-key path is required"
  else if bool_decide (manifest_path = []) then other "--manifest path is required"
  else if bool_decide (github_secret_path = []) && bool_decide (gitlab_token_path = []) then
    other "at least one of --github-secret / --gitlab-token must be configured"
  else
    tenant_seed_bytes ←? fs_read fs tenant_key_path;
    if (length tenant_seed_bytes <? 32)%nat then
      other "--tenant-key file must be at least 32 bytes (raw ed25519 seed)"
    else
      let tenant_kp := from_seed (take 32 tenant_seed_bytes) in
      manifest_text ←? fs_read_to_string fs manifest_path;
      manifest ←? map_err (λ e, StartError_Other (chars "manifest parse: " ++ show_manifest_error e))
                    (parse_manifest manifest_text);
      if negb (ts_id (ct_tenant manifest) =? tenant_id) then
        Err (StartError_Other (chars "manifest tenant id " ++ show_u64 (ts_id (ct_tenant manifest)) ++
          chars " != --tenant-id " ++ show_u64 tenant_id))
      else
        github_secret ←? optional_secret github_secret_path []
          (s ←? fs_read fs github_secret_path; Ok (trim_end_inplace s)) (λ s, bool_decide (s = []))
          "--github-secret file is empty";
        gitlab_token ←? optional_secret gitlab_token_path []
          (s ←? fs_read_to_string fs gitlab_token_path; Ok (trim s)) (λ s, bool_decide (s = []))
          "--gitlab-token file is empty";
        Ok (mkListenerConfig _ tenant_kp manifest github_secret gitlab_token).

End startup.

(** * The request loop *)

(** What the loop has done: the lines on standard output and the responses. *)
Record listener := mkListener { ln_out : list (list Z); ln_responses : list (Z * list Z) }.

Definition respond (code : Z) (body : list Z) (st : listener) : listener :=
  mkListener (ln_out st) (ln_responses st ++ [(code, body)]).

(** [url.split('?').next()]. *)
Fixpoint route_of (url : list Z) : list Z :=
  match url with
  | [] => []
  | c :: url => if c =? 63 then [] else c :: route_of url
  end.

Section loop.
Context `{HmacSha256} `{ListenerCodec} `{Ed25519} `{SubmissionCbor}.

(** The match on the route; [None] is no such route. *)
Definition route_request (c : listener_config) (rq : request) (body : bytes) :
    option (result (list JobSubmissionPayload) HandleError) :=
  let route := route_of (rq_url rq) in
  if decide (route = ROUTE_GITHUB) then
    Some (handle_github (rq_clock rq) body (rq_headers rq) (lc_github_secret c) (lc_manifest c))
  else if decide (route = ROUTE_GITLAB) then
    Some (handle_gitlab (rq_clock rq) body (rq_headers rq) (lc_gitlab_token c) (lc_manifest c))
  else None.

(** The inner loop: sign and write each payload. [wr n] says whether the write
    of the [n]-th line succeeds. [None] is a panic; the flag is [false] when a
    write failed, which ends [run]. *)
Fixpoint write_lines (wr : nat → bool) (kp : Keypair) (submissions : list JobSubmissionPayload) (st : listener) :
    option (bool * listener) :=
  match submissions with
  | [] => Some (true, st)
  | payload :: submissions =>
      line ← sign_and_serialize payload kp;
      if wr (length (ln_out st)) then
        write_lines wr kp submissions (mkListener (ln_out st ++ [line]) (ln_responses st))
      else Some (false, st)
  end.

(** One turn of the loop. *)
Definition handle_request (wr : nat → bool) (c : listener_config) (rq : request) (st : listener) :
    option (bool * listener) :=
  if negb (bool_decide (rq_method rq = chars "POST")) then
    Some (true, respond 405 (chars "method not allowed") st)
  else
    match rq_body rq with
    | None => Some (true, respond 400 (chars "bad request") st)
    | Some body =>
        match route_request c rq body with
        | None => Some (true, respond 404 (chars "no such route") st)
        | Some (Ok submissions) =>
            '(ok, st) ← write_lines wr (lc_tenant_kp c) submissions st;
            if (ok : bool) then
              Some (true, respond 202 (chars "accepted (" ++ show_u64 (Z.of_nat (length submissions)) ++
                                       chars " submission(s))") st)
            else Some (false, st)
        | Some (Err HandleError_BadSignature) => Some (true, respond 401 (chars "unauthorized") st)
        | Some (Err (HandleError_BadRequest s)) => Some (true, respond 400 s st)
        | Some (Err (HandleError_Internal _)) => Some (true, respond 500 (chars "internal error") st)
        end
    end.

Fixpoint serve_requests (wr : nat → bool) (c : listener_config) (rqs : list request) (st : listener) :
    option (bool * listener) :=
  match rqs with
  | [] => Some (true, st)
  | rq :: rqs =>
      '(ok, st) ← handle_request wr c rq st;
      if (ok : bool) then serve_requests wr c rqs st else Some (false, st)
  end.

End loop.

(** * What a delivery is *)

Section delivery.
Context `{HmacSha256} `{ListenerCodec} `{Ed25519}.

Definition github_genuine (secret body : bytes) (headers : list (list Z * list Z)) (kind : list Z) : Prop :=
  secret ≠ [] ∧ header headers "x-github-event" = Some kind ∧
  ∃ hex, header headers "x-hub-signature-256" = Some (chars "sha256=" ++ hex) ∧ str_len hex = 64 ∧
    hex_decode hex_digit (as_bytes hex) = Some (hmac_sha256 secret body).

Definition gitlab_genuine (token : list Z) (headers : list (list Z * list Z)) (kind : list Z) : Prop :=
  token ≠ [] ∧ header headers "x-gitlab-event" = Some kind ∧
  ∃ provided, header headers "x-gitlab-token" = Some provided ∧ as_bytes provided = as_bytes token.

(** A request that proves it comes from the provider its route names, with its
    event. *)
Definition genuine (c : listener_config) (rq : request) (event_name : list Z) (event : json) : Prop :=
  ∃ body kind, rq_method rq = chars "POST" ∧ rq_body rq = Some body ∧ json_from_slice body = Ok event ∧
    event_name = compose_event_name kind event ∧
    ((route_of (rq_url rq) = ROUTE_GITHUB ∧ github_genuine (lc_github_secret c) body (rq_headers rq) kind) ∨
     (route_of (rq_url rq) = ROUTE_GITLAB ∧ gitlab_genuine (lc_gitlab_token c) (rq_headers rq) kind)).

(** The payloads of a request: one for each pipeline that listens to its event. *)
Definition delivered (c : listener_config) (rq : request) (payloads : list JobSubmissionPayload) : Prop :=
  ∃ event_name event resolved, genuine c rq event_name event ∧
    Forall2 (pipeline_resolves event) (listening (lc_manifest c) event_name) resolved ∧
    payloads = imap (payload_of (lc_manifest c) (nonce_seed (rq_clock rq) event)) resolved.

Lemma build_payloads_ok clock manifest event_name event payloads :
  build_payloads clock manifest event_name event = Ok payloads ↔
  ∃ resolved, Forall2 (pipeline_resolves event) (listening manifest event_name) resolved ∧
    payloads = imap (payload_of manifest (nonce_seed clock event)) resolved.
Proof.
  unfold build_payloads. split.
  - destruct (translate _ _ _) as [resolved|] eqn:Et; [|done]. cbn [map_err]. intros [= <-].
    exists resolved. by rewrite <-translate_ok.
  - intros (resolved & Hr & ->). by rewrite (proj2 (translate_ok _ _ _ _) Hr).
Qed.

Lemma handle_github_ok clock body headers secret manifest payloads :
  handle_github clock body headers secret manifest = Ok payloads ↔
  ∃ kind event, github_genuine secret body headers kind ∧ json_from_slice body = Ok event ∧
    build_payloads clock manifest (compose_event_name kind event) event = Ok payloads.
Proof.
  unfold handle_github, github_genuine. split.
  - case_bool_decide as Hs; [done|].
    destruct (header headers "x-hub-signature-256") as [sig|]; cbn [ok_or]; [|done].
    destruct (verify_github_signature _ _ _) as [[]|] eqn:Ev; cbn [map_err]; [|done].
    apply verify_github_ok in Ev as (hex & -> & Hl & Hm).
    destruct (header headers "x-github-event") as [kind|]; cbn [ok_or]; [|done].
    destruct (json_from_slice body) as [event|] eqn:Ej; cbn [map_err]; [|done]. intros Hb.
    exists kind, event. split_and!; try done. eauto.
  - intros (kind & event & (Hs & Hk & hex & Hh & Hl & Hm) & Hj & Hb).
    rewrite bool_decide_eq_false_2, Hh by done. cbn [ok_or].
    rewrite (proj2 (verify_github_ok _ _ _)) by eauto. cbn [map_err]. rewrite Hk. cbn [ok_or]. by rewrite Hj.
Qed.

Lemma handle_gitlab_ok clock body headers token manifest payloads :
  handle_gitlab clock body headers token manifest = Ok payloads ↔
  ∃ kind event, gitlab_genuine token headers kind ∧ json_from_slice body = Ok event ∧
    build_payloads clock manifest (compose_event_name kind event) event = Ok payloads.
Proof.
  unfold handle_gitlab, gitlab_genuine. split.
  - case_bool_decide as Hs; [done|].
    destruct (header headers "x-gitlab-token") as [provided|]; cbn [ok_or]; [|done].
    destruct (verify_gitlab_token _ _) as [[]|] eqn:Ev; cbn [map_err]; [|done].
    apply verify_gitlab_ok in Ev as (Hp & _ & Heq).
    destruct (header headers "x-gitlab-event") as [kind|]; cbn [ok_or]; [|done].
    destruct (json_from_slice body) as [event|] eqn:Ej; cbn [map_err]; [|done]. intros Hb.
    exists kind, event. split_and!; try done. eauto.
  - intros (kind & event & (Hs & Hk & provided & Hp & Heq) & Hj & Hb).
    rewrite bool_decide_eq_false_2, Hp by done. cbn [ok_or].
    rewrite (proj2 (verify_gitlab_ok _ _)).
    + cbn [map_err]. rewrite Hk. cbn [ok_or]. by rewrite Hj.
    + split_and!; [|done|done]. intros ->. destruct token as [|c token]; [done|].
      apply (f_equal length) in Heq. unfold as_bytes in Heq. cbn [mbind list_bind] in Heq.
      rewrite length_app in Heq. unfold utf8_encode_char in Heq. repeat case_match; simpl in Heq; lia.
Qed.

Lemma route_request_ok c rq body payloads :
  rq_method rq = chars "POST" → rq_body rq = Some body →
  route_request c rq body = Some (Ok payloads) ↔ delivered c rq payloads.
Proof.
  intros Hm Hb. unfold route_request, delivered, genuine.
  assert (Hne : ROUTE_GITHUB ≠ ROUTE_GITLAB) by done. split.
  - case_decide as Hg; [|case_decide as Hl; [|done]]; intros [= Hh].
    + apply handle_github_ok in Hh as (kind & event & Hk & Hj & (resolved & Hr & ->)%build_payloads_ok).
      exists (compose_event_name kind event), event, resolved. split; [|done]. exists body, kind. eauto 10.
    + apply handle_gitlab_ok in Hh as (kind & event & Hk & Hj & (resolved & Hr & ->)%build_payloads_ok).
      exists (compose_event_name kind event), event, resolved. split; [|done]. exists body, kind. eauto 10.
  - intros (? & event & resolved & (body' & kind & _ & Hb' & Hj & -> & Hroute) & Hr & ->).
    rewrite Hb in Hb'. injection Hb' as <-. destruct Hroute as [[Hg Hk]|[Hl Hk]].
    + rewrite decide_True by done. f_equal. apply handle_github_ok. exists kind, event.
      split; [done|]. split; [done|]. apply build_payloads_ok. eauto.
    + rewrite decide_False, decide_True by congruence. f_equal. apply handle_gitlab_ok. exists kind, event.
      split; [done|]. split; [done|]. apply build_payloads_ok. eauto.
Qed.

(** The answer to a request: its payloads go out under 202, any other request
    is refused and sends nothing. *)
Inductive answered (c : listener_config) (rq : request) : list JobSubmissionPayload → Z → Prop :=
| answered_accepted payloads : delivered c rq payloads → answered c rq payloads 202
| answered_refused code :
    (∀ payloads, ¬ delivered c rq payloads) → code ∈ [400; 401; 404; 405; 500] → answered c rq [] code.

End delivery.

(** * Lemmas on the loop *)

Section loop_lemmas.
Context `{HmacSha256} `{ListenerCodec} `{Ed25519} `{SubmissionCbor}.

(** The line is the signed form of a payload of one of the requests. *)
Definition backed (c : listener_config) (rqs : list request) (line : list Z) : Prop :=
  ∃ rq payloads payload, rq ∈ rqs ∧ delivered c rq payloads ∧ payload ∈ payloads ∧
    sign_and_serialize payload (lc_tenant_kp c) = Some line.

Lemma write_lines_spec wr kp submissions st ok st' :
  write_lines wr kp submissions st = Some (ok, st') →
  ln_responses st' = ln_responses st ∧
  ∃ ps rest lines, submissions = ps ++ rest ∧ mapM (λ p, sign_and_serialize p kp) ps = Some lines ∧
    ln_out st' = ln_out st ++ lines ∧ (ok = true → rest = []).
Proof.
  revert st. induction submissions as [|p submissions IH]; intros st; cbn [write_lines].
  - intros [= <- <-]. split; [done|]. exists [], [], []. split_and!; try done. by rewrite app_nil_r.
  - destruct (sign_and_serialize p kp) as [line|] eqn:Es; [|done]. cbn [mbind option_bind].
    destruct (wr _).
    + intros (Hr & ps & rest & lines & -> & Hm & Ho & Hok)%IH. split; [done|].
      exists (p :: ps), rest, (line :: lines). cbn [app mapM mbind option_bind ln_out] in *.
      rewrite Es, Hm, Ho, <-app_assoc. done.
    + intros [= <- <-]. split; [done|]. exists [], (p :: submissions), []. split_and!; try done. by rewrite app_nil_r.
Qed.

Lemma handle_request_backed wr c rq st ok st' :
  handle_request wr c rq st = Some (ok, st') →
  ∃ lines, ln_out st' = ln_out st ++ lines ∧ Forall (backed c [rq]) lines.
Proof.
  unfold handle_request. assert (Hnone : ∀ code body s, Some (true, respond code body st) = Some (ok, s) →
    ∃ lines, ln_out s = ln_out st ++ lines ∧ Forall (backed c [rq]) lines).
  { intros code body s [= _ <-]. exists []. split; [by rewrite app_nil_r|constructor]. }
  case_bool_decide as Hm; cbn [negb]; [|apply Hnone]. destruct (rq_body rq) as [body|] eqn:Hb; [|apply Hnone].
  destruct (route_request c rq body) as [[subs|[]]|] eqn:Hr; try apply Hnone.
  apply route_request_ok in Hr; [|done|done].
  destruct (write_lines _ _ _ _) as [[ok2 st2]|] eqn:Hw; [|done]. cbn [mbind option_bind].
  apply write_lines_spec in Hw as (_ & ps & rest & lines & -> & Hl & Ho & _). intros Hst.
  assert (Hout : ln_out st' = ln_out st2) by (destruct ok2; by simplify_eq).
  exists lines. split; [congruence|]. apply Forall_forall. intros line Hin.
  apply mapM_Some_1 in Hl. apply list_elem_of_lookup in Hin as [i Hi].
  destruct (Forall2_lookup_r _ _ _ _ _ Hl Hi) as (p & Hp & Hs). exists rq, (ps ++ rest), p.
  split; [by left|]. split; [done|]. split; [|done]. apply elem_of_app. left. by eapply list_elem_of_lookup_2.
Qed.

Lemma serve_requests_backed wr c rqs st ok st' :
  serve_requests wr c rqs st = Some (ok, st') →
  ∃ lines, ln_out st' = ln_out st ++ lines ∧ Forall (backed c rqs) lines.
Proof.
  revert st. induction rqs as [|rq rqs IH]; intros st; cbn [serve_requests].
  - intros [= _ <-]. exists []. split; [by rewrite app_nil_r|constructor].
  - destruct (handle_request wr c rq st) as [[ok1 st1]|] eqn:Eh; [|done]. cbn [mbind option_bind].
    apply handle_request_backed in Eh as (lines & Ho & Hb).
    assert (Hb' : Forall (backed c (rq :: rqs)) lines).
    { eapply Forall_impl; [exact Hb|]. intros line (rq' & ps & p & Hrq & Hrest).
      apply list_elem_of_singleton in Hrq as ->. exists rq, ps, p. split; [by left|done]. }
    destruct ok1; [|intros [= _ <-]; eauto]. intros (lines2 & Ho2 & Hb2)%IH.
    exists (lines ++ lines2). rewrite Ho2, Ho, app_assoc. split; [done|]. apply Forall_app. split; [done|].
    eapply Forall_impl; [exact Hb2|]. intros line (rq' & ps & p & Hrq & Hrest).
    exists rq', ps, p. split; [by right|done].
Qed.

(** With a standard output that takes every line and payloads that encode, the
    inner loop writes them all. *)
Lemma write_lines_total wr kp submissions st :
  (∀ n, wr n = true) → (∀ p, is_Some (canonical_bytes p)) →
  ∃ lines, mapM (λ p, sign_and_serialize p kp) submissions = Some lines ∧
    write_lines wr kp submissions st = Some (true, mkListener (ln_out st ++ lines) (ln_responses st)).
Proof.
  intros Hwr Henc. revert st. induction submissions as [|p submissions IH]; intros st; cbn [write_lines mapM].
  - exists []. rewrite app_nil_r. by destruct st.
  - assert (∃ line, sign_and_serialize p kp = Some line) as [line Hs].
    { unfold sign_and_serialize. destruct (Henc p) as [b ->]. cbn [mbind option_bind]. eauto. }
    rewrite Hs, Hwr. cbn [mbind option_bind].
    destruct (IH (mkListener (ln_out st ++ [line]) (ln_responses st))) as (lines & Hm & Hw).
    exists (line :: lines). rewrite Hm, Hw. cbn. by rewrite <-app_assoc.
Qed.

Lemma handle_request_total wr c rq st :
  (∀ n, wr n = true) → (∀ p, is_Some (canonical_bytes p)) →
  ∃ payloads code lines body, answered c rq payloads code ∧
    mapM (λ p, sign_and_serialize p (lc_tenant_kp c)) payloads = Some lines ∧
    handle_request wr c rq st =
      Some (true, mkListener (ln_out st ++ lines) (ln_responses st ++ [(code, body)])).
Proof.
  intros Hwr Henc. unfold handle_request.
  assert (Href : ∀ code body, (∀ payloads, ¬ delivered c rq payloads) → code ∈ [400; 401; 404; 405; 500] →
    ∃ payloads code' lines body', answered c rq payloads code' ∧
      mapM (λ p, sign_and_serialize p (lc_tenant_kp c)) payloads = Some lines ∧
      Some (true, respond code body st) =
        Some (true, mkListener (ln_out st ++ lines) (ln_responses st ++ [(code', body')]))).
  { intros code body Hn Hc. exists [], code, [], body. split; [by constructor|]. split; [done|].
    unfold respond. by rewrite app_nil_r. }
  case_bool_decide as Hm; cbn [negb].
  2: { apply Href; [|by_decide]. by intros ? (? & ? & ? & (? & ? & ? & _) & _). }
  destruct (rq_body rq) as [body|] eqn:Hb.
  2: { apply Href; [|by_decide]. intros ? (? & ? & ? & (? & ? & _ & ? & _) & _). congruence. }
  assert (Hno : (∀ ps, route_request c rq body ≠ Some (Ok ps)) → ∀ ps, ¬ delivered c rq ps).
  { intros Hn ps Hd. apply (Hn ps). by apply route_request_ok. }
  destruct (route_request c rq body) as [[subs|[]]|] eqn:Hr; try (apply Href; [by apply Hno|by_decide]).
  apply route_request_ok in Hr; [|done|done].
  destruct (write_lines_total wr (lc_tenant_kp c) subs st Hwr Henc) as (lines & Hl & Hw).
  rewrite Hw. cbn [mbind option_bind]. eexists subs, 202, lines, _. split; [by constructor|]. done.
Qed.

End loop_lemmas.

(** * From standard output to the submission gate *)

(** A [i32]. *)
Definition int32 (x : Z) : Prop := - 2 ^ 31 <= x < 2 ^ 31.

(** Lowercase hexadecimal text. *)
Definition hex_text (s : list Z) : Prop := ∃ bs, Forall (uint 8) bs ∧ s = hex_encode bs.

(** ciborium reads [i32]s. *)
Class ListenerLaws `{ListenerCodec} := {
  args_int32 bs a b : args_from_reader bs = Some (a, b) → int32 a ∧ int32 b;
}.

(** serde_json reads the object the listener prints into the coordinator's
    struct, member by member, each within the range of the member's type. *)
Class SubmissionLineLaws `{SubmissionWire} := {
  json_reads_line k a b ds tid nonce pk sg :
    int32 a → int32 b → uint 32 ds → uint 64 tid → uint 128 nonce → hex_text pk → hex_text sg → pk ≠ [] → sg ≠ [] →
    let line := submission_line (chars (as_wire k)) a b ds tid nonce pk sg in
    json_has_pipeline line = Some false ∧
    json_legacy line = Some (mkLegacyJobSubmission k a b ds (Some tid) (Some nonce) (Some pk) (Some sg));
}.

Section pipe.
Context `{HmacSha256} `{Sha256} `{Ed25519Laws} `{SubmissionCbor} `{CborBytes} `{Toml} `{ListenerLaws} `{SubmissionLineLaws}.

(** The registry knows the listener's key as the tenant's. *)
Definition registers (c : listener_config) (registry : TenantRegistry) : Prop :=
  ∃ t, Tenant.get (ts_id (ct_tenant (lc_manifest c))) registry = Some t ∧
    tr_signing_fp t = sha256 (vk_to_bytes (verifying_key (lc_tenant_kp c))).

(** The submission a payload stands for at the coordinator. *)
Definition stands_for (payload : JobSubmissionPayload) (sub : JobSubmission) : Prop :=
  ∃ l, sub = JobSubmission_Legacy l ∧ as_wire (lj_kind l) = js_kind payload ∧ lj_a l = js_a payload ∧
    lj_b l = js_b payload ∧ lj_deadline_secs l = js_deadline_secs payload ∧
    lj_tenant_id l = Some (js_tenant_id payload) ∧ lj_nonce l = Some (js_nonce payload).

(** The fields of a payload the listener makes. *)
Definition payload_ok (c : listener_config) (payload : JobSubmissionPayload) : Prop :=
  (∃ k, js_kind payload = as_wire k) ∧ int32 (js_a payload) ∧ int32 (js_b payload) ∧
  js_deadline_secs payload = 60 ∧ js_tenant_id payload = ts_id (ct_tenant (lc_manifest c)) ∧
  uint 128 (js_nonce payload).

Lemma first_canned_step_ok steps kind a b :
  first_canned_step steps = Some (kind, a, b) → (∃ k, kind = as_wire k) ∧ int32 a ∧ int32 b.
Proof.
  induction steps as [|[url reference|mp args] steps IH]; cbn [first_canned_step]; [done|done|].
  assert (Hab : ∀ p, default (0, 0) (decode_args_cbor_hex args) = p → int32 p.1 ∧ int32 p.2).
  { intros [a' b'] <-. unfold decode_args_cbor_hex. destruct (hex_to_bytes args) as [bs|]; [|done].
    cbn [mbind option_bind]. destruct (args_from_reader bs) as [[x y]|] eqn:Ea; [|done]. by apply args_int32 in Ea. }
  destruct (default (0, 0) (decode_args_cbor_hex args)) as [a' b']. intros [= <- <- <-]. split; [|by apply (Hab (a', b'))].
  destruct (contains _ _); [by exists JobKind_Mul|by exists JobKind_Add].
Qed.

Lemma payload_of_ok c base idx r : payload_ok c (payload_of (lc_manifest c) base idx r).
Proof.
  unfold payload_of, first_canned_args. destruct (first_canned_step (rp_steps r)) as [[[kind a] b]|] eqn:E; cbn [default].
  - apply first_canned_step_ok in E as (Hk & Ha & Hb). split_and!; try done. by apply wrap_bounds.
  - split_and!; try done; [by exists JobKind_Add|]. by apply wrap_bounds.
Qed.

Lemma delivered_payload_ok c rq payloads payload : delivered c rq payloads → payload ∈ payloads → payload_ok c payload.
Proof.
  intros (event_name & event & resolved & _ & _ & ->) Hin. apply list_elem_of_lookup in Hin as [i Hi].
  rewrite list_lookup_imap in Hi. destruct (resolved !! i) as [r|]; [|done]. injection Hi as <-. apply payload_of_ok.
Qed.

Lemma submission_line_trim kind a b ds tid nonce pk sg :
  trim (submission_line kind a b ds tid nonce pk sg) = submission_line kind a b ds tid nonce pk sg.
Proof.
  apply trim_id; intros c.
  - by intros [= <-].
  - unfold submission_line. rewrite !app_assoc, last_snoc. by intros [= <-].
Qed.

Lemma parse_hex64_roundtrip sg : byte_array 64 sg → parse_hex64 (lower_hex sg) = Some sg.
Proof.
  intros [Hl Hb]. unfold parse_hex64, str_len, lower_hex. assert (Hr := hex_encode_range sg Hb).
  rewrite as_bytes_ascii by (eapply Forall_impl; [exact Hr|]; simpl; lia).
  rewrite hex_encode_length, Hl. simpl. by apply hex_roundtrip; [apply hex_nibble_decodes|].
Qed.

Lemma lower_hex_text n bs : byte_array (S n) bs → hex_text (lower_hex bs) ∧ lower_hex bs ≠ [].
Proof. intros [Hl Hbs]. split; [by exists bs|]. by destruct bs. Qed.

(** A line signed with a key: it parses to its payload, and is signed for every
    registry that has the key for the tenant. *)
Lemma key_signed_line kp k a b ds tid nonce line :
  int32 a → int32 b → uint 32 ds → uint 64 tid → uint 128 nonce →
  sign_and_serialize (mkJobSubmissionPayload tid (as_wire k) a b ds nonce) kp = Some line →
  ∃ l, parse_submission_line (trim line) = Some (JobSubmission_Legacy l) ∧
    lj_kind l = k ∧ lj_a l = a ∧ lj_b l = b ∧ lj_deadline_secs l = ds ∧ lj_tenant_id l = Some tid ∧
    lj_nonce l = Some nonce ∧
    ∀ registry t, Tenant.get tid registry = Some t → tr_signing_fp t = sha256 (vk_to_bytes (verifying_key kp)) →
      signed registry (JobSubmission_Legacy l).
Proof.
  intros Ha Hb Hds Htid Hn. unfold sign_and_serialize.
  cbn [js_kind js_a js_b js_deadline_secs js_tenant_id js_nonce]. destruct (canonical_bytes _) as [enc|] eqn:Henc; [|done].
  cbn [mbind option_bind]. intros [= <-]. rewrite submission_line_trim.
  set (sg := sig_to_bytes (sign kp enc)). set (pk := vk_to_bytes (verifying_key kp)).
  assert (Hpk : byte_array 32 pk) by apply vk_to_bytes_wf.
  assert (Hsg : byte_array 64 sg) by apply sig_to_bytes_wf.
  destruct (lower_hex_text _ _ Hpk) as [Hph Hpne]. destruct (lower_hex_text _ _ Hsg) as [Hsh Hsne].
  destruct (json_reads_line k a b ds _ nonce _ _ Ha Hb Hds Htid Hn Hph Hsh Hpne Hsne) as [Hp Hj].
  eexists. split; [unfold parse_submission_line; rewrite Hp; cbn [mbind option_bind]; rewrite Hj; reflexivity|].
  cbn [lj_tenant_id lj_nonce lj_pubkey_hex lj_signature_hex lj_kind lj_a lj_b lj_deadline_secs].
  split_and!; try done. intros registry t Ht Hfp.
  exists tid, nonce, (lower_hex pk), (lower_hex sg), pk, sg, t.
  split_and!; try done; [by apply parse_hex32_roundtrip|by apply parse_hex64_roundtrip|].
  split; [done|]. split; [done|]. exists enc, (verifying_key kp).
  split_and!; [done|apply vk_from_to|]. unfold sg, sign. rewrite sig_from_to. apply verify_sign.
Qed.

(** What the coordinator makes of a line of the listener. *)
Lemma signed_line c payload line :
  payload_ok c payload → uint 64 (ts_id (ct_tenant (lc_manifest c))) →
  sign_and_serialize payload (lc_tenant_kp c) = Some line →
  ∃ sub, parse_submission_line (trim line) = Some sub ∧ stands_for payload sub ∧
    ∀ registry, registers c registry → signed registry sub.
Proof.
  destruct payload as [tid kind a b ds nonce]. unfold payload_ok.
  cbn [js_kind js_a js_b js_deadline_secs js_tenant_id js_nonce]. intros ([k ->] & Ha & Hb & -> & -> & Hn) Htid Hline.
  destruct (key_signed_line (lc_tenant_kp c) k a b 60 _ nonce line Ha Hb ltac:(done) Htid Hn Hline) as (l & Hp & Hk & Hla & Hlb & Hds & Ht & Hno & Hs).
  exists (JobSubmission_Legacy l). split; [done|]. split.
  - exists l. cbn [js_kind js_a js_b js_deadline_secs js_tenant_id js_nonce]. split_and!; try done. by rewrite Hk.
  - intros registry (t & Hget & Hfp). by apply (Hs registry t).
Qed.

Lemma optional_secret_ok {A} path (none : A) read empty msg s :
  optional_secret path none read empty msg = Ok s →
  (path = [] ∧ s = none) ∨ (path ≠ [] ∧ read = Ok s ∧ empty s = false).
Proof.
  unfold optional_secret. case_bool_decide as Hp; [intros [= <-]; by left|]. intros Hr. right.
  destruct read as [x|]; [|done]. destruct (empty x) eqn:Ex; [done|]. by injection Hr as ->.
Qed.

(** What the loop may rely on: the manifest is the operator's tenant's, which is
    not zero; the key is the first 32 bytes of the key file; a secret is
    configured, and what is configured is not empty. *)
Lemma listener_started fs args c :
  start fs args = Ok c →
  let tid := ts_id (ct_tenant (lc_manifest c)) in
  parse_u64 (arg_or args "--tenant-id" "0") = Some tid ∧ tid ≠ 0 ∧ uint 64 tid ∧
  (∃ seed, fs (arg_or args "--tenant-key" "") = Some seed ∧ (32 <= length seed)%nat ∧
     lc_tenant_kp c = from_seed (take 32 seed)) ∧
  (lc_github_secret c ≠ [] ∨ lc_gitlab_token c ≠ []).
Proof.
  unfold start. destruct (parse_u64 _) as [tid|] eqn:Et; cbn [ok_or]; [|done].
  destruct (Z.eqb_spec tid 0) as [|Hne]; [done|]. do 2 (case_bool_decide; [done|]).
  destruct (_ && _) eqn:Esec; [done|]. unfold fs_read at 1. destruct (fs _) as [seed|] eqn:Eseed; cbn [ok_or]; [|done].
  destruct (Nat.ltb_spec (length seed) 32) as [|Hlen]; [done|].
  destruct (fs_read_to_string fs (arg_or args "--manifest" "")) as [text|]; [|done].
  destruct (parse_manifest text) as [m|]; cbn [map_err]; [|done].
  destruct (Z.eqb_spec (ts_id (ct_tenant m)) tid) as [Htid|]; cbn [negb]; [|done].
  destruct (optional_secret _ _ _ _ "--github-secret file is empty") as [gh|] eqn:Eg; [|done].
  destruct (optional_secret _ _ _ _ "--gitlab-token file is empty") as [gl|] eqn:El; [|done].
  intros [= <-]. cbn [lc_manifest lc_tenant_kp lc_github_secret lc_gitlab_token]. rewrite Htid.
  split; [done|]. split; [done|]. split; [by eapply parse_u64_uint|]. split; [eauto|].
  apply andb_false_iff in Esec. rewrite !bool_decide_eq_false in Esec.
  destruct (optional_secret_ok _ _ _ _ _ _ Eg) as [[? ->]|(_ & _ & Hg%bool_decide_eq_false)]; [|by left].
  destruct (optional_secret_ok _ _ _ _ _ _ El) as [[? ->]|(_ & _ & Hl%bool_decide_eq_false)]; [|by right].
  tauto.
Qed.

(** C3: every line the listener writes, whatever the requests and even when a
    write fails, comes from a delivery that proved its origin (the HMAC of its raw
    body under a secret the operator configured, or the configured token) and
    from a pipeline of the manifest that listens to its event and resolves in it;
    the coordinator at the other end of the pipe parses it into the payload of
    that pipeline, and any registry that knows the listener's key as the
    operator's tenant's sees it signed. *)
Theorem listener_lines_signed fs args c wr rqs ok st line :
  start fs args = Ok c → serve_requests wr c rqs (mkListener [] []) = Some (ok, st) → line ∈ ln_out st →
  ∃ rq event_name event resolved idx r,
    rq ∈ rqs ∧ genuine c rq event_name event ∧
    Forall2 (pipeline_resolves event) (listening (lc_manifest c) event_name) resolved ∧ resolved !! idx = Some r ∧
    let payload := payload_of (lc_manifest c) (nonce_seed (rq_clock rq) event) idx r in
    ∃ sub, parse_submission_line (trim line) = Some sub ∧ stands_for payload sub ∧
      ∀ registry, registers c registry → signed registry sub.
Proof.
  intros Hst Hs Hline. apply listener_started in Hst as (_ & _ & Htid & _).
  apply serve_requests_backed in Hs as (lines & Ho & Hb). cbn [ln_out app] in Ho. rewrite Ho in Hline.
  rewrite Forall_forall in Hb. destruct (Hb line Hline) as (rq & payloads & payload & Hrq & Hd & Hp & Hsign).
  pose proof (delivered_payload_ok _ _ _ _ Hd Hp) as Hok.
  destruct Hd as (event_name & event & resolved & Hg & Hr & ->).
  apply list_elem_of_lookup in Hp as [idx Hi]. rewrite list_lookup_imap in Hi.
  destruct (resolved !! idx) as [r|] eqn:Hlk; [|done]. injection Hi as <-.
  exists rq, event_name, event, resolved, idx, r. do 4 (split; [done|]). by apply signed_line.
Qed.

(** C23: with a standard output that takes every line and payloads that encode,
    the listener never stops and answers every request, in order: a genuine
    delivery whose pipelines resolve gets 202 and its payloads, signed, on
    standard output, in the manifest's order; any other request is refused with
    an error code and writes nothing. *)
Theorem listener_answers_all wr c rqs st :
  (∀ n, wr n = true) → (∀ p, is_Some (canonical_bytes p)) →
  ∃ st' answers lines,
    serve_requests wr c rqs st = Some (true, st') ∧
    Forall2 (λ rq answer, answered c rq answer.1 answer.2) rqs answers ∧
    mapM (λ p, sign_and_serialize p (lc_tenant_kp c)) (mjoin answers.*1) = Some lines ∧
    ln_out st' = ln_out st ++ lines ∧ (ln_responses st').*1 = (ln_responses st).*1 ++ answers.*2.
Proof.
  intros Hwr Henc. revert st. induction rqs as [|rq rqs IH]; intros st; cbn [serve_requests].
  - exists st, [], []. rewrite !app_nil_r. done.
  - destruct (handle_request_total wr c rq st Hwr Henc) as (ps & code & lines & body & Ha & Hl & ->).
    cbn [mbind option_bind]. destruct (IH (mkListener (ln_out st ++ lines) (ln_responses st ++ [(code, body)])))
      as (st' & answers & lines2 & Hs & Hf & Hm & Ho & Hr).
    exists st', ((ps, code) :: answers), (lines ++ lines2). cbn [ln_out ln_responses] in Ho, Hr.
    split; [done|]. split; [by constructor|]. split; [|split].
    + cbn [fmap list_fmap mjoin list_join fst]. apply mapM_Some_2. apply Forall2_app; by apply mapM_Some_1.
    + by rewrite Ho, app_assoc.
    + rewrite Hr, fmap_app, <-app_assoc. done.
Qed.

(** * Two events of one commit *)

(** The gate as the coordinator calls it for a submission that stands for a
    payload. *)
Lemma check_stands_for payload sub now_ns rd registry g v g' :
  stands_for payload sub → check_submission sub now_ns rd registry g = (v, g') → v ≠ AuthCheck_Ok ∨
  ∃ enc pk sg, SubmissionAuth.check_submission (js_tenant_id payload) (js_nonce payload) enc pk sg now_ns registry
    rd g = (v, g').
Proof.
  intros (l & -> & Hk & Ha & Hb & Hd & Ht & Hn). cbn [check_submission]. unfold check_legacy. rewrite Ht, Hn.
  destruct (lj_pubkey_hex l) as [pkh|], (lj_signature_hex l) as [sgh|];
    try by (intros [= <- <-]; left).
  destruct (Tenant.parse_hex32 pkh) as [pk|], (parse_hex64 sgh) as [sg|]; try by (intros [= <- <-]; left).
  intros Hc. right. eexists _, pk, sg. exact Hc.
Qed.

(** A push and a pull request whose head is the pushed commit. *)
Definition same_head (push pull_request : json) : Prop :=
  ∃ sha, walk (split_dot (chars "head_commit.id")) push = Some (J_string sha) ∧
    walk (split_dot (chars "head_commit.id")) pull_request = None ∧
    walk (split_dot (chars "pull_request.head.sha")) pull_request = Some (J_string sha).

Lemma same_head_nonce t1 t2 push pull_request :
  same_head push pull_request → nonce_seed t1 push = nonce_seed t2 pull_request.
Proof.
  intros (sha & Hpush & Hnone & Hpr). unfold nonce_seed, NONCE_PATHS. cbn [nonce_from].
  rewrite Hpush, Hnone. cbn [mbind option_bind as_str]. rewrite Hpr. done.
Qed.

Lemma payload_of_ids m base idx r :
  js_tenant_id (payload_of m base idx r) = ts_id (ct_tenant m) ∧
  js_nonce (payload_of m base idx r) = wrap 128 (base + Z.of_nat idx).
Proof. unfold payload_of. by destruct (default _ _) as [[kind a] b]. Qed.

(** The submission of a pull request whose head commit was just pushed is
    dropped by the coordinator: the listener derives the nonce of both from the
    commit and the position of the pipeline, so once the push's line has been
    admitted, the line of the pull request at the same position is refused for
    the whole replay window, even though it may ask for another job. *)
Theorem same_commit_dropped c push pull_request t1 t2 idx r1 r2 line1 line2 add_wasm mul_wasm now1 now2 rd1 rd2 auth1 run auth2 :
  uint 64 (ts_id (ct_tenant (lc_manifest c))) → same_head push pull_request →
  sign_and_serialize (payload_of (lc_manifest c) (nonce_seed t1 push) idx r1) (lc_tenant_kp c) = Some line1 →
  sign_and_serialize (payload_of (lc_manifest c) (nonce_seed t2 pull_request) idx r2) (lc_tenant_kp c) = Some line2 →
  read_line add_wasm mul_wasm line1 now1 rd1 (Some auth1) = (Some run, Some auth2) →
  sat_sub (rd_sweep rd2) (rd_now rd1) < rg_ttl_ns (g_replay (au_gate auth1)) →
  (read_line add_wasm mul_wasm line2 now2 rd2 (Some auth2)).1 = None.
Proof.
  intros Htid Hhead Hl1 Hl2 Hr1 Hw. rewrite (same_head_nonce t1 t2 push pull_request Hhead) in Hl1.
  destruct (signed_line _ _ _ (payload_of_ok c _ idx r1) Htid Hl1) as (sub1 & Hp1 & Hs1 & _).
  destruct (signed_line _ _ _ (payload_of_ok c _ idx r2) Htid Hl2) as (sub2 & Hp2 & Hs2 & _).
  unfold read_line in *. destruct (_ || _); [done|]. rewrite Hp1 in Hr1.
  destruct (check_submission sub1 _ _ _ _) as [v1 g1] eqn:Hc1. case_decide as Hv; [|done]. subst v1.
  injection Hr1 as _ <-. apply (check_stands_for _ _ _ _ _ _ _ _ Hs1) in Hc1 as [|(enc & pk & sg & Hc1)]; [done|].
  destruct (payload_of_ids (lc_manifest c) (nonce_seed t2 pull_request) idx r1) as [Ht1 Hn1].
  destruct (payload_of_ids (lc_manifest c) (nonce_seed t2 pull_request) idx r2) as [Ht2 Hn2].
  rewrite Ht1, Hn1 in Hc1. apply admitted_recorded in Hc1 as [Hk Httl].
  destruct (_ || _); [done|]. rewrite Hp2.
  destruct (check_submission sub2 _ _ _ _) as [v2 g2] eqn:Hc2. case_decide as Hv; [|done]. subst v2. exfalso.
  cbn [au_gate au_registry] in Hc2.
  apply (check_stands_for _ _ _ _ _ _ _ _ Hs2) in Hc2 as [|(enc2 & pk2 & sg2 & Hc2)]; [done|].
  rewrite Ht2, Hn2 in Hc2.
  eapply (recorded_refused _ _ enc2 pk2 sg2 now2 _ rd2 g1); [exact Hk|by rewrite Httl|by rewrite Hc2].
Qed.

End pipe.

(** * Witnesses *)

Import (hints) Toy ToyCodec ToyCbor.

(** A reader of the one object shape the listener prints, by its tokens. *)
Module TokenWire.

Definition json_sep (c : Z) : bool := existsb (Z.eqb c) [34; 44; 58; 123; 125].

Definition tokens (line : list Z) : list (list Z) := split_on json_sep [] line.

Definition read_kind (t : list Z) : option JobKind :=
  if decide (t = chars "add") then Some JobKind_Add
  else if decide (t = chars "mul") then Some JobKind_Mul else None.

Definition read_tokens (ts : list (list Z)) : option LegacyJobSubmission :=
  match ts with
  | [_; k; _; a; _; b; _; ds; _; tid; _; nonce; _; pk; _; sg] =>
      k ← read_kind k; a ← parse_i64 a; b ← parse_i64 b; ds ← parse_u64 ds; tid ← parse_u64 tid;
      nonce ← parse_uint (2 ^ 128 - 1) nonce;
      Some (mkLegacyJobSubmission k a b ds (Some tid) (Some nonce) (Some pk) (Some sg))
  | _ => None
  end.

#[export] Instance token_wire : SubmissionWire := {|
  json_has_pipeline _ := Some false;
  json_legacy line := read_tokens (tokens line);
  json_pipeline _ := None;
  pipeline_from_reader _ := None;
|}.

Lemma tokens_sep c s : json_sep c = true → tokens (c :: s) = tokens s.
Proof. intros Hc. unfold tokens. cbn [split_on]. by rewrite Hc. Qed.

Lemma tokens_clean f c s : clean json_sep f → json_sep c = true → tokens (f ++ c :: s) = f :: tokens s.
Proof.
  intros [Hne Hf] Hc. unfold tokens. rewrite split_on_clean, app_nil_r by done. cbn [split_on]. rewrite Hc.
  destruct (reverse f) as [|d r] eqn:E; [|by rewrite <-E, reverse_involutive].
  apply (f_equal reverse) in E. by rewrite reverse_involutive in E.
Qed.

(** Digits, a sign, lowercase letters and underscores separate nothing. *)
Lemma json_sep_false c : 45 <= c <= 57 ∨ 95 <= c <= 122 → json_sep c = false.
Proof. intros Hc. unfold json_sep. simpl. lia. Qed.

Lemma plain_clean f : f ≠ [] → Forall (λ c, 45 <= c <= 57 ∨ 95 <= c <= 122) f → clean json_sep f.
Proof.
  intros Hne Hf. split; [done|]. eapply Forall_impl; [exact Hf|]. intros c Hc. by apply json_sep_false.
Qed.

Lemma digits_clean f : f ≠ [] → Forall (λ c, is_digit c = true) f → clean json_sep f.
Proof.
  intros Hne Hf. apply plain_clean; [done|]. eapply Forall_impl; [exact Hf|]. intros c Hc.
  unfold is_digit in Hc. zbool. lia.
Qed.

Lemma show_i64_clean n : clean json_sep (show_i64 n).
Proof.
  unfold show_i64. destruct (n <? 0); [|apply digits_clean; [apply show_u64_nonempty|apply show_digits_digits]].
  apply plain_clean; [done|]. constructor; [lia|]. eapply Forall_impl; [apply show_digits_digits|].
  intros c Hc. unfold is_digit in Hc. zbool. lia.
Qed.

Lemma hex_text_clean s : hex_text s → s ≠ [] → clean json_sep s.
Proof.
  intros (bs & Hbs & ->) Hne. split; [done|]. unfold hex_encode. apply Forall_bind.
  eapply Forall_impl; [exact Hbs|]. intros b Hb. unfold uint in Hb. cbn.
  assert (Hn : ∀ n, 0 <= n < 16 → json_sep (hex_char n) = false).
  { intros n Hn. apply json_sep_false. unfold hex_char. destruct (Z.ltb_spec n 10); lia. }
  pose proof (Z.mod_pos_bound b 16). repeat constructor; apply Hn; [|lia].
  split; [apply Z.div_pos; lia|apply Z.div_lt_upper_bound; lia].
Qed.

Lemma parse_show_u128 n : uint 128 n → parse_uint (2 ^ 128 - 1) (show_u128 n) = Some n.
Proof.
  intros Hn. pose proof (show_digits_digits 39 n) as Hd. pose proof (show_digits_nonempty 38 n) as Hne.
  unfold uint in Hn. fold (show_u128 n) in Hd, Hne.
  assert (Hsp : parse_digits (2 ^ 128 - 1) 0 (show_u128 n) = Some n).
  { apply show_digits_spec; [lia|lia|by left]. }
  unfold parse_uint. destruct (show_u128 n) as [|c ds]; [done|].
  apply Forall_cons in Hd as [Hc _]. unfold is_digit in Hc. zbool.
  by rewrite (proj2 (Z.eqb_neq c 43)) by lia.
Qed.

Lemma json_u64_clean n : clean json_sep (show_u64 n).
Proof. apply digits_clean; [apply show_u64_nonempty|apply show_digits_digits]. Qed.

Lemma json_u128_clean n : clean json_sep (show_u128 n).
Proof. apply digits_clean; [apply (show_digits_nonempty 38)|apply show_digits_digits]. Qed.

Lemma tokens_cons f c s r : clean json_sep f → json_sep c = true → tokens s = r → tokens (f ++ c :: s) = f :: r.
Proof. intros Hf Hc <-. by apply tokens_clean. Qed.

(** The tokens of a concatenation of clean fields and separators. *)
Ltac tokenize :=
  repeat (progress (cbn [app]; rewrite <-?app_assoc));
  repeat match goal with
  | |- tokens (_ :: _) = _ => rewrite tokens_sep by reflexivity
  | |- tokens (show_i64 _ ++ _) = _ => apply tokens_cons; [apply show_i64_clean|reflexivity|]
  | |- tokens (show_u64 _ ++ _) = _ => apply tokens_cons; [apply json_u64_clean|reflexivity|]
  | |- tokens (show_u128 _ ++ _) = _ => apply tokens_cons; [apply json_u128_clean|reflexivity|]
  | |- tokens (chars _ ++ _) = _ => apply tokens_cons; [apply plain_clean; [discriminate|by_decide]|reflexivity|]
  | |- tokens (_ ++ _) = _ => apply tokens_cons; [assumption|reflexivity|]
  end;
  reflexivity.

Lemma tokens_line kind a b ds tid nonce pk sg :
  clean json_sep kind → clean json_sep pk → clean json_sep sg →
  tokens (submission_line kind a b ds tid nonce pk sg) =
  [chars "kind"; kind; chars "a"; show_i64 a; chars "b"; show_i64 b; chars "deadline_secs"; show_u64 ds;
   chars "tenant_id"; show_u64 tid; chars "nonce"; show_u128 nonce; chars "pubkey_hex"; pk; chars "signature_hex"; sg].
Proof. intros Hk Hpk Hsg. unfold submission_line, quoted. tokenize. Qed.

End TokenWire.

Import TokenWire.

(** A keyed checksum for the HMAC, a manifest for every TOML text, and one-byte
    bodies for the events of a push and of a pull request of one commit. *)
Module ToyHook.

Definition ci_manifest : CosaciToml :=
  mkCosaciToml (mkTenantSection 7)
    [mkPipelineSection (chars "ci") [chars "push"; chars "pull_request.synchronize"]
       [StepSection_SourceFetch (chars "https://h/{{ event.repo }}") (chars "main");
        StepSection_ExecWasm (chars "mul.wasm") []]].

Definition push_event : json :=
  J_object [(chars "head_commit", J_object [(chars "id", J_string (chars "c0ffee"))]);
            (chars "repo", J_string (chars "a/{{b}}"))].

Definition pull_request_event : json :=
  J_object [(chars "action", J_string (chars "synchronize"));
            (chars "pull_request", J_object [(chars "head", J_object [(chars "sha", J_string (chars "c0ffee"))])]);
            (chars "repo", J_number (chars "5"))].

#[export] Instance toy_hmac : HmacSha256 := λ k m, replicate 31 0 ++ [wrap 8 (sumz k + sumz m)].

#[export] Instance toy_toml : Toml := {|
  toml_from_str _ := Ok ci_manifest;
  toml_to_string _ := Ok [];
|}.

#[export] Instance toy_listener_codec : ListenerCodec := {|
  json_from_slice b := if decide (b = [1]) then Ok push_event
                       else if decide (b = [2]) then Ok pull_request_event else Err (chars "eof");
  args_from_reader _ := Some (3, 4);
|}.

#[export] Instance toy_listener_laws : ListenerLaws.
Proof. constructor. by intros bs a b [= <- <-]. Qed.

#[export] Instance toy_line_laws : SubmissionLineLaws.
Proof.
  constructor. intros k a b ds tid nonce pk sg Ha Hb Hds Htid Hn Hpk Hsg Hpne Hsne. cbn zeta. split; [done|].
  cbn [json_legacy token_wire]. unfold int32 in Ha, Hb.
  assert (Hds' : uint 64 ds) by (revert Hds; unfold_uint; lia).
  rewrite tokens_line; [|destruct k; by_decide|by apply hex_text_clean|by apply hex_text_clean].
  unfold read_tokens. assert (read_kind (chars (as_wire k)) = Some k) as -> by by destruct k.
  cbn [mbind option_bind]. rewrite !parse_show_i64 by lia. cbn [mbind option_bind].
  rewrite !parse_show_u64 by done. cbn [mbind option_bind]. by rewrite parse_show_u128.
Qed.

End ToyHook.
Import (hints) ToyHook.

Definition demo_args : list (list Z) :=
  chars <$> ["--github-secret"; "s"; "--tenant-id"; "7"; "--tenant-key"; "k"; "--manifest"; "m"]%string.

Definition demo_fs (path : list Z) : option bytes :=
  if decide (path = chars "k") then Some (9 :: replicate 31 0)
  else if decide (path = chars "s") then Some (chars "x" ++ [10])
  else if decide (path = chars "m") then Some [] else None.

Definition demo_listener : listener_config := mkListenerConfig _ (from_seed (9 :: replicate 31 0)) ToyHook.ci_manifest (chars "x") [].

Definition demo_push (event : string) (body : bytes) : request :=
  mkRequest (chars "POST") (chars "/webhook/github?x")
    [(chars "X-GitHub-Event", chars event);
     (chars "X-Hub-Signature-256", chars "sha256=" ++ hex_encode (hmac_sha256 (chars "x") body))] (Some body) 0.

(** A push, then a request with a wrong signature. *)
Definition demo_requests : list request :=
  [demo_push "push" [1]; mkRequest (chars "POST") ROUTE_GITHUB
     [(chars "x-hub-signature-256", chars "sha256=00")] (Some [1]) 0].

Definition demo_served : listener :=
  match serve_requests (λ _, true) demo_listener demo_requests (mkListener [] []) with
  | Some (_, st) => st
  | None => mkListener [] []
  end.

Definition demo_line : list Z := default [] (head (ln_out demo_served)).

Lemma demo_start : start demo_fs demo_args = Ok demo_listener.
Proof. reflexivity. Qed.

Lemma demo_registers : registers demo_listener demo_reg.
Proof. eexists. split; vm_compute; reflexivity. Qed.

Lemma listener_lines_signed_witness :
  demo_line ∈ ln_out demo_served ∧
  ∃ sub, parse_submission_line (trim demo_line) = Some sub ∧ signed demo_reg sub.
Proof.
  assert (Hin : demo_line ∈ ln_out demo_served) by (vm_compute; left).
  split; [exact Hin|].
  destruct (listener_lines_signed demo_fs demo_args demo_listener (λ _, true) demo_requests true demo_served demo_line)
    as (rq & name & event & resolved & idx & r & _ & _ & _ & _ & sub & Hp & _ & Hs).
  - exact demo_start.
  - vm_compute. reflexivity.
  - exact Hin.
  - exists sub. split; [exact Hp|]. apply Hs, demo_registers.
Defined.

Lemma listener_answers_all_witness :
  (ln_responses demo_served).*1 = [202; 401] ∧
  ∃ answers, Forall2 (λ rq answer, answered demo_listener rq answer.1 answer.2) demo_requests answers ∧
    answers.*2 = [202; 401].
Proof.
  assert (Hr : (ln_responses demo_served).*1 = [202; 401]) by (vm_compute; reflexivity). split; [exact Hr|].
  destruct (listener_answers_all (λ _, true) demo_listener demo_requests (mkListener [] []))
    as (st & answers & lines & Hs & Hf & _ & _ & Hc).
  - reflexivity.
  - intros p. eexists. reflexivity.
  - exists answers. split; [exact Hf|]. unfold demo_served in Hr. rewrite Hs in Hr. rewrite Hc in Hr. exact Hr.
Defined.

(** The line of the pull request of the same commit. *)
Definition demo_pr_line : list Z :=
  default [] (r ← sign_and_serialize (payload_of ToyHook.ci_manifest (nonce_seed 0 ToyHook.pull_request_event) 0
                                       (mkResolvedPipeline [] [])) (lc_tenant_kp demo_listener); Some r).

Definition demo_admitted : option RunSubmission * option AuthState :=
  read_line [1] [2] demo_line 0 (mkReadings 0 0 0) (Some (auth_start demo_reg)).

Definition demo_auth2 : AuthState := default (auth_start demo_reg) demo_admitted.2.

Lemma same_commit_dropped_witness :
  is_Some demo_admitted.1 ∧ (read_line [1] [2] demo_pr_line 1 (mkReadings 1 1 1) (Some demo_auth2)).1 = None.
Proof.
  destruct demo_admitted as [[run|] auth] eqn:Ea; [|by vm_compute in Ea]. split; [by exists run|].
  refine (same_commit_dropped demo_listener ToyHook.push_event ToyHook.pull_request_event 0 0 0
    (mkResolvedPipeline (chars "ci") [ResolvedStep_SourceFetch (chars "https://h/a/{{b}}") (chars "main");
       ResolvedStep_ExecWasm (chars "mul.wasm") []]) (mkResolvedPipeline [] []) demo_line demo_pr_line
    [1] [2] 0 1 (mkReadings 0 0 0) (mkReadings 1 1 1) (auth_start demo_reg) run demo_auth2 _ _ _ _ _ _).
  - by_decide.
  - exists (chars "c0ffee"). vm_compute. split; [reflexivity|]. split; reflexivity.
  - vm_compute. reflexivity.
  - vm_compute. reflexivity.
  - unfold demo_admitted in Ea. rewrite Ea. unfold demo_auth2, demo_admitted. rewrite Ea.
    destruct auth; [reflexivity|by vm_compute in Ea].
  - vm_compute. reflexivity.
Defined.
