(* ===== verification/AdminCli.v ===== *)
(** The admin command line (src/bins/cosaci-admin/src/main.rs).

    Every subcommand in both of its modes. The world of a run is the files by
    path and the lines printed so far. What the operating system and rustls
    answer is in the environment of the run: the clock, whether writes succeed,
    the bytes of the key file, the connection a dial gives; so is the text of an
    error of the standard library inside a message, and the derived [Debug] text
    of an unexpected envelope. *)

From Stdlib Require Import Floats.SpecFloat.
From S2P Require Import Prelude Attestation StakeLedger MerkleLog Text Tenant AdminAuth Enrollment Float32 Pipeline.
From S2P Require Import Wire Coordinator Service AdminSession.

(** * Formatting *)

(** [{:<n}] and [{:>n}]. *)
Definition pad_right (n : nat) (s : list Z) : list Z := s ++ replicate (n - length s) 32.
Definition pad_left (n : nat) (s : list Z) : list Z := replicate (n - length s) 32 ++ s.

(** Decimal digits of [n] in at least [w] places. *)
Definition zero_pad (w : nat) (n : Z) : list Z := let s := show_u64 n in replicate (w - length s) 48 ++ s.

(** [m / d] to the nearest integer, halves to even. *)
Definition round_half_even (m d : Z) : Z :=
  let q := m / d in
  let r := m mod d in
  if 2 * r <? d then q else if d <? 2 * r then q + 1 else if Z.even q then q else q + 1.

(** [{:.3}] of an [f32]. *)
Definition show_fixed3 (x : spec_float) : list Z :=
  let sign (s : bool) := if s then [45] else [] in
  match x with
  | S754_zero s => sign s ++ chars "0.000"
  | S754_infinity s => sign s ++ chars "inf"
  | S754_nan => chars "NaN"
  | S754_finite s m e =>
      let n := if 0 <=? e then Z.pos m * 2 ^ e * 1000 else round_half_even (Z.pos m * 1000) (2 ^ (- e)) in
      sign s ++ show_u64 (n / 1000) ++ [46] ++ zero_pad 3 (n mod 1000)
  end.

(** The last [f] decimal digits of [d]. *)
Fixpoint digits (f : nat) (d : Z) : list Z :=
  match f with
  | O => []
  | S f => digits f (d / 10) ++ [48 + d mod 10]
  end.

(** The text of [d / 10^f] for a value below one, or of [d] without places. *)
Definition decimal (f : nat) (d : Z) : list Z :=
  match f with
  | O => show_u64 d
  | _ => [48; 46] ++ digits f d
  end.

(** The two decimals with [f] places around [m * 2^e], the nearest first. *)
Definition candidates (f : nat) (m : positive) (e : Z) : list (list Z) :=
  let n := Z.pos m * 10 ^ Z.of_nat f in
  let d := 2 ^ (- e) in
  let near := round_half_even n d in
  let far := if near =? n / d then n / d + 1 else n / d in
  [decimal f near; decimal f far].

Fixpoint shortest_from (fuel f : nat) (m : positive) (e : Z) : option (list Z) :=
  match fuel with
  | O => None
  | S fuel =>
      match list_find (λ t, parse_f32 t = Some (S754_finite false m e)) (candidates f m e) with
      | Some found => Some found.2
      | None => shortest_from fuel (S f) m e
      end
  end.

(** [Display] of an [f32] between zero and one: the decimal with the fewest
    digits that reads back, the nearest one if there are two. The exact expansion
    has at most 149 places and reads back, so the search ends
    ([show_unit_f32_total]). *)
Definition show_unit_f32 (x : spec_float) : option (list Z) :=
  match x with
  | S754_zero s => Some ((if s then [45] else []) ++ [48])
  | S754_finite false m e => shortest_from 150 0 m e
  | _ => None
  end.

(** * The world of a run *)

Record cli_world := mkWorld { wo_files : gmap (list Z) file; wo_out : list (list Z) }.

(** A subcommand: [Result<(), String>] and the world after it. *)
Definition cli_outcome : Type := result unit (list Z) * cli_world.

Definition file_at (path : list Z) (w : cli_world) : file := default File_missing (wo_files w !! path).

Definition set_file (path : list Z) (f : file) (w : cli_world) : cli_world := mkWorld (<[path := f]> (wo_files w)) (wo_out w).

Definition println (line : list Z) (w : cli_world) : cli_world := mkWorld (wo_files w) (wo_out w ++ [line]).

Definition println_all (ls : list (list Z)) (w : cli_world) : cli_world := mkWorld (wo_files w) (wo_out w ++ ls).

(** [Path::exists]. *)
Definition exists_at (path : list Z) (w : cli_world) : bool :=
  match file_at path w with File_missing => false | _ => true end.

(** Where a connection goes and with which certificates. *)
Record dial := mkDial {
  di_ca : list Z; di_cert : list Z; di_key : list Z; di_server_name : list Z; di_addr : list Z;
}.

(** The environment of a run. [ce_dial] covers the client configuration, the
    TCP connection and the TLS session; its error is the whole message.
    [ce_hello_clock] is [None] before the epoch; [ce_log] is the content of a log
    file opened for appending, which creates it. *)
Record cli_env := mkCliEnv {
  ce_now : Z;
  ce_hello_clock : option Z;
  ce_write_ok : bool;
  ce_error : list Z;
  ce_read : list Z → option bytes;
  ce_log : list Z → option bytes;
  ce_dial : dial → result stream (list Z);
  ce_wire_text : wire_error → list Z;
  ce_debug : Envelope → list Z;
}.

(** * Arguments *)

Definition optional_flag (args : list (list Z)) (flag : string) : option (list Z) := arg_at args (chars flag).

Definition required_flag (args : list (list Z)) (flag : string) : result (list Z) (list Z) :=
  match optional_flag args flag with
  | Some v => Ok v
  | None => Err (chars "missing required flag " ++ chars flag)
  end.

(** [.parse().map_err(|e| format!("flag: {e}"))]. *)
Definition parsed {A} (env : cli_env) (flag : string) (o : option A) : result A (list Z) :=
  match o with Some a => Ok a | None => Err (chars flag ++ chars ": " ++ ce_error env) end.

Definition u64_flag (env : cli_env) (args : list (list Z)) (flag : string) : result Z (list Z) :=
  s ←? required_flag args flag; parsed env flag (parse_u64 s).

Definition cli_hex_digit (b : Z) : result Z (list Z) :=
  if (48 <=? b) && (b <=? 57) then Ok (b - 48)
  else if (97 <=? b) && (b <=? 102) then Ok (b - 97 + 10)
  else if (65 <=? b) && (b <=? 70) then Ok (b - 65 + 10)
  else Err (chars "non-hex byte 0x" ++ hex_encode [b]).

Fixpoint cli_hex_pairs (s : list Z) : result bytes (list Z) :=
  match s with
  | a :: b :: s =>
      hi ←? cli_hex_digit a; lo ←? cli_hex_digit b; rest ←? cli_hex_pairs s;
      Ok (Z.lor (Z.shiftl hi 4) lo :: rest)
  | _ => Ok []
  end.

Definition cli_parse_hex32 (s : list Z) : result bytes (list Z) :=
  if negb (str_len s =? 64) then Err (chars "expected 64 hex chars, got " ++ show_u64 (str_len s))
  else cli_hex_pairs (as_bytes s).

(** [parse_hex32(..).map_err(|e| format!("flag: {e}"))]. *)
Definition hex_arg (flag : string) (s : list Z) : result bytes (list Z) :=
  map_err (λ e, chars flag ++ chars ": " ++ e) (cli_parse_hex32 s).

(** [--at], or the clock. *)
Definition at_flag (env : cli_env) (args : list (list Z)) (parse : list Z → option Z) (now : Z) : result Z (list Z) :=
  match optional_flag args "--at" with
  | None => Ok now
  | Some s => parsed env "--at" (parse s)
  end.

(** Run [k] on the value, or stop with the message. *)
Definition or_stop {A} (r : result A (list Z)) (w : cli_world) (k : A → cli_outcome) : cli_outcome :=
  match r with Ok a => k a | Err e => (Err e, w) end.

Notation "x ←! r 'in' w ; k" := (or_stop r w (λ x, k))
  (at level 20, r at level 100, w at level 100, k at level 200) : cosaci_scope.

(** [hex[..16]]. *)
Definition short (hex : list Z) : list Z := take 16 hex.

Definition ok_at (w : cli_world) : cli_outcome := (Ok (), w).

(** * Tables *)

Definition agents_header : list Z :=
  pad_right 10 (chars "runner_id") ++ chars "  " ++ pad_right 16 (chars "signing_fp") ++ chars "  " ++
  pad_right 16 (chars "vrf_fp") ++ chars "  " ++ pad_left 22 (chars "enrolled_at") ++ chars "  " ++
  pad_left 10 (chars "reputation").

Definition agents_row (runner_id : Z) (signing_fp vrf_fp : bytes) (at_ns : Z) (rep : spec_float) : list Z :=
  pad_right 10 (show_u64 runner_id) ++ chars "  " ++ pad_right 16 (short (Enrollment.fingerprint_hex signing_fp)) ++
  chars "  " ++ pad_right 16 (short (Enrollment.fingerprint_hex vrf_fp)) ++ chars "  " ++
  pad_left 22 (show_i64 at_ns) ++ chars "  " ++ pad_left 10 (show_fixed3 rep).

Definition tenants_header : list Z :=
  pad_right 10 (chars "tenant_id") ++ chars "  " ++ pad_right 16 (chars "signing_fp") ++ chars "  " ++
  pad_left 10 (chars "capacity") ++ chars "  " ++ pad_left 14 (chars "refill_per_s") ++ chars "  " ++
  pad_left 22 (chars "registered_at").

Definition tenants_row (tenant_id : Z) (signing_fp : bytes) (capacity refill at_ns : Z) : list Z :=
  pad_right 10 (show_u64 tenant_id) ++ chars "  " ++ pad_right 16 (short (hex_encode signing_fp)) ++ chars "  " ++
  pad_left 10 (show_u64 capacity) ++ chars "  " ++ pad_left 14 (show_u64 refill) ++ chars "  " ++
  pad_left 22 (show_u64 at_ns).

(** * The wire client *)

Section wire.
Context `{Ed25519}.

(** [(reputation * 1000.0).round().clamp(0.0, 1000.0) as u32]. *)
Definition wire_thousandths (reputation : spec_float) : Z := Z.min (to_milli reputation) 1000.

(** The message of an answer that is not the expected one. *)
Definition unexpected (env : cli_env) (resp : Envelope) (w : cli_world) : cli_outcome :=
  match resp with
  | Envelope_AdminError reason => (Err (chars "coord rejected: " ++ reason), w)
  | other => (Err (chars "unexpected response: " ++ ce_debug env other), w)
  end.

(** [AdminWireConn::connect]. *)
Definition connect (env : cli_env) (args : list (list Z)) (addr : list Z) : result stream (list Z) :=
  ca_path ←? required_flag args "--ca";
  cert_path ←? required_flag args "--cert";
  key_path ←? required_flag args "--key";
  let server_name := default (chars "cosaci.local") (optional_flag args "--server-name") in
  admin_key_path ←? required_flag args "--admin-key";
  match ce_read env admin_key_path with
  | None => Err (chars "read " ++ admin_key_path ++ chars ": " ++ ce_error env)
  | Some seed =>
      if (length seed <? 32)%nat then
        Err (admin_key_path ++ chars ": admin key must be at least 32 bytes (raw ed25519 seed)")
      else
        let admin_kp := from_seed (take 32 seed) in
        stream ←? ce_dial env (mkDial ca_path cert_path key_path server_name addr);
        match ce_hello_clock env with
        | None => Err (chars "clock: " ++ ce_error env)
        | Some now_ns =>
            let signature := sig_to_bytes (sign admin_kp (ADMIN_HELLO_CHALLENGE ++ le_bytes 8 now_ns)) in
            match send (Envelope_AdminHello (vk_to_bytes (verifying_key admin_kp)) now_ns signature) stream with
            | (Err e, _) => Err (chars "write AdminHello: " ++ ce_wire_text env e)
            | (Ok _, stream) =>
                match recv stream with
                | (Err e, _) => Err (chars "read welcome: " ++ ce_wire_text env e)
                | (Ok Envelope_AdminWelcome, stream) => Ok stream
                | (Ok (Envelope_AdminError reason), _) => Err (chars "coord rejected hello: " ++ reason)
                | (Ok other, _) => Err (chars "unexpected hello response: " ++ ce_debug env other)
                end
            end
        end
  end.

(** [AdminWireConn::request], and [request_one]; the stream is kept to tell what
    was sent. *)
Definition request_on (env : cli_env) (req : Envelope) (s : stream) : result Envelope (list Z) * stream :=
  match send req s with
  | (Err e, s) => (Err (chars "write request: " ++ ce_wire_text env e), s)
  | (Ok _, s) =>
      match recv s with
      | (Err e, s) => (Err (chars "read response: " ++ ce_wire_text env e), s)
      | (Ok resp, s) => (Ok resp, s)
      end
  end.

(** One admin session: connect, then one request. *)
Definition ask (env : cli_env) (args : list (list Z)) (addr : list Z) (req : Envelope) : result Envelope (list Z) :=
  conn ←? connect env args addr; (request_on env req conn).1.

(** [open_read_stream]: no admin key. *)
Definition open_read_stream (env : cli_env) (args : list (list Z)) (addr : list Z) : result stream (list Z) :=
  ca_path ←? required_flag args "--ca";
  cert_path ←? required_flag args "--cert";
  key_path ←? required_flag args "--key";
  let server_name := default (chars "cosaci.local") (optional_flag args "--server-name") in
  ce_dial env (mkDial ca_path cert_path key_path server_name addr).

End wire.

(** * agents *)

Section commands.
Context `{Ed25519} `{RsMerkle}.
Context (env : cli_env).

Definition load_path (path : list Z) (w : cli_world) : result EnrollmentSet (list Z) :=
  match load_enrollment (file_at path w) with
  | Some set => Ok set
  | None => Err (chars "load " ++ path ++ chars ": " ++ ce_error env)
  end.

(** The rows of [agents list], by ascending id. *)
Definition agents_rows (set : EnrollmentSet) : list (list Z) :=
  (λ r, agents_row (er_runner_id r) (er_signing_fp r) (er_vrf_fp r) (er_enrolled_at_unix_ns r) (initial_reputation r))
    <$> stable_sort (λ a b, er_runner_id a <=? er_runner_id b) ((map_to_list (records set)).*2).

(** [(thousandths.min(1000) as f32) / 1000.0]. *)
Definition entry_reputation (thousandths : Z) : spec_float :=
  SFdiv 24 128 (binary_normalize 24 128 (Z.min thousandths 1000) 0 false) f32_thousand.

Definition entries_rows (entries : list AdminAgentRecord) : list (list Z) :=
  (λ r, agents_row (aar_runner_id r) (aar_signing_fp r) (aar_vrf_fp r) (aar_enrolled_at_unix_ns r)
          (entry_reputation (aar_initial_reputation_thousandths r)))
    <$> stable_sort (λ a b, aar_runner_id a <=? aar_runner_id b) entries.

Definition agents_list_wire (args : list (list Z)) (addr : list Z) (w : cli_world) : cli_outcome :=
  resp ←! ask env args addr Envelope_AdminListAgents in w;
  match resp with
  | Envelope_AdminAgentList entries =>
      if bool_decide (entries = []) then
        ok_at (println (chars "(no runners enrolled per coord at " ++ addr ++ chars ")") w)
      else ok_at (println_all (agents_header :: entries_rows entries) w)
  | other => unexpected env other w
  end.

Definition agents_list (args : list (list Z)) (w : cli_world) : cli_outcome :=
  match optional_flag args "--coord" with
  | Some addr => agents_list_wire args addr w
  | None =>
      path ←! required_flag args "--enrollment" in w;
      set ←! load_path path w in w;
      if Enrollment.is_empty set then ok_at (println (chars "(no runners enrolled in " ++ path ++ chars ")") w)
      else ok_at (println_all (agents_header :: agents_rows set) w)
  end.

Definition fps_text (signing_fp vrf_fp : bytes) : list Z :=
  chars " (signing_fp[..8]=" ++ short (Enrollment.fingerprint_hex signing_fp) ++ chars ", vrf_fp[..8]=" ++
  short (Enrollment.fingerprint_hex vrf_fp) ++ chars ")".

Definition agents_enroll_wire (args : list (list Z)) (addr : list Z) (runner_id : Z) (signing_fp vrf_fp : bytes)
    (at_ns : Z) (reputation : spec_float) (w : cli_world) : cli_outcome :=
  resp ←! ask env args addr
            (Envelope_AdminEnrollAgent runner_id signing_fp vrf_fp at_ns (wire_thousandths reputation)) in w;
  match resp with
  | Envelope_AdminEnrollAck =>
      ok_at (println_all
        [chars "enrolled runner " ++ show_u64 runner_id ++ chars " on coord at " ++ addr ++ fps_text signing_fp vrf_fp;
         chars "note: takes effect on next coord restart"] w)
  | other => unexpected env other w
  end.

(** Write the new content of a file: [what] names the operation. *)
Definition replace_file (path : list Z) (what : string) (r : result unit unit * file) (done : list Z) (w : cli_world) :
    cli_outcome :=
  match r with
  | (Ok _, f) => ok_at (println done (set_file path f w))
  | (Err _, _) => (Err (chars what ++ path ++ chars ": " ++ ce_error env), w)
  end.

(** The file mode of [agents enroll]; [None] if the reputation has no text. *)
Definition agents_enroll_file (path : list Z) (runner_id : Z) (signing_fp vrf_fp : bytes) (at_ns : Z)
    (reputation : spec_float) (w : cli_world) : option cli_outcome :=
  match (if exists_at path w then load_path path w else Ok Enrollment.new) with
  | Err e => Some (Err e, w)
  | Ok existing =>
      match Enrollment.get runner_id existing with
      | Some _ =>
          Some (Err (chars "runner_id " ++ show_u64 runner_id ++ chars " is already enrolled in " ++ path ++
                     chars "; revoke first if you mean to replace"), w)
      | None =>
          rep ← show_unit_f32 reputation;
          Some (replace_file path "append to "
            (append_atomic (ce_write_ok env) (enrollment_text runner_id signing_fp vrf_fp at_ns rep) (file_at path w))
            (chars "enrolled runner " ++ show_u64 runner_id ++ fps_text signing_fp vrf_fp) w)
      end
  end.

(** The arguments of [agents enroll], checked in the order of the code. *)
Definition enroll_args (args : list (list Z)) : result (Z * bytes * bytes * Z * spec_float) (list Z) :=
  runner_id ←? u64_flag env args "--runner-id";
  signing_fp_hex ←? required_flag args "--signing-fp";
  vrf_fp_hex ←? required_flag args "--vrf-fp";
  reputation ←? parsed env "--reputation" (parse_f32 (default (chars "1.0") (optional_flag args "--reputation")));
  if negb (SFleb f32_zero reputation && SFleb reputation f32_one) then
    Err (chars "--reputation " ++ ce_error env ++ chars " not in [0.0, 1.0]")
  else
    signing_fp ←? hex_arg "--signing-fp" signing_fp_hex;
    vrf_fp ←? hex_arg "--vrf-fp" vrf_fp_hex;
    at_ns ←? at_flag env args parse_i64 (ce_now env);
    Ok (runner_id, signing_fp, vrf_fp, at_ns, reputation).

Definition agents_enroll (args : list (list Z)) (w : cli_world) : option cli_outcome :=
  match enroll_args args with
  | Err e => Some (Err e, w)
  | Ok (runner_id, signing_fp, vrf_fp, at_ns, reputation) =>
      match optional_flag args "--coord" with
      | Some addr => Some (agents_enroll_wire args addr runner_id signing_fp vrf_fp at_ns reputation w)
      | None =>
          match required_flag args "--enrollment" with
          | Err e => Some (Err e, w)
          | Ok path => agents_enroll_file path runner_id signing_fp vrf_fp at_ns reputation w
          end
      end
  end.

(** Dropping the lines of an id from a file, for runners and for tenants. *)
Definition revoke_from (path : list Z) (what : string) (id : Z) (done : list Z) (w : cli_world) : cli_outcome :=
  if negb (exists_at path w) then (Err (path ++ chars " does not exist; nothing to revoke"), w)
  else match read_to_string (file_at path w) with
  | Err _ => (Err (chars "read " ++ path ++ chars ": " ++ ce_error env), w)
  | Ok original =>
      match tenants_revoke id original with
      | Err _ => (Err (chars what ++ show_u64 id ++ chars " not found in " ++ path), w)
      | Ok out => replace_file path "write " (write_atomic (ce_write_ok env) out (file_at path w)) done w
      end
  end.

Definition agents_revoke_wire (args : list (list Z)) (addr : list Z) (runner_id : Z) (w : cli_world) : cli_outcome :=
  resp ←! ask env args addr (Envelope_AdminRevokeAgent runner_id) in w;
  match resp with
  | Envelope_AdminRevokeAck =>
      ok_at (println_all [chars "revoked runner " ++ show_u64 runner_id ++ chars " on coord at " ++ addr;
        chars "note: takes effect on next coord restart; use the CRL path (RUNBOOK " ++ [167] ++
          chars "4) for immediate revocation"] w)
  | other => unexpected env other w
  end.

Definition agents_revoke (args : list (list Z)) (w : cli_world) : cli_outcome :=
  runner_id ←! u64_flag env args "--runner-id" in w;
  match optional_flag args "--coord" with
  | Some addr => agents_revoke_wire args addr runner_id w
  | None =>
      path ←! required_flag args "--enrollment" in w;
      revoke_from path "runner_id " runner_id
        (chars "revoked runner " ++ show_u64 runner_id ++ chars " from " ++ path) w
  end.

(** * tenants *)

Definition load_tenants_path (path : list Z) (w : cli_world) : result TenantRegistry (list Z) :=
  match load_tenants (file_at path w) with
  | Ok reg => Ok reg
  | Err _ => Err (chars "load " ++ path ++ chars ": " ++ ce_error env)
  end.

Definition tenants_rows (reg : TenantRegistry) : list (list Z) :=
  (λ r, tenants_row (tr_tenant_id r) (tr_signing_fp r) (tr_rate_capacity r) (tr_rate_refill_per_sec r)
          (tr_registered_at_unix_ns r)) <$> Tenant.iter reg.

Definition tenant_entries_rows (entries : list AdminTenantRecord) : list (list Z) :=
  (λ r, tenants_row (atr_tenant_id r) (atr_signing_fp r) (atr_rate_capacity r) (atr_rate_refill_per_sec r)
          (atr_registered_at_unix_ns r)) <$> stable_sort (λ a b, atr_tenant_id a <=? atr_tenant_id b) entries.

Definition tenants_list_wire (args : list (list Z)) (addr : list Z) (w : cli_world) : cli_outcome :=
  resp ←! ask env args addr Envelope_AdminListTenants in w;
  match resp with
  | Envelope_AdminTenantList entries =>
      if bool_decide (entries = []) then
        ok_at (println (chars "(no tenants registered per coord at " ++ addr ++ chars ")") w)
      else ok_at (println_all (tenants_header :: tenant_entries_rows entries) w)
  | other => unexpected env other w
  end.

Definition tenants_list (args : list (list Z)) (w : cli_world) : cli_outcome :=
  match optional_flag args "--coord" with
  | Some addr => tenants_list_wire args addr w
  | None =>
      path ←! required_flag args "--tenants" in w;
      reg ←! load_tenants_path path w in w;
      if Tenant.is_empty reg then ok_at (println (chars "(no tenants registered in " ++ path ++ chars ")") w)
      else ok_at (println_all (tenants_header :: tenants_rows reg) w)
  end.

Definition tenant_text (r : TenantRecord) : list Z :=
  chars " (signing_fp[..8]=" ++ short (hex_encode (tr_signing_fp r)) ++ chars ", capacity=" ++
  show_u64 (tr_rate_capacity r) ++ chars ", refill=" ++ show_u64 (tr_rate_refill_per_sec r) ++ chars "/s)".

Definition reloaded_note : list Z := chars "note: in effect immediately (coord auto-reloaded auth state)".

Definition tenants_add_wire (args : list (list Z)) (addr : list Z) (r : TenantRecord) (w : cli_world) : cli_outcome :=
  resp ←! ask env args addr
            (Envelope_AdminAddTenant (tr_tenant_id r) (tr_signing_fp r) (tr_rate_capacity r) (tr_rate_refill_per_sec r)
               (tr_registered_at_unix_ns r)) in w;
  match resp with
  | Envelope_AdminAddTenantAck =>
      ok_at (println_all [chars "added tenant " ++ show_u64 (tr_tenant_id r) ++ chars " on coord at " ++ addr ++
                          tenant_text r; reloaded_note] w)
  | other => unexpected env other w
  end.

Definition tenants_add_file (path : list Z) (r : TenantRecord) (w : cli_world) : cli_outcome :=
  existing ←! (if exists_at path w then load_tenants_path path w else Ok Tenant.new) in w;
  match Tenant.get (tr_tenant_id r) existing with
  | Some _ =>
      (Err (chars "tenant_id " ++ show_u64 (tr_tenant_id r) ++ chars " is already registered in " ++ path ++
            chars "; revoke first if you mean to replace"), w)
  | None =>
      replace_file path "append to " (append_atomic (ce_write_ok env) (tenant_line r) (file_at path w))
        (chars "added tenant " ++ show_u64 (tr_tenant_id r) ++ tenant_text r) w
  end.

Definition add_args (args : list (list Z)) : result TenantRecord (list Z) :=
  tenant_id ←? u64_flag env args "--tenant-id";
  signing_fp_hex ←? required_flag args "--signing-fp";
  signing_fp ←? hex_arg "--signing-fp" signing_fp_hex;
  rate_capacity ←? u64_flag env args "--rate-capacity";
  rate_refill_per_sec ←? u64_flag env args "--rate-refill-per-sec";
  at_ns ←? at_flag env args parse_u64 (Z.max (ce_now env) 0);
  Ok (mkTenantRecord tenant_id signing_fp rate_capacity rate_refill_per_sec at_ns).

Definition tenants_add_cmd (args : list (list Z)) (w : cli_world) : cli_outcome :=
  r ←! add_args args in w;
  match optional_flag args "--coord" with
  | Some addr => tenants_add_wire args addr r w
  | None => path ←! required_flag args "--tenants" in w; tenants_add_file path r w
  end.

Definition tenants_revoke_wire (args : list (list Z)) (addr : list Z) (tenant_id : Z) (w : cli_world) : cli_outcome :=
  resp ←! ask env args addr (Envelope_AdminRevokeTenant tenant_id) in w;
  match resp with
  | Envelope_AdminRevokeTenantAck =>
      ok_at (println_all [chars "revoked tenant " ++ show_u64 tenant_id ++ chars " on coord at " ++ addr;
                          reloaded_note] w)
  | other => unexpected env other w
  end.

Definition tenants_revoke_cmd (args : list (list Z)) (w : cli_world) : cli_outcome :=
  tenant_id ←! u64_flag env args "--tenant-id" in w;
  match optional_flag args "--coord" with
  | Some addr => tenants_revoke_wire args addr tenant_id w
  | None =>
      path ←! required_flag args "--tenants" in w;
      revoke_from path "tenant_id " tenant_id
        (chars "revoked tenant " ++ show_u64 tenant_id ++ chars " from " ++ path) w
  end.

(** * log and captures *)

Definition root_lines (root : option bytes) (length : Z) : list (list Z) :=
  match root with
  | Some r => [chars "length: " ++ show_u64 length; chars "root:   " ++ hex_encode r]
  | None => [chars "length: 0 (log is empty; no root)"]
  end.

Definition log_root (args : list (list Z)) (w : cli_world) : cli_outcome :=
  match optional_flag args "--coord" with
  | Some addr =>
      resp ←! ask env args addr Envelope_AdminGetLogRoot in w;
      match resp with
      | Envelope_AdminLogRoot root length => ok_at (println_all (root_lines root length) w)
      | other => unexpected env other w
      end
  | None =>
      path ←! required_flag args "--log" in w;
      match ce_log env path with
      | None => (Err (chars "open " ++ path ++ chars ": " ++ ce_error env), w)
      | Some disk =>
          match MerkleLog.open disk with
          | Err _ => (Err (chars "open " ++ path ++ chars ": " ++ ce_error env), w)
          | Ok log => ok_at (println_all (root_lines (MerkleLog.root log) (MerkleLog.len log)) w)
          end
      end
  end.

Definition kind_label (k : CaptureKind) : string :=
  match k with CaptureKind_Stdout => "stdout" | CaptureKind_Stderr => "stderr" | CaptureKind_Artifact => "artifact" end.

(** The derived [Debug] of a kind. *)
Definition kind_debug (k : CaptureKind) : string :=
  match k with CaptureKind_Stdout => "Stdout" | CaptureKind_Stderr => "Stderr" | CaptureKind_Artifact => "Artifact" end.

Definition capture_row (cap : CapturedOutput) : list Z :=
  pad_right 24 (co_name cap) ++ chars "  " ++ pad_right 8 (chars (kind_label (co_kind cap))) ++ chars "  " ++
  pad_left 10 (show_u64 (co_length cap)) ++ chars "  " ++ hex_encode (co_sha256 cap).

(** An empty line, the banner, and the bytes, with a newline unless they end in
    one; printed texts are lines here, so the last newline is implicit. *)
Definition capture_dump (cap : CapturedOutput) : list (list Z) :=
  [[]; chars "--- " ++ co_name cap ++ chars " (kind=" ++ chars (kind_debug (co_kind cap)) ++ chars ", length=" ++
       show_u64 (co_length cap) ++ chars ") ---";
   let text := from_utf8_lossy (co_bytes_inline cap) in
   if bool_decide (last (co_bytes_inline cap) = Some 10) then take (length text - 1) text else text].

Definition print_captures (captures : list CapturedOutput) (dump_bytes : bool) : list (list Z) :=
  if bool_decide (length captures = O) then [chars "(captures vector is empty)"]
  else
    (pad_right 24 (chars "name") ++ chars "  " ++ pad_right 8 (chars "kind") ++ chars "  " ++
     pad_left 10 (chars "length") ++ chars "  sha256") :: (capture_row <$> captures) ++
    (if dump_bytes then captures ≫= capture_dump else []).

Definition captures_get (args : list (list Z)) (w : cli_world) : cli_outcome :=
  addr ←! required_flag args "--read-addr" in w;
  job_id ←! u64_flag env args "--job-id" in w;
  runner_id ←! u64_flag env args "--runner-id" in w;
  let dump_bytes := bool_decide (is_Some (optional_flag args "--bytes")) in
  stream ←! open_read_stream env args addr in w;
  resp ←! (request_on env (Envelope_GetCaptures job_id runner_id) stream).1 in w;
  match resp with
  | Envelope_CapturesResponse j r captures =>
      if negb (j =? job_id) || negb (r =? runner_id) then
        (Err (chars "coord returned captures for (" ++ show_u64 j ++ chars ", " ++ show_u64 r ++ chars "), asked for (" ++
              show_u64 job_id ++ chars ", " ++ show_u64 runner_id ++ chars ")"), w)
      else ok_at (println_all (print_captures captures dump_bytes) w)
  | Envelope_CapturesNotFound _ _ =>
      ok_at (println (chars "(no captures persisted for job_id=" ++ show_u64 job_id ++ chars " runner_id=" ++
                      show_u64 runner_id ++ chars ")") w)
  | other => (Err (chars "unexpected response: " ++ ce_debug env other), w)
  end.

(** * main *)

(** The verb of a group, or the message for none or another. *)
Definition verb (group expected : string) (args : list (list Z)) (w : cli_world)
    (k : list Z → list (list Z) → option (option cli_outcome)) : option cli_outcome :=
  match args with
  | [] => Some (Err (chars group ++ chars ": missing verb (" ++ chars expected ++ chars ")"), w)
  | v :: rest =>
      match k v rest with
      | Some o => o
      | None => Some (Err (chars "unknown " ++ chars group ++ chars " verb `" ++ v ++ chars "` (expected: " ++
                           chars expected ++ chars ")"), w)
      end
  end.

Definition agents_cmd (args : list (list Z)) (w : cli_world) : option cli_outcome :=
  verb "agents" "list, enroll, revoke" args w (λ v rest,
    if decide (v = chars "list") then Some (Some (agents_list rest w))
    else if decide (v = chars "enroll") then Some (agents_enroll rest w)
    else if decide (v = chars "revoke") then Some (Some (agents_revoke rest w))
    else None).

Definition tenants_cmd (args : list (list Z)) (w : cli_world) : option cli_outcome :=
  verb "tenants" "list, add, revoke" args w (λ v rest,
    if decide (v = chars "list") then Some (Some (tenants_list rest w))
    else if decide (v = chars "add") then Some (Some (tenants_add_cmd rest w))
    else if decide (v = chars "revoke") then Some (Some (tenants_revoke_cmd rest w))
    else None).

Definition log_cmd (args : list (list Z)) (w : cli_world) : option cli_outcome :=
  verb "log" "root" args w (λ v rest, if decide (v = chars "root") then Some (Some (log_root rest w)) else None).

Definition captures_cmd (args : list (list Z)) (w : cli_world) : option cli_outcome :=
  verb "captures" "get" args w (λ v rest, if decide (v = chars "get") then Some (Some (captures_get rest w)) else None).

(** [usage] is the help text. *)
Definition admin_main (usage : list Z) (args : list (list Z)) (w : cli_world) : option cli_outcome :=
  match args with
  | [] => Some (Ok (), println usage w)
  | c :: rest =>
      if decide (c = chars "agents") then agents_cmd rest w
      else if decide (c = chars "tenants") then tenants_cmd rest w
      else if decide (c = chars "log") then log_cmd rest w
      else if decide (c = chars "captures") then captures_cmd rest w
      else if decide (c = chars "--help" ∨ c = chars "-h" ∨ c = chars "help") then Some (Ok (), println usage w)
      else Some (Err (chars "unknown subcommand `" ++ c ++ chars "`" ++ [10; 10] ++ usage), w)
  end.

End commands.

(** [captures get ... --bytes] as the usage text writes it: the flag is seen only
    if an argument follows. *)
Lemma bytes_flag_last args :
  chars "--bytes" ∉ args → optional_flag (args ++ [chars "--bytes"]) "--bytes" = None.
Proof.
  unfold optional_flag. induction args as [|a args IH]; intros Hn; cbn [app arg_at]; [by case_decide|].
  apply not_elem_of_cons in Hn as [Hne Hn]. rewrite decide_False by congruence. by apply IH.
Qed.

(** * The text of a reputation *)

Lemma show_u64_visible_app s n : Forall (λ c, 33 <= c <= 126) s → visible (s ++ show_u64 n).
Proof.
  intros Hs. destruct (show_u64_visible n) as [Hne Hv]. split; [|by apply Forall_app].
  intros [_ Hnil]%app_nil. done.
Qed.

Lemma digits_range f d : Forall (λ c, 48 <= c <= 57) (digits f d).
Proof.
  revert d. induction f as [|f IH]; intros d; cbn [digits]; [constructor|]. apply Forall_app. split; [apply IH|].
  constructor; [|constructor]. pose proof (Z.mod_pos_bound d 10). lia.
Qed.

Lemma decimal_visible f d : visible (decimal f d).
Proof.
  destruct f as [|f]; [apply show_u64_visible|]. split; [done|]. cbn [decimal app]. constructor; [lia|]. constructor; [lia|].
  eapply Forall_impl; [apply digits_range|]. cbn. lia.
Qed.

(** Reading digits. *)
Lemma take_digits_app f acc n d s :
  0 <= d < 10 ^ Z.of_nat f →
  take_digits acc n (digits f d ++ s) = take_digits (acc * 10 ^ Z.of_nat f + d) (n + f)%nat s.
Proof.
  revert acc n d s. induction f as [|f IH]; intros acc n d s Hd.
  { change (10 ^ Z.of_nat 0) with 1 in *. cbn [digits app]. rewrite Nat.add_0_r. f_equal. lia. }
  rewrite Nat2Z.inj_succ, Z.pow_succ_r in Hd |- * by lia. cbn [digits]. rewrite <-app_assoc, IH
    by (split; [apply Z.div_pos; lia|apply Z.div_lt_upper_bound; lia]).
  cbn [app take_digits]. pose proof (Z.mod_pos_bound d 10). pose proof (Z.div_mod d 10).
  assert (is_digit (48 + d mod 10) = true) as -> by (unfold is_digit; rewrite andb_true_iff, !Z.leb_le; lia).
  f_equal; lia.
Qed.

Lemma parse_decimal f d :
  0 <= d < 10 ^ Z.of_nat (S f) → parse_f32 (decimal (S f) d) = Some (dec_to_f32 false d (- Z.of_nat (S f))).
Proof.
  intros Hd. unfold parse_f32. cbn [decimal app]. change (48 =? 45) with false. change (48 =? 43) with false.
  cbv beta iota zeta. rewrite decide_False by (cbn [fmap list_fmap]; intros [?|?]; done).
  rewrite decide_False by (cbn [fmap list_fmap]; done). cbn [take_digits].
  change (is_digit 48) with true. change (is_digit 46) with false. cbv beta iota. change (46 =? 46) with true. cbv beta iota.
  rewrite <-(app_nil_r (digits (S f) d)), take_digits_app by done. cbn [take_digits].
  rewrite decide_False by lia. cbn [parse_exponent mbind option_bind]. do 2 f_equal; lia.
Qed.

(** The text is one field, and it reads back as the number. *)
Lemma show_unit_f32_ok x rep : show_unit_f32 x = Some rep → visible rep ∧ parse_f32 rep = Some x.
Proof.
  destruct x as [s| | |[] m e]; cbn [show_unit_f32]; try done.
  - intros [= <-]. split; [destruct s; split; try done; repeat constructor; lia|]. destruct s; reflexivity.
  - generalize 150%nat. intros fuel. generalize O. induction fuel as [|fuel IH]; intros f; cbn [shortest_from]; [done|].
    destruct (list_find _ _) as [[i t]|] eqn:Ht; [|apply IH]. intros [= <-].
    apply list_find_Some in Ht as (Hi & Hp & _). split; [|done].
    destruct i as [|[|i]]; simplify_eq/=; apply decimal_visible.
Qed.

(** Once a number of places works, the search ends. *)
Lemma shortest_from_ends fuel f g m e t :
  (f <= g < f + fuel)%nat → t ∈ candidates g m e → parse_f32 t = Some (S754_finite false m e) →
  is_Some (shortest_from fuel f m e).
Proof.
  revert f. induction fuel as [|fuel IH]; intros f Hg Ht Hp; [lia|]. cbn [shortest_from].
  destruct (list_find _ (candidates f m e)) as [found|] eqn:Hf; [by eexists|].
  destruct (decide (f = g)) as [-> |Hne]; [|apply IH; [lia|done|done]].
  apply list_find_None in Hf. rewrite Forall_forall in Hf. by destruct (Hf t Ht).
Qed.

(** Every [f32] between zero and one has a text. *)
Lemma show_unit_f32_total x :
  is_f32 x → SFleb f32_zero x && SFleb x f32_one = true → is_Some (show_unit_f32 x).
Proof.
  intros Hx Hr.
  assert (Hm : ∀ s m e, x = S754_finite s m e → Z.pos m < 2 ^ 24).
  { intros s m e ->. apply (canonical_spec m e Hx). }
  destruct (unit_cases x Hr Hm) as [(s & ->)|[-> |(m & e & -> & Hlt & He)]]; [by eexists|by_decide|].
  destruct (canonical_spec m e Hx) as (_ & Hb & _). cbn [show_unit_f32].
  set (f := Z.to_nat (- e - 1)). assert (Hf : Z.of_nat (S f) = - e) by (unfold f; lia).
  assert (Hpow : 10 ^ (- e) = 5 ^ (- e) * 2 ^ (- e)) by (rewrite <-Z.pow_mul_l; done).
  assert (0 < 5 ^ (- e)) by (apply Z.pow_pos_nonneg; lia). assert (0 < 2 ^ (- e)) by (apply Z.pow_pos_nonneg; lia).
  apply (shortest_from_ends _ _ (S f) _ _ (decimal (S f) (Z.pos m * 5 ^ (- e)))); [lia| |].
  - unfold candidates. rewrite Hf, Hpow, Z.mul_assoc. unfold round_half_even. rewrite Z.mod_mul, Z.div_mul by lia.
    rewrite (proj2 (Z.ltb_lt _ _)) by lia. by left.
  - rewrite parse_decimal by (rewrite Hf, Hpow; nia). rewrite Hf. f_equal.
    rewrite <-(Z.opp_involutive e) at 3. rewrite <-(Z.opp_involutive e) in Hx. rewrite dec_exact by (done || lia). done.
Qed.

(** Every number of thousandths has a text, and it is the one the coordinator
    writes. *)
Lemma show_unit_table :
  forallb (λ k, bool_decide (show_unit_f32 (SFdiv 24 128 (binary_normalize 24 128 k 0 false) f32_thousand) =
    Some (show_milli k))) (seqZ 0 1001) = true.
Proof. vm_compute. reflexivity. Qed.

(** * The two ends of a session *)

Section session.
Context `{Sha256} `{Ed25519Laws} `{RsMerkle}.
Context (keys : AdminKeySet) (senv : session_env) (log : LogBackend) (st : admin_state).

(** A peer that has sent [out] and then closes. *)
Definition script (out : list Envelope) : stream :=
  mkStream (λ n _, match out !! n with Some e => Ok e | None => Err WireError_Eof end) 0 [] [].

(** What the coordinator answers to [out], and the state it is then in. *)
Definition answers (out : list Envelope) : list Envelope := st_out (handle_admin_client keys senv log (script out) st).1.
Definition state_after (out : list Envelope) : admin_state := (handle_admin_client keys senv log (script out) st).2.

(** The command line's end of a connection to the coordinator. *)
Definition coord_stream : stream :=
  mkStream (λ n out, match answers out !! n with Some e => Ok e | None => Err WireError_Eof end) 0 [] [].

(** The flags of a session are given, the key file holds an allowlisted key, the
    dial reaches the coordinator, and the two clocks agree up to the freshness
    window. *)
Definition in_session (env : cli_env) (args : list (list Z)) (addr : list Z) : Prop :=
  ∃ ca cert key admin_key seed ts r,
    optional_flag args "--ca" = Some ca ∧ optional_flag args "--cert" = Some cert ∧
    optional_flag args "--key" = Some key ∧ optional_flag args "--admin-key" = Some admin_key ∧
    ce_read env admin_key = Some seed ∧ (32 <= length seed)%nat ∧
    ce_dial env (mkDial ca cert key (default (chars "cosaci.local") (optional_flag args "--server-name")) addr) =
      Ok coord_stream ∧
    ce_hello_clock env = Some ts ∧ Z.abs (sn_now senv - ts) <= ADMIN_HELLO_FRESHNESS_NS ∧
    by_fp keys !! sha256 (vk_to_bytes (verifying_key (from_seed (take 32 seed)))) = Some r.

(** The hello of a key. *)
Definition hello_of (kp : Keypair) (ts : Z) : Envelope :=
  Envelope_AdminHello (vk_to_bytes (verifying_key kp)) ts
    (sig_to_bytes (sign kp (ADMIN_HELLO_CHALLENGE ++ le_bytes 8 ts))).

Lemma hello_accepted kp ts r :
  Z.abs (sn_now senv - ts) <= ADMIN_HELLO_FRESHNESS_NS → by_fp keys !! sha256 (vk_to_bytes (verifying_key kp)) = Some r →
  verify_admin_hello keys (vk_to_bytes (verifying_key kp)) ts
    (sig_to_bytes (sign kp (ADMIN_HELLO_CHALLENGE ++ le_bytes 8 ts))) ADMIN_HELLO_CHALLENGE ADMIN_HELLO_FRESHNESS_NS
    (sn_now senv) = AdminAuthCheck_Ok (ar_admin_id r).
Proof.
  intros Hf Hr. apply hello_ok. split; [done|]. exists r, (verifying_key kp).
  split; [done|]. split; [done|]. split; [apply vk_from_to|]. unfold sign. rewrite sig_from_to. apply verify_sign.
Qed.

(** The coordinator's side: welcome, then the answer to the request. *)
Lemma coordinator_side kp ts r out :
  Z.abs (sn_now senv - ts) <= ADMIN_HELLO_FRESHNESS_NS → by_fp keys !! sha256 (vk_to_bytes (verifying_key kp)) = Some r →
  match out with
  | [] => answers [hello_of kp ts] = [Envelope_AdminWelcome]
  | req :: _ =>
      answers (hello_of kp ts :: out) = [Envelope_AdminWelcome; (admin_request senv log req st).1] ∧
      state_after (hello_of kp ts :: out) = (admin_request senv log req st).2
  end.
Proof.
  intros Hf Hr. pose proof (hello_accepted kp ts r Hf Hr) as Hv. unfold answers, state_after, handle_admin_client.
  destruct out as [|req out]; rewrite recv_peer; cbn [script st_peer st_reads st_out st_writes lookup list_lookup hello_of];
    rewrite Hv; unfold send; cbn [st_writes st_peer st_reads st_out]; rewrite recv_peer;
    cbn [st_peer st_reads st_out st_writes lookup list_lookup]; [done|].
  destruct (admin_request senv log req st) as [resp st']. split; reflexivity.
Qed.

(** The client's side. *)
Lemma ask_session env args addr req :
  in_session env args addr →
  ask env args addr req = Ok (admin_request senv log req st).1 ∧
  ∃ conn, connect env args addr = Ok conn ∧
    state_after (st_out (request_on env req conn).2) = (admin_request senv log req st).2.
Proof.
  intros (ca & cert & key & admin_key & seed & ts & r & Hca & Hcert & Hkey & Hak & Hread & Hlen & Hdial & Hclock & Hf & Hr).
  set (kp := from_seed (take 32 seed)) in *.
  pose proof (coordinator_side kp ts r [] Hf Hr) as Hw. pose proof (coordinator_side kp ts r [req] Hf Hr) as [Ha Hs].
  assert (Hc : connect env args addr = Ok (mkStream (st_peer coord_stream) 1 [hello_of kp ts] [])).
  { unfold connect, required_flag. rewrite Hca, Hcert, Hkey, Hak, Hread.
    rewrite (proj2 (Nat.ltb_ge _ _)) by done. rewrite Hdial, Hclock. unfold send. cbn [coord_stream st_writes st_out st_peer st_reads app].
    rewrite recv_peer. cbn [st_peer st_reads st_out st_writes]. fold kp. fold (hello_of kp ts). rewrite Hw. done. }
  assert (Hq : request_on env req (mkStream (st_peer coord_stream) 1 [hello_of kp ts] []) =
    (Ok (admin_request senv log req st).1, mkStream (st_peer coord_stream) 2 [hello_of kp ts; req] [])).
  { unfold request_on, send. cbn [st_writes st_out st_peer st_reads app]. rewrite recv_peer.
    cbn [st_peer st_reads st_out st_writes coord_stream]. rewrite Ha. done. }
  unfold ask. rewrite Hc, Hq. split; [done|]. eexists. split; [done|]. by rewrite Hq.
Qed.

(** ** Listing *)

Definition thousandths_ok (set : EnrollmentSet) : Prop :=
  map_Forall (λ _ r, 0 <= er_initial_reputation_milli r <= 1000) (records set).

(** What a file loads to has reputations in range. *)
Lemma parse_line_range line r : Enrollment.parse_line line = Ok r → 0 <= er_initial_reputation_milli r <= 1000.
Proof.
  unfold Enrollment.parse_line. intros Hp.
  destruct (next_field (split_whitespace line) _) as [p1|]; [|done]. destruct (or_field _ (parse_u64 p1.1)); [|done].
  destruct (next_field p1.2 _) as [p2|]; [|done]. destruct (next_field p2.2 _) as [p3|]; [|done].
  destruct (next_field p3.2 _) as [p4|]; [|done]. destruct (or_field _ (parse_i64 p4.1)); [|done].
  destruct (next_field p4.2 _) as [p5|]; [|done]. destruct (parse_f32 p5.1) as [x|] eqn:Ex; [|done].
  cbn [or_field] in Hp. destruct p5.2; [|done]. destruct (SFleb f32_zero x && SFleb x f32_one) eqn:Er; [|done]. cbn [negb] in Hp.
  destruct (or_field _ (parse_hex32 p2.1)); [|done]. destruct (or_field _ (parse_hex32 p3.1)); [|done].
  injection Hp as <-. cbn. apply to_milli_range; [done|]. intros s m e ->. by eapply parsed_small.
Qed.

Lemma parse_lines_range n ls set set' :
  Enrollment.parse_lines n ls set = Ok set' → thousandths_ok set → thousandths_ok set'.
Proof.
  revert n set. induction ls as [|l ls IH]; intros n set; cbn [Enrollment.parse_lines]; [by intros [= <-]|].
  destruct (Enrollment.skipped (trim l)); [apply IH|].
  destruct (Enrollment.parse_line (trim l)) as [r|] eqn:Ep; [|done]. cbn [map_err]. intros Hp Hok. eapply IH; [exact Hp|].
  apply parse_line_range in Ep. intros id x Hx. cbn in Hx. apply lookup_insert_Some in Hx as [[<- <-]|[_ Hx]]; [done|].
  by apply (Hok id).
Qed.

Lemma loaded_range f set : load_enrollment f = Some set → thousandths_ok set.
Proof.
  unfold load_enrollment. destruct (read_to_string f) as [text|]; [|done].
  destruct (Enrollment.parse text) as [s0|] eqn:Hp; [|done]. intros [= ->]. unfold Enrollment.parse in Hp.
  eapply parse_lines_range; [exact Hp|]. apply map_Forall_empty.
Qed.

Lemma entry_reputation_listed r :
  0 <= er_initial_reputation_milli r <= 1000 → entry_reputation (listed_thousandths r) = initial_reputation r.
Proof.
  intros Hm. destruct (parse_show_milli _ Hm) as (x & _ & Hx & _ & Hk).
  unfold entry_reputation, listed_thousandths, initial_reputation. rewrite <-Hx, Hk.
  rewrite Z.min_l by lia. by rewrite Z.min_l by lia.
Qed.

Lemma entries_rows_listed set :
  thousandths_ok set →
  entries_rows (stable_sort (λ a b, aar_runner_id a <=? aar_runner_id b)
    ((λ r, mkAdminAgentRecord (er_runner_id r) (er_signing_fp r) (er_vrf_fp r) (er_enrolled_at_unix_ns r)
             (listed_thousandths r)) <$> (map_to_list (records set)).*2)) = agents_rows set.
Proof.
  intros Hok. unfold entries_rows, agents_rows.
  rewrite stable_sort_id by (apply stable_sort_sorted; intros; rewrite ?Z.leb_le in *; lia).
  rewrite (stable_sort_fmap (λ a b, er_runner_id a <=? er_runner_id b)) by done.
  rewrite <-list_fmap_compose. apply list_fmap_ext. intros i r Hi. cbn [compose aar_runner_id aar_signing_fp aar_vrf_fp
    aar_enrolled_at_unix_ns aar_initial_reputation_thousandths]. unfold compose. simpl.
  rewrite entry_reputation_listed; [done|]. apply list_elem_of_lookup_2 in Hi. rewrite stable_sort_perm in Hi.
  apply list_elem_of_fmap in Hi as ([id r'] & -> & Hin%elem_of_map_to_list). by apply (Hok id).
Qed.

Lemma flag_of_enrollment path :
  optional_flag [chars "--enrollment"; path] "--coord" = None ∧
  required_flag [chars "--enrollment"; path] "--enrollment" = Ok path.
Proof.
  unfold required_flag, optional_flag. cbn [arg_at]. split; [|by rewrite decide_True by done].
  rewrite decide_False by done. by case_decide.
Qed.

(** What the two modes print: the same, but for the line that says there is
    nothing to list. *)
Definition lists_alike (listed : option bool) (empty_wire empty_file : list Z) (w : cli_world) (wire file : cli_outcome) : Prop :=
  match listed with
  | None => is_ok wire.1 = false ∧ is_ok file.1 = false ∧ wire.2 = w ∧ file.2 = w
  | Some true => wire = ok_at (println empty_wire w) ∧ file = ok_at (println empty_file w)
  | Some false => wire = file ∧ is_ok wire.1 = true
  end.

Lemma agents_list_modes env args addr path w :
  in_session env args addr → file_at path w = ad_enrollment st →
  lists_alike (Enrollment.is_empty <$> load_enrollment (ad_enrollment st))
    (chars "(no runners enrolled per coord at " ++ addr ++ chars ")") (chars "(no runners enrolled in " ++ path ++ chars ")") w
    (agents_list_wire env args addr w) (agents_list env [chars "--enrollment"; path] w).
Proof.
  intros Hs Hf. unfold agents_list_wire. rewrite (proj1 (ask_session _ _ _ _ Hs)).
  cbn [or_stop admin_request fst]. unfold admin_list_agents, agents_list. destruct (flag_of_enrollment path) as [-> ->].
  cbn [or_stop]. unfold load_path. rewrite Hf.
  destruct (load_enrollment (ad_enrollment st)) as [set|] eqn:Hl; [|done]. cbn [or_stop fmap option_fmap option_map].
  unfold Enrollment.is_empty. destruct (decide (records set = ∅)) as [He|Hne].
  - rewrite bool_decide_true by done. rewrite bool_decide_true; [done|]. by rewrite He, map_to_list_empty.
  - rewrite bool_decide_false by done.
    rewrite bool_decide_eq_false_2 by (intros Hnil%(f_equal length);
      rewrite stable_sort_length, !length_fmap in Hnil; apply Hne, map_to_list_empty_iff, nil_length_inv; done).
    by rewrite entries_rows_listed by exact (loaded_range _ _ Hl).
Qed.

(** ** Enrolling and revoking *)

Lemma file_at_set path f w : file_at path (set_file path f w) = f.
Proof. unfold file_at, set_file. simpl. by rewrite lookup_insert_eq. Qed.

Lemma file_at_println path line w : file_at path (println line w) = file_at path w.
Proof. done. Qed.

(** The outcome of replacing a file. *)
Lemma replace_file_result env path what r done w :
  is_ok (replace_file env path what r done w).1 = is_ok r.1 ∧
  file_at path (replace_file env path what r done w).2 = (if is_ok r.1 then r.2 else file_at path w).
Proof. destruct r as [[[]|] f]; simpl; [|done]. split; [done|]. rewrite file_at_println. apply file_at_set. Qed.

Lemma write_atomic_result ok content f :
  is_ok (write_atomic ok content f).1 = ok ∧ (write_atomic ok content f).2 = (if ok then File_text content else f).
Proof. by destruct ok. Qed.

(** The line and the request of an enrollment name the same record. *)
Lemma enroll_lines id sfp vfp at_ns x rep :
  uint 64 id → byte_array 32 sfp → byte_array 32 vfp → - 2 ^ 63 <= at_ns < 2 ^ 63 →
  is_f32 x → SFleb f32_zero x && SFleb x f32_one = true → show_unit_f32 x = Some rep →
  let r := requested_record id sfp vfp at_ns (wire_thousandths x) in
  line_of r (enrollment_line r) ∧ line_of r (enrollment_text id sfp vfp at_ns rep).
Proof.
  intros Hid Hsf Hvf Hat Hx Hr Hrep. destruct (show_unit_f32_ok x rep Hrep) as [Hvis Hparse].
  assert (Hm : 0 <= to_milli x <= 1000).
  { apply to_milli_range; [done|]. intros s m e ->. apply (canonical_spec m e Hx). }
  assert (Hr' : requested_record id sfp vfp at_ns (wire_thousandths x) = mkEnrolledRecord id sfp vfp at_ns (to_milli x)).
  { unfold requested_record, wire_thousandths. f_equal. lia. }
  cbv zeta. rewrite Hr'. split; [by apply enrollment_line_ok|by apply enrollment_text_ok].
Qed.

Lemma agents_enroll_modes env args addr path id sfp vfp at_ns x w :
  in_session env args addr → sn_write_ok senv = ce_write_ok env → file_at path w = ad_enrollment st →
  uint 64 id → byte_array 32 sfp → byte_array 32 vfp → - 2 ^ 63 <= at_ns < 2 ^ 63 →
  is_f32 x → SFleb f32_zero x && SFleb x f32_one = true →
  ∃ o, agents_enroll_file env path id sfp vfp at_ns x w = Some o ∧
    let wire := agents_enroll_wire env args addr id sfp vfp at_ns x w in
    let st' := (admin_request senv log (Envelope_AdminEnrollAgent id sfp vfp at_ns (wire_thousandths x)) st).2 in
    match ad_enrollment st with
    | File_missing =>
        is_ok wire.1 = false ∧ st' = st ∧ is_ok o.1 = ce_write_ok env ∧
      (ce_write_ok env = true → load_enrollment (file_at path o.2) =
         Some (mkEnrollmentSet {[id := requested_record id sfp vfp at_ns (wire_thousandths x)]}))
    | _ => is_ok o.1 = is_ok wire.1 ∧
      load_enrollment (file_at path o.2) = load_enrollment (ad_enrollment st')
    end.
Proof.
  intros Hs Hok Hf Hid Hsf Hvf Hat Hx Hr. destruct (show_unit_f32_total x Hx Hr) as [rep Hrep].
  destruct (enroll_lines id sfp vfp at_ns x rep Hid Hsf Hvf Hat Hx Hr Hrep) as [Hline' Hline].
  unfold agents_enroll_wire. rewrite (proj1 (ask_session _ _ _ _ Hs)). cbn [or_stop admin_request].
  set (r := requested_record id sfp vfp at_ns (wire_thousandths x)) in *.
  unfold agents_enroll_file, exists_at, load_path, admin_enroll_agent. rewrite Hf, Hrep.
  assert (Happ := replace_file_result env path "append to " (append_atomic (ce_write_ok env)
    (enrollment_text id sfp vfp at_ns rep) (ad_enrollment st)) (chars "enrolled runner " ++ show_u64 id ++ fps_text sfp vfp) w).
  destruct (ad_enrollment st) as [| |text] eqn:Hst.
  - cbn [load_enrollment read_to_string]. change (Enrollment.get id Enrollment.new) with (@None EnrolledRecord).
    cbn [mbind option_bind]. eexists. split; [done|]. destruct Happ as [-> ->]. cbn [append_atomic].
    destruct (write_atomic_result (ce_write_ok env) (append_line [] (enrollment_text id sfp vfp at_ns rep)) File_missing) as [-> ->].
    split; [done|]. split; [done|]. split; [done|]. intros ->. unfold load_enrollment. cbn [read_to_string].
    rewrite (append_loads [] Enrollment.new r _ Hline) by done. done.
  - eexists. split; [done|]. simpl. by rewrite Hf, Hst.
  - destruct (load_enrollment (File_text text)) as [set|] eqn:Hl;
      [|eexists; split; [done|]; simpl; by rewrite Hf, Hst, Hl].
    change (er_runner_id r) with id. destruct (Enrollment.get id set); [eexists; split; [done|]; simpl; by rewrite Hf, Hst, Hl|].
    cbn [mbind option_bind]. eexists. split; [done|]. destruct Happ as [-> ->]. rewrite Hok, Hf.
    cbn [append_atomic]. destruct (ce_write_ok env); simpl; [|by rewrite Hst, Hl]. split; [done|].
    unfold load_enrollment in Hl |- *. simpl in *. destruct (Enrollment.parse text) as [s0|] eqn:Hp; [|done].
    injection Hl as ->. by rewrite (append_loads text set r _ Hline' Hp), (append_loads text set r _ Hline Hp).
Qed.

Lemma agents_revoke_modes env args addr path id done w :
  in_session env args addr → sn_write_ok senv = ce_write_ok env →
  file_at path w = ad_enrollment st →
  let o := revoke_from env path "runner_id " id done w in
  is_ok o.1 = is_ok (agents_revoke_wire env args addr id w).1 ∧
  file_at path o.2 = ad_enrollment (admin_request senv log (Envelope_AdminRevokeAgent id) st).2.
Proof.
  intros Hs Hok Hf o. unfold o, agents_revoke_wire. rewrite (proj1 (ask_session _ _ _ _ Hs)). cbn [or_stop admin_request].
  unfold revoke_from, exists_at, admin_revoke_agent. rewrite Hf, Hok.
  destruct (ad_enrollment st) as [| |text] eqn:Hst; simpl; rewrite ?Hst; try done.
  destruct (tenants_revoke id text) as [out|]; [|simpl; by rewrite ?Hf, ?Hst].
  destruct (replace_file_result env path "write " (write_atomic (ce_write_ok env) out (File_text text)) done w)
    as [-> ->]. rewrite Hf. destruct (ce_write_ok env); simpl; by rewrite ?Hst.
Qed.

(** ** Tenants *)

Lemma tenant_entries_listed reg :
  tenant_entries_rows ((λ r, mkAdminTenantRecord (tr_tenant_id r) (tr_signing_fp r) (tr_rate_capacity r)
    (tr_rate_refill_per_sec r) (tr_registered_at_unix_ns r)) <$> Tenant.iter reg) = tenants_rows reg.
Proof.
  unfold tenant_entries_rows, tenants_rows.
  rewrite (stable_sort_fmap (λ a b, tr_tenant_id a <=? tr_tenant_id b)) by done. unfold Tenant.iter.
  rewrite (stable_sort_id _ (stable_sort _ _))
    by (apply stable_sort_sorted; intros; rewrite ?Z.leb_le in *; lia).
  by rewrite <-list_fmap_compose.
Qed.

Lemma flag_of_tenants path :
  optional_flag [chars "--tenants"; path] "--coord" = None ∧ required_flag [chars "--tenants"; path] "--tenants" = Ok path.
Proof.
  unfold required_flag, optional_flag. cbn [arg_at]. split; [|by rewrite decide_True by done].
  rewrite decide_False by done. by case_decide.
Qed.

Lemma tenants_list_modes env args addr path w :
  in_session env args addr → ad_tenants st = Some (file_at path w) →
  lists_alike (match load_tenants (file_at path w) with Ok reg => Some (Tenant.is_empty reg) | Err _ => None end)
    (chars "(no tenants registered per coord at " ++ addr ++ chars ")")
    (chars "(no tenants registered in " ++ path ++ chars ")") w
    (tenants_list_wire env args addr w) (tenants_list env [chars "--tenants"; path] w).
Proof.
  intros Hs Hf. unfold tenants_list_wire. rewrite (proj1 (ask_session _ _ _ _ Hs)).
  cbn [or_stop admin_request fst]. unfold admin_list_tenants, tenants_list. rewrite Hf. destruct (flag_of_tenants path) as [-> ->].
  cbn [or_stop]. unfold load_tenants_path. destruct (load_tenants (file_at path w)) as [reg|]; [|done]. cbn [or_stop].
  unfold Tenant.is_empty. destruct (decide (by_id reg = ∅)) as [He|Hne].
  - rewrite bool_decide_true by done. rewrite bool_decide_true; [done|]. unfold Tenant.iter. by rewrite He, map_to_list_empty.
  - rewrite bool_decide_false by done.
    rewrite bool_decide_eq_false_2, tenant_entries_listed by (done || intros Hnil%(f_equal length);
      unfold Tenant.iter in Hnil; rewrite length_fmap, stable_sort_length, length_fmap in Hnil;
      apply Hne, map_to_list_empty_iff, nil_length_inv; done).
    done.
Qed.

Lemma tenants_add_modes env args addr path r w :
  in_session env args addr → sn_write_ok senv = ce_write_ok env → ad_tenants st = Some (file_at path w) →
  let o := tenants_add_file env path r w in
  is_ok o.1 = is_ok (tenants_add_wire env args addr r w).1 ∧
  Some (file_at path o.2) = ad_tenants (admin_request senv log (Envelope_AdminAddTenant (tr_tenant_id r)
    (tr_signing_fp r) (tr_rate_capacity r) (tr_rate_refill_per_sec r) (tr_registered_at_unix_ns r)) st).2.
Proof.
  intros Hs Hok Hf o. unfold o, tenants_add_wire. rewrite (proj1 (ask_session _ _ _ _ Hs)). cbn [or_stop admin_request].
  unfold tenants_add_file, exists_at, load_tenants_path, admin_add_tenant. rewrite Hf, Hok.
  destruct r as [id fp cap refill at_ns]. cbn [tr_tenant_id tr_signing_fp tr_rate_capacity tr_rate_refill_per_sec tr_registered_at_unix_ns].
  set (line := tenant_line _). set (done := chars "added tenant " ++ _).
  pose proof (replace_file_result env path "append to " (append_atomic (ce_write_ok env) line (file_at path w)) done w)
    as [Hr1 Hr2].
  destruct (file_at path w) as [| |text] eqn:Hw; unfold load_tenants; cbn [read_to_string or_stop].
  - assert (Tenant.get id Tenant.new = None) as -> by apply lookup_empty. rewrite Hr1, Hr2. simpl. destruct (ce_write_ok env); simpl; by rewrite ?Hf.
  - simpl. by rewrite Hf, Hw.
  - destruct (Tenant.load text) as [reg|]; cbn [or_stop]; [|simpl; by rewrite Hf, Hw].
    destruct (Tenant.get id reg); [simpl; by rewrite Hf, Hw|]. rewrite Hr1, Hr2. simpl.
    destruct (ce_write_ok env); simpl; by rewrite ?Hf.
Qed.

Lemma tenants_revoke_modes env args addr path id done w :
  in_session env args addr → sn_write_ok senv = ce_write_ok env → ad_tenants st = Some (file_at path w) →
  let o := revoke_from env path "tenant_id " id done w in
  is_ok o.1 = is_ok (tenants_revoke_wire env args addr id w).1 ∧
  Some (file_at path o.2) = ad_tenants (admin_request senv log (Envelope_AdminRevokeTenant id) st).2.
Proof.
  intros Hs Hok Hf o. unfold o, tenants_revoke_wire. rewrite (proj1 (ask_session _ _ _ _ Hs)). cbn [or_stop admin_request].
  unfold revoke_from, exists_at, admin_revoke_tenant. rewrite Hf, Hok.
  destruct (file_at path w) as [| |text] eqn:Hw; simpl; rewrite ?Hw, ?Hf; try done.
  destruct (tenants_revoke id text) as [out|]; [|simpl; by rewrite Hw, Hf].
  destruct (replace_file_result env path "write " (write_atomic (ce_write_ok env) out (File_text text)) done w)
    as [-> ->]. rewrite Hw. destruct (ce_write_ok env); simpl; by rewrite ?Hf.
Qed.

(** C4: the two modes of the command line agree, but for two cases. In a session
    with the coordinator (an allowlisted key, clocks within the freshness window)
    the request reaches the coordinator as sent, and for the file the coordinator
    works on, with writes that go the same way in both modes: listing fails in
    both modes or prints the same, except that each mode has its own line for an
    empty file; enrolling an [f32] reputation between zero and one in a file that
    exists succeeds in both modes or in neither, and the two files load to the
    same records although the reputation is printed differently, while without a
    file the coordinator refuses and the command line creates it; revoking
    succeeds in both or in neither and leaves the same text; and so for the
    tenants, where adding creates the file in both modes. *)
Theorem admin_modes_agree env args addr path w :
  in_session env args addr → sn_write_ok senv = ce_write_ok env →
  (∀ req, ∃ conn, connect env args addr = Ok conn ∧
     state_after (st_out (request_on env req conn).2) = (admin_request senv log req st).2) ∧
  (file_at path w = ad_enrollment st →
     lists_alike (Enrollment.is_empty <$> load_enrollment (ad_enrollment st))
       (chars "(no runners enrolled per coord at " ++ addr ++ chars ")")
       (chars "(no runners enrolled in " ++ path ++ chars ")") w
       (agents_list_wire env args addr w) (agents_list env [chars "--enrollment"; path] w) ∧
     (∀ id sfp vfp at_ns x, uint 64 id → byte_array 32 sfp → byte_array 32 vfp → - 2 ^ 63 <= at_ns < 2 ^ 63 →
        is_f32 x → SFleb f32_zero x && SFleb x f32_one = true →
        ∃ o, agents_enroll_file env path id sfp vfp at_ns x w = Some o ∧
          let wire := agents_enroll_wire env args addr id sfp vfp at_ns x w in
          let st' := (admin_request senv log (Envelope_AdminEnrollAgent id sfp vfp at_ns (wire_thousandths x)) st).2 in
          match ad_enrollment st with
          | File_missing =>
              is_ok wire.1 = false ∧ st' = st ∧ is_ok o.1 = ce_write_ok env ∧
            (ce_write_ok env = true → load_enrollment (file_at path o.2) =
               Some (mkEnrollmentSet {[id := requested_record id sfp vfp at_ns (wire_thousandths x)]}))
          | _ => is_ok o.1 = is_ok wire.1 ∧
            load_enrollment (file_at path o.2) = load_enrollment (ad_enrollment st')
          end) ∧
     (∀ id done, let o := revoke_from env path "runner_id " id done w in
        is_ok o.1 = is_ok (agents_revoke_wire env args addr id w).1 ∧
        file_at path o.2 = ad_enrollment (admin_request senv log (Envelope_AdminRevokeAgent id) st).2)) ∧
  (ad_tenants st = Some (file_at path w) →
     lists_alike (match load_tenants (file_at path w) with Ok reg => Some (Tenant.is_empty reg) | Err _ => None end)
       (chars "(no tenants registered per coord at " ++ addr ++ chars ")")
       (chars "(no tenants registered in " ++ path ++ chars ")") w
       (tenants_list_wire env args addr w) (tenants_list env [chars "--tenants"; path] w) ∧
     (∀ r, let o := tenants_add_file env path r w in
        is_ok o.1 = is_ok (tenants_add_wire env args addr r w).1 ∧
        Some (file_at path o.2) = ad_tenants (admin_request senv log (Envelope_AdminAddTenant (tr_tenant_id r)
          (tr_signing_fp r) (tr_rate_capacity r) (tr_rate_refill_per_sec r) (tr_registered_at_unix_ns r)) st).2) ∧
     (∀ id done, let o := revoke_from env path "tenant_id " id done w in
        is_ok o.1 = is_ok (tenants_revoke_wire env args addr id w).1 ∧
        Some (file_at path o.2) = ad_tenants (admin_request senv log (Envelope_AdminRevokeTenant id) st).2)).
Proof.
  intros Hs Hok. split; [|split].
  - intros req. exact (proj2 (ask_session env args addr req Hs)).
  - intros Hf. split; [|split].
    + by apply agents_list_modes.
    + intros id sfp vfp at_ns x. by apply agents_enroll_modes.
    + intros id done. by apply agents_revoke_modes.
  - intros Hf. split; [|split].
    + by apply tenants_list_modes.
    + intros r. by apply tenants_add_modes.
    + intros id done. by apply tenants_revoke_modes.
Qed.

End session.

(** * Witness *)

Import (hints) Toy ToyTree.

Definition demo_cli_keys : AdminKeySet :=
  mkAdminKeySet {[sha256 (vk_to_bytes (verifying_key (from_seed (replicate 32 1)))) := mkAdminRecord 1 [] 0]}.

Definition demo_cli_args : list (list Z) :=
  chars <$> ["--ca"; "c"; "--cert"; "d"; "--key"; "e"; "--admin-key"; "k"]%string.

Definition demo_senv : session_env := mkSessionEnv 5 true [].

Definition demo_cli_env : cli_env :=
  mkCliEnv 0 (Some 3) true [] (λ _, Some (replicate 32 1)) (λ _, None)
    (λ _, Ok (coord_stream demo_cli_keys demo_senv (LogBackend_Mem MerkleLog.new) demo_admin_state))
    (λ _, []) (λ _, []).

Definition demo_cli_world : cli_world := mkWorld {[chars "p" := File_text demo_enrollment]} [].

(** One quarter, which reads back from [0.25]. *)
Definition quarter : spec_float := S754_finite false 8388608 (-25).

Lemma admin_modes_agree_witness :
  ∃ o, agents_enroll_file demo_cli_env (chars "p") 9 (replicate 32 1) (replicate 32 2) 7 quarter demo_cli_world = Some o ∧
    is_ok (agents_enroll_wire demo_cli_env demo_cli_args [] 9 (replicate 32 1) (replicate 32 2) 7 quarter
             demo_cli_world).1 = true ∧ is_ok o.1 = true.
Proof.
  assert (Hs : in_session demo_cli_keys demo_senv (LogBackend_Mem MerkleLog.new) demo_admin_state demo_cli_env
    demo_cli_args []).
  { exists (chars "c"), (chars "d"), (chars "e"), (chars "k"), (replicate 32 1), 3, (mkAdminRecord 1 [] 0).
    repeat (split; [reflexivity|]). split; [vm_compute; discriminate|reflexivity]. }
  destruct (admin_modes_agree demo_cli_keys demo_senv (LogBackend_Mem MerkleLog.new) demo_admin_state demo_cli_env
    demo_cli_args [] (chars "p") demo_cli_world Hs eq_refl) as (_ & Ha & _).
  destruct (Ha eq_refl) as (_ & He & _).
  destruct (He 9 (replicate 32 1) (replicate 32 2) 7 quarter) as (o & Ho & Hr);
    [by_decide|by_decide|by_decide|lia|reflexivity|reflexivity|].
  cbv zeta in Hr. destruct Hr as [Hr _].
  exists o. split; [exact Ho|]. rewrite Hr.
  assert (Hw : is_ok (agents_enroll_wire demo_cli_env demo_cli_args [] 9 (replicate 32 1) (replicate 32 2) 7 quarter
    demo_cli_world).1 = true) by (vm_compute; reflexivity).
  split; exact Hw.
Defined.
