(* ===== verification/Auditor.v ===== *)
(** The verifier of the read API (src/bins/cosaci-demo/src/bin/verify.rs).

    Every request of the verifier is a connection of its own; the [k]-th one is
    the [k]-th answer of the network. The lemmas run the verifier against the
    service while the service goes on; [AuditMain] has its whole process. *)

From S2P Require Import Prelude Quorum PartialQuorum Attestation StakeLedger Capabilities MerkleLog.
From S2P Require Import Retrieval Text Replay RateLimit Tenant SubmissionAuth Enrollment Journal.
From S2P Require Import Network Pipeline Wire Vrf Coordinator Agent Service.

(** How the verifier ends: exit code 0 with the bundle, exit code 1, a failed
    assertion, or an error of [main]. *)
Inductive audit :=
| Audit_ok (bundle : JobBundle)
| Audit_fail
| Audit_panic
| Audit_error.

Section verifier.
Context `{RsMerkle}.

(** [open_stream] for the [k]-th connection. *)
Context (dial : nat → result stream wire_error).

(** One request and one answer on a connection of its own. *)
Definition exchange (k : nat) (req : Envelope) : result Envelope wire_error :=
  stream ←? dial k;
  match send req stream with
  | (Err e, _) => Err e
  | (Ok _, stream) => (recv stream).1
  end.

(** An answer of another kind is an error. *)
Definition request_job (k : nat) (job_id : Z) : result (option JobBundle) wire_error :=
  resp ←? exchange k (Envelope_GetJob job_id);
  match resp with
  | Envelope_JobBundleResponse b => Ok (Some b)
  | Envelope_JobNotFound _ => Ok None
  | _ => Err WireError_InvalidData
  end.

Definition request_log_root (k : nat) : result (option bytes * Z) wire_error :=
  resp ←? exchange k Envelope_GetLogRoot;
  match resp with
  | Envelope_LogRoot root length => Ok (root, length)
  | _ => Err WireError_InvalidData
  end.

(** The attempts from the [k]-th connection on: the bundle and the next
    connection; pauses between attempts do nothing else. *)
Fixpoint loop_request_bundle (attempts k : nat) (job_id : Z) : option (JobBundle * nat) :=
  match attempts with
  | O => None
  | S attempts =>
      match request_job k job_id with
      | Ok (Some b) => Some (b, S k)
      | Ok None | Err _ => loop_request_bundle attempts (S k) job_id
      end
  end.

(** The three assertions on the bundle. *)
Definition bundle_consistent (b : JobBundle) : bool :=
  bool_decide (ip_entry (jb_merkle_proof b) = jb_consensus_artifact b) &&
  (ip_position (jb_merkle_proof b) =? jb_log_position b) &&
  (ip_length_at_proof (jb_merkle_proof b) =? jb_log_length_at_anchor b).

(** [main] once the client configuration is loaded. *)
Definition verify_job (max_attempts : nat) (job_id : Z) : audit :=
  match loop_request_bundle max_attempts 0 job_id with
  | None => Audit_error
  | Some (bundle, k) =>
      if negb (bundle_consistent bundle) then Audit_panic
      else match request_log_root k with
      | Err _ => Audit_error
      | Ok (_, current_length) =>
          if current_length <? jb_log_length_at_anchor bundle then Audit_panic
          else if verify_inclusion (jb_merkle_proof bundle) (jb_log_root bundle) then Audit_ok bundle
          else Audit_fail
      end
  end.

End verifier.

(** * Against the service *)

Section against.
Context `{Cbor} `{Sha256} `{Ed25519} `{CborBytes} `{RsMerkleLaws} `{JournalJson} `{CapturesCbor} `{Schnorrkel}.
Context `{SubmissionCbor} `{SubmissionWire}.
Context (hash_order : gmap (list Z) Z → list (list Z * Z)) (md : overflow_mode) (cf : config).

(** A record made since an empty start stays. *)
Lemma record_stays agents log journal captures auth evs s outs evs' s' outs' job r :
  serve hash_order md cf evs (service_start cf agents log journal captures auth) = Some (s, outs) →
  w_records (sv_world s) !! job = Some r → serve hash_order md cf evs' s = Some (s', outs') →
  w_records (sv_world s') !! job = Some r.
Proof.
  intros Hserve Hjob Hserve'. set (s0 := service_start _ _ _ _ _ _) in *.
  destruct (serve_accounted hash_order md cf evs s0 s outs) as [_ Hacc]; [by intros ?|exact Hserve|].
  destruct (serve_recorded hash_order md cf evs s0 s outs Hserve) as (_ & Hnew & _).
  destruct (serve_recorded _ _ _ _ _ _ _ Hserve') as (Hkeep & _). apply Hkeep; [done|].
  destruct (Hnew job r Hjob) as [Hold|(pipeline & res & Hran & _)]; [done|].
  destruct Hacc as (Hids & _). assert (Hin : job ∈ (ran outs).*1).
  { apply list_elem_of_fmap. exists (job, pipeline). split; [done|]. by eapply ran_elem. }
  rewrite Hids in Hin. apply elem_of_seqZ in Hin. simpl in Hin. lia.
Qed.

(** The moments of a run at which the verifier's connections are served. *)
Context (agents : list RegisteredAgent) (log : LogBackend) (journal : option journal_file) (captures : capture_files)
  (auth : option AuthState) (captures_on : bool).
Context (at_ : nat → service).

Definition moments : Prop :=
  (∃ es outs, serve hash_order md cf es (service_start cf agents log journal captures auth) = Some (at_ 0%nat, outs)) ∧
  ∀ k, ∃ es outs, serve hash_order md cf es (at_ k) = Some (at_ (S k), outs).

Lemma moments_reached k :
  moments → ∃ es outs, serve hash_order md cf es (service_start cf agents log journal captures auth) = Some (at_ k, outs).
Proof.
  intros [(es0 & o0 & Hstart) Hs]. induction k as [|k (es & outs & IH)]; [eauto|]. destruct (Hs k) as (es' & o & Hk).
  exists (es ++ es'), (outs ++ o). by eapply serve_app.
Qed.

Lemma moments_later k j :
  moments → (k <= j)%nat → ∃ es outs, serve hash_order md cf es (at_ k) = Some (at_ j, outs).
Proof.
  intros [_ Hs]. induction 1 as [|j Hle (es & outs & IH)]; [by exists [], []|]. destruct (Hs j) as (es' & o & Hj).
  exists (es ++ es'), (outs ++ o). by eapply serve_app.
Qed.

(** The bundle of a record, as served at any moment from then on. *)
Lemma served_bundle k job r :
  moments → stake_ok (stakes (w_ledger (sv_world (service_start cf agents log journal captures auth)))) →
  backend_pos_ok log → w_records (sv_world (at_ k)) !! job = Some r →
  ∃ b, backend_build_bundle (w_log (sv_world (at_ k))) (w_records (sv_world (at_ k))) job = Some b ∧
    verify_inclusion (jb_merkle_proof b) (jb_log_root b) = true ∧ bundle_consistent b = true ∧
    jb_job_id b = job ∧ jb_consensus_artifact b = jr_consensus_artifact r ∧
    jb_committee_attestations b = jr_committee_attestations r ∧
    (∀ j, (k <= j)%nat → jb_log_length_at_anchor b <= backend_len (w_log (sv_world (at_ j)))).
Proof.
  intros Hm Hs Hp Hjob. destruct (moments_reached k Hm) as (es & outs & Hserve).
  assert (Hok : world_ok (sv_world (service_start cf agents log journal captures auth)) (sv_world (at_ k))).
  { eapply serve_world; [exact Hserve|]. by apply service_start_world. }
  destruct (Hok) as (_ & _ & _ & _ & Hrec). destruct (Hrec job r Hjob) as (Hid & Hanch).
  destruct (backend_bundle (w_log (sv_world (at_ k))) _ job r Hjob Hanch)
    as (b & Hb & Hv & He & Ha & Hc & Hpo & Hl & Hj & Hlen).
  exists b. split; [done|]. split; [done|]. split.
  { unfold bundle_consistent. by rewrite bool_decide_eq_true_2, Hpo, Hl, !Z.eqb_refl by done. }
  split; [congruence|]. split; [done|]. split; [done|]. intros j Hle.
  destruct (moments_later k j Hm Hle) as (es' & outs' & Hserve').
  assert (Hok' : world_ok (sv_world (at_ k)) (sv_world (at_ j))).
  { eapply serve_world; [exact Hserve'|]. by eapply world_ok_rebase. }
  destruct Hok' as (_ & _ & _ & (new & Hgrow) & _). destruct Hanch as (_ & Hle' & _).
  assert (Hbl : backend_len (w_log (sv_world (at_ j))) = Z.of_nat (length (backend_entries (w_log (sv_world (at_ j))))))
    by by destruct (w_log (sv_world (at_ j))).
  rewrite Hbl, Hgrow, length_app. lia.
Qed.

(** The connections up to the [n]-th are answered by the service of their
    moment. *)
Definition answered (dial : nat → result stream wire_error) (n : nat) : Prop :=
  ∀ k req, (k <= n)%nat →
    exchange dial k req = match handle_read captures_on (sv_world (at_ k)) req with
                          | Some r => Ok r
                          | None => Err WireError_Eof
                          end.

(** The attempts, once the job is recorded at one of them. *)
Lemma attempts_find dial attempts k n job r :
  moments → stake_ok (stakes (w_ledger (sv_world (service_start cf agents log journal captures auth)))) →
  backend_pos_ok log → answered dial n →
  (k <= n < k + attempts)%nat → w_records (sv_world (at_ n)) !! job = Some r →
  ∃ j b, (k <= j <= n)%nat ∧ w_records (sv_world (at_ j)) !! job = Some r ∧
    loop_request_bundle dial attempts k job = Some (b, S j) ∧
    backend_build_bundle (w_log (sv_world (at_ j))) (w_records (sv_world (at_ j))) job = Some b.
Proof.
  intros Hm Hs Hp Hd. revert k. induction attempts as [|attempts IH]; intros k Hk Hn; [lia|].
  cbn [loop_request_bundle]. unfold request_job. rewrite Hd by lia. cbn [handle_read].
  destruct (w_records (sv_world (at_ k)) !! job) as [r'|] eqn:Hr.
  - destruct (served_bundle k job r' Hm Hs Hp Hr) as (b & Hb & _). rewrite Hb.
    destruct (moments_reached k Hm) as (es & outs & Hserve).
    destruct (moments_later k n Hm) as (es' & outs' & Hserve'); [lia|].
    pose proof (record_stays _ _ _ _ _ _ _ _ _ _ _ _ _ Hserve Hr Hserve') as Hr2.
    assert (r' = r) as -> by congruence. exists k, b. split; [lia|]. done.
  - assert (backend_build_bundle (w_log (sv_world (at_ k))) (w_records (sv_world (at_ k))) job = None) as ->.
    { destruct (w_log _); cbn [backend_build_bundle]; unfold build_bundle; by rewrite Hr. }
    destruct (decide (k = n)) as [->|Hne]; [congruence|].
    destruct (IH (S k)) as (j & b & Hj & Hrest); [lia|done|]. exists j, b. split; [lia|done].
Qed.

(** The verifier accepts what the service anchors, as soon as the job is
    recorded at one of its attempts. *)
Lemma auditor_accepts_service dial max_attempts n job r :
  moments → stake_ok (stakes (w_ledger (sv_world (service_start cf agents log journal captures auth)))) →
  backend_pos_ok log → answered dial (S n) → (n < max_attempts)%nat → w_records (sv_world (at_ n)) !! job = Some r →
  ∃ b, verify_job dial max_attempts job = Audit_ok b ∧ jb_job_id b = job ∧
    jb_committee_attestations b = jr_committee_attestations r ∧ jb_consensus_artifact b = jr_consensus_artifact r ∧
    verify_inclusion (jb_merkle_proof b) (jb_log_root b) = true.
Proof.
  intros Hm Hs Hp Hd Hn Hr.
  destruct (attempts_find dial max_attempts 0 n job r Hm Hs Hp) as (j & b & Hj & Hrj & Hloop & Hb);
    [intros k req Hk; apply Hd; lia|lia|done|].
  destruct (served_bundle j job r Hm Hs Hp Hrj) as (b' & Hb' & Hv & Hcons & Hid & Hart & Hatts & Hlen).
  assert (b' = b) as -> by congruence.
  exists b. split; [|done]. unfold verify_job. rewrite Hloop, Hcons. cbn [negb]. unfold request_log_root.
  rewrite Hd by lia. cbn [handle_read].
  specialize (Hlen (S j) ltac:(lia)). rewrite (proj2 (Z.ltb_ge _ _)) by done. by rewrite Hv.
Qed.

End against.
