(* ===== verification/Tls.v ===== *)
(** Mutual TLS: the test authority, certificate files and configurations
    (src/crates/cosaci-protocol/src/tls.rs and tls_async.rs).

    rcgen, rustls and rustls-pemfile are type classes; what their documentation
    says of issuing, of trust anchors and of revocation lists is in the classes
    ending in [Laws]. A file is the bytes it holds or the kind of error opening
    it gives. [accepted_unless_revoked] joins the two ends of revocation: the
    serials the authority hands out and the first of the lists the server loads
    shut out exactly the certificates that list revokes. *)

From S2P Require Import Prelude Attestation Text.

(** * Crates *)

(** [PrivateKeyDer] of rustls. *)
Inductive PrivateKeyDer :=
| PrivateKeyDer_Pkcs8 (der : bytes)
| PrivateKeyDer_Pkcs1 (der : bytes)
| PrivateKeyDer_Sec1 (der : bytes).

(** rustls-pemfile: the sections of a kind in a file, [None] for one that does
    not decode, and the first private key. *)
Class PemFile := {
  pem_certs : bytes → list (option bytes);
  pem_crls : bytes → list (option bytes);
  pem_private_key : bytes → result (option PrivateKeyDer) (list Z);
}.

(** rcgen. The randomness of a new key is an argument; [params_new] is the check
    of [CertificateParams::new] on the subject names. *)
Class Rcgen := {
  RcKeyPair : Type;
  Issuer : Type;
  rc_generate : Z → result RcKeyPair (list Z);
  rc_params_new : list (list Z) → result unit (list Z);
  rc_self_signed : list Z → RcKeyPair → result bytes (list Z);
  rc_issuer_new : list Z → RcKeyPair → Issuer;
  rc_signed_by : list Z → Z → RcKeyPair → Issuer → result bytes (list Z);
  rc_crl_signed_by : Z → list Z → Issuer → result bytes (list Z);
  rc_cert_pem : bytes → list Z;
  rc_serialize_pem : RcKeyPair → list Z;
  rc_serialize_der : RcKeyPair → bytes;
}.

(** rustls: root stores, the verifier of client certificates with the lists it
    was given, the two kinds of configuration; and whether a server with a
    configuration lets a client in that presents a chain. *)
Class Rustls := {
  RootCertStore : Type;
  ClientCertVerifier : Type;
  ServerConfig : Type;
  ClientConfig : Type;
  roots_empty : RootCertStore;
  roots_add : bytes → RootCertStore → result RootCertStore (list Z);
  verifier_build : RootCertStore → list bytes → result ClientCertVerifier (list Z);
  with_single_cert : ClientCertVerifier → list bytes → PrivateKeyDer → result ServerConfig (list Z);
  with_client_auth_cert : RootCertStore → list bytes → PrivateKeyDer → result ClientConfig (list Z);
  with_no_client_auth : RootCertStore → ClientConfig;
  client_accepted : ServerConfig → list bytes → bool;
}.

(** What certificates and lists say. *)
Class X509 := {
  cert_issued_by : bytes → bytes → bool;
  cert_serial : bytes → Z;
  crl_issued_by : bytes → bytes → bool;
  crl_lists : bytes → Z → bool;
}.

(** A root store trusts what was added to it. A client certificate is accepted
    when a trusted root issued it and, once there are lists, one of them is of
    that root and the first such list does not have its serial: of several
    lists of an issuer only the first is consulted, and an unknown status is
    refused. *)
Class RustlsLaws `{Rustls} `{X509} := {
  roots_certs : RootCertStore → list bytes;
  roots_certs_empty : roots_certs roots_empty = [];
  roots_certs_add c r r' : roots_add c r = Ok r' → roots_certs r' = roots_certs r ++ [c];
  accepted_spec roots crls v chain key cfg ca c :
    verifier_build roots crls = Ok v → with_single_cert v chain key = Ok cfg → roots_certs roots = [ca] →
    client_accepted cfg [c] =
      cert_issued_by c ca &&
      (bool_decide (crls = []) ||
       match find (λ l, crl_issued_by l ca) crls with
       | Some l => negb (crl_lists l (cert_serial c))
       | None => false
       end);
}.

(** What rcgen signs carries the serials it was asked for, and is issued by the
    certificate of the issuer. *)
Class RcgenLaws `{Rcgen} `{X509} := {
  signed_by_issued name key ca subject serial k c :
    rc_self_signed name key = Ok ca → rc_signed_by subject serial k (rc_issuer_new name key) = Ok c →
    cert_issued_by c ca = true ∧ cert_serial c = serial;
  crl_signed_by_lists name key ca now serials l :
    rc_self_signed name key = Ok ca → rc_crl_signed_by now serials (rc_issuer_new name key) = Ok l →
    crl_issued_by l ca = true ∧ ∀ n, crl_lists l n = bool_decide (n ∈ serials);
}.

(** * The authority *)

Definition SERVER_NAME : list Z := chars "cosaci.local".
Definition SUBJECT_SERVER : list Z := SERVER_NAME.

Record TestCa `{Rcgen} := mkTestCa {
  ca_cert_der : bytes;
  ca_cert_pem : list Z;
  ca_issuer : Issuer;
  ca_next_serial : Z;
}.

Record IssuedCert := mkIssuedCert {
  ic_cert_der : bytes;
  ic_key_der : PrivateKeyDer;
  ic_cert_pem : list Z;
  ic_key_pem : list Z;
  ic_serial : Z;
}.

#[export] Instance PrivateKeyDer_eq_dec : EqDecision PrivateKeyDer.
Proof. solve_decision. Defined.

#[export] Instance IssuedCert_eq_dec : EqDecision IssuedCert.
Proof. solve_decision. Defined.

Section authority.
Context `{Rcgen}.

Definition generate (random : Z) (name : list Z) : result TestCa (list Z) :=
  signing_key ←? rc_generate random;
  _ ←? rc_params_new [];
  cert_der ←? rc_self_signed name signing_key;
  Ok (mkTestCa _ cert_der (rc_cert_pem cert_der) (rc_issuer_new name signing_key) 1).

Definition set_next_serial (n : Z) (ca : TestCa) : TestCa :=
  mkTestCa _ (ca_cert_der ca) (ca_cert_pem ca) (ca_issuer ca) n.

(** [issue]: a serial is taken once the key and the parameters are there, even
    when signing then fails; [fetch_add] wraps. *)
Definition issue (random : Z) (subject_name : list Z) (ca : TestCa) : result IssuedCert (list Z) * TestCa :=
  match rc_generate random with
  | Err e => (Err e, ca)
  | Ok key =>
      match rc_params_new [subject_name] with
      | Err e => (Err e, ca)
      | Ok _ =>
          let serial := ca_next_serial ca in
          let ca' := set_next_serial (wrap 64 (serial + 1)) ca in
          match rc_signed_by subject_name serial key (ca_issuer ca) with
          | Err e => (Err e, ca')
          | Ok cert_der =>
              (Ok (mkIssuedCert cert_der (PrivateKeyDer_Pkcs8 (rc_serialize_der key)) (rc_cert_pem cert_der)
                     (rc_serialize_pem key) serial), ca')
          end
      end
  end.

(** [issue_crl]; the validity is a week from [now]. *)
Definition issue_crl (now : Z) (revoked : list IssuedCert) (ca : TestCa) : result bytes (list Z) :=
  rc_crl_signed_by now (ic_serial <$> revoked) (ca_issuer ca).

(** A history of requests, as randomness and subject; the certificates issued,
    in order. *)
Fixpoint issue_all (reqs : list (Z * list Z)) (ca : TestCa) : list IssuedCert * TestCa :=
  match reqs with
  | [] => ([], ca)
  | (random, subject) :: reqs =>
      let '(r, ca) := issue random subject ca in
      let '(cs, ca) := issue_all reqs ca in
      (match r with Ok c => c :: cs | Err _ => cs end, ca)
  end.

End authority.

(** * Files *)

(** Why a file does not open. *)
Inductive open_error := OpenError_NotFound | OpenError_Other.

#[export] Instance open_error_eq_dec : EqDecision open_error.
Proof. solve_decision. Defined.

(** The file system as [File::open] sees it. *)
Abbreviation files := (list Z → result bytes open_error) (only parsing).

(** [write_pem] of both types: the file system with the texts written, if the
    writes succeed. *)
Definition put_file (path : list Z) (text : list Z) (fs : files) : files :=
  λ p, if decide (p = path) then Ok (as_bytes text) else fs p.

Definition ca_write_pem `{Rcgen} (ok : bool) (cert_path : list Z) (ca : TestCa) (fs : files) : bool * files :=
  if ok then (true, put_file cert_path (ca_cert_pem ca) fs) else (false, fs).

Definition cert_write_pem (cert_ok key_ok : bool) (cert_path key_path : list Z) (c : IssuedCert) (fs : files) :
    bool * files :=
  if cert_ok then
    let fs := put_file cert_path (ic_cert_pem c) fs in
    if key_ok then (true, put_file key_path (ic_key_pem c) fs) else (false, fs)
  else (false, fs).

(** [filter_map(Result::ok)]. *)
Definition readable (sections : list (option bytes)) : list bytes := omap (λ s, s) sections.

(** The errors of the loaders: opening, an unreadable key, and
    [InvalidData]. *)
Inductive read_error :=
| ReadError_Open (e : open_error)
| ReadError_Pem (e : list Z)
| ReadError_NoCertificates
| ReadError_NoPrivateKey.

Definition open_file (fs : files) (path : list Z) : result bytes read_error := map_err ReadError_Open (fs path).

Section loaders.
Context `{PemFile}.

Definition read_cert_chain (fs : files) (path : list Z) : result (list bytes) read_error :=
  file ←? open_file fs path;
  let chain := readable (pem_certs file) in
  if bool_decide (chain = []) then Err ReadError_NoCertificates else Ok chain.

Definition read_private_key (fs : files) (path : list Z) : result PrivateKeyDer read_error :=
  file ←? open_file fs path;
  key ←? map_err ReadError_Pem (pem_private_key file);
  match key with Some k => Ok k | None => Err ReadError_NoPrivateKey end.

Definition read_crls (fs : files) (path : list Z) : result (list bytes) read_error :=
  match fs path with
  | Ok file => Ok (readable (pem_crls file))
  | Err OpenError_NotFound => Ok []
  | Err e => Err (ReadError_Open e)
  end.

End loaders.

(** * Configurations *)

(** Where building a configuration failed: the prefix of the message and its
    cause. *)
Inductive config_error :=
| ConfigError_ReadCa (e : read_error)
| ConfigError_AddCa (e : list Z)
| ConfigError_ReadCert (e : read_error)
| ConfigError_ReadKey (e : read_error)
| ConfigError_ReadCrl (e : read_error)
| ConfigError_ClientVerifier (e : list Z)
| ConfigError_WithSingleCert (e : list Z)
| ConfigError_WithClientAuthCert (e : list Z).

Definition clone_key (k : PrivateKeyDer) : PrivateKeyDer :=
  match k with
  | PrivateKeyDer_Pkcs8 der => PrivateKeyDer_Pkcs8 der
  | PrivateKeyDer_Pkcs1 der => PrivateKeyDer_Pkcs1 der
  | PrivateKeyDer_Sec1 der => PrivateKeyDer_Sec1 der
  end.

Section configurations.
Context `{PemFile} `{Rustls}.

(** The loop that fills the root store. *)
Fixpoint add_roots (chain : list bytes) (roots : RootCertStore) : result RootCertStore config_error :=
  match chain with
  | [] => Ok roots
  | c :: chain => roots ←? map_err ConfigError_AddCa (roots_add c roots); add_roots chain roots
  end.

(** [with_crls] is only called with lists, and the builder starts without. *)
Definition server_config_from_paths_with_crl (fs : files) (ca_path cert_path key_path : list Z)
    (crl_path : option (list Z)) : result ServerConfig config_error :=
  ca_chain ←? map_err ConfigError_ReadCa (read_cert_chain fs ca_path);
  roots ←? add_roots ca_chain roots_empty;
  cert_chain ←? map_err ConfigError_ReadCert (read_cert_chain fs cert_path);
  key ←? map_err ConfigError_ReadKey (read_private_key fs key_path);
  crls ←? match crl_path with
          | Some p => map_err ConfigError_ReadCrl (read_crls fs p)
          | None => Ok []
          end;
  verifier ←? map_err ConfigError_ClientVerifier (verifier_build roots crls);
  map_err ConfigError_WithSingleCert (with_single_cert verifier cert_chain key).

Definition server_config_from_paths (fs : files) (ca_path cert_path key_path : list Z) :
    result ServerConfig config_error :=
  server_config_from_paths_with_crl fs ca_path cert_path key_path None.

Definition client_config_from_paths (fs : files) (ca_path cert_path key_path : list Z) :
    result ClientConfig config_error :=
  ca_chain ←? map_err ConfigError_ReadCa (read_cert_chain fs ca_path);
  roots ←? add_roots ca_chain roots_empty;
  cert_chain ←? map_err ConfigError_ReadCert (read_cert_chain fs cert_path);
  key ←? map_err ConfigError_ReadKey (read_private_key fs key_path);
  map_err ConfigError_WithClientAuthCert (with_client_auth_cert roots cert_chain key).

(** [None] is the panic of [expect]. *)
Definition root_store_from `{Rcgen} (ca : TestCa) : option RootCertStore :=
  match roots_add (ca_cert_der ca) roots_empty with Ok roots => Some roots | Err _ => None end.

Definition server_config_with_crls (server_cert : IssuedCert) (trust_roots : RootCertStore) (crls : list bytes) :
    result ServerConfig config_error :=
  verifier ←? map_err ConfigError_ClientVerifier (verifier_build trust_roots crls);
  map_err ConfigError_WithSingleCert
    (with_single_cert verifier [ic_cert_der server_cert] (clone_key (ic_key_der server_cert))).

Definition server_config (server_cert : IssuedCert) (trust_roots : RootCertStore) : result ServerConfig config_error :=
  server_config_with_crls server_cert trust_roots [].

Definition client_config (client_cert : IssuedCert) (trust_roots : RootCertStore) : result ClientConfig config_error :=
  map_err ConfigError_WithClientAuthCert
    (with_client_auth_cert trust_roots [ic_cert_der client_cert] (clone_key (ic_key_der client_cert))).

Definition client_config_no_cert (trust_roots : RootCertStore) : ClientConfig := with_no_client_auth trust_roots.

(** tls_async.rs wraps the same configurations; an acceptor is its
    configuration. *)
Definition acceptor_from_paths (fs : files) (ca_path cert_path key_path : list Z) (crl_path : option (list Z)) :
    result ServerConfig config_error :=
  server_config_from_paths_with_crl fs ca_path cert_path key_path crl_path.

Definition connector_from_paths (fs : files) (ca_path cert_path key_path : list Z) :
    result ClientConfig config_error :=
  client_config_from_paths fs ca_path cert_path key_path.

End configurations.

(** * In-memory handshakes *)

(** One end of a connection as rustls presents it. *)
Record tls_side (C : Type) := mkTlsSide {
  wants_write : C → bool;
  write_tls : C → result (bytes * C) (list Z);
  read_tls : bytes → C → result C (list Z);
  process_new_packets : C → result C (list Z);
  is_handshaking : C → bool;
}.

Arguments wants_write {C} _ _.
Arguments write_tls {C} _ _.
Arguments read_tls {C} _ _ _.
Arguments process_new_packets {C} _ _.
Arguments is_handshaking {C} _ _.

Class TlsMachines `{Rustls} := {
  ClientConnection : Type;
  ServerConnection : Type;
  server_name_ok : list Z → result unit (list Z);
  client_new : ClientConfig → list Z → result ClientConnection (list Z);
  server_new : ServerConfig → result ServerConnection (list Z);
  client_side : tls_side ClientConnection;
  server_side : tls_side ServerConnection;
}.

(** One direction of a round: what [c] wants to write is given to [d]. *)
Definition flow {C D} (from : tls_side C) (to : tls_side D) (c : C) (d : D) : result (C * D) (list Z) :=
  p ←? if wants_write from c then write_tls from c else Ok ([], c);
  if bool_decide (p.1 = []) then Ok (p.2, d)
  else
    d ←? read_tls to p.1 d;
    d ←? process_new_packets to d;
    Ok (p.2, d).

Section handshake.
Context `{TlsMachines}.

Definition round (p : ClientConnection * ServerConnection) : result (ClientConnection * ServerConnection) (list Z) :=
  cs ←? flow client_side server_side p.1 p.2;
  sc ←? flow server_side client_side cs.2 cs.1;
  Ok (sc.2, sc.1).

Definition established (p : ClientConnection * ServerConnection) : bool :=
  negb (is_handshaking client_side p.1) && negb (is_handshaking server_side p.2).

Fixpoint handshake_loop (steps : nat) (p : ClientConnection * ServerConnection) : result unit (list Z) :=
  match steps with
  | O => Err (chars "handshake did not converge within step budget")
  | S steps => p ←? round p; if established p then Ok () else handshake_loop steps p
  end.

Definition try_handshake (server_cfg : ServerConfig) (client_cfg : ClientConfig) : result unit (list Z) :=
  _ ←? server_name_ok SERVER_NAME;
  client ←? client_new client_cfg SERVER_NAME;
  server ←? server_new server_cfg;
  handshake_loop 50 (client, server).

(** The state after [n] rounds without an error. *)
Fixpoint rounds (n : nat) (p : ClientConnection * ServerConnection) : result (ClientConnection * ServerConnection) (list Z) :=
  match n with
  | O => Ok p
  | S n => p ←? round p; rounds n p
  end.

(** The loop succeeds when, within its budget, a round ends with both sides
    established. *)
Lemma handshake_loop_ok n p :
  handshake_loop n p = Ok () ↔ ∃ k p', (0 < k <= n)%nat ∧ rounds k p = Ok p' ∧ established p' = true.
Proof.
  revert p. induction n as [|n IH]; intros p; cbn [handshake_loop].
  { split; [done|]. intros (k & p' & Hk & _). lia. }
  split.
  - destruct (round p) as [p1|e] eqn:Er; [|done]. destruct (established p1) eqn:Ee.
    + intros _. exists 1%nat, p1. split; [lia|]. cbn [rounds]. by rewrite Er.
    + intros (k & p' & Hk & Hr & Hp)%IH. exists (S k), p'. split; [lia|]. cbn [rounds]. by rewrite Er.
  - intros ([|k] & p' & Hk & Hr & Hp); [lia|]. cbn [rounds] in Hr. destruct (round p) as [p1|e]; [|done].
    destruct (established p1) eqn:Ee; [done|]. apply IH. destruct k as [|k].
    + cbn [rounds] in Hr. injection Hr as ->. congruence.
    + exists (S k), p'. split; [lia|done].
Qed.

End handshake.

(** * Serials *)

Section serials.
Context `{Rcgen}.

Lemma issue_spec random subject ca r ca' :
  issue random subject ca = (r, ca') → ca_next_serial ca + 1 < 2 ^ 64 → 0 <= ca_next_serial ca →
  ca_issuer ca' = ca_issuer ca ∧ ca_next_serial ca <= ca_next_serial ca' <= ca_next_serial ca + 1 ∧
  ∀ c, r = Ok c → ic_serial c = ca_next_serial ca ∧ ca_next_serial ca' = ca_next_serial ca + 1 ∧
    ∃ s k, rc_signed_by s (ic_serial c) k (ca_issuer ca) = Ok (ic_cert_der c).
Proof.
  unfold issue. intros Hi Hlt Hnn. destruct (rc_generate random) as [key|]; [|simplify_eq; by split_and!; try lia].
  destruct (rc_params_new _) as [[]|]; [|simplify_eq; by split_and!; try lia].
  destruct (rc_signed_by _ _ _ _) as [der|] eqn:Es; simplify_eq; cbn [set_next_serial ca_issuer ca_next_serial];
    rewrite wrap_small by (unfold_uint; lia).
  - split; [done|]. split; [lia|]. intros c [= <-]. split; [done|]. split; [done|]. by exists subject, key.
  - split; [done|]. split; [lia|done].
Qed.

(** Certificates of one history have different serials, and the issuer
    signed them. *)
Lemma issue_all_spec reqs ca certs ca' :
  issue_all reqs ca = (certs, ca') → 0 <= ca_next_serial ca →
  ca_next_serial ca + Z.of_nat (length reqs) < 2 ^ 64 →
  ca_issuer ca' = ca_issuer ca ∧ NoDup (ic_serial <$> certs) ∧
  Forall (λ c, ca_next_serial ca <= ic_serial c ∧
    ∃ s k, rc_signed_by s (ic_serial c) k (ca_issuer ca) = Ok (ic_cert_der c)) certs.
Proof.
  revert ca certs. induction reqs as [|[random subject] reqs IH]; intros ca certs; cbn [issue_all length].
  { intros [= <- <-] _ _. split; [done|]. split; constructor. }
  destruct (issue random subject ca) as [r ca1] eqn:Ei. destruct (issue_all reqs ca1) as [cs ca2] eqn:Ea.
  intros [= <- <-] Hnn Hlt. destruct (issue_spec _ _ _ _ _ Ei) as (Hiss & Hn & Hc); [lia|lia|].
  destruct (IH ca1 cs Ea) as (Hiss2 & Hnd & Hall); [lia|lia|]. rewrite Hiss in *.
  split; [done|]. destruct r as [c|e].
  - destruct (Hc c eq_refl) as (Hs & Hn1 & Hsig). split.
    + cbn. constructor; [|done]. intros (d & Heq & Hd)%list_elem_of_fmap.
      rewrite Forall_forall in Hall. destruct (Hall d Hd) as [Hle _]. lia.
    + constructor; [split; [lia|done]|]. eapply Forall_impl; [exact Hall|]. cbn. intros d [Hle Hd]. split; [lia|done].
  - split; [done|]. eapply Forall_impl; [exact Hall|]. cbn. intros d [Hle Hd]. split; [lia|done].
Qed.

Lemma serial_inj certs c rs :
  NoDup (ic_serial <$> certs) → c ∈ certs → rs ⊆ certs → ic_serial c ∈ ic_serial <$> rs ↔ c ∈ rs.
Proof.
  intros Hnd Hc Hrs. split; [|intros Hin; by apply list_elem_of_fmap_2].
  intros (d & Heq & Hd)%list_elem_of_fmap. apply Hrs in Hd as Hd'. apply list_elem_of_lookup in Hc as [i Hi].
  apply list_elem_of_lookup in Hd' as [j Hj].
  assert (i = j) as ->.
  { eapply NoDup_lookup; [exact Hnd| |]; rewrite list_lookup_fmap; [rewrite Hi; cbn; by rewrite Heq|by rewrite Hj]. }
  congruence.
Qed.

End serials.

(** * Revocation *)

Section revocation.
Context `{PemFile} `{RcgenLaws} `{!Rustls} `{!RustlsLaws}.

Lemma add_roots_certs chain roots roots' :
  add_roots chain roots = Ok roots' → roots_certs roots' = roots_certs roots ++ chain.
Proof.
  revert roots. induction chain as [|c chain IH]; intros roots; cbn [add_roots].
  { intros [= <-]. by rewrite app_nil_r. }
  destruct (roots_add c roots) as [r|] eqn:Ea; [|done]. cbn [map_err]. intros Hr%IH.
  by rewrite Hr, (roots_certs_add _ _ _ Ea), <-app_assoc.
Qed.

(** The parts of a configuration that was built. *)
Lemma server_config_parts fs ca_path cert_path key_path crl_path cfg :
  server_config_from_paths_with_crl fs ca_path cert_path key_path crl_path = Ok cfg →
  ∃ cas roots crls v chain key,
    read_cert_chain fs ca_path = Ok cas ∧ roots_certs roots = cas ∧
    match crl_path with Some p => read_crls fs p | None => Ok [] end = Ok crls ∧
    verifier_build roots crls = Ok v ∧ with_single_cert v chain key = Ok cfg.
Proof.
  unfold server_config_from_paths_with_crl. destruct (read_cert_chain fs ca_path) as [cas|] eqn:Eca; [|done].
  cbn [map_err]. destruct (add_roots cas roots_empty) as [roots|] eqn:Er; [|done].
  destruct (read_cert_chain fs cert_path) as [chain|]; [|done]. cbn [map_err].
  destruct (read_private_key fs key_path) as [key|]; [|done]. cbn [map_err].
  destruct (match crl_path with Some p => map_err ConfigError_ReadCrl (read_crls fs p) | None => Ok [] end)
    as [crls|] eqn:Ecrl; [|done].
  destruct (verifier_build roots crls) as [v|] eqn:Ev; [|done]. cbn [map_err].
  destruct (with_single_cert v chain key) as [cfg'|] eqn:Ew; [|done]. intros [= <-].
  exists cas, roots, crls, v, chain, key. split; [done|].
  split; [rewrite (add_roots_certs _ _ _ Er), roots_certs_empty; done|]. split; [|done].
  destruct crl_path as [p|]; [|congruence]. destruct (read_crls fs p); [|done]. cbn in Ecrl. congruence.
Qed.

(** The revocation lists of an authority, each with the certificates it
    revokes. *)
Definition lists_of (ca : TestCa) (certs : list IssuedCert) : list bytes → list (list IssuedCert) → Prop :=
  Forall2 (λ l rs, (∃ now, issue_crl now rs ca = Ok l) ∧ rs ⊆ certs).

(** What the list consulted says. *)
Lemma lists_decide ca certs ders revoked cert_ca c name key :
  ca_issuer ca = rc_issuer_new name key → rc_self_signed name key = Ok cert_ca →
  NoDup (ic_serial <$> certs) → c ∈ certs → lists_of ca certs ders revoked →
  (bool_decide (ders = []) ||
   match find (λ l, crl_issued_by l cert_ca) ders with
   | Some l => negb (crl_lists l (ic_serial c))
   | None => false
   end) = bool_decide (c ∉ default [] (head revoked)).
Proof.
  intros Hiss Hself Hnd Hc Hl. destruct Hl as [|l rs ders revoked [(now & Hcrl) Hrs] Hl].
  { cbn. symmetry. apply bool_decide_eq_true. apply not_elem_of_nil. }
  unfold issue_crl in Hcrl. rewrite Hiss in Hcrl.
  destruct (crl_signed_by_lists _ _ _ _ _ _ Hself Hcrl) as [Hby Hlists].
  cbn [find head default]. rewrite Hby, Hlists, bool_decide_false by done. cbn [orb].
  rewrite <-bool_decide_not. apply bool_decide_ext. cbn. by rewrite (serial_inj certs c rs).
Qed.

(** The files of a server: at [ca_path] the certificate of an authority that has
    issued [certs], at [crl_path] lists of it that decode and revoke
    [revoked]. *)
Definition authority_files (fs : files) (ca_path crl_path : list Z) (certs : list IssuedCert)
    (revoked : list (list IssuedCert)) : Prop :=
  ∃ random name ca0 reqs ca pem crl_file,
    generate random name = Ok ca0 ∧ Z.of_nat (length reqs) < 2 ^ 64 - 1 ∧ issue_all reqs ca0 = (certs, ca) ∧
    fs ca_path = Ok pem ∧ readable (pem_certs pem) = [ca_cert_der ca0] ∧
    fs crl_path = Ok crl_file ∧ lists_of ca certs (readable (pem_crls crl_file)) revoked.

(** A server that loads the certificate of an authority and a file of its
    revocation lists lets a certificate the authority issued in exactly when the
    first of the lists does not revoke it, whatever was issued before or after
    it, up to as many requests as there are serials. *)
Lemma accepted_unless_revoked fs ca_path crl_path certs revoked cert_path key_path cfg c :
  authority_files fs ca_path crl_path certs revoked →
  server_config_from_paths_with_crl fs ca_path cert_path key_path (Some crl_path) = Ok cfg →
  c ∈ certs → client_accepted cfg [ic_cert_der c] = bool_decide (c ∉ default [] (head revoked)).
Proof.
  intros (random & name & ca0 & reqs & ca & pem & crl_file & Hgen & Hlen & Hiss & Hpem & Hca & Hfile & Hlists) Hcfg Hc.
  unfold generate in Hgen.
  destruct (rc_generate random) as [key|]; [|done]. destruct (rc_params_new []) as [[]|]; [|done].
  destruct (rc_self_signed name key) as [der|] eqn:Hself; [|done]. injection Hgen as <-. cbn [ca_cert_der] in Hca.
  destruct (issue_all_spec _ _ _ _ Hiss) as (Hissuer & Hnd & Hall); [done|cbn [ca_next_serial]; lia|].
  destruct (server_config_parts _ _ _ _ _ _ Hcfg) as (cas & roots & crls & v & chain & k & Hcas & Hroots & Hcrls & Hv & Hw).
  unfold read_crls in Hcrls. rewrite Hfile in Hcrls. injection Hcrls as <-.
  unfold read_cert_chain, open_file in Hcas. rewrite Hpem in Hcas. cbn [map_err] in Hcas. rewrite Hca in Hcas.
  injection Hcas as <-. rewrite (accepted_spec _ _ _ _ _ _ _ _ Hv Hw Hroots).
  rewrite Forall_forall in Hall. destruct (Hall c Hc) as (_ & s & kk & Hsig). cbn [ca_issuer] in *.
  destruct (signed_by_issued _ _ _ _ _ _ _ Hself Hsig) as [-> ->].
  cbn [andb]. by eapply lists_decide.
Qed.

(** A list that does not decode is dropped without an error: a damaged file of
    lists gives the configuration of a server without lists, and the revoked
    are let in again. *)
Lemma damaged_crl_revokes_nobody fs ca_path cert_path key_path crl_path crl_file :
  fs crl_path = Ok crl_file → Forall (λ s, s = None) (pem_crls crl_file) →
  server_config_from_paths_with_crl fs ca_path cert_path key_path (Some crl_path) =
  server_config_from_paths fs ca_path cert_path key_path.
Proof.
  intros Hfile Hnone. unfold server_config_from_paths, server_config_from_paths_with_crl, read_crls.
  rewrite Hfile. replace (readable (pem_crls crl_file)) with (@nil (list Z)); [done|].
  unfold readable. clear Hfile. induction Hnone as [|? ? ->]; done.
Qed.

End revocation.

(** * Witnesses *)

(** Certificates and lists are written in the clear: a root is its key, a
    certificate its root and its serial, a list its root and the serials; a file
    is a sequence of sections, each with its kind and length, and a kind that is
    none of the three does not decode. *)
Module ToyTls.

Fixpoint sections (fuel : nat) (file : bytes) : list (Z * bytes) :=
  match fuel, file with
  | S fuel, kind :: n :: rest => (kind, take (Z.to_nat n) rest) :: sections fuel (drop (Z.to_nat n) rest)
  | _, _ => []
  end.

Definition of_kind (kind : Z) (file : bytes) : list (option bytes) :=
  omap (λ s, if s.1 =? kind then Some (Some s.2) else if s.1 =? kind + 10 then Some None else None)
    (sections (length file) file).

#[export] Instance toy_pem : PemFile := {
  pem_certs := of_kind 1;
  pem_crls := of_kind 2;
  pem_private_key file := Ok (PrivateKeyDer_Pkcs8 <$> head (omap (λ s, s) (of_kind 3 file)));
}.

#[export] Instance toy_x509 : X509 := {
  cert_issued_by c ca := bool_decide (take 1 c = ca);
  cert_serial c := default 0 (c !! 1%nat);
  crl_issued_by l ca := bool_decide (take 1 l = ca);
  crl_lists l n := bool_decide (n ∈ drop 1 l);
}.

#[export] Instance toy_rcgen : Rcgen := {
  RcKeyPair := Z;
  Issuer := Z;
  rc_generate random := Ok random;
  rc_params_new _ := Ok ();
  rc_self_signed _ key := Ok [key];
  rc_issuer_new _ key := key;
  rc_signed_by _ serial _ issuer := Ok [issuer; serial];
  rc_crl_signed_by _ serials issuer := Ok (issuer :: serials);
  rc_cert_pem der := der;
  rc_serialize_pem key := [key];
  rc_serialize_der key := [key];
}.

(** A verifier is its roots and its lists, a configuration of a server its
    verifier and its chain. *)
#[export] Instance toy_rustls : Rustls := {
  RootCertStore := list bytes;
  ClientCertVerifier := list bytes * list bytes;
  ServerConfig := (list bytes * list bytes) * list bytes;
  ClientConfig := list bytes * list bytes;
  roots_empty := [];
  roots_add c r := Ok (r ++ [c]);
  verifier_build roots crls := if bool_decide (roots = []) then Err [] else Ok (roots, crls);
  with_single_cert v chain _ := Ok (v, chain);
  with_client_auth_cert roots chain _ := Ok (roots, chain);
  with_no_client_auth roots := (roots, []);
  client_accepted cfg chain :=
    match chain with
    | [c] =>
        existsb (λ ca, cert_issued_by c ca &&
          (bool_decide (cfg.1.2 = []) ||
           match find (λ l, crl_issued_by l ca) cfg.1.2 with
           | Some l => negb (crl_lists l (cert_serial c))
           | None => false
           end)) cfg.1.1
    | _ => false
    end;
}.

#[export] Instance toy_rustls_laws : RustlsLaws.
Proof.
  refine {| roots_certs r := r |}; [done|by intros c r r' [= <-]|].
  intros roots crls v chain key cfg ca c Hv Hw ->. cbn in Hv, Hw. simplify_eq. cbn. by rewrite orb_false_r.
Defined.

#[export] Instance toy_rcgen_laws : RcgenLaws.
Proof.
  split.
  - intros name key ca subject serial k c [= <-] [= <-]. split; [by apply bool_decide_true|done].
  - intros name key ca now serials l [= <-] [= <-]. split; [by apply bool_decide_true|]. intros n. cbn.
    by rewrite drop_0.
Qed.

End ToyTls.

Import (hints) ToyTls.

(** Three certificates; the first list revokes the second, a second list the
    third. *)
Definition demo_history : list IssuedCert * TestCa :=
  match generate 7 (chars "demo") with
  | Ok ca => issue_all [(1, chars "a"); (2, chars "b"); (3, chars "c")] ca
  | Err _ => ([], mkTestCa _ [] [] 0 0)
  end.

(** The directory of a server: its authority, certificate, key and lists. *)
Definition demo_dir (crl : bytes) : list Z → result bytes open_error :=
  λ p, if decide (p = chars "ca.pem") then Ok [1; 1; 7]
       else if decide (p = chars "server.pem") then Ok [1; 2; 7; 9]
       else if decide (p = chars "server.key") then Ok [3; 1; 9]
       else if decide (p = chars "crl.pem") then Ok crl
       else Err OpenError_NotFound.

Lemma demo_authority :
  authority_files (demo_dir [2; 2; 7; 2; 2; 2; 7; 3]) (chars "ca.pem") (chars "crl.pem") demo_history.1
    [[mkIssuedCert [7; 2] (PrivateKeyDer_Pkcs8 [2]) [7; 2] [2] 2];
     [mkIssuedCert [7; 3] (PrivateKeyDer_Pkcs8 [3]) [7; 3] [3] 3]].
Proof.
  exists 7, (chars "demo"), (mkTestCa ToyTls.toy_rcgen [7] [7] 7 1), [(1, chars "a"); (2, chars "b"); (3, chars "c")],
    demo_history.2, [1; 1; 7], [2; 2; 7; 2; 2; 2; 7; 3].
  split_and!; try reflexivity. constructor; [|constructor; [|constructor]]; (split; [by exists 0|]; by_decide).
Qed.
