(* ===== verification/Process.v ===== *)
(** The coordinator as a process: arguments, start-up, the TLS listeners and the
    reload on SIGHUP (src/bins/cosaci-coordinator/src/main.rs: [main] up to its
    loop, [install_sighup_reloader], [build_server_config], [spawn_read_server],
    [spawn_admin_server]).

    [start] is what happens before the first job, with every file, bind and
    connection as the environment gives it. A running process is the service of
    [Service] with the files it reads again, the TLS configuration in force and
    the two listeners; lines, jobs, signals, edits of the files, readers and
    administrators are its events, in any order. Every run is a run of the
    service, so what the service promises holds of the process from its command
    line on. *)

From Stdlib Require Import Floats.SpecFloat.
From S2P Require Import Prelude Quorum PartialQuorum Attestation StakeLedger Capabilities MerkleLog.
From S2P Require Import Retrieval Text Replay RateLimit Tenant SubmissionAuth AdminAuth Enrollment Journal.
From S2P Require Import Network Pipeline Wire Vrf Coordinator Agent Service AdminSession Tls.

(** * Arguments *)

Record coord_args := mkCoordArgs {
  ca_addr : list Z;
  ca_ca_path : list Z;
  ca_cert_path : list Z;
  ca_key_path : list Z;
  ca_crl_path : list Z;
  ca_fleet : Z;
  ca_committee_size : Z;
  ca_job_a : Z;
  ca_job_b : Z;
  ca_max_jobs : Z;
  ca_runner_timeout_secs : Z;
  ca_log_path : list Z;
  ca_read_addr : list Z;
  ca_captures_dir : list Z;
  ca_enrollment_path : list Z;
  ca_journal_path : list Z;
  ca_slash_fraction : spec_float;
  ca_submit_stdin : bool;
  ca_queue_cap : Z;
  ca_max_concurrent_jobs : Z;
  ca_tenants_path : list Z;
  ca_admin_addr : list Z;
  ca_admin_keys_path : list Z;
}.

(** [str::parse::<i32>]. *)
Definition parse_i32 (s : list Z) : option Z :=
  match s with
  | [] => None
  | c :: ds =>
      if c =? 45 then match ds with [] => None | _ => Z.opp <$> parse_digits (2 ^ 31) 0 ds end
      else parse_uint (2 ^ 31 - 1) s
  end.

(** The flags of [main]; [None] is the panic of an [expect]. *)
Definition parse_args (args : list (list Z)) : option coord_args :=
  fleet ← parse_u64 (arg_or args "--fleet" "5");
  committee_size ← parse_u64 (arg_or args "--committee" "3");
  job_a ← parse_i32 (arg_or args "--a" "21");
  job_b ← parse_i32 (arg_or args "--b" "21");
  max_jobs ← parse_u64 (arg_or args "--max-jobs" "18446744073709551615");
  runner_timeout_secs ← parse_u64 (arg_or args "--runner-timeout-secs" "30");
  slash_fraction ← parse_f32 (arg_or args "--slash-fraction" "0.25");
  queue_cap ← parse_u64 (arg_or args "--queue-cap" "64");
  max_concurrent_jobs ← parse_u64 (arg_or args "--max-concurrent-jobs" "1");
  Some (mkCoordArgs (arg_or args "--addr" "127.0.0.1:7878") (arg_or args "--ca" "ca.pem")
    (arg_or args "--cert" "server.pem") (arg_or args "--key" "server.key.pem") (arg_or args "--crl" "")
    fleet committee_size job_a job_b max_jobs runner_timeout_secs (arg_or args "--log" "")
    (arg_or args "--read-addr" "") (arg_or args "--captures-dir" "") (arg_or args "--enrollment" "")
    (arg_or args "--journal" "") slash_fraction (bool_decide (chars "--submit-stdin" ∈ args)) queue_cap
    max_concurrent_jobs (arg_or args "--tenants" "") (arg_or args "--admin-addr" "") (arg_or args "--admin-keys" "")).

(** Whether a path or address was given. *)
Definition given (s : list Z) : bool := negb (bool_decide (s = [])).

(** * Connections *)

(** A connection: whether [ServerConnection::new] succeeds, the certificate
    chain the client presents, and the stream behind the handshake. *)
Record client_conn := mkClientConn { cn_tls_ok : bool; cn_chain : list bytes; cn_stream : stream }.

(** The stream of the server under a configuration: the handshake runs in the
    first read, and a client it does not let in is never read from. *)
Definition tls_stream `{Rustls} (cfg : ServerConfig) (c : client_conn) : stream :=
  let s := cn_stream c in
  if client_accepted cfg (cn_chain c) then s
  else mkStream (λ _ _, Err WireError_Io) (st_reads s) (st_out s) (st_writes s).

(** * Configuration and reload *)

Section reload.
Context `{PemFile} `{Rustls}.

Definition build_server_config (fs : list Z → result bytes open_error) (a : coord_args) :
    result ServerConfig config_error :=
  let crl_arg := if given (ca_crl_path a) then Some (ca_crl_path a) else None in
  server_config_from_paths_with_crl fs (ca_ca_path a) (ca_cert_path a) (ca_key_path a) crl_arg.

(** The two halves of the reloader. *)
Definition reload_config (a : coord_args) (fs : list Z → result bytes open_error) (cfg : ServerConfig) : ServerConfig :=
  match build_server_config fs a with Ok new_cfg => new_cfg | Err _ => cfg end.

Definition reload_auth (a : coord_args) (tenants : file) (auth : option AuthState) : option AuthState :=
  if given (ca_tenants_path a) then reload_tenants tenants auth else auth.

End reload.

(** * Start-up *)

(** While the fleet assembles: a failed [accept], a connection, SIGHUP with the
    certificate files and the tenant file as they are then. *)
Inductive net_event :=
| Net_error
| Net_conn (c : client_conn)
| Net_sighup (fs : list Z → result bytes open_error) (tenants : file).

(** What [main] finds: the certificate files, the text files, the journal
    ([Ok None] when there is none) and whether it can be opened, the log file,
    which is created when missing, the captures already stored, whether signal
    handlers and addresses can be had, the canned modules, and the fleet. *)
Record start_env := mkStartEnv {
  se_pem : list Z → result bytes open_error;
  se_text : list Z → file;
  se_journal : list Z → result (option bytes) unit;
  se_journal_open : bool;
  se_journal_ios : list io_outcome;
  se_log : list Z → option bytes;
  se_captures : gmap (Z * Z) bytes;
  se_signals_ok : bool;
  se_sighup_ok : bool;
  se_bind : list Z → bool;
  se_canned : option (bytes * bytes);
  se_fleet : list net_event;
}.

Inductive start_error :=
| StartError_Enrollment | StartError_Journal | StartError_Signals | StartError_Tenants
| StartError_Tls (e : config_error) | StartError_Sighup | StartError_Bind | StartError_Accept
| StartError_Log | StartError_ReadBind | StartError_AdminWithoutKeys | StartError_AdminKeys | StartError_AdminBind.

(** Why there is no running process: an error of [main], a panic, or agents are
    still missing. *)
Inductive stop := Stop_error (e : start_error) | Stop_panic | Stop_waiting.

Definition check_ok (ok : bool) (e : start_error) : result unit stop := if ok then Ok () else Err (Stop_error e).

Section start.
Context `{Cbor} `{Sha256} `{Ed25519} `{CborBytes} `{RsMerkle} `{JournalJson} `{CapturesCbor} `{Schnorrkel}.
Context `{SubmissionCbor} `{SubmissionWire} `{PemFile} `{Rustls}.

(** A running coordinator: its flags, the shared state of its threads, the
    configuration in force, the files an operator can edit, and the listeners
    that were started. *)
Record process := mkProcess {
  ps_args : coord_args;
  ps_config : config;
  ps_service : service;
  ps_tls : ServerConfig;
  ps_pem : list Z → result bytes open_error;
  ps_enrollment : file;
  ps_tenants : file;
  ps_read : bool;
  ps_admin : option AdminKeySet;
}.

Definition open_enrollment (env : start_env) (a : coord_args) : result (option EnrollmentSet) stop :=
  if given (ca_enrollment_path a) then
    match load_enrollment (se_text env (ca_enrollment_path a)) with
    | Some set => Ok (Some set)
    | None => Err (Stop_error StartError_Enrollment)
    end
  else Ok None.

(** The journal is replayed, which only serves a summary, and opened. *)
Definition open_journal (env : start_env) (a : coord_args) : result (option journal_file) stop :=
  if given (ca_journal_path a) then
    match se_journal env (ca_journal_path a) with
    | Err _ => Err (Stop_error StartError_Journal)
    | Ok content =>
        match Journal.replay content with
        | Err _ => Err (Stop_error StartError_Journal)
        | Ok _ =>
            _ ←? check_ok (se_journal_open env) StartError_Journal;
            Ok (Some (mkJournalFile (default [] content) (se_journal_ios env)))
        end
    end
  else Ok None.

Definition open_auth (env : start_env) (a : coord_args) : result (option AuthState) stop :=
  if given (ca_tenants_path a) then
    match load_tenants (se_text env (ca_tenants_path a)) with
    | Ok registry => Ok (Some (auth_start registry))
    | Err _ => Err (Stop_error StartError_Tenants)
    end
  else Ok None.

Definition open_log (env : start_env) (a : coord_args) : result LogBackend stop :=
  if given (ca_log_path a) then
    match se_log env (ca_log_path a) with
    | None => Err (Stop_error StartError_Log)
    | Some disk =>
        match MerkleLog.open disk with
        | Ok l => Ok (LogBackend_File l)
        | Err _ => Err (Stop_error StartError_Log)
        end
    end
  else Ok (LogBackend_Mem MerkleLog.new).

Definition start_read (env : start_env) (a : coord_args) : result bool stop :=
  if given (ca_read_addr a) then
    _ ←? check_ok (se_bind env (ca_read_addr a)) StartError_ReadBind; Ok true
  else Ok false.

Definition start_admin (env : start_env) (a : coord_args) : result (option AdminKeySet) stop :=
  if given (ca_admin_addr a) then
    if negb (given (ca_admin_keys_path a)) then Err (Stop_error StartError_AdminWithoutKeys)
    else match read_to_string (se_text env (ca_admin_keys_path a)) with
    | Err _ => Err (Stop_error StartError_AdminKeys)
    | Ok text =>
        match AdminAuth.load text with
        | Err _ => Err (Stop_error StartError_AdminKeys)
        | Ok keys => _ ←? check_ok (se_bind env (ca_admin_addr a)) StartError_AdminBind; Ok (Some keys)
        end
    end
  else Ok None.

(** The connections of the fleet phase as [accept_fleet] takes them, each under
    the configuration of its time. *)
Fixpoint fleet_listener (a : coord_args) (cfg : ServerConfig) (evs : list net_event) : list accept_event :=
  match evs with
  | [] => []
  | Net_error :: evs => Accept_error :: fleet_listener a cfg evs
  | Net_conn c :: evs => Accept_conn (cn_tls_ok c) (tls_stream cfg c) :: fleet_listener a cfg evs
  | Net_sighup fs _ :: evs => fleet_listener a (reload_config a fs cfg) evs
  end.

(** What the signals of the fleet phase leave: configuration and auth state, and
    the files they read. *)
Definition after_signals (a : coord_args) (evs : list net_event) (cfg : ServerConfig) (auth : option AuthState)
    (fs : list Z → result bytes open_error) (tenants : file) :
    ServerConfig * option AuthState * (list Z → result bytes open_error) * file :=
  foldl (λ '(cfg, auth, fs, tenants) ev,
      match ev with
      | Net_sighup fs tenants => (reload_config a fs cfg, reload_auth a tenants auth, fs, tenants)
      | _ => (cfg, auth, fs, tenants)
      end) (cfg, auth, fs, tenants) evs.

Definition assemble (env : start_env) (a : coord_args) (cfg : ServerConfig) (enrollment : option EnrollmentSet) :
    result (list RegisteredAgent) stop :=
  match accept_fleet (fleet_listener a cfg (se_fleet env)) (Z.to_nat (ca_fleet a)) enrollment [] with
  | None => Err Stop_waiting
  | Some (Err _) => Err (Stop_error StartError_Accept)
  | Some (Ok agents) => Ok agents
  end.

Definition config_of (a : coord_args) (canned : bytes * bytes) : config :=
  mkConfig (Z.to_nat (ca_committee_size a)) (ca_max_jobs a) (ca_slash_fraction a) (given (ca_captures_dir a))
    (ca_submit_stdin a) (Z.to_nat (ca_queue_cap a)) (ca_job_a a) (ca_job_b a) canned.1 canned.2.

(** [main] up to its loop. Creating the captures directory may fail without
    consequence here. *)
Definition start (env : start_env) (argv : list (list Z)) : result process stop :=
  match parse_args argv with
  | None => Err Stop_panic
  | Some a =>
      enrollment ←? open_enrollment env a;
      journal ←? open_journal env a;
      _ ←? check_ok (se_signals_ok env) StartError_Signals;
      auth ←? open_auth env a;
      cfg ←? map_err (λ e, Stop_error (StartError_Tls e)) (build_server_config (se_pem env) a);
      _ ←? check_ok (se_sighup_ok env) StartError_Sighup;
      _ ←? check_ok (se_bind env (ca_addr a)) StartError_Bind;
      agents ←? assemble env a cfg enrollment;
      match se_canned env with
      | None => Err Stop_panic
      | Some canned =>
          log ←? open_log env a;
          read ←? start_read env a;
          admin ←? start_admin env a;
          let '(cfg, auth, fs, tenants) :=
            after_signals a (se_fleet env) cfg auth (se_pem env) (se_text env (ca_tenants_path a)) in
          let cf := config_of a canned in
          Ok (mkProcess a cf (service_start cf agents log journal (se_captures env) auth) cfg fs
                (se_text env (ca_enrollment_path a)) tenants read admin)
      end
  end.

End start.

(** * The running process *)

(** The events of the main loop and the reader, SIGHUP, an operator's edits of
    the files, and connections to the two listeners. *)
Inductive proc_event :=
| Pe_line (line : list Z) (now_ns : Z) (rd : readings) (waiting : bool)
| Pe_stdin_end
| Pe_drain
| Pe_iterate (env : job_env)
| Pe_sighup
| Pe_edit (fs : list Z → result bytes open_error) (enrollment tenants : file)
| Pe_read (c : client_conn)
| Pe_admin (c : client_conn) (env : session_env).

(** What a run shows: the outputs of the service and the ends of sessions. *)
Inductive proc_output :=
| Po_service (o : output)
| Po_read (s : stream)
| Po_admin (s : stream).

Section running.
Context `{Cbor} `{Sha256} `{Ed25519} `{CborBytes} `{RsMerkle} `{JournalJson} `{CapturesCbor} `{Schnorrkel}.
Context `{SubmissionCbor} `{SubmissionWire} `{PemFile} `{Rustls}.
Context (hash_order : gmap (list Z) Z → list (list Z * Z)) (md : overflow_mode).

Definition set_service (s : service) (p : process) : process :=
  mkProcess (ps_args p) (ps_config p) s (ps_tls p) (ps_pem p) (ps_enrollment p) (ps_tenants p) (ps_read p) (ps_admin p).

Definition set_auth (auth : option AuthState) (s : service) : service :=
  mkService (sv_world s) auth (sv_queue s) (sv_reading s) (sv_draining s) (sv_completed s) (sv_done s).

(** An event of the service. *)
Definition main_step (ev : event) (p : process) : option (process * list proc_output) :=
  match Service.handle hash_order md (ps_config p) ev (ps_service p) with
  | Some (s, outs) => Some (set_service s p, Po_service <$> outs)
  | None => None
  end.

(** [handle_read_client]. *)
Definition handle_read_client (captures_on : bool) (w : world) (s : stream) : stream :=
  match recv s with
  | (Err _, s) => s
  | (Ok req, s) => match handle_read captures_on w req with Some resp => (send resp s).2 | None => s end
  end.

(** A turn of the loop of [spawn_read_server]. *)
Definition read_step (c : client_conn) (p : process) : process * list proc_output :=
  if ps_read p && cn_tls_ok c then
    (p, [Po_read (handle_read_client (cf_captures_on (ps_config p)) (sv_world (ps_service p)) (tls_stream (ps_tls p) c))])
  else (p, []).

(** What an admin session works on. *)
Definition admin_state_of (p : process) : admin_state :=
  mkAdminState (ps_enrollment p) (if given (ca_tenants_path (ps_args p)) then Some (ps_tenants p) else None)
    (sv_auth (ps_service p)).

Definition set_admin_state (st : admin_state) (p : process) : process :=
  mkProcess (ps_args p) (ps_config p) (set_auth (ad_auth st) (ps_service p)) (ps_tls p) (ps_pem p)
    (ad_enrollment st) (default (ps_tenants p) (ad_tenants st)) (ps_read p) (ps_admin p).

(** A turn of the loop of [spawn_admin_server]. *)
Definition admin_step (c : client_conn) (env : session_env) (p : process) : process * list proc_output :=
  match ps_admin p with
  | Some keys =>
      if cn_tls_ok c then
        let '(s, st) := handle_admin_client keys env (w_log (sv_world (ps_service p))) (tls_stream (ps_tls p) c)
                          (admin_state_of p) in
        (set_admin_state st p, [Po_admin s])
      else (p, [])
  | None => (p, [])
  end.

(** A turn of the reloader. *)
Definition sighup (p : process) : process :=
  mkProcess (ps_args p) (ps_config p) (set_auth (reload_auth (ps_args p) (ps_tenants p) (sv_auth (ps_service p))) (ps_service p))
    (reload_config (ps_args p) (ps_pem p) (ps_tls p)) (ps_pem p) (ps_enrollment p) (ps_tenants p) (ps_read p) (ps_admin p).

Definition edit (fs : list Z → result bytes open_error) (enrollment tenants : file) (p : process) : process :=
  mkProcess (ps_args p) (ps_config p) (ps_service p) (ps_tls p) fs enrollment tenants (ps_read p) (ps_admin p).

(** One event; nothing happens once [main] has returned. [None] is a panic. *)
Definition proc_step (ev : proc_event) (p : process) : option (process * list proc_output) :=
  if sv_done (ps_service p) then Some (p, [])
  else match ev with
  | Pe_line line now_ns rd waiting => main_step (Ev_line line now_ns rd waiting) p
  | Pe_stdin_end => main_step Ev_stdin_end p
  | Pe_drain => main_step Ev_drain p
  | Pe_iterate env => main_step (Ev_iterate env) p
  | Pe_sighup => Some (sighup p, [])
  | Pe_edit fs enrollment tenants => Some (edit fs enrollment tenants p, [])
  | Pe_read c => Some (read_step c p)
  | Pe_admin c env => Some (admin_step c env p)
  end.

Fixpoint run (evs : list proc_event) (p : process) : option (process * list proc_output) :=
  match evs with
  | [] => Some (p, [])
  | ev :: evs =>
      '(p, out) ← proc_step ev p;
      '(p, outs) ← run evs p;
      Some (p, out ++ outs)
  end.


(** * Every run is a run of the service *)







Lemma run_app evs evs' p p1 p2 o1 o2 :
  run evs p = Some (p1, o1) → run evs' p1 = Some (p2, o2) → run (evs ++ evs') p = Some (p2, o1 ++ o2).
Proof.
  revert p o1. induction evs as [|ev evs IH]; intros p o1; cbn [run app]; [by intros [= <- <-]|].
  destruct (proc_step ev p) as [[p' o]|]; [|done]. cbn.
  destruct (run evs p') as [[p'' o']|] eqn:E; [|done]. cbn. intros [= <- <-] Hp2.
  rewrite (IH p' o' E Hp2). cbn. by rewrite <-app_assoc.
Qed.


End running.

(** * What start-up establishes *)

Section started.
Context `{Cbor} `{Sha256} `{Ed25519} `{CborBytes} `{RsMerkleLaws} `{JournalJson} `{CapturesCbor} `{Schnorrkel}.
Context `{SubmissionCbor} `{SubmissionWire} `{PemFile} `{Rustls}.






(** The parts of a process that has started. *)
Lemma process_started env argv p :
  start env argv = Ok p →
  ∃ a cfg enrollment agents log journal auth canned,
    parse_args argv = Some a ∧ ps_args p = a ∧ ps_config p = config_of a canned ∧
    open_enrollment env a = Ok enrollment ∧ build_server_config (se_pem env) a = Ok cfg ∧
    assemble env a cfg enrollment = Ok agents ∧ open_log env a = Ok log ∧
    ps_service p = service_start (ps_config p) agents log journal (se_captures env) auth ∧
    (given (ca_tenants_path a) = true → is_Some auth) ∧
    ∃ auth0, after_signals a (se_fleet env) cfg auth0 (se_pem env) (se_text env (ca_tenants_path a)) =
      (ps_tls p, auth, ps_pem p, ps_tenants p).
Proof.
  unfold start. destruct (parse_args argv) as [a|]; [|done].
  destruct (open_enrollment env a) as [enrollment|] eqn:Een; [|done].
  destruct (open_journal env a) as [journal|]; [|done]. destruct (check_ok (se_signals_ok env) _); [|done].
  destruct (open_auth env a) as [auth|] eqn:Eau; [|done].
  destruct (build_server_config (se_pem env) a) as [cfg|] eqn:Ecfg; [|done]. cbn [map_err].
  destruct (check_ok (se_sighup_ok env) _); [|done]. destruct (check_ok (se_bind env (ca_addr a)) _); [|done].
  destruct (assemble env a cfg enrollment) as [agents|] eqn:Eag; [|done].
  destruct (se_canned env) as [canned|]; [|done]. destruct (open_log env a) as [log|] eqn:Elog; [|done].
  destruct (start_read env a) as [read|]; [|done]. destruct (start_admin env a) as [admin|]; [|done].
  destruct (after_signals _ _ _ _ _ _) as [[[cfg' auth'] fs] tenants] eqn:Eaft. intros [= <-].
  exists a, cfg, enrollment, agents, log, journal, auth', canned. cbn. split_and!; try done; [|by exists auth].
  intros Hgiven. unfold open_auth in Eau. rewrite Hgiven in Eau.
  assert (Hsome : is_Some auth) by (destruct (load_tenants _); by simplify_eq).
  clear -Hsome Eaft. unfold after_signals in Eaft. revert Hsome Eaft.
  generalize cfg, auth, (se_pem env), (se_text env (ca_tenants_path a)). clear cfg auth.
  induction (se_fleet env) as [|ev evs IH]; intros cfg auth fs0 tenants0 Hsome; cbn [foldl]; [by intros [= _ <- _ _]|].
  destruct ev as [|c|fs1 tenants1]; [by apply IH|by apply IH|]. apply IH.
  unfold reload_auth. destruct (given _); [|done]. destruct auth; [|by destruct Hsome]. by eexists.
Qed.



End started.

(** * The gate stays *)

Section gated.
Context `{Cbor} `{Sha256} `{Ed25519} `{CborBytes} `{RsMerkle} `{JournalJson} `{CapturesCbor} `{Schnorrkel}.
Context `{SubmissionCbor} `{SubmissionWire}.
Context (hash_order : gmap (list Z) Z → list (list Z * Z)) (md : overflow_mode) (cf : config).




End gated.

(** * Theorems *)

Section theorems.
Context `{Cbor} `{Sha256} `{Ed25519} `{CborBytes} `{RsMerkleLaws} `{JournalJson} `{CapturesCbor} `{Schnorrkel}.
Context `{SubmissionCbor} `{SubmissionWire} `{PemFile} `{Rustls}.
Context (hash_order : gmap (list Z) Z → list (list Z * Z)) (md : overflow_mode).
Context (hash_order_ok : ∀ m, hash_order m ≡ₚ map_to_list m).






End theorems.

(** ** Revocation in a running process *)

Section revoked.
Context `{Cbor} `{Sha256} `{Ed25519} `{CborBytes} `{RsMerkle} `{JournalJson} `{CapturesCbor} `{Schnorrkel}.
Context `{SubmissionCbor} `{SubmissionWire} `{PemFile} `{RcgenLaws} `{!Rustls} `{!RustlsLaws}.
Context (hash_order : gmap (list Z) Z → list (list Z * Z)) (md : overflow_mode).

(** Only a signal changes the configuration; nothing changes the flags. *)
Lemma proc_step_tls ev p p' outs :
  proc_step hash_order md ev p = Some (p', outs) →
  ps_args p' = ps_args p ∧ (ev ≠ Pe_sighup → ps_tls p' = ps_tls p).
Proof.
  unfold proc_step. destruct (sv_done (ps_service p)); [by intros [= <- <-]|].
  assert (Hmain : ∀ e, main_step hash_order md e p = Some (p', outs) →
    ps_args p' = ps_args p ∧ (ev ≠ Pe_sighup → ps_tls p' = ps_tls p)).
  { intros e. unfold main_step. destruct (Service.handle _ _ _ _ _) as [[s o]|]; [|done]. by intros [= <- <-]. }
  destruct ev as [line now_ns rd waiting| | |env| |fs en te|c|c env]; try apply Hmain.
  - by intros [= <- <-].
  - by intros [= <- <-].
  - intros [= Heq]. unfold read_step in Heq. by destruct (_ && _); simplify_eq.
  - intros [= Heq]. unfold admin_step in Heq. destruct (ps_admin p) as [keys|]; [|by simplify_eq].
    destruct (cn_tls_ok c); [|by simplify_eq]. destruct (handle_admin_client _ _ _ _ _). by simplify_eq.
Qed.

Lemma run_tls evs p p' outs :
  run hash_order md evs p = Some (p', outs) → Pe_sighup ∉ evs → ps_args p' = ps_args p ∧ ps_tls p' = ps_tls p.
Proof.
  revert p outs. induction evs as [|ev evs IH]; intros p outs; cbn [run]; [by intros [= <- <-]|].
  destruct (proc_step hash_order md ev p) as [[p1 o1]|] eqn:Es; [|done]. cbn.
  destruct (run hash_order md evs p1) as [[p2 o2]|] eqn:Er; [|done]. cbn. intros [= <- <-] Hn.
  apply not_elem_of_cons in Hn as [Hne Hn]. destruct (proc_step_tls _ _ _ _ Es) as [Ha Ht].
  destruct (IH p1 o2 Er Hn) as [Ha' Ht']. split; [congruence|]. rewrite Ht'. by apply Ht.
Qed.

Lemma set_admin_state_same p : set_admin_state (admin_state_of p) p = p.
Proof.
  unfold set_admin_state, admin_state_of. destruct p as [a cf s tls pem en te rd ad]. cbn.
  destruct s as [w auth q rdg dr co dn]. cbn. by destruct (given _).
Qed.

(** The sessions that end with nothing sent on the connection. *)
Definition silent (c : client_conn) (o : proc_output) : Prop :=
  match o with
  | Po_read s | Po_admin s => st_out s = st_out (cn_stream c)
  | Po_service _ => False
  end.

(** A client the configuration does not let in gets nothing and changes
    nothing. *)
Lemma refused_silent p c env :
  client_accepted (ps_tls p) (cn_chain c) = false →
  ∀ ev, ev = Pe_read c ∨ ev = Pe_admin c env →
    ∃ outs, proc_step hash_order md ev p = Some (p, outs) ∧ Forall (silent c) outs.
Proof.
  intros Hc ev Hev. unfold proc_step. destruct (sv_done (ps_service p)); [by exists []|].
  assert (Htls : ∃ s, tls_stream (ps_tls p) c = s ∧ st_out s = st_out (cn_stream c) ∧
    ∀ n out, st_peer s n out = Err WireError_Io).
  { eexists. split; [done|]. unfold tls_stream. by rewrite Hc. }
  destruct Htls as (s & Hs & Hout & Hpeer).
  destruct Hev as [-> | ->].
  - unfold read_step. destruct (_ && _); [|by exists []]. eexists. split; [done|]. apply Forall_singleton. cbn.
    unfold handle_read_client. by rewrite Hs, recv_peer, Hpeer.
  - unfold admin_step. destruct (ps_admin p) as [keys|]; [|by exists []]. destruct (cn_tls_ok c); [|by exists []].
    rewrite Hs. unfold handle_admin_client. rewrite recv_peer, Hpeer. cbn. rewrite set_admin_state_same.
    eexists. split; [done|]. by apply Forall_singleton.
Qed.

(** C2: revoking takes effect with SIGHUP: when the files at the reload hold the
    certificate of an authority and lists of it, then until the next reload a
    client with a certificate of that authority is served as before if the first
    of the lists does not revoke it, a later one notwithstanding, and otherwise
    its connections to the read and the admin listener end with nothing sent and
    nothing changed; this whatever else the process does meanwhile, edits of the
    files included. *)
Theorem revocation_takes_effect p cfg evs p' outs certs revoked c conn env :
  sv_done (ps_service p) = false → given (ca_crl_path (ps_args p)) = true →
  authority_files (ps_pem p) (ca_ca_path (ps_args p)) (ca_crl_path (ps_args p)) certs revoked →
  build_server_config (ps_pem p) (ps_args p) = Ok cfg →
  run hash_order md (Pe_sighup :: evs) p = Some (p', outs) → Pe_sighup ∉ evs →
  c ∈ certs → cn_chain conn = [ic_cert_der c] →
  (c ∉ default [] (head revoked) → tls_stream (ps_tls p') conn = cn_stream conn) ∧
  (c ∈ default [] (head revoked) → ∀ ev, ev = Pe_read conn ∨ ev = Pe_admin conn env →
     ∃ outs, proc_step hash_order md ev p' = Some (p', outs) ∧ Forall (silent conn) outs).
Proof.
  intros Hdone Hcrl Hfiles Hcfg Hrun Hn Hc Hchain. cbn [run] in Hrun. unfold proc_step in Hrun. rewrite Hdone in Hrun.
  cbn in Hrun. destruct (run hash_order md evs (sighup p)) as [[p2 o2]|] eqn:Er; [|done]. cbn in Hrun. simplify_eq.
  destruct (run_tls _ _ _ _ Er Hn) as [_ Htls]. cbn [sighup ps_tls] in Htls. unfold reload_config in Htls.
  rewrite Hcfg in Htls. unfold build_server_config in Hcfg. rewrite Hcrl in Hcfg.
  pose proof (accepted_unless_revoked _ _ _ _ _ _ _ _ _ Hfiles Hcfg Hc) as Hacc. rewrite <-Htls, <-Hchain in Hacc.
  split; intros Hr.
  - unfold tls_stream. rewrite Hacc. by rewrite bool_decide_true.
  - apply refused_silent. rewrite Hacc. apply bool_decide_false. tauto.
Qed.

End revoked.

(** * Witnesses *)

Import (hints) Toy ToyCodec ToyTree ToyJson ToyCbor ToyVrf ToyWire ToyTls.

Definition demo_argv : list (list Z) :=
  [chars "coordinator"; chars "--fleet"; chars "3"; chars "--committee"; chars "2"; chars "--key"; chars "server.key";
   chars "--crl"; chars "crl.pem"; chars "--tenants"; chars "tenants"; chars "--enrollment"; chars "enrollment";
   chars "--read-addr"; chars "127.0.0.1:7881"; chars "--submit-stdin"].

Definition demo_enrollment_text : list Z :=
  concat ((λ p : agent * (nat → agent_env),
    enrollment_line (mkEnrolledRecord (ag_runner_id p.1) (fingerprint (vk_to_bytes (verifying_key (ag_signing p.1))))
      (fingerprint (public_key_bytes (ag_vrf p.1))) 0 1000) ++ [10]) <$> demo_fleet).

Definition demo_tenants_text : list Z := concat ((λ r, tenant_line r ++ [10]) <$> Tenant.iter demo_reg).

(** An authority with one revoked certificate, three enrolled agents and the
    tenant of the demonstration. *)
Definition demo_start_env : start_env :=
  mkStartEnv (demo_dir [2; 2; 7; 2; 2; 2; 7; 3])
    (λ p, if decide (p = chars "enrollment") then File_text demo_enrollment_text
          else if decide (p = chars "tenants") then File_text demo_tenants_text else File_missing)
    (λ _, Ok None) true [] (λ _, None) ∅ true true (λ _, true) (Some ([1], [2]))
    ((λ p, Net_conn (mkClientConn true [[7; 1]] (connection p.2 p.1))) <$> demo_fleet).





(** A client with a certificate of the authority. *)
Definition demo_client (serial : Z) : client_conn :=
  mkClientConn true [[7; serial]] (mkStream (λ _ _, Ok (Envelope_GetJob 1)) 0 [] []).

Lemma revocation_takes_effect_witness :
  ∃ p0 p, start demo_start_env demo_argv = Ok p0 ∧ run map_to_list Checked [Pe_sighup] p0 = Some (p, []) ∧
    tls_stream (ps_tls p) (demo_client 1) = cn_stream (demo_client 1) ∧
    tls_stream (ps_tls p) (demo_client 3) = cn_stream (demo_client 3) ∧
    ∃ outs, proc_step map_to_list Checked (Pe_read (demo_client 2)) p = Some (p, outs) ∧
      Forall (silent (demo_client 2)) outs.
Proof.
  assert (Hok : is_ok (start demo_start_env demo_argv) = true) by (vm_compute; reflexivity).
  destruct (start demo_start_env demo_argv) as [p0|] eqn:Es; [|done]. clear Hok.
  destruct (process_started demo_start_env demo_argv p0 Es)
    as (a & cfg & enr & agents & log & journal & auth & canned & Ha & Hargs & _ & _ & Hcfg & _ & _ & Hsv & _ & auth0 & Haft).
  assert (Hpaths : ca_ca_path a = chars "ca.pem" ∧ ca_crl_path a = chars "crl.pem")
    by (vm_compute in Ha; by injection Ha as <-).
  destruct Hpaths as [Hca Hcrl].
  assert (Hpem : ps_pem p0 = demo_dir [2; 2; 7; 2; 2; 2; 7; 3]) by (cbn in Haft; congruence).
  assert (Hdone : sv_done (ps_service p0) = false) by by rewrite Hsv.
  set (p := sighup p0).
  assert (Hrun : run map_to_list Checked [Pe_sighup] p0 = Some (p, [])) by (cbn [run]; unfold proc_step; by rewrite Hdone).
  pose proof (λ serial c, revocation_takes_effect map_to_list Checked p0 cfg [] p [] demo_history.1
    [[mkIssuedCert [7; 2] (PrivateKeyDer_Pkcs8 [2]) [7; 2] [2] 2];
     [mkIssuedCert [7; 3] (PrivateKeyDer_Pkcs8 [3]) [7; 3] [3] 3]] c (demo_client serial)
    (mkSessionEnv 0 true [])) as Hrev.
  rewrite Hpem, Hargs, Hca, Hcrl in Hrev. exists p0, p. split; [done|]. split; [done|]. split.
  - apply (Hrev 1 (mkIssuedCert [7; 1] (PrivateKeyDer_Pkcs8 [1]) [7; 1] [1] 1)); try done.
    + exact demo_authority.
    + apply not_elem_of_nil.
    + by_decide.
    + by_decide.
  - split.
    + apply (Hrev 3 (mkIssuedCert [7; 3] (PrivateKeyDer_Pkcs8 [3]) [7; 3] [3] 3)); try done;
        [exact demo_authority|apply not_elem_of_nil|by_decide|by_decide].
    + apply (Hrev 2 (mkIssuedCert [7; 2] (PrivateKeyDer_Pkcs8 [2]) [7; 2] [2] 2)); try done;
        [exact demo_authority|apply not_elem_of_nil|by_decide|by_decide|by left].
Defined.
