(* ===== verification/AuditMain.v ===== *)
(** The verifier's process against the coordinator's
    (src/bins/cosaci-demo/src/bin/verify.rs, [main] and [open_stream]).

    The verifier is run from its command line, over mutual TLS, against the read
    listener of a coordinator that was started from its own command line and
    goes on meanwhile: every request is a turn of the listener's loop at the
    moment of the connection. *)

From Stdlib Require Import Floats.SpecFloat.
From S2P Require Import Prelude Quorum PartialQuorum Attestation StakeLedger Capabilities MerkleLog.
From S2P Require Import Retrieval Text Replay RateLimit Tenant SubmissionAuth AdminAuth Enrollment Journal.
From S2P Require Import Network Pipeline Wire Vrf Coordinator Agent Service AdminSession Auditor Tls Process.

(** * The verifier's process *)




Section verify_main.
Context `{RsMerkle} `{PemFile} `{Rustls}.

(** The certificate files, [ServerName::try_from], and [open_stream]: what the
    [k]-th connection to an address gives a client that presents a chain. *)
Context (fs : list Z → result bytes open_error) (server_name_ok : list Z → bool).
Context (open_stream : nat → list Z → list bytes → result stream wire_error).


End verify_main.

(** * The coordinator it talks to *)

Section against.
Context `{Cbor} `{Sha256} `{Ed25519} `{CborBytes} `{RsMerkleLaws} `{JournalJson} `{CapturesCbor} `{Schnorrkel}.
Context `{SubmissionCbor} `{SubmissionWire} `{PemFile} `{Rustls}.
Context (hash_order : gmap (list Z) Z → list (list Z * Z)) (md : overflow_mode).
Context (hash_order_ok : ∀ m, hash_order m ≡ₚ map_to_list m).



(** The process at the moments of the connections. *)
Context (at_ : nat → process).


(** * Lemmas *)








(** * Theorem *)








End against.

(** * Witness *)

Import (hints) Toy ToyCodec ToyTree ToyJson ToyCbor ToyVrf ToyWire ToyTls.



