(* ===== verification/Demos.v ===== *)
(** The single-process demonstration (src/bins/cosaci-demo/src/bin/demo.rs): a
    walk through one job, step by step, over the components the coordinator and
    the agents use. The theorem says that the walk reaches its end: every member
    is granted its lease, every attestation verifies, the quorum passes and the
    anchored artifact is proven by the log. *)

From Stdlib Require Import Floats.SpecFloat.
From S2P Require Import Prelude Quorum PartialQuorum Attestation StakeLedger Capabilities MerkleLog.
From S2P Require Import Retrieval Text Lease Replay RateLimit Tenant SubmissionAuth AdminAuth Enrollment Registry Journal.
From S2P Require Import Network Wasm Pipeline Wire Vrf Coordinator Agent Service AdminSession Listener Tls Process.

(** * One process *)

Module Single.

(** What the walk depends on: the randomness of the VRF proofs, the canned
    module, the engine of each execution, and the clock at each lease (twice)
    and each attestation. *)
Record demo_env := mkDemoEnv {
  de_random : Z → bytes;
  de_module : option bytes;
  de_engine : nat → engine;
  de_lease_clock : nat → Z * Z;
  de_att_clock : nat → Z;
}.

Definition fleet_size : Z := 5.
Definition stake_per : Z := 100.
Definition committee_size : nat := 3.
Definition LEASE_TTL_NS : Z := 60000000000.

Section single.
Context `{Cbor} `{Sha256} `{Ed25519} `{CborBytes} `{RsMerkle} `{Schnorrkel}.
Context (hash_order : gmap (list Z) Z → list (list Z * Z)) (md : overflow_mode).

(** The coordinator's view of the cluster. *)
Record Coordinator := mkCoordinator {
  co_registry : Registry;
  co_stake : StakeMap;
  co_vrf_pks : gmap Z bytes;
  co_signing_pks : gmap Z VerifyingKey;
  co_lease_mgr : LeaseManager;
  co_log : MerkleLog MemStore;
}.

(** The fleet; an agent's keys are those of the agent binary. *)
Definition demo_agents : list agent := (λ i, agent_of_id i stake_per) <$> seqZ 0 fleet_size.

(** Step 2 for one agent. *)
Definition register_one (coord : Coordinator) (a : agent) : Coordinator :=
  mkCoordinator
    (Registry.register (ag_runner_id a) (mkRunnerInfo (vk_to_bytes (verifying_key (ag_signing a))) (ag_stake a))
       (co_registry coord))
    (<[ag_runner_id a := ag_stake a]> (co_stake coord))
    (<[ag_runner_id a := public_key_bytes (ag_vrf a)]> (co_vrf_pks coord))
    (<[ag_runner_id a := verifying_key (ag_signing a)]> (co_signing_pks coord))
    (co_lease_mgr coord) (co_log coord).

Definition coordinator_new (agents : list agent) : Coordinator :=
  foldl register_one (mkCoordinator Registry.new ∅ ∅ ∅ (Lease.new LEASE_TTL_NS) MerkleLog.new) agents.

(** Step 4: the [k] lowest VRF outputs. *)
Definition vrf_assign_committee (random : Z → bytes) (agents : list agent) (seed : bytes) (k : nat) : list Z :=
  let scored := (λ a, (ag_runner_id a, (Vrf.evaluate (random (ag_runner_id a)) (ag_vrf a) seed).1)) <$> agents in
  (take k (stable_sort (λ a b, lex_leb a.2 b.2) scored)).*1.

(** Step 5: a lease per member. *)
Fixpoint issue_leases (clock : nat → Z * Z) (n : nat) (job_id : Z) (assigned : list Z) (m : LeaseManager) :
    list (result Z LeaseError) * LeaseManager :=
  match assigned with
  | [] => ([], m)
  | runner_id :: assigned =>
      let '(r, m) := Lease.acquire (clock n).1 (clock n).2 job_id runner_id m in
      let '(rs, m) := issue_leases clock (S n) job_id assigned m in
      (r :: rs, m)
  end.

(** Step 6: every member executes and signs; [None] is a panic, of the index or
    of [expect]. *)
Fixpoint attest_all (env : demo_env) (n : nat) (job_id : Z) (module args : bytes) (agents : list agent)
    (assigned : list Z) : option (list Attestation) :=
  match assigned with
  | [] => Some []
  | runner_id :: assigned =>
      a ← agents !! Z.to_nat runner_id;
      match Wasm.execute (de_engine env n) module args with
      | Err _ => None
      | Ok v =>
          let artifact := Wasm.output_hash (module_hash module) v in
          let att := mkAttestation VERSION (u64_to_uuid job_id) (replicate 32 66) runner_id AttestationResult_Pass
                       (replicate 32 238) artifact (de_att_clock env n) (replicate 64 0) in
          atts ← attest_all env (S n) job_id module args agents assigned;
          Some (sign_with (ag_signing a) att :: atts)
      end
  end.

(** Step 7: the verdict on each signature; [None] for a runner that is not
    registered. *)
Fixpoint check_all (pks : gmap Z VerifyingKey) (atts : list Attestation) : option (list bool) :=
  match atts with
  | [] => Some []
  | att :: atts =>
      pk ← pks !! att_runner_id att;
      rest ← check_all pks atts;
      Some (verify_signature att pk :: rest)
  end.

(** What the walk prints at its end. *)
Record report := mkReport {
  rp_committee : list Z;
  rp_leases : list (result Z LeaseError);
  rp_signatures : list bool;
  rp_artifact : bytes;
  rp_outcome : Outcome;
  rp_anchor : option (Z * bytes * list bytes * bool);
  rp_log : MerkleLog MemStore;
}.

(** Step 9: append, and check the proof of the new entry. *)
Definition anchor_entry (artifact : bytes) (log : MerkleLog MemStore) :
    option ((Z * bytes * list bytes * bool) * MerkleLog MemStore) :=
  match MerkleLog.append io_fine artifact log with
  | (Ok position, log) =>
      root ← MerkleLog.root log;
      peaks ← peak_hashes log (MerkleLog.len log);
      proof ← inclusion_proof log position;
      Some ((position, root, peaks, verify_inclusion proof root), log)
  | (Err e, _) => match (e : Empty_set) with end
  end.

(** [main]; [None] is a panic. *)
Definition demo_main (env : demo_env) : option report :=
  let agents := demo_agents in
  let coord := coordinator_new agents in
  let job_id := 1 in
  let assigned := vrf_assign_committee (de_random env) agents (job_seed_bytes job_id) committee_size in
  let '(leases, _) := issue_leases (de_lease_clock env) 0 job_id assigned (co_lease_mgr coord) in
  module ← de_module env;
  atts ← attest_all env 0 job_id module (encode_args 21 21) agents assigned;
  sigs ← check_all (co_signing_pks coord) atts;
  let votes := vote_of <$> ((zip atts sigs) ≫= λ p, if (p.2 : bool) then [p.1] else []) in
  best ← max_by_count (hash_order (artifact_counts atts));
  threshold ← committee_threshold md assigned (co_stake coord);
  outcome ← aggregate md votes threshold (co_stake coord);
  if decide (outcome = Outcome_Pass) then
    '(anchor, log) ← anchor_entry best.1 (co_log coord);
    Some (mkReport assigned leases sigs best.1 outcome (Some anchor) log)
  else Some (mkReport assigned leases sigs best.1 outcome None (co_log coord)).

End single.

(** ** The walk reaches its end *)

Section walk.
Context `{Cbor} `{Sha256} `{Ed25519Laws} `{CborBytes} `{RsMerkleLaws} `{Schnorrkel}.
Context (hash_order : gmap (list Z) Z → list (list Z * Z)) (md : overflow_mode).
Context (hash_order_ok : ∀ m, hash_order m ≡ₚ map_to_list m).

Lemma committee_ok random seed k :
  let c := vrf_assign_committee random demo_agents seed k in
  NoDup c ∧ c ⊆ seqZ 0 fleet_size ∧ length c = (k `min` 5)%nat.
Proof.
  intros c. set (scored := (λ a, (ag_runner_id a, (Vrf.evaluate (random (ag_runner_id a)) (ag_vrf a) seed).1)) <$> demo_agents).
  pose proof (stable_sort_perm (λ a b : Z * list Z, lex_leb a.2 b.2) scored) as Hp.
  apply (fmap_Permutation fst) in Hp.
  assert (Hids : scored.*1 = seqZ 0 fleet_size) by reflexivity. rewrite Hids in Hp.
  assert (Hc : c = take k ((stable_sort (λ a b : Z * list Z, lex_leb a.2 b.2) scored).*1)) by (unfold c, vrf_assign_committee; cbv zeta; by rewrite fmap_take).
  assert (Hnd : NoDup ((stable_sort (λ a b : Z * list Z, lex_leb a.2 b.2) scored).*1)) by (rewrite Hp; apply NoDup_seqZ).
  split; [|split].
  - rewrite Hc. by eapply sublist_NoDup; [|apply sublist_take].
  - intros x Hx. rewrite Hc in Hx. rewrite <-Hp. eapply elem_of_sublist; [exact Hx|apply sublist_take].
  - rewrite Hc, length_take, Hp. reflexivity.
Qed.

(** A manager without leases of the given runners grants them all, in order. *)
Lemma leases_granted clock n job assigned m :
  lm_inv m → NoDup assigned → lm_next_id m + Z.of_nat (length assigned) < u64_max →
  (∀ id l, lm_leases m !! id = Some l → lease_runner_id l ∉ assigned) →
  (issue_leases clock n job assigned m).1 = Ok <$> seqZ (lm_next_id m) (Z.of_nat (length assigned)).
Proof.
  revert n m. induction assigned as [|r assigned IH]; intros n m Hinv Hnd Hn Hfree; [done|].
  cbn [issue_leases length]. apply NoDup_cons in Hnd as [Hr Hnd]. cbn [length] in Hn.
  destruct (Lease.acquire (clock n).1 (clock n).2 job r m) as [res m'] eqn:Ea.
  destruct (acquire_spec _ _ _ _ _ _ _ Hinv ltac:(lia) Ea) as (Hinv' & Hn' & Hres).
  destruct res as [id|e].
  2: { destruct Hres as [(id & l & Hl & _ & Hp & _) _]. exfalso. apply (Hfree id l Hl). injection Hp as _ ->. by left. }
  destruct Hres as (_ & -> & Hl'). destruct (tick_spec (clock n).1 m Hinv) as (_ & _ & _ & Ht).
  assert (Hfree' : ∀ id l, lm_leases m' !! id = Some l → lease_runner_id l ∉ assigned).
  { intros id l. rewrite Hl', lookup_insert. case_decide; [by intros [= <-]|]. rewrite Ht.
    destruct (lm_leases m !! id) as [l0|] eqn:E0; [|done]. intros [= <-] Hin. apply (Hfree id l0 E0). right.
    unfold expire in Hin. by case_decide. }
  assert (Hnext : lm_next_id m' = lm_next_id m + 1).
  { destruct Hinv' as (_ & Hids & _). destruct (Hids (lm_next_id m) (mkLease (lm_next_id m) job r (clock n).2
      (lm_default_ttl_ns m) LeaseState_Active)) as [_ ?]; [by rewrite Hl', lookup_insert_eq|lia]. }
  specialize (IH (S n) m' Hinv' Hnd ltac:(lia) Hfree').
  destruct (issue_leases clock (S n) job assigned m') as [rs m2]. cbn [fst] in *. rewrite IH, Hnext.
  rewrite (seqZ_cons (lm_next_id m)) by lia. csimpl. rewrite Z.add_1_r. do 3 f_equal. lia.
Qed.

Lemma member_keys id :
  id ∈ seqZ 0 fleet_size →
  demo_agents !! Z.to_nat id = Some (agent_of_id id stake_per) ∧
  co_signing_pks (coordinator_new demo_agents) !! id = Some (verifying_key (ag_signing (agent_of_id id stake_per))) ∧
  co_stake (coordinator_new demo_agents) !! id = Some stake_per.
Proof.
  intros Hid%elem_of_seqZ. unfold fleet_size in Hid.
  assert (id = 0 ∨ id = 1 ∨ id = 2 ∨ id = 3 ∨ id = 4) as Hcases by lia.
  destruct Hcases as [-> |[-> |[-> |[-> | ->]]]]; split_and!; reflexivity.
Qed.

(** The attestations of members whose runs agree, and their signatures. *)
Lemma attest_all_ok env n job module args v assigned :
  (∀ n, Wasm.execute (de_engine env n) module args = Ok v) → assigned ⊆ seqZ 0 fleet_size →
  ∃ atts, attest_all env n job module args demo_agents assigned = Some atts ∧
    att_runner_id <$> atts = assigned ∧
    Forall (λ a, att_result a = AttestationResult_Pass ∧
                 att_artifact_hash a = Wasm.output_hash (module_hash module) v) atts ∧
    check_all (co_signing_pks (coordinator_new demo_agents)) atts = Some (replicate (length assigned) true).
Proof.
  intros Hex. revert n. induction assigned as [|id assigned IH]; intros n Hsub.
  { exists []. by repeat constructor. }
  destruct (member_keys id) as (Ha & Hpk & _); [apply Hsub; by left|].
  destruct (IH (S n)) as (atts & Hatts & Hids & Hall & Hchk); [intros x Hx; apply Hsub; by right|].
  cbn [attest_all]. rewrite Ha. cbn [mbind option_bind]. rewrite Hex, Hatts. cbn [mbind option_bind].
  eexists. split; [done|]. split; [csimpl; by rewrite Hids|]. split; [by constructor|].
  cbn [check_all].
  match goal with |- context [att_runner_id (sign_with ?k ?a)] => change (att_runner_id (sign_with k a)) with id end.
  rewrite Hpk. cbn [mbind option_bind]. rewrite Hchk. cbn [mbind option_bind]. by rewrite verify_sign_with.
Qed.

Lemma all_signed atts n :
  length atts = n → (zip atts (replicate n true) ≫= λ p : Attestation * bool, if p.2 then [p.1] else []) = atts.
Proof. intros <-. induction atts as [|a atts IH]; [done|]. csimpl. by rewrite IH. Qed.

(** The entry of a fresh log is proven. *)
Lemma anchor_entry_fresh h :
  ∃ root peaks log, anchor_entry h MerkleLog.new = Some ((0, root, peaks, true), log) ∧ log_entries log = [h].
Proof.
  unfold anchor_entry, MerkleLog.append. cbn [store_append mem_store mem_append MerkleLog.new log_store ms_entries length].
  set (log := mkMerkleLog _ _).
  destruct (inclusion_proof_at_verifies log 0 1) as (ip & r & e & Hip & Hr & Hv & _); [lia|done|].
  destruct (peak_hashes_cover log 1) as (_ & _ & _ & peaks & slices & Hpk & _); [done|done|].
  exists r, peaks, log. split; [|done]. unfold inclusion_proof.
  replace (MerkleLog.len log) with 1 by done. replace (MerkleLog.root log) with (root_at log 1) by done.
  rewrite Hr. cbn [mbind option_bind]. rewrite Hpk. cbn [mbind option_bind]. change (Z.of_nat 0) with 0.
  rewrite Hip. cbn [mbind option_bind]. by rewrite Hv.
Qed.

(** The most frequent artifact of attestations that agree is theirs. *)
Lemma unanimous_best atts h :
  atts ≠ [] → Forall (λ a, att_artifact_hash a = h) atts → ∃ n, max_by_count (hash_order (artifact_counts atts)) = Some (h, n).
Proof.
  intros Hne Hall. pose proof (unanimous_artifact hash_order atts h hash_order_ok Hne Hall) as Hart.
  unfold consensus_artifact in Hart. pose proof (max_by_count_spec (hash_order (artifact_counts atts))) as Hm.
  destruct (max_by_count _) as [[k n]|]; [exists n; by subst k|].
  exfalso. pose proof (hash_order_ok (artifact_counts atts)) as Hperm. rewrite Hm in Hperm.
  apply Permutation_nil_l in Hperm. symmetry in Hperm. apply map_to_list_empty_iff in Hperm.
  pose proof (artifact_counts_lookup atts h) as Hlk. rewrite Hperm, lookup_empty in Hlk. unfold count_artifact in Hlk.
  rewrite filter_all in Hlk by (by apply Forall_forall). by destruct atts.
Qed.

(** C39: when the canned module runs and gives its runners one result, the
    single-process demonstration reaches its end without a panic, whatever the
    clocks, the VRF outputs and the hash maps do: three distinct members of the
    fleet, each with a lease of its own, numbered from one; every signature
    verifies; the quorum passes; and the artifact of that result is the one
    entry of the log, with a proof that verifies. *)
Theorem demo_completes env module v :
  de_module env = Some module →
  (∀ n, Wasm.execute (de_engine env n) module (encode_args 21 21) = Ok v) →
  ∃ r root peaks, demo_main hash_order md env = Some r ∧
    NoDup (rp_committee r) ∧ rp_committee r ⊆ seqZ 0 fleet_size ∧ length (rp_committee r) = 3%nat ∧
    rp_leases r = [Ok 1; Ok 2; Ok 3] ∧ rp_signatures r = [true; true; true] ∧
    rp_outcome r = Outcome_Pass ∧ rp_artifact r = Wasm.output_hash (module_hash module) v ∧
    rp_anchor r = Some (0, root, peaks, true) ∧ log_entries (rp_log r) = [rp_artifact r].
Proof.
  intros Hmod Hex. unfold demo_main.
  destruct (committee_ok (de_random env) (job_seed_bytes 1) committee_size) as (Hnd & Hsub & Hlen).
  set (c := vrf_assign_committee _ _ _ _) in *. change (length c = 3%nat) in Hlen.
  pose proof (leases_granted (de_lease_clock env) 0 1 c (Lease.new LEASE_TTL_NS) (new_inv _) Hnd) as Hl.
  rewrite Hlen in Hl. specialize (Hl ltac:(done) ltac:(intros id l; cbn; by rewrite lookup_empty)).
  change (co_lease_mgr (coordinator_new demo_agents)) with (Lease.new LEASE_TTL_NS).
  destruct (issue_leases _ _ _ _ _) as [leases m]. cbn [fst] in Hl. subst leases.
  rewrite Hmod. cbn [mbind option_bind].
  destruct (attest_all_ok env 0 1 module (encode_args 21 21) v c Hex Hsub) as (atts & -> & Hids & Hall & Hchk).
  cbn [mbind option_bind]. rewrite Hchk, Hlen. cbn [mbind option_bind].
  assert (Hal : length atts = 3%nat) by (rewrite <-Hlen, <-Hids; by rewrite length_fmap).
  rewrite (all_signed atts 3 Hal). set (h := Wasm.output_hash (module_hash module) v) in *.
  destruct (unanimous_best atts h) as (cnt & ->); [by intros ->|eapply Forall_impl; [exact Hall|by intros ? []]|].
  cbn [mbind option_bind fst].
  set (stake := co_stake (coordinator_new demo_agents)).
  assert (Hst : stake_ok stake) by by_decide.
  rewrite committee_threshold_some by done. cbn [mbind option_bind].
  destruct (unanimous_support stake c atts Hnd) as [HF HP]; [by rewrite Hids|eapply Forall_impl; [exact Hall|by intros ? []]|].
  rewrite aggregate_decides, HF, HP by done. cbn [mbind option_bind].
  rewrite unanimous_outcome.
  2: { destruct c as [|id rest]; [done|]. destruct (member_keys id) as (_ & _ & Hs); [apply Hsub; by left|].
       eapply Z.lt_le_trans; [|apply (sumz_elem_le _ stake_per)]; [done| |].
       - apply Forall_fmap, Forall_true. intros x. cbn. by apply weight_of_nonneg.
       - csimpl. unfold stake. rewrite Hs. by left. }
  rewrite decide_True by done. destruct (anchor_entry_fresh h) as (root & peaks & log & Hanch & Hlog).
  change (co_log (coordinator_new demo_agents)) with MerkleLog.new. rewrite Hanch. cbn [mbind option_bind].
  eexists _, root, peaks. split; [done|]. cbn. split_and!; done.
Qed.

End walk.
End Single.

(** * Witnesses *)

Import (hints) Toy ToyTree ToyCbor ToyVrf.

(** An engine that answers 42. *)
Definition demo_engine : engine :=
  mkEngine (λ _, Ok (21, 21)) (λ _ _, Ok ()) (λ _, Ok ()) (λ _, Ok ()) (λ _ _, Ok ()) (λ _, Ok ()) (λ _ _ _ _, Ok 42).

Definition demo_walk : Single.demo_env :=
  Single.mkDemoEnv (λ i, [i]) (Some [1]) (λ _, demo_engine) (λ n, (Z.of_nat n, Z.of_nat n)) (λ n, Z.of_nat n).

Lemma demo_completes_witness :
  ∃ r, Single.demo_main map_to_list Checked demo_walk = Some r ∧ Single.rp_outcome r = Outcome_Pass ∧
    length (Single.rp_committee r) = 3%nat.
Proof.
  destruct (Single.demo_completes map_to_list Checked (λ m, reflexivity _) demo_walk [1] 42)
    as (r & root & peaks & Hr & _ & _ & Hlen & _ & _ & Hout & _); [reflexivity|intros n; reflexivity|].
  exists r. by split_and!.
Defined.
