(* ===== verification/Admission.v ===== *)
(** What the gate owes an honest tenant: [SubmissionAuth] and [Service] say that
    only signed, fresh submissions within the rate are admitted; here, that all
    of those are. *)

From S2P Require Import Prelude Attestation StakeLedger Capabilities MerkleLog Text Replay RateLimit Tenant SubmissionAuth.
From S2P Require Import Journal Pipeline Wire Vrf Coordinator Service.

(** * The stages *)

Lemma refill_keeps now b : bucket_ok b → bucket_ok (refill now b) ∧ tb_tokens b <= tb_tokens (refill now b).
Proof.
  intros (Hc & Hr & Ht). unfold bucket_ok, refill. cbn [tb_capacity tb_refill_per_sec tb_tokens].
  pose proof (Z.mod_pos_bound (sat_sub now (tb_last_refill_ns b) * tb_refill_per_sec b / 1000000000) (2 ^ 64)) as Hw.
  fold (wrap 64 (sat_sub now (tb_last_refill_ns b) * tb_refill_per_sec b / 1000000000)) in Hw. u64_lia.
Qed.

Lemma sweep_shrinks now g k : rg_accepted g !! k = None → rg_accepted (sweep now g) !! k = None.
Proof.
  intros Hk. destruct (rg_accepted (sweep now g) !! k) eqn:E; [|done]. apply sweep_lookup in E as [E _]. congruence.
Qed.

Section stages.
Context `{Sha256} `{Ed25519} `{SubmissionCbor}.

(** The tenant's bucket as a request finds it. *)
Definition bucket_at (now tid : Z) (t : TenantRecord) (l : RateLimiter) : TokenBucket :=
  default (bucket_new (tr_rate_capacity t) (tr_rate_refill_per_sec t) now) (rl_buckets l !! tid).

Lemma authentic_admitted tid nonce enc pk sg now_ns registry rd g t :
  authentic registry tid enc pk sg t → abs_diff (rd_now rd) now_ns <= rg_ttl_ns (g_replay g) →
  rg_accepted (g_replay g) !! fold_replay_key tid nonce = None →
  let b := refill (rd_limiter rd) (bucket_at (rd_limiter rd) tid t (g_limiter g)) in
  1 <= tb_tokens b →
  ∃ guard, SubmissionAuth.check_submission tid nonce enc pk sg now_ns registry rd g =
      (AuthCheck_Ok, mkGate (set_bucket tid (set_tokens (tb_tokens b - 1) b) (g_limiter g)) guard) ∧
    rg_ttl_ns guard = rg_ttl_ns (g_replay g) ∧
    ∀ k, k ≠ fold_replay_key tid nonce → rg_accepted (g_replay g) !! k = None → rg_accepted guard !! k = None.
Proof.
  intros Ha Hage Hk b Hb. destruct Ha as (Hg & Hfp & Henc). unfold SubmissionAuth.check_submission. rewrite Hg.
  rewrite (proj2 (signature_ok_authentic registry tid enc pk sg t Hg)) by done. cbn [negb].
  unfold Replay.accept. change (rg_ttl_ns (sweep ?n ?g)) with (rg_ttl_ns g). cbv zeta.
  rewrite (proj2 (Z.ltb_ge _ _)) by done. rewrite (sweep_shrinks (rd_sweep rd) _ _ Hk). rewrite accept_with_config_eq. fold (bucket_at (rd_limiter rd) tid t (g_limiter g)). cbv zeta. fold b.
  rewrite (proj2 (Z.leb_le _ _)) by done. eexists. split; [done|]. split; [done|].
  intros k Hne Hnone. change (<[fold_replay_key tid nonce := rd_now rd]> (rg_accepted (sweep (rd_sweep rd) (g_replay g))) !! k = None).
  rewrite lookup_insert_ne by done. by apply sweep_shrinks.
Qed.

End stages.

(** * A batch *)

(** The tenant and nonce a submission names. *)
Definition sub_id (sub : JobSubmission) : option (Z * Z) :=
  match sub with
  | JobSubmission_Legacy l => tid ← lj_tenant_id l; nonce ← lj_nonce l; Some (tid, nonce)
  | JobSubmission_Pipeline p => tid ← pj_tenant_id p; nonce ← pj_nonce p; Some (tid, nonce)
  end.

(** A line as the reader thread meets it, with the clock readings of its check
    and whether the main loop is waiting. *)
Record arrival := mkArrival { ar_line : list Z; ar_now : Z; ar_rd : readings; ar_waiting : bool }.

Section batch.
Context `{Cbor} `{Sha256} `{Ed25519} `{CborBytes} `{RsMerkle} `{JournalJson} `{CapturesCbor} `{Schnorrkel}.
Context `{SubmissionCbor} `{SubmissionWire}.
Context (hash_order : gmap (list Z) Z → list (list Z * Z)) (md : overflow_mode) (cf : config).

(** The check of a signed submission is the check of its signature, nonce and
    tenant. *)
Lemma signed_check registry sub tid nonce :
  signed registry sub → sub_id sub = Some (tid, nonce) →
  ∃ enc pk sg t, authentic registry tid enc pk sg t ∧
    ∀ now_ns rd g, check_submission sub now_ns rd registry g =
      SubmissionAuth.check_submission tid nonce enc pk sg now_ns registry rd g.
Proof.
  destruct sub as [l|p]; cbn [signed sub_id].
  - intros (tid' & nonce' & pkh & sgh & pk & sg & t & Ht & Hn & Hpk & Hpk' & Hsg & Hsg' & Ha). rewrite Ht, Hn.
    intros [= -> ->]. eexists _, pk, sg, t. split; [exact Ha|]. intros now_ns rd g. cbn [check_submission].
    unfold check_legacy. by rewrite Ht, Hn, Hpk, Hsg, Hpk', Hsg'.
  - intros (tid' & nonce' & pkh & sgh & pk & sg & cbor & t & Ht & Hn & Hpk & Hpk' & Hsg & Hsg' & Hc & Ha). rewrite Ht, Hn.
    intros [= -> ->]. eexists _, pk, sg, t. split; [exact Ha|]. intros now_ns rd g. cbn [check_submission].
    unfold check_pipeline. by rewrite Ht, Hn, Hpk, Hsg, Hpk', Hsg', Hc.
Qed.

(** A line that a tenant signed, for a submission that resolves. *)
Definition honest_line (registry : TenantRegistry) (tid : Z) (line : list Z) (nonce : Z) (run : RunSubmission) : Prop :=
  trim line ≠ [] ∧ starts_with 35 (trim line) = false ∧
  ∃ sub, parse_submission_line (trim line) = Some sub ∧ resolve (cf_add_wasm cf) (cf_mul_wasm cf) sub = Some run ∧
    sub_id sub = Some (tid, nonce) ∧ signed registry sub.

(** The gate has room for [n] more submissions with these nonces. *)
Definition gate_room (tid : Z) (t : TenantRecord) (nonces : list Z) (g : gate) : Prop :=
  rg_ttl_ns (g_replay g) = REPLAY_TTL_NS ∧
  Forall (λ nonce, rg_accepted (g_replay g) !! fold_replay_key tid nonce = None) nonces ∧
  match rl_buckets (g_limiter g) !! tid with
  | Some b => bucket_ok b ∧ Z.of_nat (length nonces) <= tb_tokens b
  | None => uint 64 (tr_rate_capacity t) ∧ uint 64 (tr_rate_refill_per_sec t) ∧
            Z.of_nat (length nonces) <= tr_rate_capacity t
  end.

Lemma bucket_room now tid t nonces g :
  gate_room tid t nonces g →
  bucket_ok (bucket_at now tid t (g_limiter g)) ∧
  Z.of_nat (length nonces) <= tb_tokens (bucket_at now tid t (g_limiter g)).
Proof.
  intros (_ & _ & Hb). unfold bucket_at. destruct (rl_buckets (g_limiter g) !! tid) as [b|]; [done|].
  destruct Hb as (Hc & Hr & Hle). split; [by apply bucket_new_ok|done].
Qed.

(** One line of a batch. *)
Lemma honest_line_admitted registry tid t line nonce nonces run now_ns rd g :
  honest_line registry tid line nonce run → Tenant.get tid registry = Some t →
  gate_room tid t (nonce :: nonces) g → fold_replay_key tid nonce ∉ fold_replay_key tid <$> nonces →
  abs_diff (rd_now rd) now_ns <= REPLAY_TTL_NS →
  ∃ g', read_line (cf_add_wasm cf) (cf_mul_wasm cf) line now_ns rd (Some (mkAuthState registry g)) =
      (Some run, Some (mkAuthState registry g')) ∧ gate_room tid t nonces g'.
Proof.
  intros (Hne & Hc & sub & Hp & Hres & Hid & Hs) Ht Hroom Hfresh Hage.
  destruct (signed_check _ _ _ _ Hs Hid) as (enc & pk & sg & t' & Ha & Hchk).
  assert (t' = t) as -> by (destruct Ha as (Ht' & _); congruence).
  destruct (bucket_room (rd_limiter rd) _ _ _ _ Hroom) as [Hbok Hbt]. destruct Hroom as (Httl & Hnone & _).
  apply Forall_cons in Hnone as [Hk Hnone]. cbn [length] in Hbt.
  destruct (refill_keeps (rd_limiter rd) _ Hbok) as [(Hcap & Hrate & Htok) Hge].
  destruct (authentic_admitted tid nonce enc pk sg now_ns registry rd g t Ha ltac:(by rewrite Httl) Hk ltac:(lia))
    as (guard & Hcheck & Httl' & Hkeep).
  eexists. split.
  - unfold read_line. rewrite bool_decide_false, Hc, Hp by done. cbn [orb au_registry au_gate].
    rewrite Hchk, Hcheck, decide_True by done. by rewrite Hres.
  - split; [by cbn; rewrite Httl'|]. split.
    + cbn [g_replay]. rewrite Forall_forall in *. intros k Hk'. apply Hkeep; [|by apply Hnone].
      intros Heq. apply Hfresh. rewrite <-Heq. by apply list_elem_of_fmap_2.
    + cbn [g_limiter set_bucket rl_buckets]. rewrite lookup_insert_eq. unfold bucket_ok.
      cbn [set_tokens tb_capacity tb_refill_per_sec tb_tokens]. split_and!; try done; lia.
Qed.

(** A batch is queued whole, in order. *)
Lemma batch_queued registry tid t (batch : list (arrival * (Z * RunSubmission))) g s :
  Forall (λ p, honest_line registry tid (ar_line p.1) p.2.1 p.2.2 ∧
               abs_diff (rd_now (ar_rd p.1)) (ar_now p.1) <= REPLAY_TTL_NS) batch →
  NoDup ((λ p, fold_replay_key tid p.2.1) <$> batch) → Tenant.get tid registry = Some t →
  gate_room tid t ((λ p, p.2.1) <$> batch) g → sv_auth s = Some (mkAuthState registry g) →
  sv_reading s = true → sv_done s = false → (length (sv_queue s) + length batch <= cf_queue_cap cf)%nat →
  ∃ s', serve hash_order md cf ((λ p, Ev_line (ar_line p.1) (ar_now p.1) (ar_rd p.1) (ar_waiting p.1)) <$> batch) s =
      Some (s', (λ p, Out_queued (Some registry) (ar_line p.1) p.2.2) <$> batch) ∧
    sv_queue s' = sv_queue s ++ ((λ p, p.2.2) <$> batch).
Proof.
  revert g s. induction batch as [|[a [nonce run]] batch IH]; intros g s Hall Hnd Ht Hroom Hauth Hread Hdone Hcap.
  { exists s. split; [done|]. by rewrite app_nil_r. }
  apply Forall_cons in Hall as [[Hline Hage] Hall]. cbn [fst snd] in *.
  revert Hnd Hroom. csimpl. intros [Hfresh Hnd]%NoDup_cons Hroom.
  destruct (honest_line_admitted registry tid t (ar_line a) nonce ((λ p, p.2.1) <$> batch) run (ar_now a) (ar_rd a) g)
    as (g' & Hrl & Hroom'); try done.
  { by rewrite <-list_fmap_compose. }
  cbn [length] in Hcap. set (s1 := mkService (sv_world s) (Some (mkAuthState registry g')) (sv_queue s ++ [run])
    (sv_reading s) (sv_draining s) (sv_completed s) (sv_done s)).
  assert (Hh : handle hash_order md cf (Ev_line (ar_line a) (ar_now a) (ar_rd a) (ar_waiting a)) s =
    Some (s1, [Out_queued (Some registry) (ar_line a) run])).
  { unfold handle. rewrite Hdone, Hread. unfold on_line. rewrite Hauth, Hrl. cbn [mbind option_bind].
    unfold try_send. destruct (cf_queue_cap cf) as [|n]; [lia|]. by rewrite bool_decide_true by lia. }
  destruct (IH g' s1) as (s' & Hserve & Hq); try done.
  { cbn [s1 sv_queue]. rewrite length_app. cbn [length]. lia. }
  exists s'. cbn [serve]. rewrite Hh. cbn [mbind option_bind]. rewrite Hserve. cbn [mbind option_bind]. split; [done|].
  rewrite Hq. cbn [s1 sv_queue]. by rewrite <-app_assoc.
Qed.

End batch.
