(* ===== verification/Launcher.v ===== *)
(** The launcher of the networked demonstration
    (src/bins/cosaci-demo/src/bin/demo_networked.rs): the certificates, the
    enrollment and tenant files, the flags of the coordinator and its agents in
    each of the three rounds, and the submissions it signs. The theorems say that
    the parts fit: the coordinator of every round starts with the whole fleet
    registered, and takes every submission of the third. *)

From Stdlib Require Import Floats.SpecFloat.
From S2P Require Import Prelude Quorum PartialQuorum Attestation StakeLedger Capabilities MerkleLog.
From S2P Require Import Retrieval Text Lease Replay RateLimit Tenant SubmissionAuth AdminAuth Enrollment Registry Journal.
From S2P Require Import Network Wasm Pipeline Wire Vrf Coordinator Agent Service AdminSession Listener Tls Process Admission.

Definition FLEET : Z := 5.
Definition COMMITTEE : Z := 3.
Definition MAX_JOBS_BOUNDED : Z := 3.
Definition DEMO_TENANT_ID : Z := 1.

Definition demo_tenant_seed : bytes := [222; 173; 190; 239] ++ replicate 28 0.

(** The system's directory for temporary files, the process id, the wall clock,
    the randomness of the keys, and which writes succeed. *)
Record launch_env := mkLaunchEnv {
  le_temp : list Z;
  le_pid : Z;
  le_now : Z;
  le_random : Z → Z;
  le_write : list Z → bool;
}.

Record Certs := mkCerts {
  ct_temp_dir : list Z;
  ct_ca : list Z;
  ct_server_cert : list Z;
  ct_server_key : list Z;
  ct_agents : list (list Z * list Z);
  ct_enrollment : list Z;
  ct_tenants : list Z;
}.

(** The files of an agent. *)
Definition cert_name (i : Z) : list Z := chars "agent-" ++ show_u64 i ++ chars ".pem".
Definition key_name (i : Z) : list Z := chars "agent-" ++ show_u64 i ++ chars ".key.pem".

(** The files written so far; a failed write panics. *)
Abbreviation disk := (gmap (list Z) (list Z)) (only parsing).

Definition fs_write (env : launch_env) (path text : list Z) (d : disk) : option disk :=
  if le_write env path then Some (<[path := text]> d) else None.

Definition ok {A E} (r : result A E) : option A := match r with Ok a => Some a | Err _ => None end.

Inductive RoundKind :=
| RoundKind_Bounded (read_addr : option (list Z))
| RoundKind_Sigterm
| RoundKind_SubmitStdin.

(** The flags of the coordinator in a round. *)
Definition coord_args (certs : Certs) (addr : list Z) (kind : RoundKind) : list (list Z) :=
  [chars "--addr"; addr; chars "--ca"; ct_ca certs; chars "--cert"; ct_server_cert certs;
   chars "--key"; ct_server_key certs; chars "--fleet"; show_u64 FLEET; chars "--committee"; show_u64 COMMITTEE;
   chars "--enrollment"; ct_enrollment certs] ++
  match kind with
  | RoundKind_Bounded read_addr =>
      [chars "--max-jobs"; show_u64 MAX_JOBS_BOUNDED] ++
      match read_addr with Some read_addr => [chars "--read-addr"; read_addr] | None => [] end ++
      [chars "--journal"; join (ct_temp_dir certs) (chars "journal.ndjson")]
  | RoundKind_Sigterm => []
  | RoundKind_SubmitStdin =>
      [chars "--submit-stdin"; chars "--queue-cap"; chars "8"; chars "--tenants"; ct_tenants certs]
  end.

(** The flags of the agent with a given number. *)
Definition agent_args (certs : Certs) (addr : list Z) (id : nat) : list (list Z) :=
  let '(cert, key) := default ([], []) (ct_agents certs !! id) in
  [chars "--id"; show_u64 (Z.of_nat id); chars "--addr"; addr; chars "--ca"; ct_ca certs; chars "--cert"; cert;
   chars "--key"; key; chars "--server-name"; SUBJECT_SERVER; chars "--stake"; chars "100"].

Section launcher.
Context `{Sha256} `{Ed25519} `{Schnorrkel} `{Rcgen} `{SubmissionCbor} `{CborBytes}.

(** The agent its binary makes of its flags; [None] is a panic. *)
Definition agent_of_args (args : list (list Z)) : option agent :=
  id ← parse_u64 (arg_or args "--id" "0");
  stake ← parse_u64 (arg_or args "--stake" "100");
  Some (agent_of_id id stake).

(** The certificates of the agents, from the [i]-th on. *)
Fixpoint issue_agents (env : launch_env) (temp_dir : list Z) (ids : list Z) (ca : TestCa) (d : disk) :
    option (list (list Z * list Z) * disk) :=
  match ids with
  | [] => Some ([], d)
  | i :: ids =>
      let '(r, ca) := issue (le_random env (i + 2)) (chars "agent-" ++ show_u64 i) ca in
      agent_cert ← ok r;
      let cert_path := join temp_dir (cert_name i) in
      let key_path := join temp_dir (key_name i) in
      d ← fs_write env cert_path (ic_cert_pem agent_cert) d;
      d ← fs_write env key_path (ic_key_pem agent_cert) d;
      '(paths, d) ← issue_agents env temp_dir ids ca d;
      Some ((cert_path, key_path) :: paths, d)
  end.

(** The line of an agent: the keys are those the agent binary derives. *)
Definition agent_line (now i : Z) : list Z :=
  let a := agent_of_id i 0 in
  enrollment_text i (fingerprint (vk_to_bytes (verifying_key (ag_signing a))))
    (fingerprint (public_key_bytes (ag_vrf a))) now (chars "1.0").

Definition enrollment_file (now : Z) : list Z :=
  chars "# CosaCI demo enrollment file" ++ [10] ++ concat ((λ i, agent_line now i ++ [10]) <$> seqZ 0 FLEET).

Definition demo_tenant_kp : Keypair := Attestation.from_seed demo_tenant_seed.

Definition tenants_file (now : Z) : list Z :=
  chars "# CosaCI demo tenant registry" ++ [10] ++
  join_space [show_u64 DEMO_TENANT_ID;
    Enrollment.fingerprint_hex (fingerprint (vk_to_bytes (verifying_key demo_tenant_kp)));
    chars "100"; chars "10"; show_i64 now] ++ [10].

(** [generate_certs]; [None] is a panic. *)
Definition generate_certs (env : launch_env) : option (Certs * disk) :=
  let temp_dir := join (le_temp env) (chars "cosaci-demo-" ++ show_u64 (le_pid env)) in
  ca ← ok (generate (le_random env 0) (chars "cosaci-demo-ca"));
  let ca_path := join temp_dir (chars "ca.pem") in
  d ← fs_write env ca_path (ca_cert_pem ca) ∅;
  let '(r, ca) := issue (le_random env 1) SUBJECT_SERVER ca in
  server_cert ← ok r;
  let server_cert_path := join temp_dir (chars "server.pem") in
  let server_key_path := join temp_dir (chars "server.key.pem") in
  d ← fs_write env server_cert_path (ic_cert_pem server_cert) d;
  d ← fs_write env server_key_path (ic_key_pem server_cert) d;
  '(agents, d) ← issue_agents env temp_dir (seqZ 0 FLEET) ca d;
  let enrollment_path := join temp_dir (chars "enrollment.txt") in
  d ← fs_write env enrollment_path (enrollment_file (le_now env)) d;
  let tenants_path := join temp_dir (chars "tenants.txt") in
  d ← fs_write env tenants_path (tenants_file (le_now env)) d;
  Some (mkCerts temp_dir ca_path server_cert_path server_key_path agents enrollment_path tenants_path, d).

(** The [format!] of the pipeline submission. *)
Definition pipeline_line (pcbor : list Z) (tenant_id nonce : Z) (pk_hex sig_hex : list Z) : list Z :=
  [123] ++ quoted (chars "pipeline_cbor_hex") ++ [58] ++ quoted pcbor ++
  [44] ++ quoted (chars "deadline_secs") ++ [58] ++ chars "60" ++
  [44] ++ quoted (chars "tenant_id") ++ [58] ++ show_u64 tenant_id ++
  [44] ++ quoted (chars "nonce") ++ [58] ++ show_u128 nonce ++
  [44] ++ quoted (chars "pubkey_hex") ++ [58] ++ quoted pk_hex ++
  [44] ++ quoted (chars "signature_hex") ++ [58] ++ quoted sig_hex ++ [125].

Definition legacy_payloads : list JobSubmissionPayload :=
  [mkJobSubmissionPayload DEMO_TENANT_ID "add" 1 2 60 161; mkJobSubmissionPayload DEMO_TENANT_ID "mul" 3 5 60 178].

(** The pipeline submission of a canned module; [None] when its payload does not
    encode, where the code panics. *)
Definition pipeline_submission (add_wasm : bytes) : option (list Z) :=
  let pipeline_cbor := cbor_bytes (cb_pipeline (canned_pipeline add_wasm 10 20)) in
  bytes ← canonical_bytes_pipeline (mkPipelineSubmissionPayload DEMO_TENANT_ID pipeline_cbor 60 195);
  let sig := sig_to_bytes (sign demo_tenant_kp bytes) in
  Some (pipeline_line (lower_hex pipeline_cbor) DEMO_TENANT_ID 195
    (lower_hex (vk_to_bytes (verifying_key demo_tenant_kp))) (lower_hex sig)).

(** What is piped to the coordinator, line by line. *)
Definition stdin_lines (add_wasm : bytes) : option (list (list Z)) :=
  legacy ← mapM (λ payload, sign_and_serialize payload demo_tenant_kp) legacy_payloads;
  last ← pipeline_submission add_wasm;
  Some (legacy ++ [last]).

End launcher.

(** ** What it prepares *)

(** serde_json reads the pipeline submission member by member. *)
Class PipelineLineLaws `{SubmissionWire} := {
  json_reads_pipeline_line pcbor tid nonce pk sg :
    uint 64 tid → uint 128 nonce → hex_text pcbor → hex_text pk → hex_text sg → pcbor ≠ [] → pk ≠ [] → sg ≠ [] →
    let line := pipeline_line pcbor tid nonce pk sg in
    json_has_pipeline line = Some true ∧
    json_pipeline line = Some (mkPipelineJobSubmission pcbor 60 (Some tid) (Some nonce) (Some pk) (Some sg));
}.

Section files.
Context `{Sha256Bytes} `{Ed25519} `{Schnorrkel} `{Rcgen}.

Definition agent_record (now i : Z) : EnrolledRecord :=
  let a := agent_of_id i 0 in
  mkEnrolledRecord i (fingerprint (vk_to_bytes (verifying_key (ag_signing a)))) (fingerprint (public_key_bytes (ag_vrf a)))
    now 1000.

Lemma agent_line_ok now i : uint 64 i → - 2 ^ 63 <= now < 2 ^ 63 → line_of (agent_record now i) (agent_line now i).
Proof.
  intros Hi Hnow. unfold agent_record, agent_line. cbv zeta.
  assert (Hone : parse_f32 (chars "1.0") = Some f32_one) by (vm_compute; reflexivity).
  replace 1000 with (to_milli f32_one) by (vm_compute; reflexivity).
  apply enrollment_text_ok; [done|apply sha256_bytes|apply sha256_bytes|done|by_decide|done|vm_compute; reflexivity].
Qed.

(** A file of lines that are records, after a comment. *)
Lemma commented_records header (rs : list EnrolledRecord) (ls : list (list Z)) :
  Forall (λ c, c ≠ 10) header → Enrollment.skipped (trim header) = true → Forall2 line_of rs ls →
  Enrollment.parse (header ++ [10] ++ concat ((λ l, l ++ [10]) <$> ls)) = Ok (insert_all rs Enrollment.new).
Proof.
  intros Hh Hsk Hls. apply records_parse.
  change (header ++ [10] ++ concat ((λ l, l ++ [10]) <$> ls)) with
    (header ++ 10 :: concat ((λ l, l ++ [10]) <$> ls)).
  rewrite cons_middle, app_assoc. change ((header ++ [10]) ++ concat ((λ l, l ++ [10]) <$> ls)) with
    (concat ((λ l, l ++ [10]) <$> header :: ls)).
  rewrite (file_records_ext _ (header :: ls)).
  - cbn [file_records]. rewrite Hsk. induction Hls as [|r l rs ls (_ & Ht & Hs & Hp) Hls IH]; [done|].
    cbn [file_records]. by rewrite Ht, Hs, Hp, IH.
  - apply trim_kept_lines. constructor; [done|]. clear Hsk. induction Hls as [|r l rs ls (Hn & _) Hls IH]; by constructor.
Qed.

Lemma enrollment_file_loads now :
  - 2 ^ 63 <= now < 2 ^ 63 →
  ∃ set, Enrollment.parse (enrollment_file now) = Ok set ∧
    ∀ i stake, i ∈ seqZ 0 FLEET → may_register (Some set) (agent_of_id i stake).
Proof.
  intros Hnow. exists (insert_all (agent_record now <$> seqZ 0 FLEET) Enrollment.new). split.
  - unfold enrollment_file.
    change (λ i, agent_line now i ++ [10]) with ((λ l, l ++ [10]) ∘ agent_line now). rewrite list_fmap_compose.
    apply commented_records; [by_decide|reflexivity|].
    apply Forall2_fmap, Forall_Forall2_diag, Forall_forall. intros i Hi%elem_of_seqZ. apply agent_line_ok; [|done].
    unfold FLEET, uint in *. lia.
  - intros i stake Hi%elem_of_seqZ. unfold FLEET in Hi.
    assert (i = 0 ∨ i = 1 ∨ i = 2 ∨ i = 3 ∨ i = 4) as Hcases by lia.
    destruct Hcases as [-> |[-> |[-> |[-> | ->]]]]; cbn [may_register]; unfold is_enrolled;
      (match goal with |- context [records ?s !! ?k] =>
         let r := constr:(Some (agent_record now k)) in replace (records s !! k) with r by reflexivity end);
      by rewrite !bool_decide_true.
Qed.

Lemma two_lines (a b : list Z) : concat ((λ l, l ++ [10]) <$> [a; b]) = a ++ [10] ++ b ++ [10].
Proof. change (concat ((λ l, l ++ [10]) <$> [a; b])) with ((a ++ [10]) ++ (b ++ [10]) ++ []). by rewrite app_nil_r, <-app_assoc. Qed.

Definition tenant_record (now : Z) : TenantRecord :=
  mkTenantRecord DEMO_TENANT_ID (fingerprint (vk_to_bytes (verifying_key demo_tenant_kp))) 100 10 now.

Lemma tenants_file_loads now :
  0 <= now < 2 ^ 63 → Tenant.load (tenants_file now) = Ok (mkTenantRegistry {[DEMO_TENANT_ID := tenant_record now]}).
Proof.
  intros Hnow.
  assert (Hwf : tenant_wf (tenant_record now)).
  { unfold tenant_wf, tenant_record, uint. cbn. split_and!; try lia; [done|done|apply sha256_bytes]. }
  assert (Hline : join_space [show_u64 DEMO_TENANT_ID;
    Enrollment.fingerprint_hex (fingerprint (vk_to_bytes (verifying_key demo_tenant_kp)));
    chars "100"; chars "10"; show_i64 now] = tenant_line (tenant_record now)).
  { unfold show_i64. rewrite (proj2 (Z.ltb_ge now 0)) by lia.
    rewrite fingerprint_hex_encode by apply sha256_bytes. reflexivity. }
  unfold tenants_file. rewrite Hline. unfold Tenant.load.
  rewrite (Tenant.load_lines_ext 0 _ [chars "# CosaCI demo tenant registry"; tenant_line (tenant_record now)]).
  - destruct (tenant_line_trim (tenant_record now)) as [Ht Hs]. cbn [Tenant.load_lines].
    replace (Tenant.skipped (trim (chars "# CosaCI demo tenant registry"))) with true by reflexivity.
    by rewrite Ht, Hs, parse_tenant_line by done.
  - rewrite <-two_lines. apply trim_kept_lines. constructor; [by_decide|]. constructor; [|constructor].
    eapply Forall_impl; [by apply tenant_line_visible|]. cbn. lia.
Qed.

End files.

(** * The certificates *)

Section certificates.
Context `{Sha256} `{Ed25519} `{Schnorrkel} `{Rcgen} `{SubmissionCbor} `{CborBytes}.

#[local] Instance join_inj dir : Inj (=) (=) (join dir).
Proof. intros x y. unfold join. case_decide; intros Hxy; simplify_list_eq; done. Qed.

Lemma fs_write_ok env path text d d' : fs_write env path text d = Some d' → d' = <[path := text]> d.
Proof. unfold fs_write. destruct (le_write env path); by intros [= <-]. Qed.

(** A certificate the authority signed for a key. *)
Definition signed_cert (iss : Issuer) (der : bytes) (k : RcKeyPair) : Prop :=
  ∃ subject serial, rc_signed_by subject serial k iss = Ok der.

Lemma issue_signed random subject ca r ca' c :
  issue random subject ca = (r, ca') → ok r = Some c →
  ca_issuer ca' = ca_issuer ca ∧
  ∃ k, (∃ serial, rc_signed_by subject serial k (ca_issuer ca) = Ok (ic_cert_der c)) ∧
    ic_cert_pem c = rc_cert_pem (ic_cert_der c) ∧ ic_key_pem c = rc_serialize_pem k.
Proof.
  unfold issue. destruct (rc_generate random) as [k|]; [|by intros [= <- <-]].
  destruct (rc_params_new [subject]); [|by intros [= <- <-]].
  destruct (rc_signed_by subject _ k _) as [der|] eqn:Es; [|by intros [= <- <-]].
  intros [= <- <-] [= <-]. split; [done|]. exists k. split_and!; try done. by exists (ca_next_serial ca).
Qed.

(** At the two paths lie a certificate of the authority and its key. *)
Definition stored_cert (d : disk) (iss : Issuer) (cert_path key_path : list Z) (der : bytes) (k : RcKeyPair) : Prop :=
  signed_cert iss der k ∧ d !! cert_path = Some (rc_cert_pem der) ∧ d !! key_path = Some (rc_serialize_pem k).

Definition agent_names (ids : list Z) : list (list Z) := ids ≫= λ i, [cert_name i; key_name i].

Lemma issue_agents_ok env t ids ca d paths d' :
  issue_agents env t ids ca d = Some (paths, d') → NoDup (agent_names ids) →
  paths = (λ i, (join t (cert_name i), join t (key_name i))) <$> ids ∧
  (∀ name, name ∉ agent_names ids → d' !! join t name = d !! join t name) ∧
  ∀ i, i ∈ ids → ∃ der k, stored_cert d' (ca_issuer ca) (join t (cert_name i)) (join t (key_name i)) der k.
Proof.
  revert ca d paths. induction ids as [|i ids IH]; intros ca d paths; cbn [issue_agents].
  { intros [= <- <-] _. split_and!; [done|done|]. by intros i ?%not_elem_of_nil. }
  destruct (issue _ _ ca) as [r ca'] eqn:Ei. destruct (ok r) as [c|] eqn:Er; [|done]. cbn [mbind option_bind].
  destruct (issue_signed _ _ _ _ _ _ Ei Er) as (Hiss & k & [serial Hs] & Hc & Hk).
  destruct (fs_write env (join t (cert_name i)) (ic_cert_pem c) d) as [d1|] eqn:E1; [|done]. cbn [mbind option_bind].
  destruct (fs_write env (join t (key_name i)) (ic_key_pem c) d1) as [d2|] eqn:E2; [|done]. cbn [mbind option_bind].
  destruct (issue_agents env t ids ca' d2) as [[rest d3]|] eqn:E3; [|done]. cbn [mbind option_bind]. intros [= <- <-].
  change (agent_names (i :: ids)) with (cert_name i :: key_name i :: agent_names ids).
  rewrite !NoDup_cons, not_elem_of_cons. intros ((Hck & Hcr) & Hkr & Hnd).
  apply fs_write_ok in E1, E2. destruct (IH _ _ _ E3 Hnd) as (-> & Hframe & Hall). split; [done|]. split.
  - intros name Hname. rewrite !not_elem_of_cons in Hname. destruct Hname as (Hn1 & Hn2 & Hn). rewrite Hframe by done.
    subst d2 d1. by rewrite !lookup_insert_ne by by intros ?%(inj (join t)).
  - intros j [-> |Hj]%elem_of_cons; [|rewrite <-Hiss; by apply Hall]. exists (ic_cert_der c), k. split; [by exists (chars "agent-" ++ show_u64 i), serial|].
    rewrite !Hframe by done. subst d2 d1. split; [|by rewrite lookup_insert_eq, Hk].
    by rewrite lookup_insert_ne, lookup_insert_eq, Hc by by intros ?%(inj (join t)).
Qed.

Definition temp_dir_of (env : launch_env) : list Z :=
  join (le_temp env) (chars "cosaci-demo-" ++ show_u64 (le_pid env)).

(** Everything [generate_certs] leaves behind. *)
Lemma generate_certs_ok env certs d :
  generate_certs env = Some (certs, d) →
  let t := temp_dir_of env in
  certs = mkCerts t (join t (chars "ca.pem")) (join t (chars "server.pem")) (join t (chars "server.key.pem"))
    ((λ i, (join t (cert_name i), join t (key_name i))) <$> seqZ 0 FLEET)
    (join t (chars "enrollment.txt")) (join t (chars "tenants.txt")) ∧
  d !! ct_enrollment certs = Some (enrollment_file (le_now env)) ∧
  d !! ct_tenants certs = Some (tenants_file (le_now env)) ∧
  ∃ name key ca, rc_self_signed name key = Ok ca ∧ d !! ct_ca certs = Some (rc_cert_pem ca) ∧
    (∃ der k serial, rc_signed_by SUBJECT_SERVER serial k (rc_issuer_new name key) = Ok der ∧
       stored_cert d (rc_issuer_new name key) (ct_server_cert certs) (ct_server_key certs) der k) ∧
    ∀ i, i ∈ seqZ 0 FLEET → ∃ der k,
      stored_cert d (rc_issuer_new name key) (join t (cert_name i)) (join t (key_name i)) der k.
Proof.
  unfold generate_certs. fold (temp_dir_of env). generalize (temp_dir_of env). intros t. unfold generate.
  destruct (rc_generate (le_random env 0)) as [key|]; [|done]. destruct (rc_params_new []) as [[]|]; [|done].
  destruct (rc_self_signed _ key) as [ca|] eqn:Hself; [|done]. cbn [ok mbind option_bind ca_cert_pem].
  destruct (fs_write _ _ (rc_cert_pem ca) _) as [d1|] eqn:E1; [|done]. cbn [mbind option_bind].
  destruct (issue _ _ _) as [r ca'] eqn:Ei. destruct (ok r) as [c|] eqn:Er; [|done]. cbn [mbind option_bind].
  destruct (issue_signed _ _ _ _ _ _ Ei Er) as (Hiss & k & [serial Hs] & Hc & Hk). cbn [ca_issuer] in Hiss, Hs.
  destruct (fs_write _ _ (ic_cert_pem c) d1) as [d2|] eqn:E2; [|done]. cbn [mbind option_bind].
  destruct (fs_write _ _ (ic_key_pem c) d2) as [d3|] eqn:E3; [|done]. cbn [mbind option_bind].
  destruct (issue_agents env t (seqZ 0 FLEET) ca' d3) as [[agents d4]|] eqn:E4; [|done]. cbn [mbind option_bind].
  destruct (fs_write _ _ (enrollment_file _) d4) as [d5|] eqn:E5; [|done]. cbn [mbind option_bind].
  destruct (fs_write _ _ (tenants_file _) d5) as [d6|] eqn:E6; [|done]. cbn [mbind option_bind]. intros [= <- <-].
  destruct (issue_agents_ok _ _ _ _ _ _ _ E4) as (-> & Hframe & Hall); [by_decide|].
  apply fs_write_ok in E1, E2, E3, E5, E6.
  cbn [ct_enrollment ct_tenants ct_ca ct_server_cert ct_server_key]. cbv zeta. split; [done|].
  assert (Hne : ∀ x y, x ≠ y → join t x ≠ join t y) by (by intros x y Hxy ?%(inj (join t))).
  assert (Hlook : ∀ name, name ≠ chars "enrollment.txt" → name ≠ chars "tenants.txt" → d6 !! join t name = d4 !! join t name).
  { intros name Hn1 Hn2. subst d6 d5. by rewrite !lookup_insert_ne by by apply Hne. }
  split; [subst d6 d5; rewrite lookup_insert_ne by (apply Hne; by_decide); by rewrite lookup_insert_eq|].
  split; [subst d6; by rewrite lookup_insert_eq|].
  exists (chars "cosaci-demo-ca"), key, ca. split; [done|].
  split; [|split].
  - rewrite Hlook by by_decide. rewrite Hframe by by_decide. subst d3 d2 d1.
    rewrite !lookup_insert_ne by (apply Hne; by_decide). by rewrite lookup_insert_eq.
  - exists (ic_cert_der c), k, serial. split; [done|]. split; [by exists SUBJECT_SERVER, serial|]. rewrite !Hlook by by_decide. rewrite !Hframe by by_decide. subst d3 d2.
    split; [|by rewrite lookup_insert_eq, Hk].
    rewrite lookup_insert_ne by (apply Hne; by_decide). by rewrite lookup_insert_eq, Hc.
  - intros i Hi. destruct (Hall i Hi) as (der & k' & Hsg & Hcert & Hkey). exists der, k'.
    rewrite <-Hiss. split; [done|].
    assert (Hnames : ∀ name, name ∈ agent_names (seqZ 0 FLEET) → name ≠ chars "enrollment.txt" ∧ name ≠ chars "tenants.txt").
    { apply Forall_forall. by_decide. }
    rewrite !Hlook; [done|..]; apply Hnames; apply list_elem_of_bind; exists i; (split; [|done]);
      first [by left|right; by left].
Qed.

End certificates.

(** * The flags *)

(** The launcher's addresses and its three rounds. *)
Definition ADDR_BOUNDED : list Z := chars "127.0.0.1:7879".
Definition ADDR_SIGTERM : list Z := chars "127.0.0.1:7880".
Definition READ_ADDR_BOUNDED : list Z := chars "127.0.0.1:7881".
Definition ADDR_SUBMIT_STDIN : list Z := chars "127.0.0.1:7882".

Definition rounds : list (list Z * RoundKind) :=
  [(ADDR_BOUNDED, RoundKind_Bounded (Some READ_ADDR_BOUNDED)); (ADDR_SIGTERM, RoundKind_Sigterm);
   (ADDR_SUBMIT_STDIN, RoundKind_SubmitStdin)].

(** What the coordinator reads from its flags. *)
Definition round_args (certs : Certs) (addr : list Z) (kind : RoundKind) : Process.coord_args :=
  let args max_jobs read_addr journal submit_stdin queue_cap tenants :=
    mkCoordArgs addr (ct_ca certs) (ct_server_cert certs) (ct_server_key certs) [] 5 3 21 21 max_jobs 30 [] read_addr []
      (ct_enrollment certs) journal (S754_finite false 8388608 (-25)) submit_stdin queue_cap 1 tenants [] [] in
  match kind with
  | RoundKind_Bounded read_addr =>
      args 3 (default [] read_addr) (join (ct_temp_dir certs) (chars "journal.ndjson")) false 64 []
  | RoundKind_Sigterm => args u64_max [] [] false 64 []
  | RoundKind_SubmitStdin => args u64_max [] [] true 8 (ct_tenants certs)
  end.

Lemma arg_at_hit flag v args : arg_at (flag :: v :: args) flag = Some v.
Proof. cbn [arg_at]. by rewrite decide_True. Qed.

Lemma arg_at_skip a args flag : a ≠ flag → arg_at (a :: args) flag = arg_at args flag.
Proof. intros Ha. cbn [arg_at]. by rewrite decide_False. Qed.

(** A path with a slash is no flag. *)
Lemma slash_no_flag (v flag : list Z) : 47 ∈ v → 47 ∉ flag → v ≠ flag.
Proof. by intros Hv Hf ->. Qed.

Lemma join_slash t name : t ≠ [] → last t ≠ Some 47 → 47 ∈ join t name.
Proof. intros Hne Hl. unfold join. rewrite decide_False by tauto. apply elem_of_app. right. by left. Qed.

Lemma flag_absent (flag : list Z) args : Forall (λ a, a ≠ flag) args → bool_decide (flag ∈ args) = false.
Proof. intros Hall. apply bool_decide_false. intros Hin. rewrite Forall_forall in Hall. by eapply Hall. Qed.

(** Looks a flag up among flags and values. *)
Ltac no_flag := first [by_decide|apply slash_no_flag; [assumption|by_decide]].

Ltac find_arg :=
  unfold arg_or; repeat first [rewrite arg_at_hit|rewrite arg_at_skip by no_flag];
  cbn [arg_at default from_option id]; reflexivity.

Ltac find_args args := repeat
  match goal with
  | |- context [arg_or args ?f ?d] =>
      let Hv := fresh in let v := open_constr:(_) in
      assert (Hv : arg_or args f d = v) by (subst args; find_arg); rewrite Hv; clear Hv
  end.

Lemma coord_args_parse bin certs addr kind :
  47 ∈ bin → ct_temp_dir certs ≠ [] → last (ct_temp_dir certs) ≠ Some 47 →
  Forall (λ p, 47 ∈ p) [ct_ca certs; ct_server_cert certs; ct_server_key certs; ct_enrollment certs; ct_tenants certs] →
  (addr, kind) ∈ rounds → parse_args (bin :: coord_args certs addr kind) = Some (round_args certs addr kind).
Proof.
  intros Hbin Hne Hl. rewrite !Forall_cons. intros (Hca & Hcert & Hkey & Hen & Hten & _).
  pose proof (join_slash _ (chars "journal.ndjson") Hne Hl) as Hj.
  assert (Hf32 : parse_f32 (chars "0.25") = Some (S754_finite false 8388608 (-25))) by (vm_compute; reflexivity).
  unfold parse_args, rounds. rewrite !elem_of_cons, elem_of_nil.
  intros [[= -> ->]|[[= -> ->]|[[= -> ->]|[]]]]; unfold coord_args; cbn [app];
    (match goal with |- context [arg_or ?l "--fleet"] => set (args := l) end);
    find_args args; rewrite Hf32.
  - rewrite flag_absent by (subst args; repeat constructor; no_flag). reflexivity.
  - rewrite flag_absent by (subst args; repeat constructor; no_flag). reflexivity.
  - rewrite bool_decide_true by (subst args; repeat first [by left|right]). reflexivity.
Qed.

Lemma agent_args_parse bin certs addr n cert key kind :
  47 ∈ bin → 47 ∈ ct_ca certs → 47 ∈ cert → 47 ∈ key → (addr, kind) ∈ rounds → (n < 5)%nat →
  ct_agents certs !! n = Some (cert, key) →
  let args := bin :: agent_args certs addr n in
  arg_or args "--id" "0" = show_u64 (Z.of_nat n) ∧ arg_or args "--stake" "100" = chars "100" ∧
  arg_or args "--ca" "ca.pem" = ct_ca certs ∧ arg_or args "--cert" "agent.pem" = cert ∧
  arg_or args "--key" "agent.key.pem" = key ∧ arg_or args "--addr" "127.0.0.1:7878" = addr ∧
  arg_or args "--server-name" "cosaci.local" = SUBJECT_SERVER.
Proof.
  intros Hbin Hca Hc Hk Hround Hid Hlk. unfold agent_args. rewrite Hlk. cbn [default from_option id].
  assert (Haddr : addr = ADDR_BOUNDED ∨ addr = ADDR_SIGTERM ∨ addr = ADDR_SUBMIT_STDIN).
  { unfold rounds in Hround. rewrite !elem_of_cons, elem_of_nil in Hround. by destruct Hround as [[= -> _]|[[= -> _]|[[= -> _]|[]]]]; auto. }
  do 5 (destruct n as [|n]; [by destruct Haddr as [-> |[-> | ->]]; cbv zeta; split_and!; find_arg|]). lia.
Qed.

Lemma join_last dir name : name ≠ [] → last (join dir name) = last name.
Proof.
  intros Hne. assert (Hl : ∀ l, last (l ++ name) = last name).
  { intros l. rewrite last_app. destruct (last name) eqn:El; [done|]. by apply last_None in El. }
  unfold join. case_decide; [apply Hl|]. rewrite cons_middle, app_assoc. apply Hl.
Qed.

Lemma temp_dir_open env : temp_dir_of env ≠ [] ∧ last (temp_dir_of env) ≠ Some 47.
Proof.
  assert (Hl : last (temp_dir_of env) = last (show_u64 (le_pid env))).
  { unfold temp_dir_of. rewrite join_last by done. rewrite last_app. destruct (last (show_u64 _)) eqn:El; [done|].
    apply last_None in El. by apply show_u64_nonempty in El. }
  assert (Hs : ∃ c, last (show_u64 (le_pid env)) = Some c ∧ is_digit c = true).
  { destruct (last (show_u64 (le_pid env))) as [c|] eqn:El.
    - exists c. split; [done|]. pose proof (show_digits_digits 20 (le_pid env)) as Hd. rewrite Forall_forall in Hd.
      apply Hd. by apply last_Some_elem_of in El.
    - apply last_None in El. by apply show_u64_nonempty in El. }
  destruct Hs as (c & Hc & Hd). rewrite Hc in Hl. split; [intros Ht; by rewrite Ht in Hl|].
  rewrite Hl. intros [= ->]. done.
Qed.

(** * The fleet forms *)

(** PEM keeps what rcgen writes; a root store takes a self-signed certificate;
    a verifier needs a root; a certificate fits the key it was signed for. *)
Class LaunchTls `{PemFile} `{Rcgen} `{Rustls} := {
  pem_reads_self name key ca : rc_self_signed name key = Ok ca → readable (pem_certs (as_bytes (rc_cert_pem ca))) = [ca];
  pem_reads_cert subject serial k iss der :
    rc_signed_by subject serial k iss = Ok der → readable (pem_certs (as_bytes (rc_cert_pem der))) = [der];
  pem_reads_key k : pem_private_key (as_bytes (rc_serialize_pem k)) = Ok (Some (PrivateKeyDer_Pkcs8 (rc_serialize_der k)));
  roots_take name key ca roots : rc_self_signed name key = Ok ca → is_ok (roots_add ca roots) = true;
  verifier_takes c roots roots' : roots_add c roots = Ok roots' → is_ok (verifier_build roots' []) = true;
  single_cert_takes v subject serial k iss der :
    rc_signed_by subject serial k iss = Ok der →
    is_ok (with_single_cert v [der] (PrivateKeyDer_Pkcs8 (rc_serialize_der k))) = true;
  client_cert_takes roots subject serial k iss der :
    rc_signed_by subject serial k iss = Ok der →
    is_ok (with_client_auth_cert roots [der] (PrivateKeyDer_Pkcs8 (rc_serialize_der k))) = true;
}.

(** The two ends of a connection: the chain each configuration presents, and
    whether a client that knows a server by a name accepts the chain the server
    presents. *)
Class TlsPeers `{Rustls} := {
  server_chain : ServerConfig → list bytes;
  client_chain : ClientConfig → list bytes;
  server_accepted : ClientConfig → list Z → list bytes → bool;
}.

(** ["cosaci.local"] is a DNS name; a configuration with a certificate serves
    for connections to a name and presents its chain; a client accepts a
    certificate of the root it trusts for the subject the certificate was
    signed for. *)
Class TlsPeersLaws `{Rcgen} `{X509} `{Rustls} `{!RustlsLaws} `{!TlsMachines} `{!TlsPeers} := {
  server_name_takes : is_ok (server_name_ok (chars "cosaci.local")) = true;
  client_new_takes roots chain key cfg name :
    with_client_auth_cert roots chain key = Ok cfg → is_ok (server_name_ok name) = true →
    is_ok (client_new cfg name) = true;
  server_new_takes v chain key cfg : with_single_cert v chain key = Ok cfg → is_ok (server_new cfg) = true;
  server_chain_single v chain key cfg : with_single_cert v chain key = Ok cfg → server_chain cfg = chain;
  client_chain_auth roots chain key cfg : with_client_auth_cert roots chain key = Ok cfg → client_chain cfg = chain;
  server_accepted_subject name key ca roots chain k cfg subject serial k' der :
    rc_self_signed name key = Ok ca → roots_certs roots = [ca] → with_client_auth_cert roots chain k = Ok cfg →
    rc_signed_by subject serial k' (rc_issuer_new name key) = Ok der → server_accepted cfg subject [der] = true;
}.

Section fleet.
Context `{Cbor} `{Sha256Bytes} `{!Ed25519} `{!Ed25519Laws} `{CborBytes} `{RsMerkle} `{JournalJson} `{CapturesCbor}.
Context `{Schnorrkel} `{!SchnorrkelLaws} `{SubmissionCbor} `{SubmissionWire} `{PemFile} `{Rcgen} `{X509} `{!RcgenLaws}.
Context `{Rustls} `{!RustlsLaws} `{!LaunchTls} `{!TlsMachines} `{!TlsPeers} `{!TlsPeersLaws}.

(** The files as the processes of the launcher find them. *)
Definition sees (fs : list Z → result bytes open_error) (d : disk) : Prop :=
  ∀ path text, d !! path = Some text → fs path = Ok (as_bytes text).

Lemma is_ok_ex {A E} (r : result A E) : is_ok r = true → ∃ a, r = Ok a.
Proof. destruct r as [a|e]; [|done]. eauto. Qed.

Section stored.
Context (fs : list Z → result bytes open_error) (d : disk) (Hfs : sees fs d).

Lemma stored_reads iss cert_path key_path der k :
  stored_cert d iss cert_path key_path der k →
  read_cert_chain fs cert_path = Ok [der] ∧ read_private_key fs key_path = Ok (PrivateKeyDer_Pkcs8 (rc_serialize_der k)).
Proof.
  intros ((subject & serial & Hs) & Hc & Hk). unfold read_cert_chain, read_private_key, open_file.
  rewrite (Hfs _ _ Hc), (Hfs _ _ Hk). cbn [map_err]. rewrite (pem_reads_cert _ _ _ _ _ Hs), pem_reads_key.
  cbn [map_err]. by rewrite bool_decide_false.
Qed.

Lemma stored_root name key ca path :
  rc_self_signed name key = Ok ca → d !! path = Some (rc_cert_pem ca) →
  read_cert_chain fs path = Ok [ca] ∧ ∃ roots, add_roots [ca] roots_empty = Ok roots ∧ roots_add ca roots_empty = Ok roots.
Proof.
  intros Hself Hd. unfold read_cert_chain, open_file. rewrite (Hfs _ _ Hd). cbn [map_err].
  rewrite (pem_reads_self _ _ _ Hself), bool_decide_false by done. split; [done|].
  destruct (is_ok_ex _ (roots_take _ _ _ roots_empty Hself)) as [roots Hr]. exists roots. split; [|done].
  cbn [add_roots]. by rewrite Hr.
Qed.

(** The server's configuration loads, presents the server's certificate and lets
    every certificate of the authority in. *)
Lemma stored_server name key ca ca_path cert_path key_path der k :
  rc_self_signed name key = Ok ca → d !! ca_path = Some (rc_cert_pem ca) →
  stored_cert d (rc_issuer_new name key) cert_path key_path der k →
  ∃ cfg, server_config_from_paths_with_crl fs ca_path cert_path key_path None = Ok cfg ∧
    server_chain cfg = [der] ∧ is_ok (server_new cfg) = true ∧
    ∀ der' k', signed_cert (rc_issuer_new name key) der' k' → client_accepted cfg [der'] = true.
Proof.
  intros Hself Hca Hst. destruct (stored_root _ _ _ _ Hself Hca) as (Hcas & roots & Hroots & Hadd).
  destruct (stored_reads _ _ _ _ _ Hst) as [Hc Hk]. destruct Hst as ((subject & serial & Hs) & _).
  destruct (is_ok_ex _ (verifier_takes _ _ _ Hadd)) as [v Hv].
  destruct (is_ok_ex _ (single_cert_takes v _ _ _ _ _ Hs)) as [cfg Hcfg]. exists cfg. split_and!.
  - unfold server_config_from_paths_with_crl. rewrite Hcas. cbn [map_err]. rewrite Hroots, Hc. cbn [map_err].
    rewrite Hk. cbn [map_err]. rewrite Hv. cbn [map_err]. by rewrite Hcfg.
  - by eapply server_chain_single.
  - by eapply server_new_takes.
  - intros der' k' (subject' & serial' & Hs').
    rewrite (accepted_spec roots [] v _ _ cfg ca der' Hv Hcfg).
    + by destruct (signed_by_issued _ _ _ _ _ _ _ Hself Hs') as [-> _].
    + by rewrite (roots_certs_add _ _ _ Hadd), roots_certs_empty.
Qed.

(** The configuration of an agent loads, presents the agent's certificate, and
    accepts a certificate of the authority under its subject. *)
Lemma stored_client name key ca ca_path cert_path key_path der k :
  rc_self_signed name key = Ok ca → d !! ca_path = Some (rc_cert_pem ca) →
  stored_cert d (rc_issuer_new name key) cert_path key_path der k →
  ∃ cfg, client_config_from_paths fs ca_path cert_path key_path = Ok cfg ∧ client_chain cfg = [der] ∧
    (∀ sname, is_ok (server_name_ok sname) = true → is_ok (client_new cfg sname) = true) ∧
    ∀ subject serial k' der', rc_signed_by subject serial k' (rc_issuer_new name key) = Ok der' →
      server_accepted cfg subject [der'] = true.
Proof.
  intros Hself Hca Hst. destruct (stored_root _ _ _ _ Hself Hca) as (Hcas & roots & Hroots & Hadd).
  destruct (stored_reads _ _ _ _ _ Hst) as [Hc Hk]. destruct Hst as ((subject & serial & Hs) & _).
  destruct (is_ok_ex _ (client_cert_takes roots _ _ _ _ _ Hs)) as [cfg Hcfg]. exists cfg. split_and!.
  - unfold client_config_from_paths. rewrite Hcas. cbn [map_err]. rewrite Hroots, Hc. cbn [map_err].
    rewrite Hk. cbn [map_err]. by rewrite Hcfg.
  - by eapply client_chain_auth.
  - intros sname. by eapply client_new_takes.
  - intros subject' serial' k' der' Hs'. eapply server_accepted_subject; [done| |exact Hcfg|exact Hs'].
    by rewrite (roots_certs_add _ _ _ Hadd), roots_certs_empty.
Qed.

End stored.

(** ** The agents *)

(** What listens at an address: the coordinator with these flags, at the address
    it binds, with the configuration it builds. *)
Definition coordinator_at (env : start_env) (argv : list (list Z)) (addr : list Z) : option ServerConfig :=
  a ← parse_args argv;
  cfg ← ok (build_server_config (se_pem env) a);
  if se_bind env (ca_addr a) && bool_decide (addr = ca_addr a) then Some cfg else None.

(** The stream of a peer that has broken the handshake off: every read fails. *)
Definition hung_up (s : stream) : stream := mkStream (λ _ _, Err WireError_Io) (st_reads s) (st_out s) (st_writes s).

(** The agent process up to its connection, as the server sees it: the flags and
    the client configuration, [TcpStream::connect] to what [net] has at the
    address, [ServerName::try_from] and [ClientConnection::new]. The handshake
    runs in the agent's first write: it presents the chain of its configuration,
    and goes on only if it accepts the chain of the server under the name it was
    given. *)
Definition agent_connects (fs : list Z → result bytes open_error) (net : list Z → option ServerConfig)
    (args : list (list Z)) (envs : nat → agent_env) : option net_event :=
  a ← agent_of_args args;
  let server_name := arg_or args "--server-name" "cosaci.local" in
  client_cfg ← ok (client_config_from_paths fs (arg_or args "--ca" "ca.pem") (arg_or args "--cert" "agent.pem")
                     (arg_or args "--key" "agent.key.pem"));
  server_cfg ← net (arg_or args "--addr" "127.0.0.1:7878");
  _ ← ok (server_name_ok server_name);
  _ ← ok (client_new client_cfg server_name);
  let stream := connection envs a in
  Some (Net_conn (mkClientConn (is_ok (server_new server_cfg)) (client_chain client_cfg)
    (if server_accepted client_cfg server_name (server_chain server_cfg) then stream else hung_up stream))).

(** The agents of a fleet with what they see, in the order they connect. *)
Definition launched (order : list (nat * (nat → agent_env))) : list (agent * (nat → agent_env)) :=
  (λ p, (agent_of_id (Z.of_nat p.1) 100, p.2)) <$> order.

(** A connection with a certificate of the authority. *)
Definition comes_in (iss : Issuer) (p : agent * (nat → agent_env)) (ev : net_event) : Prop :=
  ∃ der k, signed_cert iss der k ∧ ev = Net_conn (mkClientConn true [der] (connection p.2 p.1)).

Lemma listener_accepts a cfg iss fleet evs :
  (∀ der k, signed_cert iss der k → client_accepted cfg [der] = true) → Forall2 (comes_in iss) fleet evs →
  fleet_listener a cfg evs = (λ p, Accept_conn true (connection p.2 p.1)) <$> fleet.
Proof.
  intros Hacc. induction 1 as [|p ev fleet evs (der & k & Hs & ->) Hall IH]; [done|].
  cbn [fleet_listener cn_tls_ok]. rewrite IH. csimpl. f_equal. unfold tls_stream. cbn [cn_chain cn_stream].
  by rewrite (Hacc _ _ Hs).
Qed.

Lemma connections_quiet a iss fleet evs cfg auth fs tenants :
  Forall2 (comes_in iss) fleet evs → after_signals a evs cfg auth fs tenants = (cfg, auth, fs, tenants).
Proof. unfold after_signals. induction 1 as [|p ev fleet evs (der & k & Hs & ->) Hall IH]; [done|exact IH]. Qed.

(** What an agent finds: the files of the launcher, and at the round's address a
    server with the certificate of the launcher. *)
Record reachable (env : launch_env) (certs : Certs) (d : disk) (net : list Z → option ServerConfig)
    (addr name : list Z) (key : RcKeyPair) : Prop := mkReachable {
  rb_certs : generate_certs env = Some (certs, d);
  rb_root : ∃ ca, rc_self_signed name key = Ok ca ∧ d !! ct_ca certs = Some (rc_cert_pem ca);
  rb_agents : ∀ i, i ∈ seqZ 0 FLEET → ∃ der k, stored_cert d (rc_issuer_new name key)
    (join (temp_dir_of env) (cert_name i)) (join (temp_dir_of env) (key_name i)) der k;
  rb_server : ∃ cfg der serial k, net addr = Some cfg ∧ is_ok (server_new cfg) = true ∧ server_chain cfg = [der] ∧
    rc_signed_by SUBJECT_SERVER serial k (rc_issuer_new name key) = Ok der;
}.

Lemma agent_launched env certs d net fs bin addr kind n envs name key :
  reachable env certs d net addr name key → sees fs d → 47 ∈ bin → (addr, kind) ∈ rounds → (n < 5)%nat →
  ∃ ev, agent_connects fs net (bin :: agent_args certs addr n) envs = Some ev ∧
    comes_in (rc_issuer_new name key) (agent_of_id (Z.of_nat n) 100, envs) ev.
Proof.
  intros [Hgen (ca & Hself & Hca) Hagents (scfg & sder & sserial & sk & Hnet & Hsnew & Hschain & Hssigned)] Hfs Hbin Hround Hn.
  destruct (generate_certs_ok _ _ _ Hgen) as (Hcerts & _). cbv zeta in Hcerts.
  destruct (temp_dir_open env) as [Hne Hlast]. set (t := temp_dir_of env) in *.
  assert (Hlk : ct_agents certs !! n = Some (join t (cert_name (Z.of_nat n)), join t (key_name (Z.of_nat n)))).
  { rewrite Hcerts. cbn [ct_agents]. rewrite list_lookup_fmap.
    rewrite (lookup_seqZ_lt 0 FLEET n) by (unfold FLEET; lia). done. }
  destruct (agent_args_parse bin certs addr n _ _ kind Hbin ltac:(rewrite Hcerts; by apply join_slash)
    (join_slash _ _ Hne Hlast) (join_slash _ _ Hne Hlast) Hround Hn Hlk) as (Hid & Hstake & Hcap & Hcp & Hkp & Haddr & Hname).
  destruct (Hagents (Z.of_nat n)) as (der & k & Hst); [apply elem_of_seqZ; unfold FLEET; lia|].
  destruct (stored_client fs d Hfs _ _ _ _ _ _ _ _ Hself Hca Hst) as (cfg & Hcfg & Hchain & Hnew & Hacc).
  destruct (is_ok_ex _ server_name_takes) as [u Hsn].
  destruct (is_ok_ex _ (Hnew SUBJECT_SERVER ltac:(exact server_name_takes))) as [conn Hconn].
  unfold agent_connects, agent_of_args. cbv zeta in *. rewrite Hid, Hstake, Hcap, Hcp, Hkp, Haddr, Hname, Hcfg, Hnet.
  rewrite parse_show_u64 by (unfold uint; lia). replace (parse_u64 (chars "100")) with (Some 100) by reflexivity.
  cbn [mbind option_bind ok]. change (server_name_ok SUBJECT_SERVER = Ok u) in Hsn. rewrite Hsn. cbn [ok mbind option_bind].
  rewrite Hconn. cbn [ok mbind option_bind]. eexists. split; [done|]. exists der, k. split; [by destruct Hst|]. by rewrite Hsnew, Hchain, Hschain, (Hacc _ _ _ _ Hssigned).
Qed.

Lemma fleet_launched env certs d net fs bin addr kind order name key :
  reachable env certs d net addr name key → sees fs d → 47 ∈ bin → (addr, kind) ∈ rounds → order.*1 ≡ₚ seq 0 5 →
  ∃ evs, mapM (λ p, agent_connects fs net (bin :: agent_args certs addr p.1) p.2) order = Some evs ∧
    Forall2 (comes_in (rc_issuer_new name key)) (launched order) evs.
Proof.
  intros Hrb Hfs Hbin Hround Hord.
  assert (Hlt : Forall (λ p, (p.1 < 5)%nat) order).
  { apply Forall_forall. intros p Hp. assert (Hin : p.1 ∈ seq 0 5) by (rewrite <-Hord; by apply list_elem_of_fmap_2).
    apply elem_of_seq in Hin. lia. }
  clear Hord. induction Hlt as [|[n envs] order Hn Hlt (evs & Hm & Hall)]; [by exists []|].
  destruct (agent_launched env certs d net fs bin addr kind n envs name key Hrb Hfs Hbin Hround Hn) as (ev & Hev & Hin).
  exists (ev :: evs). split; [cbn [mapM fst snd]; rewrite Hev; cbn [mbind option_bind]; by rewrite Hm|by constructor].
Qed.

(** ** The coordinator *)

(** The text files, the sockets and the signals are there, the canned modules
    compile, and no journal is left from before. *)
Record ready (env : start_env) (certs : Certs) (d : disk) : Prop := mkReady {
  ry_pem : sees (se_pem env) d;
  ry_text : ∀ path text, d !! path = Some text → se_text env path = File_text text;
  ry_journal : se_journal env (join (ct_temp_dir certs) (chars "journal.ndjson")) = Ok None;
  ry_journal_open : se_journal_open env = true;
  ry_signals : se_signals_ok env = true;
  ry_sighup_ok : se_sighup_ok env = true;
  ry_bind : ∀ addr, se_bind env addr = true;
  ry_canned : is_Some (se_canned env);
}.

(** The auth state and the journal a round starts with. *)
Definition round_auth (now : Z) (kind : RoundKind) : option AuthState :=
  match kind with
  | RoundKind_SubmitStdin => Some (auth_start (mkTenantRegistry {[DEMO_TENANT_ID := tenant_record now]}))
  | _ => None
  end.

Definition round_journal (env : start_env) (kind : RoundKind) : option journal_file :=
  match kind with RoundKind_Bounded _ => Some (mkJournalFile [] (se_journal_ios env)) | _ => None end.

Lemma given_slash p : 47 ∈ p → given p = true.
Proof. intros Hp. unfold given. rewrite bool_decide_false; [done|]. intros ->. by apply not_elem_of_nil in Hp. Qed.

(** What [start] opens along the way. *)
Lemma round_opens lenv env certs d addr kind :
  generate_certs lenv = Some (certs, d) → 0 <= le_now lenv < 2 ^ 63 → ready env certs d → (addr, kind) ∈ rounds →
  let a := round_args certs addr kind in
  (∃ set, open_enrollment env a = Ok (Some set) ∧
     ∀ i stake, i ∈ seqZ 0 FLEET → may_register (Some set) (agent_of_id i stake)) ∧
  open_journal env a = Ok (round_journal env kind) ∧ open_auth env a = Ok (round_auth (le_now lenv) kind) ∧
  open_log env a = Ok (LogBackend_Mem MerkleLog.new) ∧ is_ok (start_read env a) = true ∧ start_admin env a = Ok None.
Proof.
  intros Hgen Hnow Hrd Hround.
  destruct (generate_certs_ok _ _ _ Hgen) as (Hcerts & Hen & Hten & _). destruct (temp_dir_open lenv) as [Hne Hlast].
  assert (Hene : given (ct_enrollment certs) = true) by (rewrite Hcerts; by apply given_slash, join_slash).
  assert (Htne : given (ct_tenants certs) = true) by (rewrite Hcerts; by apply given_slash, join_slash).
  assert (Hjne : given (join (ct_temp_dir certs) (chars "journal.ndjson")) = true)
    by (rewrite Hcerts; by apply given_slash, join_slash).
  destruct (enrollment_file_loads (le_now lenv)) as (set & Hset & Hmay); [lia|].
  assert (Hoe : ∀ a, ca_enrollment_path a = ct_enrollment certs → open_enrollment env a = Ok (Some set)).
  { intros a Ha. unfold open_enrollment. rewrite Ha, Hene, (ry_text _ _ _ Hrd _ _ Hen). unfold load_enrollment.
    cbn [read_to_string]. by rewrite Hset. }
  assert (Hoj : ∀ a, ca_journal_path a = join (ct_temp_dir certs) (chars "journal.ndjson") →
    open_journal env a = Ok (Some (mkJournalFile [] (se_journal_ios env)))).
  { intros a Ha. unfold open_journal. rewrite Ha, Hjne, (ry_journal _ _ _ Hrd). cbn.
    by rewrite (ry_journal_open _ _ _ Hrd). }
  assert (Hoa : ∀ a, ca_tenants_path a = ct_tenants certs → open_auth env a = Ok (round_auth (le_now lenv) RoundKind_SubmitStdin)).
  { intros a Ha. unfold open_auth. rewrite Ha, Htne, (ry_text _ _ _ Hrd _ _ Hten). unfold load_tenants. cbn [read_to_string].
    by rewrite tenants_file_loads. }
  unfold rounds in Hround. rewrite !elem_of_cons, elem_of_nil in Hround.
  destruct Hround as [[= -> ->]|[[= -> ->]|[[= -> ->]|[]]]]; cbv zeta;
    (split; [exists set; split; [by apply Hoe|exact Hmay]|]); (split; [|split; [|split; [reflexivity|split; [|reflexivity]]]]).
  - by apply Hoj.
  - reflexivity.
  - unfold start_read. cbn. by rewrite (ry_bind _ _ _ Hrd).
  - reflexivity.
  - reflexivity.
  - reflexivity.
  - reflexivity.
  - by apply Hoa.
  - reflexivity.
Qed.

(** The coordinator of a round as its agents find it. *)
Lemma round_reachable lenv certs d env coord_bin addr kind :
  generate_certs lenv = Some (certs, d) → ready env certs d → 47 ∈ coord_bin → (addr, kind) ∈ rounds →
  let a := round_args certs addr kind in
  parse_args (coord_bin :: coord_args certs addr kind) = Some a ∧
  ∃ cfg name key, build_server_config (se_pem env) a = Ok cfg ∧
    (∀ der k, signed_cert (rc_issuer_new name key) der k → client_accepted cfg [der] = true) ∧
    reachable lenv certs d (coordinator_at env (coord_bin :: coord_args certs addr kind)) addr name key.
Proof.
  intros Hgen Hrd Hcb Hround a.
  destruct (generate_certs_ok _ _ _ Hgen) as (Hcerts & _ & _ & name & key & ca & Hself & Hca & (der & k & serial & Hsig & Hsrv) & Hagents).
  destruct (temp_dir_open lenv) as [Hne Hlast].
  destruct (stored_server (se_pem env) d (ry_pem _ _ _ Hrd) _ _ _ _ _ _ _ _ Hself Hca Hsrv) as (cfg & Hcfg & Hchain & Hnew & Hacc).
  assert (Hargs : parse_args (coord_bin :: coord_args certs addr kind) = Some a).
  { apply coord_args_parse; [done|by rewrite Hcerts|by rewrite Hcerts| |done].
    rewrite Hcerts. repeat constructor; by apply join_slash. }
  assert (Hcfg' : build_server_config (se_pem env) a = Ok cfg).
  { unfold build_server_config. rewrite <-Hcfg. subst a. by destruct kind. }
  assert (Haddr : ca_addr a = addr) by by subst a; destruct kind.
  split; [done|]. exists cfg, name, key. split; [done|]. split; [done|]. split; [done|eauto|done|].
  exists cfg, der, serial, k. split; [|done]. unfold coordinator_at. rewrite Hargs. cbn [mbind option_bind].
  rewrite Hcfg'. cbn [ok mbind option_bind]. by rewrite Haddr, (ry_bind _ _ _ Hrd), bool_decide_true.
Qed.

(** C22: what the launcher generates fits together. In each of the three rounds,
    the agents, in whatever order they connect, read their flags and
    certificates, find the coordinator at the address they were given, know it
    by the name in its certificate and accept that certificate; and the
    coordinator starts from its own flags with exactly these five registered,
    each with the keys its binary derives and a stake of 100: their certificates
    are of the authority it trusts, the enrollment file lists their keys, and
    the tenant file opens the gate of the third round. *)
Theorem launcher_fleet_forms lenv certs d env coord_bin agent_bin addr kind order :
  generate_certs lenv = Some (certs, d) → 0 <= le_now lenv < 2 ^ 63 → ready env certs d →
  47 ∈ coord_bin → 47 ∈ agent_bin → (addr, kind) ∈ rounds → order.*1 ≡ₚ seq 0 5 →
  let argv := coord_bin :: coord_args certs addr kind in
  ∃ evs, mapM (λ p, agent_connects (se_pem env) (coordinator_at env argv) (agent_bin :: agent_args certs addr p.1) p.2)
           order = Some evs ∧
    (se_fleet env = evs → ∃ p agents,
       start env argv = Ok p ∧
       Forall2 (in_step []) (launched order) agents ∧
       ps_args p = round_args certs addr kind ∧
       ps_service p = service_start (ps_config p) agents (LogBackend_Mem MerkleLog.new) (round_journal env kind)
                        (se_captures env) (round_auth (le_now lenv) kind)).
Proof.
  intros Hgen Hnow Hrd Hcb Hab Hround Hord argv.
  destruct (round_reachable lenv certs d env coord_bin addr kind Hgen Hrd Hcb Hround)
    as (Hargs & cfg & name & key & Hcfg & Hacc & Hrb).
  destruct (fleet_launched lenv certs d _ (se_pem env) agent_bin addr kind order name key Hrb (ry_pem _ _ _ Hrd) Hab Hround Hord)
    as (evs & Hm & Hcome).
  exists evs. split; [exact Hm|]. intros Hfl.
  destruct (round_opens lenv env certs d addr kind Hgen Hnow Hrd Hround)
    as ((set & Hoe & Hmay) & Hoj & Hoa & Hol & Hread & Hadmin).
  set (a := round_args certs addr kind) in *.
  assert (Hfleet : ca_fleet a = 5) by by subst a; destruct kind.
  destruct (accept_in_step (Some set) (launched order) [] []) as (agents & Hag & Hin).
  { apply Forall_fmap, Forall_forall. intros [n e] Hp. apply Hmay, elem_of_seqZ.
    assert (Hin : n ∈ seq 0 5) by (rewrite <-Hord; by apply (list_elem_of_fmap_2 fst _ (n, e))).
    apply elem_of_seq in Hin. unfold FLEET. cbn. lia. }
  { constructor. }
  assert (Hlen : length (launched order) = 5%nat).
  { unfold launched. rewrite length_fmap, <-(length_fmap fst), Hord. done. }
  destruct (is_ok_ex _ Hread) as [rd Hrd']. destruct (ry_canned _ _ _ Hrd) as [canned Hcan].
  unfold start, argv. rewrite Hargs, Hoe, Hoj. unfold check_ok.
  rewrite (ry_signals _ _ _ Hrd), Hoa, Hcfg. cbn [map_err].
  rewrite (ry_sighup_ok _ _ _ Hrd), (ry_bind _ _ _ Hrd). unfold assemble. rewrite Hfl, (listener_accepts _ _ _ _ _ Hacc Hcome).
  rewrite Hfleet. replace (Z.to_nat 5) with (length (launched order) + length (@nil RegisteredAgent))%nat by (rewrite Hlen; done).
  rewrite Hag, Hcan, Hol, Hrd', Hadmin. rewrite (connections_quiet _ _ _ _ _ _ _ _ Hcome).
  eexists _, agents. split; [done|]. split; [exact Hin|]. split; done.
Qed.

End fleet.

(** * The submissions are taken *)

Section submissions.
Context `{Cbor} `{Sha256Bytes} `{!Ed25519} `{!Ed25519Laws} `{CborBytes} `{RsMerkle} `{JournalJson} `{CapturesCbor}.
Context `{Schnorrkel} `{SubmissionCbor} `{SubmissionWire} `{!SubmissionLineLaws} `{!PipelineLineLaws}.
Context (hash_order : gmap (list Z) Z → list (list Z * Z)) (md : overflow_mode).

Lemma pipeline_line_trim pcbor tid nonce pk sg :
  trim (pipeline_line pcbor tid nonce pk sg) = pipeline_line pcbor tid nonce pk sg.
Proof.
  apply trim_id; intros c.
  - by intros [= <-].
  - unfold pipeline_line. rewrite !app_assoc, last_snoc. by intros [= <-].
Qed.

Lemma parse_hex_bytes_roundtrip bs : Forall (uint 8) bs → parse_hex_bytes (lower_hex bs) = Some bs.
Proof.
  intros Hb. unfold parse_hex_bytes, str_len, lower_hex. assert (Hr := hex_encode_range bs Hb).
  rewrite as_bytes_ascii by (eapply Forall_impl; [exact Hr|]; simpl; lia).
  rewrite hex_encode_length. replace (Z.of_nat (2 * length bs) mod 2) with 0.
  - by apply hex_roundtrip; [apply hex_nibble_decodes|].
  - rewrite Nat2Z.inj_mul, Z.mul_comm, Z.mod_mul; lia.
Qed.

Definition demo_registry (now : Z) : TenantRegistry := mkTenantRegistry {[DEMO_TENANT_ID := tenant_record now]}.

(** ciborium reads the pipeline of the third submission back. *)
Definition pipeline_reads_back (add_wasm : bytes) : Prop :=
  let pipeline := canned_pipeline add_wasm 10 20 in
  let encoded := cbor_bytes (cb_pipeline pipeline) in
  encoded ≠ [] ∧ Forall (uint 8) encoded ∧ pipeline_from_reader encoded = Some pipeline.

(** The pipeline submission, as [key_signed_line] for the other two. *)
Lemma pipeline_submission_honest now cf line :
  pipeline_reads_back (cf_add_wasm cf) → pipeline_submission (cf_add_wasm cf) = Some line →
  honest_line cf (demo_registry now) DEMO_TENANT_ID line 195
    (mkRunSubmission (canned_pipeline (cf_add_wasm cf) 10 20) 60 SubmissionOrigin_Pipeline).
Proof.
  intros (Hne & Hbytes & Hread). unfold pipeline_submission. set (cb := cbor_bytes _) in *.
  destruct (canonical_bytes_pipeline _) as [enc|] eqn:Henc; [|done]. cbn [mbind option_bind]. intros [= <-].
  set (sg := sig_to_bytes (sign demo_tenant_kp enc)). set (pk := vk_to_bytes (verifying_key demo_tenant_kp)).
  assert (Hpk : byte_array 32 pk) by apply vk_to_bytes_wf. assert (Hsg : byte_array 64 sg) by apply sig_to_bytes_wf.
  destruct (lower_hex_text _ _ Hpk) as [Hph Hpne]. destruct (lower_hex_text _ _ Hsg) as [Hsh Hsne].
  assert (Hch : hex_text (lower_hex cb)) by by exists cb.
  assert (Hcne : lower_hex cb ≠ []).
  { intros Hnil. apply (f_equal length) in Hnil. unfold lower_hex in Hnil. rewrite hex_encode_length in Hnil.
    destruct cb; [done|]. cbn in Hnil. lia. }
  destruct (json_reads_pipeline_line _ DEMO_TENANT_ID 195 _ _ ltac:(done) ltac:(done) Hch Hph Hsh Hcne Hpne Hsne) as [Hp Hj].
  unfold honest_line. rewrite pipeline_line_trim. split; [done|]. split; [done|].
  eexists. split; [unfold parse_submission_line; rewrite Hp; cbn [mbind option_bind]; rewrite Hj; reflexivity|].
  cbn [resolve pj_pipeline_cbor_hex]. rewrite parse_hex_bytes_roundtrip by done. cbn [mbind option_bind]. rewrite Hread.
  split; [done|]. split; [done|]. exists DEMO_TENANT_ID, 195, (lower_hex pk), (lower_hex sg), pk, sg, cb, (tenant_record now).
  cbn [pj_tenant_id pj_nonce pj_pubkey_hex pj_signature_hex pj_pipeline_cbor_hex pj_deadline_secs].
  split_and!; try done; [by apply parse_hex32_roundtrip|by apply parse_hex64_roundtrip|by apply parse_hex_bytes_roundtrip|].
  split; [done|]. split; [done|]. exists enc, (verifying_key demo_tenant_kp).
  split_and!; [done|apply vk_from_to|]. unfold sg, sign. rewrite sig_from_to. apply verify_sign.
Qed.

Lemma legacy_submission_honest now cf k a b nonce line :
  int32 a → int32 b → uint 128 nonce →
  sign_and_serialize (mkJobSubmissionPayload DEMO_TENANT_ID (as_wire k) a b 60 nonce) demo_tenant_kp = Some line →
  honest_line cf (demo_registry now) DEMO_TENANT_ID line nonce
    (mkRunSubmission (canned_pipeline match k with JobKind_Add => cf_add_wasm cf | JobKind_Mul => cf_mul_wasm cf end a b)
       60 SubmissionOrigin_Legacy).
Proof.
  intros Ha Hb Hn Hs.
  destruct (key_signed_line demo_tenant_kp k a b 60 DEMO_TENANT_ID nonce line Ha Hb ltac:(done) ltac:(done) Hn Hs)
    as (l & Hp & Hk & Hla & Hlb & Hds & Ht & Hno & Hsig).
  unfold sign_and_serialize in Hs. destruct (canonical_bytes _) as [enc|]; [|done]. cbn [mbind option_bind] in Hs.
  injection Hs as <-. rewrite submission_line_trim in Hp. unfold honest_line. rewrite submission_line_trim.
  split; [done|]. split; [done|]. exists (JobSubmission_Legacy l). split; [done|].
  split; [cbn [resolve]; by rewrite Hk, Hla, Hlb, Hds|]. split; [cbn [sub_id]; by rewrite Ht, Hno|].
  by apply (Hsig _ (tenant_record now)).
Qed.

(** What the third round asks for. *)
Definition demo_jobs (cf : config) : list (Z * RunSubmission) :=
  [(161, mkRunSubmission (canned_pipeline (cf_add_wasm cf) 1 2) 60 SubmissionOrigin_Legacy);
   (178, mkRunSubmission (canned_pipeline (cf_mul_wasm cf) 3 5) 60 SubmissionOrigin_Legacy);
   (195, mkRunSubmission (canned_pipeline (cf_add_wasm cf) 10 20) 60 SubmissionOrigin_Pipeline)].

(** C40: the coordinator of the third round, before anything else was submitted,
    takes everything the launcher pipes to it: provided the codecs read the
    launcher's pipeline back, the three replay keys, eight bytes of SHA-256,
    differ and each line's reading of the wall clock is
    within the replay window of the gate's own reading of it, the two short
    submissions and the pipeline all parse, pass the gate of the launcher's
    tenant file and are queued in order, each for the job the launcher meant. *)
Theorem launcher_jobs_queued cf now s lines arrivals :
  stdin_lines (cf_add_wasm cf) = Some lines → pipeline_reads_back (cf_add_wasm cf) →
  NoDup (fold_replay_key DEMO_TENANT_ID <$> (demo_jobs cf).*1) →
  sv_auth s = round_auth now RoundKind_SubmitStdin → sv_reading s = true → sv_done s = false → sv_queue s = [] →
  cf_queue_cap cf = 8%nat → ar_line <$> arrivals = lines →
  Forall (λ a, abs_diff (rd_now (ar_rd a)) (ar_now a) <= REPLAY_TTL_NS) arrivals →
  ∃ s', serve hash_order md cf ((λ a, Ev_line (ar_line a) (ar_now a) (ar_rd a) (ar_waiting a)) <$> arrivals) s =
      Some (s', zip_with (λ a r, Out_queued (Some (demo_registry now)) (ar_line a) r) arrivals (demo_jobs cf).*2) ∧
    sv_queue s' = (demo_jobs cf).*2.
Proof.
  intros Hlines Hback Hnd Hauth Hread Hdone Hq Hcap <- Hage. unfold stdin_lines, legacy_payloads in Hlines.
  cbn [mapM] in Hlines.
  destruct (sign_and_serialize (mkJobSubmissionPayload DEMO_TENANT_ID "add" _ _ _ _) _) as [l1|] eqn:E1; [|done].
  destruct (sign_and_serialize (mkJobSubmissionPayload DEMO_TENANT_ID "mul" _ _ _ _) _) as [l2|] eqn:E2; [|done].
  destruct (pipeline_submission _) as [l3|] eqn:E3; [|done]. cbn in Hlines.
  destruct arrivals as [|a1 [|a2 [|a3 [|]]]]; try done. cbn in Hlines. injection Hlines as -> -> ->.
  apply (legacy_submission_honest now cf JobKind_Add) in E1; [|done..].
  apply (legacy_submission_honest now cf JobKind_Mul) in E2; [|done..].
  apply (pipeline_submission_honest now cf _ Hback) in E3.
  rewrite !Forall_cons in Hage. destruct Hage as (Ha1 & Ha2 & Ha3 & _).
  destruct (batch_queued hash_order md cf (demo_registry now) DEMO_TENANT_ID (tenant_record now)
    (zip [a1; a2; a3] (demo_jobs cf)) (au_gate (auth_start (demo_registry now))) s) as (s' & Hs & Hq').
  - do 3 (constructor; [by split|]). constructor.
  - exact Hnd.
  - done.
  - split; [done|]. split; [by repeat constructor|]. cbn. rewrite lookup_empty. unfold uint. lia.
  - by rewrite Hauth.
  - done.
  - done.
  - rewrite Hq, Hcap. cbn. lia.
  - exists s'. split; [exact Hs|]. by rewrite Hq', Hq.
Qed.

End submissions.

(** * Witnesses *)

Import (hints) Toy ToyCodec ToyTree ToyJson ToyCbor ToyVrf ToyTls.
Import TokenWire.

(** Certificates in the clear, as in [ToyTls], over seven-bit numbers and with
    PEM texts that read back; a digest that starts with its checksum; and the
    wire of [TokenWire] with pipelines. *)
Module ToyLaunch.

#[export] Instance launch_sha256 : Sha256 := λ b, wrap 8 (sumz b) :: replicate 31 0.

#[export] Instance launch_sha256_bytes : Sha256Bytes.
Proof.
  intros b. split; [done|]. constructor; [|by_decide]. unfold uint, wrap. apply Z.mod_pos_bound. lia.
Qed.

#[export] Instance launch_rcgen : Rcgen := {
  RcKeyPair := Z;
  Issuer := Z;
  rc_generate random := Ok random;
  rc_params_new _ := Ok ();
  rc_self_signed _ key := Ok [wrap 7 key];
  rc_issuer_new _ key := key;
  rc_signed_by subject serial _ issuer :=
    if bool_decide (uint 7 serial) then Ok [wrap 7 issuer; serial; wrap 7 (sumz subject)] else Err [];
  rc_crl_signed_by _ serials issuer := Ok (wrap 7 issuer :: serials);
  rc_cert_pem der := 1 :: Z.of_nat (length der) :: der;
  rc_serialize_pem key := [3; 1; wrap 7 key];
  rc_serialize_der key := [wrap 7 key];
}.

Lemma wrap7 n : 0 <= wrap 7 n < 128.
Proof. apply Z.mod_pos_bound. lia. Qed.

#[export] Instance launch_rcgen_laws : RcgenLaws.
Proof.
  split.
  - intros name key ca subject serial k c [= <-]. cbn. case_bool_decide; [|done]. intros [= <-].
    split; [by apply bool_decide_true|done].
  - intros name key ca now serials l [= <-] [= <-]. split; [by apply bool_decide_true|]. intros n. cbn. by rewrite drop_0.
Qed.

Lemma text_bytes s : Forall (λ c, 0 <= c < 128) s → as_bytes s = s.
Proof. apply as_bytes_ascii. Qed.

#[export] Instance launch_tls : LaunchTls.
Proof.
  split.
  - intros name key ca [= <-]. cbn [rc_cert_pem launch_rcgen length]. rewrite text_bytes; [done|]. repeat constructor; cbn; try lia; apply wrap7.
  - intros subject serial k iss der. cbn. case_bool_decide as Hs; [|done]. intros [= <-]. unfold uint in Hs.
    rewrite text_bytes; [done|]. repeat constructor; cbn; try lia; apply wrap7.
  - intros k. cbn [rc_serialize_pem launch_rcgen]. rewrite text_bytes; [done|]. repeat constructor; try lia; apply wrap7.
  - done.
  - intros c roots roots' [= <-]. cbn. by destruct roots.
  - done.
  - done.
Qed.

(** Connections are made at once; a certificate is for the names with its
    checksum. *)
Definition idle_side : tls_side unit := mkTlsSide _ (λ _, false) (λ c, Ok ([], c)) (λ _ c, Ok c) (λ c, Ok c) (λ _, false).

#[export] Instance launch_machines : TlsMachines := {|
  ClientConnection := unit;
  ServerConnection := unit;
  server_name_ok name := if bool_decide (name = []) then Err [] else Ok ();
  client_new _ _ := Ok ();
  server_new _ := Ok ();
  client_side := idle_side;
  server_side := idle_side;
|}.

#[export] Instance launch_peers : TlsPeers := {|
  server_chain cfg := cfg.2;
  client_chain cfg := cfg.2;
  server_accepted cfg name chain :=
    match chain with
    | [c] => existsb (λ ca, cert_issued_by c ca) cfg.1 && bool_decide (c !! 2%nat = Some (wrap 7 (sumz name)))
    | _ => false
    end;
|}.

#[export] Instance launch_peers_laws : TlsPeersLaws.
Proof.
  split; try done.
  - by intros v chain key cfg [= <-].
  - by intros roots chain key cfg [= <-].
  - intros name key ca roots chain k cfg subject serial k' der [= <-] Hroots [= <-]. cbn in Hroots. subst roots.
    cbn [rc_signed_by launch_rcgen]. case_bool_decide; [|done]. intros [= <-]. cbn. by rewrite !bool_decide_true.
Qed.

Definition read_pipeline_tokens (ts : list (list Z)) : option PipelineJobSubmission :=
  match ts with
  | [_; pcbor; _; ds; _; tid; _; nonce; _; pk; _; sg] =>
      ds ← parse_u64 ds; tid ← parse_u64 tid; nonce ← parse_uint (2 ^ 128 - 1) nonce;
      Some (mkPipelineJobSubmission pcbor ds (Some tid) (Some nonce) (Some pk) (Some sg))
  | _ => None
  end.

Definition launch_add : bytes := [1].

Definition launch_pipeline : Pipeline := canned_pipeline launch_add 10 20.

#[export] Instance launch_wire : SubmissionWire := {|
  json_has_pipeline line := Some (bool_decide (head (tokens line) = Some (chars "pipeline_cbor_hex")));
  json_legacy line := read_tokens (tokens line);
  json_pipeline line := read_pipeline_tokens (tokens line);
  pipeline_from_reader b :=
    if decide (b = cbor_bytes (cb_pipeline launch_pipeline)) then Some launch_pipeline else None;
|}.

#[export] Instance launch_line_laws : SubmissionLineLaws.
Proof.
  constructor. intros k a b ds tid nonce pk sg Ha Hb Hds Htid Hn Hpk Hsg Hpne Hsne. cbn zeta.
  cbn [json_has_pipeline json_legacy launch_wire]. unfold int32 in Ha, Hb.
  assert (Hds' : uint 64 ds) by (revert Hds; unfold_uint; lia).
  rewrite tokens_line; [|destruct k; by_decide|by apply hex_text_clean|by apply hex_text_clean].
  split; [done|]. unfold read_tokens. assert (read_kind (chars (as_wire k)) = Some k) as -> by by destruct k.
  cbn [mbind option_bind]. rewrite !parse_show_i64 by lia. cbn [mbind option_bind].
  rewrite !parse_show_u64 by done. cbn [mbind option_bind]. by rewrite parse_show_u128.
Qed.

#[export] Instance launch_pipeline_laws : PipelineLineLaws.
Proof.
  constructor. intros pcbor tid nonce pk sg Htid Hn Hpc Hpk Hsg Hpcne Hpne Hsne. cbn zeta.
  apply hex_text_clean in Hpc, Hpk, Hsg; [|done..].
  assert (Ht : tokens (pipeline_line pcbor tid nonce pk sg) =
    [chars "pipeline_cbor_hex"; pcbor; chars "deadline_secs"; chars "60"; chars "tenant_id"; show_u64 tid; chars "nonce";
     show_u128 nonce; chars "pubkey_hex"; pk; chars "signature_hex"; sg]).
  { unfold pipeline_line, quoted. tokenize. }
  cbn [json_has_pipeline json_pipeline launch_wire]. rewrite Ht. split; [done|]. unfold read_pipeline_tokens.
  replace (parse_u64 (chars "60")) with (Some 60) by reflexivity. cbn [mbind option_bind].
  rewrite parse_show_u64 by done. cbn [mbind option_bind]. by rewrite parse_show_u128.
Qed.

End ToyLaunch.
Import (hints) ToyLaunch.

Definition demo_launch : launch_env := mkLaunchEnv (chars "/tmp") 42 5 (λ i, 10 + i) (λ _, true).

Definition launch_order : list (nat * (nat → agent_env)) :=
  (λ n, (n, λ _, mkAgentEnv [] (λ _, demo_env []))) <$> [3; 0; 4; 1; 2]%nat.

Definition launch_files (d : disk) (p : list Z) : result bytes open_error :=
  match d !! p with Some t => Ok (as_bytes t) | None => Err OpenError_NotFound end.

Definition launch_start (d : disk) (fleet : list net_event) : start_env :=
  mkStartEnv (launch_files d) (λ p, match d !! p with Some t => File_text t | None => File_missing end)
    (λ _, Ok None) true [] (λ _, None) ∅ true true (λ _, true) (Some ([1], [2])) fleet.

Lemma launcher_fleet_forms_witness :
  ∃ certs d evs p agents, generate_certs demo_launch = Some (certs, d) ∧
    start (launch_start d evs) (chars "/bin/coordinator" :: coord_args certs ADDR_SIGTERM RoundKind_Sigterm) = Ok p ∧
    Forall2 (in_step []) (launched launch_order) agents.
Proof.
  assert (Hgen : is_Some (generate_certs demo_launch)) by by_decide.
  destruct (generate_certs demo_launch) as [[certs d]|] eqn:Eg; [|by destruct Hgen].
  set (connect := mapM (λ p, agent_connects (launch_files d)
    (coordinator_at (launch_start d []) (chars "/bin/coordinator" :: coord_args certs ADDR_SIGTERM RoundKind_Sigterm))
    (chars "/bin/agent" :: agent_args certs ADDR_SIGTERM p.1) p.2) launch_order).
  destruct (launcher_fleet_forms demo_launch certs d (launch_start d (default [] connect)) (chars "/bin/coordinator")
    (chars "/bin/agent") ADDR_SIGTERM RoundKind_Sigterm launch_order) as (evs & Hm & Hstart).
  - exact Eg.
  - cbn. lia.
  - split; try done.
    + intros path text Hp. cbn. unfold launch_files. by rewrite Hp.
    + intros path text Hp. cbn. by rewrite Hp.
  - by_decide.
  - by_decide.
  - by right; left.
  - by_decide.
  - destruct Hstart as (p & agents & Hp & Hin & _).
    { change (connect = Some evs) in Hm. change (default [] connect = evs). by rewrite Hm. }
    exists certs, d, (default [] connect), p, agents. by split_and!.
Defined.

Definition launch_config : config :=
  mkConfig 3 u64_max (S754_finite false 8388608 (-25)) false true 8 21 21 ToyLaunch.launch_add [2].

Definition launch_service : service :=
  service_start launch_config [] (LogBackend_Mem MerkleLog.new) None ∅ (round_auth 5 RoundKind_SubmitStdin).

Lemma launcher_jobs_queued_witness :
  ∃ lines s' outs, stdin_lines ToyLaunch.launch_add = Some lines ∧
    serve map_to_list Checked launch_config
      ((λ a, Ev_line (ar_line a) (ar_now a) (ar_rd a) (ar_waiting a)) <$>
         ((λ l, mkArrival l 0 (mkReadings 0 0 0) false) <$> lines)) launch_service = Some (s', outs) ∧
    length (sv_queue s') = 3%nat.
Proof.
  assert (Hl : is_Some (stdin_lines ToyLaunch.launch_add)) by by_decide.
  destruct (stdin_lines ToyLaunch.launch_add) as [lines|] eqn:El; [|by destruct Hl].
  destruct (launcher_jobs_queued map_to_list Checked launch_config 5 launch_service lines
    ((λ l, mkArrival l 0 (mkReadings 0 0 0) false) <$> lines)) as (s' & Hs & Hq).
  - exact El.
  - split; [done|]. split; [by_decide|reflexivity].
  - by_decide.
  - reflexivity.
  - reflexivity.
  - reflexivity.
  - reflexivity.
  - reflexivity.
  - rewrite <-list_fmap_compose. apply list_fmap_id.
  - apply Forall_fmap, Forall_true. intros l. cbn. done.
  - eexists lines, s', _. split; [done|]. split; [exact Hs|]. by rewrite Hq.
Defined.
